(* ===== verification/_CoqProject ===== *)
-Q . S2P
Prelude.v
Text.v
Record.v
Codec.v
CodecProofs.v
CodecTheorems.v
Disk.v
Calls.v
Wal.v
Reader.v
Errors.v
Recovery.v
Lock.v
Heap.v
Merge.v
MergeProofs.v
Sources.v
Bounded.v
BatchProofs.v
Spill.v
MergeTheorems.v
Time.v
Config.v
Manifest.v
Columns.v
ColumnsProofs.v
ColumnsTheorems.v
ReadBack.v
View.v
Planner.v
Local.v
Decode.v
FlushBounds.v
FlushLocal.v
MergeFaults.v
Total.v
FlushRows.v
FlushTable.v
FlushStage.v
FlushTotal.v
FlushStaged.v
FlushCrash.v
FlushTheorems.v
Beside.v
Durable.v
FlushCalls.v
FlushOrder.v
PowerCut.v
Sweep.v
SweepCrash.v
SweepTheorems.v
FlushCompletes.v
Writer.v
WriterProofs.v
WriterSteps.v
WriterTheorems.v
WriterWedge.v
Engine.v
EngineProofs.v
EngineTheorems.v
EngineOpen.v
EngineFlush.v
EngineRows.v
EngineReadBack.v
Client.v
Server.v
Wire.v
ClientTheorems.v
ServerTheorems.v
Cli.v
