(* ===== verification/Prelude.v ===== *)
(** * orc: a verified model of an embedded append engine

    The crate under [src/src/] takes records (a timestamp, an id, typed keys, free-form
    pairs and a payload) into a write-ahead log and turns the log into sorted Parquet
    files, one per series, schema epoch and hour. This development translates it, part by
    part, into functions on values and proves what the parts promise, alone and composed.

    ** The program and its model

    - A record is encoded into a checksummed frame ([codec.rs]: files Codec, CodecProofs,
      CodecTheorems; the data model of [record.rs] and [error.rs] is in Record, the text
      of the errors in Errors, what the code uses of Rust strings in Text).
    - The writer appends frames to the active segment of the log, rolls to a new segment,
      and a committer thread syncs it ([wal/writer.rs]: Writer with the critical sections,
      WriterSteps with the interleavings, WriterProofs, WriterTheorems, WriterWedge). The
      names and the listing of segments are in Wal ([wal/mod.rs]), the cursor over a
      segment in Reader ([wal/reader.rs]), the start of the log and the ownership of the
      directory in Recovery and Lock ([wal/recovery.rs]).
    - A flush decodes sealed segments into a batch, sorts it, spills it as runs over
      budget and merges runs and batch ([flush/merge.rs]: Heap, Merge, Bounded, Sources,
      Spill and their proofs), streams each group into one file per hour
      ([flush/parquet.rs]: Columns, ColumnsProofs, ColumnsTheorems; partition names from
      [time.rs]: Time), commits the manifest ([manifest.rs]: Manifest), publishes the
      files, deletes the segments and rewrites the views ([flush/view.rs]: View). The job
      is [flush/planner.rs]: Planner has its definitions; Decode, FlushLocal, MergeFaults,
      FlushRows, FlushTable, FlushStage, FlushStaged and FlushCrash follow its phases and
      FlushTheorems states the result; Total, FlushTotal and FlushCompletes show that a
      flush whose calls all succeed returns, FlushBounds what it holds in memory; Beside, Durable, FlushCalls, FlushOrder
      and PowerCut follow the calls of a flush one by one; Sweep, SweepCrash and
      SweepTheorems are the clean-up after an interrupted flush. [flush/read.rs] reads the
      tables back (ReadBack).
    - The engine composes these ([engine.rs]: Engine, with EngineProofs, EngineTheorems for
      appends and ingest, EngineOpen for the start, EngineFlush, EngineRows and
      EngineReadBack for the flush); its configuration is [config.rs]: Config.
    - Remote producers: the client batches frames ([client.rs]: Client, ClientTheorems) and
      the server hands them to the engine ([server.rs]: Server, ServerTheorems); control
      calls go from one to the other in Wire, and Cli has the two binaries ([bin/]).

    Definitions keep the names of the source; where one function of the source is several
    definitions (the phases of [planner::run], the body of a loop), the doc comment of
    each says which part it is. A loop is a [Fixpoint] over the list it walks or over
    fuel; structs are Records, enums are Inductives, [Result] is [result].

    ** State, effects and failures

    Everything that touches files is a computation of the monad [io] (file Disk): a tree
    whose leaves are the named calls of [std::fs] and [File] ([Rename], [SyncFile],
    [ReadDir], ...; the type [call]), joined by sequencing and by handlers of errors.
    [exec] runs a tree in a world that holds the files and a script. Each call consumes
    one entry of the script, which lets the call behave as the files say, fail without
    effect, write a part, or stop the process there. A theorem for every script is a
    theorem for every sequence of I/O errors and every crash point; a theorem about the
    empty script is one about a run without faults. [triple P m C Q] says that from files
    in [P] every intermediate end of [m] (an error, a stop) satisfies [C] and a value
    satisfies [Q]; [local D m] that [m] changes no file outside [D].

    Since a computation is its calls, its order is there to speak of. [trace m w] (file
    Calls) is what a run calls and is answered; a [Monitor] accepts or rejects traces, and
    [wp] with its rules shows that every run of a tree is accepted. [exec_beside] (file
    Beside) runs a tree while other threads change files between its calls.

    Power cuts. [dirty] of a trace are the files with bytes that are not synced, and
    [power_cut u fs d] says that [d] may be on the disk instead of [fs]: the files [u]
    hold anything or are gone. Renames and removals are taken to reach the disk in the
    order of the calls, so that an older state of the directories is the state at an
    earlier stop; the monitor of Durable does without that and also keeps the names whose
    directory is not synced. For the log, Writer records the length each sync made
    durable.

    Pure error paths are values of [result]. Integers are [Z] at the width of the source:
    where the code wraps, saturates or casts, the definition does; where it cannot
    overflow the theorem has the bound as a hypothesis. Clock readings are inputs.

    ** Parameters

    Code outside the repository is a class, with its documented behaviour as laws:
    [Crc32] (crc32fast: a function of the bytes into 32 bits), [Parquet] (the file's
    bytes as a function of schema, properties and chunks) and [ParquetReader] (reading
    returns what was written), [ManifestJson] and [ControlJson] (serde_json: printing and
    parsing are inverse on values of the Rust types), [Lowercase] (the Unicode table),
    [StdText] (the texts the standard library takes from tables). Each has a concrete
    instance, used by the witnesses.

    ** Theorems, by what they show

    - Whole-program safety. [SweepTheorems.flush_all_or_nothing] and
      [FlushTheorems.flush_crash_safe]: under any faults, and in the first also after any
      power cut, a flush is the identity on everything that matters or its whole output is
      published, and what it publishes is, per group and hour, the table of exactly the
      rows of the consumed segments, each once. [WriterTheorems.wal_log_exact],
      [wal_power_cut] and [commit_turn_syncs]: the log is the acknowledged appends in order, in every interleaving; what is lost at a
      power cut is at most what was not synced, and after one turn of the committer that
      is nothing that was acknowledged before.
      [EngineOpen.open_safe_and_ready], [Recovery.recover_keeps_frames]: a start loses no
      record. [Manifest.commit_atomic], power cuts included; [SweepCrash.sweep_restartable].
    - Order and interleaving of a flush. [FlushOrder.flush_keeps_order]: in every run, up
      to any stop, everything is synced before something is done that relies on it, with
      one exception (the name of [series/] itself in the flush that creates it).
      [FlushOrder.flush_beside_appends]: appends that create and extend other segments
      between any two calls of a flush change nothing of it and are not changed by it, so
      the theorems on a flush alone are theorems on a flush in a running engine.
    - From the caller to the table. [EngineTheorems.append_all_or_nothing],
      [append_raw_exact]; [ServerTheorems.remote_rows_reach_log],
      [ClientTheorems.client_stream_exact]; [Wire.control_is_handle];
      [Cli.cli_send_exact]; [EngineFlush.flush_takes_everything], and their compositions [EngineRows.accepted_rows_in_tables] and
      [EngineReadBack.accepted_rows_read_back]: what [append] accepted is, after the next
      flush, in the tables, in order and once, and [read_file] returns it.
    - Termination. [FlushCompletes.flush_completes]: without faults the flush returns a
      summary, given that the timestamps fit the signed column; that the records it takes
      otherwise fit the columns is [FlushTotal.taken_records_fit], about the decode stage.
    - Memory. [FlushBounds.flush_memory_bounded]: the batch and the segment buffer, the
      open sources of a merge and the rows buffered for a file are bounded, stated as
      equality with versions of the loops that assert the bounds.
    - Each component against its specification: the codec's round trips and its split of
      failures; the reader against [frames_of]; the merge against the sorted union of its
      sources ([MergeTheorems.merge_delivers_first_arrivals]) through the class
      [SourceLaws], which its two sources implement; the bounded merge against the
      unbounded one; the streaming Parquet writer against the one-shot writer; the
      calendar at the width of [i64] and where it overflows ([Time.civil_dates_exact]);
      the configuration against what the other components need ([Config.validate_exact]);
      the text of a view against the tokens of the statement meant, by a reader of SQL's
      words, quotes and comments ([View.view_names_exact]).
    - What goes wrong: [WriterWedge.failed_roll_is_permanent],
      [ClientTheorems.lower_limit_wedges], [Recovery.recover_reuses_ids],
      [Config.segment_bound_wraps], [Time.last_day].

    ** Bounds and fuel

    Loops with fuel get a measure that suffices, and the theorems are about that call:
    the reader and [decode_frames] use the length of the buffer (a frame has at least one
    byte), the merge the total size of its sources, the pre-merge the number of runs. The
    hypotheses [fits], [flushable] and [short_names] are bounds any real directory meets:
    ids and file lengths are machine words, a frame is shorter than 2^32 bytes, and the
    name of a series is short enough for the 16-bit offset of a batch entry (a longer one
    makes [push] in [flush/merge.rs] truncate the offset).

    ** Not modelled

    Log messages, [Debug] text and socket options have no effect on the state; the
    interpolated values of a [Config] message are left out of it (see [Error]). Buffer
    sizes, thread-local scratch buffers and empty directories are invisible in the model
    for the reasons given in Planner, Engine and Sources. [main] of the binaries parses
    arguments, sets up logging and prints. The parsing of JSON and the bytes of Parquet
    are the parameters above. *)

From Stdlib Require Import ZArith Lia.
From Stdlib Require Import Strings.Byte.
From stdpp Require Export base list gmap sorting strings.
Open Scope Z_scope.

(** ** Bytes

    A Rust [&[u8]], [Vec<u8>] or [&str] is a [list byte]; a [&str] in addition
    satisfies [utf8_valid] (file Text), the invariant of the Rust type. *)

Abbreviation bytes := (list byte).

#[export] Instance byte_eq_dec : EqDecision byte := Byte.byte_eq_dec.

Definition byte_val (b : byte) : Z := Z.of_N (Byte.to_N b).

(** [x as u8]: the low eight bits. *)
Definition byte_of (z : Z) : byte :=
  match Byte.of_N (Z.to_N (z mod 256)) with
  | Some b => b
  | None => x00
  end.

#[export] Program Instance byte_countable : Countable byte :=
  inj_countable Byte.to_N Byte.of_N _.
Next Obligation. apply Byte.of_to_N. Qed.

(** The bytes of a string literal of the source. *)
Definition lit (s : string) : bytes := String.list_byte_of_string s.

(** Lengths are [usize] values: [Z], the number of elements. *)
Definition zlen {A} (l : list A) : Z := Z.of_nat (length l).

(** [&v[a..b]] for a range the caller has checked. *)
Definition slice {A} (a b : Z) (l : list A) : list A :=
  take (Z.to_nat (b - a)) (drop (Z.to_nat a) l).

(** Machine widths. [usize] is 64 bits wide. *)
Definition u8_lim : Z := 2 ^ 8.
Definition u16_lim : Z := 2 ^ 16.
Definition u32_lim : Z := 2 ^ 32.
Definition u64_lim : Z := 2 ^ 64.
Definition usize_lim : Z := 2 ^ 64.
Definition i64_lim : Z := 2 ^ 63.

Definition u64_max : Z := u64_lim - 1.

(** [a.saturating_add(b)] and [a.saturating_mul(b)] on [u64]. *)
Definition sat_add (a b : Z) : Z := Z.min (a + b) u64_max.
Definition sat_mul (a b : Z) : Z := Z.min (a * b) u64_max.
(** [a.saturating_sub(b)] on an unsigned type. *)
Definition sat_sub (a b : Z) : Z := Z.max (a - b) 0.
(** Unchecked [u64] arithmetic of a release build. *)
Definition wrap64 (a : Z) : Z := a mod u64_lim.

(** Unchecked [i64] arithmetic of a release build. *)
Definition wrap_i64 (a : Z) : Z := (a + i64_lim) mod u64_lim - i64_lim.

(** [x.to_le_bytes()] of an [n]-byte integer (two's complement when signed) and
    [from_le_bytes] at an unsigned type. *)
Fixpoint le_bytes (n : nat) (z : Z) : bytes :=
  match n with
  | O => []
  | S n' => byte_of z :: le_bytes n' (z / 256)
  end.

Fixpoint le_val (l : bytes) : Z :=
  match l with
  | [] => 0
  | b :: l' => byte_val b + 256 * le_val l'
  end.

(** [from_le_bytes] at a signed 64-bit type. *)
Definition to_signed64 (z : Z) : Z := if z <? i64_lim then z else z - u64_lim.

Lemma wrap_i64_small a : - i64_lim <= a < i64_lim -> wrap_i64 a = a.
Proof. intros Ha. unfold wrap_i64. rewrite Z.mod_small; [lia|]. unfold i64_lim, u64_lim in *. lia. Qed.

Lemma wrap_i64_range a : - i64_lim <= wrap_i64 a < i64_lim.
Proof.
  unfold wrap_i64. pose proof (Z.mod_pos_bound (a + i64_lim) u64_lim ltac:(done)).
  unfold i64_lim, u64_lim in *. lia.
Qed.

(** Only the last wrap of a sum matters. *)
Lemma wrap_i64_add a b : wrap_i64 (wrap_i64 a + b) = wrap_i64 (a + b).
Proof.
  unfold wrap_i64. f_equal.
  replace ((a + i64_lim) mod u64_lim - i64_lim + b + i64_lim) with ((a + i64_lim) mod u64_lim + b) by lia.
  rewrite Zplus_mod_idemp_l. f_equal. lia.
Qed.

(** ** Results *)

(** Rust's [Result<A, E>]; the error type first, so that [result E] is a monad. *)
Inductive result (E A : Type) : Type :=
| Ok (a : A)
| Err (e : E).
Arguments Ok {E A} a.
Arguments Err {E A} e.

#[export] Instance result_ret E : MRet (result E) := fun A a => Ok a.
#[export] Instance result_bind E : MBind (result E) := fun A B f m =>
  match m with
  | Ok a => f a
  | Err e => Err e
  end.
#[export] Instance result_fmap E : FMap (result E) := fun A B f m =>
  match m with
  | Ok a => Ok (f a)
  | Err e => Err e
  end.

Definition map_err {E E' A} (f : E -> E') (m : result E A) : result E' A :=
  match m with
  | Ok a => Ok a
  | Err e => Err (f e)
  end.

Definition is_ok {E A} (m : result E A) : bool :=
  match m with Ok _ => true | Err _ => false end.

(** ** Orders

    Rust's [Ord]: a three-way comparison with the laws of a total order. *)

Class Cmp (A : Type) := cmp : A -> A -> comparison.

Class CmpLaws (A : Type) `{Cmp A} : Prop := {
  cmp_eq : forall x y : A, cmp x y = Eq <-> x = y;
  cmp_opp : forall x y : A, cmp y x = CompOpp (cmp x y);
  cmp_lt_trans : forall x y z : A, cmp x y = Lt -> cmp y z = Lt -> cmp x z = Lt
}.

#[export] Instance cmp_Z : Cmp Z := Z.compare.
#[export] Instance cmp_byte : Cmp byte := fun a b => byte_val a ?= byte_val b.

(** Tuples compare lexicographically. *)
#[export] Instance cmp_prod {A B} `{Cmp A} `{Cmp B} : Cmp (A * B) := fun x y =>
  match cmp x.1 y.1 with
  | Eq => cmp x.2 y.2
  | c => c
  end.

(** So do slices; [str] order is the order of its bytes. *)
Fixpoint list_cmp {A} `{Cmp A} (x y : list A) : comparison :=
  match x, y with
  | [], [] => Eq
  | [], _ :: _ => Lt
  | _ :: _, [] => Gt
  | a :: x', b :: y' =>
      match cmp a b with
      | Eq => list_cmp x' y'
      | c => c
      end
  end.
#[export] Instance cmp_list {A} `{Cmp A} : Cmp (list A) := list_cmp.

Definition ltb {A} `{Cmp A} (x y : A) : bool :=
  match cmp x y with Lt => true | _ => false end.
Definition eqb {A} `{Cmp A} (x y : A) : bool :=
  match cmp x y with Eq => true | _ => false end.

(** [x <= y], as the relation the sorting lemmas are about. *)
Definition cle {A} `{Cmp A} (x y : A) : Prop := cmp x y <> Gt.
Definition clt {A} `{Cmp A} (x y : A) : Prop := cmp x y = Lt.

#[export] Instance cle_dec {A} `{Cmp A} (x y : A) : Decision (cle x y).
Proof.
  unfold cle. refine (match cmp x y as c return Decision (c <> Gt) with
    | Gt => right (fun H => H eq_refl)
    | _ => left _ end); discriminate.
Defined.

(** [v.sort_unstable_by_key(f)] and [v.sort_by(..)]: one fixed sorting function;
    the lemmas only use that the result is a sorted permutation. *)
Definition key_le {A K} `{Cmp K} (f : A -> K) (x y : A) : Prop := cle (f x) (f y).
#[export] Instance key_le_dec {A K} `{Cmp K} (f : A -> K) (x y : A) :
  Decision (key_le f x y) := cle_dec (f x) (f y).
Definition sort_by_key {A K} `{Cmp K} (f : A -> K) (l : list A) : list A :=
  merge_sort (key_le f) l.

(** [Vec::dedup_by(same)]: [same x kept], where [kept] is the last element
    retained. *)
Fixpoint dedup_from {A} (same : A -> A -> bool) (kept : A) (l : list A) : list A :=
  match l with
  | [] => []
  | x :: l' =>
      if same x kept then dedup_from same kept l'
      else x :: dedup_from same x l'
  end.
Definition dedup_by {A} (same : A -> A -> bool) (l : list A) : list A :=
  match l with
  | [] => []
  | x :: l' => x :: dedup_from same x l'
  end.

(** ** Automation *)

Create HintDb orc.
Create Rewrite HintDb zlen.

(** Split the binds and matches of a successful or failed computation. *)
Ltac res_inv :=
  repeat match goal with
  | H : Ok _ = Ok _ |- _ => injection H as H; subst
  | H : Err _ = Err _ |- _ => injection H as H; subst
  | H : Ok _ = Err _ |- _ => discriminate H
  | H : Err _ = Ok _ |- _ => discriminate H
  | H : Some _ = Some _ |- _ => injection H as H; subst
  | H : Some _ = None |- _ => discriminate H
  | H : None = Some _ |- _ => discriminate H
  | H : (_, _) = (_, _) |- _ => injection H as H; subst
  end.

(** Case-split the scrutinee of the first match or if of a hypothesis. *)
Ltac split_in H :=
  match type of H with
  | context [match ?x with _ => _ end] => destruct x eqn:?; try discriminate H
  end.

Ltac split_goal :=
  match goal with
  | |- context [match ?x with _ => _ end] => destruct x eqn:?
  end.

(** Turn boolean comparisons on [Z] into propositions. *)
Ltac bool_to_prop :=
  repeat match goal with
  | H : (_ <? _) = true |- _ => apply Z.ltb_lt in H
  | H : (_ <? _) = false |- _ => apply Z.ltb_ge in H
  | H : (_ <=? _) = true |- _ => apply Z.leb_le in H
  | H : (_ <=? _) = false |- _ => apply Z.leb_gt in H
  | H : (_ =? _) = true |- _ => apply Z.eqb_eq in H
  | H : (_ =? _) = false |- _ => apply Z.eqb_neq in H
  | H : _ && _ = true |- _ => apply andb_true_iff in H as [? ?]
  | H : _ || _ = false |- _ => apply orb_false_iff in H as [? ?]
  | H : negb _ = true |- _ => apply negb_true_iff in H
  | H : negb _ = false |- _ => apply negb_false_iff in H
  end.

(** ** Lemmas: lengths and slices *)

Section lengths.
Context {A : Type}.
Implicit Types l pre mid post : list A.

Lemma zlen_nonneg l : 0 <= zlen l.
Proof. unfold zlen. lia. Qed.

Lemma zlen_nil : zlen (@nil A) = 0.
Proof. reflexivity. Qed.

Lemma zlen_cons x l : zlen (x :: l) = 1 + zlen l.
Proof. unfold zlen. cbn [length]. lia. Qed.

Lemma zlen_app l1 l2 : zlen (l1 ++ l2) = zlen l1 + zlen l2.
Proof. unfold zlen. rewrite length_app. lia. Qed.

Lemma zlen_take n l : zlen (take n l) = Z.min (Z.of_nat n) (zlen l).
Proof. unfold zlen. rewrite length_take. lia. Qed.

Lemma zlen_drop n l : zlen (drop n l) = Z.max 0 (zlen l - Z.of_nat n).
Proof. unfold zlen. rewrite length_drop. lia. Qed.

Lemma zlen_zero l : zlen l = 0 -> l = [].
Proof. destruct l; [done|]. rewrite zlen_cons. pose proof (zlen_nonneg l). lia. Qed.

Lemma zlen_slice a b l : 0 <= a -> a <= b -> b <= zlen l -> zlen (slice a b l) = b - a.
Proof. intros. unfold slice. rewrite zlen_take, zlen_drop. lia. Qed.

Lemma slice_app_mid pre mid post :
  slice (zlen pre) (zlen pre + zlen mid) (pre ++ mid ++ post) = mid.
Proof.
  unfold slice, zlen.
  replace (Z.to_nat (Z.of_nat (length pre))) with (length pre) by lia.
  rewrite drop_app_length.
  replace (Z.to_nat _) with (length mid) by lia. apply take_app_length.
Qed.

Lemma slice_prefix mid post : slice 0 (zlen mid) (mid ++ post) = mid.
Proof. exact (slice_app_mid [] mid post). Qed.

Lemma slice_full l : slice 0 (zlen l) l = l.
Proof. unfold slice, zlen. rewrite drop_0. apply take_ge. lia. Qed.

(** Three-way decomposition of a list at a range. *)
Lemma slice_decompose a b l :
  0 <= a -> a <= b -> b <= zlen l ->
  l = take (Z.to_nat a) l ++ slice a b l ++ drop (Z.to_nat b) l.
Proof.
  intros Ha Hab Hb. unfold slice.
  rewrite <-(take_drop (Z.to_nat a) l) at 1. f_equal.
  rewrite <-(take_drop (Z.to_nat (b - a)) (drop (Z.to_nat a) l)) at 1. f_equal.
  rewrite drop_drop. f_equal. lia.
Qed.

Lemma slice_drop a b l :
  0 <= a -> a <= b -> slice a b l ++ drop (Z.to_nat b) l = drop (Z.to_nat a) l.
Proof.
  intros Ha Hab. unfold slice.
  rewrite <-(take_drop (Z.to_nat (b - a)) (drop (Z.to_nat a) l)) at 2.
  rewrite drop_drop. do 2 f_equal. lia.
Qed.

(** A slice that starts behind a prefix. *)
Lemma slice_app_r a b l l' :
  0 <= a -> slice (zlen l + a) (zlen l + b) (l ++ l') = slice a b l'.
Proof.
  intros Ha. unfold slice, zlen.
  replace (Z.to_nat (Z.of_nat (length l) + a)) with (length l + Z.to_nat a)%nat by lia.
  rewrite drop_app_add. do 2 f_equal. lia.
Qed.

(** A slice only depends on the bytes below its end. *)
Lemma slice_app_l a b l l' :
  0 <= a -> a <= b -> b <= zlen l -> slice a b (l ++ l') = slice a b l.
Proof.
  intros. unfold slice, zlen in *.
  rewrite drop_app_le by lia. rewrite take_app_le; [done|].
  rewrite length_drop. lia.
Qed.
End lengths.

#[export] Hint Rewrite @zlen_nil @zlen_cons @zlen_app @zlen_take @zlen_drop : zlen.

Ltac zlen_lia :=
  autorewrite with zlen in *;
  repeat match goal with
  | |- context [zlen ?l] => lazymatch goal with
      | H : 0 <= zlen l |- _ => fail
      | _ => pose proof (zlen_nonneg l) end
  | _ : context [zlen ?l] |- _ => lazymatch goal with
      | H : 0 <= zlen l |- _ => fail
      | _ => pose proof (zlen_nonneg l) end
  end; lia.

(** ** Lemmas: bytes and little-endian integers *)

Lemma byte_val_range b : 0 <= byte_val b < 256.
Proof. unfold byte_val. pose proof (Byte.to_N_bounded b). lia. Qed.

Lemma byte_val_of z : byte_val (byte_of z) = z mod 256.
Proof.
  unfold byte_of, byte_val.
  pose proof (Z.mod_pos_bound z 256 ltac:(lia)) as Hr.
  pose proof (Byte.to_of_N_option_map (Z.to_N (z mod 256))) as H.
  destruct (Byte.of_N _) as [b|] eqn:E; cbn [option_map] in H.
  - apply Byte.to_of_N in E. rewrite E. lia.
  - destruct (N.leb_spec (Z.to_N (z mod 256)) 255); [done|lia].
Qed.

Lemma byte_val_inj a b : byte_val a = byte_val b -> a = b.
Proof.
  unfold byte_val. intros H. apply N2Z.inj in H.
  apply (f_equal Byte.of_N) in H. rewrite !Byte.of_to_N in H. congruence.
Qed.

Lemma byte_of_val b : byte_of (byte_val b) = b.
Proof.
  apply byte_val_inj. rewrite byte_val_of. apply Z.mod_small, byte_val_range.
Qed.

Lemma length_le_bytes n z : length (le_bytes n z) = n.
Proof. revert z. induction n as [|n IH]; intros z; cbn [le_bytes length]; auto. Qed.

Lemma zlen_le_bytes n z : zlen (le_bytes n z) = Z.of_nat n.
Proof. unfold zlen. by rewrite length_le_bytes. Qed.
#[export] Hint Rewrite zlen_le_bytes : zlen.

Lemma pow256_succ n : 256 ^ Z.of_nat (S n) = 256 * 256 ^ Z.of_nat n.
Proof. rewrite Nat2Z.inj_succ, Z.pow_succ_r by lia. done. Qed.

Lemma le_val_bytes n z : le_val (le_bytes n z) = z mod 256 ^ Z.of_nat n.
Proof.
  revert z. induction n as [|n IH]; intros z.
  - cbn. by rewrite Z.mod_1_r.
  - cbn [le_bytes le_val]. rewrite IH, byte_val_of, pow256_succ.
    rewrite Z.rem_mul_r by (try lia; apply Z.pow_pos_nonneg; lia). lia.
Qed.

Lemma le_val_range l : 0 <= le_val l < 256 ^ zlen l.
Proof.
  induction l as [|b l IH]; [by vm_compute|].
  rewrite zlen_cons, Z.pow_add_r, Z.pow_1_r by (zlen_lia). cbn [le_val].
  pose proof (byte_val_range b). nia.
Qed.

Lemma le_bytes_val l : le_bytes (length l) (le_val l) = l.
Proof.
  induction l as [|b l IH]; [done|]. cbn [length le_bytes le_val].
  pose proof (byte_val_range b). f_equal.
  - apply byte_val_inj. rewrite byte_val_of.
    rewrite Z.mul_comm, Z.mod_add by lia. by apply Z.mod_small.
  - rewrite Z.mul_comm, Z.div_add by lia. rewrite Z.div_small by lia. exact IH.
Qed.

Lemma le_bytes_val_n n l : length l = n -> le_bytes n (le_val l) = l.
Proof. intros <-. apply le_bytes_val. Qed.

Lemma le_val_bytes_small n z : 0 <= z < 256 ^ Z.of_nat n -> le_val (le_bytes n z) = z.
Proof. intros. rewrite le_val_bytes. by apply Z.mod_small. Qed.

(** Signed values survive the two's-complement encoding. *)
Lemma to_signed64_le z :
  - i64_lim <= z < i64_lim -> to_signed64 (le_val (le_bytes 8 z)) = z.
Proof.
  intros H. rewrite le_val_bytes. change (256 ^ Z.of_nat 8) with u64_lim.
  unfold to_signed64, u64_lim, i64_lim in *.
  destruct (Z.ltb_spec z 0).
  - rewrite <-(Z.mod_add z 1), Z.mod_small by lia.
    destruct (Z.ltb_spec (z + 1 * 2 ^ 64) (2 ^ 63)); lia.
  - rewrite Z.mod_small by lia. destruct (Z.ltb_spec z (2 ^ 63)); lia.
Qed.

Lemma le_bytes_signed l :
  length l = 8%nat -> le_bytes 8 (to_signed64 (le_val l)) = l.
Proof.
  intros H. rewrite <-(le_bytes_val_n 8 l H) at 2.
  unfold to_signed64. destruct (_ <? _); [done|].
  rewrite <-(le_bytes_val_n 8 (le_bytes 8 (le_val l - u64_lim))) by apply length_le_bytes.
  rewrite le_val_bytes. change (256 ^ Z.of_nat 8) with u64_lim.
  rewrite <-(le_bytes_val_n 8 (le_bytes 8 (le_val l))) by apply length_le_bytes.
  rewrite le_val_bytes. change (256 ^ Z.of_nat 8) with u64_lim.
  f_equal. rewrite <-(Z.mod_add (le_val l - u64_lim) 1) by (unfold u64_lim; lia).
  f_equal. lia.
Qed.

Lemma to_signed64_range l :
  length l = 8%nat -> - i64_lim <= to_signed64 (le_val l) < i64_lim.
Proof.
  intros H. pose proof (le_val_range l) as Hr. unfold zlen in Hr. rewrite H in Hr.
  change (256 ^ Z.of_nat 8) with u64_lim in Hr.
  unfold to_signed64, u64_lim, i64_lim in *.
  destruct (Z.ltb_spec (le_val l) (2 ^ 63)); lia.
Qed.

(** ** Lemmas: orders *)

#[export] Instance cmp_Z_laws : CmpLaws Z.
Proof.
  split; unfold cmp, cmp_Z; intros.
  - apply Z.compare_eq_iff.
  - apply Z.compare_antisym.
  - rewrite Z.compare_lt_iff in *. lia.
Qed.

#[export] Instance cmp_byte_laws : CmpLaws byte.
Proof.
  split; unfold cmp, cmp_byte; intros.
  - rewrite Z.compare_eq_iff. split; [apply byte_val_inj|congruence].
  - apply Z.compare_antisym.
  - rewrite Z.compare_lt_iff in *. lia.
Qed.

#[export] Instance cmp_prod_laws {A B} `{CmpLaws A} `{CmpLaws B} : CmpLaws (A * B).
Proof.
  split.
  - intros [a b] [a' b']. unfold cmp, cmp_prod. cbn [fst snd].
    destruct (cmp a a') eqn:E; [|split; [done|]|split; [done|]].
    + apply cmp_eq in E. subst. rewrite cmp_eq. split; congruence.
    + intros [= <- <-]. rewrite (proj2 (cmp_eq a a)) in E; done.
    + intros [= <- <-]. rewrite (proj2 (cmp_eq a a)) in E; done.
  - intros [a b] [a' b']. unfold cmp, cmp_prod. cbn [fst snd].
    rewrite (cmp_opp a a'). destruct (cmp a a'); cbn; auto using cmp_opp.
  - intros [a b] [a' b'] [a'' b'']. unfold cmp, cmp_prod. cbn [fst snd].
    destruct (cmp a a') eqn:E1; [|..|done].
    + apply cmp_eq in E1. subst. destruct (cmp a' a''); eauto using cmp_lt_trans.
    + intros _. destruct (cmp a' a'') eqn:E2; [|..|done].
      * apply cmp_eq in E2. subst. by rewrite E1.
      * by rewrite (cmp_lt_trans _ _ _ E1 E2).
Qed.

#[export] Instance cmp_list_laws {A} `{CmpLaws A} : CmpLaws (list A).
Proof.
  split; unfold cmp, cmp_list.
  - intros x. induction x as [|a x IH]; intros [|b y]; cbn; try (by split).
    destruct (cmp a b) eqn:E.
    + apply cmp_eq in E. subst. rewrite IH. split; congruence.
    + split; [done|]. intros [= -> ->]. rewrite (proj2 (cmp_eq b b)) in E; done.
    + split; [done|]. intros [= -> ->]. rewrite (proj2 (cmp_eq b b)) in E; done.
  - intros x. induction x as [|a x IH]; intros [|b y]; cbn; try done.
    rewrite (cmp_opp a b). destruct (cmp a b); cbn; auto.
  - intros x. induction x as [|a x IH]; intros [|b y] [|c z]; cbn; try done.
    destruct (cmp a b) eqn:E1; [|..|done].
    + apply cmp_eq in E1. subst. destruct (cmp b c); eauto.
    + intros _. destruct (cmp b c) eqn:E2; [|..|done].
      * apply cmp_eq in E2. subst. by rewrite E1.
      * by rewrite (cmp_lt_trans _ _ _ E1 E2).
Qed.

Section order_lemmas.
Context {A : Type} `{CmpLaws A}.
Implicit Types x y z : A.

Lemma cmp_refl x : cmp x x = Eq.
Proof. by apply cmp_eq. Qed.

Lemma cmp_gt_lt x y : cmp x y = Gt <-> cmp y x = Lt.
Proof. rewrite (cmp_opp x y). destruct (cmp x y); cbn; split; congruence. Qed.

Lemma cle_lt_eq x y : cle x y <-> clt x y \/ x = y.
Proof.
  unfold cle, clt. rewrite <-cmp_eq. destruct (cmp x y); intuition congruence.
Qed.

Lemma cle_not_clt x y : cle x y <-> ~ clt y x.
Proof. unfold cle, clt. by rewrite <-cmp_gt_lt. Qed.

#[export] Instance cle_trans : Transitive (@cle A _).
Proof.
  intros x y z. rewrite !cle_lt_eq. unfold clt.
  intros [?| ->] [?| ->]; eauto using cmp_lt_trans.
Qed.

#[export] Instance cle_refl : Reflexive (@cle A _).
Proof. intros x. apply cle_lt_eq. by right. Qed.

#[export] Instance cle_total : Total (@cle A _).
Proof.
  intros x y. unfold cle. rewrite (cmp_opp x y). destruct (cmp x y); cbn; auto.
Qed.

#[export] Instance cle_antisym : AntiSymm eq (@cle A _).
Proof.
  intros x y. rewrite !cle_lt_eq. unfold clt.
  intros [H1| ->] [H2|H2]; auto. rewrite (cmp_opp x y), H1 in H2. done.
Qed.

Lemma clt_irrefl x : ~ clt x x.
Proof. unfold clt. by rewrite cmp_refl. Qed.

Lemma cle_clt_trans x y z : cle x y -> clt y z -> clt x z.
Proof. rewrite cle_lt_eq. intros [?| ->]; [|done]. by apply cmp_lt_trans. Qed.

Lemma clt_cle_trans x y z : clt x y -> cle y z -> clt x z.
Proof. rewrite cle_lt_eq. intros ? [?| <-]; [|done]. by eapply cmp_lt_trans. Qed.

Lemma clt_cle x y : clt x y -> cle x y.
Proof. rewrite cle_lt_eq. auto. Qed.

Lemma eqb_eq x y : eqb x y = true <-> x = y.
Proof. unfold eqb. rewrite <-cmp_eq. destruct (cmp x y); intuition congruence. Qed.

Lemma eqb_neq x y : eqb x y = false <-> x <> y.
Proof. rewrite <-eqb_eq. destruct (eqb x y); intuition congruence. Qed.

Lemma eqb_refl x : eqb x x = true.
Proof. by apply eqb_eq. Qed.

Lemma ltb_lt x y : ltb x y = true <-> clt x y.
Proof. unfold ltb, clt. destruct (cmp x y); intuition congruence. Qed.

Lemma ltb_ge x y : ltb x y = false <-> cle y x.
Proof.
  rewrite cle_not_clt. rewrite <-ltb_lt. destruct (ltb x y); intuition congruence.
Qed.
End order_lemmas.

(** Lexicographic order, first component. *)
Lemma cle_fst {A B} `{CmpLaws A} `{CmpLaws B} (p q : A * B) : cle p q -> cle p.1 q.1.
Proof.
  unfold cle, cmp at 1, cmp_prod. destruct (cmp p.1 q.1); congruence.
Qed.

Lemma clt_fst {A B} `{CmpLaws A} `{CmpLaws B} (p q : A * B) : clt p.1 q.1 -> clt p q.
Proof. unfold clt, cmp at 2, cmp_prod. by intros ->. Qed.

(** ** Lemmas: sorting and deduplication *)

Section sort_lemmas.
Context {A K : Type} `{CmpLaws K} (f : A -> K).
Implicit Types l : list A.

#[export] Instance key_le_trans : Transitive (key_le f).
Proof. intros x y z. unfold key_le. apply cle_trans. Qed.

#[export] Instance key_le_total : Total (key_le f).
Proof. intros x y. unfold key_le. apply cle_total. Qed.

Lemma sort_perm l : sort_by_key f l ≡ₚ l.
Proof. apply merge_sort_Permutation. Qed.

Lemma sort_sorted l : StronglySorted (key_le f) (sort_by_key f l).
Proof. apply StronglySorted_merge_sort; apply _. Qed.

(** Sorting by a key and reading the keys off is sorting the keys. *)
Lemma sort_fmap l : f <$> sort_by_key f l = sort_by_key id (f <$> l).
Proof.
  apply (StronglySorted_unique (@cle K _)).
  - apply (StronglySorted_fmap f (key_le f)); [done|]. apply sort_sorted.
  - apply (StronglySorted_merge_sort (key_le id)); intros ?; apply _.
  - rewrite sort_perm. symmetry. apply merge_sort_Permutation.
Qed.
End sort_lemmas.

Lemma elem_of_sort {A K} `{CmpLaws K} (f : A -> K) (l : list A) x :
  x ∈ sort_by_key f l <-> x ∈ l.
Proof. by rewrite sort_perm. Qed.

(** A list already in order is not changed by sorting. *)
Lemma sort_id {K} `{CmpLaws K} (l : list K) :
  StronglySorted cle l -> sort_by_key id l = l.
Proof.
  intros Hs. apply (StronglySorted_unique (@cle K _)).
  - exact (sort_sorted id l).
  - done.
  - apply (sort_perm id l).
Qed.

Lemma dedup_fmap {A B} (f : A -> B) (same : B -> B -> bool) (l : list A) :
  f <$> dedup_by (fun x y => same (f x) (f y)) l = dedup_by same (f <$> l).
Proof.
  destruct l as [|x l]; [done|]. cbn. f_equal. revert x.
  induction l as [|y l IH]; intros x; cbn; [done|].
  destruct (same (f y) (f x)); cbn; [|f_equal]; apply IH.
Qed.

Lemma dedup_by_ext {A} (same same' : A -> A -> bool) (l : list A) :
  (forall x y, same x y = same' x y) -> dedup_by same l = dedup_by same' l.
Proof.
  intros E. destruct l as [|x l]; [done|]. cbn. f_equal. revert x.
  induction l as [|y l IH]; intros x; cbn; [done|].
  rewrite E, !IH. done.
Qed.

Lemma length_dedup_by {A} (same : A -> A -> bool) (l : list A) :
  (length (dedup_by same l) <= length l)%nat.
Proof.
  destruct l as [|x l]; [done|]. cbn. apply le_n_S. revert x.
  induction l as [|y l IH]; intros x; cbn; [done|].
  destruct (same y x); cbn; [|apply le_n_S]; auto with arith.
Qed.

(** Strictly sorted lists are determined by their members. *)
Lemma strict_unique {A K} `{CmpLaws K} (k : A -> K) (l1 l2 : list A) :
  StronglySorted (fun x y => clt (k x) (k y)) l1 ->
  StronglySorted (fun x y => clt (k x) (k y)) l2 ->
  (forall x, x ∈ l1 <-> x ∈ l2) -> l1 = l2.
Proof.
  revert l2. induction l1 as [|a l1 IH]; intros [|b l2] Hs1 Hs2 E.
  - done.
  - exfalso. specialize (E b). set_solver.
  - exfalso. specialize (E a). set_solver.
  - apply StronglySorted_cons in Hs1 as [Ha Hs1]. apply StronglySorted_cons in Hs2 as [Hb Hs2].
    rewrite Forall_forall in Ha, Hb.
    assert (a = b) as ->.
    { pose proof (proj1 (E a) ltac:(set_solver)) as Hab.
      pose proof (proj2 (E b) ltac:(set_solver)) as Hba.
      apply elem_of_cons in Hab as [?|Hab]; [done|].
      apply elem_of_cons in Hba as [?|Hba]; [done|].
      exfalso. apply (clt_irrefl (k a)).
      exact (cmp_lt_trans _ _ _ (Ha _ Hba) (Hb _ Hab)). }
    f_equal. apply IH; [done..|]. intros x. split; intros Hx.
    + pose proof (proj1 (E x) ltac:(set_solver)) as Hx'.
      apply elem_of_cons in Hx' as [->|?]; [|done]. exfalso. by apply (clt_irrefl (k b)), Ha.
    + pose proof (proj2 (E x) ltac:(set_solver)) as Hx'.
      apply elem_of_cons in Hx' as [->|?]; [|done]. exfalso. by apply (clt_irrefl (k b)), Hb.
Qed.

(** Deduplicating a list sorted on a pair key by the first component keeps
    exactly the least element of every class. *)
Section dedup_sorted.
Context {A K T : Type} `{CmpLaws K} `{CmpLaws T} (k : A -> K) (t : A -> T).
Implicit Types l : list A.

Definition full (x : A) : K * T := (k x, t x).
Definition same_key (x y : A) : bool := eqb (k x) (k y).

(** [x] is the first of its class in [l]. *)
Definition first_of l (x : A) : Prop :=
  x ∈ l /\ forall y, y ∈ l -> k y = k x -> cle (full x) (full y).

(** The full key identifies the elements of [l]. *)
Definition full_inj l : Prop :=
  forall x y, x ∈ l -> y ∈ l -> full x = full y -> x = y.

Lemma full_inj_perm l l' : l ≡ₚ l' -> full_inj l -> full_inj l'.
Proof. intros E Hi x y. rewrite <-E. apply Hi. Qed.

Lemma elem_of_dedup_from kept l x :
  StronglySorted (key_le full) (kept :: l) -> full_inj (kept :: l) ->
  x ∈ dedup_from same_key kept l <->
  x ∈ l /\ k x <> k kept /\ forall y, y ∈ l -> k y = k x -> cle (full x) (full y).
Proof.
  revert kept. induction l as [|y l IH]; intros kept Hs Hi.
  { cbn. set_solver. }
  apply StronglySorted_cons in Hs as [Hk Hs]. cbn [dedup_from].
  pose proof (Forall_cons_1 _ _ _ Hk) as [Hky Hkl].
  pose proof Hs as Hs'. apply StronglySorted_cons in Hs' as [Hy Hs'].
  rewrite Forall_forall in Hy. unfold same_key at 1.
  destruct (eqb (k y) (k kept)) eqn:E.
  - apply eqb_eq in E. rewrite IH.
    + setoid_rewrite elem_of_cons. split.
      * intros (Hx & Hne & Hmin). split_and!; [auto|done|].
        intros z [->|Hz] Hzk; [congruence|auto].
      * intros ([->|Hx] & Hne & Hmin); [congruence|]. auto 10.
    + apply StronglySorted_cons. done.
    + intros a b Ha Hb. apply Hi; set_solver.
  - apply eqb_neq in E. rewrite elem_of_cons, IH.
    + setoid_rewrite elem_of_cons. split.
      * intros [->|(Hx & Hne & Hmin)].
        { split_and!; [auto|done|]. intros z [->|Hz] _; [apply cle_refl|by apply Hy]. }
        split_and!; [auto| |].
        -- intros Heq. apply E. apply (anti_symm cle).
           ++ rewrite <-Heq. exact (cle_fst _ _ (Hy x Hx)).
           ++ exact (cle_fst _ _ Hky).
        -- intros z [->|Hz] Hzk; [congruence|auto].
      * intros ([->|Hx] & Hne & Hmin); [by left|].
        destruct (eqb (k x) (k y)) eqn:Exy; [apply eqb_eq in Exy; left|apply eqb_neq in Exy; right; auto].
        apply Hi; [set_solver..|]. apply (anti_symm cle).
        -- apply Hmin; [by left|done].
        -- by apply Hy.
    + done.
    + intros a b Ha Hb. apply Hi; set_solver.
Qed.

Lemma dedup_from_sorted kept l :
  StronglySorted (key_le full) (kept :: l) -> full_inj (kept :: l) ->
  StronglySorted (fun x y => clt (k x) (k y)) (kept :: dedup_from same_key kept l).
Proof.
  revert kept. induction l as [|y l IH]; intros kept Hs Hi.
  { cbn. repeat constructor. }
  pose proof Hs as Hs0. pose proof Hi as Hi0.
  apply StronglySorted_cons in Hs as [Hk Hs]. cbn [dedup_from].
  pose proof (Forall_cons_1 _ _ _ Hk) as [Hky Hkl].
  pose proof Hs as Hs'. apply StronglySorted_cons in Hs' as [Hy Hs'].
  unfold same_key at 1. destruct (eqb (k y) (k kept)) eqn:E.
  - apply IH; [apply StronglySorted_cons; done|].
    intros a b Ha Hb. apply Hi; set_solver.
  - apply eqb_neq in E.
    assert (StronglySorted (fun x y => clt (k x) (k y)) (y :: dedup_from same_key y l)) as HS.
    { apply IH; [done|]. intros a b Ha Hb. apply Hi; set_solver. }
    apply StronglySorted_cons. split; [|done].
    assert (clt (k kept) (k y)) as Hlt.
    { pose proof (cle_fst _ _ Hky) as Hle. cbn in Hle.
      apply cle_lt_eq in Hle as [?|?]; [done|congruence]. }
    apply StronglySorted_cons in HS as [HS _]. constructor; [done|].
    eapply Forall_impl; [exact HS|]. cbn. intros z Hz. by eapply cmp_lt_trans.
Qed.

Lemma dedup_sorted_strict l :
  StronglySorted (key_le full) l -> full_inj l ->
  StronglySorted (fun x y => clt (k x) (k y)) (dedup_by same_key l).
Proof. destruct l as [|x l]; [constructor|]. apply dedup_from_sorted. Qed.

Lemma elem_of_dedup_sorted l x :
  StronglySorted (key_le full) l -> full_inj l ->
  x ∈ dedup_by same_key l <-> first_of l x.
Proof.
  destruct l as [|y l]; intros Hs Hi; [unfold first_of; set_solver|].
  cbn [dedup_by]. rewrite elem_of_cons, elem_of_dedup_from by done.
  apply StronglySorted_cons in Hs as [Hy Hs]. rewrite Forall_forall in Hy.
  unfold first_of. setoid_rewrite elem_of_cons. split.
  - intros [->|(Hx & Hne & Hmin)].
    + split; [auto|]. intros z [->|Hz] _; [apply cle_refl|by apply Hy].
    + split; [auto|]. intros z [->|Hz] Hzk; [congruence|auto].
  - intros ([->|Hx] & Hmin); [by left|].
    destruct (eqb (k x) (k y)) eqn:Exy; [apply eqb_eq in Exy; left|apply eqb_neq in Exy; right; auto].
    apply Hi; [set_solver..|]. apply (anti_symm cle).
    + apply Hmin; [by left|done].
    + by apply Hy.
Qed.

(** The canonical deduplication of a multiset of records. *)
Definition dedup_sort l : list A := dedup_by same_key (sort_by_key full l).

Lemma elem_of_dedup_sort l x : full_inj l -> x ∈ dedup_sort l <-> first_of l x.
Proof.
  intros Hi. unfold dedup_sort. rewrite elem_of_dedup_sorted.
  - unfold first_of. by setoid_rewrite elem_of_sort.
  - apply sort_sorted.
  - eapply full_inj_perm; [|exact Hi]. symmetry. apply sort_perm.
Qed.

Lemma dedup_sort_strict l :
  full_inj l -> StronglySorted (fun x y => clt (k x) (k y)) (dedup_sort l).
Proof.
  intros Hi. apply dedup_sorted_strict; [apply sort_sorted|].
  eapply full_inj_perm; [|exact Hi]. symmetry. apply sort_perm.
Qed.
End dedup_sorted.

(** ** Lemmas: membership *)

Lemma elem_of_take_list {A} (l : list A) n x : x ∈ take n l -> x ∈ l.
Proof. intros Hx. rewrite <-(take_drop n l). set_solver. Qed.

Lemma elem_of_drop_list {A} (l : list A) n x : x ∈ drop n l -> x ∈ l.
Proof. intros Hx. rewrite <-(take_drop n l). set_solver. Qed.

Section filters.
Context {A : Type} (P : A -> Prop) `{!forall x, Decision (P x)}.
Implicit Types l : list A.

Lemma filter_all l : (forall x, x ∈ l -> P x) -> filter P l = l.
Proof.
  induction l as [|x l IH]; intros Hl; [done|]. rewrite filter_cons, decide_True by set_solver.
  f_equal. apply IH. set_solver.
Qed.

Lemma filter_none l : (forall x, x ∈ l -> ~ P x) -> filter P l = [].
Proof.
  induction l as [|x l IH]; intros Hl; [done|]. rewrite filter_cons, decide_False by set_solver.
  apply IH. set_solver.
Qed.

Lemma filter_sorted (R : A -> A -> Prop) l :
  StronglySorted R l -> StronglySorted R (filter P l).
Proof.
  induction 1 as [|x l Hs IH Hx]; [constructor|]. rewrite filter_cons.
  destruct (decide (P x)); [|done]. constructor; [done|].
  rewrite Forall_forall in Hx |- *. intros y Hy. apply list_elem_of_filter in Hy as [_ Hy]. auto.
Qed.
End filters.

(** A non-empty list is its front and its last element. *)
Lemma last_split {A} (l : list A) x : last l = Some x -> l = removelast l ++ [x].
Proof.
  induction l as [|y [|z l] IH]; [done|by intros [= ->]|]. intros E.
  change (removelast (y :: z :: l)) with (y :: removelast (z :: l)). cbn [app]. f_equal. auto.
Qed.

(** A sorted permutation is the sorted list, when the key identifies the elements. *)
Lemma sort_unique {A K} `{CmpLaws K} (f : A -> K) (l l' : list A) :
  (forall x y, x ∈ l -> y ∈ l -> f x = f y -> x = y) ->
  l' ≡ₚ l -> StronglySorted (key_le f) l' -> sort_by_key f l = l'.
Proof.
  intros Hinj Hp Hs. apply (StronglySorted_unique_strong (key_le f)).
  - intros x y Hx Hy Hxy Hyx. rewrite elem_of_sort in Hx. rewrite Hp in Hy.
    apply Hinj; [done..|]. by apply (anti_symm cle).
  - apply sort_sorted.
  - done.
  - by rewrite sort_perm, Hp.
Qed.

(** Sorting puts a least element first. *)
Lemma sort_min {A K} `{CmpLaws K} (f : A -> K) (l l' : list A) x :
  (forall x y, x ∈ l -> y ∈ l -> f x = f y -> x = y) ->
  l ≡ₚ x :: l' -> (forall y, y ∈ l -> cle (f x) (f y)) ->
  sort_by_key f l = x :: sort_by_key f l'.
Proof.
  intros Hinj Hp Hmin. apply sort_unique; [done|by rewrite sort_perm, Hp|].
  constructor; [apply sort_sorted|]. rewrite Forall_forall. intros y Hy.
  rewrite elem_of_sort in Hy. apply Hmin. rewrite Hp. set_solver.
Qed.

(** ** Lemmas: deduplicated unions *)

Section dedup_union.
Context {A K T : Type} `{CmpLaws K} `{CmpLaws T} (k : A -> K) (t : A -> T).
Implicit Types l : list A.

(** Every element has a first of its class. *)
Lemma first_exists l x : x ∈ l -> exists y, first_of k t l y /\ k y = k x.
Proof.
  intros Hx. induction l as [|a l IH] in x, Hx |- *; [set_solver|].
  assert (forall y, first_of k t l y -> cle (full k t y) (full k t a) \/ k y <> k a ->
    first_of k t (a :: l) y) as Hkeep.
  { intros y [Hy Hmin] Ha. split; [set_solver|]. intros z [->|Hz]%elem_of_cons Hk; [|auto].
    by destruct Ha. }
  destruct (eqb (k a) (k x)) eqn:Eax; [apply eqb_eq in Eax|apply eqb_neq in Eax].
  - destruct (existsb (fun z => eqb (k z) (k a)) l) eqn:He.
    + apply existsb_exists in He as (z & Hz & Hk). apply list_elem_of_In in Hz. apply eqb_eq in Hk.
      destruct (IH z Hz) as (y & Hy & Hyk).
      destruct (total cle (full k t y) (full k t a)) as [Hle|Hle].
      * exists y. split; [apply Hkeep; auto|congruence].
      * exists a. split; [|done]. split; [set_solver|]. intros b [->|Hb]%elem_of_cons Hbk; [done|].
        etrans; [exact Hle|]. apply Hy; [done|congruence].
    + exists a. split; [|done]. split; [set_solver|]. intros b [->|Hb]%elem_of_cons Hbk; [done|].
      exfalso. rewrite <-not_true_iff_false, existsb_exists in He. apply He.
      exists b. split; [by apply list_elem_of_In|by apply eqb_eq].
  - apply elem_of_cons in Hx as [->|Hx]; [done|]. destruct (IH x Hx) as (y & Hy & Hyk).
    exists y. split; [|done]. apply Hkeep; [done|]. right. congruence.
Qed.

(** Two lists with the same firsts deduplicate alike. *)
Lemma dedup_sort_ext l l' :
  full_inj k t l -> full_inj k t l' -> (forall x, first_of k t l x <-> first_of k t l' x) ->
  dedup_sort k t l = dedup_sort k t l'.
Proof.
  intros Hi Hi' E. apply (strict_unique k); [by apply dedup_sort_strict..|].
  intros x. rewrite !elem_of_dedup_sort by done. apply E.
Qed.

Lemma dedup_sort_incl l x : full_inj k t l -> x ∈ dedup_sort k t l -> x ∈ l.
Proof. intros Hi. rewrite elem_of_dedup_sort by done. by intros [? _]. Qed.

Lemma dedup_sort_perm l l' : full_inj k t l -> l ≡ₚ l' -> dedup_sort k t l = dedup_sort k t l'.
Proof.
  intros Hi Hp. apply dedup_sort_ext; [done|by eapply full_inj_perm|].
  intros x. unfold first_of. by setoid_rewrite Hp.
Qed.

(** Deduplicating a part first does not change the deduplicated whole. *)
Lemma dedup_sort_absorb l l' :
  full_inj k t (l ++ l') -> dedup_sort k t (dedup_sort k t l ++ l') = dedup_sort k t (l ++ l').
Proof.
  intros Hi.
  assert (full_inj k t l) as Hil by (intros x y Hx Hy; apply Hi; set_solver).
  assert (forall x, x ∈ dedup_sort k t l ++ l' -> x ∈ l ++ l') as Hin.
  { intros x [Hx|Hx]%elem_of_app; [apply dedup_sort_incl in Hx; [set_solver|done]|set_solver]. }
  apply dedup_sort_ext; [intros x y Hx Hy; apply Hi; auto|done|].
  intros x. split; intros [Hx Hmin]; split.
  - auto.
  - intros y [Hy|Hy]%elem_of_app Hk; [|apply Hmin; [set_solver|done]].
    destruct (first_exists l y Hy) as (z & Hz & Hzk). etrans; [apply (Hmin z)|by apply Hz].
    + apply elem_of_app. left. by apply elem_of_dedup_sort.
    + congruence.
  - apply elem_of_app in Hx as [Hx|Hx]; [|set_solver]. apply elem_of_app. left.
    apply elem_of_dedup_sort; [done|]. split; [done|]. intros y Hy Hk. apply Hmin; [set_solver|done].
  - intros y Hy. apply Hmin. auto.
Qed.

Lemma length_dedup_sort l : (length (dedup_sort k t l) <= length l)%nat.
Proof.
  unfold dedup_sort. etrans; [apply length_dedup_by|].
  by rewrite (Permutation_length (sort_perm (full k t) l)).
Qed.
End dedup_union.

Lemma sorted_impl {A} (R R' : A -> A -> Prop) (l : list A) :
  (forall x y, R x y -> R' x y) -> StronglySorted R l -> StronglySorted R' l.
Proof.
  intros HR. induction 1 as [|x l Hs IH Hx]; constructor; [done|].
  eapply Forall_impl; [exact Hx|]. auto.
Qed.

Lemma zlen_perm {A} (l l' : list A) : l ≡ₚ l' -> zlen l = zlen l'.
Proof. intros Hp. unfold zlen. by rewrite (Permutation_length Hp). Qed.

Lemma filter_ext_in {A} (P Q : A -> Prop) `{!forall x, Decision (P x)} `{!forall x, Decision (Q x)}
    (l : list A) : (forall x, x ∈ l -> P x <-> Q x) -> filter P l = filter Q l.
Proof.
  induction l as [|x l IH]; intros E; [done|]. rewrite !filter_cons, IH by set_solver.
  destruct (decide (P x)), (decide (Q x)); try done; exfalso; specialize (E x); set_solver.
Qed.

Lemma filter_Forall {A} (P Q : A -> Prop) `{!forall x, Decision (P x)} (l : list A) :
  Forall Q l -> Forall Q (filter P l).
Proof.
  rewrite !Forall_forall. intros Hl x Hx. apply list_elem_of_filter in Hx as [_ Hx]. auto.
Qed.

Lemma NoDup_fmap_eq {A B} (f : A -> B) (l : list A) x y :
  NoDup (f <$> l) -> x ∈ l -> y ∈ l -> f x = f y -> x = y.
Proof.
  induction l as [|a l IH]; [set_solver|]. cbn. intros Hnd Hx Hy E.
  apply NoDup_cons in Hnd as [Ha Hnd]. rewrite list_elem_of_fmap in Ha.
  apply elem_of_cons in Hx as [->|Hx]; apply elem_of_cons in Hy as [->|Hy]; auto;
    exfalso; apply Ha; eauto.
Qed.

(** Pairs with one first component compare by the second. *)
Lemma cle_same_fst {A B} `{CmpLaws A} `{CmpLaws B} (a : A) (x y : B) : cle (a, x) (a, y) <-> cle x y.
Proof. unfold cle, cmp at 1, cmp_prod. cbn. by rewrite cmp_refl. Qed.

Lemma cmp_triple_fst {A B C} `{CmpLaws A} `{CmpLaws B} `{CmpLaws C} (a : A) (x y : B) (s t : C) :
  cmp (a, x, s) (a, y, t) = cmp (x, s) (y, t).
Proof.
  unfold cmp at 1, cmp_prod at 1. cbn [fst snd]. unfold cmp at 1, cmp_prod at 1. cbn [fst snd].
  rewrite cmp_refl. unfold cmp at 3, cmp_prod. done.
Qed.
