(* ===== verification/Text.v ===== *)
(** * Text: what the sources use of Rust's [str], [format!] and [FromStr]

    UTF-8 validity ([std::str::from_utf8]), decimal printing with zero padding
    ([{n}], [{n:010}]), [str::parse] at the unsigned integer types, and the
    splitting functions [strip_suffix], [split_once], [rsplit_once], [split].
    The file names of the log and of the flush output, and the timestamps of
    [time.rs], are printed and parsed with these. *)

From Stdlib Require Import ZArith Lia.
From Stdlib Require Import Strings.Byte.
From S2P Require Import Prelude.
Open Scope Z_scope.

(** ** UTF-8 *)

Definition in_range (lo hi : Z) (b : byte) : bool :=
  (lo <=? byte_val b) && (byte_val b <=? hi).

(** A continuation byte. *)
Definition cont (b : byte) : bool := in_range 128 191 b.

(** Second byte of a three-byte sequence that starts with [b]. *)
Definition second3 (b : byte) : byte -> bool :=
  if byte_val b =? 224 then in_range 160 191
  else if byte_val b =? 237 then in_range 128 159
  else cont.

(** Second byte of a four-byte sequence that starts with [b]. *)
Definition second4 (b : byte) : byte -> bool :=
  if byte_val b =? 240 then in_range 144 191
  else if byte_val b =? 244 then in_range 128 143
  else cont.

Fixpoint utf8_valid (s : bytes) : bool :=
  match s with
  | [] => true
  | b :: s1 =>
      if byte_val b <? 128 then utf8_valid s1
      else if in_range 194 223 b then
        match s1 with
        | b1 :: s2 => cont b1 && utf8_valid s2
        | [] => false
        end
      else if in_range 224 239 b then
        match s1 with
        | b1 :: b2 :: s3 => second3 b b1 && cont b2 && utf8_valid s3
        | _ => false
        end
      else if in_range 240 244 b then
        match s1 with
        | b1 :: b2 :: b3 :: s4 => second4 b b1 && cont b2 && cont b3 && utf8_valid s4
        | _ => false
        end
      else false
  end.

(** ** Decimal digits *)

Definition is_digit (b : byte) : bool := in_range 48 57 b.
Definition all_digits (s : bytes) : bool := forallb is_digit s.
Definition digit (d : Z) : byte := byte_of (48 + d).
Definition digit_val (b : byte) : Z := byte_val b - 48.

Definition digits_val (s : bytes) : Z :=
  fold_left (fun acc b => acc * 10 + digit_val b) s 0.

(** Most significant digit first; [fuel] bounds the number of digits. *)
Fixpoint show_aux (fuel : nat) (n : Z) (acc : bytes) : bytes :=
  match fuel with
  | O => acc
  | S fuel' =>
      let acc' := digit (n mod 10) :: acc in
      if n <? 10 then acc' else show_aux fuel' (n / 10) acc'
  end.

(** [format!("{n}")] for [n >= 0]: a number has no more digits than bits. *)
Definition show (n : Z) : bytes := show_aux (S (Z.to_nat (Z.log2 n))) n [].

(** [format!("{n:0w}")] for [n >= 0]. *)
Definition show_pad (w : nat) (n : Z) : bytes :=
  replicate (w - length (show n)) x30 ++ show n.

(** [s.parse::<uN>().ok()] with [2^N = lim]: an optional [+], digits, no
    overflow. *)
Definition parse_uint (lim : Z) (s : bytes) : option Z :=
  let s' := match s with
            | b :: r => if decide (b = x2b) then r else s
            | [] => s
            end in
  if (0 <? zlen s') && all_digits s' && (digits_val s' <? lim)
  then Some (digits_val s') else None.

(** ** Splitting *)

Definition strip_suffix (suf s : bytes) : option bytes :=
  let n := (length s - length suf)%nat in
  if decide (drop n s = suf /\ (length suf <= length s)%nat) then Some (take n s) else None.

Fixpoint split_once (c : byte) (s : bytes) : option (bytes * bytes) :=
  match s with
  | [] => None
  | b :: r =>
      if decide (b = c) then Some ([], r)
      else match split_once c r with
           | Some (x, y) => Some (b :: x, y)
           | None => None
           end
  end.

(** Last occurrence of a non-empty pattern. *)
Fixpoint rsplit_once (pat s : bytes) : option (bytes * bytes) :=
  match s with
  | [] => None
  | b :: r =>
      match rsplit_once pat r with
      | Some (x, y) => Some (b :: x, y)
      | None =>
          if decide (take (length pat) s = pat) then Some ([], drop (length pat) s) else None
      end
  end.

(** [s.split(c)]: the pieces between separators; never empty. *)
Fixpoint split (c : byte) (s : bytes) : list bytes :=
  match s with
  | [] => [[]]
  | b :: r =>
      if decide (b = c) then [] :: split c r
      else match split c r with
           | p :: ps => (b :: p) :: ps
           | [] => [[b]]
           end
  end.

(** ** Lemmas: digits *)

Lemma digit_val_digit d : 0 <= d < 10 -> digit_val (digit d) = d.
Proof.
  intros. unfold digit_val, digit. rewrite byte_val_of, Z.mod_small by lia. lia.
Qed.

Lemma is_digit_digit d : 0 <= d < 10 -> is_digit (digit d) = true.
Proof.
  intros. unfold is_digit, in_range, digit. rewrite byte_val_of, Z.mod_small by lia.
  apply andb_true_iff. lia.
Qed.

Lemma all_digits_digit d : 0 <= d < 10 -> all_digits [digit d] = true.
Proof. intros. unfold all_digits. cbn [forallb]. by rewrite is_digit_digit. Qed.

Lemma is_digit_range b : is_digit b = true -> 0 <= digit_val b < 10.
Proof. unfold is_digit, in_range, digit_val. intros. bool_to_prop. lia. Qed.

Lemma digit_of_val b : is_digit b = true -> digit (digit_val b) = b.
Proof.
  intros H. apply is_digit_range in H. unfold digit, digit_val in *.
  replace (48 + (byte_val b - 48)) with (byte_val b) by lia. apply byte_of_val.
Qed.

Lemma all_digits_app s t : all_digits (s ++ t) = all_digits s && all_digits t.
Proof. apply forallb_app. Qed.

Lemma all_digits_spec s : all_digits s = true <-> forall b, b ∈ s -> is_digit b = true.
Proof.
  unfold all_digits. rewrite forallb_forall.
  split; intros H b Hb; apply H; by apply list_elem_of_In.
Qed.

Lemma digits_val_acc s a :
  fold_left (fun acc b => acc * 10 + digit_val b) s a
  = a * 10 ^ zlen s + digits_val s.
Proof.
  unfold digits_val. revert a. induction s as [|b s IH]; intros a.
  - cbn [fold_left]. rewrite zlen_nil. lia.
  - cbn [fold_left]. rewrite IH, (IH (0 * 10 + digit_val b)).
    rewrite zlen_cons, Z.pow_add_r by zlen_lia. lia.
Qed.

Lemma digits_val_cons b s :
  digits_val (b :: s) = digit_val b * 10 ^ zlen s + digits_val s.
Proof.
  change (digits_val (b :: s))
    with (fold_left (fun acc b => acc * 10 + digit_val b) s (0 * 10 + digit_val b)).
  rewrite digits_val_acc. lia.
Qed.

Lemma digits_val_app s t :
  digits_val (s ++ t) = digits_val s * 10 ^ zlen t + digits_val t.
Proof. unfold digits_val at 1. rewrite fold_left_app. apply digits_val_acc. Qed.

Lemma digits_val_range s : all_digits s = true -> 0 <= digits_val s < 10 ^ zlen s.
Proof.
  induction s as [|b s IH]; [by vm_compute|]. cbn [all_digits forallb]. intros H.
  apply andb_true_iff in H as [Hb Hs]. apply is_digit_range in Hb.
  specialize (IH Hs). rewrite digits_val_cons, zlen_cons, Z.pow_add_r by zlen_lia. nia.
Qed.

Lemma digits_val_replicate n s : digits_val (replicate n x30 ++ s) = digits_val s.
Proof.
  induction n as [|n IH]; [done|]. cbn [replicate app]. rewrite digits_val_cons, IH. done.
Qed.

Lemma all_digits_replicate n : all_digits (replicate n x30) = true.
Proof. induction n; [done|]. cbn. done. Qed.

(** Two digit strings of one length that denote the same number are equal. *)
Lemma digits_val_inj s t :
  all_digits s = true -> all_digits t = true -> length s = length t ->
  digits_val s = digits_val t -> s = t.
Proof.
  revert t. induction s as [|a s IH]; intros [|b t] Hs Ht Hl Hv; try done.
  injection Hl as Hl. cbn [all_digits forallb] in Hs, Ht.
  apply andb_true_iff in Hs as [Ha Hs]. apply andb_true_iff in Ht as [Hb Ht].
  rewrite !digits_val_cons in Hv. assert (zlen s = zlen t) as Hz by (unfold zlen; lia).
  pose proof (digits_val_range s Hs) as R1. pose proof (digits_val_range t Ht) as R2.
  rewrite Hz in *. assert (digit_val a = digit_val b) as Hab by nia.
  f_equal; [|apply IH; nia || done].
  rewrite <-(digit_of_val a), <-(digit_of_val b) by done. by f_equal.
Qed.

(** ** Lemmas: printing *)

(** [s] is the shortest digit string of [n]. *)
Definition shortest (n : Z) (s : bytes) : Prop :=
  all_digits s = true /\ digits_val s = n /\ 1 <= zlen s /\
  (zlen s = 1 \/ 10 ^ (zlen s - 1) <= n).

Lemma show_aux_spec fuel n acc :
  0 <= n < 10 ^ Z.of_nat (S fuel) ->
  exists s, show_aux (S fuel) n acc = s ++ acc /\ shortest n s.
Proof.
  revert n acc. induction fuel as [|fuel IH]; intros n acc Hn.
  - change (10 ^ Z.of_nat 1) with 10 in Hn. cbn [show_aux].
    destruct (Z.ltb_spec n 10); [|lia].
    exists [digit (n mod 10)]. rewrite Z.mod_small by lia. split; [done|].
    unfold shortest; split_and!; [apply all_digits_digit; lia| |done|by left].
    rewrite digits_val_cons, digit_val_digit by lia. rewrite zlen_nil. cbn. lia.
  - rewrite Nat2Z.inj_succ, Z.pow_succ_r in Hn by lia. cbn [show_aux].
    pose proof (Z.mod_pos_bound n 10 ltac:(lia)) as Hm.
    pose proof (Z.div_mod n 10 ltac:(lia)) as Hdm.
    destruct (Z.ltb_spec n 10).
    + exists [digit (n mod 10)]. rewrite Z.mod_small by lia. split; [done|].
      unfold shortest; split_and!; [apply all_digits_digit; lia| |done|by left].
      rewrite digits_val_cons, digit_val_digit by lia. rewrite zlen_nil. cbn. lia.
    + destruct (IH (n / 10) (digit (n mod 10) :: acc)) as (s & Hs & Hd & Hv & Hl & Hmin).
      { split; [apply Z.div_pos; lia|]. apply Z.div_lt_upper_bound; lia. }
      exists (s ++ [digit (n mod 10)]). cbn [show_aux] in Hs. rewrite Hs, <-app_assoc.
      split; [done|]. unfold shortest. split_and!.
      * rewrite all_digits_app, Hd. apply all_digits_digit; lia.
      * rewrite digits_val_app, Hv. rewrite digits_val_cons, digit_val_digit by lia.
        rewrite zlen_cons, zlen_nil. cbn. lia.
      * zlen_lia.
      * right. rewrite zlen_app, zlen_cons, zlen_nil.
        replace (zlen s + (1 + 0) - 1) with (Z.succ (zlen s - 1)) by lia.
        rewrite Z.pow_succ_r by lia. destruct Hmin as [->|Hmin]; [cbn; lia|lia].
Qed.

Lemma show_spec n : 0 <= n -> shortest n (show n).
Proof.
  intros Hn. unfold show.
  destruct (show_aux_spec (Z.to_nat (Z.log2 n)) n []) as (s & Hs & Hsh).
  - split; [done|]. rewrite Nat2Z.inj_succ, Z2Nat.id by apply Z.log2_nonneg.
    destruct (Z.eq_dec n 0) as [->|]; [done|].
    pose proof (Z.log2_spec n ltac:(lia)) as [_ Hlt].
    eapply Z.lt_le_trans; [exact Hlt|]. apply Z.pow_le_mono_l. lia.
  - rewrite Hs, app_nil_r. done.
Qed.

(** The number of digits: at most [k] exactly when [n < 10^k]. *)
Lemma shortest_len n s k : shortest n s -> 1 <= k -> zlen s <= k <-> n < 10 ^ k.
Proof.
  intros (Hd & Hv & Hl & Hmin) Hk. pose proof (digits_val_range s Hd) as Hr. split; intros H.
  - rewrite Hv in Hr. eapply Z.lt_le_trans; [apply Hr|]. apply Z.pow_le_mono_r; lia.
  - destruct Hmin as [?|Hmin]; [lia|].
    assert (10 ^ (zlen s - 1) < 10 ^ k) as Hp by lia.
    apply Z.pow_lt_mono_r_iff in Hp; lia.
Qed.

Lemma show_digits n : 0 <= n -> all_digits (show n) = true.
Proof. intros H. apply (show_spec n H). Qed.

Lemma show_val n : 0 <= n -> digits_val (show n) = n.
Proof. intros H. apply (show_spec n H). Qed.

Lemma show_nonempty n : 0 <= n -> 1 <= zlen (show n).
Proof. intros H. apply (show_spec n H). Qed.

Lemma show_pad_digits w n : 0 <= n -> all_digits (show_pad w n) = true.
Proof.
  intros. unfold show_pad. by rewrite all_digits_app, all_digits_replicate, show_digits.
Qed.

Lemma show_pad_val w n : 0 <= n -> digits_val (show_pad w n) = n.
Proof. intros. unfold show_pad. rewrite digits_val_replicate. by apply show_val. Qed.

Lemma length_show_pad w n :
  length (show_pad w n) = Nat.max w (length (show n)).
Proof. unfold show_pad. rewrite length_app, length_replicate. lia. Qed.

Lemma length_show_pad_small w n :
  0 <= n < 10 ^ Z.of_nat w -> (1 <= w)%nat -> length (show_pad w n) = w.
Proof.
  intros [H0 H1] Hw. rewrite length_show_pad.
  apply (shortest_len n (show n) (Z.of_nat w)) in H1; [|by apply show_spec|lia].
  unfold zlen in H1. lia.
Qed.

Lemma show_pad_inj w n m : 0 <= n -> 0 <= m -> show_pad w n = show_pad w m -> n = m.
Proof.
  intros Hn Hm E. apply (f_equal digits_val) in E. by rewrite !show_pad_val in E.
Qed.

(** A number that does not fit the pad width is printed without padding, so its
    first digit is not zero. *)
Lemma show_pad_head w n :
  0 <= n -> (1 <= w < length (show_pad w n))%nat -> head (show_pad w n) <> Some x30.
Proof.
  intros Hn. rewrite length_show_pad. intros Hw Hh. unfold show_pad in Hh.
  replace (w - length (show n))%nat with 0%nat in Hh by lia. cbn [replicate app] in Hh.
  destruct (show_spec n Hn) as (Hd & Hv & Hl & Hmin).
  destruct (show n) as [|b s] eqn:E; [done|]. injection Hh as ->.
  cbn [all_digits forallb] in Hd. apply andb_true_iff in Hd as [_ Hd].
  pose proof (digits_val_range s Hd) as Hr. rewrite digits_val_cons in Hv.
  change (digit_val x30) with 0 in Hv. rewrite zlen_cons in *.
  destruct Hmin as [Hmin|Hmin].
  - cbn [length] in Hw. unfold zlen in Hmin. lia.
  - replace (1 + zlen s - 1) with (zlen s) in Hmin by lia. lia.
Qed.

(** The converse: a digit string that is as wide as its number prints is the one
    [show_pad] prints. *)
Lemma show_pad_unique w s :
  all_digits s = true -> (1 <= w)%nat -> (w <= length s)%nat ->
  (length s = w \/ head s <> Some x30) -> show_pad w (digits_val s) = s.
Proof.
  intros Hd Hw1 Hw Hc. pose proof (digits_val_range s Hd) as Hr.
  apply digits_val_inj; [apply show_pad_digits; lia|done| |apply show_pad_val; lia].
  destruct Hc as [Hc|Hc].
  - rewrite length_show_pad_small; [done| |done]. unfold zlen in Hr. by rewrite Hc in Hr.
  - rewrite length_show_pad. destruct s as [|b s]; [cbn in Hw; lia|].
    cbn [all_digits forallb] in Hd. apply andb_true_iff in Hd as [Hb Hd].
    pose proof (digits_val_range s Hd) as Hr'. pose proof (is_digit_range b Hb) as Hb'.
    assert (digit_val b <> 0) as Hnz.
    { intros Hz. apply Hc. cbn. f_equal. rewrite <-(digit_of_val b Hb), Hz. done. }
    rewrite digits_val_cons, zlen_cons in *.
    set (n := digit_val b * 10 ^ zlen s + digits_val s) in *.
    assert (10 ^ zlen s <= n) by nia.
    pose proof (show_spec n ltac:(lia)) as Hsh.
    pose proof (zlen_nonneg s) as Hs0. cbn [length] in *.
    pose proof (proj2 (shortest_len n (show n) (1 + zlen s) Hsh ltac:(lia)) ltac:(lia)) as U.
    destruct (Z.eq_dec (zlen s) 0) as [Z0|Z0].
    + pose proof (show_nonempty n ltac:(lia)). unfold zlen in *. lia.
    + assert (~ zlen (show n) <= zlen s) as L.
      { intros L. apply (shortest_len n (show n) (zlen s) Hsh) in L; lia. }
      unfold zlen in *. lia.
Qed.

(** [str::parse] of what was printed. *)
Lemma parse_uint_show_pad lim w n :
  0 <= n < lim -> parse_uint lim (show_pad w n) = Some n.
Proof.
  intros Hn. unfold parse_uint.
  pose proof (show_pad_digits w n ltac:(lia)) as Hd.
  pose proof (show_pad_val w n ltac:(lia)) as Hv.
  assert (1 <= zlen (show_pad w n)) as Hl.
  { pose proof (show_nonempty n ltac:(lia)). unfold zlen in *. rewrite length_show_pad. lia. }
  destruct (show_pad w n) as [|b r] eqn:E; [by cbn in Hl|].
  rewrite decide_False.
  - rewrite Hd, Hv. destruct (Z.ltb_spec 0 (zlen (b :: r))); [|lia].
    destruct (Z.ltb_spec n lim); [done|lia].
  - intros ->. cbn in Hd. done.
Qed.

Lemma show_as_pad n : 0 <= n -> show n = show_pad 1 n.
Proof.
  intros Hn. unfold show_pad. pose proof (show_nonempty n Hn) as H.
  replace (1 - length (show n))%nat with 0%nat by (unfold zlen in H; lia). done.
Qed.

Lemma parse_uint_show lim n : 0 <= n < lim -> parse_uint lim (show n) = Some n.
Proof. intros. rewrite show_as_pad by lia. by apply parse_uint_show_pad. Qed.

(** On a string of digits, [parse] is the value of the digits. *)
Lemma parse_uint_digits lim s n :
  all_digits s = true -> parse_uint lim s = Some n -> n = digits_val s /\ n < lim.
Proof.
  intros Hd. unfold parse_uint. destruct s as [|b r]; [done|].
  rewrite decide_False; [|intros ->; by cbn in Hd].
  intros H. split_in H. bool_to_prop. res_inv. auto.
Qed.

(** ** Lemmas: splitting *)

Lemma strip_suffix_app p suf : strip_suffix suf (p ++ suf) = Some p.
Proof.
  unfold strip_suffix. rewrite length_app.
  replace (length p + length suf - length suf)%nat with (length p) by lia.
  rewrite decide_True by (rewrite drop_app_length; split; [done|lia]).
  by rewrite take_app_length.
Qed.

Lemma strip_suffix_Some suf s p : strip_suffix suf s = Some p -> s = p ++ suf.
Proof.
  unfold strip_suffix. destruct (decide _) as [[Ha _]|]; [|done]. intros ?. res_inv.
  rewrite <-Ha at 2. by rewrite take_drop.
Qed.

Lemma split_once_app c a b : c ∉ a -> split_once c (a ++ c :: b) = Some (a, b).
Proof.
  induction a as [|x a IH]; intros Hc; cbn.
  - by rewrite decide_True.
  - apply not_elem_of_cons in Hc as [Hx Hc].
    rewrite decide_False by congruence. by rewrite IH.
Qed.

Lemma split_once_Some c s a b : split_once c s = Some (a, b) -> s = a ++ c :: b /\ c ∉ a.
Proof.
  revert a b. induction s as [|x s IH]; intros a b; cbn; [done|].
  destruct (decide (x = c)) as [->|Hx].
  - intros ?. res_inv. split; [done|set_solver].
  - destruct (split_once c s) as [[y z]|]; [|done]. intros ?. res_inv.
    destruct (IH y b eq_refl) as [-> Hn]. split; [done|set_solver].
Qed.

Lemma digits_no_sep c s : all_digits s = true -> is_digit c = false -> c ∉ s.
Proof. intros Hd Hc Hin. rewrite all_digits_spec in Hd. rewrite (Hd c Hin) in Hc. done. Qed.

Lemma split_no_sep c s : c ∉ s -> split c s = [s].
Proof.
  induction s as [|x s IH]; intros Hc; cbn; [done|].
  apply not_elem_of_cons in Hc as [Hx Hc]. rewrite decide_False by congruence.
  by rewrite IH.
Qed.

Lemma split_app_sep c a b : c ∉ a -> split c (a ++ c :: b) = a :: split c b.
Proof.
  induction a as [|x a IH]; intros Hc; cbn.
  - by rewrite decide_True.
  - apply not_elem_of_cons in Hc as [Hx Hc]. rewrite decide_False by congruence.
    by rewrite IH.
Qed.

(** ASCII is UTF-8. *)
Lemma utf8_ascii s : (forall b, b ∈ s -> byte_val b < 128) -> utf8_valid s = true.
Proof.
  induction s as [|b s IH]; intros Ha; [done|]. cbn [utf8_valid].
  destruct (Z.ltb_spec (byte_val b) 128) as [|Hge].
  - apply IH. intros c Hc. apply Ha. set_solver.
  - specialize (Ha b ltac:(set_solver)). lia.
Qed.

Lemma digit_ascii b : is_digit b = true -> byte_val b < 128.
Proof. unfold is_digit, in_range. intros. bool_to_prop. lia. Qed.

(** ** Lemmas: the order of fixed-width text *)

Lemma cmp_app (a b x y : bytes) : length a = length b ->
  cmp (a ++ x) (b ++ y) = match cmp a b with Eq => cmp x y | c => c end.
Proof.
  unfold cmp, cmp_list. revert b. induction a as [|h a IH]; intros [|h' b] E; try done.
  cbn. destruct (cmp h h'); [|done..]. apply IH. by injection E.
Qed.

Lemma cmp_byte_digit b b' : cmp b b' = (digit_val b ?= digit_val b').
Proof.
  unfold cmp, cmp_byte, digit_val. destruct (Z.compare_spec (byte_val b) (byte_val b')); symmetry;
    [apply Z.compare_eq_iff|apply Z.compare_lt_iff|apply Z.compare_gt_iff]; lia.
Qed.

Lemma cmp_digits s t :
  all_digits s = true -> all_digits t = true -> length s = length t ->
  cmp s t = (digits_val s ?= digits_val t).
Proof.
  revert t. induction s as [|b s IH]; intros [|b' t] Hs Ht E; try done.
  cbn in Hs, Ht. apply andb_true_iff in Hs as [Hb Hs], Ht as [Hb' Ht]. injection E as E.
  rewrite !digits_val_cons. unfold zlen. rewrite E.
  pose proof (digits_val_range s Hs) as Rs. pose proof (digits_val_range t Ht) as Rt.
  unfold zlen in Rs, Rt. rewrite E in Rs. set (p := 10 ^ Z.of_nat (length t)) in *.
  unfold cmp, cmp_list. cbn. rewrite cmp_byte_digit.
  destruct (Z.compare_spec (digit_val b) (digit_val b')) as [Ed|Hd|Hd].
  - change (list_cmp s t) with (cmp s t). rewrite IH by done. rewrite Ed.
    destruct (Z.compare_spec (digits_val s) (digits_val t)); symmetry;
      [apply Z.compare_eq_iff|apply Z.compare_lt_iff|apply Z.compare_gt_iff]; lia.
  - symmetry. apply Z.compare_lt_iff. nia.
  - symmetry. apply Z.compare_gt_iff. nia.
Qed.

Lemma cmp_show_pad w n m : (1 <= w)%nat -> 0 <= n < 10 ^ Z.of_nat w -> 0 <= m < 10 ^ Z.of_nat w ->
  cmp (show_pad w n) (show_pad w m) = (n ?= m).
Proof.
  intros Hw Hn Hm. rewrite cmp_digits, !show_pad_val by
    (try apply show_pad_digits; rewrite ?length_show_pad_small by done; lia || done). done.
Qed.
