(* ===== verification/Record.v ===== *)
(** * Record: the record model and the error types

    [record.rs] (values, key types, rows), the [KeyDef] of [config.rs] and the
    [Error] enum of [error.rs]. An [f64] is its bit pattern: the codec bit-casts
    it and nothing in the crate computes with it. *)

From Stdlib Require Import ZArith Lia.
From Stdlib Require Import Strings.Byte.
From S2P Require Import Prelude Text.
Open Scope Z_scope.

(** [enum Value]. *)
Inductive Value : Type :=
| VNull
| VBool (b : bool)
| VI64 (i : Z)
| VF64 (bits : Z)
| VStr (s : bytes).

(** [enum KeyType]. *)
Inductive KeyType : Type := KBool | KI64 | KF64 | KStr.

#[export] Instance key_type_eq_dec : EqDecision KeyType.
Proof. solve_decision. Defined.

#[export] Instance value_eq_dec : EqDecision Value.
Proof. solve_decision. Defined.

(** [mod tag]: the wire tags. *)
Definition tag_null : Z := 0.
Definition tag_bool : Z := 1.
Definition tag_i64 : Z := 2.
Definition tag_f64 : Z := 3.
Definition tag_str : Z := 4.

(** [Value::tag]. *)
Definition value_tag (v : Value) : Z :=
  match v with
  | VNull => tag_null
  | VBool _ => tag_bool
  | VI64 _ => tag_i64
  | VF64 _ => tag_f64
  | VStr _ => tag_str
  end.

(** [Value::key_type]. *)
Definition value_key_type (v : Value) : option KeyType :=
  match v with
  | VNull => None
  | VBool _ => Some KBool
  | VI64 _ => Some KI64
  | VF64 _ => Some KF64
  | VStr _ => Some KStr
  end.

(** [struct Row]. *)
Record Row := mkRow {
  row_ts : Z;
  row_id : bytes;
  row_keys : list Value;
  row_extra : list (bytes * bytes);
  row_data : bytes
}.

(** [struct RecordRef]: the fixed part of a decoded frame. *)
Record RecordRef := mkRecord {
  rec_ts : Z;
  rec_epoch : Z;
  rec_series : bytes;
  rec_id : bytes;
  rec_data : bytes
}.

(** [struct KeyDef] (config.rs). *)
Record KeyDef := mkKey {
  key_name : bytes;
  key_ty : KeyType;
  key_nullable : bool
}.

#[export] Instance key_def_eq_dec : EqDecision KeyDef.
Proof. solve_decision. Defined.

(** The kinds of [std::io::Error] the code distinguishes. *)
Inductive IoError : Type :=
| NotFound
| AlreadyExists
| InvalidData (what : string)
| OtherIo (what : string).

(** [enum Error]. The text of a [Config] error is the fixed part of the message,
    without the interpolated values. *)
Inductive Error : Type :=
| UnknownSeries (name : bytes)
| KeyArity (series : bytes) (expected got : Z)
| TypeMismatch (series key : bytes) (expected : KeyType) (got : option KeyType)
| TsOutOfRange (ts min max : Z)
| RecordTooLarge (size limit : Z)
| BatchTooLarge (size limit : Z)
| ConfigErr (msg : string)
| Locked (dir : bytes)
| Io (e : IoError)
| Json (msg : string).

(** ** The invariants of the Rust types *)

(** A [&str]. *)
Definition str_wf (s : bytes) : Prop := utf8_valid s = true.

Definition value_wf (v : Value) : Prop :=
  match v with
  | VNull | VBool _ => True
  | VI64 i => - i64_lim <= i < i64_lim
  | VF64 bits => 0 <= bits < u64_lim
  | VStr s => str_wf s
  end.

Definition pair_wf (p : bytes * bytes) : Prop := str_wf p.1 /\ str_wf p.2.

Record row_wf (r : Row) : Prop := {
  wf_ts : 0 <= row_ts r < u64_lim;
  wf_id : str_wf (row_id r);
  wf_keys : Forall value_wf (row_keys r);
  wf_extra : Forall pair_wf (row_extra r);
  wf_data : str_wf (row_data r)
}.
