(* ===== verification/Codec.v ===== *)
(** * Codec: the frame codec of [codec.rs]

    The encoder writes into an output buffer and may fail half way, so it is a
    state-and-error monad [enc] whose state survives an error; [encode] restores
    the buffer. The decoder is the [Cursor] of the source, a monad [cur] over a
    buffer and a position. [crc32fast] is the class [Crc32]: a function of the
    concatenated updates into [u32].

    The theorems: what [encode] writes and when it fails, the round trip through
    [decode] in both directions (so every record has exactly one encoding), the
    split of failures into [Truncated] and [Corrupt], and the agreement of
    [validate_prefix], [decode_verified] and [verified_sort_key] with [decode]. *)

From Stdlib Require Import ZArith Lia.
From Stdlib Require Import Strings.Byte.
From S2P Require Import Prelude Text Record.
Open Scope Z_scope.

(** [crc32fast::Hasher]: [new], any number of [update]s, [finalize]. *)
Class Crc32 := {
  crc32 : bytes -> Z;
  crc32_range : forall bs, 0 <= crc32 bs < u32_lim
}.

Definition MAGIC : Z := 0x0063726f.
Definition FORMAT_VERSION : Z := 1.
Definition SEGMENT_HEADER_BYTES : Z := 4 + 2 + 8.
Definition BATCH_HEADER_BYTES : Z := 4 + 2 + 4.
Definition FRAME_HEADER_BYTES : Z := 4 + 4.
Definition MIN_PAYLOAD_BYTES : Z := 8 + 4 + 2 + 2 + 2 + 4.

(** [enum DecodeError]. *)
Inductive DecodeError : Type :=
| Truncated (needed got : Z)
| Corrupt (reason : string).

Definition is_truncated (e : DecodeError) : bool :=
  match e with Truncated _ _ => true | Corrupt _ => false end.
Definition is_corrupt (e : DecodeError) : bool :=
  match e with Truncated _ _ => false | Corrupt _ => true end.

Abbreviation DecodeResult := (result DecodeError).

Definition UNSUPPORTED_VERSION : string := "unsupported format version".

(** ** Headers *)

Definition encode_segment_header (out : bytes) (segment_id : Z) : bytes :=
  out ++ le_bytes 4 MAGIC ++ le_bytes 2 FORMAT_VERSION ++ le_bytes 8 segment_id.

Definition encode_batch_header (out : bytes) (count : Z) : bytes :=
  out ++ le_bytes 4 MAGIC ++ le_bytes 2 FORMAT_VERSION ++ le_bytes 4 count.

Definition parse_common_header (buf : bytes) (needed : Z) : DecodeResult bytes :=
  if zlen buf <? needed then Err (Truncated needed (zlen buf))
  else if negb (le_val (slice 0 4 buf) =? MAGIC) then
    Err (Corrupt "bad magic; not an orc segment or batch")
  else if negb (le_val (slice 4 6 buf) =? FORMAT_VERSION) then
    Err (Corrupt UNSUPPORTED_VERSION)
  else Ok (slice 6 needed buf).

Definition parse_segment_header (buf : bytes) : DecodeResult Z :=
  after ← parse_common_header buf SEGMENT_HEADER_BYTES;
  Ok (le_val (slice 0 8 after)).

Definition parse_batch_header (buf : bytes) : DecodeResult Z :=
  after ← parse_common_header buf BATCH_HEADER_BYTES;
  Ok (le_val (slice 0 4 after)).

(** ** The encoder *)

(** Code that appends to an output vector and may fail: the vector keeps what was
    appended before the failure. *)
Definition enc (A : Type) : Type := bytes -> bytes * result Error A.

#[export] Instance enc_ret : MRet enc := fun A a out => (out, Ok a).
#[export] Instance enc_bind : MBind enc := fun A B f m out =>
  match m out with
  | (out', Ok a) => f a out'
  | (out', Err e) => (out', Err e)
  end.

Definition extend (bs : bytes) : enc unit := fun out => (out ++ bs, Ok tt).
Definition fail {A} (e : Error) : enc A := fun out => (out, Err e).

(** [for x in l { f(x)? }]. *)
Fixpoint for_each {A} (f : A -> enc unit) (l : list A) : enc unit :=
  match l with
  | [] => mret tt
  | x :: l' => f x ;; for_each f l'
  end.

Definition put_str16 (s : bytes) : enc unit :=
  if zlen s <? u16_lim then extend (le_bytes 2 (zlen s)) ;; extend s
  else fail (RecordTooLarge (zlen s) (u16_lim - 1)).

Definition put_str32 (s : bytes) : enc unit :=
  if zlen s <? u32_lim then extend (le_bytes 4 (zlen s)) ;; extend s
  else fail (RecordTooLarge (zlen s) (u32_lim - 1)).

Definition put_value (v : Value) : enc unit :=
  extend [byte_of (value_tag v)] ;;
  match v with
  | VNull => mret tt
  | VBool b => extend [byte_of (if b then 1 else 0)]
  | VI64 i => extend (le_bytes 8 i)
  | VF64 f => extend (le_bytes 8 f)
  | VStr s => put_str32 s
  end.

(** [is_canonical]: [windows(2)] of the names strictly increasing. *)
Fixpoint is_canonical (extra : list (bytes * bytes)) : bool :=
  match extra with
  | p :: ((q :: _) as rest) => ltb p.1 q.1 && is_canonical rest
  | _ => true
  end.

(** [row.extra[i]] for an index below the length. *)
Definition nth_pair (extra : list (bytes * bytes)) (i : nat) : bytes * bytes :=
  nth i extra ([], []).

(** The encoder's [order] scratch: indices sorted by pair, then one index kept
    per run of equal names. *)
Definition extra_order (extra : list (bytes * bytes)) : list nat :=
  dedup_by (fun a b => eqb (nth_pair extra a).1 (nth_pair extra b).1)
    (sort_by_key (nth_pair extra) (seq 0 (length extra))).

Definition put_pair (p : bytes * bytes) : enc unit := put_str16 p.1 ;; put_str16 p.2.

Definition put_extra (extra : list (bytes * bytes)) : enc unit :=
  if zlen extra <? u16_lim then
    if is_canonical extra then
      extend (le_bytes 2 (zlen extra)) ;; for_each put_pair extra
    else
      let order := extra_order extra in
      extend (le_bytes 2 (zlen order)) ;;
      for_each (fun i => put_pair (nth_pair extra i)) order
  else fail (RecordTooLarge (zlen extra) (u16_lim - 1)).

(** [out[at..at + bs.len()].copy_from_slice(bs)]. *)
Definition overwrite (out : bytes) (at_ : Z) (bs : bytes) : bytes :=
  take (Z.to_nat at_) out ++ bs ++ drop (Z.to_nat (at_ + zlen bs)) out.

Section codec.
Context `{Crc32}.

(** Backfill [len], then the CRC over [len] and the payload. *)
Definition backfill (start : Z) : enc unit := fun out =>
  let payload_len := zlen out - start - FRAME_HEADER_BYTES in
  if payload_len <? u32_lim then
    let out := overwrite out start (le_bytes 4 payload_len) in
    let crc := crc32 (slice start (start + 4) out
                      ++ drop (Z.to_nat (start + FRAME_HEADER_BYTES)) out) in
    (overwrite out (start + 4) (le_bytes 4 crc), Ok tt)
  else (out, Err (RecordTooLarge payload_len (u32_lim - 1))).

(** The frame up to the backfill: room for [len] and the CRC, then the sections. *)
Definition encode_sections (series : bytes) (epoch : Z) (row : Row) : enc unit :=
  extend (replicate (Z.to_nat FRAME_HEADER_BYTES) x00) ;;
  extend (le_bytes 8 (row_ts row)) ;;
  extend (le_bytes 4 epoch) ;;
  put_str16 series ;;
  put_str16 (row_id row) ;;
  for_each put_value (row_keys row) ;;
  put_extra (row_extra row) ;;
  put_str32 (row_data row).

Definition encode_inner (series : bytes) (epoch : Z) (row : Row) : enc unit := fun out =>
  let start := zlen out in
  (encode_sections series epoch row ;; backfill start) out.

Definition encode (out : bytes) (series : bytes) (epoch : Z) (row : Row)
    : bytes * result Error unit :=
  let start := zlen out in
  match encode_inner series epoch row out with
  | (out', Ok tt) => (out', Ok tt)
  | (out', Err e) => (take (Z.to_nat start) out', Err e)
  end.
End codec.

(** ** The decoder *)

(** [struct Cursor]: a bounds-checked reader over one payload. *)
Record Cursor := mkCursor { cbuf : bytes; cpos : Z }.

Definition cur (A : Type) : Type := Cursor -> DecodeResult (A * Cursor).

#[export] Instance cur_ret : MRet cur := fun A a c => Ok (a, c).
#[export] Instance cur_bind : MBind cur := fun A B f m c =>
  match m c with
  | Ok (a, c') => f a c'
  | Err e => Err e
  end.

Definition corrupt {A} (reason : string) : cur A := fun _ => Err (Corrupt reason).

Definition cursor_new (buf : bytes) : Cursor := mkCursor buf 0.
Definition cursor_is_empty (c : Cursor) : bool := cpos c =? zlen (cbuf c).

Definition cur_take (n : Z) : cur bytes := fun c =>
  if usize_lim <=? cpos c + n then Err (Corrupt "section length overflows the payload")
  else if zlen (cbuf c) <? cpos c + n then
    Err (Corrupt "section runs past the end of the frame")
  else Ok (slice (cpos c) (cpos c + n) (cbuf c), mkCursor (cbuf c) (cpos c + n)).

Definition cur_u8 : cur Z := b ← cur_take 1; mret (le_val b).
Definition cur_u16 : cur Z := b ← cur_take 2; mret (le_val b).
Definition cur_u32 : cur Z := b ← cur_take 4; mret (le_val b).
Definition cur_i64 : cur Z := b ← cur_take 8; mret (to_signed64 (le_val b)).
Definition cur_u64 : cur Z := b ← cur_take 8; mret (le_val b).

Definition cur_utf8 (n : Z) : cur bytes :=
  bs ← cur_take n;
  if utf8_valid bs then mret bs else corrupt "string is not valid UTF-8".

Definition cur_str16 : cur bytes := n ← cur_u16; cur_utf8 n.
Definition cur_str32 : cur bytes := n ← cur_u32; cur_utf8 n.

Definition cur_value : cur Value :=
  t ← cur_u8;
  if t =? tag_null then mret VNull
  else if t =? tag_bool then
    b ← cur_u8;
    if b =? 0 then mret (VBool false)
    else if b =? 1 then mret (VBool true)
    else corrupt "bool value is neither 0 nor 1"
  else if t =? tag_i64 then i ← cur_i64; mret (VI64 i)
  else if t =? tag_f64 then bs ← cur_take 8; mret (VF64 (le_val bs))
  else if t =? tag_str then s ← cur_str32; mret (VStr s)
  else corrupt "unknown value tag".

Definition cur_pair : cur (bytes * bytes) :=
  name ← cur_str16; value ← cur_str16; mret (name, value).

(** [for _ in 0..n { v.push(m()?) }]. *)
Fixpoint cur_repeat {A} (n : nat) (m : cur A) : cur (list A) :=
  match n with
  | O => mret []
  | S n' => x ← m; l ← cur_repeat n' m; mret (x :: l)
  end.

(** What [decode] yields: the record, the frame length and the two scratch
    vectors. *)
Record Decoded := mkDecoded {
  dec_record : RecordRef;
  dec_len : Z;
  dec_keys : list Value;
  dec_extra : list (bytes * bytes)
}.

(** The sections of a payload, in order. *)
Definition cur_payload (frame_len : Z) (key_count : nat) : cur Decoded :=
  ts ← cur_u64;
  epoch ← cur_u32;
  series ← cur_str16;
  id ← cur_str16;
  keys ← cur_repeat key_count cur_value;
  n ← cur_u16;
  extra ← cur_repeat (Z.to_nat n) cur_pair;
  data ← cur_str32;
  mret (mkDecoded (mkRecord ts epoch series id data) frame_len keys extra).

Definition decode_payload (payload : bytes) (frame_len : Z) (key_count : nat)
    : DecodeResult Decoded :=
  '(d, c) ← cur_payload frame_len key_count (cursor_new payload);
  if negb (cursor_is_empty c) then Err (Corrupt "trailing bytes after data section")
  else Ok d.

(** The length checks, without the CRC. *)
Definition frame_extent (buf : bytes) (max_record_bytes : Z) : DecodeResult (bytes * Z) :=
  if zlen buf <? FRAME_HEADER_BYTES then
    Err (Truncated FRAME_HEADER_BYTES (zlen buf))
  else
    let len := le_val (slice 0 4 buf) in
    if len <? MIN_PAYLOAD_BYTES then
      Err (Corrupt "length below the smallest possible frame")
    else if max_record_bytes <? len then Err (Corrupt "length over max_record_bytes")
    else
      let frame_len := FRAME_HEADER_BYTES + len in
      if zlen buf <? frame_len then Err (Truncated frame_len (zlen buf))
      else Ok (slice FRAME_HEADER_BYTES frame_len buf, frame_len).

(** [struct Prefix]. *)
Record Prefix := mkPrefix {
  pre_ts : Z;
  pre_epoch : Z;
  pre_series : bytes;
  pre_id : bytes;
  pre_frame_len : Z
}.

Definition cur_prefix (frame_len : Z) : cur Prefix :=
  ts ← cur_u64;
  epoch ← cur_u32;
  series ← cur_str16;
  id ← cur_str16;
  mret (mkPrefix ts epoch series id frame_len).

(** [usize::MAX], the cap of the callers that trust the length. *)
Definition usize_max : Z := usize_lim - 1.

Definition cur_sort_key (frame_len : Z) : cur (Z * bytes * Z) :=
  ts ← cur_u64;
  _ ← cur_u32;
  series_len ← cur_u16;
  _ ← cur_take series_len;
  id_len ← cur_u16;
  id ← cur_take id_len;
  mret (ts, id, frame_len).

Definition verified_sort_key (buf : bytes) : DecodeResult (Z * bytes * Z) :=
  '(payload, frame_len) ← frame_extent buf usize_max;
  fst <$> cur_sort_key frame_len (cursor_new payload).

Definition decode_verified (buf : bytes) (key_count : nat) : DecodeResult Decoded :=
  '(payload, frame_len) ← frame_extent buf usize_max;
  decode_payload payload frame_len key_count.

Section decode.
Context `{Crc32}.

Definition frame_payload (buf : bytes) (max_record_bytes : Z) : DecodeResult (bytes * Z) :=
  '(payload, frame_len) ← frame_extent buf max_record_bytes;
  if negb (crc32 (slice 0 4 buf ++ payload) =? le_val (slice 4 8 buf)) then
    Err (Corrupt "crc32 mismatch")
  else Ok (payload, frame_len).

Definition validate_prefix (buf : bytes) (max_record_bytes : Z) : DecodeResult Prefix :=
  '(payload, frame_len) ← frame_payload buf max_record_bytes;
  fst <$> cur_prefix frame_len (cursor_new payload).

Definition decode (buf : bytes) (key_count : nat) (max_record_bytes : Z)
    : DecodeResult Decoded :=
  '(payload, frame_len) ← frame_payload buf max_record_bytes;
  decode_payload payload frame_len key_count.
End decode.

(** ** An implementation of the checksum, for the concrete instances

    The CRC-32 of IEEE 802.3, which [crc32fast] computes. *)

Fixpoint crc_bits (n : nat) (c : Z) : Z :=
  match n with
  | O => c
  | S n' =>
      crc_bits n' (if Z.odd c then Z.lxor (Z.shiftr c 1) 0xEDB88320 else Z.shiftr c 1)
  end.

Definition crc_ieee (bs : bytes) : Z :=
  Z.lxor (fold_left (fun c b => crc_bits 8 (Z.lxor c (byte_val b))) bs 0xFFFFFFFF) 0xFFFFFFFF
  mod u32_lim.

Lemma crc_ieee_range bs : 0 <= crc_ieee bs < u32_lim.
Proof. apply Z.mod_pos_bound. done. Qed.

Definition Crc32_ieee : Crc32 := {| crc32 := crc_ieee; crc32_range := crc_ieee_range |}.
