(* ===== verification/CodecProofs.v ===== *)
(** * CodecProofs: what the codec writes and reads

    The reference encoding ([payload_of], [frame_of]) is a pure function of the
    record; the encoder of the source is shown to compute it and the decoder to
    be its inverse. *)

From Stdlib Require Import ZArith Lia.
From Stdlib Require Import Strings.Byte.
From S2P Require Import Prelude Text Record Codec.
Open Scope Z_scope.

(** ** The reference encoding *)

Definition str16 (s : bytes) : bytes := le_bytes 2 (zlen s) ++ s.
Definition str32 (s : bytes) : bytes := le_bytes 4 (zlen s) ++ s.

Definition value_bytes (v : Value) : bytes :=
  byte_of (value_tag v) ::
  match v with
  | VNull => []
  | VBool b => [byte_of (if b then 1 else 0)]
  | VI64 i => le_bytes 8 i
  | VF64 f => le_bytes 8 f
  | VStr s => str32 s
  end.

Definition pair_bytes (p : bytes * bytes) : bytes := str16 p.1 ++ str16 p.2.

(** Sorted by pair, the first pair of each name. *)
Definition canonical_extra (extra : list (bytes * bytes)) : list (bytes * bytes) :=
  dedup_by (fun p q => eqb p.1 q.1) (sort_by_key id extra).

Definition extra_bytes (extra : list (bytes * bytes)) : bytes :=
  le_bytes 2 (zlen extra) ++ concat (pair_bytes <$> extra).

Definition prefix_bytes (series : bytes) (epoch ts : Z) (id : bytes) : bytes :=
  le_bytes 8 ts ++ le_bytes 4 epoch ++ str16 series ++ str16 id.

Definition payload_of (series : bytes) (epoch : Z) (row : Row) : bytes :=
  prefix_bytes series epoch (row_ts row) (row_id row)
  ++ concat (value_bytes <$> row_keys row)
  ++ extra_bytes (canonical_extra (row_extra row))
  ++ str32 (row_data row).

(** ** When a record can be encoded *)

Definition fits16 {A} (s : list A) : bool := zlen s <? u16_lim.
Definition fits32 {A} (s : list A) : bool := zlen s <? u32_lim.
Definition value_fits (v : Value) : bool :=
  match v with VStr s => fits32 s | _ => true end.
Definition pair_fits (p : bytes * bytes) : bool := fits16 p.1 && fits16 p.2.

Definition sections_fit (series : bytes) (row : Row) : bool :=
  fits16 series && (fits16 (row_id row) && (forallb value_fits (row_keys row)
  && ((fits16 (row_extra row) && forallb pair_fits (canonical_extra (row_extra row)))
  && fits32 (row_data row)))).

Definition fits (series : bytes) (epoch : Z) (row : Row) : bool :=
  sections_fit series row && fits32 (payload_of series epoch row).

(** ** Canonical extra *)

Lemma is_canonical_sorted extra :
  is_canonical extra = true -> StronglySorted (fun p q => clt p.1 q.1) extra.
Proof.
  intros Hc. apply Sorted_StronglySorted.
  { intros x y z. apply cmp_lt_trans. }
  induction extra as [|p [|q rest] IH]; [constructor|by repeat constructor|].
  cbn [is_canonical] in Hc. apply andb_true_iff in Hc as [Hlt Hc].
  constructor; [by apply IH|]. constructor. by apply ltb_lt.
Qed.

Lemma sorted_is_canonical extra :
  StronglySorted (fun p q => clt p.1 q.1) extra -> is_canonical extra = true.
Proof.
  induction extra as [|p [|q rest] IH]; [done..|]. intros Hs.
  apply StronglySorted_cons in Hs as [Hp Hs]. change (ltb p.1 q.1 && is_canonical (q :: rest) = true).
  rewrite IH by done. apply Forall_cons_1 in Hp as [Hp _]. apply ltb_lt in Hp. by rewrite Hp.
Qed.

(** Pairs are sorted on the pair of name and value. *)
Lemma pair_full (l : list (bytes * bytes)) :
  sort_by_key id l = sort_by_key (full fst (@snd bytes bytes)) l.
Proof. reflexivity. Qed.

Lemma canonical_extra_dedup l : canonical_extra l = dedup_sort fst snd l.
Proof. unfold canonical_extra, dedup_sort. by rewrite pair_full. Qed.

Lemma pair_full_inj (l : list (bytes * bytes)) : full_inj fst snd l.
Proof. intros [a b] [c d] _ _ E. exact E. Qed.

Lemma canonical_extra_sorted l :
  StronglySorted (fun p q : bytes * bytes => clt p.1 q.1) (canonical_extra l).
Proof. rewrite canonical_extra_dedup. apply dedup_sort_strict, pair_full_inj. Qed.

(** The fast path of the encoder agrees with the slow one. *)
Lemma canonical_extra_id l : is_canonical l = true -> canonical_extra l = l.
Proof.
  intros Hc. apply is_canonical_sorted in Hc. apply (strict_unique fst).
  - apply canonical_extra_sorted.
  - done.
  - intros x. rewrite canonical_extra_dedup, elem_of_dedup_sort by apply pair_full_inj.
    unfold first_of. split; [tauto|]. intros Hx. split; [done|].
    intros y Hy Hk. assert (y = x) as ->; [|apply cle_refl].
    induction l as [|p l IH]; [set_solver|].
    apply StronglySorted_cons in Hc as [Hp Hc]. rewrite Forall_forall in Hp.
    apply elem_of_cons in Hx as [->|Hx]; apply elem_of_cons in Hy as [->|Hy]; auto.
    + exfalso. apply (clt_irrefl p.1). rewrite <-Hk at 2. by apply Hp.
    + exfalso. apply (clt_irrefl x.1). rewrite <-Hk at 1. by apply Hp.
Qed.

Lemma canonical_extra_idem l : canonical_extra (canonical_extra l) = canonical_extra l.
Proof. apply canonical_extra_id, sorted_is_canonical, canonical_extra_sorted. Qed.

(** The index vector of the encoder lists the same pairs. *)
Lemma nth_pair_seq extra : nth_pair extra <$> seq 0 (length extra) = extra.
Proof.
  apply list_eq. intros i. rewrite list_lookup_fmap.
  destruct (decide (i < length extra)%nat) as [Hi|Hi].
  - rewrite lookup_seq_lt by done. cbn. unfold nth_pair.
    destruct (lookup_lt_is_Some_2 extra i Hi) as [p Hp]. rewrite Hp. f_equal.
    by apply nth_lookup_Some.
  - rewrite lookup_seq_ge by lia. cbn. symmetry. apply lookup_ge_None. lia.
Qed.

Lemma extra_order_spec extra :
  nth_pair extra <$> extra_order extra = canonical_extra extra.
Proof.
  unfold extra_order, canonical_extra.
  rewrite (dedup_fmap (nth_pair extra) (fun p q => eqb p.1 q.1)).
  by rewrite (sort_fmap (nth_pair extra)), nth_pair_seq.
Qed.

Lemma zlen_extra_order extra : zlen (extra_order extra) = zlen (canonical_extra extra).
Proof. rewrite <-extra_order_spec. unfold zlen. by rewrite length_fmap. Qed.

Lemma zlen_canonical_extra extra : zlen (canonical_extra extra) <= zlen extra.
Proof.
  unfold canonical_extra, zlen.
  pose proof (length_dedup_by (fun p q : bytes * bytes => eqb p.1 q.1) (sort_by_key id extra)).
  rewrite (Permutation_length (sort_perm id extra)) in *. lia.
Qed.

Lemma Forall_canonical_extra (P : bytes * bytes -> Prop) extra :
  Forall P extra -> Forall P (canonical_extra extra).
Proof.
  rewrite !Forall_forall. intros HP x.
  rewrite canonical_extra_dedup, elem_of_dedup_sort by apply pair_full_inj.
  intros [Hx _]. by apply HP.
Qed.

(** ** The encoder computes the reference encoding *)

(** [m] appends [bs] when [ok]; otherwise it fails with a size error after
    appending some prefix. *)
Definition encodes (m : enc unit) (ok : bool) (bs : bytes) : Prop :=
  forall out,
    if ok then m out = (out ++ bs, Ok tt)
    else exists suf size limit, m out = (out ++ suf, Err (RecordTooLarge size limit)).

Lemma encodes_ret : encodes (mret tt) true [].
Proof. intros out. rewrite app_nil_r. done. Qed.

Lemma encodes_extend bs : encodes (extend bs) true bs.
Proof. intros out. done. Qed.

Lemma encodes_bind m1 m2 ok1 ok2 bs1 bs2 :
  encodes m1 ok1 bs1 -> encodes m2 ok2 bs2 ->
  encodes (m1 ;; m2) (ok1 && ok2) (bs1 ++ bs2).
Proof.
  intros H1 H2 out. unfold mbind, enc_bind. specialize (H1 out). destruct ok1; cbn.
  - rewrite H1. specialize (H2 (out ++ bs1)). destruct ok2.
    + by rewrite H2, app_assoc.
    + destruct H2 as (suf & size & limit & ->). exists (bs1 ++ suf), size, limit.
      by rewrite app_assoc.
  - destruct H1 as (suf & size & limit & ->). eauto.
Qed.

Lemma encodes_if (b : bool) m bs size limit :
  encodes m true bs ->
  encodes (if b then m else fail (RecordTooLarge size limit)) b bs.
Proof.
  intros Hm out. destruct b; [exact (Hm out)|]. exists [], size, limit.
  rewrite app_nil_r. done.
Qed.

Lemma encodes_str16 s : encodes (put_str16 s) (fits16 s) (str16 s).
Proof.
  apply encodes_if. apply (encodes_bind _ _ true true); apply encodes_extend.
Qed.

Lemma encodes_str32 s : encodes (put_str32 s) (fits32 s) (str32 s).
Proof.
  apply encodes_if. apply (encodes_bind _ _ true true); apply encodes_extend.
Qed.

Lemma encodes_value v : encodes (put_value v) (value_fits v) (value_bytes v).
Proof.
  apply (encodes_bind _ _ true (value_fits v) [_]); [apply encodes_extend|].
  destruct v; [apply encodes_ret|apply encodes_extend..|apply encodes_str32].
Qed.

Lemma encodes_pair p : encodes (put_pair p) (pair_fits p) (pair_bytes p).
Proof. apply encodes_bind; apply encodes_str16. Qed.

Lemma encodes_for_each {A} (f : A -> enc unit) ok bs l :
  (forall x, encodes (f x) (ok x) (bs x)) ->
  encodes (for_each f l) (forallb ok l) (concat (bs <$> l)).
Proof.
  intros Hf. induction l as [|x l IH]; [apply encodes_ret|]. by apply encodes_bind.
Qed.

#[export] Hint Resolve encodes_ret encodes_extend encodes_bind encodes_str16 encodes_str32
  encodes_value encodes_pair encodes_for_each : orc.

Lemma encodes_extra extra :
  encodes (put_extra extra)
    (fits16 extra && forallb pair_fits (canonical_extra extra))
    (extra_bytes (canonical_extra extra)).
Proof.
  unfold put_extra, fits16. destruct (zlen extra <? u16_lim) eqn:E.
  2:{ intros out. exists [], (zlen extra), (u16_lim - 1). rewrite app_nil_r. done. }
  cbn [andb]. unfold extra_bytes. destruct (is_canonical extra) eqn:Ec.
  - rewrite (canonical_extra_id _ Ec).
    apply (encodes_bind _ _ true); [|apply encodes_for_each]; auto with orc.
  - rewrite <-zlen_extra_order. apply (encodes_bind _ _ true); [auto with orc|].
    rewrite <-extra_order_spec. generalize (extra_order extra) as order. intros order.
    induction order as [|i order IH]; [apply encodes_ret|]. apply encodes_bind; auto with orc.
Qed.

Lemma overwrite_app pre old bs post :
  zlen old = zlen bs ->
  overwrite (pre ++ old ++ post) (zlen pre) bs = pre ++ bs ++ post.
Proof.
  intros Hl. unfold overwrite, zlen in *.
  replace (Z.to_nat (Z.of_nat (length pre))) with (length pre) by lia.
  rewrite take_app_length. f_equal. f_equal.
  replace (Z.to_nat _) with (length pre + length old)%nat by lia.
  rewrite <-drop_drop, drop_app_length. apply drop_app_length.
Qed.

Section encode_proofs.
Context `{Crc32}.

Definition frame_of (payload : bytes) : bytes :=
  le_bytes 4 (zlen payload)
  ++ le_bytes 4 (crc32 (le_bytes 4 (zlen payload) ++ payload))
  ++ payload.

Lemma zlen_frame_of payload : zlen (frame_of payload) = FRAME_HEADER_BYTES + zlen payload.
Proof. unfold frame_of, FRAME_HEADER_BYTES. zlen_lia. Qed.

Lemma backfill_spec out z4 z4' payload :
  zlen z4 = 4 -> zlen z4' = 4 ->
  backfill (zlen out) (out ++ z4 ++ z4' ++ payload)
  = if fits32 payload then (out ++ frame_of payload, Ok tt)
    else (out ++ z4 ++ z4' ++ payload, Err (RecordTooLarge (zlen payload) (u32_lim - 1))).
Proof.
  intros H4 H4'. unfold backfill, fits32.
  replace (zlen (out ++ z4 ++ z4' ++ payload) - zlen out - FRAME_HEADER_BYTES)
    with (zlen payload) by (unfold FRAME_HEADER_BYTES; zlen_lia).
  destruct (zlen payload <? u32_lim); [|done]. f_equal.
  rewrite overwrite_app by zlen_lia.
  set (len := le_bytes 4 (zlen payload)).
  assert (zlen len = 4) as Hlen by (unfold len; zlen_lia).
  replace (slice (zlen out) (zlen out + 4) (out ++ len ++ z4' ++ payload)) with len
    by (rewrite <-Hlen; symmetry; apply slice_app_mid).
  replace (drop (Z.to_nat (zlen out + FRAME_HEADER_BYTES)) (out ++ len ++ z4' ++ payload))
    with payload.
  2:{ replace (Z.to_nat _) with (length (out ++ len ++ z4'))
        by (rewrite !length_app; unfold zlen, FRAME_HEADER_BYTES in *; lia).
      replace (out ++ len ++ z4' ++ payload) with ((out ++ len ++ z4') ++ payload)
        by by rewrite <-!app_assoc.
      by rewrite drop_app_length. }
  replace (zlen out + 4) with (zlen (out ++ len)) by zlen_lia.
  replace (out ++ len ++ z4' ++ payload) with ((out ++ len) ++ z4' ++ payload)
    by by rewrite <-app_assoc.
  rewrite overwrite_app by zlen_lia. rewrite <-app_assoc. done.
Qed.

Lemma encodes_sections series epoch row :
  encodes (encode_sections series epoch row) (sections_fit series row)
    (replicate 8 x00 ++ payload_of series epoch row).
Proof.
  unfold payload_of, prefix_bytes, sections_fit. rewrite <-!app_assoc.
  do 3 (apply (encodes_bind _ _ true); [auto with orc|]).
  do 2 (apply encodes_bind; [auto with orc|]).
  apply encodes_bind; [apply encodes_for_each; auto with orc|].
  apply encodes_bind; [apply encodes_extra|auto with orc].
Qed.

(** [encode] on every input: the frame is appended, or the output is as it was. *)
Lemma encode_result out series epoch row :
  if fits series epoch row
  then encode out series epoch row
       = (out ++ frame_of (payload_of series epoch row), Ok tt)
  else exists size limit,
         encode out series epoch row = (out, Err (RecordTooLarge size limit)).
Proof.
  pose proof (encodes_sections series epoch row out) as Hs.
  unfold encode, encode_inner, fits, mbind, enc_bind.
  destruct (sections_fit series row); cbn [andb].
  - rewrite Hs. pose proof (backfill_spec out (replicate 4 x00) (replicate 4 x00)
      (payload_of series epoch row) eq_refl eq_refl) as Hb.
    change (replicate 8 x00) with (replicate 4 x00 ++ replicate 4 x00).
    rewrite <-app_assoc, Hb. destruct (fits32 _); [done|]. do 2 eexists.
    f_equal. unfold zlen. rewrite Nat2Z.id. apply take_app_length.
  - destruct Hs as (suf & size & limit & ->). exists size, limit.
    f_equal. unfold zlen. rewrite Nat2Z.id. apply take_app_length.
Qed.
End encode_proofs.

(** ** The cursor reads back what was written *)

(** At any position of a buffer, [m] consumes exactly [e] and yields [v]. *)
Definition reads {A} (m : cur A) (v : A) (e : bytes) : Prop :=
  forall pre rest, zlen (pre ++ e ++ rest) < usize_lim ->
    m (mkCursor (pre ++ e ++ rest) (zlen pre))
    = Ok (v, mkCursor (pre ++ e ++ rest) (zlen pre + zlen e)).

Lemma reads_ret {A} (v : A) : reads (mret v) v [].
Proof. intros pre rest _. unfold mret, cur_ret. by rewrite zlen_nil, Z.add_0_r. Qed.

Lemma reads_bind {A B} (m : cur A) (k : A -> cur B) v w e1 e2 :
  reads m v e1 -> reads (k v) w e2 -> reads (m ≫= k) w (e1 ++ e2).
Proof.
  intros H1 H2 pre rest Hl. unfold mbind, cur_bind. rewrite <-!app_assoc in *.
  rewrite H1 by done.
  replace (pre ++ e1 ++ e2 ++ rest) with ((pre ++ e1) ++ e2 ++ rest) in *
    by by rewrite <-!app_assoc.
  replace (zlen pre + zlen e1) with (zlen (pre ++ e1)) by zlen_lia.
  rewrite H2 by done. do 3 f_equal. zlen_lia.
Qed.

Lemma reads_map {A B} (m : cur A) (f : A -> B) v e :
  reads m v e -> reads (x ← m; mret (f x)) (f v) e.
Proof.
  intros Hm. rewrite <-(app_nil_r e). eapply reads_bind; [exact Hm|apply reads_ret].
Qed.

Lemma reads_take n e : n = zlen e -> reads (cur_take n) e e.
Proof.
  intros -> pre rest Hl. unfold cur_take. cbn [cbuf cpos].
  destruct (Z.leb_spec usize_lim (zlen pre + zlen e)); [zlen_lia|].
  destruct (Z.ltb_spec (zlen (pre ++ e ++ rest)) (zlen pre + zlen e)); [zlen_lia|].
  by rewrite slice_app_mid.
Qed.

Lemma reads_le (n : nat) z :
  0 <= z < 256 ^ Z.of_nat n ->
  reads (b ← cur_take (Z.of_nat n); mret (le_val b)) z (le_bytes n z).
Proof.
  intros Hz. rewrite <-(le_val_bytes_small n z Hz) at 1.
  apply reads_map, reads_take. by rewrite zlen_le_bytes.
Qed.

Lemma reads_u16 z : 0 <= z < u16_lim -> reads cur_u16 z (le_bytes 2 z).
Proof. apply (reads_le 2). Qed.
Lemma reads_u32 z : 0 <= z < u32_lim -> reads cur_u32 z (le_bytes 4 z).
Proof. apply (reads_le 4). Qed.
Lemma reads_u64 z : 0 <= z < u64_lim -> reads cur_u64 z (le_bytes 8 z).
Proof. apply (reads_le 8). Qed.

Lemma reads_utf8 s : str_wf s -> reads (cur_utf8 (zlen s)) s s.
Proof.
  intros Hs. rewrite <-(app_nil_r s) at 3. eapply reads_bind; [by apply reads_take|].
  rewrite Hs. apply reads_ret.
Qed.

Lemma reads_str16 s : str_wf s -> fits16 s = true -> reads cur_str16 s (str16 s).
Proof.
  intros Hs Hf. unfold fits16 in Hf. bool_to_prop.
  eapply reads_bind; [apply reads_u16; zlen_lia|by apply reads_utf8].
Qed.

Lemma reads_str32 s : str_wf s -> fits32 s = true -> reads cur_str32 s (str32 s).
Proof.
  intros Hs Hf. unfold fits32 in Hf. bool_to_prop.
  eapply reads_bind; [apply reads_u32; zlen_lia|by apply reads_utf8].
Qed.

Lemma reads_tag t : 0 <= t < 256 -> reads cur_u8 t [byte_of t].
Proof.
  intros Ht. pose proof (reads_le 1 t) as Hr. apply Hr. cbn. lia.
Qed.

Lemma reads_value v : value_wf v -> value_fits v = true -> reads cur_value v (value_bytes v).
Proof.
  intros Hw Hf. unfold cur_value, value_bytes.
  change (?b :: ?l) with ([b] ++ l).
  eapply reads_bind; [apply reads_tag; by destruct v; vm_compute|].
  unfold tag_null, tag_bool, tag_i64, tag_f64, tag_str, value_tag.
  destruct v as [|b|i|f|s]; cbn [Z.eqb Pos.eqb].
  - apply reads_ret.
  - rewrite <-(app_nil_r [_]). eapply reads_bind; [apply reads_tag; destruct b; lia|].
    destruct b; apply reads_ret.
  - rewrite <-(to_signed64_le i Hw) at 1.
    apply (reads_map _ VI64), (reads_map _ (fun b => to_signed64 (le_val b))).
    by apply reads_take.
  - rewrite <-(le_val_bytes_small 8 f Hw) at 1.
    apply (reads_map _ (fun b => VF64 (le_val b))). by apply reads_take.
  - apply reads_map. by apply reads_str32.
Qed.

Lemma reads_pair p : pair_wf p -> pair_fits p = true -> reads cur_pair p (pair_bytes p).
Proof.
  destruct p as [n v]. intros [Hn Hv] Hf. unfold pair_fits in Hf. cbn [fst snd] in *.
  bool_to_prop. eapply reads_bind; [by apply reads_str16|].
  apply (reads_map _ (pair n)). by apply reads_str16.
Qed.

Lemma reads_repeat {A} (m : cur A) (f : A -> bytes) (l : list A) :
  (forall x, x ∈ l -> reads m x (f x)) -> reads (cur_repeat (length l) m) l (concat (f <$> l)).
Proof.
  induction l as [|x l IH]; intros Hm; [apply reads_ret|].
  cbn [length cur_repeat fmap list_fmap concat].
  eapply reads_bind; [apply Hm; set_solver|].
  apply (reads_map _ (cons x)). apply IH. intros y Hy. apply Hm. set_solver.
Qed.

#[export] Hint Resolve reads_ret reads_str16 reads_str32 reads_utf8 reads_value reads_pair : orc.

(** ** The cursor only accepts what was written *)

(** A successful run of [m] consumed some [e] related to its value by [R]. *)
Definition sound {A} (m : cur A) (R : A -> bytes -> Prop) : Prop :=
  forall pre suf v c',
    m (mkCursor (pre ++ suf) (zlen pre)) = Ok (v, c') ->
    exists e rest, suf = e ++ rest /\
      c' = mkCursor (pre ++ suf) (zlen (pre ++ e)) /\ R v e.

Lemma sound_ret {A} (v : A) (R : A -> bytes -> Prop) : R v [] -> sound (mret v) R.
Proof.
  intros HR pre suf w c' E. unfold mret, cur_ret in E. res_inv.
  exists [], suf. rewrite app_nil_r. auto.
Qed.

Lemma sound_bind {A B} (m : cur A) (k : A -> cur B) R1 (R : B -> bytes -> Prop) :
  sound m R1 ->
  (forall v e1, R1 v e1 -> sound (k v) (fun w e2 => R w (e1 ++ e2))) ->
  sound (m ≫= k) R.
Proof.
  intros Hm Hk pre suf w c' E. unfold mbind, cur_bind in E.
  destruct (m _) as [[v c1]|] eqn:E1; [|done].
  destruct (Hm _ _ _ _ E1) as (e1 & rest1 & -> & -> & HR1).
  rewrite app_assoc in E.
  destruct (Hk v e1 HR1 _ _ _ _ E) as (e2 & rest & -> & -> & HR).
  exists (e1 ++ e2), rest. rewrite <-!app_assoc. auto.
Qed.

Lemma sound_map {A B} (m : cur A) (f : A -> B) (R : A -> bytes -> Prop) (R' : B -> bytes -> Prop) :
  sound m R -> (forall v e, R v e -> R' (f v) e) -> sound (x ← m; mret (f x)) R'.
Proof.
  intros Hm Hf. eapply sound_bind; [exact Hm|]. intros v e HR.
  apply sound_ret. rewrite app_nil_r. auto.
Qed.

Lemma sound_weaken {A} (m : cur A) (R R' : A -> bytes -> Prop) :
  sound m R -> (forall v e, R v e -> R' v e) -> sound m R'.
Proof.
  intros Hm HR pre suf v c' E. destruct (Hm _ _ _ _ E) as (e & rest & ? & ? & ?).
  exists e, rest. auto.
Qed.

Lemma sound_corrupt {A} why (R : A -> bytes -> Prop) : sound (corrupt why) R.
Proof. intros pre suf v c' E. done. Qed.

Lemma sound_take n : 0 <= n -> sound (cur_take n) (fun v e => v = e /\ zlen e = n).
Proof.
  intros Hn pre suf v c' E. unfold cur_take in E. cbn [cbuf cpos] in E.
  destruct (usize_lim <=? _); [done|].
  destruct (Z.ltb_spec (zlen (pre ++ suf)) (zlen pre + n)) as [|Hl]; [done|]. res_inv.
  rewrite zlen_app in Hl. rewrite <-(take_drop (Z.to_nat n) suf).
  set (e := take (Z.to_nat n) suf). set (rest := drop (Z.to_nat n) suf).
  assert (zlen e = n) as He by (unfold e; zlen_lia).
  exists e, rest. split_and!; [done| | |done].
  - f_equal. zlen_lia.
  - rewrite <-He. apply slice_app_mid.
Qed.

Lemma sound_le (n : nat) :
  sound (b ← cur_take (Z.of_nat n); mret (le_val b))
    (fun v e => e = le_bytes n v /\ 0 <= v < 256 ^ Z.of_nat n).
Proof.
  eapply sound_map; [apply sound_take; lia|]. cbn. intros v e [-> Hl].
  assert (length e = n) as Hn by (unfold zlen in Hl; lia).
  rewrite le_bytes_val_n by done. split; [done|]. rewrite <-Hl. apply le_val_range.
Qed.

Lemma sound_u8 : sound cur_u8 (fun v e => e = [byte_of v] /\ 0 <= v < 256).
Proof. apply (sound_le 1). Qed.
Lemma sound_u16 : sound cur_u16 (fun v e => e = le_bytes 2 v /\ 0 <= v < u16_lim).
Proof. apply (sound_le 2). Qed.
Lemma sound_u32 : sound cur_u32 (fun v e => e = le_bytes 4 v /\ 0 <= v < u32_lim).
Proof. apply (sound_le 4). Qed.
Lemma sound_u64 : sound cur_u64 (fun v e => e = le_bytes 8 v /\ 0 <= v < u64_lim).
Proof. apply (sound_le 8). Qed.

Lemma sound_i64 : sound cur_i64 (fun v e => e = le_bytes 8 v /\ - i64_lim <= v < i64_lim).
Proof.
  eapply sound_map; [by apply sound_take|]. intros v e [-> Hl].
  assert (length e = 8%nat) as Hn by (unfold zlen in Hl; lia).
  rewrite le_bytes_signed by done. split; [done|]. by apply to_signed64_range.
Qed.

Lemma sound_utf8 n : 0 <= n -> sound (cur_utf8 n) (fun v e => v = e /\ zlen e = n /\ str_wf v).
Proof.
  intros Hn. eapply sound_bind; [by apply sound_take|]. intros v e [-> Hl].
  destruct (utf8_valid e) eqn:E; [|apply sound_corrupt].
  apply sound_ret. rewrite app_nil_r. auto.
Qed.

Lemma sound_str16 : sound cur_str16 (fun v e => e = str16 v /\ str_wf v /\ fits16 v = true).
Proof.
  eapply sound_bind; [apply sound_u16|]. intros n e1 [-> Hn].
  eapply sound_weaken; [apply sound_utf8; lia|]. cbn. intros v e (-> & <- & Hw).
  split_and!; [done..|]. apply Z.ltb_lt. lia.
Qed.

Lemma sound_str32 : sound cur_str32 (fun v e => e = str32 v /\ str_wf v /\ fits32 v = true).
Proof.
  eapply sound_bind; [apply sound_u32|]. intros n e1 [-> Hn].
  eapply sound_weaken; [apply sound_utf8; lia|]. cbn. intros v e (-> & <- & Hw).
  split_and!; [done..|]. apply Z.ltb_lt. lia.
Qed.

Lemma sound_value :
  sound cur_value (fun v e => e = value_bytes v /\ value_wf v /\ value_fits v = true).
Proof.
  unfold cur_value. eapply sound_bind; [apply sound_u8|]. intros t e1 [-> Ht].
  unfold tag_null, tag_bool, tag_i64, tag_f64, tag_str.
  destruct (Z.eqb_spec t 0) as [->|]; [by apply sound_ret|].
  destruct (Z.eqb_spec t 1) as [->|].
  { eapply sound_bind; [apply sound_u8|]. intros b e2 [-> Hb].
    destruct (Z.eqb_spec b 0) as [->|]; [by apply sound_ret|].
    destruct (Z.eqb_spec b 1) as [->|]; [by apply sound_ret|apply sound_corrupt]. }
  destruct (Z.eqb_spec t 2) as [->|].
  { eapply sound_map; [apply sound_i64|]. intros v e [-> Hr]. done. }
  destruct (Z.eqb_spec t 3) as [->|].
  { eapply sound_map; [by apply sound_take|]. intros v e [-> Hl].
    assert (length e = 8%nat) as Hn by (unfold zlen in Hl; lia).
    unfold value_bytes, value_wf. rewrite le_bytes_val_n by done.
    pose proof (le_val_range e) as Hr. rewrite Hl in Hr. done. }
  destruct (Z.eqb_spec t 4) as [->|]; [|apply sound_corrupt].
  eapply sound_map; [apply sound_str32|]. intros v e (-> & Hw & Hf). done.
Qed.

Lemma sound_pair :
  sound cur_pair (fun p e => e = pair_bytes p /\ pair_wf p /\ pair_fits p = true).
Proof.
  eapply sound_bind; [apply sound_str16|]. intros n e1 (-> & Hw & Hf).
  eapply sound_map; [apply sound_str16|]. intros v e (-> & Hw' & Hf').
  unfold pair_wf, pair_fits. cbn [fst snd]. rewrite Hf, Hf'. done.
Qed.

Lemma sound_repeat {A} (m : cur A) (f : A -> bytes) (P : A -> Prop) n :
  sound m (fun v e => e = f v /\ P v) ->
  sound (cur_repeat n m)
    (fun l e => e = concat (f <$> l) /\ length l = n /\ Forall P l).
Proof.
  intros Hm. induction n as [|n IH]; cbn [cur_repeat]; [by apply sound_ret|].
  eapply sound_bind; [exact Hm|]. intros v e1 [-> HP].
  eapply sound_map; [exact IH|]. cbn. intros l e (-> & <- & HF). auto.
Qed.

(** ** Payloads *)

Lemma fits_min series epoch row :
  MIN_PAYLOAD_BYTES <= zlen (payload_of series epoch row).
Proof.
  unfold payload_of, prefix_bytes, extra_bytes, str16, str32, MIN_PAYLOAD_BYTES. zlen_lia.
Qed.

(** The decoded view of an encoded record. *)
Definition decoded_of (series : bytes) (epoch : Z) (row : Row) (frame_len : Z) : Decoded :=
  mkDecoded (mkRecord (row_ts row) epoch series (row_id row) (row_data row)) frame_len
    (row_keys row) (canonical_extra (row_extra row)).

(** The record a decoded frame holds. *)
Definition row_of (d : Decoded) : Row :=
  mkRow (rec_ts (dec_record d)) (rec_id (dec_record d)) (dec_keys d) (dec_extra d)
    (rec_data (dec_record d)).

Lemma reads_payload series epoch row frame_len :
  row_wf row -> str_wf series -> 0 <= epoch < u32_lim -> sections_fit series row = true ->
  reads (cur_payload frame_len (length (row_keys row)))
    (decoded_of series epoch row frame_len) (payload_of series epoch row).
Proof.
  intros [Hts Hid Hkeys Hextra Hdata] Hser Hep Hfit.
  unfold sections_fit in Hfit. rewrite !andb_true_iff in Hfit.
  destruct Hfit as (Fs & Fi & Fk & (Fe & Fp) & Fd).
  unfold cur_payload, payload_of, prefix_bytes. rewrite <-!app_assoc.
  eapply reads_bind; [by apply reads_u64|].
  eapply reads_bind; [by apply reads_u32|].
  do 2 (eapply reads_bind; [by apply reads_str16|]).
  eapply reads_bind.
  { apply reads_repeat. intros v Hv. rewrite Forall_forall in Hkeys.
    rewrite forallb_forall in Fk. apply reads_value; [auto|]. apply Fk. by apply list_elem_of_In. }
  unfold extra_bytes. rewrite <-app_assoc. eapply reads_bind.
  { apply reads_u16. unfold fits16 in Fe. bool_to_prop.
    pose proof (zlen_canonical_extra (row_extra row)). zlen_lia. }
  eapply reads_bind.
  { unfold zlen. rewrite Nat2Z.id. apply reads_repeat. intros p Hp.
    pose proof (Forall_canonical_extra _ _ Hextra) as Hw. rewrite Forall_forall in Hw.
    rewrite forallb_forall in Fp. apply reads_pair; [auto|]. apply Fp. by apply list_elem_of_In. }
  apply (reads_map _ (fun data => mkDecoded (mkRecord (row_ts row) epoch series (row_id row) data)
    frame_len (row_keys row) (canonical_extra (row_extra row)))). by apply reads_str32.
Qed.

(** The sections of a decoded payload, in the order of the bytes. *)
Lemma sound_payload frame_len key_count :
  sound (cur_payload frame_len key_count) (fun d e =>
    row_wf (row_of d) /\ str_wf (rec_series (dec_record d)) /\
    0 <= rec_epoch (dec_record d) < u32_lim /\ dec_len d = frame_len /\
    length (dec_keys d) = key_count /\
    forallb pair_fits (dec_extra d) = true /\ fits16 (dec_extra d) = true /\
    forallb value_fits (dec_keys d) = true /\
    fits16 (rec_series (dec_record d)) = true /\ fits16 (rec_id (dec_record d)) = true /\
    fits32 (rec_data (dec_record d)) = true /\
    e = prefix_bytes (rec_series (dec_record d)) (rec_epoch (dec_record d))
          (rec_ts (dec_record d)) (rec_id (dec_record d))
        ++ concat (value_bytes <$> dec_keys d) ++ extra_bytes (dec_extra d)
        ++ str32 (rec_data (dec_record d))).
Proof.
  eapply sound_bind; [apply sound_u64|]. intros ts e1 [-> Hts].
  eapply sound_bind; [apply sound_u32|]. intros epoch e2 [-> Hep].
  eapply sound_bind; [apply sound_str16|]. intros series e3 (-> & Ws & Fs).
  eapply sound_bind; [apply sound_str16|]. intros id e4 (-> & Wi & Fi).
  eapply sound_bind; [apply (sound_repeat _ value_bytes), sound_value|].
  intros keys e5 (-> & Hk & Wk).
  eapply sound_bind; [apply sound_u16|]. intros n e6 (-> & Hn).
  eapply sound_bind; [apply (sound_repeat _ pair_bytes), sound_pair|].
  intros extra e7 (-> & He & We).
  eapply sound_map; [apply sound_str32|]. intros data e8 (-> & Wd & Fd). cbn.
  apply Forall_and in Wk as [Wk Fk]. apply Forall_and in We as [We Fe].
  assert (n = zlen extra) as -> by (unfold zlen; lia).
  split_and!; try first [done|lia].
  - apply forallb_forall. intros p Hp. rewrite Forall_forall in Fe. apply Fe. by apply list_elem_of_In.
  - apply Z.ltb_lt. lia.
  - apply forallb_forall. intros v Hv. rewrite Forall_forall in Fk. apply Fk. by apply list_elem_of_In.
  - unfold prefix_bytes, extra_bytes. rewrite <-!app_assoc. done.
Qed.

Lemma cursor_start buf : cursor_new buf = mkCursor ([] ++ buf) (zlen (@nil byte)).
Proof. done. Qed.

Lemma decode_payload_of series epoch row frame_len :
  row_wf row -> str_wf series -> 0 <= epoch < u32_lim -> fits series epoch row = true ->
  decode_payload (payload_of series epoch row) frame_len (length (row_keys row))
  = Ok (decoded_of series epoch row frame_len).
Proof.
  intros Hw Hs He Hf. apply andb_true_iff in Hf as [Hf Hl]. unfold fits32 in Hl. bool_to_prop.
  pose proof (reads_payload series epoch row frame_len Hw Hs He Hf [] []) as Hr.
  rewrite app_nil_r in Hr. unfold decode_payload. rewrite cursor_start.
  unfold mbind, result_bind. rewrite Hr.
  - unfold cursor_is_empty. cbn [cbuf cpos app]. rewrite zlen_nil, Z.add_0_l, Z.eqb_refl. done.
  - cbn [app]. unfold u32_lim, usize_lim in *. lia.
Qed.

(** A payload that decodes is the reference encoding of what it decodes to, with
    the [extra] pairs as they stand. *)
Lemma decode_payload_sound payload frame_len key_count d :
  decode_payload payload frame_len key_count = Ok d ->
  row_wf (row_of d) /\ str_wf (rec_series (dec_record d)) /\
  0 <= rec_epoch (dec_record d) < u32_lim /\ dec_len d = frame_len /\
  length (dec_keys d) = key_count /\
  fits16 (rec_series (dec_record d)) = true /\ fits16 (rec_id (dec_record d)) = true /\
  payload = prefix_bytes (rec_series (dec_record d)) (rec_epoch (dec_record d))
              (rec_ts (dec_record d)) (rec_id (dec_record d))
            ++ concat (value_bytes <$> dec_keys d) ++ extra_bytes (dec_extra d)
            ++ str32 (rec_data (dec_record d)) /\
  (is_canonical (dec_extra d) = true ->
   sections_fit (rec_series (dec_record d)) (row_of d) = true /\
   payload = payload_of (rec_series (dec_record d)) (rec_epoch (dec_record d)) (row_of d)).
Proof.
  unfold decode_payload. intros E. unfold mbind, result_bind in E.
  destruct (cur_payload _ _ _) as [[d' c]|] eqn:Ep; [|done].
  destruct (cursor_is_empty c) eqn:Ec; [|done]. cbn in E. res_inv.
  rewrite cursor_start in Ep.
  destruct (sound_payload _ _ _ _ _ _ Ep) as (e & rest & -> & -> & HR).
  unfold cursor_is_empty in Ec. cbn [cbuf cpos app] in Ec. bool_to_prop.
  assert (rest = []) as -> by (apply zlen_zero; zlen_lia). rewrite app_nil_r in *.
  destruct HR as (W & Ws & He & Hl & Hk & Fe & Fn & Fk & Fs & Fi & Fd & ->).
  split_and!; try first [done|lia]; intros Hc; split.
  - unfold sections_fit, row_of. cbn. rewrite canonical_extra_id by done.
    by rewrite Fs, Fi, Fk, Fn, Fe, Fd.
  - unfold payload_of, row_of. cbn. by rewrite canonical_extra_id.
Qed.

(** ** Frames *)

Section frame_proofs.
Context `{Crc32}.

(** Bytes that carry the length of [payload] and then [payload]. *)
Definition framed (crc4 payload rest : bytes) : bytes :=
  le_bytes 4 (zlen payload) ++ crc4 ++ payload ++ rest.

Lemma framed_len crc4 payload rest : slice 0 4 (framed crc4 payload rest) = le_bytes 4 (zlen payload).
Proof. apply (slice_prefix (le_bytes 4 (zlen payload))). Qed.

Lemma framed_crc crc4 payload rest : zlen crc4 = 4 -> slice 4 8 (framed crc4 payload rest) = crc4.
Proof.
  intros Hc. pose proof (slice_app_mid (le_bytes 4 (zlen payload)) crc4 (payload ++ rest)) as Hs.
  rewrite Hc, zlen_le_bytes in Hs. exact Hs.
Qed.

Lemma framed_payload crc4 payload rest :
  zlen crc4 = 4 ->
  slice FRAME_HEADER_BYTES (FRAME_HEADER_BYTES + zlen payload) (framed crc4 payload rest) = payload.
Proof.
  intros Hc. pose proof (slice_app_mid (le_bytes 4 (zlen payload) ++ crc4) payload rest) as Hs.
  rewrite zlen_app, zlen_le_bytes, Hc, <-app_assoc in Hs. exact Hs.
Qed.

Lemma frame_extent_framed crc4 payload rest max :
  zlen crc4 = 4 -> MIN_PAYLOAD_BYTES <= zlen payload <= max -> zlen payload < u32_lim ->
  frame_extent (framed crc4 payload rest) max
  = Ok (payload, FRAME_HEADER_BYTES + zlen payload).
Proof.
  intros Hc Hl Hu. unfold frame_extent. rewrite framed_len.
  rewrite (le_val_bytes_small 4) by (split; [zlen_lia|exact Hu]).
  assert (zlen (framed crc4 payload rest) = 8 + zlen payload + zlen rest) as Hz
    by (unfold framed; zlen_lia).
  rewrite Hz. unfold FRAME_HEADER_BYTES.
  destruct (Z.ltb_spec (8 + zlen payload + zlen rest) (4 + 4)); [zlen_lia|].
  destruct (Z.ltb_spec (zlen payload) MIN_PAYLOAD_BYTES); [lia|].
  destruct (Z.ltb_spec max (zlen payload)); [lia|].
  destruct (Z.ltb_spec (8 + zlen payload + zlen rest) (4 + 4 + zlen payload)); [zlen_lia|].
  change (4 + 4) with FRAME_HEADER_BYTES. by rewrite (framed_payload crc4 payload rest).
Qed.

Lemma frame_extent_Ok buf max payload frame_len :
  frame_extent buf max = Ok (payload, frame_len) ->
  exists crc4 rest, buf = framed crc4 payload rest /\ zlen crc4 = 4 /\
    frame_len = FRAME_HEADER_BYTES + zlen payload /\
    MIN_PAYLOAD_BYTES <= zlen payload <= max /\ zlen payload < u32_lim.
Proof.
  unfold frame_extent. intros E. do 4 (split_in E). res_inv. bool_to_prop.
  unfold FRAME_HEADER_BYTES in *. set (len := le_val (slice 0 4 buf)) in *.
  assert (zlen (slice 0 4 buf) = 4) as Hl4 by (apply zlen_slice; lia).
  assert (0 <= len < u32_lim) as Hlen.
  { pose proof (le_val_range (slice 0 4 buf)) as Hr. rewrite Hl4 in Hr. exact Hr. }
  assert (zlen (slice (4 + 4) (4 + 4 + len) buf) = len) as Hp by (rewrite zlen_slice; lia).
  exists (slice 4 8 buf), (drop (Z.to_nat (8 + len)) buf).
  rewrite Hp. split_and!; [|apply zlen_slice; lia|done|lia..].
  unfold framed. rewrite Hp. unfold len at 1.
  rewrite (le_bytes_val_n 4) by (unfold zlen in Hl4; lia).
  change (4 + 4) with 8.
  rewrite (slice_drop 8 (8 + len)), (slice_drop 4 8), (slice_drop 0 4) by lia. done.
Qed.

Lemma frame_of_framed payload rest :
  frame_of payload ++ rest
  = framed (le_bytes 4 (crc32 (le_bytes 4 (zlen payload) ++ payload))) payload rest.
Proof. unfold frame_of, framed. by rewrite <-!app_assoc. Qed.

Lemma frame_payload_frame_of payload rest max :
  MIN_PAYLOAD_BYTES <= zlen payload <= max -> zlen payload < u32_lim ->
  frame_payload (frame_of payload ++ rest) max = Ok (payload, zlen (frame_of payload)).
Proof.
  intros Hl Hu. unfold frame_payload. rewrite zlen_frame_of, frame_of_framed.
  rewrite frame_extent_framed by (by rewrite ?zlen_le_bytes).
  unfold mbind, result_bind. rewrite framed_len, framed_crc by (by rewrite zlen_le_bytes).
  rewrite (le_val_bytes_small 4) by apply crc32_range. by rewrite Z.eqb_refl.
Qed.

Lemma frame_payload_Ok buf max payload frame_len :
  frame_payload buf max = Ok (payload, frame_len) ->
  exists rest, buf = frame_of payload ++ rest /\ frame_len = zlen (frame_of payload) /\
    MIN_PAYLOAD_BYTES <= zlen payload <= max /\ zlen payload < u32_lim.
Proof.
  unfold frame_payload. intros E. unfold mbind, result_bind in E.
  destruct (frame_extent buf max) as [[p l]|] eqn:Ex; [|done].
  split_in E. res_inv. bool_to_prop.
  apply frame_extent_Ok in Ex as (crc4 & rest & -> & Hc & -> & Hl & Hu).
  rewrite framed_len, framed_crc in Heqb by done.
  exists rest. rewrite zlen_frame_of. split_and!; try lia.
  rewrite frame_of_framed. f_equal. rewrite Heqb.
  symmetry. apply le_bytes_val_n. unfold zlen in Hc. lia.
Qed.
End frame_proofs.

(** ** Torn and corrupt frames *)

(** A [Truncated] error reports the buffer's length and a larger need; any other
    outcome does not depend on bytes beyond the buffer. *)
Definition stable {A} (f : bytes -> DecodeResult A) (buf : bytes) : Prop :=
  match f buf with
  | Err (Truncated needed got) => got = zlen buf /\ got < needed
  | r => forall more, f (buf ++ more) = r
  end.

Lemma frame_extent_stable max buf : stable (fun b => frame_extent b max) buf.
Proof.
  unfold stable, frame_extent at 1.
  destruct (Z.ltb_spec (zlen buf) FRAME_HEADER_BYTES) as [|Hh]; [done|].
  assert (forall more, slice 0 4 (buf ++ more) = slice 0 4 buf) as Hs.
  { intros more. apply slice_app_l; unfold FRAME_HEADER_BYTES in *; lia. }
  assert (forall more, (zlen (buf ++ more) <? FRAME_HEADER_BYTES) = false) as Hz.
  { intros more. apply Z.ltb_ge. zlen_lia. }
  destruct (le_val (slice 0 4 buf) <? MIN_PAYLOAD_BYTES) eqn:E1.
  { intros more. unfold frame_extent. by rewrite Hz, Hs, E1. }
  destruct (max <? le_val (slice 0 4 buf)) eqn:E2.
  { intros more. unfold frame_extent. by rewrite Hz, Hs, E1, E2. }
  destruct (Z.ltb_spec (zlen buf) (FRAME_HEADER_BYTES + le_val (slice 0 4 buf))) as [|Hf]; [done|].
  intros more. unfold frame_extent. rewrite Hz, Hs, E1, E2. bool_to_prop.
  destruct (Z.ltb_spec (zlen (buf ++ more)) (FRAME_HEADER_BYTES + le_val (slice 0 4 buf)));
    [zlen_lia|].
  rewrite slice_app_l; [done|unfold FRAME_HEADER_BYTES, MIN_PAYLOAD_BYTES in *; lia..].
Qed.


(** Cursor failures are always [Corrupt]. *)
Definition only_corrupt {A} (m : cur A) : Prop :=
  forall c e, m c = Err e -> is_corrupt e = true.

Lemma only_corrupt_ret {A} (v : A) : only_corrupt (mret v).
Proof. intros c e E. done. Qed.

Lemma only_corrupt_fail {A} why : only_corrupt (A := A) (corrupt why).
Proof. intros c e E. unfold corrupt in E. by res_inv. Qed.

Lemma only_corrupt_bind {A B} (m : cur A) (k : A -> cur B) :
  only_corrupt m -> (forall v, only_corrupt (k v)) -> only_corrupt (m ≫= k).
Proof.
  intros Hm Hk c e E. unfold mbind, cur_bind in E.
  destruct (m c) as [[v c']|e'] eqn:E'; [by eapply Hk|]. res_inv. by eapply Hm.
Qed.

Lemma only_corrupt_take n : only_corrupt (cur_take n).
Proof. intros c e E. unfold cur_take in E. repeat split_in E; by res_inv. Qed.

Lemma only_corrupt_repeat {A} (m : cur A) n : only_corrupt m -> only_corrupt (cur_repeat n m).
Proof.
  intros Hm. induction n as [|n IH]; cbn [cur_repeat]; [apply only_corrupt_ret|].
  apply only_corrupt_bind; [done|]. intros v. apply only_corrupt_bind; [done|].
  intros l. apply only_corrupt_ret.
Qed.

Create HintDb corrupt.
#[export] Hint Resolve only_corrupt_ret only_corrupt_fail only_corrupt_take
  only_corrupt_repeat : corrupt.
#[export] Hint Extern 2 (only_corrupt (mbind _ _)) =>
  (apply only_corrupt_bind; [|intros]) : corrupt.
#[export] Hint Extern 3 (only_corrupt (if ?b then _ else _)) => destruct b : corrupt.
#[export] Hint Extern 4 (only_corrupt ?m) => progress (unfold cur_u8, cur_u16, cur_u32, cur_u64,
  cur_i64, cur_str16, cur_str32, cur_utf8, cur_value, cur_pair, cur_payload, cur_prefix) : corrupt.

Lemma only_corrupt_payload frame_len n : only_corrupt (cur_payload frame_len n).
Proof. auto 40 with corrupt. Qed.

Lemma only_corrupt_prefix frame_len : only_corrupt (cur_prefix frame_len).
Proof. auto 40 with corrupt. Qed.

Lemma stable_bind {A B} (f : bytes -> DecodeResult A) (g : bytes -> A -> DecodeResult B) buf :
  stable f buf ->
  (forall v, f buf = Ok v ->
     (forall more, g (buf ++ more) v = g buf v) /\
     (forall e, g buf v = Err e -> is_corrupt e = true)) ->
  stable (fun b => f b ≫= g b) buf.
Proof.
  unfold stable, mbind, result_bind. intros Hf Hg.
  destruct (f buf) as [v|[n m|why]] eqn:E.
  - destruct (Hg v eq_refl) as [Hs Hc].
    destruct (g buf v) as [w|[n m|why]] eqn:Eg;
      [|by specialize (Hc _ eq_refl)|]; intros more; rewrite Hf; cbn; by rewrite Hs.
  - done.
  - intros more. by rewrite Hf.
Qed.

Section torn.
Context `{Crc32}.

Lemma frame_payload_stable max buf : stable (fun b => frame_payload b max) buf.
Proof.
  apply (stable_bind (fun b => frame_extent b max)
    (fun b '(payload, frame_len) =>
       if negb (crc32 (slice 0 4 b ++ payload) =? le_val (slice 4 8 b))
       then Err (Corrupt "crc32 mismatch") else Ok (payload, frame_len))).
  { apply frame_extent_stable. }
  intros [p l] E. apply frame_extent_Ok in E as (crc4 & rest & -> & Hc & -> & Hl & Hu).
  split.
  - intros more.
    assert (8 <= zlen (framed crc4 p rest)) by (unfold framed; zlen_lia).
    rewrite !slice_app_l by lia. done.
  - intros e E. destruct (negb _); by res_inv.
Qed.

Lemma decode_stable key_count max buf : stable (fun b => decode b key_count max) buf.
Proof.
  apply (stable_bind (fun b => frame_payload b max)
    (fun _ '(payload, frame_len) => decode_payload payload frame_len key_count)).
  { apply frame_payload_stable. }
  intros [p l] _. split; [done|]. intros e E. unfold decode_payload, mbind, result_bind in E.
  destruct (cur_payload _ _ _) as [[d c]|e'] eqn:E'.
  - split_in E. by res_inv.
  - res_inv. by eapply only_corrupt_payload.
Qed.

Lemma validate_prefix_stable max buf : stable (fun b => validate_prefix b max) buf.
Proof.
  apply (stable_bind (fun b => frame_payload b max)
    (fun _ '(payload, frame_len) => fst <$> cur_prefix frame_len (cursor_new payload))).
  { apply frame_payload_stable. }
  intros [p l] _. split; [done|]. intros e E. unfold fmap, result_fmap in E.
  destruct (cur_prefix _ _) as [|e'] eqn:E'; [done|]. res_inv. by eapply only_corrupt_prefix.
Qed.

(** A strict prefix of a frame is torn, whatever the reader of the payload. *)
Lemma frame_payload_torn payload max n :
  MIN_PAYLOAD_BYTES <= zlen payload <= max -> zlen payload < u32_lim ->
  (n < length (frame_of payload))%nat ->
  frame_payload (take n (frame_of payload)) max
  = Err (Truncated (if (n <? 8)%nat then FRAME_HEADER_BYTES else zlen (frame_of payload))
                   (Z.of_nat n)).
Proof.
  intros Hl Hu Hn.
  assert (zlen (take n (frame_of payload)) = Z.of_nat n) as Hz.
  { rewrite zlen_take. unfold zlen. lia. }
  pose proof (zlen_frame_of payload) as Hfl. unfold zlen in Hfl at 1.
  unfold frame_payload, frame_extent. rewrite Hz. unfold FRAME_HEADER_BYTES in *.
  destruct (Nat.ltb_spec n 8).
  { destruct (Z.ltb_spec (Z.of_nat n) (4 + 4)); [done|lia]. }
  destruct (Z.ltb_spec (Z.of_nat n) (4 + 4)); [lia|].
  assert (slice 0 4 (take n (frame_of payload)) = le_bytes 4 (zlen payload)) as Hs.
  { rewrite <-(slice_app_l 0 4 _ (drop n (frame_of payload))) by lia.
    rewrite take_drop, <-(app_nil_r (frame_of payload)), frame_of_framed. apply framed_len. }
  rewrite Hs, (le_val_bytes_small 4) by (split; [zlen_lia|exact Hu]).
  destruct (Z.ltb_spec (zlen payload) MIN_PAYLOAD_BYTES); [lia|].
  destruct (Z.ltb_spec max (zlen payload)); [lia|].
  destruct (Z.ltb_spec (Z.of_nat n) (4 + 4 + zlen payload)); [|lia].
  unfold mbind, result_bind. by rewrite zlen_frame_of.
Qed.
End torn.

(** ** The partial readers agree with the full one *)

Lemma reads_prefix series epoch ts id frame_len :
  0 <= ts < u64_lim -> 0 <= epoch < u32_lim -> str_wf series -> str_wf id ->
  fits16 series = true -> fits16 id = true ->
  reads (cur_prefix frame_len) (mkPrefix ts epoch series id frame_len)
    (prefix_bytes series epoch ts id).
Proof.
  intros. unfold prefix_bytes. eapply reads_bind; [by apply reads_u64|].
  eapply reads_bind; [by apply reads_u32|]. eapply reads_bind; [by apply reads_str16|].
  apply (reads_map _ (fun id => mkPrefix ts epoch series id frame_len)). by apply reads_str16.
Qed.

Lemma reads_raw16 {A} s (k : bytes -> cur A) w e :
  fits16 s = true -> reads (k s) w e ->
  reads (n ← cur_u16; x ← cur_take n; k x) w (str16 s ++ e).
Proof.
  intros Hf Hk. unfold fits16 in Hf. bool_to_prop. unfold str16. rewrite <-app_assoc.
  eapply reads_bind; [apply reads_u16; zlen_lia|].
  eapply reads_bind; [by apply reads_take|done].
Qed.

Lemma reads_sort_key series epoch ts id frame_len :
  0 <= ts < u64_lim -> 0 <= epoch < u32_lim -> fits16 series = true -> fits16 id = true ->
  reads (cur_sort_key frame_len) (ts, id, frame_len) (prefix_bytes series epoch ts id).
Proof.
  intros. unfold prefix_bytes. eapply reads_bind; [by apply reads_u64|].
  eapply reads_bind; [by apply reads_u32|].
  apply (reads_raw16 series (fun _ => _)); [done|]. rewrite <-(app_nil_r (str16 id)).
  apply (reads_raw16 id (fun id => mret (ts, id, frame_len))); [done|apply reads_ret].
Qed.

Lemma sound_prefix frame_len :
  sound (cur_prefix frame_len) (fun p e =>
    0 <= pre_ts p < u64_lim /\ 0 <= pre_epoch p < u32_lim /\ str_wf (pre_series p) /\
    str_wf (pre_id p) /\ fits16 (pre_series p) = true /\ fits16 (pre_id p) = true /\
    pre_frame_len p = frame_len /\
    e = prefix_bytes (pre_series p) (pre_epoch p) (pre_ts p) (pre_id p)).
Proof.
  eapply sound_bind; [apply sound_u64|]. intros ts e1 [-> Hts].
  eapply sound_bind; [apply sound_u32|]. intros epoch e2 [-> Hep].
  eapply sound_bind; [apply sound_str16|]. intros series e3 (-> & Ws & Fs).
  eapply sound_map; [apply sound_str16|]. intros id e4 (-> & Wi & Fi). cbn.
  split_and!; try first [done|lia].
Qed.

(** A run over a whole payload, from a run over its front. *)
Lemma reads_front {A} (m : cur A) v e rest :
  reads m v e -> zlen (e ++ rest) < usize_lim ->
  exists c, m (cursor_new (e ++ rest)) = Ok (v, c).
Proof.
  intros Hr Hl. specialize (Hr [] rest Hl). rewrite cursor_start. cbn [app] in *. eauto.
Qed.

Section agree.
Context `{Crc32}.

(** What every reader says of a payload that starts with a prefix. *)
Lemma prefix_readers series epoch ts id rest frame_len :
  0 <= ts < u64_lim -> 0 <= epoch < u32_lim -> str_wf series -> str_wf id ->
  fits16 series = true -> fits16 id = true ->
  zlen (prefix_bytes series epoch ts id ++ rest) < u32_lim ->
  fst <$> cur_prefix frame_len (cursor_new (prefix_bytes series epoch ts id ++ rest))
    = Ok (mkPrefix ts epoch series id frame_len) /\
  fst <$> cur_sort_key frame_len (cursor_new (prefix_bytes series epoch ts id ++ rest))
    = Ok (ts, id, frame_len).
Proof.
  intros Hts Hep Ws Wi Fs Fi Hl.
  assert (zlen (prefix_bytes series epoch ts id ++ rest) < usize_lim) as Hl'
    by (unfold u32_lim, usize_lim in *; lia).
  destruct (reads_front _ _ _ rest (reads_prefix series epoch ts id frame_len Hts Hep Ws Wi Fs Fi) Hl')
    as [c ->].
  destruct (reads_front _ _ _ rest (reads_sort_key series epoch ts id frame_len Hts Hep Fs Fi) Hl')
    as [c' ->]. done.
Qed.

(** A frame accepted by [validate_prefix] starts with the prefix it reports, and
    the length it reports is the extent of a checksummed frame. *)
Lemma validate_prefix_Ok buf max p :
  validate_prefix buf max = Ok p ->
  exists payload rest, buf = frame_of payload ++ rest /\
    pre_frame_len p = zlen (frame_of payload) /\
    MIN_PAYLOAD_BYTES <= zlen payload <= max /\ zlen payload < u32_lim /\
    fst <$> cur_prefix (pre_frame_len p) (cursor_new payload) = Ok p.
Proof.
  unfold validate_prefix, mbind, result_bind. intros E.
  destruct (frame_payload buf max) as [[payload l]|] eqn:Ep; [|done].
  apply frame_payload_Ok in Ep as (rest & -> & -> & Hl & Hu). exists payload, rest.
  assert (pre_frame_len p = zlen (frame_of payload)) as Hfl.
  { unfold fmap, result_fmap in E. rewrite cursor_start in E.
    destruct (cur_prefix _ _) as [[p' c]|] eqn:Ec; [|done]. cbn in E. res_inv.
    apply sound_prefix in Ec as (e & r & _ & _ & HR). tauto. }
  split_and!; try done; try lia. by rewrite Hfl.
Qed.

Lemma validate_prefix_frame_of payload rest max p :
  MIN_PAYLOAD_BYTES <= zlen payload <= max -> zlen payload < u32_lim ->
  fst <$> cur_prefix (zlen (frame_of payload)) (cursor_new payload) = Ok p ->
  validate_prefix (frame_of payload ++ rest) max = Ok p.
Proof.
  intros Hl Hu E. unfold validate_prefix, mbind, result_bind.
  by rewrite frame_payload_frame_of.
Qed.

(** [decode] of a CRC-good frame, in terms of the payload alone. *)
Lemma decode_frame_of payload rest key_count max :
  MIN_PAYLOAD_BYTES <= zlen payload <= max -> zlen payload < u32_lim ->
  decode (frame_of payload ++ rest) key_count max
  = decode_payload payload (zlen (frame_of payload)) key_count.
Proof.
  intros Hl Hu. unfold decode, mbind, result_bind. by rewrite frame_payload_frame_of.
Qed.

Lemma decode_Ok buf key_count max d :
  decode buf key_count max = Ok d ->
  exists payload rest, buf = frame_of payload ++ rest /\
    MIN_PAYLOAD_BYTES <= zlen payload <= max /\ zlen payload < u32_lim /\
    decode_payload payload (zlen (frame_of payload)) key_count = Ok d.
Proof.
  unfold decode, mbind, result_bind. intros E.
  destruct (frame_payload buf max) as [[payload l]|] eqn:Ep; [|done].
  apply frame_payload_Ok in Ep as (rest & -> & -> & Hl & Hu). eauto 10.
Qed.

Lemma verified_frame_of payload rest key_count :
  MIN_PAYLOAD_BYTES <= zlen payload -> zlen payload < u32_lim ->
  decode_verified (frame_of payload ++ rest) key_count
    = decode_payload payload (zlen (frame_of payload)) key_count /\
  verified_sort_key (frame_of payload ++ rest)
    = fst <$> cur_sort_key (zlen (frame_of payload)) (cursor_new payload).
Proof.
  intros Hl Hu. unfold decode_verified, verified_sort_key, mbind, result_bind.
  rewrite frame_of_framed, frame_extent_framed, zlen_frame_of; [done|by rewrite zlen_le_bytes| |done].
  unfold usize_max, usize_lim, u32_lim in *. lia.
Qed.
End agree.
