(* ===== verification/CodecTheorems.v ===== *)
(** * CodecTheorems: the contract of the frame codec

    The statements the rest of the crate relies on, for any checksum; the closed
    instances evaluate the codec with the CRC-32 of IEEE 802.3. *)

From Stdlib Require Import ZArith Lia.
From Stdlib Require Import Strings.Byte.
From S2P Require Import Prelude Text Record Codec CodecProofs.
Open Scope Z_scope.

(** ** Lemmas *)

Section headers.
(** A header is the common part, then [n] bytes of its own. *)
Lemma parse_common_header_iff buf needed after :
  6 <= needed ->
  parse_common_header buf needed = Ok after <->
  zlen after = needed - 6 /\
  exists rest, buf = le_bytes 4 MAGIC ++ le_bytes 2 FORMAT_VERSION ++ after ++ rest.
Proof.
  intros Hn. unfold parse_common_header. split.
  - intros E. do 3 split_in E. res_inv. bool_to_prop.
    pose proof (slice_decompose 0 4 buf ltac:(lia) ltac:(lia) ltac:(lia)) as D.
    rewrite <-(slice_drop 4 6), <-(slice_drop 6 needed) in D by lia.
    split; [by rewrite zlen_slice by lia|]. eexists.
    rewrite D at 1. cbn [Z.to_nat take app].
    rewrite <-(le_bytes_val_n 4 (slice 0 4 buf)), Heqb0.
    2:{ pose proof (zlen_slice 0 4 buf). unfold zlen in *. lia. }
    rewrite <-(le_bytes_val_n 2 (slice 4 6 buf)), Heqb1.
    2:{ pose proof (zlen_slice 4 6 buf). unfold zlen in *. lia. }
    done.
  - intros [Ha [rest ->]].
    set (m := le_bytes 4 MAGIC). set (v := le_bytes 2 FORMAT_VERSION).
    assert (zlen m = 4 /\ zlen v = 2) as [Hm Hv] by done.
    destruct (Z.ltb_spec (zlen (m ++ v ++ after ++ rest)) needed); [zlen_lia|].
    rewrite <-Hm, slice_prefix.
    replace (slice (zlen m) 6 (m ++ v ++ after ++ rest)) with v
      by (symmetry; rewrite <-(slice_app_mid m v (after ++ rest)) at 2; f_equal; lia).
    pose proof (slice_app_mid (m ++ v) after rest) as Hs. rewrite <-app_assoc in Hs.
    replace (slice 6 needed (m ++ v ++ after ++ rest)) with after
      by (symmetry; rewrite <-Hs at 2; f_equal; zlen_lia).
    done.
Qed.

Lemma parse_header_iff buf needed (k : nat) n :
  needed = 6 + Z.of_nat k ->
  match parse_common_header buf needed with
  | Ok after => Ok (le_val (slice 0 (Z.of_nat k) after))
  | Err e => Err e
  end = Ok n <->
  0 <= n < 256 ^ Z.of_nat k /\
  exists rest, buf = (le_bytes 4 MAGIC ++ le_bytes 2 FORMAT_VERSION ++ le_bytes k n) ++ rest.
Proof.
  intros Hn. split.
  - destruct (parse_common_header buf needed) as [after|] eqn:E; [|done].
    apply parse_common_header_iff in E as [Ha [rest ->]]; [|lia].
    intros E. res_inv. replace (Z.of_nat k) with (zlen after) by lia.
    rewrite slice_full. split; [apply le_val_range|]. exists rest.
    rewrite le_bytes_val_n by (unfold zlen in Ha; lia). by rewrite <-!app_assoc.
  - intros [Hr [rest ->]].
    assert (parse_common_header ((le_bytes 4 MAGIC ++ le_bytes 2 FORMAT_VERSION
      ++ le_bytes k n) ++ rest) needed = Ok (le_bytes k n)) as ->.
    { apply parse_common_header_iff; [lia|]. split; [zlen_lia|]. exists rest.
      by rewrite <-!app_assoc. }
    f_equal. rewrite <-(zlen_le_bytes k n), slice_full. by apply le_val_bytes_small.
Qed.
End headers.

Section codec_lemmas.
Context `{Crc32}.

Lemma encode_Ok out series epoch row out' :
  encode out series epoch row = (out', Ok tt) ->
  fits series epoch row = true /\ out' = out ++ frame_of (payload_of series epoch row).
Proof.
  intros E. pose proof (encode_result out series epoch row) as Hr.
  destruct (fits series epoch row).
  - rewrite Hr in E. by injection E as <-.
  - destruct Hr as (size & limit & Hr). congruence.
Qed.

Lemma fits_payload series epoch row :
  fits series epoch row = true -> zlen (payload_of series epoch row) < u32_lim.
Proof. unfold fits, fits32. intros Hf. bool_to_prop. done. Qed.

(** The front of a checksummed frame that decodes. *)
Lemma decode_readers payload key_count d :
  zlen payload < u32_lim ->
  decode_payload payload (zlen (frame_of payload)) key_count = Ok d ->
  let r := dec_record d in
  fst <$> cur_prefix (zlen (frame_of payload)) (cursor_new payload)
    = Ok (mkPrefix (rec_ts r) (rec_epoch r) (rec_series r) (rec_id r) (dec_len d)) /\
  fst <$> cur_sort_key (zlen (frame_of payload)) (cursor_new payload)
    = Ok (rec_ts r, rec_id r, dec_len d).
Proof.
  intros Hu E. apply decode_payload_sound in E
    as (W & Ws & He & Hl & Hk & Fs & Fi & Hp & _). rewrite Hl.
  destruct W as [Hts Wi _ _ _]. cbn in Hts, Wi. revert Hu.
  generalize (zlen (frame_of payload)) as frame_len. rewrite Hp. intros frame_len Hu.
  by apply prefix_readers.
Qed.
End codec_lemmas.

(** ** The contract *)

(** A record for the closed instances: two key values, three [extra] pairs out of
    order with a repeated name. *)
Definition sample_row : Row :=
  mkRow 1700000000000 (lit "order-7")
    [VI64 (-5); VStr (lit "eu"); VNull]
    [(lit "z", lit "1"); (lit "a", lit "2"); (lit "a", lit "1")]
    (lit "{}").

Lemma sample_row_wf : row_wf sample_row.
Proof. by split; repeat constructor. Qed.

Section theorems.
Context `{Crc32}.

(** [Encoder::encode] appends exactly the record's frame (length, checksum,
    sections with [extra] in canonical order) when every section fits its length
    field; otherwise it reports [RecordTooLarge] and leaves the buffer as it was,
    so a failed record never corrupts the batch it is appended to. *)
Theorem encode_appends_frame_or_restores out series epoch row :
  if fits series epoch row
  then encode out series epoch row
       = (out ++ frame_of (payload_of series epoch row), Ok tt)
  else exists size limit,
         encode out series epoch row = (out, Err (RecordTooLarge size limit)).
Proof. apply encode_result. Qed.

(** C13: Round trip. A record that [encode] accepts is read back by [decode] from
    the appended frame, whatever follows it, with the same timestamp, epoch,
    series, id, keys and data, the canonical [extra], and the frame's length. *)
Theorem decode_encode_roundtrip out series epoch row out' rest max :
  row_wf row -> str_wf series -> 0 <= epoch < u32_lim ->
  encode out series epoch row = (out', Ok tt) ->
  zlen out' - zlen out <= FRAME_HEADER_BYTES + max ->
  exists frame, out' = out ++ frame /\
    decode (frame ++ rest) (length (row_keys row)) max
    = Ok (decoded_of series epoch row (zlen frame)).
Proof.
  intros W Ws He E Hm. apply encode_Ok in E as [Hf ->].
  exists (frame_of (payload_of series epoch row)). split; [done|].
  pose proof (fits_min series epoch row). pose proof (fits_payload _ _ _ Hf).
  rewrite zlen_app, zlen_frame_of in Hm.
  rewrite decode_frame_of by lia. by apply decode_payload_of.
Qed.

(** C32: Every accepted frame is the encoding of what it decodes to. If [decode]
    accepts the front of a buffer and the [extra] names are in canonical order,
    re-encoding the decoded record yields exactly the bytes consumed: there is
    one encoding per record. *)
Theorem encode_decode_roundtrip buf key_count max d out :
  decode buf key_count max = Ok d ->
  is_canonical (dec_extra d) = true ->
  encode out (rec_series (dec_record d)) (rec_epoch (dec_record d)) (row_of d)
  = (out ++ take (Z.to_nat (dec_len d)) buf, Ok tt).
Proof.
  intros E Hc. apply decode_Ok in E as (payload & rest & -> & Hl & Hu & E).
  apply decode_payload_sound in E as (_ & _ & _ & Hlen & _ & _ & _ & _ & Hcan).
  destruct (Hcan Hc) as [Hs Hp].
  assert (fits (rec_series (dec_record d)) (rec_epoch (dec_record d)) (row_of d) = true) as Hf.
  { unfold fits, fits32. rewrite Hs, <-Hp. by apply Z.ltb_lt. }
  pose proof (encode_result out (rec_series (dec_record d)) (rec_epoch (dec_record d))
    (row_of d)) as Hr.
  rewrite Hf, <-Hp in Hr. rewrite Hr. do 2 f_equal. rewrite Hlen.
  unfold zlen. rewrite Nat2Z.id. by rewrite take_app_length.
Qed.

(** [encode] does not depend on the order of the caller's [extra] pairs: rows
    that differ by a permutation of [extra] give the same bytes or both fail. *)
Theorem encode_extra_order_irrelevant out series epoch row extra :
  extra ≡ₚ row_extra row ->
  let row' := mkRow (row_ts row) (row_id row) (row_keys row) extra (row_data row) in
  (encode out series epoch row').1 = (encode out series epoch row).1 /\
  is_ok (encode out series epoch row').2 = is_ok (encode out series epoch row).2.
Proof.
  intros Hp row'.
  assert (canonical_extra extra = canonical_extra (row_extra row)) as Hc.
  { unfold canonical_extra. f_equal. apply (StronglySorted_unique cle);
      [exact (sort_sorted id _)..|]. by rewrite !sort_perm. }
  assert (payload_of series epoch row' = payload_of series epoch row) as Epay.
  { unfold payload_of. cbn. by rewrite Hc. }
  assert (fits series epoch row' = fits series epoch row) as Ef.
  { unfold fits, sections_fit, fits16. rewrite Epay. cbn. rewrite Hc. unfold zlen.
    by rewrite (Permutation_length Hp). }
  pose proof (encode_result out series epoch row') as Hr'.
  pose proof (encode_result out series epoch row) as Hr. rewrite Ef, Epay in Hr'.
  destruct (fits series epoch row).
  - by rewrite Hr, Hr'.
  - destruct Hr as (? & ? & ->), Hr' as (? & ? & ->). done.
Qed.

(** [Truncated] and [Corrupt] mean what they say. A [Truncated] result reports
    the bytes present and a strictly larger need; every other result of [decode],
    success or [Corrupt], is final: no bytes appended to the buffer change it. *)
Theorem decode_truncated_or_final key_count max buf :
  match decode buf key_count max with
  | Err (Truncated needed got) => got = zlen buf /\ got < needed
  | r => forall more, decode (buf ++ more) key_count max = r
  end.
Proof. apply decode_stable. Qed.

(** C33: A torn write is recognised as one: every strict prefix of a frame that
    [decode] accepts is reported [Truncated] by [decode] and by
    [validate_prefix], with the number of bytes present. *)
Theorem torn_frame_is_truncated buf key_count max d n :
  decode buf key_count max = Ok d -> 0 <= n < dec_len d ->
  exists needed,
    decode (take (Z.to_nat n) buf) key_count max = Err (Truncated needed n) /\
    validate_prefix (take (Z.to_nat n) buf) max = Err (Truncated needed n).
Proof.
  intros E Hn. apply decode_Ok in E as (payload & rest & -> & Hl & Hu & E).
  apply decode_payload_sound in E as (_ & _ & _ & Hlen & _). rewrite Hlen in Hn.
  rewrite take_app_le by (unfold zlen in Hn; lia).
  unfold decode, validate_prefix. rewrite frame_payload_torn by (unfold zlen in *; lia).
  rewrite Z2Nat.id by lia. eexists. done.
Qed.

(** The partial readers agree with [decode]. On a frame [decode] accepts,
    [validate_prefix] (the ingest check), [decode_verified] (the flush) and
    [verified_sort_key] (the merge) all succeed with the same fields. *)
Theorem partial_readers_agree buf key_count max d :
  decode buf key_count max = Ok d ->
  let r := dec_record d in
  validate_prefix buf max
    = Ok (mkPrefix (rec_ts r) (rec_epoch r) (rec_series r) (rec_id r) (dec_len d)) /\
  decode_verified buf key_count = Ok d /\
  verified_sort_key buf = Ok (rec_ts r, rec_id r, dec_len d).
Proof.
  intros E r. apply decode_Ok in E as (payload & rest & -> & Hl & Hu & E).
  destruct (decode_readers payload key_count d Hu E) as [Hp Hk].
  destruct (verified_frame_of payload rest key_count ltac:(lia) Hu) as [-> ->].
  split_and!; [|done..]. by apply validate_prefix_frame_of.
Qed.

(** Segment and batch headers round-trip exactly: [parse_segment_header]
    accepts a buffer iff it starts with the header [encode_segment_header] writes
    for the id it returns, and likewise for batches and their count. *)
Theorem headers_roundtrip buf n :
  (parse_segment_header buf = Ok n <->
    0 <= n < u64_lim /\ exists rest, buf = encode_segment_header [] n ++ rest) /\
  (parse_batch_header buf = Ok n <->
    0 <= n < u32_lim /\ exists rest, buf = encode_batch_header [] n ++ rest).
Proof.
  split; unfold parse_segment_header, parse_batch_header, mbind, result_bind.
  - rewrite (parse_header_iff buf SEGMENT_HEADER_BYTES 8) by done. done.
  - rewrite (parse_header_iff buf BATCH_HEADER_BYTES 4) by done. done.
Qed.
End theorems.

(** ** Closed instances *)

#[local] Existing Instance Crc32_ieee.

Definition sample_frame : bytes :=
  (encode [] (lit "orders") 3 sample_row).1.

Definition sample_decoded : Decoded :=
  decoded_of (lit "orders") 3 sample_row (zlen sample_frame).

Lemma encode_appends_witness :
  encode [x01] (lit "orders") 3 sample_row
  = ([x01] ++ frame_of (payload_of (lit "orders") 3 sample_row), Ok tt).
Proof. exact (encode_appends_frame_or_restores [x01] (lit "orders") 3 sample_row). Defined.

Lemma decode_encode_witness :
  exists frame, sample_frame = [] ++ frame /\
    decode (frame ++ [xff]) 3 1000 = Ok (decoded_of (lit "orders") 3 sample_row (zlen frame)).
Proof.
  apply (decode_encode_roundtrip [] (lit "orders") 3 sample_row sample_frame [xff] 1000).
  - apply sample_row_wf.
  - reflexivity.
  - done.
  - vm_compute. reflexivity.
  - vm_compute. discriminate.
Defined.

Lemma encode_decode_witness :
  encode [x07] (lit "orders") 3 (row_of sample_decoded) = ([x07] ++ sample_frame, Ok tt).
Proof.
  rewrite <-(firstn_all sample_frame).
  apply (encode_decode_roundtrip sample_frame 3 1000 sample_decoded [x07]).
  - vm_compute. reflexivity.
  - vm_compute. reflexivity.
Defined.

Lemma encode_extra_order_witness :
  (encode [] (lit "s") 1 (mkRow 5 [] [] [(lit "a", []); (lit "b", [])] [])).1
  = (encode [] (lit "s") 1 (mkRow 5 [] [] [(lit "b", []); (lit "a", [])] [])).1.
Proof.
  apply (encode_extra_order_irrelevant [] (lit "s") 1
    (mkRow 5 [] [] [(lit "b", []); (lit "a", [])] []) [(lit "a", []); (lit "b", [])]).
  constructor.
Defined.

Lemma decode_truncated_witness :
  decode (take 20 sample_frame) 3 1000 = Err (Truncated (zlen sample_frame) 20) /\
  20 = zlen (take 20 sample_frame).
Proof.
  pose proof (decode_truncated_or_final 3 1000 (take 20 sample_frame)) as Hs.
  split; [vm_compute; reflexivity|]. vm_compute in Hs. vm_compute. apply Hs.
Defined.

Lemma torn_frame_witness :
  exists needed, decode (take 30 sample_frame) 3 1000 = Err (Truncated needed 30) /\
    validate_prefix (take 30 sample_frame) 1000 = Err (Truncated needed 30).
Proof.
  apply (torn_frame_is_truncated sample_frame 3 1000 sample_decoded 30).
  - vm_compute. reflexivity.
  - by vm_compute.
Defined.

Lemma partial_readers_witness :
  validate_prefix sample_frame 1000
    = Ok (mkPrefix 1700000000000 3 (lit "orders") (lit "order-7") (zlen sample_frame)) /\
  decode_verified sample_frame 3 = Ok sample_decoded /\
  verified_sort_key sample_frame = Ok (1700000000000, lit "order-7", zlen sample_frame).
Proof.
  apply (partial_readers_agree sample_frame 3 1000 sample_decoded). vm_compute. reflexivity.
Defined.

Lemma headers_witness :
  parse_segment_header (encode_segment_header [] 77 ++ [x01]) = Ok 77.
Proof.
  apply (proj1 (headers_roundtrip (encode_segment_header [] 77 ++ [x01]) 77)).
  split; [split; [discriminate|reflexivity]|by exists [x01]].
Defined.
