(* ===== verification/Disk.v ===== *)
(** * Disk: the file system the engine runs on

    Files are a finite map from paths (relative to [data_dir], one component per
    element) to contents; directories are implicit. A computation of the source is a
    tree of type [io] whose leaves are the file-system calls it makes, each named by a
    value of [call], so that the order of the calls is part of the model: the files
    Beside and Durable reason about it.

    [exec] runs a tree. Every call consumes one entry of the world's [script], which
    says whether the call behaves as the files say ([NotFound] and [AlreadyExists] are
    functions of the files), fails with another I/O error without effect ([Fails]) or,
    for a write, after some of the bytes ([Short]: a full disk), or whether the process
    stops there (a crash, [kill -9], power loss) before the call ([Stop]) or in the
    middle of a write ([Torn]). The empty script is a run without faults. A theorem
    quantified over the script is therefore a theorem about every sequence of I/O errors
    and every crash point.

    Under [exec] calls take effect in program order and survive a stop: the loss of data
    that was written but not synced is the subject of the files Calls ([power_cut]),
    PowerCut, Durable and Writer. *)

From Stdlib Require Import ZArith Lia.
From Stdlib Require Import Strings.Byte.
From S2P Require Import Prelude Text Record.
Open Scope Z_scope.

Abbreviation path := (list bytes).
Abbreviation Files := (gmap path bytes).

Inductive fault : Type :=
| Fine
| Fails (what : string)
| Short (n : nat) (what : string)
| Stop
| Torn (n : nat).

Record World := mkWorld { files : Files; script : list fault }.

(** How a computation ends: with a value, with [Err(Error)], or not at all. *)
Inductive outcome (A : Type) : Type :=
| Ret (a : A)
| Throw (e : Error)
| Halted.
Arguments Ret {A} a.
Arguments Throw {A} e.
Arguments Halted {A}.

(** ** Directories *)

(** The name of a file of [dir]. *)
Definition name_in (dir p : path) : option bytes :=
  match reverse p with
  | name :: rdir => if decide (rdir = reverse dir) then Some name else None
  | [] => None
  end.

(** The names [read_dir] lists. The order is one of those the system may choose; the
    code relies on none. *)
Definition names_of (fs : Files) (dir : path) : list bytes :=
  sort_by_key id (omap (name_in dir) (map_to_list fs).*1).

Definition under (dir p : path) : bool := bool_decide (take (length dir) p = dir).

(** The files below a directory. *)
Definition files_under (dir : path) (fs : Files) : list path :=
  sort_by_key id (filter (fun p => under dir p = true) (map_to_list fs).*1).

(** The names of the directories in [dir]. *)
Definition subdir_in (dir p : path) : option bytes :=
  if under dir p then
    match drop (length dir) p with
    | d :: _ :: _ => Some d
    | _ => None
    end
  else None.

Definition subdirs_of (fs : Files) (dir : path) : list bytes :=
  sort_by_key id (remove_dups (omap (subdir_in dir) (map_to_list fs).*1)).

(** ** The calls

    [call R] is a call with reply [R]:
    - [Rename]: [fs::rename], which replaces the target; [RemoveFile]: [fs::remove_file];
    - [ReadFile]: [fs::read] and [File::read_to_end]; [FileLen]: [fs::metadata(p)?.len()];
      [OpenFile]: [File::open];
    - [WriteFile]: [File::create] and [write_all]; [AppendFile]: [write_all] on a file
      opened with [append(true).create(true)]; [CreateNew]:
      [OpenOptions::create_new(true).open], then [write_all]; [OpenTruncate]:
      [OpenOptions::new().write(true).truncate(true).open]; [SetLen]: [File::set_len] to
      a length not above the current one; [WriteCount]: [Write::write_all] on an open
      file, with the number of bytes written;
    - [SyncFile]: [File::sync_all]; [SyncLen]: the same, with the length of what is now
      durable; [FlushFile]: [BufWriter::flush]
      and [TryClone]: [File::try_clone], which sync nothing; [FsyncDir]: [wal::fsync_dir]; [CreateDirAll]: [fs::create_dir_all];
    - [ReadDir]: [fs::read_dir], the names of the files in a directory; [ReadSubdirs]: the
      names of the directories in it; [RemoveDirAll]: [fs::remove_dir_all];
    - [ReadTick]: a read of an open file. *)

Inductive call : Type -> Type :=
| Rename (from to : path) : call (result IoError unit)
| RemoveFile (p : path) : call (result IoError unit)
| ReadFile (p : path) : call (result IoError bytes)
| FileLen (p : path) : call (result IoError Z)
| OpenFile (p : path) : call (result IoError unit)
| WriteFile (p : path) (c : bytes) : call (result IoError unit)
| AppendFile (p : path) (c : bytes) : call (result IoError unit)
| CreateNew (p : path) (c : bytes) : call (result IoError unit)
| OpenTruncate (p : path) : call (result IoError unit)
| SetLen (p : path) (n : Z) : call (result IoError unit)
| WriteCount (p : path) (c : bytes) : call (nat * result IoError unit)
| SyncFile (p : path) : call (result IoError unit)
| SyncLen (p : path) : call (result IoError nat)
| TryClone (p : path) : call (result IoError unit)
| FlushFile (p : path) : call (result IoError unit)
| FsyncDir (dir : path) : call (result IoError unit)
| CreateDirAll (dir : path) : call (result IoError unit)
| ReadDir (dir : path) : call (result IoError (list bytes))
| ReadSubdirs (dir : path) : call (result IoError (list bytes))
| RemoveDirAll (dir : path) : call (result IoError unit)
| ReadTick : call (result IoError unit).

(** What a call does when nothing goes wrong. *)
Definition effect {R : Type} (c : call R) (fs : Files) : Files * R :=
  match c in call R return Files * R with
  | Rename from to =>
      match fs !! from with
      | Some c => (<[to := c]> (delete from fs), Ok tt)
      | None => (fs, Err NotFound)
      end
  | RemoveFile p =>
      match fs !! p with
      | Some _ => (delete p fs, Ok tt)
      | None => (fs, Err NotFound)
      end
  | ReadFile p =>
      match fs !! p with
      | Some c => (fs, Ok c)
      | None => (fs, Err NotFound)
      end
  | FileLen p =>
      match fs !! p with
      | Some c => (fs, Ok (zlen c))
      | None => (fs, Err NotFound)
      end
  | OpenFile p => (fs, match fs !! p with Some _ => Ok tt | None => Err NotFound end)
  | WriteFile p c => (<[p := c]> fs, Ok tt)
  | AppendFile p c => (<[p := default [] (fs !! p) ++ c]> fs, Ok tt)
  | CreateNew p c =>
      match fs !! p with
      | Some _ => (fs, Err AlreadyExists)
      | None => (<[p := c]> fs, Ok tt)
      end
  | OpenTruncate p =>
      match fs !! p with
      | Some _ => (<[p := []]> fs, Ok tt)
      | None => (fs, Err NotFound)
      end
  | SetLen p n =>
      match fs !! p with
      | Some c => (<[p := take (Z.to_nat n) c]> fs, Ok tt)
      | None => (fs, Err NotFound)
      end
  | WriteCount p c => (<[p := default [] (fs !! p) ++ take (length c) c]> fs, (length c, Ok tt))
  | SyncFile _ | TryClone _ | FlushFile _ | FsyncDir _ | CreateDirAll _
  | ReadTick => (fs, Ok tt)
  | SyncLen p => (fs, Ok (length (default [] (fs !! p))))
  | ReadDir dir => (fs, Ok (names_of fs dir))
  | ReadSubdirs dir => (fs, Ok (subdirs_of fs dir))
  | RemoveDirAll dir => (foldr delete fs (files_under dir fs), Ok tt)
  end.

(** What a stop or an error in the middle of a call leaves: [n] bytes of a write, all
    but [n] of the files below a directory. A call that is not listed happens entirely
    or not at all. *)
Definition part {R : Type} (c : call R) (n : nat) (fs : Files) : Files :=
  match c with
  | WriteFile p c => <[p := take n c]> fs
  | AppendFile p c | WriteCount p c => <[p := default [] (fs !! p) ++ take n c]> fs
  | RemoveDirAll dir => foldr delete fs (take n (files_under dir fs))
  | _ => fs
  end.

(** The reply when a call fails after [n] bytes. *)
Definition failure {R : Type} (c : call R) (n : nat) (what : string) : R :=
  match c in call R return R with
  | WriteCount _ _ => (n, Err (OtherIo what))
  | Rename _ _ | RemoveFile _ | ReadFile _ | FileLen _ | OpenFile _ | WriteFile _ _
  | AppendFile _ _ | CreateNew _ _ | OpenTruncate _ | SetLen _ _ | SyncFile _ | SyncLen _
  | TryClone _ | FlushFile _ | FsyncDir _ | CreateDirAll _ | ReadDir _ | ReadSubdirs _ | RemoveDirAll _ | ReadTick =>
      Err (OtherIo what)
  end.

(** A call under the next entry of the script. *)
Definition perform {R : Type} (c : call R) (w : World) : World * outcome R :=
  match script w with
  | Fails what :: s => (mkWorld (files w) s, Ret (failure c 0 what))
  | Short n what :: s => (mkWorld (part c n (files w)) s, Ret (failure c n what))
  | Stop :: s => (mkWorld (files w) s, Halted)
  | Torn n :: s => (mkWorld (part c n (files w)) s, Halted)
  | Fine :: s => let '(fs, r) := effect c (files w) in (mkWorld fs s, Ret r)
  | [] => let '(fs, r) := effect c (files w) in (mkWorld fs [], Ret r)
  end.

(** ** Computations *)

Inductive io : Type -> Type :=
| Done {A : Type} (a : A) : io A
| Raise {A : Type} (e : Error) : io A
| Call {R : Type} (c : call R) : io R
| Bind {A B : Type} (m : io A) (k : A -> io B) : io B
| Catch {A : Type} (m : io A) : io (result Error A).

Fixpoint exec {A : Type} (m : io A) : World -> World * outcome A :=
  match m in io A return World -> World * outcome A with
  | Done a => fun w => (w, Ret a)
  | Raise e => fun w => (w, Throw e)
  | Call c => perform c
  | Bind m k => fun w =>
      match exec m w with
      | (w', Ret a) => exec (k a) w'
      | (w', Throw e) => (w', Throw e)
      | (w', Halted) => (w', Halted)
      end
  | Catch m => fun w =>
      match exec m w with
      | (w', Ret a) => (w', Ret (Ok a))
      | (w', Throw e) => (w', Ret (Err e))
      | (w', Halted) => (w', Halted)
      end
  end.
Coercion exec : io >-> Funclass.

#[export] Instance io_ret : MRet io := @Done.
#[export] Instance io_bind : MBind io := fun A B f m => Bind m f.
Arguments io_bind : simpl never.

Definition throw {A : Type} (e : Error) : io A := Raise e.

(** An error as a value. *)
Definition attempt {A : Type} (m : io A) : io (result Error A) := Catch m.

(** A result as a computation. *)
Definition lift {A : Type} (r : result Error A) : io A :=
  match r with
  | Ok a => mret a
  | Err e => throw e
  end.

(** The [?] operator on an I/O result: [From<io::Error> for Error]. *)
Definition try {A : Type} (m : io (result IoError A)) : io A :=
  r ← m;
  match r with
  | Ok a => mret a
  | Err e => throw (Io e)
  end.

(** [for x in l { f(x)?; }]. *)
Fixpoint io_each {A : Type} (f : A -> io unit) (l : list A) : io unit :=
  match l with
  | [] => mret tt
  | x :: l' => f x ;; io_each f l'
  end.

Definition rename (from to : path) : io (result IoError unit) := Call (Rename from to).
Definition remove_file (p : path) : io (result IoError unit) := Call (RemoveFile p).
Definition read_file (p : path) : io (result IoError bytes) := Call (ReadFile p).
Definition file_len (p : path) : io (result IoError Z) := Call (FileLen p).
Definition write_file (p : path) (c : bytes) : io (result IoError unit) := Call (WriteFile p c).
Definition append_file (p : path) (c : bytes) : io (result IoError unit) := Call (AppendFile p c).
Definition create_new (p : path) (c : bytes) : io (result IoError unit) := Call (CreateNew p c).
Definition set_len (p : path) (n : Z) : io (result IoError unit) := Call (SetLen p n).
Definition sync (p : path) : io (result IoError unit) := Call (SyncFile p).
Definition fsync_dir (dir : path) : io (result IoError unit) := Call (FsyncDir dir).
Definition create_dir_all (dir : path) : io (result IoError unit) := Call (CreateDirAll dir).
Definition read_dir (dir : path) : io (result IoError (list bytes)) := Call (ReadDir dir).
Definition read_subdirs (dir : path) : io (result IoError (list bytes)) := Call (ReadSubdirs dir).
Definition remove_dir_all (dir : path) : io (result IoError unit) := Call (RemoveDirAll dir).

Arguments rename : simpl never.
Arguments remove_file : simpl never.
Arguments read_file : simpl never.
Arguments file_len : simpl never.
Arguments write_file : simpl never.
Arguments append_file : simpl never.
Arguments create_new : simpl never.
Arguments set_len : simpl never.
Arguments sync : simpl never.
Arguments fsync_dir : simpl never.
Arguments create_dir_all : simpl never.
Arguments read_dir : simpl never.
Arguments read_subdirs : simpl never.
Arguments remove_dir_all : simpl never.

(** A call that happens entirely or not at all. *)
Class Whole {A : Type} (c : call (result IoError A)) : Prop := {
  whole_part : forall n fs, part c n fs = fs;
  whole_failure : forall n what, failure c n what = Err (OtherIo what)
}.
#[export] Hint Extern 0 (Whole _) => split; reflexivity : typeclass_instances.

(** A call without effect on the files. *)
Class Idle (c : call (result IoError unit)) : Prop := {
  idle_whole :: Whole c;
  idle_effect : forall fs, effect c fs = (fs, Ok tt)
}.
#[export] Hint Extern 0 (Idle _) => split; [split; reflexivity|reflexivity] : typeclass_instances.

(** ** Lemmas *)

Lemma name_in_Some dir p name : name_in dir p = Some name <-> p = dir ++ [name].
Proof.
  unfold name_in. split.
  - destruct (reverse p) as [|n rdir] eqn:E; [done|].
    destruct (decide _) as [->|]; [|done]. intros. res_inv.
    apply (f_equal reverse) in E. rewrite reverse_involutive in E. rewrite E.
    by rewrite reverse_cons, reverse_involutive.
  - intros ->. rewrite reverse_snoc. by rewrite decide_True.
Qed.

Lemma app_one_inj {A : Type} (d : list A) x y : d ++ [x] = d ++ [y] <-> x = y.
Proof. split; [|by intros ->]. intros E. by apply app_inv_head in E as [= ->]. Qed.

Lemma elem_of_names fs dir name :
  name ∈ names_of fs dir <-> is_Some (fs !! (dir ++ [name])).
Proof.
  unfold names_of. rewrite elem_of_sort, list_elem_of_omap. split.
  - intros (p & Hp & Hn). apply name_in_Some in Hn as ->.
    apply list_elem_of_fmap in Hp as ([p c] & -> & Hp). apply elem_of_map_to_list in Hp. eauto.
  - intros [c Hc]. exists (dir ++ [name]). split; [|by apply name_in_Some].
    apply list_elem_of_fmap. exists (dir ++ [name], c). split; [done|].
    by apply elem_of_map_to_list.
Qed.

Lemma omap_NoDup {A B : Type} (f : A -> option B) (l : list A) :
  (forall x y b, f x = Some b -> f y = Some b -> x = y) -> NoDup l -> NoDup (omap f l).
Proof.
  intros Hf. induction 1 as [|x l Hx Hl IH]; [constructor|]. cbn.
  destruct (f x) as [b|] eqn:E; [|done]. constructor; [|done].
  rewrite list_elem_of_omap. intros (y & Hy & Ey). by rewrite (Hf x y b E Ey) in Hx.
Qed.

Lemma NoDup_names fs dir : NoDup (names_of fs dir).
Proof.
  unfold names_of. rewrite sort_perm. apply omap_NoDup; [|apply NoDup_fst_map_to_list].
  intros x y b. rewrite !name_in_Some. by intros -> ->.
Qed.

Lemma elem_of_files_under dir fs p : p ∈ files_under dir fs <-> under dir p = true /\ is_Some (fs !! p).
Proof.
  unfold files_under. rewrite elem_of_sort, list_elem_of_filter, list_elem_of_fmap. apply and_iff_compat_l. split.
  - intros ([q c] & -> & Hq%elem_of_map_to_list). cbn. eauto.
  - intros [c Hc]. exists (p, c). split; [done|]. by apply elem_of_map_to_list.
Qed.

Lemma subdir_in_Some dir p d : subdir_in dir p = Some d <-> exists x rest, p = dir ++ d :: x :: rest.
Proof.
  unfold subdir_in, under. case_bool_decide as E; split.
  - destruct (drop (length dir) p) as [|d' [|x rest]] eqn:Ed; [done|done|]. intros [= <-].
    exists x, rest. by rewrite <-(take_drop (length dir) p), E, Ed at 1.
  - intros (x & rest & ->). by rewrite drop_app_length.
  - done.
  - intros (x & rest & ->). by rewrite take_app_length in E.
Qed.

Lemma elem_of_subdirs fs dir d :
  d ∈ subdirs_of fs dir <-> exists x rest, is_Some (fs !! (dir ++ d :: x :: rest)).
Proof.
  unfold subdirs_of. rewrite elem_of_sort, elem_of_remove_dups, list_elem_of_omap. split.
  - intros (p & Hp & (x & rest & ->)%subdir_in_Some). exists x, rest.
    apply list_elem_of_fmap in Hp as ([q c] & -> & Hq%elem_of_map_to_list). eauto.
  - intros (x & rest & [c Hc]). exists (dir ++ d :: x :: rest). split; [|apply subdir_in_Some; eauto].
    apply list_elem_of_fmap. exists (dir ++ d :: x :: rest, c). split; [done|]. by apply elem_of_map_to_list.
Qed.

Lemma NoDup_subdirs fs dir : NoDup (subdirs_of fs dir).
Proof. unfold subdirs_of. rewrite sort_perm. apply NoDup_remove_dups. Qed.

(** ** Execution *)

Lemma exec_bind {A B : Type} (m : io A) (k : A -> io B) w :
  exec (m ≫= k) w =
    match exec m w with
    | (w', Ret a) => exec (k a) w'
    | (w', Throw e) => (w', Throw e)
    | (w', Halted) => (w', Halted)
    end.
Proof. done. Qed.

Lemma exec_attempt {A : Type} (m : io A) w :
  exec (attempt m) w =
    match exec m w with
    | (w', Ret a) => (w', Ret (Ok a))
    | (w', Throw e) => (w', Ret (Err e))
    | (w', Halted) => (w', Halted)
    end.
Proof. done. Qed.

Lemma exec_ret {A : Type} (a : A) w : exec (mret a) w = (w, Ret a).
Proof. done. Qed.

Lemma exec_throw {A : Type} e w : exec (@throw A e) w = (w, Throw e).
Proof. done. Qed.

(** Without faults no computation stops by itself. *)
Lemma exec_steady {A : Type} (m : io A) w :
  script w = [] -> script (m w).1 = [] /\ (m w).2 <> Halted.
Proof.
  revert w. induction m as [A a|A e|R c|A B m IH k IHk|A m IH]; intros w Hw; cbn; [done|done| | |].
  - unfold perform. rewrite Hw. by destruct (effect c (files w)).
  - destruct (IH w Hw) as [Hs Hn]. destruct (m w) as [w' [a| |]]; cbn in *; [by apply IHk|done|done].
  - destruct (IH w Hw) as [Hs Hn]. by destruct (m w) as [w' [a| |]].
Qed.

(** ** Runs without faults, and invariants of every run *)

(** [m] run without faults takes [fs] to [fs'] with result [r]. *)
Definition runs {A : Type} (m : io A) (fs : Files) (fs' : Files) (r : outcome A) : Prop :=
  m (mkWorld fs []) = (mkWorld fs' [], r).

Lemma runs_ret {A : Type} (a : A) fs : runs (mret a) fs fs (Ret a).
Proof. done. Qed.

Lemma runs_bind {A B : Type} (m : io A) (k : A -> io B) fs fs1 fs2 a r :
  runs m fs fs1 (Ret a) -> runs (k a) fs1 fs2 r -> runs (m ≫= k) fs fs2 r.
Proof. unfold runs, mbind, io_bind. cbn [exec]. by intros -> ->. Qed.

Lemma runs_call {R : Type} (c : call R) fs : runs (Call c) fs (effect c fs).1 (Ret (effect c fs).2).
Proof. unfold runs. cbn. unfold perform. cbn. by destruct (effect c fs). Qed.

Lemma runs_call_eq {R : Type} (c : call R) fs fs' r :
  effect c fs = (fs', r) -> runs (Call c) fs fs' (Ret r).
Proof. intros E. pose proof (runs_call c fs) as Hr. by rewrite E in Hr. Qed.

Lemma runs_rename from to c fs :
  fs !! from = Some c -> runs (rename from to) fs (<[to := c]> (delete from fs)) (Ret (Ok tt)).
Proof. intros E. apply runs_call_eq. cbn [effect]. by rewrite E. Qed.

Lemma runs_remove p fs : is_Some (fs !! p) -> runs (remove_file p) fs (delete p fs) (Ret (Ok tt)).
Proof. intros [c E]. apply runs_call_eq. cbn [effect]. by rewrite E. Qed.

Lemma runs_read p c fs : fs !! p = Some c -> runs (read_file p) fs fs (Ret (Ok c)).
Proof. intros E. apply runs_call_eq. cbn [effect]. by rewrite E. Qed.

Lemma runs_file_len p c fs : fs !! p = Some c -> runs (file_len p) fs fs (Ret (Ok (zlen c))).
Proof. intros E. apply runs_call_eq. cbn [effect]. by rewrite E. Qed.

Lemma runs_set_len p n c fs :
  fs !! p = Some c -> runs (set_len p n) fs (<[p := take (Z.to_nat n) c]> fs) (Ret (Ok tt)).
Proof. intros E. apply runs_call_eq. cbn [effect]. by rewrite E. Qed.

Lemma runs_idle (c : call (result IoError unit)) `{!Idle c} fs : runs (Call c) fs fs (Ret (Ok tt)).
Proof. apply runs_call_eq, idle_effect. Qed.

Lemma runs_write p c fs : runs (write_file p c) fs (<[p := c]> fs) (Ret (Ok tt)).
Proof. done. Qed.

Lemma runs_try {A : Type} (m : io (result IoError A)) fs fs' a :
  runs m fs fs' (Ret (Ok a)) -> runs (try m) fs fs' (Ret a).
Proof. intros Hm. unfold try. by eapply runs_bind. Qed.

Lemma runs_try_err {A : Type} (m : io (result IoError A)) fs fs' e :
  runs m fs fs' (Ret (Err e)) -> runs (try m) fs fs' (Throw (Io e)).
Proof. intros Hm. unfold try. by eapply runs_bind. Qed.

Lemma runs_bind_throw {A B : Type} (m : io A) (k : A -> io B) fs fs' e :
  runs m fs fs' (Throw e) -> runs (m ≫= k) fs fs' (Throw e).
Proof. unfold runs. rewrite exec_bind. by intros ->. Qed.

Lemma runs_attempt {A : Type} (m : io A) fs fs' a :
  runs m fs fs' (Ret a) -> runs (attempt m) fs fs' (Ret (Ok a)).
Proof. unfold runs. rewrite exec_attempt. by intros ->. Qed.

Lemma runs_attempt_throw {A : Type} (m : io A) fs fs' e :
  runs m fs fs' (Throw e) -> runs (attempt m) fs fs' (Ret (Err e)).
Proof. unfold runs. rewrite exec_attempt. by intros ->. Qed.

(** Crash Hoare triples: from files in [P], whatever the script, [m] leaves files in
    [C] when it stops, fails or returns, and in [Q a] when it returns [a]. *)
Definition triple {A : Type} (P : Files -> Prop) (m : io A) (C : Files -> Prop)
    (Q : A -> Files -> Prop) : Prop :=
  forall w, P (files w) ->
    C (files (m w).1) /\
    match (m w).2 with
    | Ret a => Q a (files (m w).1)
    | _ => True
    end.

Section triples.
Context {A B : Type}.
Implicit Types (P C : Files -> Prop) (Q : A -> Files -> Prop).

Lemma triple_ret P C Q (a : A) :
  (forall fs, P fs -> C fs) -> (forall fs, P fs -> Q a fs) -> triple P (mret a) C Q.
Proof. intros HC HQ w Hw. cbn. auto. Qed.

Lemma triple_throw P C Q e : (forall fs, P fs -> C fs) -> triple P (@throw A e) C Q.
Proof. intros HC w Hw. cbn. auto. Qed.

Lemma triple_bind P C Q (R : B -> Files -> Prop) (m : io A) (k : A -> io B) :
  triple P m C Q -> (forall a, triple (Q a) (k a) C R) -> triple P (m ≫= k) C R.
Proof.
  intros Hm Hk w Hw. destruct (Hm w Hw) as [HC HQ]. unfold mbind, io_bind. cbn [exec].
  destruct (m w) as [w' [a| |]]; cbn in *; auto. by apply Hk.
Qed.

Lemma triple_conseq P P' C Q Q' (m : io A) :
  triple P' m C Q' -> (forall fs, P fs -> P' fs) -> (forall a fs, Q' a fs -> Q a fs) ->
  triple P m C Q.
Proof.
  intros Hm HP HQ w Hw. destruct (Hm w (HP _ Hw)) as [HC HR]. split; [done|].
  destruct (m w).2; auto.
Qed.

(** A fact about the files at the start does not depend on them. *)
Lemma triple_pure P C Q (m : io A) (F : Prop) :
  (forall fs, P fs -> F) -> (F -> triple P m C Q) -> triple P m C Q.
Proof. intros HF Hm w Hw. by apply Hm; [eapply HF|]. Qed.

Lemma triple_call P C Q (c : call A) :
  (forall fs, P fs -> C fs) -> (forall n fs, P fs -> C (part c n fs)) ->
  (forall fs, P fs -> C (effect c fs).1 /\ Q (effect c fs).2 (effect c fs).1) ->
  (forall fs what, P fs -> Q (failure c 0 what) fs) ->
  (forall n fs what, P fs -> Q (failure c n what) (part c n fs)) ->
  triple P (Call c) C Q.
Proof.
  intros HC Ht Hf He Hs w Hw. cbn. unfold perform. specialize (Hf (files w) Hw).
  destruct (script w) as [|[|e|n e| |n] s]; cbn; auto; destruct (effect c (files w)); cbn in *; auto.
Qed.

Lemma triple_whole P C (Q : result IoError A -> Files -> Prop) (c : call (result IoError A)) `{!Whole c} :
  (forall fs, P fs -> C fs) ->
  (forall fs, P fs -> C (effect c fs).1 /\ Q (effect c fs).2 (effect c fs).1) ->
  (forall fs what, P fs -> Q (Err (OtherIo what)) fs) ->
  triple P (Call c) C Q.
Proof.
  intros HC Hf He w Hw. cbn. unfold perform. specialize (Hf (files w) Hw).
  destruct (script w) as [|[|e|n e| |n] s]; cbn; rewrite ?whole_part, ?whole_failure; auto;
    destruct (effect c (files w)); cbn in *; auto.
Qed.

Lemma triple_try P C Q (m : io (result IoError A)) :
  triple P m C (fun r fs => match r with Ok a => Q a fs | Err _ => C fs end) ->
  triple P (try m) C Q.
Proof.
  intros Hm w Hw. destruct (Hm w Hw) as [HC HQ]. unfold try, mbind, io_bind. cbn [exec].
  destruct (m w) as [w' [[a|e]| |]]; cbn in *; auto.
Qed.
End triples.

Lemma triple_each {A : Type} (I C : Files -> Prop) (f : A -> io unit) l :
  (forall fs, I fs -> C fs) ->
  (forall x, x ∈ l -> triple I (f x) C (fun _ => I)) ->
  triple I (io_each f l) C (fun _ => I).
Proof.
  intros HC. induction l as [|x l IH]; intros Hf; cbn; [by apply triple_ret|].
  eapply triple_bind; [apply Hf; set_solver|]. intros []. apply IH. intros y Hy. apply Hf. set_solver.
Qed.

(** A call that does not change the files. *)
Lemma triple_idle (P C : Files -> Prop) (c : call (result IoError unit)) `{!Idle c} :
  (forall fs, P fs -> C fs) -> triple P (Call c) C (fun _ => P).
Proof. intros HC. apply triple_whole; [apply _|done| |done]. intros fs Hfs. rewrite idle_effect. auto. Qed.

Lemma triple_try_idle (P C : Files -> Prop) (c : call (result IoError unit)) `{!Idle c} :
  (forall fs, P fs -> C fs) -> triple P (try (Call c)) C (fun _ => P).
Proof.
  intros HC. apply triple_try. eapply triple_conseq; [by apply triple_idle; [apply _|]|done|].
  intros [] fs Hfs; auto.
Qed.

Ltac idle := first [apply triple_try_idle; [apply _|] | apply triple_idle; [apply _|]].

Lemma triple_read (P C : Files -> Prop) p :
  (forall fs, P fs -> C fs) ->
  triple P (read_file p) C (fun r fs => P fs /\
    match r with Ok c => fs !! p = Some c | Err _ => True end).
Proof.
  intros HC. apply triple_whole; [apply _|done| |done]. intros fs Hfs. cbn. destruct (fs !! p) eqn:E; cbn; auto.
Qed.

Lemma triple_file_len (P C : Files -> Prop) p :
  (forall fs, P fs -> C fs) ->
  triple P (file_len p) C (fun r fs => P fs /\
    match r with Ok n => exists c, fs !! p = Some c /\ n = zlen c | Err _ => True end).
Proof.
  intros HC. apply triple_whole; [apply _|done| |done]. intros fs Hfs. cbn. destruct (fs !! p) eqn:E; cbn; eauto 6.
Qed.

Lemma triple_remove (P C : Files -> Prop) p :
  (forall fs, P fs -> C fs) -> (forall fs, P fs -> C (delete p fs)) ->
  triple P (remove_file p) C (fun r fs =>
    match r with
    | Ok _ => exists fs0, P fs0 /\ is_Some (fs0 !! p) /\ fs = delete p fs0
    | Err NotFound => P fs /\ fs !! p = None
    | Err _ => P fs
    end).
Proof.
  intros HC HD. apply triple_whole; [apply _|done| |done]. intros fs Hfs. cbn.
  destruct (fs !! p) eqn:E; cbn; [|auto]. split; [auto|]. exists fs. eauto.
Qed.

Lemma triple_rename (P C : Files -> Prop) from to :
  (forall fs, P fs -> C fs) ->
  (forall fs c, P fs -> fs !! from = Some c -> C (<[to := c]> (delete from fs))) ->
  triple P (rename from to) C (fun r fs =>
    match r with
    | Ok _ => exists fs0 c, P fs0 /\ fs0 !! from = Some c /\ fs = <[to := c]> (delete from fs0)
    | Err NotFound => P fs /\ fs !! from = None
    | Err _ => P fs
    end).
Proof.
  intros HC HD. apply triple_whole; [apply _|done| |done]. intros fs Hfs. cbn.
  destruct (fs !! from) as [c|] eqn:E; cbn; [|auto]. split; [by apply HD|]. exists fs, c. eauto.
Qed.

Lemma triple_set_len (P C : Files -> Prop) p n :
  (forall fs, P fs -> C fs) ->
  (forall fs c, P fs -> fs !! p = Some c -> C (<[p := take (Z.to_nat n) c]> fs)) ->
  triple P (set_len p n) C (fun r fs =>
    match r with
    | Ok _ => exists fs0 c, P fs0 /\ fs0 !! p = Some c /\ fs = <[p := take (Z.to_nat n) c]> fs0
    | Err _ => P fs
    end).
Proof.
  intros HC HD. apply triple_whole; [apply _|done| |done]. intros fs Hfs. cbn.
  destruct (fs !! p) as [c|] eqn:E; cbn; [|auto]. split; [by apply HD|]. exists fs, c. eauto.
Qed.

Lemma triple_write (P C : Files -> Prop) p c :
  (forall fs, P fs -> C fs) -> (forall n fs, P fs -> C (<[p := take n c]> fs)) ->
  triple P (write_file p c) C (fun r fs =>
    match r with
    | Ok _ => exists fs0, P fs0 /\ fs = <[p := c]> fs0
    | Err _ => C fs
    end).
Proof.
  intros HC HD. apply triple_call; [done|cbn; auto| |cbn; auto|cbn; auto].
  intros fs Hfs. split; [|by exists fs]. cbn. rewrite <-(firstn_all c) at 1. by apply HD.
Qed.

(** [try] of a call with a result that keeps [P]. *)
Lemma triple_try_write (P C : Files -> Prop) p c :
  (forall fs, P fs -> C fs) -> (forall n fs, P fs -> C (<[p := take n c]> fs)) ->
  triple P (try (write_file p c)) C (fun _ fs => exists fs0, P fs0 /\ fs = <[p := c]> fs0).
Proof. intros HC HD. apply triple_try. by apply triple_write. Qed.

(** ** Results whatever the faults *)

(** If [m] returns, it returns [a]. *)
Definition yields {A : Type} (m : io A) (a : A) : Prop :=
  forall w, match (m w).2 with Ret x => x = a | _ => True end.

(** If [m] returns, what it returns depends neither on the files nor on the faults. *)
Definition constant {A : Type} (m : io A) : Prop :=
  forall w1 w2, match (m w1).2, (m w2).2 with Ret a1, Ret a2 => a1 = a2 | _, _ => True end.

Lemma yields_runs {A : Type} (m : io A) fs fs' a : constant m -> runs m fs fs' (Ret a) -> yields m a.
Proof. intros Hc Hr w. specialize (Hc w (mkWorld fs [])). by rewrite Hr in Hc. Qed.

Lemma constant_ret {A : Type} (a : A) : constant (mret a).
Proof. by intros w1 w2. Qed.

Lemma constant_throw {A : Type} e : constant (@throw A e).
Proof. by intros w1 w2. Qed.

Lemma constant_unit (m : io unit) : constant m.
Proof. intros w1 w2. by destruct (m w1) as [? [[]| |]], (m w2) as [? [[]| |]]. Qed.

Lemma constant_bind {A B : Type} (m : io A) (k : A -> io B) :
  constant m -> (forall a, constant (k a)) -> constant (m ≫= k).
Proof.
  intros Hm Hk w1 w2. specialize (Hm w1 w2). unfold mbind, io_bind. cbn [exec].
  destruct (m w1) as [v1 [a1| |]]; [|done|done].
  destruct (m w2) as [v2 [a2| |]]; cbn in *; [subst a2; apply Hk|by destruct (k a1 v1).2..].
Qed.

Lemma triple_yields {A : Type} (P C : Files -> Prop) (Q : A -> Files -> Prop) (m : io A) a :
  yields m a -> triple P m C Q -> triple P m C (fun x fs => x = a /\ Q x fs).
Proof.
  intros Hy Hm w Hw. destruct (Hm w Hw) as [HC HQ]. split; [done|]. specialize (Hy w).
  by destruct (m w).2.
Qed.
