(* ===== verification/Calls.v ===== *)
(** * Calls: the order of the calls of a computation

    A computation is a tree of calls (file Disk), so what it does to the file system in
    which order is part of it. [trace m w] lists the calls a run makes, each with its
    reply. A [Monitor] is an automaton over traces: it says which call is allowed in
    which state and how a call with its reply moves it. [wp] reduces the acceptance of
    every trace of a computation, for every reply of every call, to conditions on its
    parts. *)

From Stdlib Require Import ZArith Lia.
From S2P Require Import Prelude Text Record Disk.

(** A call and its reply; no reply when the process stopped in it. *)
Inductive event : Type :=
| Event {R : Type} (c : call R) (reply : option R).

Definition reply_of {R : Type} (o : outcome R) : option R :=
  match o with Ret r => Some r | _ => None end.

(** The calls of a run, in order. *)
Fixpoint trace {A : Type} (m : io A) : World -> list event :=
  match m with
  | Done _ | Raise _ => fun _ => []
  | Call c => fun w => [Event c (reply_of (perform c w).2)]
  | Bind m k => fun w =>
      trace m w ++ match exec m w with (w', Ret a) => trace (k a) w' | _ => [] end
  | Catch m => trace m
  end.

Class Monitor (M : Type) := {
  allowed : forall {R : Type}, M -> call R -> bool;
  after : forall {R : Type}, M -> call R -> option R -> M
}.

(** ** Bytes that are not synced *)

Definition answered_ok {R : Type} (o : option (result IoError R)) : bool :=
  match o with Some (Ok _) => true | _ => false end.

(** The files with bytes that are not synced, after a call and its reply. *)
Definition dirty_after {R : Type} (u : gset path) (c : call R) : option R -> gset path :=
  match c in call R return option R -> gset path with
  | WriteFile p _ | AppendFile p _ | CreateNew p _ | OpenTruncate p | SetLen p _ => fun _ => {[p]} ∪ u
  | WriteCount p _ => fun _ => {[p]} ∪ u
  | SyncFile p => fun o => if answered_ok o then u ∖ {[p]} else u
  | SyncLen p => fun o => if answered_ok o then u ∖ {[p]} else u
  | Rename from to => fun o =>
      if answered_ok o then if decide (from ∈ u) then {[to]} ∪ u ∖ {[from]} else u ∖ {[to]} else u
  | RemoveFile p => fun o => if answered_ok o then u ∖ {[p]} else u
  | ReadFile _ => fun _ => u
  | FileLen _ => fun _ => u
  | OpenFile _ | TryClone _ | FlushFile _ | FsyncDir _ | CreateDirAll _ | RemoveDirAll _ | ReadTick => fun _ => u
  | ReadDir _ | ReadSubdirs _ => fun _ => u
  end.

Fixpoint dirty (u : gset path) (l : list event) : gset path :=
  match l with
  | [] => u
  | Event c o :: l' => dirty (dirty_after u c o) l'
  end.

(** After a power cut, [d] may be on the disk instead of [fs]: unsynced bytes are lost or
    garbled. *)
Definition power_cut (u : gset path) (fs d : Files) : Prop := forall p, p ∉ u -> d !! p = fs !! p.

Lemma trace_try_call {R : Type} (c : call (result IoError R)) w :
  trace (try (Call c)) w = [Event c (reply_of (perform c w).2)].
Proof. unfold try, mbind, io_bind. cbn [trace exec]. by destruct (perform c w) as [w' [[a|e]|e|]]. Qed.

Lemma dirty_app u l1 l2 : dirty u (l1 ++ l2) = dirty (dirty u l1) l2.
Proof. revert u. induction l1 as [|[R c o] l1 IH]; intros u; cbn; auto. Qed.

(** Unsynced bytes of a call followed by the rest, if it succeeds. *)
Lemma dirty_try_call {R B : Type} u (c : call (result IoError R)) (k : R -> io B) w p :
  p ∈ dirty u (trace (try (Call c) ≫= k) w) ->
  (exists o, answered_ok o = false /\ p ∈ dirty_after u c o) \/
  exists a w', p ∈ dirty (dirty_after u c (Some (Ok a))) (trace (k a) w').
Proof.
  unfold mbind, io_bind. cbn [trace]. rewrite trace_try_call, dirty_app. cbn [dirty].
  unfold try, mbind, io_bind. cbn [exec]. destruct (perform c w) as [w' [[a|e]|e|]]; cbn; intros Hp;
    [right; eauto|left; eexists; split; [|exact Hp]; done..].
Qed.

Section monitor.
Context {M : Type} `{Monitor M}.

(** The state after some calls. *)
Fixpoint replay (s : M) (l : list event) : M :=
  match l with
  | [] => s
  | Event c o :: l' => replay (after s c o) l'
  end.

(** Every call was allowed when it was made. *)
Fixpoint accepts (s : M) (l : list event) : bool :=
  match l with
  | [] => true
  | Event c o :: l' => allowed s c && accepts (after s c o) l'
  end.

Lemma replay_app s l1 l2 : replay s (l1 ++ l2) = replay (replay s l1) l2.
Proof. revert s. induction l1 as [|[R c o] l1 IH]; intros s; cbn; auto. Qed.

Lemma accepts_app s l1 l2 : accepts s (l1 ++ l2) = accepts s l1 && accepts (replay s l1) l2.
Proof.
  revert s. induction l1 as [|[R c o] l1 IH]; intros s; cbn; [done|]. by rewrite IH, andb_assoc.
Qed.

(** What [accepts] says of each call. *)
Lemma accepts_spec s l : accepts s l = true <->
  forall l1 (R : Type) (c : call R) r l2, l = l1 ++ Event c r :: l2 -> allowed (replay s l1) c = true.
Proof.
  split.
  - intros Ha l1 R c r l2 ->. rewrite accepts_app in Ha. apply andb_true_iff in Ha as [_ Ha].
    cbn in Ha. by apply andb_true_iff in Ha as [? _].
  - revert s. induction l as [|[R c r] l IH]; intros s Hl; [done|].
    assert (forall s', replay s [Event c r] = s' -> accepts s' l = true) as Hrest.
    { intros s' <-. apply IH. intros l1 R' c' r' l2 ->.
      rewrite <-replay_app. by apply (Hl (Event c r :: l1) _ c' r' l2). }
    pose proof (Hl [] _ c r l eq_refl) as Hc. cbn in Hc, Hrest.
    cbn. apply andb_true_iff. auto.
Qed.

(** ** Weakest preconditions

    [wp m Q X s]: from state [s] every call of [m] is allowed, whatever the replies; a
    value [a] comes with a state in [Q a], an error with one in [X]. *)

Fixpoint wp {A : Type} (m : io A) : (A -> M -> Prop) -> (M -> Prop) -> M -> Prop :=
  match m in io A return (A -> M -> Prop) -> (M -> Prop) -> M -> Prop with
  | Done a => fun Q _ s => Q a s
  | Raise _ => fun _ X s => X s
  | Call c => fun Q _ s => allowed s c = true /\ forall r, Q r (after s c (Some r))
  | Bind m k => fun Q X => wp m (fun a => wp (k a) Q X) X
  | Catch m => fun Q _ => wp m (fun a => Q (Ok a)) (fun s => forall e, Q (Err e) s)
  end.

Lemma wp_mono {A : Type} (m : io A) (Q Q' : A -> M -> Prop) (X X' : M -> Prop) s :
  wp m Q X s -> (forall a s', Q a s' -> Q' a s') -> (forall s', X s' -> X' s') -> wp m Q' X' s.
Proof.
  revert Q Q' X X' s. induction m as [A a|A e|R c|A B m IH k IHk|A m IH]; intros Q Q' X X' s; cbn.
  - auto.
  - auto.
  - intros [Ha Hr] HQ _. auto.
  - intros Hm HQ HX. eapply IH; [exact Hm| |exact HX]. cbn. intros a s' Hk. by eapply IHk.
  - intros Hm HQ HX. eapply IH; [exact Hm|auto|]. cbn. auto.
Qed.

Lemma wp_bind {A B : Type} (m : io A) (k : A -> io B) Q X s :
  wp (m ≫= k) Q X s = wp m (fun a => wp (k a) Q X) X s.
Proof. done. Qed.

(** The monitor accepts the trace of a run, and where it ends. *)
Lemma wp_sound {A : Type} (m : io A) (Q : A -> M -> Prop) (X : M -> Prop) s w : wp m Q X s ->
  accepts s (trace m w) = true /\
  match (exec m w).2 with
  | Ret a => Q a (replay s (trace m w))
  | Throw _ => X (replay s (trace m w))
  | Halted => True
  end.
Proof.
  revert Q X s w. induction m as [A a|A e|R c|A B m IH k IHk|A m IH]; intros Q X s w; cbn; [done|done| | |].
  - intros [-> Hr]. cbn. destruct (perform c w) as [w' [r|e|]] eqn:E; cbn; [split; [done|apply Hr]| |done].
    exfalso. unfold perform in E. destruct (script w) as [|[| | | |] ?]; try done; by destruct (effect _ _).
  - intros Hm. destruct (IH _ _ _ w Hm) as [Ha Hq]. rewrite accepts_app, replay_app, Ha.
    destruct (exec m w) as [w' [a|e|]]; cbn in Hq |- *; [by apply (IHk a)|by split|by split].
  - intros Hm. destruct (IH _ _ _ w Hm) as [Ha Hq]. split; [done|]. destruct (exec m w) as [w1 [a|e|]]; cbn in *; auto.
Qed.

(** ** Triples

    [spec P m Q]: from a state in [P] the calls are allowed and a value comes with a
    state in [Q]; nothing is promised after an error. *)

Definition spec {A : Type} (P : M -> Prop) (m : io A) (Q : A -> M -> Prop) : Prop :=
  forall s, P s -> wp m Q (fun _ => True) s.

Lemma spec_ret {A : Type} (P : M -> Prop) (a : A) (Q : A -> M -> Prop) :
  (forall s, P s -> Q a s) -> spec P (mret a) Q.
Proof. intros HQ s Hs. cbn. auto. Qed.

Lemma spec_throw {A : Type} P e (Q : A -> M -> Prop) : spec P (throw e) Q.
Proof. by intros s Hs. Qed.

Lemma spec_call {R : Type} P (c : call R) Q :
  (forall s, P s -> allowed s c = true) -> (forall s r, P s -> Q r (after s c (Some r))) -> spec P (Call c) Q.
Proof. intros Ha HQ s Hs. cbn. auto. Qed.

Lemma spec_bind {A B : Type} P (m : io A) (k : A -> io B) Q R :
  spec P m Q -> (forall a, spec (Q a) (k a) R) -> spec P (m ≫= k) R.
Proof. intros Hm Hk s Hs. rewrite wp_bind. eapply wp_mono; [by apply Hm| |done]. intros a s' Hq. by apply Hk. Qed.

Lemma spec_conseq {A : Type} (P P' : M -> Prop) (m : io A) (Q Q' : A -> M -> Prop) :
  spec P' m Q' -> (forall s, P s -> P' s) -> (forall a s, Q' a s -> Q a s) -> spec P m Q.
Proof. intros Hm HP HQ s Hs. eapply wp_mono; [by apply Hm, HP|auto|done]. Qed.

Lemma spec_post {A : Type} (P : M -> Prop) (m : io A) (Q Q' : A -> M -> Prop) :
  spec P m Q' -> (forall a s, Q' a s -> Q a s) -> spec P m Q.
Proof. intros Hm HQ. by eapply spec_conseq. Qed.

Lemma spec_pure {A : Type} (P : M -> Prop) (F : Prop) (m : io A) Q :
  (forall s, P s -> F) -> (F -> spec P m Q) -> spec P m Q.
Proof. intros HF Hm s Hs. by apply Hm; [eapply HF|]. Qed.

Lemma spec_given {A : Type} (F : Prop) (P : M -> Prop) (m : io A) Q :
  (F -> spec P m Q) -> spec (fun s => F /\ P s) m Q.
Proof. intros Hm s [HF Hs]. by apply Hm. Qed.

(** The error of an attempt comes in any state. *)
Lemma spec_attempt {A : Type} P (m : io A) (Q : result Error A -> M -> Prop) :
  spec P m (fun a => Q (Ok a)) -> (forall e s, Q (Err e) s) -> spec P (attempt m) Q.
Proof. intros Hm HQ s Hs. change (wp m (fun a => Q (Ok a)) (fun s => forall e, Q (Err e) s) s).
  eapply wp_mono; [by apply Hm|auto|]. auto. Qed.

Lemma spec_try {A : Type} P (m : io (result IoError A)) Q :
  spec P m (fun r s => match r with Ok a => Q a s | Err _ => True end) -> spec P (try m) Q.
Proof.
  intros Hm. eapply spec_bind; [exact Hm|]. intros [a|e]; [by apply spec_ret|apply spec_throw].
Qed.

Lemma spec_try_any {A : Type} P (m : io (result IoError A)) (Q : M -> Prop) :
  spec P m (fun _ => Q) -> spec P (try m) (fun _ => Q).
Proof. intros Hm. apply spec_try. eapply spec_post; [exact Hm|]. by intros [a|e]. Qed.

Lemma spec_lift {A : Type} P (r : result Error A) : spec P (lift r) (fun _ => P).
Proof. destruct r as [a|e]; [by apply spec_ret|apply spec_throw]. Qed.

Lemma spec_each {A : Type} (I : M -> Prop) (f : A -> io unit) l :
  (forall x, x ∈ l -> spec I (f x) (fun _ => I)) -> spec I (io_each f l) (fun _ => I).
Proof.
  induction l as [|x l IH]; intros Hf; cbn [io_each]; [by apply spec_ret|].
  eapply spec_bind; [apply Hf; set_solver|]. intros []. apply IH. intros y Hy. apply Hf. set_solver.
Qed.
End monitor.

Create HintDb spec.
