(* ===== verification/Wal.v ===== *)
(** * Wal: the layout of the log directory ([wal/mod.rs])

    Segment names and their parser, the listing of the segments on disk, the
    quarantine of an unreadable segment. *)

From Stdlib Require Import ZArith Lia.
From Stdlib Require Import Strings.Byte.
From S2P Require Import Prelude Text Record Codec Disk.
Open Scope Z_scope.

Definition WAL_DIR : bytes := lit "wal".
Definition SEGMENT_EXT : bytes := lit "wal".
Definition SEGMENT_ID_DIGITS : nat := 10.
Definition FIRST_SEGMENT : Z := 1.
Definition CORRUPT_EXT : bytes := lit "wal.corrupt".

Definition wal_dir : path := [WAL_DIR].

Definition segment_name (id : Z) : bytes :=
  show_pad SEGMENT_ID_DIGITS id ++ lit "." ++ SEGMENT_EXT.

Definition segment_path (id : Z) : path := wal_dir ++ [segment_name id].

Definition parse_segment_name (name : bytes) : option Z :=
  match strip_suffix (lit "." ++ SEGMENT_EXT) name with
  | None => None
  | Some digits =>
      if negb (all_digits digits) || (zlen digits =? 0) then None
      else if negb (length digits =? SEGMENT_ID_DIGITS)%nat
              && bool_decide (head digits = Some x30) then None
      else if (length digits <? SEGMENT_ID_DIGITS)%nat then None
      else parse_uint u64_lim digits
  end.

(** [Path::with_extension] on a file name: replace what follows the last dot of a
    name that has one after its first byte, otherwise append. *)
Definition with_extension (name ext : bytes) : bytes :=
  match rsplit_once (lit ".") name with
  | Some ((_ :: _) as stem, _) => stem ++ lit "." ++ ext
  | _ => name ++ lit "." ++ ext
  end.

Definition corrupt_path (id : Z) : path :=
  wal_dir ++ [with_extension (segment_name id) CORRUPT_EXT].

Definition quarantine_segment (id : Z) : io (result IoError path) :=
  let to := corrupt_path id in
  r ← rename (segment_path id) to;
  match r with
  | Err e => mret (Err e)
  | Ok _ =>
      r ← fsync_dir wal_dir;
      match r with
      | Err e => mret (Err e)
      | Ok _ => mret (Ok to)
      end
  end.

(** [file_name().to_str().and_then(parse_segment_name)]: a name that is not UTF-8
    has no [str]. *)
Definition entry_id (name : bytes) : option Z :=
  if utf8_valid name then parse_segment_name name else None.

Definition list_segments : io (list Z) :=
  r ← read_dir wal_dir;
  match r with
  | Ok entries => mret (sort_by_key id (omap entry_id entries))
  | Err NotFound => mret []
  | Err e => throw (Io e)
  end.

(** The loop of [total_bytes]. *)
Fixpoint sum_lengths (total : Z) (ids : list Z) : io Z :=
  match ids with
  | [] => mret total
  | id :: ids' =>
      r ← file_len (segment_path id);
      match r with
      | Ok n => sum_lengths (total + n) ids'
      | Err NotFound => sum_lengths total ids'
      | Err e => throw (Io e)
      end
  end.

Definition total_bytes : io Z := ids ← list_segments; sum_lengths 0 ids.

(** Paths are not unfolded by simplification. *)
Arguments segment_name : simpl never.
Arguments segment_path : simpl never.
Arguments corrupt_path : simpl never.

(** ** Lemmas: names *)

Lemma segment_name_inj a b : 0 <= a -> 0 <= b -> segment_name a = segment_name b -> a = b.
Proof.
  intros Ha Hb E. apply app_inv_tail in E. by eapply show_pad_inj.
Qed.

Lemma segment_path_inj a b : 0 <= a -> 0 <= b -> segment_path a = segment_path b -> a = b.
Proof. intros Ha Hb E. apply app_one_inj in E. by apply segment_name_inj. Qed.

Lemma parse_segment_name_Some name id :
  parse_segment_name name = Some id -> 0 <= id < u64_lim /\ name = segment_name id.
Proof.
  unfold parse_segment_name. intros E.
  destruct (strip_suffix _ name) as [digits|] eqn:Es; [|done].
  apply strip_suffix_Some in Es as ->.
  do 3 split_in E. bool_to_prop.
  pose proof (digits_val_range digits H) as Hr.
  apply parse_uint_digits in E as [-> Hu]; [|done]. split; [lia|].
  unfold segment_name. f_equal. symmetry. apply Nat.ltb_ge in Heqb1.
  apply show_pad_unique; [done|unfold SEGMENT_ID_DIGITS; lia|done|].
  apply andb_false_iff in Heqb0 as [Hl|Hh].
  - left. apply negb_false_iff, Nat.eqb_eq in Hl. done.
  - right. by apply bool_decide_eq_false in Hh.
Qed.

Lemma parse_segment_name_of id :
  0 <= id < u64_lim -> parse_segment_name (segment_name id) = Some id.
Proof.
  intros Hid. unfold parse_segment_name, segment_name. rewrite strip_suffix_app.
  rewrite show_pad_digits by lia.
  pose proof (length_show_pad SEGMENT_ID_DIGITS id) as Hl.
  assert (SEGMENT_ID_DIGITS <= length (show_pad SEGMENT_ID_DIGITS id))%nat as Hge by lia.
  destruct (Z.eqb_spec (zlen (show_pad SEGMENT_ID_DIGITS id)) 0) as [Hz|_].
  { unfold zlen, SEGMENT_ID_DIGITS in *. lia. }
  cbn [negb orb]. destruct (Nat.eqb_spec (length (show_pad SEGMENT_ID_DIGITS id)) SEGMENT_ID_DIGITS).
  - cbn [negb andb]. destruct (Nat.ltb_spec (length (show_pad SEGMENT_ID_DIGITS id)) SEGMENT_ID_DIGITS);
      [lia|]. by apply parse_uint_show_pad.
  - cbn [negb andb]. rewrite bool_decide_eq_false_2.
    2:{ apply show_pad_head; [lia|]. unfold SEGMENT_ID_DIGITS in *. lia. }
    destruct (Nat.ltb_spec (length (show_pad SEGMENT_ID_DIGITS id)) SEGMENT_ID_DIGITS); [lia|].
    by apply parse_uint_show_pad.
Qed.

Lemma utf8_segment_name id : 0 <= id -> utf8_valid (segment_name id) = true.
Proof.
  intros Hid. apply utf8_ascii. intros b Hb. unfold segment_name in Hb.
  apply elem_of_app in Hb as [Hb|Hb].
  - pose proof (show_pad_digits SEGMENT_ID_DIGITS id Hid) as Hd. rewrite all_digits_spec in Hd.
    by apply digit_ascii, Hd.
  - assert (Forall (fun b => byte_val b < 128) (lit "." ++ SEGMENT_EXT)) as Hf
      by (by repeat constructor).
    rewrite Forall_forall in Hf. by apply Hf.
Qed.

Lemma entry_id_Some name id :
  entry_id name = Some id <-> 0 <= id < u64_lim /\ name = segment_name id.
Proof.
  unfold entry_id. split.
  - destruct (utf8_valid name); [|done]. apply parse_segment_name_Some.
  - intros [Hid ->]. rewrite utf8_segment_name by lia. by apply parse_segment_name_of.
Qed.

(** The quarantine name is the segment name with [.corrupt] appended. *)
Lemma rsplit_once_none c s : c ∉ s -> rsplit_once [c] s = None.
Proof.
  induction s as [|x s IH]; intros Hc; [done|]. apply not_elem_of_cons in Hc as [Hx Hc].
  cbn. rewrite IH by done. by rewrite decide_False by congruence.
Qed.

Lemma rsplit_once_app c a b : c ∉ b -> rsplit_once [c] (a ++ c :: b) = Some (a, b).
Proof.
  intros Hb. induction a as [|x a IH]; cbn [app rsplit_once].
  - rewrite rsplit_once_none by done. rewrite decide_True by done. done.
  - by rewrite IH.
Qed.

Lemma corrupt_path_name id :
  0 <= id -> corrupt_path id = wal_dir ++ [segment_name id ++ lit ".corrupt"].
Proof.
  intros Hid. unfold corrupt_path, with_extension. do 2 f_equal.
  change (lit ".") with [x2e].
  assert (segment_name id = show_pad SEGMENT_ID_DIGITS id ++ x2e :: SEGMENT_EXT) as -> by done.
  rewrite (rsplit_once_app x2e) by (apply (bool_decide_unpack _); vm_compute; done).
  destruct (show_pad SEGMENT_ID_DIGITS id) as [|x l] eqn:E.
  - pose proof (length_show_pad SEGMENT_ID_DIGITS id) as Hl. rewrite E in Hl.
    unfold SEGMENT_ID_DIGITS in Hl. cbn in Hl. lia.
  - by rewrite <-app_assoc.
Qed.

Lemma entry_id_corrupt id : 0 <= id -> entry_id (segment_name id ++ lit ".corrupt") = None.
Proof.
  intros Hid. unfold entry_id. destruct (utf8_valid _); [|done].
  unfold parse_segment_name. destruct (strip_suffix _ _) as [d|] eqn:E; [|done].
  apply strip_suffix_Some in E. exfalso.
  apply (f_equal (fun l => last l)) in E. rewrite !last_app in E. done.
Qed.

(** ** Lemmas: the listing *)

(** The ids of the segments in [fs], ascending. *)
Definition segments_of (fs : Files) : list Z :=
  sort_by_key id (omap entry_id (names_of fs wal_dir)).

Lemma elem_of_segments fs id :
  id ∈ segments_of fs <-> 0 <= id < u64_lim /\ is_Some (fs !! segment_path id).
Proof.
  unfold segments_of. rewrite elem_of_sort, list_elem_of_omap. split.
  - intros (name & Hn & He). apply entry_id_Some in He as [Hid ->].
    split; [done|]. by apply elem_of_names in Hn.
  - intros [Hid Hs]. exists (segment_name id). split; [by apply elem_of_names|].
    by apply entry_id_Some.
Qed.

Lemma segments_sorted fs : StronglySorted Z.lt (segments_of fs).
Proof.
  assert (NoDup (segments_of fs)) as Hn.
  { unfold segments_of. rewrite (sort_perm id). apply omap_NoDup; [|apply NoDup_names].
    intros x y b. rewrite !entry_id_Some. by intros [_ ->] [_ ->]. }
  pose proof (sort_sorted id (omap entry_id (names_of fs wal_dir))) as Hs.
  fold (segments_of fs) in Hs. revert Hn.
  induction Hs as [|x l Hs IH Hx]; intros Hn; constructor.
  - apply IH. by apply NoDup_cons in Hn as [_ ?].
  - apply NoDup_cons in Hn as [Hxl _]. rewrite Forall_forall in Hx |- *. intros y Hy.
    specialize (Hx y Hy). unfold key_le, cle, cmp, cmp_Z in Hx.
    rewrite Z.compare_gt_iff in Hx. assert (x <> y) by (by intros ->). cbn in Hx. lia.
Qed.

Lemma runs_list_segments fs : runs list_segments fs fs (Ret (segments_of fs)).
Proof. done. Qed.

Lemma triple_list_segments (P C : Files -> Prop) :
  (forall fs, P fs -> C fs) ->
  triple P list_segments C (fun ids fs => P fs /\ ids = segments_of fs).
Proof.
  intros HC. unfold list_segments. eapply triple_bind.
  - apply (triple_whole P C (fun r fs => P fs /\
      match r with Ok names => names = names_of fs wal_dir | Err e => e <> NotFound end) (ReadDir wal_dir)).
    + done.
    + cbn. auto.
    + done.
  - intros [entries|e].
    + apply triple_ret; [intros fs [? _]; auto|]. by intros fs [? ->].
    + apply (triple_pure _ _ _ _ (e <> NotFound)); [by intros fs [_ ?]|]. intros He.
      destruct e; [done|apply triple_throw; intros fs [? _]; auto..].
Qed.

Lemma sum_lengths_spec fs ids total :
  (forall id, id ∈ ids -> is_Some (fs !! segment_path id)) ->
  runs (sum_lengths total ids) fs fs
    (Ret (total + foldr Z.add 0 ((fun id => zlen (default [] (fs !! segment_path id))) <$> ids))).
Proof.
  revert total. induction ids as [|id ids IH]; intros total Hs; cbn [sum_lengths fmap list_fmap foldr].
  - rewrite Z.add_0_r. apply runs_ret.
  - destruct (Hs id ltac:(set_solver)) as [c Hc]. eapply runs_bind.
    + by apply runs_file_len.
    + cbv beta iota. rewrite Hc. cbn [default]. rewrite Z.add_assoc. apply IH. set_solver.
Qed.

(** ** Theorems *)

(** [parse_segment_name] is the exact inverse of [segment_name] on [u64] ids: it
    accepts a name iff it is the one spelling of the id it returns, so two files
    never claim one id. *)
Theorem segment_name_roundtrip name id :
  parse_segment_name name = Some id <-> 0 <= id < u64_lim /\ name = segment_name id.
Proof.
  split; [apply parse_segment_name_Some|]. intros [Hid ->]. by apply parse_segment_name_of.
Qed.

Lemma segment_name_roundtrip_witness :
  parse_segment_name (lit "0000000042.wal") = Some 42.
Proof. apply (segment_name_roundtrip (lit "0000000042.wal") 42). by vm_compute. Defined.

(** [list_segments] returns the ids of exactly the segment files in [wal/],
    strictly ascending, without touching the disk, and [total_bytes] is the sum of
    their sizes; quarantined files and foreign names never appear. *)
Theorem list_segments_exact fs :
  runs list_segments fs fs (Ret (segments_of fs)) /\
  StronglySorted Z.lt (segments_of fs) /\
  (forall id, id ∈ segments_of fs <->
     0 <= id < u64_lim /\ is_Some (fs !! segment_path id)) /\
  (forall id, 0 <= id -> entry_id (segment_name id ++ lit ".corrupt") = None) /\
  runs total_bytes fs fs (Ret (foldr Z.add 0
    ((fun id => zlen (default [] (fs !! segment_path id))) <$> segments_of fs))).
Proof.
  split_and!.
  - apply runs_list_segments.
  - apply segments_sorted.
  - intros id. apply elem_of_segments.
  - apply entry_id_corrupt.
  - eapply runs_bind; [apply runs_list_segments|]. apply (sum_lengths_spec fs _ 0).
    intros id Hid. by apply elem_of_segments in Hid as [_ ?].
Qed.

Lemma list_segments_witness :
  let fs : Files := <[segment_path 7 := [x00; x00]]> (<[corrupt_path 3 := []]>
                      {[segment_path 12 := [x01]]}) in
  runs total_bytes fs fs (Ret 3) /\ runs list_segments fs fs (Ret [7; 12]).
Proof.
  intros fs. split.
  - apply (list_segments_exact fs).
  - apply (list_segments_exact fs).
Defined.
