(* ===== verification/Reader.v ===== *)
(** * Reader: the frames of a segment ([wal/reader.rs])

    [frames_of] is the abstract content of a segment body: the list of frames whose
    checksum and prefix are good, and the bytes from the first position where that
    fails. The forward cursor of the source is shown to report exactly that list,
    one item per frame in order, and then stop. *)

From Stdlib Require Import ZArith Lia.
From Stdlib Require Import Strings.Byte.
From S2P Require Import Prelude Text Record Codec CodecProofs CodecTheorems.
Open Scope Z_scope.

(** [struct Frame] with the scratch vectors the reader hands out beside it. *)
Record Frame := mkFrame {
  frame_record : RecordRef;
  frame_offset : Z;
  frame_len : Z
}.

(** [enum FrameFault]. *)
Inductive FrameFault : Type :=
| BadRecord (offset len : Z) (err : DecodeError)
| UnknownSchema (offset len : Z) (series : bytes) (epoch : Z)
| Undecodable (offset : Z) (err : DecodeError).

Definition fault_offset (f : FrameFault) : Z :=
  match f with
  | BadRecord offset _ _ | UnknownSchema offset _ _ _ | Undecodable offset _ => offset
  end.

Definition is_terminal (f : FrameFault) : bool :=
  match f with Undecodable _ _ => true | _ => false end.

(** [struct SegmentReader]; the lookup [L] is a parameter of [next_frame]. *)
Record SegmentReader := mkReader {
  sr_id : Z;
  sr_buf : bytes;
  sr_at : Z;
  sr_max : Z;
  sr_stopped : bool;
  sr_keys : list Value;
  sr_extra : list (bytes * bytes)
}.

Definition reader_new (buf : bytes) (max_record_bytes : Z) : DecodeResult SegmentReader :=
  id ← parse_segment_header buf;
  Ok (mkReader id buf SEGMENT_HEADER_BYTES max_record_bytes false [] []).

Abbreviation FrameResult := (result FrameFault Frame).

Section reader.
Context `{Crc32} (key_count : bytes -> Z -> option nat).

(** The scratch vectors are cleared by [decode]; after an error the source leaves
    them unspecified, here empty. *)
Definition next_frame (r : SegmentReader) : SegmentReader * option FrameResult :=
  let '(mkReader id buf at_ max stopped keys extra) := r in
  if stopped || (zlen buf <=? at_) then (r, None)
  else
    let rest := drop (Z.to_nat at_) buf in
    match validate_prefix rest max with
    | Err err =>
        (mkReader id buf at_ max true keys extra, Some (Err (Undecodable at_ err)))
    | Ok prefix =>
        match key_count (pre_series prefix) (pre_epoch prefix) with
        | None =>
            (mkReader id buf (at_ + pre_frame_len prefix) max stopped keys extra,
             Some (Err (UnknownSchema at_ (pre_frame_len prefix)
                          (pre_series prefix) (pre_epoch prefix))))
        | Some n =>
            match decode rest n max with
            | Ok d =>
                (mkReader id buf (at_ + dec_len d) max stopped (dec_keys d) (dec_extra d),
                 Some (Ok (mkFrame (dec_record d) at_ (dec_len d))))
            | Err err =>
                (mkReader id buf (at_ + pre_frame_len prefix) max stopped [] [],
                 Some (Err (BadRecord at_ (pre_frame_len prefix) err)))
            end
        end
    end.

(** [while let Some(item) = reader.next_frame()]: the items with the scratch as the
    loop body sees it, and the reader at the end; [None] when the fuel runs out. *)
Fixpoint read_all (fuel : nat) (r : SegmentReader)
    : option (list (FrameResult * list Value * list (bytes * bytes)) * SegmentReader) :=
  match fuel with
  | O => None
  | S fuel' =>
      match next_frame r with
      | (r', None) => Some ([], r')
      | (r', Some item) =>
          match read_all fuel' r' with
          | Some (items, r'') => Some ((item, sr_keys r', sr_extra r') :: items, r'')
          | None => None
          end
      end
  end.
End reader.

(** ** The abstract content of a segment *)

Section frames.
Context `{Crc32}.

(** Split a body into its good frames and the rest. *)
Fixpoint split_frames (fuel : nat) (max : Z) (body : bytes) : list bytes * bytes :=
  match fuel with
  | O => ([], body)
  | S fuel' =>
      match validate_prefix body max with
      | Ok p =>
          let n := Z.to_nat (pre_frame_len p) in
          let '(fs, rest) := split_frames fuel' max (drop n body) in
          (take n body :: fs, rest)
      | Err _ => ([], body)
      end
  end.

Definition frames_of (max : Z) (body : bytes) : list bytes * bytes :=
  split_frames (length body) max body.

(** A whole frame with good envelope and prefix. *)
Definition valid_frame (max : Z) (f : bytes) : Prop :=
  exists p, validate_prefix f max = Ok p /\ pre_frame_len p = zlen f.

Lemma valid_frame_len max f : valid_frame max f -> 30 <= zlen f.
Proof.
  intros (p & E & Hl). apply validate_prefix_Ok in E as (payload & rest & -> & Hp & Hm & Hu & _).
  rewrite zlen_app, zlen_frame_of. unfold FRAME_HEADER_BYTES, MIN_PAYLOAD_BYTES in *. zlen_lia.
Qed.

Lemma validate_prefix_app max f rest p :
  validate_prefix f max = Ok p -> validate_prefix (f ++ rest) max = Ok p.
Proof. intros E. pose proof (validate_prefix_stable max f) as Hs. unfold stable in Hs.
  rewrite E in Hs. apply Hs. Qed.

(** What [validate_prefix] accepts starts with a valid frame. *)
Lemma validate_prefix_split max buf p :
  validate_prefix buf max = Ok p ->
  exists f rest, buf = f ++ rest /\ valid_frame max f /\ zlen f = pre_frame_len p /\
    validate_prefix f max = Ok p.
Proof.
  intros E. pose proof E as E0.
  apply validate_prefix_Ok in E as (payload & rest & -> & Hp & Hm & Hu & Ep).
  assert (validate_prefix (frame_of payload) max = Ok p) as Ef.
  { rewrite <-(app_nil_r (frame_of payload)). apply validate_prefix_frame_of; [done..|].
    by rewrite <-Hp. }
  exists (frame_of payload), rest. split_and!; [done| |done|done]. by exists p.
Qed.

Lemma take_drop_frame (f rest : bytes) n :
  zlen f = n -> take (Z.to_nat n) (f ++ rest) = f /\ drop (Z.to_nat n) (f ++ rest) = rest.
Proof.
  intros <-. unfold zlen. rewrite Nat2Z.id. by rewrite take_app_length, drop_app_length.
Qed.

(** The rest of a split: nothing, or bytes where no frame starts. *)
Definition stuck (max : Z) (rest : bytes) : Prop :=
  rest = [] \/ exists e, validate_prefix rest max = Err e.

Lemma validate_prefix_nil max : exists e, validate_prefix [] max = Err e.
Proof. eexists. done. Qed.

(** The splitting is the unique one. *)
Lemma split_frames_app fuel max fs rest :
  Forall (valid_frame max) fs -> stuck max rest -> (length (concat fs ++ rest) <= fuel)%nat ->
  split_frames fuel max (concat fs ++ rest) = (fs, rest).
Proof.
  revert fuel. induction fs as [|f fs IH]; intros fuel Hf Hs Hl.
  - cbn. destruct Hs as [->|[e E]]; destruct fuel; cbn; try done.
    by rewrite E.
  - apply Forall_cons in Hf as [Hf Hfs]. pose proof (valid_frame_len _ _ Hf) as Hlen.
    cbn [concat] in *. rewrite <-app_assoc in *. rewrite length_app in Hl.
    destruct fuel as [|fuel]; [unfold zlen in Hlen; lia|]. cbn [split_frames].
    destruct Hf as (p & E & Hp). rewrite (validate_prefix_app _ _ _ _ E).
    destruct (take_drop_frame f (concat fs ++ rest) (pre_frame_len p) (eq_sym Hp)) as [-> ->].
    rewrite IH; [done..|]. unfold zlen in Hlen. lia.
Qed.

Lemma frames_of_app max fs rest :
  Forall (valid_frame max) fs -> stuck max rest ->
  frames_of max (concat fs ++ rest) = (fs, rest).
Proof. intros. by apply split_frames_app. Qed.

(** Every body has such a splitting. *)
Lemma split_frames_spec fuel max body fs rest :
  split_frames fuel max body = (fs, rest) -> (length body <= fuel)%nat ->
  body = concat fs ++ rest /\ Forall (valid_frame max) fs /\ stuck max rest.
Proof.
  revert body fs rest. induction fuel as [|fuel IH]; intros body fs rest E Hl.
  - cbn in E. res_inv. destruct rest; [|cbn in Hl; lia]. split_and!; [done|done|by left].
  - cbn in E. destruct (validate_prefix body max) as [p|e] eqn:Ev.
    + apply validate_prefix_split in Ev as (f & r & -> & Hf & Hp & Ef).
      destruct (take_drop_frame f r (pre_frame_len p) Hp) as [Ht Hd]. rewrite Ht, Hd in E.
      destruct (split_frames fuel max r) as [fs' rest'] eqn:Es. res_inv.
      pose proof (valid_frame_len _ _ Hf). rewrite length_app in Hl. unfold zlen in *.
      apply IH in Es as (-> & Hfs & Hst); [|lia]. cbn. rewrite <-app_assoc. auto.
    + res_inv. split_and!; [done|constructor|right; eauto].
Qed.

Lemma frames_of_spec max body fs rest :
  frames_of max body = (fs, rest) ->
  body = concat fs ++ rest /\ Forall (valid_frame max) fs /\ stuck max rest.
Proof. intros E. by eapply split_frames_spec. Qed.

(** A cap at or above the buffer's length does not reject any frame, so all such caps
    split a body alike. *)
Lemma validate_prefix_cap m m' buf p :
  zlen buf <= m' -> validate_prefix buf m = Ok p -> validate_prefix buf m' = Ok p.
Proof.
  intros Hm E. apply validate_prefix_Ok in E as (payload & rest & -> & Hp & Hl & Hu & E).
  apply validate_prefix_frame_of; [|done|by rewrite <-Hp].
  rewrite zlen_app, zlen_frame_of in Hm. unfold FRAME_HEADER_BYTES in Hm. zlen_lia.
Qed.

Lemma frames_of_cap m m' body :
  zlen body <= m -> zlen body <= m' -> frames_of m body = frames_of m' body.
Proof.
  intros Hm Hm'. unfold frames_of. generalize (length body) as fuel. intros fuel.
  revert body Hm Hm'. induction fuel as [|fuel IH]; intros body Hm Hm'; [done|].
  cbn. destruct (validate_prefix body m) as [p|e] eqn:E.
  - rewrite (validate_prefix_cap m m' _ _ Hm' E), IH; [done|zlen_lia..].
  - destruct (validate_prefix body m') as [p|e'] eqn:E'; [|done].
    apply (validate_prefix_cap m' m) in E'; [congruence|done].
Qed.
End frames.

(** ** The reader reports the content *)

Section reader_proofs.
Context `{Crc32} (key_count : bytes -> Z -> option nat).
Implicit Types r : SegmentReader.

(** The outcome of one frame in isolation, with the values handed out beside a
    record. *)
Definition frame_item (max at_ : Z) (f : bytes)
    : result FrameFault (Frame * list Value * list (bytes * bytes)) :=
  match validate_prefix f max with
  | Err e => Err (Undecodable at_ e)
  | Ok p =>
      match key_count (pre_series p) (pre_epoch p) with
      | None => Err (UnknownSchema at_ (zlen f) (pre_series p) (pre_epoch p))
      | Some n =>
          match decode f n max with
          | Ok d => Ok (mkFrame (dec_record d) at_ (zlen f), dec_keys d, dec_extra d)
          | Err e => Err (BadRecord at_ (zlen f) e)
          end
      end
  end.

(** One item per frame, at consecutive offsets. *)
Fixpoint frame_items (max at_ : Z) (fs : list bytes)
    : list (result FrameFault (Frame * list Value * list (bytes * bytes))) :=
  match fs with
  | [] => []
  | f :: fs' => frame_item max at_ f :: frame_items max (at_ + zlen f) fs'
  end.

(** What follows the last good frame. *)
Definition rest_item (max at_ : Z) (rest : bytes)
    : list (result FrameFault (Frame * list Value * list (bytes * bytes))) :=
  match rest, validate_prefix rest max with
  | _ :: _, Err e => [Err (Undecodable at_ e)]
  | _, _ => []
  end.

(** An item as the loop body sees it: the scratch belongs to a record. *)
Definition observe (item : FrameResult * list Value * list (bytes * bytes))
    : result FrameFault (Frame * list Value * list (bytes * bytes)) :=
  match item with
  | (Ok f, ks, ex) => Ok (f, ks, ex)
  | (Err e, _, _) => Err e
  end.

Lemma decode_app max f rest n :
  valid_frame max f -> decode (f ++ rest) n max = decode f n max.
Proof.
  intros (p & E & Hl). pose proof (decode_stable n max f) as Hs. unfold stable in Hs.
  destruct (decode f n max) as [d|[need got|why]] eqn:Ed; [apply Hs| |apply Hs].
  exfalso. apply validate_prefix_Ok in E as (payload & r & -> & Hp & Hm & Hu & _).
  assert (r = []) as -> by (apply zlen_zero; rewrite zlen_app in Hl; lia).
  rewrite decode_frame_of in Ed by lia. unfold decode_payload, mbind, result_bind in Ed.
  destruct (cur_payload _ _ _) as [[d c]|e] eqn:Ec.
  - by destruct (negb _).
  - apply only_corrupt_payload in Ec. by injection Ed as ->.
Qed.

Lemma decode_valid_len max f n d :
  valid_frame max f -> decode f n max = Ok d -> dec_len d = zlen f.
Proof.
  intros (p & E & Hl) Ed. apply decode_Ok in Ed as (payload & r & -> & Hm & Hu & Ed).
  apply decode_payload_sound in Ed as (_ & _ & _ & -> & _).
  apply validate_prefix_Ok in E as (payload' & r' & Ef & Hp & _ & Hu' & _).
  rewrite Hp in Hl. rewrite Ef in Hl.
  assert (r' = []) as -> by (apply zlen_zero; rewrite zlen_app in Hl; lia).
  assert (zlen payload = zlen payload') as Heq.
  { rewrite app_nil_r in Ef. apply (f_equal (slice 0 4)) in Ef.
    rewrite frame_of_framed, framed_len in Ef.
    rewrite <-(app_nil_r (frame_of payload')), frame_of_framed, framed_len in Ef.
    apply (f_equal le_val) in Ef.
    rewrite !(le_val_bytes_small 4) in Ef by (split; [zlen_lia|done]). done. }
  rewrite Ef, app_nil_r, !zlen_frame_of. lia.
Qed.

(** One call of [next_frame] at a good frame. *)
Lemma next_frame_valid r f rest :
  sr_stopped r = false -> 0 <= sr_at r ->
  drop (Z.to_nat (sr_at r)) (sr_buf r) = f ++ rest -> valid_frame (sr_max r) f ->
  exists r' item,
    next_frame key_count r = (r', Some item) /\
    observe (item, sr_keys r', sr_extra r') = frame_item (sr_max r) (sr_at r) f /\
    sr_buf r' = sr_buf r /\ sr_max r' = sr_max r /\ sr_stopped r' = false /\
    sr_at r' = sr_at r + zlen f.
Proof.
  destruct r as [id buf at_ max stopped keys extra]. cbn. intros -> Ha Hd Hv.
  pose proof (valid_frame_len _ _ Hv) as Hlen.
  assert (at_ < zlen buf) as Hlt.
  { assert (zlen (drop (Z.to_nat at_) buf) = zlen (f ++ rest)) by (by rewrite Hd). zlen_lia. }
  destruct (Z.leb_spec (zlen buf) at_); [lia|]. cbn [orb]. rewrite Hd.
  pose proof Hv as (p & E & Hp). unfold frame_item. rewrite E, (validate_prefix_app _ _ _ _ E).
  rewrite <-Hp. destruct (key_count (pre_series p) (pre_epoch p)) as [n|].
  - rewrite (decode_app _ _ _ _ Hv). destruct (decode f n max) as [d|e] eqn:Ed.
    + rewrite (decode_valid_len _ _ _ _ Hv Ed), Hp. do 2 eexists. split; [done|]. cbn. done.
    + do 2 eexists. split; [done|]. cbn. done.
  - do 2 eexists. split; [done|]. cbn. done.
Qed.

Lemma read_all_frames fuel r fs rest :
  sr_stopped r = false -> 0 <= sr_at r <= zlen (sr_buf r) ->
  drop (Z.to_nat (sr_at r)) (sr_buf r) = concat fs ++ rest ->
  Forall (valid_frame (sr_max r)) fs -> stuck (sr_max r) rest ->
  (length fs + 2 <= fuel)%nat ->
  exists items r',
    read_all key_count fuel r = Some (items, r') /\
    observe <$> items = frame_items (sr_max r) (sr_at r) fs
                        ++ rest_item (sr_max r) (sr_at r + zlen (concat fs)) rest /\
    sr_at r' = sr_at r + zlen (concat fs).
Proof.
  revert fuel r. induction fs as [|f fs IH]; intros fuel r Hst Ha Hd Hf Hstuck Hfuel.
  - destruct fuel as [|[|fuel]]; [cbn in Hfuel; lia..|].
    destruct r as [id buf at_ max stopped keys extra]. cbn [sr_stopped sr_at sr_buf sr_max] in *.
    subst stopped. cbn [concat app] in *. rewrite zlen_nil, Z.add_0_r.
    assert (zlen rest = zlen buf - at_) as Hl by (rewrite <-Hd, zlen_drop; lia).
    cbn [read_all next_frame orb].
    destruct Hstuck as [->|[e E]].
    + rewrite zlen_nil in Hl. destruct (Z.leb_spec (zlen buf) at_); [|lia]. by do 2 eexists.
    + destruct (Z.leb_spec (zlen buf) at_).
      { assert (rest = []) as -> by (apply zlen_zero; zlen_lia). by do 2 eexists. }
      rewrite Hd, E. cbn [orb]. do 2 eexists. split; [done|]. split; [|done].
      destruct rest; [rewrite zlen_nil in Hl; lia|]. cbn [rest_item]. by rewrite E.
  - apply Forall_cons in Hf as [Hf Hfs]. cbn [concat] in *. rewrite <-app_assoc in Hd.
    destruct fuel as [|fuel]; [lia|]. cbn [read_all].
    destruct (next_frame_valid r f (concat fs ++ rest) Hst ltac:(lia) Hd Hf)
      as (r' & item & -> & Ho & Hb & Hm & Hs' & Ha').
    assert (zlen (drop (Z.to_nat (sr_at r)) (sr_buf r)) = zlen (f ++ concat fs ++ rest)) as Hz
      by (by rewrite Hd).
    destruct (IH fuel r' Hs') as (items & r'' & -> & Ho' & Ha'').
    + rewrite Ha', Hb. zlen_lia.
    + rewrite Ha', Hb, Z2Nat.inj_add, <-drop_drop, Hd by zlen_lia.
      by apply take_drop_frame.
    + by rewrite Hm.
    + by rewrite Hm.
    + cbn in Hfuel. lia.
    + do 2 eexists. split; [done|]. split.
      * rewrite fmap_cons, Ho, Ho', Hm, Ha'. cbn [frame_items app]. do 3 f_equal. zlen_lia.
      * rewrite Ha'', Ha'. zlen_lia.
Qed.

Lemma length_valid_frames max fs :
  Forall (valid_frame max) fs -> (30 * length fs <= length (concat fs))%nat.
Proof.
  induction 1 as [|f fs Hf Hfs IH]; cbn; [done|].
  pose proof (valid_frame_len _ _ Hf). rewrite length_app. unfold zlen in *. lia.
Qed.
End reader_proofs.

(** ** Theorems *)

(** A record as the writer hands it to the encoder. *)
Record Written := mkWritten { wr_series : bytes; wr_epoch : Z; wr_row : Row }.

Section theorems.
Context `{Crc32} (key_count : bytes -> Z -> option nat).

Definition written_frame (w : Written) : bytes :=
  frame_of (payload_of (wr_series w) (wr_epoch w) (wr_row w)).

(** A record the engine can have written and the flush can read: well-formed, small
    enough, its schema known with the right arity. *)
Definition readable (max : Z) (w : Written) : Prop :=
  row_wf (wr_row w) /\ str_wf (wr_series w) /\ 0 <= wr_epoch w < u32_lim /\
  fits (wr_series w) (wr_epoch w) (wr_row w) = true /\
  zlen (written_frame w) <= FRAME_HEADER_BYTES + max /\
  key_count (wr_series w) (wr_epoch w) = Some (length (row_keys (wr_row w))).

(** The items of a segment that holds these records. *)
Fixpoint written_items (at_ : Z) (ws : list Written)
    : list (result FrameFault (Frame * list Value * list (bytes * bytes))) :=
  match ws with
  | [] => []
  | w :: ws' =>
      let d := decoded_of (wr_series w) (wr_epoch w) (wr_row w) (zlen (written_frame w)) in
      Ok (mkFrame (dec_record d) at_ (zlen (written_frame w)), dec_keys d, dec_extra d)
      :: written_items (at_ + zlen (written_frame w)) ws'
  end.

Lemma readable_frame max w at_ :
  readable max w ->
  valid_frame max (written_frame w) /\
  frame_item key_count max at_ (written_frame w)
  = let d := decoded_of (wr_series w) (wr_epoch w) (wr_row w) (zlen (written_frame w)) in
    Ok (mkFrame (dec_record d) at_ (zlen (written_frame w)), dec_keys d, dec_extra d).
Proof.
  destruct w as [series epoch row]. unfold readable, written_frame. cbn [wr_series wr_epoch wr_row].
  intros (W & Ws & He & Hf & Hl & Hk). set (payload := payload_of series epoch row) in *.
  pose proof (fits_min series epoch row) as Hmin. pose proof (fits_payload _ _ _ Hf) as Hu.
  rewrite zlen_frame_of in Hl. fold payload in Hmin, Hu.
  pose proof (decode_payload_of series epoch row (zlen (frame_of payload)) W Ws He Hf) as Hd.
  destruct (decode_readers payload _ _ Hu Hd) as [Hp _]. cbn in Hp.
  assert (validate_prefix (frame_of payload) max = Ok (mkPrefix (row_ts row) epoch series
    (row_id row) (zlen (frame_of payload)))) as Hv.
  { rewrite <-(app_nil_r (frame_of payload)) at 1. apply validate_prefix_frame_of; [lia|done..]. }
  split; [by eexists|]. unfold frame_item. rewrite Hv. cbn [pre_series pre_epoch]. rewrite Hk.
  pose proof (decode_frame_of payload [] (length (row_keys row)) max ltac:(lia) Hu) as Hdf.
  rewrite app_nil_r in Hdf. fold payload in Hd. by rewrite Hdf, Hd.
Qed.

(** C34: Totality and content of the segment reader. Once the header parses, the
    cursor loop terminates and reports one item per good frame of the segment in
    file order at its byte offset, each as if the frame stood alone; the first
    position where no frame can be delimited ends it with one [Undecodable]. *)
Theorem reader_reports_every_frame buf max r fs rest :
  reader_new buf max = Ok r ->
  frames_of max (drop (Z.to_nat SEGMENT_HEADER_BYTES) buf) = (fs, rest) ->
  exists items r',
    read_all key_count (length buf) r = Some (items, r') /\
    observe <$> items
      = frame_items key_count max SEGMENT_HEADER_BYTES fs
        ++ rest_item max (SEGMENT_HEADER_BYTES + zlen (concat fs)) rest /\
    sr_at r' = SEGMENT_HEADER_BYTES + zlen (concat fs).
Proof.
  unfold reader_new, mbind, result_bind. intros Er Es.
  destruct (parse_segment_header buf) as [id|] eqn:Eh; [|done]. res_inv.
  assert (SEGMENT_HEADER_BYTES <= zlen buf) as Hh.
  { unfold parse_segment_header, parse_common_header, mbind, result_bind in Eh.
    destruct (Z.ltb_spec (zlen buf) SEGMENT_HEADER_BYTES); done. }
  apply frames_of_spec in Es as (Hd & Hf & Hs).
  apply (read_all_frames key_count (length buf)
    (mkReader id buf SEGMENT_HEADER_BYTES max false [] []) fs rest);
    cbn [sr_stopped sr_at sr_buf sr_max]; try done.
  pose proof (length_valid_frames _ _ Hf) as Hn.
  assert (length (drop (Z.to_nat SEGMENT_HEADER_BYTES) buf) = length (concat fs ++ rest)) as Hl
    by (by rewrite Hd).
  rewrite length_drop, length_app in Hl. unfold SEGMENT_HEADER_BYTES, zlen in *. lia.
Qed.

(** What is written is read back. A segment that holds the encodings of some
    records, in order, is reported as exactly those records in that order with
    consecutive offsets, and the reader ends at the end of the file. *)
Theorem reader_roundtrip id ws max :
  0 <= id < u64_lim -> Forall (readable max) ws ->
  let buf := encode_segment_header [] id ++ concat (written_frame <$> ws) in
  exists r items r',
    reader_new buf max = Ok r /\ sr_id r = id /\
    read_all key_count (length buf) r = Some (items, r') /\
    observe <$> items = written_items SEGMENT_HEADER_BYTES ws /\
    sr_at r' = zlen buf.
Proof.
  intros Hid Hw buf.
  assert (parse_segment_header buf = Ok id) as Hh.
  { apply (parse_header_iff buf SEGMENT_HEADER_BYTES 8 id eq_refl). split; [done|]. by eexists. }
  exists (mkReader id buf SEGMENT_HEADER_BYTES max false [] []).
  assert (drop (Z.to_nat SEGMENT_HEADER_BYTES) buf = concat (written_frame <$> ws) ++ []) as Hd.
  { rewrite app_nil_r. by apply (take_drop_frame (encode_segment_header [] id)). }
  assert (Forall (valid_frame max) (written_frame <$> ws)) as Hv.
  { apply Forall_fmap. eapply Forall_impl; [exact Hw|]. intros w Hr.
    by apply (readable_frame max w 0). }
  pose proof (length_valid_frames _ _ Hv) as Hn.
  assert (length buf = (14 + length (concat (written_frame <$> ws)))%nat) as Hl
    by (unfold buf; rewrite length_app; done).
  destruct (read_all_frames key_count (length buf)
    (mkReader id buf SEGMENT_HEADER_BYTES max false [] []) (written_frame <$> ws) [])
    as (items & r' & Hr & Ho & Ha); cbn [sr_stopped sr_at sr_buf sr_max] in *; try done.
  { unfold zlen, SEGMENT_HEADER_BYTES. lia. }
  { by left. }
  { lia. }
  exists items, r'. split_and!; [|done|done| |].
  - unfold reader_new, mbind, result_bind. by rewrite Hh.
  - rewrite Ho. cbn [rest_item]. rewrite app_nil_r. clear -Hw.
    generalize SEGMENT_HEADER_BYTES as at_. induction Hw as [|w ws Hr Hw IH]; intros at_; [done|].
    cbn [fmap list_fmap frame_items written_items]. rewrite (proj2 (readable_frame max w at_ Hr)).
    by f_equal.
  - rewrite Ha. unfold zlen, SEGMENT_HEADER_BYTES. lia.
Qed.
End theorems.

(** ** Closed instances *)

#[local] Existing Instance Crc32_ieee.

Definition sample_lookup (series : bytes) (epoch : Z) : option nat :=
  if decide (series = lit "orders") then (if epoch =? 3 then Some 3%nat else Some 9%nat) else None.

Definition sample_written (epoch : Z) : Written := mkWritten (lit "orders") epoch sample_row.

(** A segment with a good record, one whose epoch has another arity, one of an
    unknown series, and a torn tail. *)
Definition sample_segment : bytes :=
  encode_segment_header [] 5
  ++ concat (written_frame <$> [sample_written 3; sample_written 4;
                                mkWritten (lit "gone") 1 sample_row])
  ++ take 12 (written_frame (sample_written 3)).

Lemma reader_reports_witness :
  exists items r', read_all sample_lookup (length sample_segment)
      (mkReader 5 sample_segment 14 1000 false [] []) = Some (items, r') /\
    length items = 4%nat /\ sr_at r' = zlen sample_segment - 12.
Proof.
  destruct (reader_reports_every_frame sample_lookup sample_segment 1000
    (mkReader 5 sample_segment 14 1000 false [] [])
    (written_frame <$> [sample_written 3; sample_written 4; mkWritten (lit "gone") 1 sample_row])
    (take 12 (written_frame (sample_written 3)))) as (items & r' & Hr & Ho & Ha).
  - vm_compute. reflexivity.
  - vm_compute. reflexivity.
  - exists items, r'. split; [exact Hr|]. split.
    + apply (f_equal length) in Ho. rewrite length_fmap in Ho. rewrite Ho. vm_compute. reflexivity.
    + rewrite Ha. vm_compute. reflexivity.
Defined.

Lemma reader_roundtrip_witness :
  let buf := encode_segment_header [] 9
             ++ concat (written_frame <$> [sample_written 3; sample_written 3]) in
  exists r items r', reader_new buf 1000 = Ok r /\ sr_id r = 9 /\
    read_all sample_lookup (length buf) r = Some (items, r') /\
    observe <$> items = written_items 14 [sample_written 3; sample_written 3] /\
    sr_at r' = zlen buf.
Proof.
  apply (reader_roundtrip sample_lookup 9 [sample_written 3; sample_written 3] 1000).
  - split; [discriminate|reflexivity].
  - assert (readable sample_lookup 1000 (sample_written 3)) as Hs.
    { split; [exact sample_row_wf|]. split; [reflexivity|].
      split; [split; [discriminate|reflexivity]|]. split; [vm_compute; reflexivity|].
      split; [vm_compute; discriminate|vm_compute; reflexivity]. }
    apply List.Forall_cons; [exact Hs|]. apply List.Forall_cons; [exact Hs|apply List.Forall_nil].
Defined.
