(* ===== verification/Errors.v ===== *)
(** * Errors: the text of an error

    [Display] for [Error] (error.rs), [DecodeError] (codec.rs) and [FrameFault]
    (wal/reader.rs). The server sends the text of an error to the client that asked. What
    the standard library prints from a table, the Unicode tables of [str]'s [Debug] and
    the operating system's messages, is a parameter. *)

From Stdlib Require Import ZArith Lia.
From Stdlib Require Import Strings.Byte.
From S2P Require Import Prelude Text Record Codec Reader.
Open Scope Z_scope.

Class StdText := {
  (** [{:?}] of a [str] that is not all printable ASCII. *)
  wide_debug : bytes -> string;
  (** An error of the operating system of a given kind. *)
  os_text : IoError -> string
}.

Definition text_of (s : bytes) : string := String.string_of_list_byte s.

(** [format!("{n}")]. *)
Definition num (n : Z) : string := text_of (show n).

Definition printable (b : byte) : bool := (32 <=? byte_val b) && (byte_val b <? 127).

(** [{:?}] escapes the quote and the backslash. *)
Definition debug_char (b : byte) : bytes := if decide (b = x22 \/ b = x5c) then [x5c; b] else [b].

(** [#[derive(Debug)]] of [KeyType] and of an option of it. *)
Definition debug_type (t : KeyType) : string :=
  match t with KBool => "Bool" | KI64 => "I64" | KF64 => "F64" | KStr => "Str" end.

Definition debug_type_opt (t : option KeyType) : string :=
  match t with None => "None" | Some t => "Some(" +:+ debug_type t +:+ ")" end.

Section text.
Context `{StdText}.

(** [{:?}] of a [str]. *)
Definition debug_str (s : bytes) : string :=
  if forallb printable s then text_of (x22 :: concat (debug_char <$> s) ++ [x22]) else wide_debug s.

(** [Display for std::io::Error]: an error made from a message prints the message. *)
Definition io_text (e : IoError) : string :=
  match e with
  | InvalidData what | OtherIo what => what
  | _ => os_text e
  end.

(** [Display for Error]. *)
Definition error_text (e : Error) : string :=
  match e with
  | UnknownSeries name => "unknown series " +:+ debug_str name +:+ "; it must be declared in config.json"
  | KeyArity series expected got =>
      "series " +:+ debug_str series +:+ " expects " +:+ num expected +:+ " key(s), got " +:+ num got
  | TypeMismatch series key expected got =>
      "series " +:+ debug_str series +:+ " key " +:+ debug_str key +:+ " expects " +:+ debug_type expected
      +:+ ", got " +:+ debug_type_opt got
  | TsOutOfRange ts min max =>
      "ts " +:+ num ts +:+ " outside accept window [" +:+ num min +:+ ", " +:+ num max
      +:+ "] (timestamps are epoch MICROSECONDS, UTC -- a value this far off usually means wrong units)"
  | RecordTooLarge size limit => "record is " +:+ num size +:+ " bytes, over the " +:+ num limit +:+ "-byte limit"
  | BatchTooLarge size limit =>
      "batch is " +:+ num size +:+ " bytes, over the server's " +:+ num limit
      +:+ "-byte max_batch_bytes; sending it would have it silently discarded by zeromq"
  | ConfigErr msg => "config: " +:+ msg
  | Locked dir =>
      "data directory " +:+ text_of dir
      +:+ " is locked by a live process; pass --force-unlock only if you are certain it is stuck"
  | Io e => io_text e
  | Json msg => "json: " +:+ msg
  end.

(** [Display for DecodeError]. *)
Definition decode_text (e : DecodeError) : string :=
  match e with
  | Truncated needed got => "truncated: frame needs " +:+ num needed +:+ " bytes, buffer has " +:+ num got
  | Corrupt reason => "corrupt: " +:+ reason
  end.

(** [Display for FrameFault]. *)
Definition fault_text (f : FrameFault) : string :=
  match f with
  | BadRecord offset _ err => "frame at offset " +:+ num offset +:+ " does not decode: " +:+ decode_text err
  | UnknownSchema offset _ series epoch =>
      "frame at offset " +:+ num offset +:+ " names series " +:+ debug_str series +:+ " at schema epoch "
      +:+ num epoch +:+ ", which is absent from the manifest history"
  | Undecodable offset err => "frame at offset " +:+ num offset +:+ " cannot be delimited: " +:+ decode_text err
  end.
End text.

(** ** Examples *)

(** The messages of Linux. *)
Definition linux_text : StdText := {|
  wide_debug s := text_of s;
  os_text e := match e with
               | NotFound => "No such file or directory (os error 2)"
               | AlreadyExists => "File exists (os error 17)"
               | _ => EmptyString
               end
|}.
#[local] Existing Instance linux_text.

Example error_texts :
  error_text (KeyArity (lit "t") 2 1) = text_of (lit "series " ++ [x22; x74; x22] ++ lit " expects 2 key(s), got 1") /\
  debug_str [x22; x5c] = text_of [x22; x5c; x22; x5c; x5c; x22] /\
  error_text (RecordTooLarge 20 16) = "record is 20 bytes, over the 16-byte limit" /\
  error_text (ConfigErr "bad") = "config: bad" /\
  error_text (Io (OtherIo "nope")) = "nope" /\
  debug_type_opt (Some KStr) = "Some(Str)".
Proof. vm_compute. by repeat split. Qed.
