(* ===== verification/Recovery.v ===== *)
(** * Recovery: the log at startup ([wal/recovery.rs])

    [recover] deletes the segments the manifest already covers, amends the tail
    segment at the last good frame (or removes it when it has no header, or moves it
    aside when its header is damaged) and names the next segment.

    The theorems: what a run without faults leaves on disk and reports; that a second
    run changes nothing; and that whatever I/O errors or crashes interrupt it, no
    frame of a segment that is not yet flushed is lost. *)

From Stdlib Require Import ZArith Lia.
From Stdlib Require Import Strings.Byte.
From S2P Require Import Prelude Text Record Codec CodecProofs CodecTheorems Disk Wal Reader.
Open Scope Z_scope.

(** [struct Recovery]. *)
Record Recovery := mkRecovery {
  rc_deleted : list Z;
  rc_pending : list Z;
  rc_tail : option Z;
  rc_tail_frames : Z;
  rc_discarded : Z;
  rc_quarantined : list Z;
  rc_next : Z
}.

(** [enum TailHeader] with its [TailScan]. *)
Inductive TailHeader : Type :=
| Scanned (frames discarded : Z)
| Absent
| CorruptHeader (reason : string).

Definition version_mismatch (reason : string) : bool :=
  bool_decide (reason = UNSUPPORTED_VERSION).

Section recovery.
Context `{Crc32}.

(** The loop of [scan_tail]: the offset it stops at, the frames passed, and the error
    that stopped it. *)
Fixpoint scan_frames (fuel : nat) (bytes_ : bytes) (max_record_bytes at_ frames : Z)
    : Z * Z * option DecodeError :=
  match fuel with
  | O => (at_, frames, None)
  | S fuel' =>
      if zlen bytes_ <=? at_ then (at_, frames, None)
      else
        match validate_prefix (drop (Z.to_nat at_) bytes_) max_record_bytes with
        | Ok prefix =>
            scan_frames fuel' bytes_ max_record_bytes (at_ + pre_frame_len prefix) (frames + 1)
        | Err e => (at_, frames, Some e)
        end
  end.

Definition scan_tail (p : path) : io TailHeader :=
  bytes_ ← try (read_file p);
  let size := zlen bytes_ in
  match parse_segment_header bytes_ with
  | Err (Truncated _ _) => mret Absent
  | Err (Corrupt reason) => mret (CorruptHeader reason)
  | Ok _ =>
      let '(at_, frames, stopped_by) :=
        scan_frames (length bytes_) bytes_ (zlen bytes_) SEGMENT_HEADER_BYTES 0 in
      let discarded := size - at_ in
      (if 0 <? discarded then
         try (set_len p at_) ;; try (sync p)
       else mret tt) ;;
      mret (Scanned frames discarded)
  end.

(** The deletion loop: already gone is fine. *)
Definition delete_flushed (id : Z) : io unit :=
  r ← remove_file (segment_path id);
  match r with
  | Ok _ | Err NotFound => mret tt
  | Err e => throw (Io e)
  end.

(** [ids.partition_point(|&id| id <= last)] on an ascending list: the length of the
    leading run. *)
Fixpoint partition_point (p : Z -> bool) (ids : list Z) : nat :=
  match ids with
  | id :: ids' => if p id then S (partition_point p ids') else O
  | [] => O
  end.

Definition version_error : string := "wal segment was written in a format this build cannot read".

(** What [recover] does with the tail: the remaining ids and the report. *)
Definition amend_tail (out : Recovery) (ids : list Z) : io Recovery :=
  match last ids with
  | None => mret out
  | Some tail =>
      h ← scan_tail (segment_path tail);
      match h with
      | Scanned frames discarded =>
          mret (mkRecovery (rc_deleted out) ids (Some tail) frames discarded
                  (rc_quarantined out) (rc_next out))
      | Absent =>
          r ← file_len (segment_path tail);
          let size := match r with Ok n => n | Err _ => 0 end in
          try (remove_file (segment_path tail)) ;;
          try (fsync_dir wal_dir) ;;
          mret (mkRecovery (rc_deleted out ++ [tail]) (removelast ids) (rc_tail out)
                  (rc_tail_frames out) (rc_discarded out + size)
                  (rc_quarantined out) (rc_next out))
      | CorruptHeader reason =>
          if negb (version_mismatch reason) then
            _ ← try (quarantine_segment tail);
            mret (mkRecovery (rc_deleted out) (removelast ids) (rc_tail out)
                    (rc_tail_frames out) (rc_discarded out)
                    (rc_quarantined out ++ [tail]) (rc_next out))
          else throw (ConfigErr version_error)
      end
  end.

Definition recover (last_flushed_segment : Z) : io Recovery :=
  try (create_dir_all wal_dir) ;;
  try (fsync_dir []) ;;
  ids ← list_segments;
  let highest_seen := Z.max (default 0 (last ids)) last_flushed_segment in
  let flushed := partition_point (fun id => id <=? last_flushed_segment) ids in
  io_each delete_flushed (take flushed ids) ;;
  (if decide (take flushed ids = []) then mret tt else try (fsync_dir wal_dir)) ;;
  amend_tail
    (mkRecovery (take flushed ids) [] None 0 0 [] (wrap64 (highest_seen + 1)))
    (drop flushed ids).
End recovery.

(** ** What a segment holds *)

Section content.
Context `{Crc32}.

Definition body (c : bytes) : bytes := drop (Z.to_nat SEGMENT_HEADER_BYTES) c.

(** The good frames of a segment, and the bytes behind them. *)
Definition records (c : bytes) : list bytes := (frames_of (zlen c) (body c)).1.
Definition torn (c : bytes) : bytes := (frames_of (zlen c) (body c)).2.

Definition good_header (c : bytes) : Prop := exists id, parse_segment_header c = Ok id.

(** A segment cut after its last good frame. *)
Definition amended (c : bytes) : bytes :=
  take (Z.to_nat (SEGMENT_HEADER_BYTES + zlen (concat (records c)))) c.

Lemma good_header_len c : good_header c -> SEGMENT_HEADER_BYTES <= zlen c.
Proof.
  intros [id E]. unfold parse_segment_header, parse_common_header, mbind, result_bind in E.
  destruct (Z.ltb_spec (zlen c) SEGMENT_HEADER_BYTES); done.
Qed.

Lemma parse_header_truncated c n g :
  parse_segment_header c = Err (Truncated n g) -> zlen c < SEGMENT_HEADER_BYTES.
Proof.
  unfold parse_segment_header, parse_common_header, mbind, result_bind. intros E.
  destruct (Z.ltb_spec (zlen c) SEGMENT_HEADER_BYTES); [done|].
  destruct (negb _); [done|]. by destruct (negb _).
Qed.

Lemma content_split c :
  good_header c ->
  c = take (Z.to_nat SEGMENT_HEADER_BYTES) c ++ concat (records c) ++ torn c /\
  body c = concat (records c) ++ torn c /\
  Forall (valid_frame (zlen c)) (records c) /\ stuck (zlen c) (torn c).
Proof.
  intros Hg. unfold records, torn. destruct (frames_of (zlen c) (body c)) as [fs rest] eqn:E.
  cbn [fst snd]. apply frames_of_spec in E as (Hb & Hf & Hs). split_and!; try done.
  rewrite <-Hb. unfold body. by rewrite take_drop.
Qed.

Lemma amended_eq c :
  good_header c -> amended c = take (Z.to_nat SEGMENT_HEADER_BYTES) c ++ concat (records c).
Proof.
  intros Hg. destruct (content_split c Hg) as (E & _ & _ & _).
  unfold amended. rewrite E at 2. rewrite app_assoc.
  pose proof (good_header_len c Hg). apply take_drop_frame.
  unfold SEGMENT_HEADER_BYTES in *. zlen_lia.
Qed.

Lemma valid_frame_cap m m' f : zlen f <= m' -> valid_frame m f -> valid_frame m' f.
Proof. intros Hm (p & E & Hp). exists p. split; [|done]. by eapply validate_prefix_cap. Qed.

Lemma zlen_concat_elem (fs : list bytes) f : f ∈ fs -> zlen f <= zlen (concat fs).
Proof.
  induction fs as [|g fs IH]; [set_solver|]. cbn. intros [->|Hf]%elem_of_cons; [zlen_lia|].
  specialize (IH Hf). zlen_lia.
Qed.

Lemma Forall_valid_cap m m' fs :
  zlen (concat fs) <= m' -> Forall (valid_frame m) fs -> Forall (valid_frame m') fs.
Proof.
  rewrite !Forall_forall. intros Hm Hf f Hin. pose proof (zlen_concat_elem fs f Hin).
  apply (valid_frame_cap m); [lia|auto].
Qed.

(** Amending keeps the header and every good frame, and leaves nothing behind them. *)
Lemma amended_spec c :
  good_header c ->
  good_header (amended c) /\ records (amended c) = records c /\ torn (amended c) = [].
Proof.
  intros Hg. pose proof (amended_eq c Hg) as Ea. pose proof (good_header_len c Hg) as Hl.
  destruct (content_split c Hg) as (E & Hb & Hf & Hs).
  assert (body (amended c) = concat (records c)) as Hba.
  { unfold body. rewrite Ea. apply take_drop_frame. unfold SEGMENT_HEADER_BYTES in *. zlen_lia. }
  assert (good_header (amended c)) as Hg'.
  { destruct Hg as [id Ei]. exists id.
    apply (parse_header_iff c SEGMENT_HEADER_BYTES 8 id eq_refl) in Ei as [Hid [rest Ec]].
    apply (parse_header_iff _ SEGMENT_HEADER_BYTES 8 id eq_refl). split; [done|].
    exists (concat (records c)). rewrite Ea. f_equal. rewrite Ec at 1.
    apply take_drop_frame. done. }
  assert (frames_of (zlen (amended c)) (body (amended c)) = (records c, [])) as Ef.
  { rewrite Hba, <-(app_nil_r (concat (records c))). apply frames_of_app; [|by left].
    eapply Forall_valid_cap; [|exact Hf]. rewrite Ea. zlen_lia. }
  split; [done|]. unfold records at 1, torn. by rewrite Ef.
Qed.

Lemma scan_frames_spec fuel buf max at_ n fs rest :
  0 <= at_ <= zlen buf -> drop (Z.to_nat at_) buf = concat fs ++ rest ->
  Forall (valid_frame max) fs -> stuck max rest -> (length fs < fuel)%nat ->
  exists stopped, scan_frames fuel buf max at_ n
                  = (at_ + zlen (concat fs), n + zlen fs, stopped) /\
    (stopped = None <-> rest = []).
Proof.
  revert fuel at_ n. induction fs as [|f fs IH]; intros fuel at_ n Ha Hd Hf Hs Hl;
    (destruct fuel as [|fuel]; [lia|]); cbn [scan_frames].
  - cbn [concat app] in *. rewrite !zlen_nil, !Z.add_0_r.
    assert (zlen rest = zlen buf - at_) as Hz by (rewrite <-Hd, zlen_drop; lia).
    destruct (Z.leb_spec (zlen buf) at_).
    + exists None. split; [done|]. split; [|done]. intros _. apply zlen_zero. zlen_lia.
    + destruct Hs as [->|[e E]]; [rewrite zlen_nil in Hz; lia|]. rewrite Hd, E.
      exists (Some e). split; [done|]. split; [done|]. intros ->. rewrite zlen_nil in Hz. lia.
  - apply Forall_cons in Hf as [Hf Hfs]. pose proof (valid_frame_len _ _ Hf) as Hlen.
    cbn [concat] in *. rewrite <-app_assoc in Hd.
    assert (zlen (drop (Z.to_nat at_) buf) = zlen (f ++ concat fs ++ rest)) as Hz by (by rewrite Hd).
    destruct (Z.leb_spec (zlen buf) at_); [zlen_lia|]. rewrite Hd.
    pose proof Hf as (p & E & Hp). rewrite (validate_prefix_app _ _ _ _ E), Hp.
    destruct (IH fuel (at_ + zlen f) (n + 1)) as (stopped & -> & Hst); try done.
    + zlen_lia.
    + rewrite Z2Nat.inj_add, <-drop_drop, Hd by zlen_lia. by apply take_drop_frame.
    + cbn in Hl. lia.
    + exists stopped. split; [|done]. rewrite zlen_app, zlen_cons. do 2 f_equal; lia.
Qed.

(** The scan of a whole segment. *)
Lemma scan_segment c :
  good_header c ->
  exists stopped,
    scan_frames (length c) c (zlen c) SEGMENT_HEADER_BYTES 0
    = (SEGMENT_HEADER_BYTES + zlen (concat (records c)), zlen (records c), stopped) /\
    zlen c - (SEGMENT_HEADER_BYTES + zlen (concat (records c))) = zlen (torn c) /\
    (stopped = None <-> torn c = []).
Proof.
  intros Hg. destruct (content_split c Hg) as (E & Hb & Hf & Hs).
  pose proof (good_header_len c Hg) as Hl.
  destruct (scan_frames_spec (length c) c (zlen c) SEGMENT_HEADER_BYTES 0 (records c) (torn c))
    as (stopped & -> & Hst); try done.
  - pose proof (length_valid_frames _ _ Hf) as Hn.
    apply (f_equal zlen) in E. rewrite !zlen_app, zlen_take in E. unfold zlen, SEGMENT_HEADER_BYTES in *. lia.
  - exists stopped. split_and!; [done| |done].
    apply (f_equal zlen) in E. rewrite !zlen_app, zlen_take in E. unfold SEGMENT_HEADER_BYTES in *. lia.
Qed.
End content.

(** ** Every run, with faults and crashes *)

Section crash.
Context `{Crc32} (lf : Z) (fs0 : Files).

(** The segments above the floor are as they were. *)
Definition untouched (fs : Files) : Prop :=
  forall id, lf < id < u64_lim -> 0 <= id -> fs !! segment_path id = fs0 !! segment_path id.

(** Those with a good header are as they were, or amended. *)
Definition kept (fs : Files) : Prop :=
  forall id c, lf < id < u64_lim -> 0 <= id -> fs0 !! segment_path id = Some c -> good_header c ->
    fs !! segment_path id = Some c \/ fs !! segment_path id = Some (amended c).

Lemma untouched_kept fs : untouched fs -> kept fs.
Proof. intros Hu id c Hid H0 Hc _. left. by rewrite Hu. Qed.

Lemma partition_point_take p ids x : x ∈ take (partition_point p ids) ids -> p x = true.
Proof.
  induction ids as [|id ids IH]; cbn; [set_solver|]. destruct (p id) eqn:E; cbn; [|set_solver].
  intros [->|Hx]%elem_of_cons; auto.
Qed.

Lemma segment_path_ne a b : 0 <= a -> 0 <= b -> a <> b -> segment_path a <> segment_path b.
Proof. intros Ha Hb Hn E. by apply Hn, segment_path_inj. Qed.

Lemma untouched_delete fs id :
  0 <= id -> id <= lf -> untouched fs -> untouched (delete (segment_path id) fs).
Proof.
  intros H0 Hle Hu i Hi Hi0. rewrite lookup_delete_ne; [by apply Hu|].
  apply segment_path_ne; lia.
Qed.

Lemma triple_delete_flushed id :
  0 <= id <= lf -> triple untouched (delete_flushed id) kept (fun _ => untouched).
Proof.
  intros Hid. eapply triple_bind.
  - apply triple_remove; [apply untouched_kept|].
    intros fs Hu. apply untouched_kept, untouched_delete; [lia..|done].
  - intros [[]|[| | |]]; cbn.
    + apply triple_ret; [intros fs (f0 & Hu & _ & ->); apply untouched_kept|
        intros fs (f0 & Hu & _ & ->)]; apply untouched_delete; (done || lia).
    + apply triple_ret; intros fs [Hu _]; [by apply untouched_kept|done].
    + apply triple_throw, untouched_kept.
    + apply triple_throw, untouched_kept.
    + apply triple_throw, untouched_kept.
Qed.

(** The tail after the scan: amended in place, or without a good header. *)
Definition scanned (tail : Z) (h : TailHeader) (fs : Files) : Prop :=
  match h with
  | Scanned _ _ => kept fs
  | _ => untouched fs /\ forall c, fs !! segment_path tail = Some c -> ~ good_header c
  end.

Lemma kept_amend fs tail c :
  0 <= tail -> untouched fs -> fs !! segment_path tail = Some c -> good_header c ->
  kept (<[segment_path tail := amended c]> fs).
Proof.
  intros Ht Hu Hc Hg id c0 Hid H0 Hc0 _. destruct (decide (id = tail)) as [->|Hn].
  - right. rewrite lookup_insert_eq. rewrite <-Hu, Hc in Hc0 by done. by injection Hc0 as ->.
  - left. rewrite lookup_insert_ne; [by rewrite Hu|].
    apply segment_path_ne; [done..|congruence].
Qed.

Lemma triple_scan_tail tail :
  0 <= tail -> triple untouched (scan_tail (segment_path tail)) kept (scanned tail).
Proof.
  intros Ht. unfold scan_tail. eapply triple_bind.
  { apply (triple_try _ _ (fun c fs => untouched fs /\ fs !! segment_path tail = Some c)).
    eapply triple_conseq; [apply (triple_read untouched), untouched_kept|done|].
    intros [c|e] fs [Hu Hc]; [done|by apply untouched_kept]. }
  intros c. cbn beta. destruct (parse_segment_header c) as [i|[n g|why]] eqn:Eh.
  - assert (good_header c) as Hg by (by exists i).
    destruct (scan_segment c Hg) as (stopped & -> & _ & _). cbn beta iota zeta.
    fold (amended c). eapply (triple_bind _ _ (fun _ => kept)).
    + destruct (0 <? _).
      * eapply (triple_bind _ _ (fun _ => kept)).
        { apply triple_try. eapply triple_conseq; [apply (triple_set_len (fun fs =>
            untouched fs /\ fs !! segment_path tail = Some c))|done|].
          - intros fs [Hu _]. by apply untouched_kept.
          - intros fs c' [Hu Hc] Hc'. rewrite Hc in Hc'. injection Hc' as <-. by apply kept_amend.
          - intros [[]|e] fs; [|by intros [Hu _]; apply untouched_kept].
            intros (f0 & c' & [Hu Hc] & Hc' & ->). rewrite Hc in Hc'. injection Hc' as <-.
            by apply kept_amend. }
        intros []. idle. done.
      * apply triple_ret; intros fs [Hu _]; by apply untouched_kept.
    + intros []. by apply triple_ret.
  - apply triple_ret; intros fs [Hu Hc]; [by apply untouched_kept|]. split; [done|].
    intros c' Hc' [i Hi]. rewrite Hc in Hc'. injection Hc' as <-. congruence.
  - apply triple_ret; intros fs [Hu Hc]; [by apply untouched_kept|]. split; [done|].
    intros c' Hc' [i Hi]. rewrite Hc in Hc'. injection Hc' as <-. congruence.
Qed.

(** Taking a segment without a good header out of the log. *)
Lemma kept_without fs fs' tail :
  0 <= tail -> untouched fs -> (forall c, fs !! segment_path tail = Some c -> ~ good_header c) ->
  (forall id, 0 <= id -> id <> tail -> fs' !! segment_path id = fs !! segment_path id) ->
  kept fs'.
Proof.
  intros Ht Hu Hb Hs id c Hid H0 Hc Hg. left. destruct (decide (id = tail)) as [->|Hn].
  - exfalso. rewrite <-Hu in Hc by done. by eapply Hb.
  - by rewrite Hs, Hu.
Qed.

Lemma corrupt_path_ne a b : 0 <= a -> 0 <= b -> corrupt_path a <> segment_path b.
Proof.
  intros Ha Hb E. rewrite corrupt_path_name in E by done. unfold segment_path in E.
  apply app_one_inj in E. pose proof (entry_id_corrupt a Ha) as En. rewrite E in En.
  unfold entry_id in En. rewrite utf8_segment_name in En by done.
  apply (f_equal (fun l => last l)) in E. unfold segment_name in E. rewrite !last_app in E. done.
Qed.

Lemma quarantine_others fs tail c id :
  0 <= tail -> 0 <= id -> id <> tail ->
  (<[corrupt_path tail := c]> (delete (segment_path tail) fs) : Files) !! segment_path id
  = fs !! segment_path id.
Proof.
  intros Ht Hi Hn. rewrite lookup_insert_ne by (by apply corrupt_path_ne).
  apply lookup_delete_ne, segment_path_ne; [done..|congruence].
Qed.

Lemma triple_quarantine tail :
  0 <= tail ->
  triple (fun fs => untouched fs /\ forall c, fs !! segment_path tail = Some c -> ~ good_header c)
    (quarantine_segment tail) kept (fun _ => kept).
Proof.
  intros Ht.
  assert (forall fs c, (untouched fs /\ forall c, fs !! segment_path tail = Some c -> ~ good_header c)
    -> kept (<[corrupt_path tail := c]> (delete (segment_path tail) fs))) as Hq.
  { intros fs c [Hu Hb]. apply (kept_without fs _ tail); [done..|].
    intros id Hid Hn. by apply quarantine_others. }
  unfold quarantine_segment. eapply (triple_bind _ _ (fun _ => kept)).
  - eapply triple_conseq; [apply (triple_rename (fun fs => untouched fs /\
      forall c, fs !! segment_path tail = Some c -> ~ good_header c))|done|].
    + intros fs [Hu _]. by apply untouched_kept.
    + intros fs c HP _. by apply Hq.
    + intros [[]|[| | |]] fs; cbn; try (by intros [Hu _]; apply untouched_kept).
      * intros (f0 & c & HP & _ & ->). by apply Hq.
      * intros [[Hu _] _]. by apply untouched_kept.
  - intros [[]|e]; [|by apply triple_ret]. eapply triple_bind; [by idle|].
    intros [[]|e]; by apply triple_ret.
Qed.

Lemma triple_amend_tail out ids :
  (forall id, id ∈ ids -> 0 <= id) -> triple untouched (amend_tail out ids) kept (fun _ => kept).
Proof.
  intros Hids. unfold amend_tail. destruct (last ids) as [tail|] eqn:El.
  2:{ apply triple_ret; apply untouched_kept. }
  assert (0 <= tail) as Ht by (apply Hids; by eapply last_Some_elem_of).
  eapply triple_bind; [by apply triple_scan_tail|].
  intros [frames disc| |why]; cbn [scanned].
  - by apply triple_ret.
  - set (P := fun fs : Files => untouched fs /\
      forall c, fs !! segment_path tail = Some c -> ~ good_header c).
    assert (forall fs, P fs -> kept fs) as HP by (intros fs [Hu _]; by apply untouched_kept).
    assert (forall fs, P fs -> kept (delete (segment_path tail) fs)) as HD.
    { intros fs [Hu Hb]. apply (kept_without fs _ tail); [done..|].
      intros id Hid Hn. apply lookup_delete_ne, segment_path_ne; [done..|congruence]. }
    eapply triple_bind; [by apply triple_file_len|]. intros r.
    eapply (triple_bind _ _ (fun _ => kept)).
    { apply triple_try. eapply triple_conseq; [apply (triple_remove P); done|by intros fs [? _]|].
      intros [[]|[| | |]] fs; cbn; auto.
      - intros (f0 & Hf & _ & ->). by apply HD.
      - intros [Hf _]. auto. }
    intros []. eapply triple_bind; [by idle|]. intros []. by apply triple_ret.
  - destruct (negb _); [|apply triple_throw; intros fs [Hu _]; by apply untouched_kept].
    eapply (triple_bind _ _ (fun _ => kept)).
    + apply triple_try. eapply triple_conseq; [by apply triple_quarantine|done|].
      by intros [] fs Hk.
    + intros p. by apply triple_ret.
Qed.

Lemma triple_recover : 0 <= lf -> triple (fun fs => fs = fs0) (recover lf) kept (fun _ => kept).
Proof.
  intros Hlf. apply (triple_conseq _ untouched _ _ (fun _ => kept)); [|by intros fs -> id|done].
  unfold recover. do 2 (eapply triple_bind; [idle; apply untouched_kept|intros []]).
  eapply triple_bind; [apply triple_list_segments, untouched_kept|]. intros ids.
  apply (triple_pure _ _ _ _ (forall id, id ∈ ids -> 0 <= id)).
  { intros fs [_ ->] id Hid. apply elem_of_segments in Hid. lia. }
  intros Hids. eapply (triple_bind _ _ (fun _ => untouched)).
  { eapply triple_conseq; [apply (triple_each untouched)|by intros fs [? _]|done].
    - apply untouched_kept.
    - intros id Hid. apply triple_delete_flushed. split.
      + apply Hids. by eapply elem_of_take_list.
      + apply partition_point_take in Hid. lia. }
  intros []. eapply (triple_bind _ _ (fun _ => untouched)).
  { destruct (decide _); [apply triple_ret; auto using untouched_kept|].
    idle; apply untouched_kept. }
  intros []. apply triple_amend_tail. intros id Hid. apply Hids. by eapply elem_of_drop_list.
Qed.
End crash.

(** ** A run without faults *)

Lemma segments_eq fs l :
  StronglySorted Z.lt l ->
  (forall id, id ∈ l <-> 0 <= id < u64_lim /\ is_Some (fs !! segment_path id)) ->
  segments_of fs = l.
Proof.
  intros Hs Hl. apply (strict_unique (fun z : Z => z)).
  - exact (segments_sorted fs).
  - exact Hs.
  - intros id. by rewrite elem_of_segments, Hl.
Qed.

(** The segments above the floor. *)
Definition live (lf : Z) (fs : Files) : list Z := filter (fun id => lf < id) (segments_of fs).

Lemma partition_sorted lf ids :
  StronglySorted Z.lt ids ->
  take (partition_point (fun id => id <=? lf) ids) ids = filter (fun id => id <= lf) ids /\
  drop (partition_point (fun id => id <=? lf) ids) ids = filter (fun id => lf < id) ids.
Proof.
  induction 1 as [|id ids Hs [IHt IHd] Hx]; [done|]. cbn [partition_point].
  rewrite !filter_cons. destruct (Z.leb_spec id lf).
  - rewrite decide_True by lia. rewrite decide_False by lia. cbn. by rewrite IHt.
  - rewrite decide_False by lia. rewrite decide_True by lia. cbn [take drop].
    rewrite Forall_forall in Hx. split; [symmetry|f_equal; symmetry].
    + apply filter_none. intros x Hxi. specialize (Hx x Hxi). lia.
    + apply filter_all. intros x Hxi. specialize (Hx x Hxi). lia.
Qed.

(** The files after the deletion loop. *)
Fixpoint purge (fs : Files) (ids : list Z) : Files :=
  match ids with
  | [] => fs
  | id :: ids' => purge (delete (segment_path id) fs) ids'
  end.

Lemma runs_delete_flushed id fs :
  runs (delete_flushed id) fs (delete (segment_path id) fs) (Ret tt).
Proof.
  destruct (fs !! segment_path id) as [c|] eqn:E.
  - eapply runs_bind; [by apply runs_remove|]. apply runs_ret.
  - rewrite delete_id by done. apply (runs_bind _ _ fs fs fs (Err NotFound)); [|apply runs_ret].
    apply runs_call_eq; cbn [effect]; by rewrite E.
Qed.

Lemma runs_purge ids fs : runs (io_each delete_flushed ids) fs (purge fs ids) (Ret tt).
Proof.
  revert fs. induction ids as [|id ids IH]; intros fs; [apply runs_ret|].
  cbn. eapply runs_bind; [apply runs_delete_flushed|apply IH].
Qed.

Lemma purge_lookup fs ids p :
  (forall id, id ∈ ids -> segment_path id <> p) -> purge fs ids !! p = fs !! p.
Proof.
  revert fs. induction ids as [|id ids IH]; intros fs Hp; [done|]. cbn.
  rewrite IH by set_solver. apply lookup_delete_ne. set_solver.
Qed.

Lemma purge_gone fs ids p : fs !! p = None -> purge fs ids !! p = None.
Proof.
  revert fs. induction ids as [|id ids IH]; intros fs Hp; [done|]. cbn. apply IH.
  by rewrite lookup_delete_None; right.
Qed.

Lemma purge_lookup_in fs ids id : id ∈ ids -> purge fs ids !! segment_path id = None.
Proof.
  revert fs. induction ids as [|i ids IH]; intros fs Hi; [set_solver|]. cbn.
  apply elem_of_cons in Hi as [->|Hi]; [|by apply IH]. apply purge_gone. apply lookup_delete_eq.
Qed.

(** The disk once the flushed segments are gone. *)
Definition purged (lf : Z) (fs : Files) : Files :=
  purge fs (filter (fun id => id <= lf) (segments_of fs)).

Lemma purged_lookup lf fs id :
  0 <= id < u64_lim ->
  purged lf fs !! segment_path id = if decide (id <= lf) then None else fs !! segment_path id.
Proof.
  intros Hid. unfold purged. destruct (decide (id <= lf)) as [Hle|Hgt].
  - destruct (fs !! segment_path id) as [c|] eqn:E; [|by apply purge_gone].
    apply purge_lookup_in. apply list_elem_of_filter. split; [done|]. apply elem_of_segments. eauto.
  - apply purge_lookup. intros i Hi. apply list_elem_of_filter in Hi as [Hle Hi].
    apply elem_of_segments in Hi as [Hr _]. apply segment_path_ne; lia.
Qed.

Lemma segments_purged lf fs : segments_of (purged lf fs) = live lf fs.
Proof.
  apply segments_eq.
  - unfold live. apply filter_sorted, segments_sorted.
  - intros id. unfold live. rewrite list_elem_of_filter, elem_of_segments. split.
    + intros (Hl & Hid & Hs). rewrite purged_lookup, decide_False by lia. done.
    + intros (Hid & Hs). rewrite purged_lookup in Hs by done.
      destruct (decide (id <= lf)); [by apply is_Some_None in Hs|]. split; [lia|done].
Qed.

Lemma segments_same fs fs' :
  (forall id, 0 <= id -> is_Some (fs' !! segment_path id) <-> is_Some (fs !! segment_path id)) ->
  segments_of fs' = segments_of fs.
Proof.
  intros Hs. apply segments_eq; [apply segments_sorted|]. intros id. rewrite elem_of_segments.
  split; intros [Hid Hi]; (split; [done|]); apply Hs; (done || lia).
Qed.

Lemma sorted_last_front ids tail :
  StronglySorted Z.lt ids -> last ids = Some tail ->
  StronglySorted Z.lt (removelast ids) /\ forall id, id ∈ removelast ids <-> id ∈ ids /\ id <> tail.
Proof.
  intros Hs Hl. pose proof (last_split _ _ Hl) as E. clear Hl.
  remember (removelast ids) as front eqn:Ef. clear Ef. subst ids.
  apply StronglySorted_app in Hs as (Hc & Hs & _). split; [done|]. intros id.
  rewrite elem_of_app, list_elem_of_singleton. split.
  - intros Hi. split; [by left|]. specialize (Hc id tail Hi ltac:(set_solver)). lia.
  - intros [[Hi|Hi] Hn]; done.
Qed.

Lemma segments_without fs fs' tail :
  last (segments_of fs) = Some tail ->
  (forall id, 0 <= id -> id <> tail -> fs' !! segment_path id = fs !! segment_path id) ->
  fs' !! segment_path tail = None ->
  segments_of fs' = removelast (segments_of fs).
Proof.
  intros Hl Hs Hn. destruct (sorted_last_front _ _ (segments_sorted fs) Hl) as [Hsort Hin].
  apply segments_eq; [done|]. intros id. rewrite Hin, elem_of_segments. split.
  - intros [[Hid Hi] Hne]. split; [done|]. by rewrite Hs by lia.
  - intros [Hid Hi]. destruct (decide (id = tail)) as [->|Hne].
    + rewrite Hn in Hi. by apply is_Some_None in Hi.
    + rewrite Hs in Hi by lia. done.
Qed.

(** What [recover] promises of the disk [fs'] and the report [out] it leaves, given
    the disk [fs] it found. *)
Record recovered `{Crc32} (lf : Z) (fs fs' : Files) (out : Recovery) : Prop := {
  (** The pending list is the log, ascending, all above the floor. *)
  rec_pending : rc_pending out = segments_of fs';
  rec_above : forall id, id ∈ rc_pending out -> lf < id;
  (** The next id is above every id found and above the floor. *)
  rec_next : lf < rc_next out /\ forall id, id ∈ segments_of fs -> id < rc_next out;
  (** Only flushed segments and a tail without a header are deleted. *)
  rec_deleted : forall id, id ∈ rc_deleted out ->
    id <= lf \/ exists c, fs !! segment_path id = Some c /\ zlen c < SEGMENT_HEADER_BYTES;
  (** A quarantined segment keeps its bytes under its new name. *)
  rec_quarantined : forall id, id ∈ rc_quarantined out ->
    is_Some (fs !! segment_path id) /\ fs' !! corrupt_path id = fs !! segment_path id;
  (** Every segment above the floor with a good header is still there, the tail
      amended and the others unchanged. *)
  rec_segments : forall id c, lf < id < u64_lim -> 0 <= id ->
    fs !! segment_path id = Some c -> good_header c ->
    fs' !! segment_path id
      = Some (if decide (last (segments_of fs) = Some id) then amended c else c);
  (** The report of the tail. *)
  rec_tail : match rc_tail out with
    | None => True
    | Some id => last (rc_pending out) = Some id /\
        exists c, fs !! segment_path id = Some c /\ good_header c /\
          rc_tail_frames out = zlen (records c) /\ rc_discarded out = zlen (torn c)
    end
}.

Section run.
Context `{Crc32} (lf : Z) (fs : Files).
Context (Hlf : 0 <= lf < u64_max) (Hids : forall id, id ∈ segments_of fs -> id < u64_max).

Lemma runs_scan_tail (fs1 : Files) p c :
  fs1 !! p = Some c ->
  match parse_segment_header c with
  | Ok _ => runs (scan_tail p) fs1 (<[p := amended c]> fs1)
              (Ret (Scanned (zlen (records c)) (zlen (torn c))))
  | Err (Truncated _ _) => runs (scan_tail p) fs1 fs1 (Ret Absent)
  | Err (Corrupt why) => runs (scan_tail p) fs1 fs1 (Ret (CorruptHeader why))
  end.
Proof.
  intros Hc. unfold scan_tail.
  destruct (parse_segment_header c) as [i|[n g|why]] eqn:Eh;
    (eapply runs_bind; [by apply runs_try, runs_read|]); cbv beta; rewrite Eh; try apply runs_ret.
  assert (good_header c) as Hg by (by exists i).
  destruct (scan_segment c Hg) as (stopped & -> & Ht & Hst). cbv beta iota zeta. rewrite Ht.
  destruct (Z.ltb_spec 0 (zlen (torn c))).
  - eapply runs_bind; [|apply runs_ret].
    eapply runs_bind; [by apply runs_try, runs_set_len|]. by apply runs_try, runs_idle, _.
  - eapply runs_bind; [apply runs_ret|].
    assert (torn c = []) as Hnil by (apply zlen_zero; zlen_lia).
    destruct (content_split c Hg) as (E & _ & _ & _). rewrite Hnil, app_nil_r in E.
    rewrite amended_eq, <-E, insert_id by done. apply runs_ret.
Qed.

Lemma next_segment_spec :
  let next := wrap64 (Z.max (default 0 (last (segments_of fs))) lf + 1) in
  lf < next /\ forall id, id ∈ segments_of fs -> id < next.
Proof.
  intros next. assert (next = Z.max (default 0 (last (segments_of fs))) lf + 1) as ->.
  { unfold next, wrap64. apply Z.mod_small. unfold u64_max in *.
    destruct (last (segments_of fs)) as [m|] eqn:El; cbn [default]; [|lia].
    apply last_Some_elem_of in El. specialize (Hids m El).
    apply elem_of_segments in El. unfold default, id. lia. }
  split; [lia|]. intros id Hid. destruct (last (segments_of fs)) as [m|] eqn:El.
  - cbn. pose proof (last_split _ _ El) as E. pose proof (segments_sorted fs) as Hs.
    rewrite E in Hid, Hs. apply StronglySorted_app in Hs as (Hc & _ & _).
    apply elem_of_app in Hid as [Hid|Hid].
    + specialize (Hc id m Hid ltac:(set_solver)). unfold default, Datatypes.id. lia.
    + apply list_elem_of_singleton in Hid as ->. unfold default, Datatypes.id. lia.
  - apply last_None in El. rewrite El in Hid. set_solver.
Qed.

Lemma last_live tail : last (live lf fs) = Some tail -> last (segments_of fs) = Some tail.
Proof.
  unfold live. generalize (segments_sorted fs). generalize (segments_of fs) as ids. intros ids Hs.
  induction Hs as [|x ids Hs IH Hx]; [done|]. rewrite filter_cons. rewrite last_cons.
  destruct (last ids) as [m|] eqn:El.
  - intros E. apply IH. case_decide; [|done]. rewrite last_cons in E.
    destruct (last (filter (fun id => lf < id) ids)) eqn:Ef; [done|]. exfalso.
    apply last_None in Ef. apply last_Some_elem_of in El. rewrite Forall_forall in Hx.
    specialize (Hx m El). assert (m ∈ filter (fun id => lf < id) ids) as Hm
      by (apply list_elem_of_filter; split; [lia|done]). rewrite Ef in Hm. set_solver.
  - apply last_None in El as ->. cbn. case_decide; [|done]. cbn. done.
Qed.

(** The report before the tail is looked at. *)
Definition start_report : Recovery :=
  mkRecovery (filter (fun id => id <= lf) (segments_of fs)) [] None 0 0 []
    (wrap64 (Z.max (default 0 (last (segments_of fs))) lf + 1)).

Lemma runs_recover fs' r :
  runs (amend_tail start_report (live lf fs)) (purged lf fs) fs' r -> runs (recover lf) fs fs' r.
Proof.
  intros Hr. unfold recover.
  do 2 (eapply runs_bind; [apply runs_try, runs_idle, _|]).
  eapply runs_bind; [apply runs_list_segments|]. cbv beta zeta.
  destruct (partition_sorted lf (segments_of fs) (segments_sorted fs)) as [Et Ed].
  rewrite Et, Ed. eapply runs_bind; [apply runs_purge|]. eapply runs_bind; [|exact Hr].
  destruct (decide _); [apply runs_ret|]. apply runs_try, runs_idle, _.
Qed.

Lemma live_above id : id ∈ live lf fs -> lf < id.
Proof. unfold live. rewrite list_elem_of_filter. tauto. Qed.

Lemma purged_above id : lf < id < u64_lim -> 0 <= id ->
  purged lf fs !! segment_path id = fs !! segment_path id.
Proof. intros Hid H0. rewrite purged_lookup, decide_False by lia. done. Qed.

Lemma tail_facts tail :
  last (live lf fs) = Some tail ->
  last (segments_of fs) = Some tail /\ lf < tail < u64_lim /\ 0 <= tail /\
  exists c, fs !! segment_path tail = Some c /\ purged lf fs !! segment_path tail = Some c.
Proof.
  intros Hl. pose proof (last_Some_elem_of _ _ Hl) as Hin. pose proof (live_above _ Hin).
  unfold live in Hin. rewrite list_elem_of_filter, elem_of_segments in Hin.
  destruct Hin as (_ & Hid & [c Hc]). split_and!; try lia; [by apply last_live|].
  exists c. split; [done|]. by rewrite purged_above by lia.
Qed.

(** No segment above the floor. *)
Lemma recovered_empty :
  last (live lf fs) = None -> recovered lf fs (purged lf fs) start_report.
Proof.
  intros Hl. apply last_None in Hl.
  assert (forall id c, lf < id < u64_lim -> 0 <= id -> fs !! segment_path id = Some c -> False) as Hno.
  { intros id c Hid H0 Hc. assert (id ∈ live lf fs) as Hin.
    { unfold live. rewrite list_elem_of_filter, elem_of_segments. split_and!; [lia..|eauto]. }
    rewrite Hl in Hin. set_solver. }
  split; cbn.
  - by rewrite segments_purged, Hl.
  - set_solver.
  - apply next_segment_spec; auto.
  - intros id. rewrite list_elem_of_filter. intros [Hle _]. by left.
  - set_solver.
  - intros id c Hid H0 Hc _. exfalso. by eapply Hno.
  - done.
Qed.

(** The tail has a good header. *)
Lemma recovered_scanned tail c :
  last (live lf fs) = Some tail -> fs !! segment_path tail = Some c -> good_header c ->
  recovered lf fs (<[segment_path tail := amended c]> (purged lf fs))
    (mkRecovery (rc_deleted start_report) (live lf fs) (Some tail) (zlen (records c))
       (zlen (torn c)) [] (rc_next start_report)).
Proof.
  intros Hl Hc Hg. destruct (tail_facts tail Hl) as (Hls & Ht & H0 & c' & Hc' & Hp).
  split; cbn.
  - rewrite <-segments_purged. symmetry. apply segments_same. intros id Hid.
    destruct (decide (id = tail)) as [->|Hn].
    + rewrite lookup_insert_eq, Hp. done.
    + rewrite lookup_insert_ne; [done|]. apply segment_path_ne; [done..|congruence].
  - apply live_above.
  - apply next_segment_spec; auto.
  - intros id. rewrite list_elem_of_filter. intros [Hle _]. by left.
  - set_solver.
  - intros id c1 Hid Hi0 Hc1 _. rewrite Hls. destruct (decide _) as [E|Hn].
    + injection E as E. subst id. rewrite lookup_insert_eq. rewrite Hc in Hc1. by injection Hc1 as ->.
    + rewrite lookup_insert_ne; [by rewrite purged_above|].
      apply segment_path_ne; [done..|congruence].
  - split; [done|]. eauto.
Qed.

(** The tail is taken out of the log: removed or quarantined. *)
Lemma recovered_without tail c fs' del disc quar :
  last (live lf fs) = Some tail -> fs !! segment_path tail = Some c -> ~ good_header c ->
  (forall id, 0 <= id -> id <> tail -> fs' !! segment_path id = purged lf fs !! segment_path id) ->
  fs' !! segment_path tail = None ->
  (del = [tail] /\ quar = [] /\ zlen c < SEGMENT_HEADER_BYTES \/
   del = [] /\ quar = [tail] /\ fs' !! corrupt_path tail = Some c) ->
  recovered lf fs fs'
    (mkRecovery (rc_deleted start_report ++ del) (removelast (live lf fs)) None 0 disc quar
       (rc_next start_report)).
Proof.
  intros Hl Hc Hg Hs Hn Hcase. destruct (tail_facts tail Hl) as (Hls & Ht & H0 & c' & Hc' & Hp).
  rewrite <-segments_purged in Hl |- *.
  destruct (sorted_last_front _ _ (segments_sorted _) Hl) as [_ Hfront].
  split; cbn.
  - symmetry. by apply (segments_without _ _ tail).
  - intros id Hid. apply Hfront in Hid as [Hid _]. rewrite segments_purged in Hid.
    by apply live_above.
  - apply next_segment_spec; auto.
  - intros id. rewrite elem_of_app, list_elem_of_filter. intros [[Hle _]|Hid]; [by left|]. right.
    destruct Hcase as [(-> & _ & Hz)|(-> & _)]; [|set_solver].
    apply list_elem_of_singleton in Hid as ->. eauto.
  - intros id Hid. destruct Hcase as [(_ & -> & _)|(_ & -> & Hq)]; [set_solver|].
    apply list_elem_of_singleton in Hid as ->. rewrite Hq, Hc. done.
  - intros id c1 Hid Hi0 Hc1 Hg1. rewrite Hls. destruct (decide _) as [E|Hne].
    + injection E as E. subst id. rewrite Hc in Hc1. by injection Hc1 as ->.
    + rewrite Hs by congruence. by rewrite purged_above.
  - done.
Qed.

(** The runs that end in these states. *)
Lemma runs_recover_scanned tail c :
  last (live lf fs) = Some tail -> fs !! segment_path tail = Some c -> good_header c ->
  runs (recover lf) fs (<[segment_path tail := amended c]> (purged lf fs))
    (Ret (mkRecovery (rc_deleted start_report) (live lf fs) (Some tail) (zlen (records c))
       (zlen (torn c)) [] (rc_next start_report))).
Proof.
  intros El Hc [i Hi]. destruct (tail_facts tail El) as (_ & _ & _ & c' & Hc' & Hp).
  rewrite Hc in Hc'. injection Hc' as <-.
  pose proof (runs_scan_tail (purged lf fs) (segment_path tail) c Hp) as Hscan. rewrite Hi in Hscan.
  apply runs_recover. unfold amend_tail. rewrite El.
  eapply runs_bind; [exact Hscan|]. apply runs_ret.
Qed.

Lemma runs_recover_absent tail c n g :
  last (live lf fs) = Some tail -> fs !! segment_path tail = Some c ->
  parse_segment_header c = Err (Truncated n g) ->
  runs (recover lf) fs (delete (segment_path tail) (purged lf fs))
    (Ret (mkRecovery (rc_deleted start_report ++ [tail]) (removelast (live lf fs)) None 0
       (0 + zlen c) [] (rc_next start_report))).
Proof.
  intros El Hc Hi. destruct (tail_facts tail El) as (_ & _ & _ & c' & Hc' & Hp).
  rewrite Hc in Hc'. injection Hc' as <-.
  pose proof (runs_scan_tail (purged lf fs) (segment_path tail) c Hp) as Hscan. rewrite Hi in Hscan.
  apply runs_recover. unfold amend_tail. rewrite El.
  eapply runs_bind; [exact Hscan|]. eapply runs_bind; [by apply runs_file_len|]. cbv beta zeta.
  eapply runs_bind; [by apply runs_try, runs_remove; eauto|].
  eapply runs_bind; [apply runs_try, runs_idle, _|]. apply runs_ret.
Qed.

Lemma runs_recover_corrupt tail c why :
  last (live lf fs) = Some tail -> fs !! segment_path tail = Some c ->
  parse_segment_header c = Err (Corrupt why) ->
  if version_mismatch why
  then runs (recover lf) fs (purged lf fs) (Throw (ConfigErr version_error))
  else runs (recover lf) fs (<[corrupt_path tail := c]> (delete (segment_path tail) (purged lf fs)))
    (Ret (mkRecovery (rc_deleted start_report ++ []) (removelast (live lf fs)) None 0 0
       [tail] (rc_next start_report))).
Proof.
  intros El Hc Hi. destruct (tail_facts tail El) as (_ & _ & _ & c' & Hc' & Hp).
  rewrite Hc in Hc'. injection Hc' as <-.
  pose proof (runs_scan_tail (purged lf fs) (segment_path tail) c Hp) as Hscan. rewrite Hi in Hscan.
  destruct (version_mismatch why) eqn:Ev; apply runs_recover; unfold amend_tail; rewrite El;
    (eapply runs_bind; [exact Hscan|]); cbv beta iota; rewrite Ev; [done|]. rewrite app_nil_r.
  eapply runs_bind; [|apply runs_ret]. apply runs_try.
  unfold quarantine_segment. eapply runs_bind; [by apply runs_rename|].
  eapply runs_bind; [apply runs_idle, _|]. apply runs_ret.
Qed.
End run.

(** An amended segment is its own amendment. *)
Lemma amended_idem `{Crc32} c : good_header c -> amended (amended c) = amended c.
Proof.
  intros Hg. destruct (amended_spec c Hg) as (Hg' & Hr & Ht).
  destruct (content_split _ Hg') as (E & _). rewrite Ht, app_nil_r in E.
  by rewrite (amended_eq (amended c) Hg'), <-E.
Qed.

(** ** Theorems *)

Section theorems.
Context `{Crc32}.

(** C18: Recovery without faults always finishes, and either leaves the log and the
    report as promised (pending list = segments on disk, all above the floor; next id
    fresh; good frames kept, tail cut after its last good frame; nothing but flushed
    or headerless segments deleted; quarantined bytes preserved), or refuses to start
    because the tail was written in another format version, leaving every segment
    above the floor untouched. *)
Theorem recover_result lf fs :
  0 <= lf < u64_max -> (forall id, id ∈ segments_of fs -> id < u64_max) ->
  exists fs' r, runs (recover lf) fs fs' r /\
    match r with
    | Ret out => recovered lf fs fs' out
    | Throw e => e = ConfigErr version_error /\ untouched lf fs fs' /\
        exists tail c, last (segments_of fs) = Some tail /\ fs !! segment_path tail = Some c /\
          parse_segment_header c = Err (Corrupt UNSUPPORTED_VERSION)
    | Halted => False
    end.
Proof.
  intros Hlf Hids. destruct (last (live lf fs)) as [tail|] eqn:El.
  2:{ exists (purged lf fs), (Ret (start_report lf fs)). split; [|by apply recovered_empty].
      apply runs_recover. unfold amend_tail. rewrite El. apply runs_ret. }
  destruct (tail_facts lf fs Hlf Hids tail El) as (Hls & Ht & H0 & c & Hc & Hp).
  destruct (parse_segment_header c) as [i|[n g|why]] eqn:Eh.
  - assert (good_header c) as Hg by (by exists i).
    do 2 eexists. split; [by apply (runs_recover_scanned lf fs Hlf Hids tail c)|].
    by apply recovered_scanned.
  - do 2 eexists. split; [by apply (runs_recover_absent lf fs Hlf Hids tail c n g)|].
    apply (recovered_without lf fs Hlf Hids tail c _ [tail] (0 + zlen c) []); try done.
    + intros [i Hi]. congruence.
    + intros id Hid Hn. apply lookup_delete_ne, segment_path_ne; [done..|congruence].
    + apply lookup_delete_eq.
    + left. split_and!; [done..|]. by eapply parse_header_truncated.
  - pose proof (runs_recover_corrupt lf fs Hlf Hids tail c why El Hc Eh) as Hr.
    destruct (version_mismatch why) eqn:Ev; do 2 eexists; (split; [exact Hr|]).
    + split_and!; [done|intros id Hid Hi0; by apply purged_above|].
      exists tail, c. apply bool_decide_eq_true in Ev as ->. done.
    + apply (recovered_without lf fs Hlf Hids tail c _ [] 0 [tail]); try done.
      * intros [i Hi]. congruence.
      * intros id Hid Hn. by apply quarantine_others.
      * rewrite lookup_insert_ne by (by apply corrupt_path_ne). apply lookup_delete_eq.
      * right. split_and!; [done..|apply lookup_insert_eq].
Qed.

(** C19: Crash safety. Whatever I/O errors occur and wherever the process stops during
    recovery, every segment above the flushed floor that has a good header is still in
    the log with a good header and exactly the same good frames. *)
Theorem recover_keeps_frames lf w id c :
  0 <= lf -> lf < id < u64_lim ->
  files w !! segment_path id = Some c -> good_header c ->
  exists c', files (recover lf w).1 !! segment_path id = Some c' /\
    good_header c' /\ records c' = records c.
Proof.
  intros Hlf Hid Hc Hg. pose proof (triple_recover lf (files w) Hlf w eq_refl) as [Hk _].
  destruct (Hk id c Hid ltac:(lia) Hc Hg) as [E|E]; rewrite E.
  - eauto.
  - destruct (amended_spec c Hg) as (Hg' & Hr & _). eauto.
Qed.

(** Recovery is idempotent. When the tail has a good header, running recovery
    again on the disk it left (after a crash, before anything was written) reports the
    same pending segments, tail, frame count and next id, discards and deletes nothing
    and changes no file. *)
Theorem recover_idempotent lf fs tail c :
  0 <= lf < u64_max -> (forall id, id ∈ segments_of fs -> id < u64_max) ->
  last (live lf fs) = Some tail -> fs !! segment_path tail = Some c -> good_header c ->
  exists fs' out, runs (recover lf) fs fs' (Ret out) /\ rc_tail out = Some tail /\
    runs (recover lf) fs' fs'
      (Ret (mkRecovery [] (rc_pending out) (Some tail) (rc_tail_frames out) 0 [] (rc_next out))).
Proof.
  intros Hlf Hids El Hc Hg. destruct (tail_facts lf fs Hlf Hids tail El) as (Hls & Ht & H0 & c' & Hc' & Hp).
  pose proof (recovered_scanned lf fs Hlf Hids tail c El Hc Hg) as Hrec.
  set (fs' := <[segment_path tail := amended c]> (purged lf fs)) in *.
  do 2 eexists. split; [by apply (runs_recover_scanned lf fs Hlf Hids tail c)|]. split; [done|]. cbn.
  pose proof (rec_pending _ _ _ _ Hrec) as Hseg. cbn in Hseg.
  assert (live lf fs' = live lf fs) as Elive.
  { unfold live at 1. rewrite <-Hseg. apply filter_all. by apply live_above. }
  assert (filter (fun id => id <= lf) (segments_of fs') = []) as Enone.
  { apply filter_none. rewrite <-Hseg. intros id Hid. apply live_above in Hid; [lia|done]. }
  assert (purged lf fs' = fs') as Epur by (unfold purged; by rewrite Enone).
  assert (fs' !! segment_path tail = Some (amended c)) as Hc2 by apply lookup_insert_eq.
  destruct (amended_spec c Hg) as (Hg2 & Hr2 & Ht2).
  assert (forall id, id ∈ segments_of fs' -> id < u64_max) as Hids'.
  { rewrite <-Hseg. intros id Hid. apply list_elem_of_filter in Hid as [_ Hid]. auto. }
  pose proof (runs_recover_scanned lf fs' Hlf Hids' tail (amended c)) as Hr.
  rewrite Elive, Epur, amended_idem, (insert_id fs'), Hr2, Ht2 in Hr by done.
  unfold start_report in Hr |- *. cbn in Hr |- *.
  rewrite Enone, <-Hseg, El in Hr. rewrite Hls. by apply Hr.
Qed.
End theorems.

(** ** Closed instances *)

#[local] Existing Instance Crc32_ieee.

(** A log with a flushed segment, a sealed one and a torn tail. *)
Definition sample_log : Files :=
  <[segment_path 3 := encode_segment_header [] 3]>
  (<[segment_path 4 := encode_segment_header [] 4]>
   {[segment_path 5 := sample_segment]}).

Lemma sample_log_segments : segments_of sample_log = [3; 4; 5].
Proof. vm_compute. reflexivity. Qed.

Lemma sample_log_bound id : id ∈ segments_of sample_log -> id < u64_max.
Proof.
  rewrite sample_log_segments. unfold u64_max, u64_lim.
  intros [->|[->|[->|Hn]%elem_of_cons]%elem_of_cons]%elem_of_cons; [lia..|]. set_solver.
Qed.

Lemma recover_result_witness :
  exists fs' r, runs (recover 3) sample_log fs' r /\
    match r with
    | Ret out => recovered 3 sample_log fs' out
    | Throw e => e = ConfigErr version_error /\ untouched 3 sample_log fs' /\
        exists tail c, last (segments_of sample_log) = Some tail /\
          sample_log !! segment_path tail = Some c /\
          parse_segment_header c = Err (Corrupt UNSUPPORTED_VERSION)
    | Halted => False
    end.
Proof.
  apply (recover_result 3 sample_log).
  - split; [discriminate|reflexivity].
  - exact sample_log_bound.
Defined.

Lemma recover_keeps_frames_witness :
  exists c', files (recover 3 (mkWorld sample_log [Fine; Fine; Fine; Fails "EIO"])).1
             !! segment_path 5 = Some c' /\
    good_header c' /\ records c' = records sample_segment.
Proof.
  apply (recover_keeps_frames 3 (mkWorld sample_log [Fine; Fine; Fine; Fails "EIO"]) 5 sample_segment).
  - discriminate.
  - split; reflexivity.
  - vm_compute. reflexivity.
  - exists 5. vm_compute. reflexivity.
Defined.

Lemma recover_idempotent_witness :
  exists fs' out, runs (recover 3) sample_log fs' (Ret out) /\ rc_tail out = Some 5 /\
    runs (recover 3) fs' fs'
      (Ret (mkRecovery [] (rc_pending out) (Some 5) (rc_tail_frames out) 0 [] (rc_next out))).
Proof.
  apply (recover_idempotent 3 sample_log 5 sample_segment).
  - split; [discriminate|reflexivity].
  - exact sample_log_bound.
  - vm_compute. reflexivity.
  - vm_compute. reflexivity.
  - exists 5. vm_compute. reflexivity.
Defined.

(** A log whose only segment has a damaged header. *)
Definition damaged_log : Files := {[segment_path 5 := replicate 14 xff]}.

(** Segment ids are reused after a quarantine. Recovery that moved the tail aside
    names the next id 6; if the process stops before that segment is created, the next
    recovery names id 1, so later segments take ids already used, and a later damaged
    segment 5 is quarantined over the first one's bytes. *)
Theorem recover_reuses_ids :
  let '(w, first) := recover 0 (mkWorld damaged_log []) in
  let '(_, second) := recover 0 w in
  match first, second with
  | Ret out, Ret out' => rc_quarantined out = [5] /\ rc_next out = 6 /\ rc_next out' = 1
  | _, _ => False
  end.
Proof. vm_compute. split_and!; reflexivity. Qed.
