(* ===== verification/Lock.v ===== *)
(** * Lock: ownership of the data directory ([DirLock] of [wal/recovery.rs])

    The lockfile holds the owner's pid; its age is an input of [acquire], as the
    system clock and the file's mtime are. *)

From Stdlib Require Import ZArith Lia.
From Stdlib Require Import Strings.Byte.
From S2P Require Import Prelude Text Record Disk.
Open Scope Z_scope.

Definition LOCK_FILE : bytes := lit "LOCK".
Definition LOCK_STALE_MS : Z := 10000.
Definition LOCK_HEARTBEAT_MS : Z := 1000.

Definition lock_path : path := [LOCK_FILE].

(** [struct DirLock]; the path is [lock_path]. *)
Record DirLock := mkDirLock { lock_pid : Z }.

(** ** [str::trim]

    The encodings of the characters with the Unicode property White_Space. *)
Definition white_space : list bytes :=
  [[x09]; [x0a]; [x0b]; [x0c]; [x0d]; [x20]; [xc2; x85]; [xc2; xa0]; [xe1; x9a; x80];
   [xe2; x80; x80]; [xe2; x80; x81]; [xe2; x80; x82]; [xe2; x80; x83]; [xe2; x80; x84];
   [xe2; x80; x85]; [xe2; x80; x86]; [xe2; x80; x87]; [xe2; x80; x88]; [xe2; x80; x89];
   [xe2; x80; x8a]; [xe2; x80; xa8]; [xe2; x80; xa9]; [xe2; x80; xaf]; [xe2; x81; x9f];
   [xe3; x80; x80]].

(** Strip one of the prefixes, if any applies. *)
Definition strip_any (pats : list bytes) (s : bytes) : option bytes :=
  fold_right (fun p acc =>
    if decide (take (length p) s = p) then Some (drop (length p) s) else acc) None pats.

Fixpoint strip_all (fuel : nat) (pats : list bytes) (s : bytes) : bytes :=
  match fuel with
  | O => s
  | S fuel' =>
      match strip_any pats s with
      | Some s' => strip_all fuel' pats s'
      | None => s
      end
  end.

Definition trim_start (s : bytes) : bytes := strip_all (length s) white_space s.
Definition trim_end (s : bytes) : bytes :=
  reverse (strip_all (length s) (reverse <$> white_space) (reverse s)).
Definition trim (s : bytes) : bytes := trim_end (trim_start s).

(** ** The operations *)

(** [format!("{pid}\n")]. *)
Definition pid_line (pid : Z) : bytes := show pid ++ [x0a].

(** Write to a file just created or truncated. *)
Definition write_pid (p : path) (pid : Z) : io (result IoError unit) :=
  write_file p (pid_line pid).

(** [OpenOptions::new().write(true).truncate(true).open(path)]. *)
Definition open_truncate (p : path) : io (result IoError unit) := Call (OpenTruncate p).

Definition parse_pid (c : bytes) : option Z :=
  if utf8_valid c then parse_uint u32_lim (trim c) else None.

Definition read_pid (p : path) : io (option Z) :=
  r ← read_file p;
  mret (match r with Ok c => parse_pid c | Err _ => None end).

(** [age] is what [lock_age] returns: [None] when the mtime is unreadable or in the
    future. *)
Definition acquire (dir : bytes) (pid : Z) (age : option Z) (force_unlock : bool) : io DirLock :=
  try (create_dir_all []) ;;
  r ← create_new lock_path [];
  match r with
  | Ok _ => try (write_pid lock_path pid) ;; mret (mkDirLock pid)
  | Err AlreadyExists =>
      let stale := match age with Some a => LOCK_STALE_MS <=? a | None => false end in
      if negb stale && negb force_unlock then throw (Locked dir)
      else
        try (open_truncate lock_path) ;;
        try (write_pid lock_path pid) ;;
        holder ← read_pid lock_path;
        if negb (bool_decide (holder = Some pid)) then throw (Locked dir)
        else mret (mkDirLock pid)
  | Err e => throw (Io e)
  end.

Definition touch_lock (p : path) (pid : Z) : io (result IoError unit) :=
  r ← open_truncate p;
  match r with
  | Ok _ => write_pid p pid
  | Err e => mret (Err e)
  end.

(** [Drop for DirLock]: an error is only logged. *)
Definition drop_lock (l : DirLock) : io unit :=
  holder ← read_pid lock_path;
  if negb (bool_decide (holder = Some (lock_pid l))) then mret tt
  else _ ← remove_file lock_path; mret tt.

(** ** Lemmas *)

Lemma strip_all_done fuel pats s : strip_any pats s = None -> strip_all fuel pats s = s.
Proof. intros E. destruct fuel; [done|]. cbn. by rewrite E. Qed.

Lemma strip_any_none pats s :
  (forall p, p ∈ pats -> take (length p) s <> p) -> strip_any pats s = None.
Proof.
  induction pats as [|p pats IH]; intros Hp; [done|]. cbn.
  rewrite decide_False by (apply Hp; set_solver). apply IH. set_solver.
Qed.

(** No white space starts or ends with a digit. *)
Lemma digit_not_space s pats :
  (forall p, p ∈ pats -> exists b r, p = b :: r /\ is_digit b = false) ->
  (exists b r, s = b :: r /\ is_digit b = true) -> strip_any pats s = None.
Proof.
  intros Hp (b & r & -> & Hb). apply strip_any_none. intros p Hin E.
  destruct (Hp p Hin) as (b' & r' & -> & Hb'). cbn in E. injection E as -> _. congruence.
Qed.

Lemma space_heads : forall p, p ∈ white_space -> exists b r, p = b :: r /\ is_digit b = false.
Proof.
  apply Forall_forall. unfold white_space. repeat constructor; by do 2 eexists.
Qed.

Lemma space_tails :
  forall p, p ∈ reverse <$> white_space -> exists b r, p = b :: r /\ is_digit b = false.
Proof.
  apply Forall_forall. unfold white_space. vm_compute. repeat constructor; by do 2 eexists.
Qed.

Lemma digits_head s : all_digits s = true -> s <> [] -> exists b r, s = b :: r /\ is_digit b = true.
Proof. destruct s as [|b r]; [done|]. cbn. intros Hd _. bool_to_prop. eauto. Qed.

Lemma all_digits_reverse s : all_digits s = true -> all_digits (reverse s) = true.
Proof.
  rewrite !all_digits_spec. intros Hd b Hb. apply Hd. by apply elem_of_reverse.
Qed.

Lemma trim_pid_line pid : 0 <= pid -> trim (pid_line pid) = show pid.
Proof.
  intros Hp. pose proof (show_digits pid Hp) as Hd. pose proof (show_nonempty pid Hp) as Hn.
  assert (show pid <> []) as Hne by (intros E; rewrite E in Hn; by vm_compute in Hn).
  unfold trim, trim_start. rewrite strip_all_done.
  2:{ apply digit_not_space; [apply space_heads|]. unfold pid_line.
      destruct (digits_head _ Hd Hne) as (b & r & -> & Hb). cbn. eauto. }
  unfold trim_end, pid_line. rewrite reverse_snoc, length_app, Nat.add_comm. cbn [length Nat.add].
  cbn [strip_all].
  replace (strip_any (reverse <$> white_space) (x0a :: reverse (show pid)))
    with (Some (reverse (show pid))) by done.
  rewrite strip_all_done; [by rewrite reverse_involutive|].
  apply digit_not_space; [apply space_tails|]. apply digits_head; [by apply all_digits_reverse|].
  intros E. apply Hne. by rewrite <-(reverse_involutive (show pid)), E.
Qed.

Lemma parse_pid_line pid : 0 <= pid < u32_lim -> parse_pid (pid_line pid) = Some pid.
Proof.
  intros Hp. unfold parse_pid.
  assert (utf8_valid (pid_line pid) = true) as ->.
  { apply utf8_ascii. intros b [Hb|Hb]%elem_of_app.
    - pose proof (show_digits pid ltac:(lia)) as Hd. rewrite all_digits_spec in Hd.
      by apply digit_ascii, Hd.
    - apply list_elem_of_singleton in Hb as ->. done. }
  rewrite trim_pid_line by lia. by apply parse_uint_show.
Qed.

Lemma runs_create_new p c fs :
  fs !! p = None -> runs (create_new p c) fs (<[p := c]> fs) (Ret (Ok tt)).
Proof. intros E. apply runs_call_eq; cbn [effect]; by rewrite E. Qed.

Lemma runs_create_held p c fs :
  is_Some (fs !! p) -> runs (create_new p c) fs fs (Ret (Err AlreadyExists)).
Proof. intros [d E]. apply runs_call_eq; cbn [effect]; by rewrite E. Qed.

Lemma runs_read_pid p c fs :
  fs !! p = Some c -> runs (read_pid p) fs fs (Ret (parse_pid c)).
Proof. intros E. eapply runs_bind; [by apply runs_read|]. apply runs_ret. Qed.

(** ** Theorems *)

(** C35: A live lock is never taken. While the lockfile exists and its heartbeat is
    younger than the stale limit (or unreadable), [acquire] without [force_unlock]
    does not succeed and changes no file, whatever I/O faults occur; without faults it
    reports [Locked]. *)
Theorem live_lock_is_respected dir pid age w :
  is_Some (files w !! lock_path) ->
  (forall a, age = Some a -> a < LOCK_STALE_MS) ->
  files (acquire dir pid age false w).1 = files w /\
  (forall l, (acquire dir pid age false w).2 <> Ret l) /\
  (script w = [] -> (acquire dir pid age false w).2 = Throw (Locked dir)).
Proof.
  intros Hheld Hage.
  assert (match age with Some a => LOCK_STALE_MS <=? a | None => false end = false) as Hfresh.
  { destruct age as [a|]; [|done]. apply Z.leb_gt. by apply Hage. }
  assert (triple (fun fs => fs = files w) (acquire dir pid age false) (fun fs => fs = files w)
    (fun _ _ => False)) as Ht.
  { eapply triple_bind; [by idle|]. intros [].
    eapply (triple_bind _ _ (fun r fs => fs = files w /\ forall u, r <> Ok u)).
    - apply triple_whole; [apply _|done| |done]. cbn [effect]. intros fs ->. by destruct Hheld as [c ->].
    - intros [u|[]]; rewrite ?Hfresh.
      + intros w' [_ Hn]. by destruct (Hn u).
      + by apply triple_throw; intros fs [-> _].
      + by apply triple_throw; intros fs [-> _].
      + by apply triple_throw; intros fs [-> _].
      + by apply triple_throw; intros fs [-> _]. }
  destruct (Ht w eq_refl) as [Hf Hr]. split; [done|]. split.
  - intros l El. by rewrite El in Hr.
  - intros Hs. assert (runs (acquire dir pid age false) (files w) (files w) (Throw (Locked dir))) as Hrun.
    { eapply runs_bind; [apply runs_try, runs_idle, _|].
      eapply runs_bind; [by apply runs_create_held|]. rewrite Hfresh. done. }
    destruct w as [fs s]. cbn [files script] in Hs, Hrun |- *. subst s. unfold runs in Hrun. by rewrite Hrun.
Qed.

(** The life of a lock. On a free directory [acquire] creates the lock and
    dropping it restores the directory; a stale lock is taken over, after which the
    first owner's drop leaves the new owner's lock in place and the new owner's drop
    removes it. *)
Theorem lock_lifecycle dir pid pid' age fs :
  fs !! lock_path = None -> 0 <= pid < u32_lim -> 0 <= pid' < u32_lim -> pid <> pid' ->
  LOCK_STALE_MS <= age ->
  let held p := <[lock_path := pid_line p]> fs in
  runs (acquire dir pid None false) fs (held pid) (Ret (mkDirLock pid)) /\
  runs (drop_lock (mkDirLock pid)) (held pid) fs (Ret tt) /\
  runs (acquire dir pid' (Some age) false) (held pid) (held pid') (Ret (mkDirLock pid')) /\
  runs (drop_lock (mkDirLock pid)) (held pid') (held pid') (Ret tt) /\
  runs (drop_lock (mkDirLock pid')) (held pid') fs (Ret tt).
Proof.
  intros Hfree Hp Hp' Hne Hage held.
  assert (forall p, held p !! lock_path = Some (pid_line p)) as Hh by (intros p; apply lookup_insert_eq).
  assert (forall p, 0 <= p < u32_lim -> runs (drop_lock (mkDirLock p)) (held p) fs (Ret tt)) as Hdrop.
  { intros p Hr. eapply runs_bind; [by apply runs_read_pid|].
    rewrite parse_pid_line, bool_decide_eq_true_2 by done. cbn [negb].
    eapply runs_bind; [|apply runs_ret].
    replace fs with (delete lock_path (held p)) by (by apply delete_insert_id).
    apply runs_remove. eauto. }
  split_and!; auto.
  - eapply runs_bind; [apply runs_try, runs_idle, _|]. eapply runs_bind; [by apply runs_create_new|].
    eapply runs_bind; [apply runs_try, runs_write|]. rewrite insert_insert_eq. apply runs_ret.
  - eapply runs_bind; [apply runs_try, runs_idle, _|]. eapply runs_bind; [apply runs_create_held; eauto|].
    cbv beta iota zeta. destruct (Z.leb_spec LOCK_STALE_MS age); [|lia]. cbn [negb andb].
    eapply (runs_bind _ _ _ (<[lock_path := []]> (held pid))).
    { apply runs_try, runs_call_eq. cbn [effect]. by rewrite Hh. }
    eapply runs_bind; [apply runs_try, runs_write|]. unfold held. rewrite !insert_insert_eq.
    eapply runs_bind; [apply runs_read_pid, lookup_insert_eq|].
    rewrite parse_pid_line, bool_decide_eq_true_2 by done. apply runs_ret.
  - eapply runs_bind; [by apply runs_read_pid|].
    rewrite parse_pid_line by done. rewrite bool_decide_eq_false_2 by (cbn; congruence). apply runs_ret.
Qed.

(** ** Closed instances *)

Lemma live_lock_witness :
  let w := mkWorld {[lock_path := pid_line 17]} [] in
  files (acquire (lit "data") 18 (Some 900) false w).1 = files w /\
  (acquire (lit "data") 18 (Some 900) false w).2 = Throw (Locked (lit "data")).
Proof.
  destruct (live_lock_is_respected (lit "data") 18 (Some 900)
    (mkWorld {[lock_path := pid_line 17]} [])) as (Hf & _ & Hl).
  - by eexists.
  - intros a [= <-]. reflexivity.
  - split; [exact Hf|]. apply Hl. reflexivity.
Defined.

Lemma lock_lifecycle_witness :
  runs (drop_lock (mkDirLock 17)) {[lock_path := pid_line 18]} {[lock_path := pid_line 18]} (Ret tt).
Proof.
  destruct (lock_lifecycle (lit "data") 17 18 10000 ∅) as (_ & _ & _ & Hd & _).
  - reflexivity.
  - split; [discriminate|reflexivity].
  - split; [discriminate|reflexivity].
  - discriminate.
  - discriminate.
  - exact Hd.
Defined.
