(* ===== verification/Heap.v ===== *)
(** * Heap: the hand-rolled binary heap of the merge ([flush/merge.rs])

    The merge keeps a min-heap of source indices; the keys live in the sources. The
    heap is a list of indices, [less] compares the sources the indices name. *)

From Stdlib Require Import ZArith Lia.
From S2P Require Import Prelude.

Local Open Scope nat_scope.

(** [heap[i]] for an index in range. *)
Definition at_ (heap : list nat) (i : nat) : nat := nth i heap 0.

(** [heap.swap(i, j)]. *)
Definition swap (heap : list nat) (i j : nat) : list nat :=
  <[i := at_ heap j]> (<[j := at_ heap i]> heap).

(** The [min] of one iteration: [i] or the smaller of its children in range. *)
Definition smallest (heap : list nat) (i : nat) (less : nat -> nat -> bool) : nat :=
  let l := 2 * i + 1 in
  let r := l + 1 in
  let min := i in
  let min := if (l <? length heap) && less (at_ heap l) (at_ heap min) then l else min in
  if (r <? length heap) && less (at_ heap r) (at_ heap min) then r else min.

(** The loop of [sift_down]: one iteration per call. *)
Fixpoint sift_down (fuel : nat) (heap : list nat) (i : nat) (less : nat -> nat -> bool) : list nat :=
  match fuel with
  | O => heap
  | S fuel' =>
      let min := smallest heap i less in
      if min =? i then heap else sift_down fuel' (swap heap i min) min less
  end.

(** [for i in (0..heap.len() / 2).rev() { sift_down(&mut heap, i, less) }]. *)
Fixpoint heapify (k : nat) (heap : list nat) (less : nat -> nat -> bool) : list nat :=
  match k with
  | O => heap
  | S k' => heapify k' (sift_down (length heap) heap k' less) less
  end.

(** ** Lemmas *)

Definition parent (j : nat) : nat := (j - 1) / 2.

Lemma parent_child i : parent (2 * i + 1) = i /\ parent (2 * i + 1 + 1) = i.
Proof.
  unfold parent. split.
  - replace (2 * i + 1 - 1) with (i * 2) by lia. apply Nat.div_mul. lia.
  - replace (2 * i + 1 + 1 - 1) with (1 + i * 2) by lia. rewrite Nat.div_add by lia. done.
Qed.

Lemma child_parent j : 0 < j -> j = 2 * parent j + 1 \/ j = 2 * parent j + 1 + 1.
Proof.
  intros Hj. unfold parent. pose proof (Nat.div_mod_eq (j - 1) 2).
  pose proof (Nat.mod_upper_bound (j - 1) 2 ltac:(lia)). lia.
Qed.

Lemma parent_lt j : 0 < j -> parent j < j.
Proof. intros Hj. destruct (child_parent j Hj); lia. Qed.

Lemma at_lookup (l : list nat) k : k < length l -> l !! k = Some (at_ l k).
Proof.
  intros Hk. destruct (lookup_lt_is_Some_2 l k Hk) as [x Hx]. rewrite Hx. f_equal. symmetry.
  by apply nth_lookup_Some.
Qed.

Lemma length_swap h i j : length (swap h i j) = length h.
Proof. unfold swap. by rewrite !length_insert. Qed.

Section swap_lemmas.
Context (h : list nat) (i j : nat) (Hi : i < length h) (Hj : j < length h).

Lemma at_swap k :
  at_ (swap h i j) k = if decide (k = i) then at_ h j else if decide (k = j) then at_ h i else at_ h k.
Proof.
  unfold swap. unfold at_ at 1.
  destruct (decide (k = i)) as [->|Hki]; [|destruct (decide (k = j)) as [->|Hkj]].
  - apply nth_lookup_Some. apply list_lookup_insert_eq. by rewrite length_insert.
  - apply nth_lookup_Some. rewrite list_lookup_insert_ne by done. by apply list_lookup_insert_eq.
  - unfold at_. rewrite !nth_lookup. by rewrite !list_lookup_insert_ne.
Qed.

Lemma swap_perm : swap h i j ≡ₚ h.
Proof. apply Permutation_insert_swap; by apply at_lookup. Qed.
End swap_lemmas.

Section heap_lemmas.
Context {K : Type} `{CmpLaws K} (val : nat -> K).
Implicit Types h : list nat.

Definition less_by (a b : nat) : bool := ltb (val a) (val b).
Definition v h (i : nat) : K := val (at_ h i).

(** Heap order at every node whose parent is [k] or later. *)
Definition heap_above (k : nat) h : Prop :=
  forall j, 0 < j < length h -> k <= parent j -> cle (v h (parent j)) (v h j).

(** Heap order from [k] except below [i], where the children are only bounded by the
    parent of [i]. *)
Definition hole (k : nat) h (i : nat) : Prop :=
  (forall j, 0 < j < length h -> k <= parent j -> parent j <> i -> cle (v h (parent j)) (v h j)) /\
  (forall j, 0 < j < length h -> parent j = i -> 0 < i -> k <= parent i ->
     cle (v h (parent i)) (v h j)).

Lemma cle_of_ltb (x y : K) : ltb x y = false -> cle y x.
Proof. apply ltb_ge. Qed.

Lemma smallest_spec h i :
  let m := smallest h i less_by in
  (m = i \/ i < m < length h /\ parent m = i /\ clt (v h m) (v h i)) /\
  (forall j, 0 < j < length h -> parent j = i -> cle (v h m) (v h j)).
Proof.
  destruct (parent_child i) as [Hpl Hpr]. unfold smallest, less_by.
  fold (v h (2 * i + 1)) (v h (2 * i + 1 + 1)) (v h i).
  set (l := 2 * i + 1) in *. set (r := l + 1) in *.
  assert (forall m, cle (v h m) (v h i) ->
    (l < length h -> cle (v h m) (v h l)) -> (r < length h -> cle (v h m) (v h r)) ->
    forall j, 0 < j < length h -> parent j = i -> cle (v h m) (v h j)) as Hchild.
  { intros m Hi Hl Hr j Hj Hp. destruct (child_parent j ltac:(lia)) as [E|E]; rewrite Hp in E.
    - fold l in E. subst j. apply Hl. lia.
    - fold l r in E. subst j. apply Hr. lia. }
  destruct (l <? length h) eqn:El; cbn [andb].
  - apply Nat.ltb_lt in El. destruct (ltb (v h l) (v h i)) eqn:Eli.
    + apply ltb_lt in Eli. fold (v h l).
      destruct (r <? length h) eqn:Er; cbn [andb]; [destruct (ltb (v h r) (v h l)) eqn:Erl|].
      * apply Nat.ltb_lt in Er. apply ltb_lt in Erl. split.
        { right. split_and!; [lia..|done|]. exact (cmp_lt_trans _ _ _ Erl Eli). }
        apply Hchild; [|by intros _; apply clt_cle|done].
        apply clt_cle. exact (cmp_lt_trans _ _ _ Erl Eli).
      * apply cle_of_ltb in Erl. split; [right; split_and!; try done; lia|].
        apply Hchild; [by apply clt_cle|done|done].
      * apply Nat.ltb_ge in Er. split; [right; split_and!; try done; lia|].
        apply Hchild; [by apply clt_cle|done|lia].
    + apply cle_of_ltb in Eli. fold (v h i).
      destruct (r <? length h) eqn:Er; cbn [andb]; [destruct (ltb (v h r) (v h i)) eqn:Eri|].
      * apply Nat.ltb_lt in Er. apply ltb_lt in Eri. split; [right; split_and!; try done; lia|].
        apply Hchild; [by apply clt_cle| |done]. intros _. etrans; [by apply clt_cle|done].
      * apply cle_of_ltb in Eri. split; [by left|]. by apply Hchild.
      * apply Nat.ltb_ge in Er. split; [by left|]. apply Hchild; [done|done|lia].
  - apply Nat.ltb_ge in El. assert ((r <? length h) = false) as -> by (apply Nat.ltb_ge; lia).
    cbn [andb]. split; [by left|]. apply Hchild; [done|lia..].
Qed.

(** One swap moves the hole down. *)
Lemma hole_swap k h i m :
  k <= i -> hole k h i -> i < m < length h -> parent m = i -> clt (v h m) (v h i) ->
  (forall j, 0 < j < length h -> parent j = i -> cle (v h m) (v h j)) ->
  hole k (swap h i m) m.
Proof.
  intros Hk [Hord Hgrand] Hm Hp Hlt Hmin.
  assert (forall x, v (swap h i m) x
    = if decide (x = i) then v h m else if decide (x = m) then v h i else v h x) as Hv.
  { intros x. unfold v. rewrite at_swap by lia. by repeat case_decide. }
  split; intros j Hj; rewrite length_swap in Hj; intros Hpj.
  - intros Hne. rewrite !Hv. destruct (decide (j = i)) as [->|Hji].
    + pose proof (parent_lt i ltac:(lia)). rewrite decide_False, decide_False by lia.
      apply Hgrand; [lia|done|lia|done].
    + destruct (decide (j = m)) as [->|Hjm].
      * rewrite Hp, decide_True by done. by apply clt_cle.
      * destruct (decide (parent j = i)) as [E|E]; [by apply Hmin|].
        rewrite decide_False by done. apply Hord; done.
  - intros Hm0 Hkp. rewrite !Hv, Hp. rewrite decide_True by done.
    pose proof (parent_lt j ltac:(lia)). rewrite !decide_False by lia.
    rewrite <-Hpj. apply Hord; [done|lia|lia].
Qed.

Lemma sift_down_spec fuel k h i :
  k <= i -> hole k h i -> length h - i <= fuel ->
  heap_above k (sift_down fuel h i less_by) /\ sift_down fuel h i less_by ≡ₚ h.
Proof.
  revert h i. induction fuel as [|fuel IH]; intros h i Hk Hh Hf; cbn [sift_down].
  - split; [|done]. intros j Hj Hkp. destruct Hh as [Hord _]. apply Hord; [done..|].
    pose proof (parent_lt j ltac:(lia)). lia.
  - destruct (smallest_spec h i) as [Hm Hmin]. set (m := smallest h i less_by) in *.
    destruct (Nat.eqb_spec m i) as [E|Hne].
    + split; [|done]. intros j Hj Hkp. destruct (decide (parent j = i)) as [Ep|Ep].
      * rewrite Ep, <-E at 1. by apply Hmin.
      * by apply Hh.
    + destruct Hm as [?|(Hm & Hp & Hlt)]; [done|].
      destruct (IH (swap h i m) m) as [Ha Hperm].
      * lia.
      * by apply hole_swap.
      * rewrite length_swap. lia.
      * split; [done|]. rewrite Hperm. apply swap_perm; lia.
Qed.

(** The hole left by changing or replacing the value at the root of a heap. *)
Lemma hole_root k h : heap_above (S k) h -> hole k h k.
Proof.
  intros Ha. split.
  - intros j Hj Hkp Hne. apply Ha; [done|lia].
  - intros j Hj Hp Hk Hkp. pose proof (parent_lt k Hk). lia.
Qed.

Lemma heapify_spec k h :
  heap_above k h -> heap_above 0 (heapify k h less_by) /\ heapify k h less_by ≡ₚ h.
Proof.
  revert h. induction k as [|k IH]; intros h Ha; cbn [heapify]; [done|].
  destruct (sift_down_spec (length h) k h k) as [Hs Hp]; [lia|by apply hole_root|lia|].
  destruct (IH _ Hs) as [Hz Hp0]. split; [done|]. by rewrite Hp0.
Qed.

(** Half way up there is nothing to order. *)
Lemma heap_above_half h : heap_above (length h / 2) h.
Proof.
  intros j Hj Hk. exfalso. destruct (child_parent j ltac:(lia)) as [E|E];
    pose proof (Nat.div_mod_eq (length h) 2); pose proof (Nat.mod_upper_bound (length h) 2 ltac:(lia)); lia.
Qed.

(** The root of a heap is least. *)
Lemma heap_root_min h x : heap_above 0 h -> x ∈ h -> cle (v h 0) (val x).
Proof.
  intros Ha Hx. apply list_elem_of_lookup in Hx as [j Hj].
  assert (j < length h) as Hl by (by eapply lookup_lt_Some).
  pose proof (at_lookup h j Hl) as E. rewrite E in Hj. injection Hj as <-.
  change (cle (v h 0) (v h j)). clear E. induction j as [j IH] using lt_wf_ind.
  destruct (decide (j = 0)) as [->|Hn]; [done|].
  pose proof (parent_lt j ltac:(lia)). etrans; [apply (IH (parent j)); lia|].
  apply Ha; lia.
Qed.
End heap_lemmas.

(** [heap.swap(0, end); heap.pop();]. *)
Definition pop_root (h : list nat) : list nat := removelast (swap h 0 (length h - 1)).

Lemma last_swap h top t : h = top :: t -> last (swap h 0 (length h - 1)) = Some top.
Proof.
  intros ->. rewrite last_lookup, length_swap. cbn [length].
  replace (Nat.pred (S (length t))) with (length t) by lia.
  rewrite (at_lookup (swap _ _ _)) by (rewrite length_swap; cbn; lia).
  rewrite at_swap by (cbn; lia). f_equal.
  replace (S (length t) - 1) with (length t) by lia.
  destruct (decide (length t = 0)) as [E|E]; [by rewrite E|by rewrite decide_True].
Qed.

Lemma pop_root_perm h top t : h = top :: t -> h ≡ₚ top :: pop_root h.
Proof.
  intros E. pose proof (last_split _ _ (last_swap h top t E)) as Es.
  rewrite <-(swap_perm h 0 (length h - 1)) at 1 by (subst h; cbn; lia).
  rewrite Es. unfold pop_root. rewrite Permutation_app_comm. done.
Qed.

Lemma length_pop_root h top t : h = top :: t -> length (pop_root h) = length t.
Proof. intros E. pose proof (Permutation_length (pop_root_perm h top t E)) as Hl. subst h. cbn in Hl. lia. Qed.

Lemma pop_root_at h top t k :
  h = top :: t -> 0 < k < length (pop_root h) -> at_ (pop_root h) k = at_ h k.
Proof.
  intros E Hk. pose proof (length_pop_root h top t E) as Hl.
  pose proof (last_split _ _ (last_swap h top t E)) as Es. fold (pop_root h) in Es.
  assert (at_ (swap h 0 (length h - 1)) k = at_ (pop_root h) k) as <-.
  { rewrite Es. unfold at_. apply app_nth1. lia. }
  assert (length h = S (length t)) as Hlen by (by subst h).
  rewrite at_swap by lia. by rewrite !decide_False by lia.
Qed.

(** Changing the value of the root, or popping it, leaves order below the root. *)
Section root_change.
Context {K : Type} `{CmpLaws K} (val val' : nat -> K) (h : list nat) (top : nat) (t : list nat).
Context (Hh : h = top :: t) (Hnd : NoDup h) (Hval : forall i, i <> top -> val' i = val i).
Context (Hheap : heap_above val 0 h).

Lemma not_root k : 0 < k < length h -> at_ h k <> top.
Proof.
  intros Hk E. pose proof (at_lookup h k ltac:(lia)) as Ek. rewrite E in Ek.
  assert (h !! 0 = Some top) as E0 by (by rewrite Hh).
  pose proof (NoDup_lookup h 0 k top Hnd E0 Ek). lia.
Qed.

Lemma keep_root_heap : heap_above val' 1 h.
Proof.
  intros j Hj Hp. unfold v. pose proof (parent_lt j ltac:(lia)).
  rewrite !Hval by (apply not_root; lia). apply Hheap; lia.
Qed.

Lemma pop_root_heap : heap_above val' 1 (pop_root h).
Proof.
  intros j Hj Hp. unfold v. pose proof (parent_lt j ltac:(lia)).
  pose proof (length_pop_root h top t Hh) as Hl.
  assert (length h = S (length t)) as Hlen by (by rewrite Hh).
  rewrite !(pop_root_at h top t) by (done || lia).
  rewrite !Hval by (apply not_root; lia). apply Hheap; lia.
Qed.
End root_change.
