(* ===== verification/Merge.v ===== *)
(** * Merge: sorting a flush within a memory budget ([flush/merge.rs])

    Records accumulate in a [Batch] (an arena of frames and fixed-size entries that
    point into it); over budget it is sorted and spilled as one run file per group;
    the runs and the last batch are merged k ways through a heap of source indices.

    The trait [Source] is a class with its contract, [SourceLaws]; the merge is
    verified against the contract, and the two implementations, the slice of the
    batch ([MemRun]) and the run file ([RunReader]), are shown to satisfy it in the
    files MergeProofs and BatchProofs. *)

From Stdlib Require Import ZArith Lia.
From Stdlib Require Import Strings.Byte.
From S2P Require Import Prelude Text Record Codec Disk Heap.
Open Scope Z_scope.

Definition RUNS_DIR : bytes := lit "runs".
Definition ARRIVAL_BYTES : Z := 16.
Definition runs_dir : path := [RUNS_DIR].

(** The error of a damaged run file. *)
Definition run_corrupt (what : string) : IoError := InvalidData what.

(** [(series, epoch)]. *)
Abbreviation GroupKey := (bytes * Z)%type.

(** ** The batch *)

(** [struct MemEntry]. *)
Record MemEntry := mkEntry {
  me_ts : Z;
  me_arrival : Z * Z;
  me_frame : Z;
  me_frame_len : Z;
  me_group : Z;
  me_id_off : Z;
  me_id_len : Z
}.

(** [struct Batch]. *)
Record Batch := mkBatch {
  b_arena : bytes;
  b_entries : list MemEntry;
  b_groups : list GroupKey;
  b_deduplicated : Z
}.

Definition batch_default : Batch := mkBatch [] [] [] 0.

(** [groups[i]] for an index in range. *)
Definition group_at (groups : list GroupKey) (i : Z) : GroupKey :=
  nth (Z.to_nat i) groups ([], 0).

(** [groups.iter().position(..)]. *)
Fixpoint position (key : GroupKey) (groups : list GroupKey) (i : Z) : option Z :=
  match groups with
  | [] => None
  | g :: groups' => if decide (g = key) then Some i else position key groups' (i + 1)
  end.

(** [Batch::intern]: the index of the key and the table it is in. *)
Definition intern (b : Batch) (key : GroupKey) : Z * list GroupKey :=
  let scan :=
    match position key (b_groups b) 0 with
    | Some i => (i, b_groups b)
    | None => (zlen (b_groups b ++ [key]) - 1, b_groups b ++ [key])
    end in
  match last (b_entries b) with
  | Some e => if decide (group_at (b_groups b) (me_group e) = key)
              then (me_group e, b_groups b) else scan
  | None => scan
  end.

(** [Batch::push]. The id is a subslice of the frame: its offset there and its
    length, both stored in 16 bits. *)
Definition push (b : Batch) (group : GroupKey) (ts : Z) (id_off id_len : Z)
    (arrival : Z * Z) (frame : bytes) : Batch :=
  let '(g, groups) := intern b group in
  let entry := mkEntry ts arrival (zlen (b_arena b)) (zlen frame mod u32_lim) g
                 (id_off mod u16_lim) (id_len mod u16_lim) in
  mkBatch (b_arena b ++ frame) (b_entries b ++ [entry]) groups (b_deduplicated b).

(** [size_of::<MemEntry>()]: 44 bytes of fields at alignment 8. *)
Definition ENTRY_BYTES : Z := 48.

Definition batch_bytes (b : Batch) : Z := zlen (b_arena b) + zlen (b_entries b) * ENTRY_BYTES.

Definition batch_is_empty (b : Batch) : bool := (zlen (b_entries b) =? 0).

(** [Batch::id]. *)
Definition entry_id (arena : bytes) (e : MemEntry) : bytes :=
  let start := me_frame e + me_id_off e in slice start (start + me_id_len e) arena.

Definition entry_frame (arena : bytes) (e : MemEntry) : bytes :=
  slice (me_frame e) (me_frame e + me_frame_len e) arena.

(** The [order] table of [Batch::sort]: the rank of each group's key. *)
Definition rank (groups : list GroupKey) : list nat :=
  sort_by_key (fun i => nth i groups ([], 0)) (seq 0 (length groups)).

Definition order_table (groups : list GroupKey) : list Z :=
  foldl (fun order p => <[p.2 := Z.of_nat p.1]> order)
    (replicate (length groups) 0) (imap pair (rank groups)).

Definition order_at (groups : list GroupKey) (g : Z) : Z :=
  nth (Z.to_nat g) (order_table groups) 0.

Definition sort_key (b : Batch) (e : MemEntry) : Z * Z * bytes * (Z * Z) :=
  (order_at (b_groups b) (me_group e), me_ts e, entry_id (b_arena b) e, me_arrival e).

(** The closure of [dedup_by]. *)
Definition same_record (arena : bytes) (later first : MemEntry) : bool :=
  (me_group later =? me_group first) && (me_ts later =? me_ts first)
  && bool_decide (entry_id arena later = entry_id arena first).

(** [Batch::sort]. *)
Definition batch_sort (b : Batch) : Batch :=
  let sorted := sort_by_key (sort_key b) (b_entries b) in
  let kept := dedup_by (same_record (b_arena b)) sorted in
  mkBatch (b_arena b) kept (b_groups b) (b_deduplicated b + (zlen sorted - zlen kept)).

(** [Batch::group_ranges], each range as the entries in it: the leading run of one
    group, then the rest. *)
Fixpoint take_group (g : Z) (l : list MemEntry) : list MemEntry * list MemEntry :=
  match l with
  | [] => ([], [])
  | e :: l' =>
      if me_group e =? g then let '(run, rest) := take_group g l' in (e :: run, rest)
      else ([], l)
  end.

Fixpoint group_ranges (fuel : nat) (groups : list GroupKey) (l : list MemEntry)
    : list (GroupKey * list MemEntry) :=
  match fuel, l with
  | S fuel', e :: _ =>
      let '(run, rest) := take_group (me_group e) l in
      (group_at groups (me_group e), run) :: group_ranges fuel' groups rest
  | _, _ => []
  end.

Definition batch_ranges (b : Batch) : list (GroupKey * list MemEntry) :=
  group_ranges (length (b_entries b)) (b_groups b) (b_entries b).

(** ** Run files *)

(** [Spill::next_path] with the counter at [n]. *)
Definition next_path (n : nat) : path :=
  runs_dir ++ [show_pad 10 (Z.of_nat n + 1) ++ lit ".run"].

(** The bytes of one run entry ([RunWriter::push]). *)
Definition run_entry (arrival : Z * Z) (frame : bytes) : bytes :=
  le_bytes 8 arrival.1 ++ le_bytes 8 arrival.2 ++ frame.

(** [struct RunWriter]: the path, what has been written so far, and the count. The
    buffer reaches the file on each write here; a stop leaves a prefix either way. *)
Record RunWriter := mkRunWriter { rw_path : path; rw_data : bytes; rw_entries : Z }.

Definition run_create (p : path) : io RunWriter :=
  try (write_file p []) ;; mret (mkRunWriter p [] 0).

Definition run_push (w : RunWriter) (arrival : Z * Z) (frame : bytes) : io RunWriter :=
  let data := rw_data w ++ run_entry arrival frame in
  try (write_file (rw_path w) data) ;;
  mret (mkRunWriter (rw_path w) data (rw_entries w + 1)).

Definition run_finish (w : RunWriter) : io Z := try (Call (FlushFile (rw_path w))) ;; mret (rw_entries w).

(** ** Sources *)

(** [struct Head]. *)
Record Head := mkHead {
  h_ts : Z;
  h_id : bytes;
  h_arrival : Z * Z;
  h_frame : bytes
}.

(** [Head::key]. *)
Definition head_key (h : Head) : Z * bytes * (Z * Z) := (h_ts h, h_id h, h_arrival h).

Definition no_head : Head := mkHead 0 [] (0, 0) [].

(** [trait Source]; [src_size] bounds the records left and is only used as fuel. *)
Class Source (S : Type) := {
  src_head : S -> Head;
  src_advance : S -> io (S * bool);
  src_size : S -> nat
}.

(** [struct MemRun]. *)
Record MemRun := mkMemRun { mr_arena : bytes; mr_entries : list MemEntry; mr_pos : nat }.

Definition entry_head (arena : bytes) (e : MemEntry) : Head :=
  mkHead (me_ts e) (entry_id arena e) (me_arrival e) (entry_frame arena e).

Definition mem_head (m : MemRun) : Head :=
  match mr_entries m !! mr_pos m with
  | Some e => entry_head (mr_arena m) e
  | None => no_head
  end.

Definition mem_advance (m : MemRun) : io (MemRun * bool) :=
  let m' := mkMemRun (mr_arena m) (mr_entries m) (mr_pos m + 1) in
  mret (m', (mr_pos m' <? length (mr_entries m'))%nat).

#[export] Instance mem_source : Source MemRun := {
  src_head := mem_head;
  src_advance := mem_advance;
  src_size m := (length (mr_entries m) - mr_pos m)%nat
}.

(** [struct RunReader]: the unread bytes of the open file and the current entry. *)
Record RunReader := mkRunReader {
  rr_input : bytes;
  rr_ts : Z;
  rr_arrival : Z * Z;
  rr_frame : bytes;
  rr_id : bytes
}.

(** A read of an open file; only the script decides whether it fails. *)
Definition read_tick : io (result IoError unit) := Call ReadTick.

(** [read_exact_or_eof]: the first [n] bytes and the rest, [None] at a clean end. *)
Definition read_exact_or_eof (input : bytes) (n : Z) : io (result IoError (option (bytes * bytes))) :=
  r ← read_tick;
  match r with
  | Err e => mret (Err e)
  | Ok _ =>
      if zlen input =? 0 then mret (Ok None)
      else if zlen input <? n then mret (Err (OtherIo "truncated entry"))
      else mret (Ok (Some (take (Z.to_nat n) input, drop (Z.to_nat n) input)))
  end.

(** [Read::read_exact]. *)
Definition read_exact (input : bytes) (n : Z) : io (result IoError (bytes * bytes)) :=
  r ← read_tick;
  match r with
  | Err e => mret (Err e)
  | Ok _ =>
      if zlen input <? n then mret (Err (OtherIo "failed to fill whole buffer"))
      else mret (Ok (take (Z.to_nat n) input, drop (Z.to_nat n) input))
  end.

(** [.map_err(|e| corrupt(&self.path, e))?]. *)
Definition corrupt_on_err {A : Type} (m : io (result IoError A)) : io A :=
  r ← m;
  match r with
  | Ok a => mret a
  | Err _ => throw (Io (run_corrupt "run file"))
  end.

Definition read_next (r : RunReader) : io (RunReader * bool) :=
  h ← corrupt_on_err (read_exact_or_eof (rr_input r) (ARRIVAL_BYTES + FRAME_HEADER_BYTES));
  match h with
  | None => mret (r, false)
  | Some (head, input) =>
      let seg := le_val (slice 0 8 head) in
      let off := le_val (slice 8 16 head) in
      let len := le_val (slice 16 20 head) in
      b ← corrupt_on_err (read_exact input len);
      let '(payload, input) := b in
      let frame := drop (Z.to_nat ARRIVAL_BYTES) head ++ payload in
      match verified_sort_key frame with
      | Err _ => throw (Io (run_corrupt "run file"))
      | Ok (ts, id, _) => mret (mkRunReader input ts (seg, off) frame id, true)
      end
  end.

(** [RunReader::open]: the content is read through the handle, so it is what the file
    holds when it is opened. *)
Definition run_open (p : path) : io (option RunReader) :=
  input ← try (read_file p);
  '(r, more) ← read_next (mkRunReader input 0 (0, 0) [] []);
  mret (if more : bool then Some r else None).

#[export] Instance run_source : Source RunReader := {
  src_head r := mkHead (rr_ts r) (rr_id r) (rr_arrival r) (rr_frame r);
  src_advance := read_next;
  src_size r := S (length (rr_input r))
}.

(** [Box<dyn Source>]: one of the two. *)
#[export] Instance boxed_source : Source (RunReader + MemRun) := {
  src_head s := match s with inl r => src_head r | inr m => src_head m end;
  src_advance s :=
    match s with
    | inl r => '(r', more) ← src_advance r; mret (inl r', more)
    | inr m => '(m', more) ← src_advance m; mret (inr m', more)
    end;
  src_size s := match s with inl r => src_size r | inr m => src_size m end
}.

(** ** The merge *)

(** [struct MergeStats]. *)
Record MergeStats := mkStats { emitted : Z; deduplicated : Z }.

Definition stats_default : MergeStats := mkStats 0 0.

(** The key of source [i]; the indices of the heap are in range. *)
Definition key_at {S : Type} `{Source S} (sources : list S) (i : nat) : Z * bytes * (Z * Z) :=
  head_key (match sources !! i with Some s => src_head s | None => no_head end).

Definition less {S : Type} `{Source S} (sources : list S) (a b : nat) : bool :=
  ltb (key_at sources a) (key_at sources b).

(** The fuel of the merge loop is enough for sources that keep their contract. *)
Definition out_of_fuel : Error := ConfigErr "merge loop out of fuel".

Definition is_duplicate (last : option (Z * bytes)) (head : Head) : bool :=
  match last with
  | Some (ts, id) => (ts =? h_ts head) && bool_decide (id = h_id head)
  | None => false
  end.

Section merge.
Context {S A : Type} `{Source S} (sink : Head -> A -> io A).

(** [while let Some(&top) = heap.first()]. *)
Fixpoint merge_loop (fuel : nat) (sources : list S) (heap : list nat) (stats : MergeStats)
    (last : option (Z * bytes)) (a : A) : io (MergeStats * A) :=
  match fuel with
  | O => throw out_of_fuel
  | Datatypes.S fuel' =>
      match heap with
      | [] => mret (stats, a)
      | top :: _ =>
          match sources !! top with
          | None => throw out_of_fuel
          | Some src =>
              let head := src_head src in
              step ← (if is_duplicate last head
                      then mret (mkStats (emitted stats) (deduplicated stats + 1), last, a)
                      else a' ← sink head a;
                           mret (mkStats (emitted stats + 1) (deduplicated stats),
                                 Some (h_ts head, h_id head), a'));
              let '(stats, last, a) := step in
              adv ← src_advance src;
              let '(src', more) := adv in
              let sources := <[top := src']> sources in
              let heap := if more : bool then heap else pop_root heap in
              let heap := sift_down (length heap) heap 0 (less sources) in
              merge_loop fuel' sources heap stats last a
          end
      end
  end.

Definition merge (sources : list S) (a : A) : io (MergeStats * A) :=
  let heap := heapify (length sources / 2) (seq 0 (length sources)) (less sources) in
  merge_loop (Datatypes.S (sum_list (src_size <$> sources))) sources heap stats_default None a.
End merge.

(** [open_runs]: empty runs are left out. *)
Fixpoint open_runs (runs : list path) : io (list (RunReader + MemRun)) :=
  match runs with
  | [] => mret []
  | p :: runs' =>
      r ← run_open p;
      rest ← open_runs runs';
      mret (match r with Some r => inl r :: rest | None => rest end)
  end.

(** [fs::metadata(p).map_or(0, |m| m.len())] of each run. *)
Fixpoint run_sizes (runs : list path) : io (list (Z * path)) :=
  match runs with
  | [] => mret []
  | p :: runs' =>
      r ← file_len p;
      rest ← run_sizes runs';
      mret ((match r with Ok n => n | Err _ => 0 end, p) :: rest)
  end.

(** [let _ = remove_file(p)] for each. *)
Definition remove_quietly (p : path) : io unit := _ ← remove_file p; mret tt.

Section merge_bounded.
(** [next_run]: the path of the [n]-th new run. *)
Context {A : Type} (next_run : nat -> path) (sink : Head -> A -> io A).

(** One round of pre-merging: the smallest [take] runs into a new one. *)
Definition premerge (runs : list path) (take_ : nat) (n : nat) : io (list path * Z) :=
  sized ← run_sizes runs;
  let runs := snd <$> sort_by_key fst sized in
  let batch := take take_ runs in
  let p := next_run n in
  out ← run_create p;
  sources ← open_runs batch;
  r ← merge (fun h w => run_push w (h_arrival h) (h_frame h)) sources out;
  let '(stats, out) := r in
  _ ← run_finish out;
  io_each remove_quietly batch ;;
  mret (drop take_ runs ++ [p], deduplicated stats).

(** [while runs.len() + in_memory > fan_in]; each round leaves fewer runs, so the
    number of runs is enough fuel. *)
Fixpoint premerge_loop (fuel : nat) (runs : list path) (in_memory fan_in : nat)
    (n : nat) (dedup : Z) : io (list path * nat * Z) :=
  if (fan_in <? length runs + in_memory)%nat then
    match fuel with
    | O => throw out_of_fuel
    | S fuel' =>
        let take_ := Nat.min (length runs + in_memory - fan_in + 1) fan_in in
        r ← premerge runs take_ n;
        let '(runs, d) := r in
        premerge_loop fuel' runs in_memory fan_in (n + 1) (dedup + d)
    end
  else mret (runs, n, dedup).

Definition merge_bounded (runs : list path) (memory : option MemRun) (fan_in n : nat) (a : A)
    : io (MergeStats * nat * A) :=
  let fan_in := Nat.max fan_in 2 in
  let in_memory := match memory with Some _ => 1%nat | None => 0%nat end in
  p ← premerge_loop (length runs) runs in_memory fan_in n 0;
  let '(runs, n, dedup) := p in
  disk ← open_runs runs;
  let sources := disk ++ match memory with Some m => [inr m] | None => [] end in
  r ← merge sink sources a;
  let '(stats, a) := r in
  mret (mkStats (emitted stats) (deduplicated stats + dedup), n, a).
End merge_bounded.

(** [Batch::spill]: the runs written, and the emptied batch; [new_path] is the argument
    [next_path] of the source. *)
Section spill.
Context (new_path : nat -> path).

Fixpoint write_run (arena : bytes) (w : RunWriter) (entries : list MemEntry) : io RunWriter :=
  match entries with
  | [] => mret w
  | e :: entries' =>
      w' ← run_push w (me_arrival e) (entry_frame arena e);
      write_run arena w' entries'
  end.

Fixpoint spill_groups (arena : bytes) (ranges : list (GroupKey * list MemEntry)) (n : nat)
    : io (list (GroupKey * path) * nat) :=
  match ranges with
  | [] => mret ([], n)
  | (key, entries) :: ranges' =>
      let p := new_path n in
      w ← run_create p;
      w ← write_run arena w entries;
      _ ← run_finish w;
      r ← spill_groups arena ranges' (n + 1);
      let '(out, n') := r in
      mret ((key, p) :: out, n')
  end.

Definition spill (b : Batch) (n : nat) : io (list (GroupKey * path) * Batch * nat) :=
  let b := batch_sort b in
  r ← spill_groups (b_arena b) (batch_ranges b) n;
  let '(out, n') := r in
  mret (out, mkBatch [] [] [] (b_deduplicated b), n').
End spill.

(** [Batch::into_sources]: the sorted batch and one source per group. *)
Definition into_sources (b : Batch) : Batch * list (GroupKey * MemRun) :=
  let b := batch_sort b in
  (b, (fun '(key, entries) => (key, mkMemRun (b_arena b) entries 0)) <$> batch_ranges b).
