(* ===== verification/MergeProofs.v ===== *)
(** * MergeProofs: the merge against the contract of its sources

    [SourceLaws] is what the merge asks of a [Source]: it is positioned on a list of
    records, [advance] moves to the next one, and reading changes no file. Under that
    contract the k-way merge delivers to its sink exactly the sorted, deduplicated
    union of its inputs. *)

From Stdlib Require Import ZArith Lia.
From Stdlib Require Import Strings.Byte.
From S2P Require Import Prelude Text Record Codec Disk Heap Merge.
Open Scope Z_scope.

(** ** The contract *)

Class SourceLaws (S : Type) `{Source S} := {
  (** [s] stands on the first record of a non-empty list. *)
  streams : S -> list Head -> Prop;
  streams_head : forall s l, streams s l -> exists rest, l = src_head s :: rest;
  streams_advance : forall s h rest, streams s (h :: rest) ->
    exists s', (forall fs, runs (src_advance s) fs fs (Ret (s', negb (bool_decide (rest = []))))) /\
      (rest <> [] -> streams s' rest);
  advance_constant : forall s, constant (src_advance s);
  streams_size : forall s l, streams s l -> (length l <= src_size s)%nat;
  advance_keeps : forall s (P : Files -> Prop), triple P (src_advance s) P (fun _ => P)
}.

(** ** The specification *)

(** The identity of a record: one row per timestamp and id. *)
Definition row_key (h : Head) : Z * bytes := (h_ts h, h_id h).

(** The records of [l] in order, the first arrival of each row. *)
Definition merged (l : list Head) : list Head := dedup_sort row_key h_arrival l.

(** Timestamp, id and arrival identify a record of [l]. *)
Definition arrivals_unique (l : list Head) : Prop := full_inj row_key h_arrival l.

Definition sorted_heads (l : list Head) : Prop := StronglySorted (key_le head_key) l.

(** Deliver a list to a sink. *)
Fixpoint io_fold {A : Type} (sink : Head -> A -> io A) (l : list Head) (a : A) : io A :=
  match l with
  | [] => mret a
  | h :: l' => a' ← sink h a; io_fold sink l' a'
  end.

(** ** Lemmas *)

Lemma merged_eq l :
  merged l = dedup_by (fun x y => eqb (row_key x) (row_key y)) (sort_by_key head_key l).
Proof. reflexivity. Qed.

(** Deduplication against the last row delivered. *)
Fixpoint dedup_last (last : option (Z * bytes)) (l : list Head) : list Head :=
  match l with
  | [] => []
  | h :: l' =>
      if is_duplicate last h then dedup_last last l'
      else h :: dedup_last (Some (row_key h)) l'
  end.

Lemma is_duplicate_eqb x h : is_duplicate (Some (row_key x)) h = eqb (row_key h) (row_key x).
Proof.
  unfold is_duplicate, row_key.
  destruct (eqb (h_ts h, h_id h) (h_ts x, h_id x)) eqn:E.
  - apply eqb_eq in E. injection E as <- <-. by rewrite Z.eqb_refl, bool_decide_eq_true_2.
  - apply eqb_neq in E. apply andb_false_iff.
    destruct (Z.eqb_spec (h_ts x) (h_ts h)) as [Et|]; [right|by left].
    apply bool_decide_eq_false. congruence.
Qed.

Lemma dedup_last_from x l :
  dedup_last (Some (row_key x)) l = dedup_from (fun x y => eqb (row_key x) (row_key y)) x l.
Proof.
  revert x. induction l as [|h l IH]; intros x; cbn [dedup_last dedup_from]; [done|].
  rewrite is_duplicate_eqb. destruct (eqb _ _); [done|]. f_equal. apply IH.
Qed.

Lemma dedup_last_none l :
  dedup_last None l = dedup_by (fun x y => eqb (row_key x) (row_key y)) l.
Proof. destruct l as [|h l]; [done|]. cbn. f_equal. apply dedup_last_from. Qed.

Lemma length_dedup_last last l : (length (dedup_last last l) <= length l)%nat.
Proof.
  revert last. induction l as [|h l IH]; intros last; cbn; [done|].
  destruct (is_duplicate last h); cbn; [etrans; [apply IH|lia]|apply le_n_S, IH].
Qed.

Lemma sort_perm_eq {A K} `{CmpLaws K} (f : A -> K) (l l' : list A) :
  (forall x y, x ∈ l -> y ∈ l -> f x = f y -> x = y) -> l ≡ₚ l' ->
  sort_by_key f l = sort_by_key f l'.
Proof.
  intros Hinj Hp. apply sort_unique; [done|by rewrite sort_perm|apply sort_sorted].
Qed.

Lemma runs_eq {A : Type} (m : io A) w fs' r :
  script w = [] -> runs m (files w) fs' r -> m w = (mkWorld fs' [], r).
Proof. destruct w as [fs s]. cbn. by intros ->. Qed.

Lemma world_eta w : script w = [] -> w = mkWorld (files w) [].
Proof. destruct w. cbn. by intros ->. Qed.

Lemma concat_update {A} (L L' : nat -> list A) t top :
  NoDup (top :: t) -> (forall i, i <> top -> L' i = L i) -> L' <$> t = L <$> t.
Proof.
  intros Hnd HL. apply NoDup_cons in Hnd as [Hn _]. apply list_fmap_ext. intros k i Hi.
  apply HL. intros ->. apply Hn. apply list_elem_of_lookup. eauto.
Qed.

Lemma concat_perm {A} (ls ls' : list (list A)) : ls ≡ₚ ls' -> concat ls ≡ₚ concat ls'.
Proof.
  induction 1 as [|l ls ls' _ IH|l l' ls|ls1 ls2 ls3 _ IH1 _ IH2]; cbn; [done| | |].
  - by rewrite IH.
  - rewrite !app_assoc. by rewrite (Permutation_app_comm l l').
  - by rewrite IH1.
Qed.

(** ** The merge loop *)

Section loop.
Context {S : Type} `{SourceLaws S}.

(** The state of the loop: the heap holds the active sources once each, ordered by
    their heads, and source [i] stands on the sorted list [L i]. *)
Record loop_inv (sources : list S) (heap : list nat) (L : nat -> list Head) : Prop := {
  inv_nodup : NoDup heap;
  inv_streams : forall i, i ∈ heap -> exists s, sources !! i = Some s /\ streams s (L i);
  inv_heap : heap_above (key_at sources) 0 heap;
  inv_sorted : forall i, i ∈ heap -> sorted_heads (L i);
  inv_unique : arrivals_unique (concat (L <$> heap))
}.

Definition left_over (heap : list nat) (L : nat -> list Head) : list Head := concat (L <$> heap).

Lemma inv_key sources heap L i :
  loop_inv sources heap L -> i ∈ heap ->
  exists h rest, L i = h :: rest /\ key_at sources i = head_key h.
Proof.
  intros Hinv Hi. destruct (inv_streams _ _ _ Hinv i Hi) as (s & Hs & Hst).
  destruct (streams_head s _ Hst) as [rest ->]. exists (src_head s), rest.
  split; [done|]. unfold key_at. by rewrite Hs.
Qed.

(** The head of the top source is least among everything left. *)
Lemma top_least sources top t L s rest :
  loop_inv sources (top :: t) L -> sources !! top = Some s -> L top = src_head s :: rest ->
  forall y, y ∈ left_over (top :: t) L -> cle (head_key (src_head s)) (head_key y).
Proof.
  intros Hinv Hs HL y Hy. unfold left_over in Hy. apply list_elem_of_In, in_concat in Hy
    as (l & Hl & Hyl). apply list_elem_of_In in Hl, Hyl.
  apply list_elem_of_fmap in Hl as (i & -> & Hi).
  destruct (inv_key _ _ _ i Hinv Hi) as (h & r & Ei & Ek).
  pose proof (heap_root_min (key_at sources) (top :: t) i (inv_heap _ _ _ Hinv) Hi) as Hmin.
  unfold v in Hmin. cbn in Hmin. rewrite Ek in Hmin. unfold key_at in Hmin. rewrite Hs in Hmin.
  etrans; [exact Hmin|]. pose proof (inv_sorted _ _ _ Hinv i Hi) as Hsort. rewrite Ei in Hsort, Hyl.
  apply elem_of_cons in Hyl as [->|Hyl]; [done|].
  apply StronglySorted_cons in Hsort as [Hf _]. rewrite Forall_forall in Hf. by apply Hf.
Qed.

(** The heap before the sift: the top source stays while it has records left. *)
Definition next_heap (top : nat) (t : list nat) (rest : list Head) : list nat :=
  if negb (bool_decide (rest = [])) then top :: t else pop_root (top :: t).

Lemma next_heap_perm top t rest :
  next_heap top t rest ≡ₚ if decide (rest = []) then t else top :: t.
Proof.
  unfold next_heap. destruct (decide (rest = [])) as [->|Hne].
  - pose proof (pop_root_perm (top :: t) top t eq_refl) as Hpop.
    apply Permutation_cons_inv in Hpop. by rewrite bool_decide_eq_true_2.
  - by rewrite bool_decide_eq_false_2.
Qed.

Lemma next_heap_above sources top t L s' rest :
  loop_inv sources (top :: t) L ->
  heap_above (key_at (<[top := s']> sources)) 1 (next_heap top t rest).
Proof.
  intros Hinv.
  assert (forall i, i <> top -> key_at (<[top := s']> sources) i = key_at sources i) as Hkey.
  { intros i Hi. unfold key_at. by rewrite list_lookup_insert_ne. }
  destruct Hinv as [Hnd _ Hheap _ _]. unfold next_heap. destruct (negb _).
  - by apply (keep_root_heap (key_at sources) _ _ top t).
  - by apply (pop_root_heap (key_at sources) _ _ top t).
Qed.

(** What is left after the head of the top source is gone. *)
Definition drop_head (L : nat -> list Head) (top : nat) (rest : list Head) : nat -> list Head :=
  fun i => if decide (i = top) then rest else L i.

Lemma left_over_step heap' top t L h rest :
  NoDup (top :: t) -> L top = h :: rest -> heap' ≡ₚ next_heap top t rest ->
  h :: left_over heap' (drop_head L top rest) ≡ₚ left_over (top :: t) L.
Proof.
  intros Hnd HL Hp.
  assert (drop_head L top rest <$> t = L <$> t) as Et.
  { apply (concat_update L _ t top Hnd). intros i Hi. unfold drop_head. by rewrite decide_False. }
  unfold left_over at 2. cbn [fmap list_fmap concat]. rewrite HL. cbn [app]. constructor.
  rewrite <-Et. unfold left_over.
  rewrite (concat_perm _ (drop_head L top rest <$> next_heap top t rest)) by (by rewrite Hp).
  rewrite (concat_perm _ _ (fmap_Permutation _ _ _ (next_heap_perm top t rest))).
  destruct (decide (rest = [])) as [->|Hne]; [done|]. cbn. unfold drop_head at 1.
  by rewrite decide_True.
Qed.

(** One step: the invariant after consuming the head of the top source. *)
Lemma inv_step sources top t L s s' rest :
  loop_inv sources (top :: t) L -> sources !! top = Some s -> L top = src_head s :: rest ->
  (rest <> [] -> streams s' rest) ->
  let sources' := <[top := s']> sources in
  let heap1 := next_heap top t rest in
  let heap' := sift_down (length heap1) heap1 0 (less sources') in
  loop_inv sources' heap' (drop_head L top rest) /\
  src_head s :: left_over heap' (drop_head L top rest) ≡ₚ left_over (top :: t) L.
Proof.
  intros Hinv Hs HL Hst sources' heap1 heap'.
  destruct (sift_down_spec (key_at sources') (length heap1) 0 heap1 0) as [Hh' Hp'];
    [lia|by apply hole_root, (next_heap_above sources top t L)|lia|].
  change (less_by (key_at sources')) with (less sources') in Hh', Hp'. fold heap' in Hh', Hp'.
  pose proof (inv_nodup _ _ _ Hinv) as Hnd.
  pose proof (left_over_step heap' top t L _ rest Hnd HL Hp') as Hperm.
  assert (heap' ≡ₚ if decide (rest = []) then t else top :: t) as Hp2
    by (rewrite Hp'; apply next_heap_perm).
  assert (forall i, i ∈ heap' -> i ∈ top :: t /\ (i = top -> rest <> [])) as Hin.
  { intros i Hi. rewrite Hp2 in Hi. destruct (decide (rest = [])); [|done].
    split; [set_solver|]. intros ->. by apply NoDup_cons in Hnd as [Hn _]. }
  split; [|done]. split.
  - rewrite Hp2. destruct (decide _); [|done]. by apply NoDup_cons in Hnd as [_ ?].
  - intros i Hi. destruct (Hin i Hi) as [Hit Hr]. unfold drop_head, sources'.
    destruct (decide (i = top)) as [->|Hne].
    + exists s'. rewrite list_lookup_insert_eq by (by eapply lookup_lt_Some). auto.
    + rewrite list_lookup_insert_ne by done. by apply (inv_streams _ _ _ Hinv).
  - done.
  - intros i Hi. destruct (Hin i Hi) as [Hit _]. unfold drop_head.
    pose proof (inv_sorted _ _ _ Hinv i Hit) as Hsort. destruct (decide (i = top)) as [->|Hne]; [|done].
    rewrite HL in Hsort. by apply StronglySorted_cons in Hsort as [_ ?].
  - intros x y Hx Hy. apply (inv_unique _ _ _ Hinv); fold (left_over (top :: t) L);
      rewrite <-Hperm; set_solver.
Qed.

(** The statistics after delivering [out] of [n] records. *)
Definition add_stats (st : MergeStats) (n out : nat) : MergeStats :=
  mkStats (emitted st + Z.of_nat out) (deduplicated st + (Z.of_nat n - Z.of_nat out)).

Context {A : Type} (sink : Head -> A -> io A).

(** The loop delivers what is left, sorted and deduplicated against the last row. *)
Lemma merge_loop_spec fuel sources heap L st last a w :
  loop_inv sources heap L -> (length (left_over heap L) < fuel)%nat -> script w = [] ->
  let out := dedup_last last (sort_by_key head_key (left_over heap L)) in
  merge_loop sink fuel sources heap st last a w
  = (a' ← io_fold sink out a; mret (add_stats st (length (left_over heap L)) (length out), a')) w.
Proof.
  revert sources heap L st last a w.
  induction fuel as [|fuel IH]; intros sources heap L st last a w Hinv Hf Hw out; [lia|].
  destruct heap as [|top t].
  { cbn. destruct st. unfold add_stats. cbn.
    by rewrite !Z.add_0_r. }
  destruct (inv_streams _ _ _ Hinv top ltac:(set_solver)) as (s & Hs & Hst).
  destruct (streams_head s _ Hst) as [rest HL]. rewrite HL in Hst.
  destruct (streams_advance s _ rest Hst) as (s' & Hadv & Hst').
  destruct (inv_step sources top t L s s' rest Hinv Hs HL Hst') as [Hinv' Hperm].
  set (heap' := sift_down (length (next_heap top t rest)) (next_heap top t rest) 0
    (less (<[top := s']> sources))) in *.
  set (L' := drop_head L top rest) in *.
  assert (sort_by_key head_key (left_over (top :: t) L)
    = src_head s :: sort_by_key head_key (left_over heap' L')) as Esort.
  { apply sort_min; [exact (inv_unique _ _ _ Hinv)|by rewrite Hperm|]. by eapply top_least. }
  pose proof (Permutation_length Hperm) as Hlen. cbn [length] in Hlen.
  assert (forall st last a w, script w = [] ->
    (adv ← src_advance s;
     let '(src', more) := adv in
     let sources := <[top := src']> sources in
     let heap := if more : bool then top :: t else pop_root (top :: t) in
     let heap := sift_down (length heap) heap 0 (less sources) in
     merge_loop sink fuel sources heap st last a) w
    = let out := dedup_last last (sort_by_key head_key (left_over heap' L')) in
      (a' ← io_fold sink out a;
       mret (add_stats st (length (left_over heap' L')) (length out), a')) w) as Hnext.
  { intros st1 last1 a1 w1 Hw1. rewrite exec_bind.
    rewrite (runs_eq _ w1 _ _ Hw1 (Hadv (files w1))). rewrite <-(world_eta w1 Hw1).
    apply (IH _ heap' L'); [done|lia|done]. }
  unfold out. rewrite Esort. cbn [merge_loop dedup_last]. rewrite Hs. clear out.
  destruct (is_duplicate last (src_head s)); rewrite exec_bind.
  - rewrite exec_ret, Hnext by done. cbv zeta. rewrite !exec_bind. destruct (io_fold _ _ _ _) as [w' [a'| |]]; [|done..].
    rewrite !exec_ret. do 3 f_equal. unfold add_stats. cbn [emitted deduplicated length]. f_equal; lia.
  - cbn [io_fold length]. rewrite !exec_bind.
    pose proof (proj1 (exec_steady (sink (src_head s) a) w Hw)) as Hq.
    destruct (sink (src_head s) a w) as [w1 [a1| |]]; [|done..]. cbn in Hq.
    rewrite exec_ret, Hnext by done. cbv zeta. rewrite exec_bind. destruct (io_fold _ _ _ _) as [w' [a'| |]]; [|done..].
    rewrite !exec_ret. do 3 f_equal. unfold add_stats, row_key. cbn [emitted deduplicated length]. f_equal; lia.
Qed.
End loop.

(** ** The whole merge *)

Section merge_spec.
Context {S A : Type} `{SourceLaws S} (sink : Head -> A -> io A).
Context (sources : list S) (ls : list (list Head)).
Context (Hstreams : Forall2 streams sources ls).
Context (Hsorted : Forall sorted_heads ls) (Hunique : arrivals_unique (concat ls)).

Definition stream_of (i : nat) : list Head := default [] (ls !! i).

Lemma stream_of_seq : stream_of <$> seq 0 (length sources) = ls.
Proof.
  rewrite (Forall2_length _ _ _ Hstreams). apply list_eq. intros i. rewrite list_lookup_fmap.
  destruct (decide (i < length ls)%nat) as [Hi|Hi].
  - rewrite lookup_seq_lt by done. cbn. unfold stream_of. cbn.
    by destruct (lookup_lt_is_Some_2 ls i Hi) as [l ->].
  - rewrite lookup_seq_ge by lia. symmetry. apply lookup_ge_None. lia.
Qed.

Lemma size_bound : (length (concat ls) <= sum_list (src_size <$> sources))%nat.
Proof.
  clear -Hstreams. induction Hstreams as [|s l sources ls Hs Hr IH]; cbn; [done|].
  rewrite length_app. pose proof (streams_size s l Hs). specialize (IH Hr). lia.
Qed.

Lemma start_inv :
  let heap := heapify (length sources / 2) (seq 0 (length sources)) (less sources) in
  loop_inv sources heap stream_of /\ left_over heap stream_of ≡ₚ concat ls.
Proof.
  intros heap.
  destruct (heapify_spec (key_at sources) (length sources / 2) (seq 0 (length sources)))
    as [Hh Hp].
  { pose proof (heap_above_half (key_at sources) (seq 0 (length sources))) as Hhalf.
    by rewrite length_seq in Hhalf. }
  change (less_by (key_at sources)) with (less sources) in Hh, Hp. fold heap in Hh, Hp.
  assert (left_over heap stream_of ≡ₚ concat ls) as Hl.
  { unfold left_over. rewrite <-stream_of_seq. apply concat_perm. by rewrite Hp. }
  assert (forall i, i ∈ heap -> exists s l, sources !! i = Some s /\ stream_of i = l /\
    streams s l /\ sorted_heads l) as Hi.
  { intros i Hi. rewrite Hp in Hi. apply elem_of_seq in Hi as [_ Hi].
    destruct (lookup_lt_is_Some_2 sources i ltac:(lia)) as [s Hs].
    destruct (Forall2_lookup_l _ _ _ _ _ Hstreams Hs) as (l & Hlk & Hst).
    exists s, l. unfold stream_of. rewrite Hlk. split_and!; [done..|].
    by eapply Forall_lookup_1. }
  split; [|done]. split.
  - rewrite Hp. apply NoDup_seq.
  - intros i Hin. destruct (Hi i Hin) as (s & l & Hs & -> & Hst & _). eauto.
  - done.
  - intros i Hin. by destruct (Hi i Hin) as (s & l & Hs & -> & Hst & ?).
  - intros x y Hx Hy. unfold left_over in Hl. rewrite Hl in Hx, Hy. by apply Hunique.
Qed.

Lemma merge_spec a w :
  script w = [] ->
  merge sink sources a w
  = (a' ← io_fold sink (merged (concat ls)) a;
     mret (add_stats stats_default (length (concat ls)) (length (merged (concat ls))), a')) w.
Proof.
  intros Hw. destruct start_inv as [Hinv Hp]. unfold merge.
  rewrite (merge_loop_spec sink _ _ _ stream_of) by
    (done || (rewrite Hp; pose proof size_bound; lia)).
  rewrite dedup_last_none, (sort_perm_eq head_key _ (concat ls)); [|exact (inv_unique _ _ _ Hinv)|done].
  rewrite <-merged_eq. by rewrite (Permutation_length Hp).
Qed.
End merge_spec.
