(* ===== verification/Sources.v ===== *)
(** * Sources: the two implementations of [Source] keep the contract

    [MemRun] walks a slice of the batch's entries; [RunReader] parses a run file. A
    run file is the concatenation of its entries, and reading it yields them back. *)

From Stdlib Require Import ZArith Lia.
From Stdlib Require Import Strings.Byte.
From S2P Require Import Prelude Text Record Codec CodecProofs Disk Heap Merge MergeProofs.
Open Scope Z_scope.

(** ** The in-memory slice *)

Definition mem_streams (m : MemRun) (l : list Head) : Prop :=
  (mr_pos m < length (mr_entries m))%nat /\
  l = entry_head (mr_arena m) <$> drop (mr_pos m) (mr_entries m).

Lemma drop_lookup {A} (l : list A) n : (n < length l)%nat ->
  exists x, l !! n = Some x /\ drop n l = x :: drop (n + 1) l.
Proof.
  intros Hn. destruct (lookup_lt_is_Some_2 l n Hn) as [x Hx]. exists x. split; [done|].
  rewrite Nat.add_1_r. by apply drop_S.
Qed.

#[export] Program Instance mem_laws : SourceLaws MemRun := {| streams := mem_streams |}.
Next Obligation.
  intros m l [Hp ->]. destruct (drop_lookup _ _ Hp) as (e & He & ->). eexists. cbn.
  unfold mem_head. by rewrite He.
Qed.
Next Obligation.
  intros m h rest [Hp Hl]. destruct (drop_lookup _ _ Hp) as (e & He & Hd). rewrite Hd in Hl.
  cbn in Hl. injection Hl as -> ->. eexists. split.
  - intros fs. unfold runs. cbn [src_advance mem_source]. unfold mem_advance, mret, io_ret.
    cbn [mr_pos mr_entries mr_arena]. do 3 f_equal.
    destruct (Nat.ltb_spec (mr_pos m + 1) (length (mr_entries m))) as [Hlt|Hge].
    + rewrite bool_decide_eq_false_2; [done|]. intros E. apply fmap_nil_inv in E.
      apply (f_equal length) in E. rewrite length_drop in E. cbn in E. lia.
    + rewrite bool_decide_eq_true_2; [done|]. by rewrite drop_ge by lia.
  - intros Hne. split; cbn; [|done].
    destruct (decide (mr_pos m + 1 < length (mr_entries m))%nat) as [|Hge]; [done|].
    exfalso. apply Hne. by rewrite drop_ge by lia.
Qed.
Next Obligation. intros m. apply constant_ret. Qed.
Next Obligation.
  intros m l [Hp ->]. rewrite length_fmap, length_drop. cbn. lia.
Qed.
Next Obligation. intros m P. by apply triple_ret. Qed.

(** ** The run file *)

Definition run_bytes (l : list Head) : bytes :=
  concat ((fun h => run_entry (h_arrival h) (h_frame h)) <$> l).

(** A record whose frame carries its key and whose arrival fits its fields. *)
Definition head_ok (h : Head) : Prop :=
  (0 <= (h_arrival h).1 < u64_lim) /\ (0 <= (h_arrival h).2 < u64_lim) /\
  verified_sort_key (h_frame h) = Ok (h_ts h, h_id h, zlen (h_frame h)).

Definition reader_at (h : Head) (rest : list Head) : RunReader :=
  mkRunReader (run_bytes rest) (h_ts h) (h_arrival h) (h_frame h) (h_id h).

Definition run_streams (r : RunReader) (l : list Head) : Prop :=
  exists h rest, l = h :: rest /\ r = reader_at h rest /\ Forall head_ok (h :: rest).

(** The length [cur_sort_key] reports is the one it is given. *)
Lemma cur_sort_key_len n c ts id m c' : cur_sort_key n c = Ok (ts, id, m, c') -> m = n.
Proof.
  unfold cur_sort_key, mbind, cur_bind. intros E.
  destruct (cur_u64 c) as [[? c1]|]; [|done]. destruct (cur_u32 c1) as [[? c2]|]; [|done].
  destruct (cur_u16 c2) as [[n1 c3]|]; [|done]. destruct (cur_take n1 c3) as [[? c4]|]; [|done].
  destruct (cur_u16 c4) as [[n2 c5]|]; [|done]. destruct (cur_take n2 c5) as [[? c6]|]; [|done].
  unfold mret, cur_ret in E. by simplify_eq.
Qed.

Lemma verified_frame f ts id :
  verified_sort_key f = Ok (ts, id, zlen f) ->
  exists crc4 payload, f = framed crc4 payload [] /\ zlen crc4 = 4 /\ zlen payload < u32_lim.
Proof.
  unfold verified_sort_key, mbind, result_bind. intros E.
  destruct (frame_extent f usize_max) as [[payload n]|] eqn:Ef; [|done].
  apply frame_extent_Ok in Ef as (crc4 & rest & -> & Hc & -> & _ & Hu).
  assert (zlen (framed crc4 payload rest) = FRAME_HEADER_BYTES + zlen payload) as Hl.
  { destruct (cur_sort_key _ _) as [[[[ts' id'] m] c]|] eqn:Ec; [|done]. cbn in E. simplify_eq.
    by apply cur_sort_key_len in Ec. }
  exists crc4, payload. split_and!; [|done|done].
  assert (rest = []) as -> by (apply zlen_zero; unfold framed, FRAME_HEADER_BYTES in Hl; zlen_lia). done.
Qed.

Lemma runs_corrupt_on_err {A : Type} (m : io (result IoError A)) fs a :
  runs m fs fs (Ret (Ok a)) -> runs (corrupt_on_err m) fs fs (Ret a).
Proof. intros Hm. eapply runs_bind; [exact Hm|]. apply runs_ret. Qed.

Lemma runs_read_eof fs n : runs (read_exact_or_eof [] n) fs fs (Ret (Ok None)).
Proof. done. Qed.

Lemma runs_read_some fs (a b : bytes) n :
  zlen a = n -> 0 < n -> runs (read_exact_or_eof (a ++ b) n) fs fs (Ret (Ok (Some (a, b)))).
Proof.
  intros Ha Hn. eapply runs_bind; [by apply runs_call_eq|]. cbv beta iota.
  destruct (Z.eqb_spec (zlen (a ++ b)) 0); [zlen_lia|].
  destruct (Z.ltb_spec (zlen (a ++ b)) n); [zlen_lia|].
  replace (Z.to_nat n) with (length a) by (unfold zlen in Ha; lia).
  rewrite take_app_length, drop_app_length. apply runs_ret.
Qed.

Lemma runs_read_exact fs (a b : bytes) n :
  zlen a = n -> runs (read_exact (a ++ b) n) fs fs (Ret (Ok (a, b))).
Proof.
  intros Ha. eapply runs_bind; [by apply runs_call_eq|]. cbv beta iota.
  destruct (Z.ltb_spec (zlen (a ++ b)) n); [zlen_lia|].
  replace (Z.to_nat n) with (length a) by (unfold zlen in Ha; lia).
  rewrite take_app_length, drop_app_length. apply runs_ret.
Qed.

(** Reading the next entry of a run. *)
Lemma runs_read_next r h rest fs :
  rr_input r = run_bytes (h :: rest) -> head_ok h ->
  runs (read_next r) fs fs (Ret (reader_at h rest, true)).
Proof.
  intros Hin (Hs & Ho & Hv). destruct (verified_frame _ _ _ Hv) as (crc4 & payload & Hf & Hc & Hu).
  set (len4 := le_bytes 4 (zlen payload)).
  set (hd := le_bytes 8 (h_arrival h).1 ++ le_bytes 8 (h_arrival h).2 ++ len4 ++ crc4).
  assert (rr_input r = hd ++ payload ++ run_bytes rest) as E.
  { rewrite Hin. unfold run_bytes, hd, len4. cbn. unfold run_entry. rewrite Hf. unfold framed.
    rewrite app_nil_r. by rewrite <-!app_assoc. }
  assert (zlen hd = ARRIVAL_BYTES + FRAME_HEADER_BYTES) as Hlen
    by (unfold hd, len4, ARRIVAL_BYTES, FRAME_HEADER_BYTES; zlen_lia).
  unfold read_next. rewrite E. eapply runs_bind.
  { apply runs_corrupt_on_err, runs_read_some; [done|reflexivity]. }
  cbv beta iota zeta.
  assert (slice 0 8 hd = le_bytes 8 (h_arrival h).1) as ->
    by exact (slice_prefix (le_bytes 8 (h_arrival h).1) _).
  assert (slice 8 16 hd = le_bytes 8 (h_arrival h).2) as ->
    by exact (slice_app_mid (le_bytes 8 (h_arrival h).1) (le_bytes 8 (h_arrival h).2) _).
  assert (slice 16 20 hd = len4) as ->.
  { unfold hd. rewrite app_assoc. apply (slice_app_mid (le_bytes 8 (h_arrival h).1
      ++ le_bytes 8 (h_arrival h).2) len4 crc4). }
  assert (drop (Z.to_nat ARRIVAL_BYTES) hd = len4 ++ crc4) as -> by done.
  assert (le_val len4 = zlen payload) as ->
    by (apply (le_val_bytes_small 4); split; [zlen_lia|done]).
  eapply runs_bind; [by apply runs_corrupt_on_err, runs_read_exact|]. cbv beta iota.
  assert ((len4 ++ crc4) ++ payload = h_frame h) as ->.
  { rewrite Hf. unfold framed. by rewrite app_nil_r, <-app_assoc. }
  rewrite Hv. rewrite (le_val_bytes_small 8 _ Hs), (le_val_bytes_small 8 _ Ho).
  rewrite <-surjective_pairing. apply runs_ret.
Qed.

Lemma run_bytes_cons h l :
  run_bytes (h :: l) = run_entry (h_arrival h) (h_frame h) ++ run_bytes l.
Proof. reflexivity. Qed.

Lemma run_bytes_size l : Forall head_ok l -> (length l <= length (run_bytes l))%nat.
Proof.
  induction 1 as [|h l Hh Hl IH]; [done|]. rewrite run_bytes_cons, length_app.
  unfold run_entry. rewrite !length_app, !length_le_bytes. cbn [length]. lia.
Qed.

(** Reading keeps the files as they are. *)
Lemma triple_tick (P : Files -> Prop) : triple P read_tick P (fun _ => P).
Proof. apply triple_whole; [apply _|cbn; auto..]. Qed.

Lemma triple_read_next (P : Files -> Prop) r : triple P (read_next r) P (fun _ => P).
Proof.
  unfold read_next, corrupt_on_err, read_exact_or_eof, read_exact.
  repeat match goal with
  | |- triple _ (mbind _ _) _ _ => eapply (triple_bind _ _ (fun _ => P)); [|intros ?]
  | |- triple _ read_tick _ _ => apply triple_tick
  | |- triple _ (mret _) _ _ => by apply triple_ret
  | |- triple _ (throw _) _ _ => by apply triple_throw
  | |- triple _ (match ?x with _ => _ end) _ _ => destruct x
  | |- triple _ ?m _ _ => progress cbv beta iota zeta
  end.
Qed.

(** A failed read is an error, so what is read does not depend on the faults. *)
Lemma constant_corrupt {A : Type} (x : result IoError A) :
  constant (corrupt_on_err (r ← read_tick; match r with Err e => mret (Err e) | Ok _ => mret x end)).
Proof.
  intros w1 w2. unfold corrupt_on_err, mbind, io_bind, read_tick. cbn [exec]. unfold perform.
  destruct (script w1) as [|[] ?], (script w2) as [|[] ?]; cbn; try done; destruct x; cbn; try done;
    by destruct (script w1).
Qed.

Lemma constant_read_next r : constant (read_next r).
Proof.
  unfold read_next. apply constant_bind.
  - pose proof (constant_corrupt (if zlen (rr_input r) =? 0 then Ok None
      else if zlen (rr_input r) <? ARRIVAL_BYTES + FRAME_HEADER_BYTES then Err (OtherIo "truncated entry")
      else Ok (Some (take (Z.to_nat (ARRIVAL_BYTES + FRAME_HEADER_BYTES)) (rr_input r),
             drop (Z.to_nat (ARRIVAL_BYTES + FRAME_HEADER_BYTES)) (rr_input r))))) as Hc.
    unfold read_exact_or_eof. destruct (_ =? _); [exact Hc|]. destruct (_ <? _); exact Hc.
  - intros [[head input]|]; [|apply constant_ret]. cbv zeta. apply constant_bind.
    + pose proof (constant_corrupt (if zlen input <? le_val (slice 16 20 head)
        then Err (OtherIo "failed to fill whole buffer")
        else Ok (take (Z.to_nat (le_val (slice 16 20 head))) input,
                 drop (Z.to_nat (le_val (slice 16 20 head))) input))) as Hc.
      unfold read_exact. destruct (_ <? _); exact Hc.
    + intros [payload rest]. cbv zeta. destruct (verified_sort_key _) as [[[ts id] n]|];
        [apply constant_ret|apply constant_throw].
Qed.

#[export] Program Instance run_laws : SourceLaws RunReader := {| streams := run_streams |}.
Next Obligation. intros r l (h & rest & -> & -> & _). eexists. by destruct h. Qed.
Next Obligation.
  intros r h rest (h' & rest' & [= <- <-] & -> & Hok). apply Forall_cons in Hok as [Hh Hrest].
  destruct rest as [|h2 rest].
  - eexists. split; [|done]. intros fs. done.
  - apply Forall_cons in Hrest as [Hh2 Hrest]. exists (reader_at h2 rest). split.
    + intros fs. rewrite bool_decide_eq_false_2 by done. by apply runs_read_next.
    + intros _. exists h2, rest. auto.
Qed.
Next Obligation. intros r. apply constant_read_next. Qed.
Next Obligation.
  intros r l (h & rest & -> & -> & Hok). apply Forall_cons in Hok as [_ Hrest].
  pose proof (run_bytes_size rest Hrest). cbn. lia.
Qed.
Next Obligation. intros r P. apply triple_read_next. Qed.

(** ** Either of them *)

Definition boxed_streams (s : RunReader + MemRun) (l : list Head) : Prop :=
  match s with inl r => streams r l | inr m => streams m l end.

#[export] Program Instance boxed_laws : SourceLaws (RunReader + MemRun) :=
  {| streams := boxed_streams |}.
Next Obligation.
  intros [r|m] l Hs; [exact (streams_head r l Hs)|exact (streams_head m l Hs)].
Qed.
Next Obligation.
  intros [r|m] h rest Hs.
  - destruct (streams_advance r h rest Hs) as (s' & Ha & Hs'). exists (inl s'). split; [|done].
    intros fs. eapply runs_bind; [apply Ha|]. apply runs_ret.
  - destruct (streams_advance m h rest Hs) as (s' & Ha & Hs'). exists (inr s'). split; [|done].
    intros fs. eapply runs_bind; [apply Ha|]. apply runs_ret.
Qed.
Next Obligation.
  intros [r|m]; (apply constant_bind; [apply advance_constant|]; intros [? ?]; apply constant_ret).
Qed.
Next Obligation.
  intros [r|m] l Hs; [exact (streams_size r l Hs)|exact (streams_size m l Hs)].
Qed.
Next Obligation.
  intros [r|m] P; (eapply triple_bind; [apply advance_keeps|]; intros [? ?]; by apply triple_ret).
Qed.
