(* ===== verification/Bounded.v ===== *)
(** * Bounded: the merge with a bounded number of open runs

    [merge_bounded] pre-merges runs until at most [fan_in] sources remain. The result
    is the same as merging everything at once. *)

From Stdlib Require Import ZArith Lia.
From Stdlib Require Import Strings.Byte.
From S2P Require Import Prelude Text Record Codec CodecProofs Disk Heap Merge MergeProofs Sources.
Open Scope Z_scope.

(** ** Run files on disk *)

(** The file at [p] is a run of [l]. *)
Record run_file (fs : Files) (p : path) (l : list Head) : Prop := {
  rf_bytes : fs !! p = Some (run_bytes l);
  rf_ok : Forall head_ok l;
  rf_sorted : sorted_heads l
}.

Lemma run_file_other fs p l q c : p <> q -> run_file fs p l -> run_file (<[q := c]> fs) p l.
Proof. intros Hn [Hb Ho Hs]. split; [|done..]. by rewrite lookup_insert_ne. Qed.

Lemma runs_run_open fs p l :
  run_file fs p l ->
  runs (run_open p) fs fs
    (Ret (match l with [] => None | h :: rest => Some (reader_at h rest) end)).
Proof.
  intros [Hb Ho _]. eapply runs_bind; [by apply runs_try, runs_read|]. destruct l as [|h rest].
  - done.
  - apply Forall_cons in Ho as [Hh _]. eapply runs_bind; [by apply runs_read_next|]. done.
Qed.

(** The sources of some runs: the empty ones are skipped. *)
Lemma runs_open_runs fs runs_ (R : path -> list Head) :
  (forall p, p ∈ runs_ -> run_file fs p (R p)) ->
  exists srcs ls, runs (open_runs runs_) fs fs (Ret srcs) /\
    Forall2 streams srcs ls /\ Forall sorted_heads ls /\
    concat ls = concat (R <$> runs_).
Proof.
  induction runs_ as [|p runs_ IH]; intros HR.
  { exists [], []. split_and!; [apply runs_ret|constructor..|done]. }
  destruct IH as (srcs & ls & Hr & H2 & Hs & Hc); [set_solver|].
  pose proof (HR p ltac:(set_solver)) as Hp. pose proof (runs_run_open fs p _ Hp) as Ho.
  destruct (R p) as [|h rest] eqn:E.
  - exists srcs, ls. split_and!; [|done..|].
    + eapply runs_bind; [exact Ho|]. eapply runs_bind; [exact Hr|]. apply runs_ret.
    + cbn. by rewrite E, Hc.
  - exists (inl (reader_at h rest) :: srcs), ((h :: rest) :: ls). split_and!.
    + eapply runs_bind; [exact Ho|]. eapply runs_bind; [exact Hr|]. apply runs_ret.
    + constructor; [|done]. exists h, rest. split_and!; [done..|]. apply (rf_ok _ _ _ Hp).
    + constructor; [apply (rf_sorted _ _ _ Hp)|done].
    + cbn. by rewrite E, Hc.
Qed.

(** Writing a run. *)
Definition run_sink (h : Head) (w : RunWriter) : io RunWriter :=
  run_push w (h_arrival h) (h_frame h).

Lemma runs_run_push w h fs :
  runs (run_sink h w) fs (<[rw_path w := rw_data w ++ run_entry (h_arrival h) (h_frame h)]> fs)
    (Ret (mkRunWriter (rw_path w) (rw_data w ++ run_entry (h_arrival h) (h_frame h))
            (rw_entries w + 1))).
Proof. eapply runs_bind; [apply runs_try, runs_write|]. apply runs_ret. Qed.

Lemma runs_write_all l p d n fs :
  fs !! p = Some d ->
  runs (io_fold run_sink l (mkRunWriter p d n)) fs (<[p := d ++ run_bytes l]> fs)
    (Ret (mkRunWriter p (d ++ run_bytes l) (n + zlen l))).
Proof.
  revert d n fs. induction l as [|h l IH]; intros d n fs Hd.
  - cbn [io_fold]. rewrite app_nil_r, zlen_nil, Z.add_0_r, insert_id by done. apply runs_ret.
  - cbn [io_fold]. eapply runs_bind; [apply runs_run_push|]. cbn [rw_path rw_data rw_entries].
    rewrite run_bytes_cons, app_assoc, zlen_cons, Z.add_assoc.
    pose proof (IH _ (n + 1) _ (lookup_insert_eq fs p (d ++ run_entry (h_arrival h) (h_frame h))))
      as Hr. rewrite insert_insert_eq in Hr. exact Hr.
Qed.

(** ** Order of the merged list *)

Lemma merged_sorted l : arrivals_unique l -> sorted_heads (merged l).
Proof.
  intros Hu. unfold merged.
  eapply sorted_impl; [|by apply dedup_sort_strict].
  intros x y Hlt. unfold key_le. apply clt_cle. by apply (clt_fst (head_key x) (head_key y)).
Qed.

Lemma merged_incl l x : arrivals_unique l -> x ∈ merged l -> x ∈ l.
Proof. apply dedup_sort_incl. Qed.

Lemma merged_ok l : arrivals_unique l -> Forall head_ok l -> Forall head_ok (merged l).
Proof.
  intros Hu. rewrite !Forall_forall. intros Hl x Hx. apply Hl. by eapply merged_incl.
Qed.

Lemma arrivals_incl l l' : arrivals_unique l -> (forall x, x ∈ l' -> x ∈ l) -> arrivals_unique l'.
Proof. intros Hu Hi x y Hx Hy. by apply Hu; apply Hi. Qed.

(** ** One round of pre-merging *)

Lemma runs_run_sizes fs runs_ :
  exists sized, runs (run_sizes runs_) fs fs (Ret sized) /\ snd <$> sized = runs_.
Proof.
  induction runs_ as [|p runs_ (sized & Hr & Hs)]; [by exists []|].
  destruct (fs !! p) as [c|] eqn:E.
  - exists ((zlen c, p) :: sized). split; [|cbn; by rewrite Hs].
    eapply runs_bind; [by apply runs_file_len|]. eapply runs_bind; [exact Hr|]. apply runs_ret.
  - exists ((0, p) :: sized). split; [|cbn; by rewrite Hs].
    apply (runs_bind _ _ fs fs fs (Err NotFound)); [apply runs_call_eq; cbn [effect]; by rewrite E|].
    eapply runs_bind; [exact Hr|]. apply runs_ret.
Qed.

(** Removing files, ignoring errors. *)
Fixpoint without (fs : Files) (ps : list path) : Files :=
  match ps with
  | [] => fs
  | p :: ps' => without (delete p fs) ps'
  end.

Lemma runs_remove_quietly p fs : runs (remove_quietly p) fs (delete p fs) (Ret tt).
Proof.
  destruct (fs !! p) as [c|] eqn:E.
  - eapply runs_bind; [by apply runs_remove|]. apply runs_ret.
  - rewrite delete_id by done. apply (runs_bind _ _ fs fs fs (Err NotFound)); [|apply runs_ret].
    apply runs_call_eq; cbn [effect]; by rewrite E.
Qed.

Lemma runs_without ps fs : runs (io_each remove_quietly ps) fs (without fs ps) (Ret tt).
Proof.
  revert fs. induction ps as [|p ps IH]; intros fs; [apply runs_ret|].
  cbn. eapply runs_bind; [apply runs_remove_quietly|apply IH].
Qed.

Lemma without_lookup fs ps q : q ∉ ps -> without fs ps !! q = fs !! q.
Proof.
  revert fs. induction ps as [|p ps IH]; intros fs Hq; [done|].
  apply not_elem_of_cons in Hq as [Hn Hq]. cbn. rewrite IH by done. by apply lookup_delete_ne.
Qed.

Section premerge.
Context (next_run : nat -> path) `{!Inj eq eq next_run}.

(** The runs were made by the counter, each once. *)
Definition numbered (runs_ : list path) (n : nat) : Prop :=
  NoDup runs_ /\ forall p, p ∈ runs_ -> exists m, (m < n)%nat /\ p = next_run m.

Lemma numbered_fresh runs_ n m : numbered runs_ n -> (n <= m)%nat -> next_run m ∉ runs_.
Proof.
  intros [_ Hr] Hm Hin. destruct (Hr _ Hin) as (k & Hk & E). apply (inj next_run) in E. lia.
Qed.

(** Only files the counter names change. *)
Definition same_elsewhere (fs fs' : Files) : Prop :=
  forall q, (forall m, q <> next_run m) -> fs' !! q = fs !! q.

(** The run of one round: the chosen runs are replaced by their merge. *)
Lemma premerge_runs fs runs_ (R : path -> list Head) take_ n :
  numbered runs_ n -> (take_ <= length runs_)%nat ->
  (forall p, p ∈ runs_ -> run_file fs p (R p)) -> arrivals_unique (concat (R <$> runs_)) ->
  exists batch others, batch ++ others ≡ₚ runs_ /\ length batch = take_ /\
    let out := merged (concat (R <$> batch)) in
    runs (premerge next_run runs_ take_ n) fs
      (without (<[next_run n := run_bytes out]> fs) batch)
      (Ret (others ++ [next_run n], zlen (concat (R <$> batch)) - zlen out)).
Proof.
  intros Hnum Htake HR Hu. destruct (runs_run_sizes fs runs_) as (sized & Hsz & Hsnd).
  set (runs2 := snd <$> sort_by_key fst sized).
  assert (runs2 ≡ₚ runs_) as Hp2 by (unfold runs2; rewrite (sort_perm fst); by rewrite Hsnd).
  exists (take take_ runs2), (drop take_ runs2).
  assert (forall q, q ∈ take take_ runs2 -> q ∈ runs_) as Hsub.
  { intros q Hq. rewrite <-Hp2. by eapply elem_of_take_list. }
  split_and!; [by rewrite take_drop|rewrite length_take, (Permutation_length Hp2); lia|]. intros out.
  pose proof (numbered_fresh _ _ n Hnum ltac:(lia)) as Hfresh.
  destruct (runs_open_runs (<[next_run n := []]> fs) (take take_ runs2) R)
    as (srcs & ls & Hopen & H2 & Hls & Hc).
  { intros q Hq. apply run_file_other; [|by apply HR, Hsub]. intros ->. by apply Hfresh, Hsub. }
  assert (arrivals_unique (concat ls)) as Huls.
  { rewrite Hc. eapply arrivals_incl; [exact Hu|]. intros x Hx.
    rewrite <-(concat_perm _ _ (fmap_Permutation R _ _ Hp2)), <-(take_drop take_ runs2), fmap_app,
      concat_app. set_solver. }
  unfold premerge. eapply runs_bind; [exact Hsz|]. cbv zeta. fold runs2.
  eapply runs_bind; [eapply runs_bind; [apply runs_try, runs_write|apply runs_ret]|].
  eapply runs_bind; [exact Hopen|].
  assert (out = merged (concat ls)) as Eout by (unfold out; by rewrite Hc). rewrite <-Hc. clearbody out.
  eapply (runs_bind _ _ _ (<[next_run n := run_bytes out]> fs)).
  { unfold runs. fold run_sink. rewrite (merge_spec _ _ ls) by done. rewrite <-Eout.
    eapply runs_bind; [apply runs_write_all, lookup_insert_eq|]. cbn [app].
    rewrite insert_insert_eq. apply runs_ret. }
  cbv beta iota. eapply runs_bind; [eapply runs_bind; [apply runs_try, runs_idle, _|apply runs_ret]|].
  eapply runs_bind; [apply runs_without|]. apply runs_ret.
Qed.

(** Runs replaced by others with the same records, up to repeated rows. *)
Record rearranged (fs fs' : Files) (runs_ : list path) (R : path -> list Head) (n : nat)
    (runs' : list path) (R' : path -> list Head) (n' : nat) : Prop := {
  ra_numbered : numbered runs' n';
  ra_next : (n <= n')%nat;
  ra_runs : forall p, p ∈ runs' -> run_file fs' p (R' p);
  ra_unique : arrivals_unique (concat (R' <$> runs'));
  ra_merged : merged (concat (R' <$> runs')) = merged (concat (R <$> runs_));
  ra_incl : forall x, x ∈ concat (R' <$> runs') -> x ∈ concat (R <$> runs_);
  ra_same : forall q, q ∉ runs_ -> (forall m, (n <= m)%nat -> q <> next_run m) -> fs' !! q = fs !! q
}.

Lemma rearranged_refl fs runs_ R n :
  numbered runs_ n -> (forall p, p ∈ runs_ -> run_file fs p (R p)) ->
  arrivals_unique (concat (R <$> runs_)) -> rearranged fs fs runs_ R n runs_ R n.
Proof. by split. Qed.

Lemma rearranged_trans fs fs1 fs' runs_ R n runs1 R1 n1 runs' R' n' :
  rearranged fs fs1 runs_ R n runs1 R1 n1 -> rearranged fs1 fs' runs1 R1 n1 runs' R' n' ->
  (forall q, q ∈ runs1 -> q ∈ runs_ \/ exists m, (n <= m)%nat /\ q = next_run m) ->
  rearranged fs fs' runs_ R n runs' R' n'.
Proof.
  intros [A1 A2 A3 A4 A5 A6 A7] [B1 B2 B3 B4 B5 B6 B7] Hold. split; [done|lia|done|done|congruence|auto|].
  intros q Hq Hm. rewrite B7, A7; [done|done|done| |].
  - intros Hin. destruct (Hold q Hin) as [|(m & Hle & ->)]; [done|]. by apply (Hm m).
  - intros m Hle. apply Hm. lia.
Qed.

Lemma rearranged_elsewhere fs fs' runs_ R n runs' R' n' :
  numbered runs_ n -> rearranged fs fs' runs_ R n runs' R' n' -> same_elsewhere fs fs'.
Proof.
  intros [_ Hn] Hr q Hq. apply (ra_same _ _ _ _ _ _ _ _ Hr); [|auto].
  intros Hin. destruct (Hn q Hin) as (m & _ & ->). by apply (Hq m).
Qed.

(** The run that replaces the batch in one round. *)
Definition with_run (R : path -> list Head) (n : nat) (batch : list path) : path -> list Head :=
  fun q => if decide (q = next_run n) then merged (concat (R <$> batch)) else R q.

Lemma concat_with_run R n batch others : next_run n ∉ others ->
  concat (with_run R n batch <$> others ++ [next_run n])
  = concat (R <$> others) ++ merged (concat (R <$> batch)).
Proof.
  intros Hn. rewrite fmap_app, concat_app. cbn. unfold with_run at 2.
  rewrite decide_True, app_nil_r by done. do 2 f_equal.
  apply list_fmap_ext. intros i q Hq. unfold with_run. rewrite decide_False; [done|].
  intros ->. apply Hn. apply list_elem_of_lookup. eauto.
Qed.

(** Replacing some runs by their merge keeps the contents. *)
Lemma merge_rearranges fs fs' runs_ (R : path -> list Head) n batch others :
  numbered runs_ n -> batch ++ others ≡ₚ runs_ ->
  (forall p, p ∈ runs_ -> run_file fs p (R p)) -> arrivals_unique (concat (R <$> runs_)) ->
  fs' !! next_run n = Some (run_bytes (merged (concat (R <$> batch)))) ->
  (forall q, q ∉ batch -> q <> next_run n -> fs' !! q = fs !! q) ->
  rearranged fs fs' runs_ R n (others ++ [next_run n]) (with_run R n batch) (n + 1).
Proof.
  intros Hnum Hsplit HR Hu Hp Hsame. set (out := merged (concat (R <$> batch))) in *.
  pose proof (numbered_fresh _ _ n Hnum ltac:(lia)) as Hfresh.
  assert (concat (R <$> runs_) ≡ₚ concat (R <$> batch) ++ concat (R <$> others)) as Hcat.
  { rewrite <-concat_app, <-fmap_app. apply concat_perm. by rewrite Hsplit. }
  assert (arrivals_unique (concat (R <$> batch) ++ concat (R <$> others))) as Hu2
    by (eapply full_inj_perm; [exact Hcat|exact Hu]).
  assert (arrivals_unique (concat (R <$> batch))) as Hub by (eapply arrivals_incl; [exact Hu2|set_solver]).
  assert (next_run n ∉ batch /\ next_run n ∉ others) as [Hpb Hpo] by (rewrite <-Hsplit in Hfresh; set_solver).
  assert (arrivals_unique (out ++ concat (R <$> others))) as Hu3.
  { eapply arrivals_incl; [exact Hu2|]. intros x [Hx|Hx]%elem_of_app; [|set_solver].
    apply merged_incl in Hx; [set_solver|done]. }
  destruct Hnum as [Hnd Hnum]. rewrite <-Hsplit, NoDup_app in Hnd. destruct Hnd as (_ & Hdisj & Hndo).
  pose proof (concat_with_run R n batch others Hpo) as Ecat. fold out in Ecat.
  split; rewrite ?Ecat; [split|lia|..].
  - apply NoDup_app. split_and!; [done|set_solver|apply NoDup_singleton].
  - intros q [Hq|Hq]%elem_of_app.
    + destruct (Hnum q) as (m & Hm & ->); [rewrite <-Hsplit; set_solver|]. exists m. split; [lia|done].
    + apply list_elem_of_singleton in Hq as ->. exists n. split; [lia|done].
  - intros q Hq. unfold with_run. destruct (decide (q = next_run n)) as [->|Hne].
    + split; [done|apply merged_ok; [done|]|by apply merged_sorted].
      apply Forall_concat, Forall_fmap, Forall_forall. intros q Hb. cbn.
      apply (rf_ok fs q). apply HR. rewrite <-Hsplit. set_solver.
    + apply elem_of_app in Hq as [Hq|Hq]; [|by apply list_elem_of_singleton in Hq].
      destruct (HR q) as [Hb Ho Hs]; [rewrite <-Hsplit; set_solver|]. split; [|done..].
      rewrite Hsame; [done|set_solver|done].
  - eapply full_inj_perm; [apply Permutation_app_comm|exact Hu3].
  - unfold merged. rewrite <-(dedup_sort_perm _ _ _ _ Hu3 (Permutation_app_comm _ _)).
    rewrite (dedup_sort_perm _ _ (concat (R <$> runs_)) _ Hu Hcat). by apply dedup_sort_absorb.
  - intros x [Hx|Hx]%elem_of_app; rewrite Hcat; [set_solver|]. apply merged_incl in Hx; [set_solver|done].
  - intros q Hq Hm. apply Hsame; [|by apply (Hm n)]. intros Hb. apply Hq. rewrite <-Hsplit. set_solver.
Qed.

(** What the round means for the contents of the runs. *)
Lemma premerge_spec fs runs_ (R : path -> list Head) take_ n :
  numbered runs_ n -> (take_ <= length runs_)%nat ->
  (forall p, p ∈ runs_ -> run_file fs p (R p)) -> arrivals_unique (concat (R <$> runs_)) ->
  exists fs' runs' R' d,
    runs (premerge next_run runs_ take_ n) fs fs' (Ret (runs', d)) /\
    rearranged fs fs' runs_ R n runs' R' (n + 1) /\ length runs' = (length runs_ - take_ + 1)%nat /\
    d = zlen (concat (R <$> runs_)) - zlen (concat (R' <$> runs')) /\
    (forall q, q ∈ runs' -> q ∈ runs_ \/ exists m, (n <= m)%nat /\ q = next_run m).
Proof.
  intros Hnum Htake HR Hu.
  destruct (premerge_runs fs runs_ R take_ n Hnum Htake HR Hu) as (batch & others & Hsplit & Hlen & Hrun).
  cbv zeta in Hrun. pose proof (numbered_fresh _ _ n Hnum ltac:(lia)) as Hfresh.
  assert (next_run n ∉ batch /\ next_run n ∉ others) as [Hpb Hpo] by (rewrite <-Hsplit in Hfresh; set_solver).
  eexists _, (others ++ [next_run n]), (with_run R n batch), _. split; [exact Hrun|]. split_and!.
  - apply merge_rearranges; [done..|by rewrite without_lookup, lookup_insert_eq|].
    intros q Hq Hne. by rewrite without_lookup, lookup_insert_ne.
  - pose proof (Permutation_length Hsplit) as Hl. rewrite length_app in Hl |- *. cbn. lia.
  - rewrite concat_with_run by done. rewrite <-(zlen_perm _ _ (concat_perm _ _ (fmap_Permutation R _ _ Hsplit))).
    rewrite fmap_app, concat_app, !zlen_app. lia.
  - intros q [Hq|Hq]%elem_of_app; [left; rewrite <-Hsplit; set_solver|right; exists n].
    by apply list_elem_of_singleton in Hq.
Qed.

(** The loop ends with at most [fan_in] sources and the same merged content. *)
Lemma premerge_loop_spec fuel fs runs_ (R : path -> list Head) in_memory fan_in n dedup :
  (in_memory <= 1)%nat -> (2 <= fan_in)%nat -> (length runs_ <= fuel)%nat ->
  numbered runs_ n -> (forall p, p ∈ runs_ -> run_file fs p (R p)) ->
  arrivals_unique (concat (R <$> runs_)) ->
  exists fs' runs' R' n' dedup',
    runs (premerge_loop next_run fuel runs_ in_memory fan_in n dedup) fs fs'
      (Ret (runs', n', dedup')) /\
    rearranged fs fs' runs_ R n runs' R' n' /\ (length runs' + in_memory <= fan_in)%nat /\
    dedup' = dedup + (zlen (concat (R <$> runs_)) - zlen (concat (R' <$> runs'))).
Proof.
  revert fs runs_ R n dedup.
  induction fuel as [|fuel IH]; intros fs runs_ R n dedup Him Hfan Hfuel Hnum HR Hu;
    cbn [premerge_loop]; destruct (Nat.ltb_spec fan_in (length runs_ + in_memory)) as [Hlt|Hge].
  1: lia.
  1,3: exists fs, runs_, R, n, dedup; split_and!; [apply runs_ret|by apply rearranged_refl|lia|lia].
  set (take_ := Nat.min (length runs_ + in_memory - fan_in + 1) fan_in).
  destruct (premerge_spec fs runs_ R take_ n Hnum ltac:(lia) HR Hu)
    as (fs1 & runs1 & R1 & d & Hrun & Hra & Hlen & Hd & Hold).
  destruct (IH fs1 runs1 R1 (n + 1)%nat (dedup + d)) as (fs' & runs' & R' & n' & dedup' & Hrun' & Hra' & Hl & Hd');
    try done; try (by destruct Hra); [lia|].
  exists fs', runs', R', n', dedup'. split_and!; [|by eapply rearranged_trans|done|lia].
  eapply runs_bind; [exact Hrun|]. exact Hrun'.
Qed.

Definition memory_list (memory : option MemRun) : list (RunReader + MemRun) :=
  match memory with Some m => [inr m] | None => [] end.

(** The in-memory source and the records it stands on; it is never empty. *)
Definition memory_streams (memory : option MemRun) (l : list Head) : Prop :=
  match memory with Some m => streams m l | None => l = [] end.

Lemma memory_list_streams memory lm : memory_streams memory lm -> sorted_heads lm ->
  exists lsm, Forall2 streams (memory_list memory) lsm /\ Forall sorted_heads lsm /\ concat lsm = lm.
Proof.
  destruct memory as [m|]; cbn; intros Hmem Hs.
  - exists [lm]. split_and!; [by apply Forall2_cons; split|by apply Forall_singleton|cbn; by rewrite app_nil_r].
  - subst lm. exists []. split_and!; [by apply Forall2_nil|by apply Forall_nil|done].
Qed.

(** Merging runs that were merged before gives the same. *)
Lemma merged_runs_memory l l1 lm : arrivals_unique (l ++ lm) -> arrivals_unique (l1 ++ lm) ->
  merged l1 = merged l -> merged (l1 ++ lm) = merged (l ++ lm).
Proof.
  unfold merged. intros Hu Hu1 E. rewrite <-(dedup_sort_absorb row_key h_arrival l1 lm Hu1), E.
  by apply dedup_sort_absorb.
Qed.

(** [merge_bounded] delivers to the sink what one merge of everything would. *)
Lemma merge_bounded_spec {A : Type} (sink : Head -> A -> io A) fs runs_ (R : path -> list Head)
    memory lm fan_in n a :
  numbered runs_ n -> (forall p, p ∈ runs_ -> run_file fs p (R p)) ->
  memory_streams memory lm -> sorted_heads lm ->
  arrivals_unique (concat (R <$> runs_) ++ lm) ->
  let all := concat (R <$> runs_) ++ lm in
  exists fs1 n', same_elsewhere fs fs1 /\ (n <= n')%nat /\
    merge_bounded next_run sink runs_ memory fan_in n a (mkWorld fs [])
    = (a' ← io_fold sink (merged all) a;
       mret (add_stats stats_default (length all) (length (merged all)), n', a')) (mkWorld fs1 []).
Proof.
  intros Hnum HR Hmem Hsm Hu all. set (im := match memory with Some _ => 1%nat | None => 0%nat end).
  assert (arrivals_unique (concat (R <$> runs_))) as Hur by (eapply arrivals_incl; [exact Hu|set_solver]).
  destruct (premerge_loop_spec (length runs_) fs runs_ R im (Nat.max fan_in 2) n 0)
    as (fs1 & runs1 & R1 & n1 & d & Hrun & Hra & Hl & Hd);
    try done; [unfold im; destruct memory; lia|lia|].
  pose proof (rearranged_elsewhere _ _ _ _ _ _ _ _ Hnum Hra) as Hsame.
  destruct Hra as [Hnum1 Hn HR1 Hu1 Hm1 Hin _].
  destruct (runs_open_runs fs1 runs1 R1 HR1) as (srcs & ls & Hopen & H2 & Hls & Hc).
  exists fs1, n1. split; [done|]. split; [done|]. unfold merge_bounded. fold im.
  rewrite exec_bind, Hrun, exec_bind, Hopen.
  fold (memory_list memory).
  destruct (memory_list_streams memory lm Hmem Hsm) as (lsm & Hm2 & Hsm2 & Hcm).
  assert (concat (ls ++ lsm) = concat (R1 <$> runs1) ++ lm) as Ecat by (by rewrite concat_app, Hc, Hcm).
  assert (arrivals_unique (concat (R1 <$> runs1) ++ lm)) as Hu2.
  { eapply arrivals_incl; [exact Hu|]. intros x [Hx|Hx]%elem_of_app; [apply Hin in Hx|]; set_solver. }
  pose proof (merged_runs_memory _ _ lm Hu Hu2 Hm1) as Emerged. fold all in Emerged.
  rewrite exec_bind.
  rewrite (merge_spec sink _ (ls ++ lsm)); [|by apply Forall2_app|by apply Forall_app|
    by rewrite Ecat|done].
  rewrite Ecat, Emerged. rewrite !exec_bind. destruct (io_fold _ _ _ _) as [w' [a'| |]]; [|done..].
  rewrite !exec_ret. do 5 f_equal. unfold add_stats, all. cbn. f_equal.
  rewrite !length_app. unfold zlen in Hd. lia.
Qed.
End premerge.
