(* ===== verification/BatchProofs.v ===== *)
(** * BatchProofs: what a batch holds and how it is split

    The abstract content of a batch is a list of records tagged with their group;
    [push] appends to it, [sort] and [group_ranges] turn it into one sorted,
    deduplicated list per group. *)

From Stdlib Require Import ZArith Lia.
From Stdlib Require Import Strings.Byte.
From S2P Require Import Prelude Text Record Codec CodecProofs Disk Heap Merge MergeProofs Sources Bounded.
Open Scope Z_scope.

(** ** The invariant and the content *)

Definition entry_wf (b : Batch) (e : MemEntry) : Prop :=
  0 <= me_group e < zlen (b_groups b) /\ 0 <= me_frame e /\ 0 <= me_frame_len e /\
  0 <= me_id_off e /\ 0 <= me_id_len e /\
  me_id_off e + me_id_len e <= me_frame_len e /\
  me_frame e + me_frame_len e <= zlen (b_arena b).

Record batch_wf (b : Batch) : Prop := {
  bw_groups : NoDup (b_groups b);
  bw_entries : Forall (entry_wf b) (b_entries b)
}.

Definition entry_key (b : Batch) (e : MemEntry) : GroupKey := group_at (b_groups b) (me_group e).

(** The records of a batch in arrival order. *)
Definition content (b : Batch) : list (GroupKey * Head) :=
  (fun e => (entry_key b e, entry_head (b_arena b) e)) <$> b_entries b.

(** The records of one group. *)
Definition of_group (key : GroupKey) (l : list (GroupKey * Head)) : list Head :=
  snd <$> filter (fun p => p.1 = key) l.

Lemma of_group_app key l l' : of_group key (l ++ l') = of_group key l ++ of_group key l'.
Proof. unfold of_group. by rewrite filter_app, fmap_app. Qed.

Lemma elem_of_group key l h : h ∈ of_group key l <-> (key, h) ∈ l.
Proof.
  unfold of_group. rewrite list_elem_of_fmap. split.
  - intros ([k x] & -> & Hp). apply list_elem_of_filter in Hp as [E Hp]. cbn in E. by subst k.
  - intros Hp. exists (key, h). split; [done|]. by apply list_elem_of_filter.
Qed.

(** ** Pushing a record *)

Lemma position_spec key groups i :
  match position key groups i with
  | Some j => i <= j < i + zlen groups /\ nth (Z.to_nat (j - i)) groups ([], 0) = key
  | None => key ∉ groups
  end.
Proof.
  revert i. induction groups as [|g groups IH]; intros i; cbn [position]; [set_solver|].
  destruct (decide (g = key)) as [->|Hne].
  - rewrite Z.sub_diag. split; [zlen_lia|done].
  - specialize (IH (i + 1)). destruct (position key groups (i + 1)) as [j|].
    + destruct IH as [Hj Hn]. split; [zlen_lia|].
      replace (Z.to_nat (j - i)) with (S (Z.to_nat (j - (i + 1)))) by lia. done.
    + set_solver.
Qed.

(** [intern] yields an index of the key in a table that extends the old one. *)
Lemma intern_spec b key g groups :
  batch_wf b -> intern b key = (g, groups) ->
  NoDup groups /\ (exists new, groups = b_groups b ++ new) /\
  0 <= g < zlen groups /\ group_at groups g = key.
Proof.
  intros [Hnd He] E.
  assert (match position key (b_groups b) 0 with
    | Some i => (i, b_groups b)
    | None => (zlen (b_groups b ++ [key]) - 1, b_groups b ++ [key])
    end = (g, groups) -> NoDup groups /\ (exists new, groups = b_groups b ++ new) /\
      0 <= g < zlen groups /\ group_at groups g = key) as Hscan.
  { intros Ep. pose proof (position_spec key (b_groups b) 0) as Hp.
    destruct (position key (b_groups b) 0) as [i|]; injection Ep as <- <-.
    - rewrite Z.sub_0_r in Hp. split_and!; try lia; [done|exists []; by rewrite app_nil_r|apply Hp].
    - split_and!; [|by eexists|zlen_lia..|].
      + apply NoDup_app. split_and!; [done|set_solver|apply NoDup_singleton].
      + unfold group_at. rewrite app_nth2; unfold zlen; rewrite length_app; cbn; [|lia].
        by replace (Z.to_nat _ - length (b_groups b))%nat with 0%nat by lia. }
  unfold intern in E. destruct (last (b_entries b)) as [e|] eqn:El; [|by apply Hscan].
  destruct (decide _) as [Ek|_]; [|by apply Hscan]. injection E as <- <-.
  apply last_Some_elem_of in El. rewrite Forall_forall in He. destruct (He e El) as [Hg _].
  split_and!; try lia; [done|exists []; by rewrite app_nil_r|done].
Qed.

Lemma group_at_app groups new g :
  0 <= g < zlen groups -> group_at (groups ++ new) g = group_at groups g.
Proof. intros Hg. unfold group_at. apply app_nth1. unfold zlen in Hg. lia. Qed.

(** Old entries are read the same from the extended arena. *)
Lemma entry_head_app b e frame :
  entry_wf b e -> entry_head (b_arena b ++ frame) e = entry_head (b_arena b) e.
Proof.
  intros (_ & Hf & Hfl & Hio & Hil & Hid & Ha). unfold entry_head, entry_id, entry_frame.
  by rewrite !slice_app_l by lia.
Qed.

(** Pushing a well-formed record keeps the invariant and appends the record. *)
Lemma push_spec b group ts id_off id_len arrival frame :
  batch_wf b -> 0 <= id_off < u16_lim -> 0 <= id_len < u16_lim ->
  id_off + id_len <= zlen frame -> zlen frame < u32_lim ->
  batch_wf (push b group ts id_off id_len arrival frame) /\
  content (push b group ts id_off id_len arrival frame)
  = content b ++ [(group, mkHead ts (slice id_off (id_off + id_len) frame) arrival frame)].
Proof.
  intros Hwf Hio Hil Hid Hf. unfold push. destruct (intern b group) as [g groups] eqn:Ei.
  destruct (intern_spec b group g groups Hwf Ei) as (Hnd & (new & Hnew) & Hg & Hkey).
  rewrite !Z.mod_small by zlen_lia. destruct Hwf as [_ He].
  assert (forall e, entry_wf b e -> 0 <= me_group e < zlen groups) as Hgrp.
  { intros e (Hge & _). subst groups. zlen_lia. }
  split.
  - split; [done|]. cbn [b_entries]. apply Forall_app. split.
    + eapply Forall_impl; [exact He|]. intros e Hwe. pose proof (Hgrp e Hwe) as Hge.
      destruct Hwe as (_ & ? & ? & ? & ? & ? & ?). unfold entry_wf. cbn. split_and!; try lia. zlen_lia.
    + apply Forall_singleton. unfold entry_wf. cbn. split_and!; try lia; zlen_lia.
  - unfold content. cbn [b_entries b_arena b_groups]. rewrite fmap_app. f_equal.
    + apply list_fmap_ext. intros i e Hi. rewrite Forall_forall in He.
      pose proof (He e ltac:(apply list_elem_of_lookup; eauto)) as Hwe.
      rewrite entry_head_app by done. unfold entry_key. cbn [b_groups]. subst groups.
      rewrite group_at_app by apply Hwe. done.
    + cbn [fmap list_fmap]. unfold entry_key, entry_head, entry_id, entry_frame.
      cbn [me_ts me_group me_frame me_frame_len me_id_off me_id_len me_arrival b_groups].
      rewrite Hkey. do 3 f_equal.
      * rewrite <-Z.add_assoc. apply slice_app_r. lia.
      * pose proof (slice_app_mid (b_arena b) frame []) as Hs. rewrite app_nil_r in Hs. exact Hs.
Qed.

(** ** The rank of a group *)

Lemma foldl_insert_lookup (l : list nat) (k : nat) (init : list Z) g :
  NoDup l -> (forall x, x ∈ l -> (x < length init)%nat) ->
  foldl (fun order p => <[p.2 := Z.of_nat p.1]> order) init (imap (fun i x => ((k + i)%nat, x)) l) !! g
  = match list_find (eq g) l with
    | Some (i, _) => Some (Z.of_nat (k + i))
    | None => init !! g
    end.
Proof.
  revert k init. induction l as [|x l IH]; intros k init Hnd Hl; [done|].
  apply NoDup_cons in Hnd as [Hx Hnd]. cbn [imap foldl list_find].
  rewrite (imap_ext _ (fun i x => ((S k + i)%nat, x))) by (intros; cbn; f_equal; lia).
  rewrite IH; [|done|intros y Hy; rewrite length_insert; apply Hl; set_solver].
  cbn [snd fst]. destruct (decide (g = x)) as [->|Hne].
  - assert (list_find (eq x) l = None) as ->.
    { apply list_find_None, Forall_forall. intros y Hy ->. done. }
    rewrite list_lookup_insert_eq by (apply Hl; set_solver). by rewrite Nat.add_0_r.
  - destruct (list_find (eq g) l) as [[i y]|] eqn:E; cbn [fmap option_fmap option_map prod_map].
    + do 2 f_equal. cbn. lia.
    + by rewrite list_lookup_insert_ne.
Qed.

Lemma rank_perm groups : rank groups ≡ₚ seq 0 (length groups).
Proof. apply sort_perm. Qed.

(** The table holds the position of each group in the ranking. *)
Lemma order_at_spec groups g :
  0 <= g < zlen groups ->
  exists i, rank groups !! i = Some (Z.to_nat g) /\ order_at groups g = Z.of_nat i.
Proof.
  intros Hg. unfold order_at, order_table.
  pose proof (foldl_insert_lookup (rank groups) 0 (replicate (length groups) 0) (Z.to_nat g)) as Hf.
  rewrite (imap_ext _ pair) in Hf by done.
  assert (Z.to_nat g ∈ rank groups) as Hin.
  { rewrite rank_perm. apply elem_of_seq. unfold zlen in Hg. lia. }
  destruct (list_find_elem_of (eq (Z.to_nat g)) _ _ Hin eq_refl) as [[i y] Hfind].
  rewrite Hfind in Hf. apply list_find_Some in Hfind as (Hi & <- & _). exists i. split; [done|].
  apply nth_lookup_Some. rewrite Hf; [done| |].
  - rewrite rank_perm. apply NoDup_seq.
  - intros x Hx. rewrite rank_perm in Hx. apply elem_of_seq in Hx. rewrite length_replicate. lia.
Qed.

Lemma order_at_inj groups g g' :
  0 <= g < zlen groups -> 0 <= g' < zlen groups ->
  order_at groups g = order_at groups g' -> g = g'.
Proof.
  intros Hg Hg' E. destruct (order_at_spec groups g Hg) as (i & Hi & Ei).
  destruct (order_at_spec groups g' Hg') as (j & Hj & Ej).
  assert (i = j) as -> by lia. rewrite Hi in Hj. injection Hj as Hj. lia.
Qed.

(** ** Sorting *)

(** What identifies a row of the batch, and the whole sort key. *)
Definition entry_row (b : Batch) (e : MemEntry) : Z * Z * bytes :=
  (order_at (b_groups b) (me_group e), me_ts e, entry_id (b_arena b) e).

(** The arrival pair identifies a record of the batch within its row. *)
Definition batch_unique (b : Batch) : Prop := full_inj (entry_row b) me_arrival (b_entries b).

Lemma same_record_row b e e' :
  entry_wf b e -> entry_wf b e' ->
  same_record (b_arena b) e e' = eqb (entry_row b e) (entry_row b e').
Proof.
  intros (He & _) (He' & _). unfold same_record, entry_row.
  destruct (eqb _ _) eqn:E.
  - apply eqb_eq in E. injection E as Eo -> Ei. apply order_at_inj in Eo; [|done..]. rewrite Eo, Ei.
    by rewrite !Z.eqb_refl, bool_decide_eq_true_2.
  - apply eqb_neq in E. destruct (Z.eqb_spec (me_group e) (me_group e')) as [Eg|]; [|done].
    destruct (Z.eqb_spec (me_ts e) (me_ts e')) as [Et|]; [|done]. cbn [andb].
    apply bool_decide_eq_false. congruence.
Qed.

Lemma dedup_by_agree {A} (same same' : A -> A -> bool) (l : list A) :
  (forall x y, x ∈ l -> y ∈ l -> same x y = same' x y) -> dedup_by same l = dedup_by same' l.
Proof.
  destruct l as [|x l]; [done|]. cbn. intros E. f_equal.
  assert (forall y, y ∈ x :: l -> forall l', (forall z, z ∈ l' -> z ∈ x :: l) ->
    dedup_from same y l' = dedup_from same' y l') as Hgen.
  { intros y Hy l'. revert y Hy. induction l' as [|z l' IH]; intros y Hy Hl; cbn; [done|].
    rewrite (E z y) by set_solver. destruct (same' z y); [|f_equal]; apply IH; set_solver. }
  apply Hgen; set_solver.
Qed.

Lemma batch_sort_entries b :
  batch_wf b -> b_entries (batch_sort b) = dedup_sort (entry_row b) me_arrival (b_entries b).
Proof.
  intros [_ He]. unfold batch_sort, dedup_sort. cbn [b_entries].
  change (sort_by_key (sort_key b) (b_entries b))
    with (sort_by_key (full (entry_row b) me_arrival) (b_entries b)).
  apply dedup_by_agree. intros x y Hx Hy. rewrite elem_of_sort in Hx, Hy.
  rewrite Forall_forall in He. apply same_record_row; auto.
Qed.

(** ** Splitting into groups *)

Definition group_sorted (groups : list GroupKey) (l : list MemEntry) : Prop :=
  StronglySorted (fun x y => order_at groups (me_group x) <= order_at groups (me_group y)) l.

Lemma take_group_spec groups g l :
  Forall (fun e => 0 <= me_group e < zlen groups) l -> group_sorted groups l ->
  0 <= g < zlen groups -> Forall (fun e => order_at groups g <= order_at groups (me_group e)) l ->
  take_group g l = (filter (fun e => me_group e = g) l, filter (fun e => me_group e <> g) l).
Proof.
  intros Hg Hs Hgr. induction Hs as [|e l Hs IH Hx]; intros Hmin; [done|].
  apply Forall_cons in Hg as [He Hg]. apply Forall_cons in Hmin as [Hme Hmin].
  cbn [take_group]. rewrite !filter_cons. destruct (Z.eqb_spec (me_group e) g) as [->|Hne].
  - rewrite IH by done. rewrite decide_True by done. rewrite decide_False by (by intros []). done.
  - rewrite decide_False, decide_True by done.
    assert (forall x, x ∈ l -> me_group x <> g) as Hno.
    { intros x Hxl E. rewrite Forall_forall in Hx. specialize (Hx x Hxl). cbn in Hx.
      rewrite E in Hx. apply Hne. apply (order_at_inj groups); [done..|lia]. }
    rewrite filter_none by (intros x Hxl; by apply Hno). by rewrite filter_all.
Qed.

Lemma group_sorted_filter groups (P : MemEntry -> Prop) `{!forall x, Decision (P x)} l :
  group_sorted groups l -> group_sorted groups (filter P l).
Proof. apply filter_sorted. Qed.

(** The ranges are the groups that occur, each once, with all their entries. *)
Record ranges_ok (groups : list GroupKey) (l : list MemEntry)
    (ranges : list (GroupKey * list MemEntry)) : Prop := {
  ro_nodup : NoDup ranges.*1;
  ro_run : forall key run, (key, run) ∈ ranges ->
    run = filter (fun e => group_at groups (me_group e) = key) l /\ run <> [];
  ro_all : forall e, e ∈ l -> group_at groups (me_group e) ∈ ranges.*1
}.

Lemma group_at_inj groups g g' :
  NoDup groups -> 0 <= g < zlen groups -> 0 <= g' < zlen groups ->
  group_at groups g = group_at groups g' -> g = g'.
Proof.
  unfold group_at, zlen. intros Hnd Hg Hg' E.
  destruct (lookup_lt_is_Some_2 groups (Z.to_nat g) ltac:(lia)) as [x Hx].
  destruct (lookup_lt_is_Some_2 groups (Z.to_nat g') ltac:(lia)) as [y Hy].
  rewrite (nth_lookup_Some _ _ _ _ Hx), (nth_lookup_Some _ _ _ _ Hy) in E. subst y.
  pose proof (NoDup_lookup groups _ _ _ Hnd Hx Hy). lia.
Qed.

Lemma filter_filter_group groups (key : GroupKey) g l :
  NoDup groups -> 0 <= g < zlen groups -> Forall (fun e => 0 <= me_group e < zlen groups) l ->
  key <> group_at groups g ->
  filter (fun e => group_at groups (me_group e) = key) (filter (fun e => me_group e <> g) l)
  = filter (fun e => group_at groups (me_group e) = key) l.
Proof.
  intros Hnd Hg Hl Hk. rewrite list_filter_filter. apply list_filter_iff. intros e. split; [tauto|].
  intros E. split; [done|]. intros Eg. apply Hk. by rewrite <-E, Eg.
Qed.

Lemma group_ranges_spec fuel groups l :
  NoDup groups -> Forall (fun e => 0 <= me_group e < zlen groups) l -> group_sorted groups l ->
  (length l <= fuel)%nat -> ranges_ok groups l (group_ranges fuel groups l).
Proof.
  intros Hnd. revert l. induction fuel as [|fuel IH]; intros l Hg Hs Hf.
  - destruct l; [|cbn in Hf; lia]. split; [constructor|set_solver|set_solver].
  - destruct l as [|e l]; [split; [constructor|set_solver|set_solver]|].
    cbn [group_ranges]. pose proof (Forall_cons_1 _ _ _ Hg) as [He _].
    assert (Forall (fun x => order_at groups (me_group e) <= order_at groups (me_group x)) (e :: l)) as Hmin.
    { apply StronglySorted_cons in Hs as [Hx _]. constructor; [lia|done]. }
    rewrite (take_group_spec groups (me_group e) (e :: l)) by done.
    set (rest := filter (fun x => me_group x <> me_group e) (e :: l)).
    set (run := filter (fun x => me_group x = me_group e) (e :: l)).
    assert (length rest <= fuel)%nat as Hl.
    { unfold rest. rewrite filter_cons, decide_False by (by intros []).
      pose proof (length_filter (fun x => me_group x <> me_group e) l). cbn in Hf. lia. }
    destruct (IH rest) as [Hn Hr Ha]; [|by apply group_sorted_filter|done|].
    { by apply filter_Forall. }
    assert (forall x, x ∈ rest -> group_at groups (me_group x) <> group_at groups (me_group e)) as Hne.
    { intros x Hx. apply list_elem_of_filter in Hx as [Hx Hxl]. intros E. apply Hx.
      rewrite Forall_forall in Hg. apply (group_at_inj groups); auto. }
    assert (group_at groups (me_group e) ∉ (group_ranges fuel groups rest).*1) as Hfresh.
    { intros Hin. apply list_elem_of_fmap in Hin as ([key r] & E & Hin). cbn in E. subst key.
      destruct (Hr _ _ Hin) as [-> Hnn]. apply Hnn. apply filter_none. intros x Hx. by apply Hne. }
    split.
    + cbn. constructor; [done|exact Hn].
    + intros key r [E|Hin]%elem_of_cons.
      * injection E as -> ->. split.
        -- apply filter_ext_in. intros x Hx. split; [by intros ->|].
           rewrite Forall_forall in Hg. apply group_at_inj; auto.
        -- intros E. assert (e ∈ run) as Hin; [|rewrite E in Hin; set_solver].
           apply list_elem_of_filter. set_solver.
      * destruct (Hr key r Hin) as [-> Hnn]. split; [|done]. apply filter_filter_group; try done.
        intros ->. apply Hfresh. apply list_elem_of_fmap. exists (group_at groups (me_group e), filter
          (fun x => group_at groups (me_group x) = group_at groups (me_group e)) rest). done.
    + intros x Hx. cbn. destruct (decide (me_group x = me_group e)) as [->|Hxe]; [set_solver|].
      apply elem_of_cons. right. apply Ha. apply list_elem_of_filter. done.
Qed.

(** ** The sorted batch, group by group *)

(** No two records share an arrival pair. *)
Definition arrivals_distinct (l : list (GroupKey * Head)) : Prop :=
  NoDup ((fun p => h_arrival p.2) <$> l).

Lemma arrivals_distinct_group l key : arrivals_distinct l -> arrivals_unique (of_group key l).
Proof.
  intros Hd x y Hx Hy E. apply elem_of_group in Hx, Hy.
  apply (NoDup_fmap_eq (fun p => h_arrival p.2) l (key, x) (key, y)) in Hd; [by injection Hd|done..|].
  unfold full in E. by injection E.
Qed.

Lemma distinct_unique b : arrivals_distinct (content b) -> batch_unique b.
Proof.
  unfold arrivals_distinct, content. rewrite <-list_fmap_compose. intros Hd x y Hx Hy E.
  apply (NoDup_fmap_eq _ _ _ _ Hd Hx Hy). unfold full in E. by injection E.
Qed.

Section sorted_batch.
Context (b : Batch) (Hwf : batch_wf b) (Hd : arrivals_distinct (content b)).
Let kept := b_entries (batch_sort b).

Lemma kept_strict : StronglySorted (fun x y => clt (entry_row b x) (entry_row b y)) kept.
Proof. unfold kept. rewrite batch_sort_entries by done. by apply dedup_sort_strict, distinct_unique. Qed.

Lemma elem_of_kept e : e ∈ kept <-> first_of (entry_row b) me_arrival (b_entries b) e.
Proof. unfold kept. rewrite batch_sort_entries by done. by apply elem_of_dedup_sort, distinct_unique. Qed.

Lemma kept_wf : Forall (entry_wf b) kept.
Proof.
  apply Forall_forall. intros e He. apply elem_of_kept in He as [He _].
  pose proof (bw_entries _ Hwf) as Hw. rewrite Forall_forall in Hw. auto.
Qed.

Lemma kept_group_sorted : group_sorted (b_groups b) kept.
Proof.
  eapply sorted_impl; [|apply kept_strict]. intros x y Hlt. cbv beta in Hlt.
  apply clt_cle, cle_fst, cle_fst in Hlt. unfold cle, cmp, cmp_Z in Hlt. cbn in Hlt. by rewrite Z.compare_gt_iff, Z.nlt_ge in Hlt.
Qed.

Lemma batch_ranges_ok : ranges_ok (b_groups b) kept (batch_ranges (batch_sort b)).
Proof.
  apply group_ranges_spec.
  - apply (bw_groups _ Hwf).
  - eapply Forall_impl; [apply kept_wf|]. by intros e [He _].
  - apply kept_group_sorted.
  - done.
Qed.

(** Within one group the row of an entry is the row of its record. *)
Lemma row_in_group e e' :
  entry_wf b e -> entry_wf b e' -> entry_key b e = entry_key b e' ->
  me_group e = me_group e'.
Proof.
  intros (He & _) (He' & _) E. by apply (group_at_inj (b_groups b)); [apply (bw_groups _ Hwf)|..].
Qed.

Lemma group_run key :
  entry_head (b_arena b) <$> filter (fun e => group_at (b_groups b) (me_group e) = key) kept
  = merged (of_group key (content b)).
Proof.
  pose proof (arrivals_distinct_group _ key Hd) as Hu.
  pose proof kept_wf as Hkw. rewrite Forall_forall in Hkw.
  pose proof (bw_entries _ Hwf) as Hw. rewrite Forall_forall in Hw.
  apply (strict_unique row_key); [|by apply dedup_sort_strict|].
  - pose proof (filter_sorted (fun e => group_at (b_groups b) (me_group e) = key) _ _ kept_strict) as Hs.
    assert (Forall (fun e => e ∈ kept /\ entry_key b e = key)
      (filter (fun e => group_at (b_groups b) (me_group e) = key) kept)) as Hk.
    { apply Forall_forall. intros e He. apply list_elem_of_filter in He as [? ?]. done. }
    induction Hs as [|e l Hs IH Hx]; [constructor|]. apply Forall_cons in Hk as [[He Hek] Hk].
    cbn. constructor; [by apply IH|]. apply Forall_fmap. rewrite Forall_forall in Hx, Hk |- *.
    intros e' He'. destruct (Hk e' He') as [Hel Hel']. specialize (Hx e' He'). cbn.
    assert (me_group e = me_group e') as Eg by (apply row_in_group; auto; congruence).
    unfold clt, entry_row in Hx. rewrite Eg, cmp_triple_fst in Hx. exact Hx.
  - intros h. unfold merged. rewrite elem_of_dedup_sort by done. rewrite list_elem_of_fmap. split.
    + intros (e & -> & He). apply list_elem_of_filter in He as [Hk He]. apply elem_of_kept in He as [He Hmin].
      split; [apply elem_of_group, list_elem_of_fmap; exists e; unfold entry_key; by rewrite Hk|].
      intros y Hy Hrow. apply elem_of_group, list_elem_of_fmap in Hy as (e' & E & He').
      injection E as Ek ->.
      assert (me_group e' = me_group e) as Eg by (apply row_in_group; auto; unfold entry_key at 2; congruence).
      specialize (Hmin e' He'). unfold row_key in Hrow. cbn in Hrow. injection Hrow as Et Ei.
      unfold full, entry_row in Hmin. rewrite Eg, Et, Ei in Hmin. specialize (Hmin eq_refl).
      unfold full, row_key. cbn. rewrite Et, Ei. apply cle_same_fst. by apply cle_same_fst in Hmin.
    + intros [Hin Hmin]. apply elem_of_group, list_elem_of_fmap in Hin as (e & E & He).
      injection E as Ek ->. exists e. split; [done|]. apply list_elem_of_filter. split; [done|].
      apply elem_of_kept. split; [done|]. intros e' He' Hrow. unfold entry_row in Hrow.
      injection Hrow as Eo Et Ei. apply order_at_inj in Eo; [|by apply Hw..].
      assert (entry_head (b_arena b) e' ∈ of_group key (content b)) as Hin'.
      { apply elem_of_group, list_elem_of_fmap. exists e'. unfold entry_key in *. by rewrite Eo, <-Ek. }
      specialize (Hmin _ Hin'). unfold row_key in Hmin. cbn in Hmin. rewrite Et, Ei in Hmin.
      specialize (Hmin eq_refl). unfold full, entry_row, row_key in *. cbn in Hmin.
      rewrite Et, Ei in Hmin. rewrite Eo, Et, Ei. apply cle_same_fst. by apply cle_same_fst in Hmin.
Qed.
End sorted_batch.
