(* ===== verification/Spill.v ===== *)
(** * Spill: sorted runs on disk, and the contract of the flush sort

    Spilling a batch writes, for each group, a run file that holds the group's
    records sorted and deduplicated. With the bounded merge this gives the contract
    of the whole component: whatever was spilled, in however many batches, and
    however few runs may be open, each group comes out as the sorted list of its
    records with the first arrival of each row. *)

From Stdlib Require Import ZArith Lia.
From Stdlib Require Import Strings.Byte.
From S2P Require Import Prelude Text Record Codec CodecProofs CodecTheorems Disk Heap Merge MergeProofs Sources Bounded BatchProofs.
Open Scope Z_scope.

(** ** Lemmas *)

#[export] Instance next_path_inj : Inj eq eq next_path.
Proof.
  intros n m E. unfold next_path in E. apply app_one_inj, app_inv_tail in E.
  apply show_pad_inj in E; lia.
Qed.

Lemma runs_write_run arena es p d n fs :
  fs !! p = Some d ->
  runs (write_run arena (mkRunWriter p d n) es) fs
    (<[p := d ++ run_bytes (entry_head arena <$> es)]> fs)
    (Ret (mkRunWriter p (d ++ run_bytes (entry_head arena <$> es)) (n + zlen es))).
Proof.
  intros Hd. pose proof (runs_write_all (entry_head arena <$> es) p d n fs Hd) as Hr.
  replace (zlen (entry_head arena <$> es)) with (zlen es) in Hr by (unfold zlen; by rewrite length_fmap).
  unfold runs in Hr |- *. rewrite <-Hr. clear Hr Hd. generalize (mkRunWriter p d n) as w. generalize (mkWorld fs []) as world. clear.
  induction es as [|e es IH]; intros world w; [done|]. cbn [write_run fmap list_fmap io_fold].
  change (run_push w (me_arrival e) (entry_frame arena e)) with (run_sink (entry_head arena e) w).
  unfold mbind, io_bind. cbn [exec].
  destruct (run_sink (entry_head arena e) w world) as [world' [w'| |]]; [apply IH|done..].
Qed.

(** The runs of one batch: one file per group, in the order of the groups. *)
Lemma runs_spill_groups new_path arena ranges n fs :
  Inj eq eq new_path ->
  exists fs', runs (spill_groups new_path arena ranges n) fs fs'
      (Ret (imap (fun i r => (r.1, new_path (n + i)%nat)) ranges, (n + length ranges)%nat)) /\
    (forall i key es, ranges !! i = Some (key, es) ->
       fs' !! new_path (n + i)%nat = Some (run_bytes (entry_head arena <$> es))) /\
    (forall q, (forall i, (i < length ranges)%nat -> q <> new_path (n + i)%nat) ->
       fs' !! q = fs !! q).
Proof.
  intros Hinj. revert n fs. induction ranges as [|[key es] ranges IH]; intros n fs.
  - exists fs. rewrite Nat.add_0_r. split_and!; [apply runs_ret|done|done].
  - set (p := new_path n). set (data := run_bytes (entry_head arena <$> es)).
    destruct (IH (n + 1)%nat (<[p := data]> fs)) as (fs' & Hr & Hfiles & Hsame).
    assert (imap (fun i r => (r.1, new_path (n + i)%nat)) ((key, es) :: ranges)
      = (key, p) :: imap (fun i r => (r.1, new_path (n + 1 + i)%nat)) ranges) as Eimap.
    { cbn. rewrite Nat.add_0_r. f_equal. apply imap_ext. intros i r _. cbn. do 2 f_equal. lia. }
    exists fs'. split_and!.
    + rewrite Eimap. cbn [spill_groups length]. eapply runs_bind;
        [eapply runs_bind; [apply runs_try, runs_write|apply runs_ret]|].
      eapply runs_bind; [apply runs_write_run, lookup_insert_eq|]. cbn [app].
      rewrite insert_insert_eq. eapply runs_bind;
        [eapply runs_bind; [apply runs_try, runs_idle, _|apply runs_ret]|].
      eapply runs_bind; [exact Hr|].
      replace (n + 1 + length ranges)%nat with (n + S (length ranges))%nat by lia. apply runs_ret.
    + intros [|i] key' es' Hi; cbn in Hi.
      * injection Hi as <- <-. rewrite Nat.add_0_r. fold p. rewrite Hsame; [apply lookup_insert_eq|].
        intros i _ E. apply (inj new_path) in E. lia.
      * replace (n + S i)%nat with (n + 1 + i)%nat by lia. by eapply Hfiles.
    + intros q Hq. rewrite Hsame.
      * rewrite lookup_insert_ne; [done|]. intros <-. apply (Hq 0%nat); [cbn; lia|].
        by rewrite Nat.add_0_r.
      * intros i Hi. replace (n + 1 + i)%nat with (n + S i)%nat by lia. apply Hq. cbn. lia.
Qed.

Lemma batch_ranges_content b :
  batch_wf b -> arrivals_distinct (content b) ->
  NoDup (batch_ranges (batch_sort b)).*1 /\
  (forall key es, (key, es) ∈ batch_ranges (batch_sort b) ->
     es <> [] /\ entry_head (b_arena b) <$> es = merged (of_group key (content b))) /\
  (forall key, of_group key (content b) <> [] -> key ∈ (batch_ranges (batch_sort b)).*1).
Proof.
  intros Hwf Hd. destruct (batch_ranges_ok b Hwf Hd) as [Hn Hr Ha]. split_and!; [done| |].
  - intros key es Hin. destruct (Hr key es Hin) as [-> Hne]. split; [done|].
    by apply group_run.
  - intros key Hne. destruct (of_group key (content b)) as [|h l] eqn:E; [done|].
    assert (h ∈ of_group key (content b)) as Hin by (rewrite E; set_solver).
    pose proof (arrivals_distinct_group _ key Hd) as Hu.
    destruct (first_exists row_key h_arrival _ _ Hin) as (h' & Hf & _).
    assert (h' ∈ merged (of_group key (content b))) as Hm by (by apply elem_of_dedup_sort).
    rewrite <-(group_run b Hwf Hd key) in Hm. apply list_elem_of_fmap in Hm as (e & _ & He).
    apply list_elem_of_filter in He as [Hk He]. rewrite <-Hk. by apply Ha.
Qed.

(** [into_sources] hands out one stream per group that occurs. *)
Lemma into_sources_spec b :
  batch_wf b -> arrivals_distinct (content b) ->
  NoDup (into_sources b).2.*1 /\
  (forall key m, (key, m) ∈ (into_sources b).2 -> streams m (merged (of_group key (content b)))) /\
  (forall key, key ∈ (into_sources b).2.*1 <-> of_group key (content b) <> []).
Proof.
  intros Hwf Hd. destruct (batch_ranges_content b Hwf Hd) as (Hn & Hr & Ha).
  assert ((into_sources b).2.*1 = (batch_ranges (batch_sort b)).*1) as E1.
  { unfold into_sources. cbn [snd]. rewrite <-list_fmap_compose. apply list_fmap_ext. by intros i [k es] _. }
  rewrite E1. split_and!; [done| |].
  - intros key m Hin. unfold into_sources in Hin. cbn in Hin.
    apply list_elem_of_fmap in Hin as ([k es] & E & Hin). injection E as <- ->.
    destruct (Hr _ _ Hin) as [Hne Hes]. split; cbn.
    + destruct es; [done|cbn; lia].
    + by rewrite drop_0, Hes.
  - intros key. split; [|apply Ha]. intros ([k es] & -> & Hin)%list_elem_of_fmap E. cbn in E.
    destruct (Hr k es Hin) as [Hne Hes]. rewrite E in Hes. by apply fmap_nil_inv in Hes.
Qed.

Section spill_spec.
Context (new_path : nat -> path) `{!Inj eq eq new_path}.

(** What a spilled batch leaves: a numbered run file per group that occurs, and an
    empty batch. *)
Record spilled (b : Batch) (n : nat) (fs fs' : Files) (out : list (GroupKey * path)) (b' : Batch)
    (n' : nat) : Prop := {
  sp_nodup : NoDup out.*1;
  sp_paths : out.*2 = new_path <$> seq n (n' - n);
  sp_next : (n <= n')%nat;
  sp_run : forall key p, (key, p) ∈ out -> run_file fs' p (merged (of_group key (content b)));
  sp_all : forall key, of_group key (content b) <> [] -> key ∈ out.*1;
  sp_occurs : forall key, key ∈ out.*1 -> of_group key (content b) <> [];
  sp_same : forall q, q ∉ out.*2 -> fs' !! q = fs !! q;
  sp_empty : batch_wf b' /\ content b' = []
}.

(** The runs that writing the ranges of a batch leaves. *)
Lemma spilled_of b n fs fs' :
  batch_wf b -> arrivals_distinct (content b) -> Forall (fun p => head_ok p.2) (content b) ->
  let ranges := batch_ranges (batch_sort b) in
  (forall i key es, ranges !! i = Some (key, es) ->
    fs' !! new_path (n + i)%nat = Some (run_bytes (entry_head (b_arena b) <$> es))) ->
  (forall q, (forall i, (i < length ranges)%nat -> q <> new_path (n + i)%nat) -> fs' !! q = fs !! q) ->
  spilled b n fs fs' (imap (fun i r => (r.1, new_path (n + i)%nat)) ranges)
    (mkBatch [] [] [] (b_deduplicated (batch_sort b))) (n + length ranges).
Proof.
  intros Hwf Hd Hok ranges Hfiles Hsame. destruct (batch_ranges_content b Hwf Hd) as (Hn & Hr & Ha).
  fold ranges in Hn, Hr, Ha. set (out := imap (fun i r => (r.1, new_path (n + i)%nat)) ranges).
  assert (out.*1 = ranges.*1) as E1.
  { unfold out. rewrite fmap_imap. rewrite (imap_ext _ (fun _ r => r.1)) by done. apply imap_const. }
  assert (out.*2 = new_path <$> seq n (length ranges)) as E2.
  { unfold out. clear. generalize n. induction ranges as [|r ranges IH]; intros m; [done|].
    cbn. rewrite Nat.add_0_r. f_equal. rewrite <-IH. f_equal. apply imap_ext.
    intros i x _. cbn. do 2 f_equal. lia. }
  split.
  - by rewrite E1.
  - rewrite E2. do 2 f_equal. lia.
  - lia.
  - intros key p Hin. apply list_elem_of_lookup in Hin as [i Hi]. unfold out in Hi.
    rewrite list_lookup_imap in Hi. destruct (ranges !! i) as [[k es]|] eqn:Ei; [|done].
    cbn in Hi. injection Hi as <- <-.
    destruct (Hr k es) as [_ Hes]; [apply list_elem_of_lookup; eauto|].
    pose proof (arrivals_distinct_group _ k Hd) as Hu. rewrite <-Hes. split.
    + by eapply Hfiles.
    + rewrite Hes. apply merged_ok; [done|]. apply Forall_forall. intros h Hh.
      apply elem_of_group in Hh. rewrite Forall_forall in Hok. by apply (Hok _ Hh).
    + rewrite Hes. by apply merged_sorted.
  - intros key Hne. rewrite E1. by apply Ha.
  - rewrite E1. intros key ([k es] & -> & Hin)%list_elem_of_fmap E. cbn in E.
    destruct (Hr k es Hin) as [Hne Hes]. rewrite E in Hes. by apply fmap_nil_inv in Hes.
  - intros q Hq. apply Hsame. intros i Hi ->. apply Hq. rewrite E2. apply list_elem_of_fmap.
    exists (n + i)%nat. split; [done|]. apply elem_of_seq. lia.
  - split; [split; constructor|done].
Qed.

Lemma spill_spec b n fs :
  batch_wf b -> arrivals_distinct (content b) -> Forall (fun p => head_ok p.2) (content b) ->
  exists fs' out b' n', runs (spill new_path b n) fs fs' (Ret (out, b', n')) /\
    spilled b n fs fs' out b' n'.
Proof.
  intros Hwf Hd Hok.
  destruct (runs_spill_groups new_path (b_arena (batch_sort b)) (batch_ranges (batch_sort b)) n fs _)
    as (fs' & Hrun & Hfiles & Hsame).
  eexists fs', _, _, _. split; [eapply runs_bind; [exact Hrun|]; apply runs_ret|]. by apply spilled_of.
Qed.
End spill_spec.
