(* ===== verification/MergeTheorems.v ===== *)
(** * MergeTheorems: the contract of the flush sort *)

From Stdlib Require Import ZArith Lia.
From Stdlib Require Import Strings.Byte.
From S2P Require Import Prelude Text Record Codec CodecProofs CodecTheorems Disk Heap Merge MergeProofs Sources Bounded BatchProofs Spill.
Open Scope Z_scope.

(** Collect what is delivered. *)
Definition collect (h : Head) (a : list Head) : io (list Head) := mret (a ++ [h]).

Lemma collect_all l a w : io_fold collect l a w = (w, Ret (a ++ l)).
Proof.
  revert a. induction l as [|h l IH]; intros a; [cbn; by rewrite app_nil_r|].
  cbn [io_fold]. rewrite exec_bind. unfold collect at 1. rewrite exec_ret, IH. by rewrite <-app_assoc.
Qed.

(** C11: The k-way merge against the contract of its sources. For sources positioned
    on sorted lists, whatever their kind, [merge] behaves exactly as delivering the
    sorted union of the lists to the sink, one record per [(ts, id)], the one with the
    earliest arrival, errors of the sink included; it stops, and its counters are the
    delivered and the dropped records. *)
Theorem merge_delivers_first_arrivals {S A : Type} `{SourceLaws S} (sink : Head -> A -> io A)
    (sources : list S) (ls : list (list Head)) a w :
  Forall2 streams sources ls -> Forall sorted_heads ls ->
  arrivals_unique (concat ls) -> script w = [] ->
  let out := dedup_sort row_key h_arrival (concat ls) in
  merge sink sources a w
  = (a' ← io_fold sink out a;
     mret (mkStats (zlen out) (zlen (concat ls) - zlen out), a')) w.
Proof.
  intros H2 Hs Hu Hw out. rewrite (merge_spec sink sources ls H2 Hs Hu a w Hw). done.
Qed.

(** C10: A bound on open runs does not change the result. With any [fan_in], the runs
    pre-merged on the way included, [merge_bounded] delivers the same records in the
    same order, with the same counters, as one merge of all runs and the in-memory
    source; every file outside [runs/] is untouched before the first record is
    delivered. *)
Theorem merge_bounded_equals_merge {A : Type} (next_run : nat -> path) (sink : Head -> A -> io A)
    fs runs_ (R : path -> list Head) memory lm fan_in n a :
  Inj eq eq next_run ->
  numbered next_run runs_ n -> (forall p, p ∈ runs_ -> run_file fs p (R p)) ->
  memory_streams memory lm -> sorted_heads lm ->
  arrivals_unique (concat (R <$> runs_) ++ lm) ->
  let all := concat (R <$> runs_) ++ lm in
  let out := dedup_sort row_key h_arrival all in
  exists fs1 n', same_elsewhere next_run fs fs1 /\ (n <= n')%nat /\
    merge_bounded next_run sink runs_ memory fan_in n a (mkWorld fs [])
    = (a' ← io_fold sink out a;
       mret (mkStats (zlen out) (zlen all - zlen out), n', a')) (mkWorld fs1 []).
Proof. intros Hinj Hn HR Hm Hs Hu. by apply merge_bounded_spec. Qed.

(** Spilling a batch writes, for each group that occurs in it, one new run file
    with the group's records sorted and deduplicated, touches no other file, and
    leaves the batch empty; [into_sources] hands out the same lists in memory. *)
Theorem batch_split_by_group new_path b n fs :
  Inj eq eq new_path -> batch_wf b -> arrivals_distinct (content b) ->
  Forall (fun p => head_ok p.2) (content b) ->
  (exists fs' out b' n', runs (spill new_path b n) fs fs' (Ret (out, b', n')) /\
     spilled new_path b n fs fs' out b' n') /\
  (forall key m, (key, m) ∈ (into_sources b).2 ->
     streams m (dedup_sort row_key h_arrival (of_group key (content b)))) /\
  (forall key, of_group key (content b) <> [] -> key ∈ (into_sources b).2.*1).
Proof.
  intros Hinj Hwf Hd Hok. destruct (into_sources_spec b Hwf Hd) as (_ & Hs & Ha).
  split_and!; [by apply spill_spec|done|]. intros key. apply Ha.
Qed.

(** [push] appends exactly one record to the content of the batch: the frame with
    its group, timestamp, arrival and the id it contains; all earlier records and the
    batch invariant are kept. *)
Theorem push_appends_record b group ts id_off id_len arrival frame :
  batch_wf b -> 0 <= id_off < u16_lim -> 0 <= id_len < u16_lim ->
  id_off + id_len <= zlen frame -> zlen frame < u32_lim ->
  batch_wf (push b group ts id_off id_len arrival frame) /\
  content (push b group ts id_off id_len arrival frame)
  = content b ++ [(group, mkHead ts (slice id_off (id_off + id_len) frame) arrival frame)].
Proof. apply push_spec. Qed.

(** A truncated run entry is an error, never a short record: reading from a strict,
    non-empty prefix of an entry throws [InvalidData]; reading from a whole entry
    yields exactly its arrival, key and frame. *)
Theorem run_entry_whole_or_error r h rest n fs :
  head_ok h -> 0 < n < zlen (run_entry (h_arrival h) (h_frame h)) ->
  let with_input input := mkRunReader input (rr_ts r) (rr_arrival r) (rr_frame r) (rr_id r) in
  runs (read_next (with_input (take (Z.to_nat n) (run_entry (h_arrival h) (h_frame h))))) fs fs
    (Throw (Io (InvalidData "run file"))) /\
  runs (read_next (with_input (run_entry (h_arrival h) (h_frame h) ++ run_bytes rest))) fs fs
    (Ret (mkRunReader (run_bytes rest) (h_ts h) (h_arrival h) (h_frame h) (h_id h), true)).
Proof.
  intros Hok Hn with_input. split; [|by apply (runs_read_next _ h rest)].
  destruct Hok as (Hs & Ho & Hv). destruct (verified_frame _ _ _ Hv) as (crc4 & payload & Hf & Hc & Hu).
  set (e := run_entry (h_arrival h) (h_frame h)) in *.
  set (hd := le_bytes 8 (h_arrival h).1 ++ le_bytes 8 (h_arrival h).2
             ++ le_bytes 4 (zlen payload) ++ crc4).
  assert (e = hd ++ payload) as Ee.
  { unfold e, hd, run_entry. rewrite Hf. unfold framed. rewrite app_nil_r. by rewrite <-!app_assoc. }
  assert (zlen hd = 24) as Hhd by (unfold hd; zlen_lia).
  assert (zlen (take (Z.to_nat n) e) = n) as Hl by (rewrite zlen_take; lia).
  unfold read_next, with_input. cbn [rr_input]. destruct (Z.ltb_spec n 24) as [Hlt|Hge].
  - unfold runs, mbind, io_bind, corrupt_on_err, read_exact_or_eof, mbind, io_bind, read_tick.
    cbn [exec perform script files effect]. cbv beta iota. rewrite Hl.
    destruct (Z.eqb_spec n 0); [lia|]. unfold ARRIVAL_BYTES, FRAME_HEADER_BYTES.
    destruct (Z.ltb_spec n (16 + (4 + 4))); [done|lia].
  - assert (take (Z.to_nat n) e = hd ++ take (Z.to_nat (n - 24)) payload) as Et.
    { rewrite Ee, take_app_ge by (unfold zlen in Hhd; lia). do 2 f_equal. unfold zlen in Hhd. lia. }
    rewrite Et. eapply runs_bind; [apply runs_corrupt_on_err, runs_read_some; done|].
    cbv beta iota zeta.
    assert (slice 16 20 hd = le_bytes 4 (zlen payload)) as ->.
    { unfold hd. rewrite app_assoc. apply (slice_app_mid (le_bytes 8 (h_arrival h).1
        ++ le_bytes 8 (h_arrival h).2) (le_bytes 4 (zlen payload)) crc4). }
    rewrite (le_val_bytes_small 4) by (split; [zlen_lia|done]).
    unfold runs, mbind, io_bind, corrupt_on_err, read_exact, mbind, io_bind, read_tick.
    cbn [exec perform script files effect]. cbv beta iota.
    assert (zlen e = 24 + zlen payload) as He by (rewrite Ee; zlen_lia).
    destruct (Z.ltb_spec (zlen (take (Z.to_nat (n - 24)) payload)) (zlen payload)); [done|zlen_lia].
Qed.

(** ** Instances *)

(** A frame of series [orders] with the given key and arrival [(seg, 16)]. *)
Definition sample_head (seg ts : Z) (id : bytes) : Head :=
  mkHead ts id (seg, 16)
    (encode (H := Crc32_ieee) [] (lit "orders") 3 (mkRow ts id [] [] (lit "{}"))).1.

Definition sample_push (b : Batch) (h : Head) : Batch :=
  push b (lit "orders", 3) (h_ts h) 30 (zlen (h_id h)) (h_arrival h) (h_frame h).

Definition sample_batch (l : list Head) : Batch := foldl sample_push batch_default l.

(** A list as an in-memory source. *)
Definition sample_source (l : list Head) : MemRun :=
  mkMemRun (b_arena (sample_batch l)) (b_entries (sample_batch l)) 0.

(** Overlapping sorted lists. *)
Definition sample_lists : list (list Head) :=
  [[sample_head 4 6 (lit "a"); sample_head 1 9 (lit "c")];
   [sample_head 2 6 (lit "a"); sample_head 3 6 (lit "d")];
   [sample_head 5 9 (lit "c")]].

Definition sample_out : list Head :=
  [sample_head 2 6 (lit "a"); sample_head 3 6 (lit "d"); sample_head 1 9 (lit "c")].

Lemma sample_unique l : NoDup (h_arrival <$> l) -> arrivals_unique l.
Proof.
  intros Hn x y Hx Hy E. apply (NoDup_fmap_eq h_arrival l x y); [done..|].
  unfold full in E. by injection E.
Qed.

(** The files of the first two lists as runs. *)
Definition sample_runs : Files :=
  <[next_path 0 := run_bytes (nth 0 sample_lists [])]>
  (<[next_path 1 := run_bytes (nth 1 sample_lists [])]>
  (<[[lit "manifest.json"] := lit "{}"]> ∅)).

Lemma merge_delivers_witness :
  merge collect (sample_source <$> sample_lists) [] (mkWorld ∅ [])
  = (mkWorld ∅ [], Ret (mkStats 3 2, sample_out)).
Proof.
  rewrite (merge_delivers_first_arrivals collect (sample_source <$> sample_lists) sample_lists
             [] (mkWorld ∅ [])).
  - assert (dedup_sort row_key h_arrival (concat sample_lists) = sample_out) as -> by (vm_compute; reflexivity).
    vm_compute. reflexivity.
  - repeat constructor; vm_compute; reflexivity.
  - repeat (constructor; try (vm_compute; congruence)).
  - apply sample_unique. vm_compute. repeat (constructor; [set_solver|]). constructor.
  - done.
Defined.

Lemma merge_bounded_witness :
  exists fs1 n', same_elsewhere next_path sample_runs fs1 /\ (2 <= n')%nat /\
    merge_bounded next_path collect [next_path 0; next_path 1]
      (Some (sample_source (nth 2 sample_lists []))) 2 2 [] (mkWorld sample_runs [])
    = (mkWorld fs1 [], Ret (mkStats 3 2, n', sample_out)).
Proof.
  pose (R p := if decide (p = next_path 0) then nth 0 sample_lists [] else nth 1 sample_lists []).
  destruct (merge_bounded_equals_merge next_path collect sample_runs [next_path 0; next_path 1] R
    (Some (sample_source (nth 2 sample_lists []))) (nth 2 sample_lists []) 2 2 [])
    as (fs1 & n' & Hs & Hn & Hr).
  - apply _.
  - split; [apply NoDup_cons_2; [set_solver|apply NoDup_singleton]|].
    intros p Hp. rewrite list_elem_of_In in Hp; destruct Hp as [<-|[<-|[]]]; eexists; split; [|done| |done]; lia.
  - intros p Hp. rewrite list_elem_of_In in Hp; destruct Hp as [<-|[<-|[]]]; (split;
      [vm_compute; reflexivity|repeat constructor; vm_compute; congruence|
       repeat (constructor; try (vm_compute; congruence))]).
  - repeat constructor; vm_compute; reflexivity.
  - repeat (constructor; try (vm_compute; congruence)).
  - apply sample_unique. vm_compute. repeat (constructor; [set_solver|]). constructor.
  - exists fs1, n'. split_and!; [done|done|]. rewrite Hr.
    assert (dedup_sort row_key h_arrival (concat (R <$> [next_path 0; next_path 1])
      ++ nth 2 sample_lists []) = sample_out) as -> by (vm_compute; reflexivity).
    unfold mbind, io_bind. cbn [exec]. by rewrite collect_all.
Defined.

Definition sample_unsorted : list Head :=
  [sample_head 2 7 (lit "b"); sample_head 1 7 (lit "b"); sample_head 3 5 (lit "z")].

Lemma push_appends_witness :
  batch_wf (sample_batch [sample_head 2 7 (lit "b")]) /\
  content (sample_batch [sample_head 2 7 (lit "b")])
  = [((lit "orders", 3), sample_head 2 7 (lit "b"))].
Proof.
  destruct (push_appends_record batch_default (lit "orders", 3) 7 30 1 (2, 16)
    (h_frame (sample_head 2 7 (lit "b")))) as [Hwf Hc];
    [split; constructor|vm_compute; split; congruence|vm_compute; split; congruence
    |vm_compute; congruence|vm_compute; congruence|].
  split; [exact Hwf|]. vm_compute. reflexivity.
Defined.

Lemma sample_unsorted_wf : batch_wf (sample_batch sample_unsorted).
Proof.
  split; [apply NoDup_singleton|].
  repeat (constructor; [vm_compute; repeat split; congruence|]). constructor.
Qed.

Lemma batch_split_witness :
  exists fs' out b' n',
    runs (spill next_path (sample_batch sample_unsorted) 0) ∅ fs' (Ret (out, b', n')) /\
    spilled next_path (sample_batch sample_unsorted) 0 ∅ fs' out b' n'.
Proof.
  apply (batch_split_by_group next_path (sample_batch sample_unsorted) 0 ∅).
  - apply _.
  - apply sample_unsorted_wf.
  - unfold arrivals_distinct. vm_compute. repeat (constructor; [set_solver|]). constructor.
  - repeat constructor; vm_compute; congruence.
Defined.

Lemma run_entry_witness :
  let r := mkRunReader [] 0 (0, 0) [] [] in
  let h := sample_head 2 7 (lit "b") in
  runs (read_next (mkRunReader (take 25 (run_entry (h_arrival h) (h_frame h))) 0 (0, 0) [] []))
    ∅ ∅ (Throw (Io (InvalidData "run file"))).
Proof.
  apply (run_entry_whole_or_error (mkRunReader [] 0 (0, 0) [] []) (sample_head 2 7 (lit "b")) [] 25 ∅).
  - repeat constructor; vm_compute; congruence.
  - vm_compute. split; congruence.
Defined.
