(* ===== verification/Time.v ===== *)
(** * Time: civil dates and timestamps ([time.rs])

    Days since 1970-01-01 to and from year, month and day, the name of the hour
    partition a timestamp belongs to, and RFC 3339 text. Timestamps are [u64]
    microseconds; the calendar conversions are in [i64], with the wrap of a release build
    written out, and are compared with the calendar over the integers
    ([civil_of_days], [days_of_civil]). *)

From Stdlib Require Import ZArith Lia.
From Stdlib Require Import Strings.Byte.
From S2P Require Import Prelude Text Record.
Open Scope Z_scope.

Definition US_PER_SEC : Z := 1000000.
Definition US_PER_HOUR : Z := 3600 * US_PER_SEC.
Definition US_PER_DAY : Z := 24 * US_PER_HOUR.
Definition MIN_YEAR : Z := 1970.
Definition MAX_YEAR : Z := 250000.

Definition is_leap (year : Z) : bool :=
  (Z.rem year 4 =? 0) && (negb (Z.rem year 100 =? 0) || (Z.rem year 400 =? 0)).

Definition days_in_month (year month : Z) : Z :=
  match month with
  | 1 | 3 | 5 | 7 | 8 | 10 | 12 => 31
  | 4 | 6 | 9 | 11 => 30
  | 2 => if is_leap year then 29 else 28
  | _ => 0
  end.

Definition b2z (b : bool) : Z := if b then 1 else 0.

(** [days_to_ymd] and [ymd_to_days] compute in [i64], without checks in a release build.
    [div_euclid] and [rem_euclid] by a positive constant are [Z.div] and [Z.modulo]; the
    other divisions have dividends that are not negative. [doe], [yoe], [doy], [mp], the
    day and the month are below 146097 whatever the arguments, and [yoe + era * 400] is
    smaller than [z], so the other operations cannot overflow. *)
Definition days_to_ymd (days : Z) : Z * Z * Z :=
  let z := wrap_i64 (days + 719468) in
  let era := z / 146097 in
  let doe := z mod 146097 in
  let yoe := (doe - doe / 1460 + doe / 36524 - doe / 146096) / 365 in
  let y := yoe + era * 400 in
  let doy := doe - (365 * yoe + yoe / 4 - yoe / 100) in
  let mp := (5 * doy + 2) / 153 in
  let d := doy - (153 * mp + 2) / 5 + 1 in
  let m := if mp <? 10 then mp + 3 else mp - 9 in
  (y + b2z (m <=? 2), m, d).

(** [m] and [d] are [u32]: the sums of [doy] and [doe] are far inside [i64]. *)
Definition ymd_to_days (y m d : Z) : Z :=
  let y := wrap_i64 (y - b2z (m <=? 2)) in
  let era := y / 400 in
  let yoe := y mod 400 in
  let mp := if 2 <? m then m - 3 else m + 9 in
  let doy := (153 * mp + 2) / 5 + d - 1 in
  let doe := yoe * 365 + yoe / 4 - yoe / 100 + doy in
  wrap_i64 (wrap_i64 (wrap_i64 (era * 146097) + doe) - 719468).

(** [days as i64] is [to_signed64]. *)
Definition hour_partition (ts_us : Z) : bytes :=
  let days := ts_us / US_PER_DAY in
  let hour := ts_us mod US_PER_DAY / US_PER_HOUR in
  let '(y, m, d) := days_to_ymd (to_signed64 days) in
  lit "hour=" ++ show_pad 4 y ++ lit "-" ++ show_pad 2 m ++ lit "-" ++ show_pad 2 d
  ++ lit "T" ++ show_pad 2 hour.

Definition bad {A : Type} (why : string) : result Error A := Err (ConfigErr why).

(** [next_num]: the next piece, as an [i64]. *)
Definition next_num (parts : list bytes) : result Error (Z * list bytes) :=
  match parts with
  | [] => bad "missing field"
  | raw :: rest =>
      if (zlen raw =? 0) || negb (all_digits raw) then bad "not a number"
      else match parse_uint (2 ^ 63) raw with
           | Some n => Ok (n, rest)
           | None => bad "out of range"
           end
  end.

(** [split] on a separator, three numbers, and nothing after them. *)
Definition three_nums (sep : byte) (s : bytes) : result Error (Z * Z * Z) :=
  '(a, parts) ← next_num (split sep s);
  '(b, parts) ← next_num parts;
  '(c, parts) ← next_num parts;
  match parts with
  | _ :: _ => bad "too many fields"
  | [] => Ok (a, b, c)
  end.

(** The time without its fraction, and the fraction in microseconds. *)
Definition parse_fraction (rest : bytes) : result Error (bytes * Z) :=
  match split_once x2e rest with
  | None => Ok (rest, 0)
  | Some (t, frac) =>
      if (zlen frac =? 0) || (6 <? zlen frac) || negb (all_digits frac)
      then bad "fractional seconds must be 1-6 digits"
      else match parse_uint u64_lim frac with
           | None => bad "bad fraction"
           | Some scaled => Ok (t, scaled * 10 ^ (6 - zlen frac))
           end
  end.

Definition parse_rfc3339_utc (s : bytes) : result Error Z :=
  match strip_suffix (lit "Z") s with
  | None => bad "must end with 'Z'; only UTC is accepted"
  | Some rest =>
      match split_once x54 rest with
      | None => bad "expected YYYY-MM-DDTHH:MM:SSZ"
      | Some (date, rest) =>
          '(y, mo, d) ← three_nums x2d date;
          if negb ((MIN_YEAR <=? y) && (y <=? MAX_YEAR)) then bad "year out of range"
          else if negb ((1 <=? mo) && (mo <=? 12)) then bad "month out of range"
          else if (d <? 1) || (days_in_month y mo <? d) then bad "day is out of range"
          else
            '(time, frac_us) ← parse_fraction rest;
            '(h, mi, sec) ← three_nums x3a time;
            if (23 <? h) || (59 <? mi) || (59 <? sec)
            then bad "hour, minute or second out of range"
            else
              let days := ymd_to_days y mo d in
              Ok (days * US_PER_DAY + h * US_PER_HOUR + mi * 60 * US_PER_SEC
                  + sec * US_PER_SEC + frac_us)
      end
  end.

Definition format_rfc3339_utc (ts_us : Z) : bytes :=
  let days := ts_us / US_PER_DAY in
  let rem := ts_us mod US_PER_DAY in
  let '(y, mo, d) := days_to_ymd (to_signed64 days) in
  let h := rem / US_PER_HOUR in
  let mi := (rem mod US_PER_HOUR) / (60 * US_PER_SEC) in
  let s := (rem mod (60 * US_PER_SEC)) / US_PER_SEC in
  let us := rem mod US_PER_SEC in
  show_pad 4 y ++ lit "-" ++ show_pad 2 mo ++ lit "-" ++ show_pad 2 d ++ lit "T"
  ++ show_pad 2 h ++ lit ":" ++ show_pad 2 mi ++ lit ":" ++ show_pad 2 s ++ lit "."
  ++ show_pad 6 us ++ lit "Z".

(** ** The calendar *)

(** The two conversions over the integers: the calendar without a machine width. *)
Definition civil_of_days (days : Z) : Z * Z * Z :=
  let z := days + 719468 in
  let era := z / 146097 in
  let doe := z mod 146097 in
  let yoe := (doe - doe / 1460 + doe / 36524 - doe / 146096) / 365 in
  let y := yoe + era * 400 in
  let doy := doe - (365 * yoe + yoe / 4 - yoe / 100) in
  let mp := (5 * doy + 2) / 153 in
  let d := doy - (153 * mp + 2) / 5 + 1 in
  let m := if mp <? 10 then mp + 3 else mp - 9 in
  (y + b2z (m <=? 2), m, d).

Definition days_of_civil (y m d : Z) : Z :=
  let y := y - b2z (m <=? 2) in
  let era := y / 400 in
  let yoe := y mod 400 in
  let mp := if 2 <? m then m - 3 else m + 9 in
  let doy := (153 * mp + 2) / 5 + d - 1 in
  let doe := yoe * 365 + yoe / 4 - yoe / 100 + doy in
  era * 146097 + doe - 719468.


Definition valid_date (y m d : Z) : Prop := 1 <= m <= 12 /\ 1 <= d <= days_in_month y m.

Lemma is_leap_spec y : is_leap y = true <-> y mod 4 = 0 /\ (y mod 100 <> 0 \/ y mod 400 = 0).
Proof.
  unfold is_leap. rewrite andb_true_iff, orb_true_iff, negb_true_iff, !Z.eqb_eq, Z.eqb_neq.
  Z.to_euclidean_division_equations. lia.
Qed.

(** The date as March-based fields: [400 era + yoe] years, month [mp], day [d]. *)
Definition march_len (yoe mp : Z) : Z :=
  if (mp =? 0) || (mp =? 2) || (mp =? 4) || (mp =? 5) || (mp =? 7) || (mp =? 9) || (mp =? 10)
  then 31
  else if mp =? 11 then
    (if ((yoe + 1) mod 4 =? 0) && (negb ((yoe + 1) mod 100 =? 0) || ((yoe + 1) mod 400 =? 0))
     then 29 else 28)
  else 30.

Definition doe_of (yoe mp d : Z) : Z :=
  yoe * 365 + yoe / 4 - yoe / 100 + ((153 * mp + 2) / 5 + d - 1).

Definition yoe_of (doe : Z) : Z := (doe - doe / 1460 + doe / 36524 - doe / 146096) / 365.
Definition doy_of (doe : Z) : Z :=
  doe - (365 * yoe_of doe + yoe_of doe / 4 - yoe_of doe / 100).

Definition march_date (yoe mp d : Z) : Prop :=
  0 <= yoe < 400 /\ 0 <= mp < 12 /\ 1 <= d <= march_len yoe mp.

Lemma doe_fields doe : 0 <= doe < 146097 ->
  0 <= yoe_of doe < 400 /\ 0 <= doy_of doe <= 365 /\
  (doy_of doe = 365 -> is_leap (yoe_of doe + 1) = true).
Proof.
  intros H. rewrite is_leap_spec. unfold doy_of, yoe_of. Z.to_euclidean_division_equations. lia.
Qed.

Lemma doy_month doy : 0 <= doy <= 365 ->
  let mp := (5 * doy + 2) / 153 in
  let d := doy - (153 * mp + 2) / 5 + 1 in
  0 <= mp < 12 /\ 1 <= d <= 31 /\
  (mp = 1 \/ mp = 3 \/ mp = 6 \/ mp = 8 -> d <= 30) /\
  (mp = 11 -> d <= 29 /\ (doy < 365 -> d <= 28)).
Proof. intros H mp d. unfold mp, d. Z.to_euclidean_division_equations. lia. Qed.

Lemma march_doy mp d : 0 <= mp < 12 -> 1 <= d <= 31 ->
  (mp = 1 \/ mp = 3 \/ mp = 6 \/ mp = 8 -> d <= 30) -> (mp = 11 -> d <= 29) ->
  let doy := (153 * mp + 2) / 5 + d - 1 in
  0 <= doy <= 365 /\ (doy = 365 -> mp = 11 /\ d = 29) /\
  (5 * doy + 2) / 153 = mp /\ doy - (153 * mp + 2) / 5 + 1 = d.
Proof. intros ? ? ? ? doy. unfold doy. Z.to_euclidean_division_equations. lia. Qed.

(** A day of the year, back from the day of the era. *)
Lemma yoe_unique yoe doy : 0 <= yoe < 400 -> 0 <= doy <= 365 ->
  (doy = 365 -> is_leap (yoe + 1) = true) ->
  let doe := yoe * 365 + yoe / 4 - yoe / 100 + doy in
  0 <= doe < 146097 /\ yoe_of doe = yoe /\ doy_of doe = doy.
Proof.
  rewrite is_leap_spec. intros Hy Hd Hl doe.
  assert (yoe_of doe = yoe) as E.
  { unfold yoe_of, doe. Z.to_euclidean_division_equations. lia. }
  unfold doy_of. rewrite E. unfold doe. Z.to_euclidean_division_equations. lia.
Qed.

Lemma leap_era y era : is_leap (y + era * 400) = is_leap y.
Proof.
  apply eq_true_iff_eq. rewrite !is_leap_spec. Z.to_euclidean_division_equations. lia.
Qed.

Lemma days_in_month_march y m d :
  1 <= m <= 12 ->
  let mp := if 2 <? m then m - 3 else m + 9 in
  d <= days_in_month y m <->
  d <= 31 /\ (mp = 1 \/ mp = 3 \/ mp = 6 \/ mp = 8 -> d <= 30) /\
  (mp = 11 -> d <= 29 /\ (is_leap y = false -> d <= 28)).
Proof.
  intros Hm. assert (m = 1 \/ m = 2 \/ m = 3 \/ m = 4 \/ m = 5 \/ m = 6 \/ m = 7 \/ m = 8 \/ m = 9
    \/ m = 10 \/ m = 11 \/ m = 12) as Hc by lia.
  destruct (is_leap y) eqn:El;
  repeat (destruct Hc as [->|Hc]; [cbn; rewrite ?El; lia|]); subst; cbn; rewrite ?El; lia.
Qed.

Lemma civil_of_days_valid days :
  let '(y, m, d) := civil_of_days days in valid_date y m d /\ days_of_civil y m d = days.
Proof.
  unfold civil_of_days. set (z := days + 719468). set (era := z / 146097).
  pose proof (Z.mod_pos_bound z 146097 ltac:(lia)) as Hdoe.
  pose proof (Z.div_mod z 146097 ltac:(lia)) as Hz. fold era in Hz.
  set (doe := z mod 146097) in *. destruct (doe_fields doe Hdoe) as (Hy & Hd & Hl).
  fold (yoe_of doe) (doy_of doe). set (yoe := yoe_of doe) in *.
  destruct (doy_month (doy_of doe) Hd) as (Hmp & Hdd & H30 & H29).
  set (mp := (5 * doy_of doe + 2) / 153) in *. set (d := doy_of doe - (153 * mp + 2) / 5 + 1) in *.
  set (m := if mp <? 10 then mp + 3 else mp - 9).
  assert (1 <= m <= 12) as Hm by (unfold m; destruct (Z.ltb_spec mp 10); lia).
  assert ((if 2 <? m then m - 3 else m + 9) = mp) as Emp
    by (unfold m; destruct (Z.ltb_spec mp 10);
        [destruct (Z.ltb_spec 2 (mp + 3))|destruct (Z.ltb_spec 2 (mp - 9))]; lia).
  split.
  - split; [done|]. split; [lia|]. apply days_in_month_march; [done|]. rewrite Emp.
    split_and!; [lia|lia|]. intros E11. split; [lia|]. intros Hnl.
    assert (m <=? 2 = true) as E2 by (unfold m; rewrite E11; done). rewrite E2 in Hnl.
    replace (yoe + era * 400 + b2z true) with (yoe + 1 + era * 400) in Hnl by (cbn; lia).
    rewrite leap_era in Hnl. apply H29; [done|].
    destruct (decide (doy_of doe = 365)) as [E|]; [by rewrite (Hl E) in Hnl|lia].
  - unfold days_of_civil. rewrite Emp.
    replace (yoe + era * 400 + b2z (m <=? 2) - b2z (m <=? 2)) with (yoe + era * 400) by lia.
    rewrite Z.div_add, Z.mod_add, (Z.div_small yoe), (Z.mod_small yoe) by lia.
    unfold d, doy_of. fold yoe. unfold z in Hz. lia.
Qed.

Lemma days_of_civil_inverse y m d : valid_date y m d -> civil_of_days (days_of_civil y m d) = (y, m, d).
Proof.
  intros (Hm & Hd1 & Hd). apply days_in_month_march in Hd; [|done]. unfold days_of_civil.
  set (mp := if 2 <? m then m - 3 else m + 9) in *. destruct Hd as (Hd31 & H30 & H29).
  assert (0 <= mp < 12) as Hmp by (unfold mp; destruct (Z.ltb_spec 2 m); lia).
  destruct (march_doy mp d Hmp ltac:(lia) H30 ltac:(lia)) as (Hdoy & H365 & Emp & Ed).
  set (doy := (153 * mp + 2) / 5 + d - 1) in *. set (y' := y - b2z (m <=? 2)).
  pose (era := y' / 400). pose (yoe := y' mod 400). fold era yoe.
  pose proof (Z.mod_pos_bound y' 400 ltac:(lia)) as Hyoe. fold yoe in Hyoe.
  pose proof (Z.div_mod y' 400 ltac:(lia)) as Hy'. fold era yoe in Hy'.
  destruct (yoe_unique yoe doy) as (Hdoe & Ey & Edoy); [done|done| |].
  - intros E. destruct (H365 E) as [E11 E29]. destruct H29 as [_ Hnl]; [done|].
    destruct (is_leap y) eqn:El; [|specialize (Hnl eq_refl); lia].
    assert (y = yoe + 1 + era * 400) as Eyear.
    { unfold y' in Hy'. assert (m <=? 2 = true) as E2.
      { apply Z.leb_le. unfold mp in E11. destruct (Z.ltb_spec 2 m); lia. }
      rewrite E2 in Hy'. cbn in Hy'. lia. }
    by rewrite Eyear, leap_era in El.
  - set (doe := yoe * 365 + yoe / 4 - yoe / 100 + doy) in *. unfold civil_of_days.
    replace (era * 146097 + doe - 719468 + 719468) with (doe + era * 146097) by lia.
    rewrite Z.div_add, Z.mod_add, (Z.div_small doe), (Z.mod_small doe) by lia.
    fold (yoe_of doe). rewrite Ey.
    assert (doe - (365 * yoe + yoe / 4 - yoe / 100) = doy) as -> by (unfold doe; lia).
    rewrite Emp, Ed.
    assert ((if mp <? 10 then mp + 3 else mp - 9) = m) as ->.
    { unfold mp. destruct (Z.ltb_spec 2 m).
      - destruct (Z.ltb_spec (m - 3) 10); lia.
      - destruct (Z.ltb_spec (m + 9) 10); lia. }
    f_equal. f_equal. unfold y' in Hy'. lia.
Qed.

(** ** Order *)

(** The days before March of year [y]. *)
Definition march_days (y : Z) : Z := 365 * y + y / 4 - y / 100 + y / 400 - 719468.

Lemma march_days_mono y y' : y < y' ->
  march_days y + 365 <= march_days y' /\
  (is_leap (y + 1) = true -> march_days y + 366 <= march_days y').
Proof.
  rewrite is_leap_spec. unfold march_days. intros. Z.to_euclidean_division_equations. lia.
Qed.

(** A date as a March-based year, month and day; months count up across years. *)
Lemma ymd_march y m d : valid_date y m d ->
  exists y' mp, 12 * y' + mp = 12 * y + m - 3 /\ 0 <= mp < 12 /\ 1 <= d <= 31 /\
    let doy := (153 * mp + 2) / 5 + d - 1 in
    days_of_civil y m d = march_days y' + doy /\ 0 <= doy <= 365 /\
    (doy = 365 -> is_leap (y' + 1) = true) /\
    (mp = 1 \/ mp = 3 \/ mp = 6 \/ mp = 8 -> d <= 30).
Proof.
  intros (Hm & Hd1 & Hd). apply days_in_month_march in Hd; [|done].
  set (mp := if 2 <? m then m - 3 else m + 9) in *. destruct Hd as (Hd31 & H30 & H29).
  exists (y - b2z (m <=? 2)), mp.
  assert (0 <= mp < 12) as Hmp by (unfold mp; destruct (Z.ltb_spec 2 m); lia).
  destruct (march_doy mp d Hmp ltac:(lia) H30 ltac:(lia)) as (Hdoy & H365 & _).
  cbv zeta. split_and!; [|lia|lia|lia|lia| |lia|lia| |done].
  - unfold mp. destruct (Z.ltb_spec 2 m), (Z.leb_spec m 2); cbn; lia.
  - unfold days_of_civil, march_days. fold mp. set (y' := y - b2z (m <=? 2)).
    set (doy := (153 * mp + 2) / 5 + d - 1). clearbody y' doy.
    Z.to_euclidean_division_equations. lia.
  - intros E. destruct (H365 E) as [E11 E29]. destruct H29 as [_ Hnl]; [done|].
    assert (m = 2) as -> by (unfold mp in E11; destruct (Z.ltb_spec 2 m); lia). cbn.
    replace (y - 1 + 1) with y by lia. destruct (is_leap y); [done|]. specialize (Hnl eq_refl). lia.
Qed.

Lemma days_of_civil_lt y m d y2 m2 d2 :
  valid_date y m d -> valid_date y2 m2 d2 ->
  12 * y + m < 12 * y2 + m2 \/ (12 * y + m = 12 * y2 + m2 /\ d < d2) ->
  days_of_civil y m d < days_of_civil y2 m2 d2.
Proof.
  intros Hv Hv2 Hlt. destruct (ymd_march y m d Hv) as (y' & mp & E & Hmp & Hd & -> & Hdoy & Hl & H30).
  destruct (ymd_march y2 m2 d2 Hv2) as (y2' & mp2 & E2 & Hmp2 & Hd2 & -> & Hdoy2 & Hl2 & H302).
  destruct (Z.lt_trichotomy y' y2') as [Hy|[->|Hy]]; [| |lia].
  - destruct (march_days_mono y' y2' Hy) as [H5 H6].
    destruct (decide ((153 * mp + 2) / 5 + d - 1 = 365)) as [E5|]; [specialize (H6 (Hl E5)); lia|lia].
  - clear Hl Hl2. Z.to_euclidean_division_equations. lia.
Qed.

Lemma cmp_date y m d y2 m2 d2 :
  valid_date y m d -> valid_date y2 m2 d2 ->
  cmp (y, m, d) (y2, m2, d2) = (days_of_civil y m d ?= days_of_civil y2 m2 d2).
Proof.
  intros Hv Hv2. pose proof (days_of_civil_lt _ _ _ _ _ _ Hv Hv2) as H1.
  pose proof (days_of_civil_lt _ _ _ _ _ _ Hv2 Hv) as H2. destruct Hv as (Hm & Hd), Hv2 as (Hm2 & Hd2).
  unfold cmp, cmp_prod. cbn [fst snd]. unfold cmp, cmp_prod, cmp_Z. cbn [fst snd].
  symmetry.
  destruct (Z.compare_spec y y2) as [->|Hy|Hy];
    [|apply Z.compare_lt_iff, H1; lia|apply Z.compare_gt_iff, H2; lia].
  destruct (Z.compare_spec m m2) as [->|Hmm|Hmm];
    [|apply Z.compare_lt_iff, H1; lia|apply Z.compare_gt_iff, H2; lia].
  destruct (Z.compare_spec d d2) as [->|Hdd|Hdd];
    [apply Z.compare_refl|apply Z.compare_lt_iff, H1; lia|apply Z.compare_gt_iff, H2; lia].
Qed.

(** ** The machine width *)

(** One wrap is enough, unless [i64::MIN] is decreased. *)
Lemma ymd_to_days_wrap y m d : - i64_lim < y < i64_lim ->
  ymd_to_days y m d = wrap_i64 (days_of_civil y m d).
Proof.
  intros Hy. unfold ymd_to_days, days_of_civil.
  rewrite (wrap_i64_small (y - _)) by (destruct (m <=? 2); cbn; lia). cbv zeta.
  by rewrite <-!Z.add_opp_r, wrap_i64_add, <-Z.add_assoc, wrap_i64_add, Z.add_assoc.
Qed.

Lemma days_to_ymd_wrap days : days_to_ymd days = civil_of_days (wrap_i64 (days + 719468) - 719468).
Proof. unfold days_to_ymd, civil_of_days. by replace (_ - 719468 + 719468) with (wrap_i64 (days + 719468)) by lia. Qed.

(** The last day number whose date is computed without overflow. *)
Definition LAST_DAY : Z := i64_lim - 719468 - 1.

Lemma days_to_ymd_small days : - i64_lim <= days <= LAST_DAY -> days_to_ymd days = civil_of_days days.
Proof.
  intros Hd. rewrite days_to_ymd_wrap, wrap_i64_small by (unfold LAST_DAY in Hd; lia).
  f_equal. lia.
Qed.

(** Past the last day the sum wraps. *)
Lemma days_to_ymd_large days : LAST_DAY < days < i64_lim -> days_to_ymd days = civil_of_days (days - u64_lim).
Proof.
  intros Hd. rewrite days_to_ymd_wrap. f_equal. unfold wrap_i64, LAST_DAY in *.
  replace (days + 719468 + i64_lim) with (days + 719468 - i64_lim + 1 * u64_lim) by (unfold u64_lim, i64_lim; lia).
  rewrite Z.mod_add, Z.mod_small by (unfold u64_lim, i64_lim in *; lia). unfold u64_lim, i64_lim. lia.
Qed.

Lemma civil_year days : - u64_lim <= days < u64_lim -> - i64_lim < (civil_of_days days).1.1 < i64_lim.
Proof.
  intros Hd. unfold civil_of_days. cbv zeta. cbn [fst snd]. remember (days + 719468) as z eqn:Ez.
  pose proof (doe_fields (z mod 146097) (Z.mod_pos_bound z 146097 ltac:(done))) as (Hy & _).
  fold (yoe_of (z mod 146097)). set (m := _ <=? 2). assert (0 <= b2z m <= 1) by (destruct m; cbn; lia).
  assert (z = 146097 * (z / 146097) + z mod 146097) as Hz by (by apply Z.div_mod).
  pose proof (Z.mod_pos_bound z 146097 ltac:(done)). clearbody m.
  unfold u64_lim, i64_lim in *. lia.
Qed.

(** Years whose day numbers are far inside [i64]. *)
Definition LAST_YEAR : Z := 25 * 10 ^ 15.

Lemma ymd_to_days_small y m d : valid_date y m d -> - LAST_YEAR <= y <= LAST_YEAR ->
  - i64_lim <= days_of_civil y m d <= LAST_DAY /\ ymd_to_days y m d = days_of_civil y m d.
Proof.
  intros Hv Hy. assert (- i64_lim <= days_of_civil y m d <= LAST_DAY) as Hd.
  { destruct (ymd_march y m d Hv) as (y' & mp & E & Hmp & _ & -> & Hdoy & _). destruct Hv as [Hm _].
    assert (- LAST_YEAR - 1 <= y' <= LAST_YEAR) as Hy' by lia.
    unfold march_days, LAST_DAY, LAST_YEAR, i64_lim in *. clear - Hy' Hdoy.
    Z.to_euclidean_division_equations. lia. }
  split; [done|]. rewrite ymd_to_days_wrap by (unfold LAST_YEAR, i64_lim in *; lia).
  apply wrap_i64_small. unfold LAST_DAY in Hd. clear Hy Hv. lia.
Qed.

(** The date of a timestamp. *)
Lemma days_of_ts ts : 0 <= ts < u64_lim ->
  days_to_ymd (to_signed64 (ts / US_PER_DAY)) = civil_of_days (ts / US_PER_DAY).
Proof.
  intros Hts. assert (0 <= ts / US_PER_DAY < 2 ^ 28) as Hd.
  { split; [apply Z.div_pos; [lia|done]|]. apply Z.div_lt_upper_bound; [done|].
    unfold US_PER_DAY, US_PER_HOUR, US_PER_SEC, u64_lim in *. lia. }
  unfold to_signed64. rewrite (proj2 (Z.ltb_lt _ _)) by (unfold i64_lim; lia).
  apply days_to_ymd_small. unfold LAST_DAY, i64_lim. lia.
Qed.

(** ** The hour of a timestamp *)

Lemma civil_of_days_range days : 0 <= days -> let '(y, m, d) := civil_of_days days in 1970 <= y.
Proof.
  intros Hd. pose proof (civil_of_days_valid days) as H. destruct (civil_of_days days) as [[y m] d].
  destruct H as [Hv E]. destruct (Z.lt_ge_cases y 1970) as [Hy|]; [|lia].
  assert (valid_date 1970 1 1) as Hv0 by (split; cbn; lia).
  pose proof (days_of_civil_lt y m d 1970 1 1 Hv Hv0) as H. change (days_of_civil 1970 1 1) with 0 in H.
  destruct Hv. lia.
Qed.

(** The fields of a timestamp: a date and an hour that count the hours. *)
Lemma hour_fields ts : 0 <= ts < u64_lim ->
  exists y m d h, hour_partition ts = lit "hour=" ++ show_pad 4 y ++ lit "-" ++ show_pad 2 m
      ++ lit "-" ++ show_pad 2 d ++ lit "T" ++ show_pad 2 h /\
    civil_of_days (ts / US_PER_DAY) = (y, m, d) /\ valid_date y m d /\
    1970 <= y /\ 0 <= h < 24 /\ ts / US_PER_HOUR = days_of_civil y m d * 24 + h.
Proof.
  intros Hts. unfold hour_partition. cbv zeta. rewrite days_of_ts by done. pose proof (civil_of_days_valid (ts / US_PER_DAY)) as Hv.
  pose proof (civil_of_days_range (ts / US_PER_DAY)) as Hr.
  destruct (civil_of_days (ts / US_PER_DAY)) as [[y m] d]. destruct Hv as [Hv E].
  eexists y, m, d, _. split_and!; [done|done|done|apply Hr|..]; rewrite ?E;
    unfold US_PER_DAY, US_PER_HOUR, US_PER_SEC;
    Z.to_euclidean_division_equations; lia.
Qed.

Lemma days_in_month_le y m : days_in_month y m <= 31.
Proof. unfold days_in_month. repeat case_match; lia. Qed.

(** Digits end where a separator starts. *)
Lemma pad_sep_inj w c n n' x x' :
  0 <= n -> 0 <= n' -> is_digit c = false ->
  show_pad w n ++ [c] ++ x = show_pad w n' ++ [c] ++ x' -> n = n' /\ x = x'.
Proof.
  intros Hn Hn' Hc E. cbn [app] in E. apply (f_equal (split_once c)) in E.
  rewrite !(split_once_app c) in E by
    (apply digits_no_sep; [by apply show_pad_digits|done]).
  injection E as E1 E2. apply show_pad_inj in E1; [done|lia|lia].
Qed.

Lemma hour_partition_inj a b : 0 <= a < u64_lim -> 0 <= b < u64_lim ->
  hour_partition a = hour_partition b <-> a / US_PER_HOUR = b / US_PER_HOUR.
Proof.
  intros Ha Hb.
  destruct (hour_fields a Ha) as (y & m & d & h & -> & Ey & Hv & Hy & Hh & Ea).
  destruct (hour_fields b Hb) as (y2 & m2 & d2 & h2 & -> & Ey2 & Hv2 & Hy2 & Hh2 & Eb).
  pose proof Hv as (Hm & Hd). pose proof Hv2 as (Hm2 & Hd2). split.
  - intros E. apply app_inv_head in E.
    apply pad_sep_inj in E as [-> E]; [|lia|lia|done].
    apply pad_sep_inj in E as [-> E]; [|lia|lia|done].
    apply pad_sep_inj in E as [-> E]; [|lia|lia|done].
    apply show_pad_inj in E; lia.
  - intros E. assert (days_of_civil y m d = days_of_civil y2 m2 d2 /\ h = h2) as [Ed ->] by lia.
    apply (f_equal civil_of_days) in Ed. rewrite !days_of_civil_inverse in Ed by done.
    by injection Ed as -> -> ->.
Qed.

Lemma hour_partition_cmp a b y m d y2 m2 d2 : 0 <= a < u64_lim -> 0 <= b < u64_lim ->
  civil_of_days (a / US_PER_DAY) = (y, m, d) -> civil_of_days (b / US_PER_DAY) = (y2, m2, d2) ->
  y < 10000 -> y2 < 10000 ->
  zlen (hour_partition a) = 18 /\
  cmp (hour_partition a) (hour_partition b) = (a / US_PER_HOUR ?= b / US_PER_HOUR).
Proof.
  intros Ha Hb Ey Ey2 Hlt Hlt2.
  destruct (hour_fields a Ha) as (? & ? & ? & h & -> & Ey' & Hv & Hy & Hh & Ea).
  rewrite Ey in Ey'. injection Ey' as <- <- <-.
  destruct (hour_fields b Hb) as (? & ? & ? & h2 & -> & Ey2' & Hv2 & Hy2 & Hh2 & Eb).
  rewrite Ey2 in Ey2'. injection Ey2' as <- <- <-.
  pose proof Hv as (Hm & Hd). pose proof Hv2 as (Hm2 & Hd2).
  pose proof (days_in_month_le y m). pose proof (days_in_month_le y2 m2).
  assert (forall n, 0 <= n < 100 -> length (show_pad 2 n) = 2%nat) as L2
    by (intros; apply length_show_pad_small; lia).
  assert (forall n, 0 <= n < 10000 -> length (show_pad 4 n) = 4%nat) as L4
    by (intros; apply length_show_pad_small; lia).
  split; [unfold zlen; rewrite !length_app, !L2, L4 by lia; done|].
  rewrite !cmp_app by (rewrite ?L2, ?L4 by lia; done). rewrite !cmp_show_pad by lia.
  rewrite !(cmp_refl (lit _)). rewrite Ea, Eb.
  pose proof (cmp_date _ _ _ _ _ _ Hv Hv2) as Hc. unfold cmp, cmp_prod in Hc. cbn [fst snd] in Hc.
  unfold cmp, cmp_prod, cmp_Z in Hc. cbn [fst snd] in Hc.
  clear - Hc Hh Hh2. generalize dependent (days_of_civil y m d). intros D.
  generalize dependent (days_of_civil y2 m2 d2). intros D2 Hc.
  destruct (y ?= y2); [destruct (m ?= m2); [destruct (d ?= d2)|..]|..]; symmetry in Hc;
    first [apply Z.compare_eq_iff in Hc; rewrite Hc;
           destruct (Z.compare_spec h h2); symmetry;
           [apply Z.compare_eq_iff|apply Z.compare_lt_iff|apply Z.compare_gt_iff]; lia
          |rewrite Z.compare_lt_iff in Hc; symmetry; apply Z.compare_lt_iff; lia
          |rewrite Z.compare_gt_iff in Hc; symmetry; apply Z.compare_gt_iff; lia].
Qed.

(** ** Text *)

Lemma next_num_pad w n rest : (1 <= w)%nat -> 0 <= n < 2 ^ 63 ->
  next_num (show_pad w n :: rest) = Ok (n, rest).
Proof.
  intros Hw Hn. unfold next_num. rewrite show_pad_digits by lia. cbn [negb].
  assert (zlen (show_pad w n) <> 0) as Hz by (unfold zlen; rewrite length_show_pad; lia).
  apply Z.eqb_neq in Hz. rewrite Hz. cbn [orb]. by rewrite parse_uint_show_pad.
Qed.

Lemma three_nums_pad sep w1 w2 w3 a b c :
  is_digit sep = false -> (1 <= w1)%nat -> (1 <= w2)%nat -> (1 <= w3)%nat ->
  0 <= a < 2 ^ 63 -> 0 <= b < 2 ^ 63 -> 0 <= c < 2 ^ 63 ->
  three_nums sep (show_pad w1 a ++ sep :: show_pad w2 b ++ sep :: show_pad w3 c) = Ok (a, b, c).
Proof.
  intros Hs H1 H2 H3 Ha Hb Hc.
  assert (forall w n, 0 <= n -> sep ∉ show_pad w n) as Hno
    by (intros; apply digits_no_sep; [by apply show_pad_digits|done]).
  unfold three_nums. rewrite !split_app_sep by (apply Hno; lia).
  rewrite split_no_sep by (apply Hno; lia). unfold mbind, result_bind.
  by rewrite !next_num_pad.
Qed.

(** The fields of the printed time. *)
Lemma time_fields ts : 0 <= ts < u64_lim ->
  let rem := ts mod US_PER_DAY in
  let h := rem / US_PER_HOUR in
  let mi := (rem mod US_PER_HOUR) / (60 * US_PER_SEC) in
  let s := (rem mod (60 * US_PER_SEC)) / US_PER_SEC in
  let us := rem mod US_PER_SEC in
  0 <= h <= 23 /\ 0 <= mi <= 59 /\ 0 <= s <= 59 /\ 0 <= us < 1000000 /\
  ts / US_PER_DAY * US_PER_DAY + h * US_PER_HOUR + mi * 60 * US_PER_SEC + s * US_PER_SEC + us = ts.
Proof.
  intros Hts. unfold US_PER_DAY, US_PER_HOUR, US_PER_SEC. cbv zeta.
  Z.to_euclidean_division_equations. lia.
Qed.

Lemma year_bound ts : 0 <= ts < u64_lim ->
  let '(y, _, _) := civil_of_days (ts / US_PER_DAY) in y < 600000.
Proof.
  intros Hts. pose proof (civil_of_days_valid (ts / US_PER_DAY)) as H.
  destruct (civil_of_days (ts / US_PER_DAY)) as [[y m] d]. destruct H as [Hv E].
  destruct (Z.lt_ge_cases y 600000) as [|Hge]; [done|exfalso].
  assert (valid_date 599999 12 31) as Hv' by (split; cbn; lia).
  pose proof (days_of_civil_lt _ _ _ _ _ _ Hv' Hv) as Hlt. destruct Hv as [Hm _].
  change (days_of_civil 599999 12 31) with 218425971 in Hlt. rewrite E in Hlt.
  assert (ts / US_PER_DAY < 218425971); [|lia]. apply Z.div_lt_upper_bound; [done|].
  unfold US_PER_DAY, US_PER_HOUR, US_PER_SEC, u64_lim in *. lia.
Qed.
(** The date and the time of day of a printed timestamp. *)
Definition date_text (y m d : Z) : bytes := show_pad 4 y ++ x2d :: show_pad 2 m ++ x2d :: show_pad 2 d.
Definition time_text (h mi s : Z) : bytes := show_pad 2 h ++ x3a :: show_pad 2 mi ++ x3a :: show_pad 2 s.

Lemma show_pad_no c w n : is_digit c = false -> 0 <= n -> c ∉ show_pad w n.
Proof. intros Hc Hn. apply digits_no_sep; [by apply show_pad_digits|done]. Qed.

Lemma date_text_no y m d : 0 <= y -> 0 <= m -> 0 <= d -> x54 ∉ date_text y m d.
Proof.
  intros. unfold date_text. rewrite !not_elem_of_app, !not_elem_of_cons, not_elem_of_app, not_elem_of_cons.
  split_and!; try (apply show_pad_no; [done|lia]); done.
Qed.

Lemma time_text_no h mi s : 0 <= h -> 0 <= mi -> 0 <= s -> x2e ∉ time_text h mi s.
Proof.
  intros. unfold time_text. rewrite !not_elem_of_app, !not_elem_of_cons, not_elem_of_app, not_elem_of_cons.
  split_and!; try (apply show_pad_no; [done|lia]); done.
Qed.

(** The printed form, cut at the separators of the parser. *)
Lemma format_shape ts y m d : 0 <= ts < u64_lim -> civil_of_days (ts / US_PER_DAY) = (y, m, d) ->
  let rem := ts mod US_PER_DAY in
  format_rfc3339_utc ts =
    (date_text y m d ++ x54 :: time_text (rem / US_PER_HOUR) (rem mod US_PER_HOUR / (60 * US_PER_SEC))
       (rem mod (60 * US_PER_SEC) / US_PER_SEC) ++ x2e :: show_pad 6 (rem mod US_PER_SEC)) ++ lit "Z".
Proof.
  intros Hts Ey rem. unfold format_rfc3339_utc, date_text, time_text. cbv zeta. rewrite days_of_ts, Ey by done.
  change (lit "-") with [x2d]. change (lit "T") with [x54]. change (lit ":") with [x3a].
  change (lit ".") with [x2e].
  repeat first [rewrite <-app_assoc | progress cbn [app]]. reflexivity.
Qed.

Lemma parse_format ts y m d : 0 <= ts < u64_lim ->
  civil_of_days (ts / US_PER_DAY) = (y, m, d) ->
  parse_rfc3339_utc (format_rfc3339_utc ts)
  = if y <=? MAX_YEAR then Ok ts else bad "year out of range".
Proof.
  intros Hts Ey. pose proof (year_bound ts Hts) as Hy. rewrite Ey in Hy.
  pose proof (civil_of_days_valid (ts / US_PER_DAY)) as Hv. rewrite Ey in Hv.
  destruct Hv as [(Hm & Hd) Eday]. pose proof (days_in_month_le y m).
  pose proof (civil_of_days_range (ts / US_PER_DAY)) as Hy0. rewrite Ey in Hy0.
  assert (1970 <= y) as Hy1 by (apply Hy0; apply Z.div_pos; [lia|done]).
  destruct (time_fields ts Hts) as (Hh & Hmi & Hs & Hus & Ets). cbv zeta in Ets.
  rewrite (format_shape ts y m d Hts Ey). cbv zeta.
  set (rem := ts mod US_PER_DAY) in *. set (h := rem / US_PER_HOUR) in *.
  set (mi := rem mod US_PER_HOUR / (60 * US_PER_SEC)) in *.
  set (s := rem mod (60 * US_PER_SEC) / US_PER_SEC) in *. set (us := rem mod US_PER_SEC) in *.
  unfold parse_rfc3339_utc. rewrite strip_suffix_app. change (lit "T") with [x54].
  rewrite split_once_app by (apply date_text_no; lia). unfold mbind, result_bind.
  unfold date_text at 1. rewrite (three_nums_pad x2d 4 2 2 y m d) by (done || lia).
  rewrite (proj2 (Z.leb_le MIN_YEAR y)) by (unfold MIN_YEAR; lia). cbn [andb].
  destruct (y <=? MAX_YEAR); [|done]. cbn [negb].
  rewrite !(proj2 (Z.leb_le _ _)) by lia. cbn [andb negb].
  rewrite !(proj2 (Z.ltb_ge _ _)) by lia. cbn [orb].
  unfold parse_fraction. rewrite split_once_app by (apply time_text_no; lia).
  assert (zlen (show_pad 6 us) = 6) as L6 by (unfold zlen; rewrite length_show_pad_small by lia; lia).
  rewrite L6, show_pad_digits by lia. cbn [negb orb Z.eqb Z.ltb Z.compare].
  rewrite parse_uint_show_pad by (unfold u64_lim; lia).
  change ((6 <? 6) || false) with false. cbv iota.
  unfold time_text. rewrite (three_nums_pad x3a 2 2 2 h mi s) by (done || lia).
  rewrite !(proj2 (Z.ltb_ge _ _)) by lia. cbn [orb].
  rewrite (proj2 (ymd_to_days_small y m d ltac:(by split) ltac:(unfold LAST_YEAR, MAX_YEAR; lia))), Eday. f_equal. change (10 ^ (6 - 6)) with 1. lia.
Qed.

(** Times of day and dates within the bounds keep the sum inside [u64]. *)
Lemma three_nums_range sep s a b c : three_nums sep s = Ok (a, b, c) -> 0 <= a /\ 0 <= b /\ 0 <= c.
Proof.
  assert (forall ps n rest, next_num ps = Ok (n, rest) -> 0 <= n) as Hn.
  { intros [|raw ps] n rest E; [done|]. unfold next_num in E.
    destruct ((zlen raw =? 0) || negb (all_digits raw)) eqn:Eb; [done|].
    destruct (parse_uint (2 ^ 63) raw) eqn:Ep; [|done]. injection E as -> <-.
    apply orb_false_iff in Eb as [_ Eb]. apply negb_false_iff in Eb.
    apply parse_uint_digits in Ep; [|done]. pose proof (digits_val_range raw Eb). lia. }
  unfold three_nums, mbind, result_bind. intros E.
  destruct (next_num (split sep s)) as [[? p1]|] eqn:E1; [|done].
  destruct (next_num p1) as [[? p2]|] eqn:E2; [|done].
  destruct (next_num p2) as [[? p3]|] eqn:E3; [|done].
  destruct p3; [|done]. injection E as -> -> ->. split_and!; eapply Hn; eassumption.
Qed.

Lemma parse_fraction_range rest t frac : parse_fraction rest = Ok (t, frac) -> 0 <= frac < 1000000.
Proof.
  unfold parse_fraction. intros Ef.
  destruct (split_once x2e rest) as [[t' fr]|]; [|injection Ef as <- <-; lia].
  destruct (_ || _ || _) eqn:Eb in Ef; [done|].
  apply orb_false_iff in Eb as [Eb Hdig%negb_false_iff]. apply orb_false_iff in Eb as [Hl0 Hl6].
  destruct (parse_uint u64_lim fr) as [v|] eqn:Ev; [|done]. injection Ef as <- <-.
  apply parse_uint_digits in Ev as [-> _]; [|done]. pose proof (digits_val_range fr Hdig) as Hr.
  apply Z.eqb_neq in Hl0. apply Z.ltb_ge in Hl6. pose proof (zlen_nonneg fr).
  assert (10 ^ zlen fr * 10 ^ (6 - zlen fr) = 1000000) as Hp
    by (rewrite <-Z.pow_add_r by lia; by replace (zlen fr + (6 - zlen fr)) with 6 by lia).
  pose proof (Z.pow_pos_nonneg 10 (6 - zlen fr) ltac:(lia) ltac:(lia)). nia.
Qed.

Lemma parse_range s us : parse_rfc3339_utc s = Ok us -> 0 <= us < u64_lim.
Proof.
  unfold parse_rfc3339_utc. intros E. destruct (strip_suffix (lit "Z") s) as [rest|]; [|done].
  destruct (split_once x54 rest) as [[date time]|]; [|done]. unfold mbind, result_bind in E.
  destruct (three_nums x2d date) as [[[y mo] d]|] eqn:Ed; [|done].
  destruct (negb _) eqn:Ey in E; [done|]. destruct (negb _) eqn:Em in E; [done|].
  destruct (_ || _) eqn:Edd in E; [done|].
  apply negb_false_iff, andb_true_iff in Ey as [Hy0%Z.leb_le Hy1%Z.leb_le].
  apply negb_false_iff, andb_true_iff in Em as [Hm0%Z.leb_le Hm1%Z.leb_le].
  apply orb_false_iff in Edd as [Hd0%Z.ltb_ge Hd1%Z.ltb_ge].
  destruct (parse_fraction time) as [[t frac]|] eqn:Ef; [|done].
  apply parse_fraction_range in Ef as Hfrac.
  destruct (three_nums x3a t) as [[[h mi] sec]|] eqn:Et; [|done].
  destruct (_ || _ || _) eqn:Eh in E; [done|].
  apply orb_false_iff in Eh as [Eh Hsec%Z.ltb_ge]. apply orb_false_iff in Eh as [Hh%Z.ltb_ge Hmi%Z.ltb_ge].
  apply three_nums_range in Et. injection E as <-.
  assert (valid_date y mo d) as Hv by (split; lia).
  assert (0 <= days_of_civil y mo d <= 90591463) as Hdays.
  { unfold MIN_YEAR, MAX_YEAR in *. split.
    - destruct (decide (y = 1970 /\ mo = 1 /\ d = 1)) as [(-> & -> & ->)|Hne]; [done|].
      assert (valid_date 1970 1 1) as H1 by (split; cbn; lia).
      pose proof (days_of_civil_lt _ _ _ _ _ _ H1 Hv) as Hlt.
      change (days_of_civil 1970 1 1) with 0 in Hlt. lia.
    - assert (valid_date 250001 1 1) as H1 by (split; cbn; lia).
      pose proof (days_of_civil_lt _ _ _ _ _ _ Hv H1) as Hlt.
      change (days_of_civil 250001 1 1) with 90591463 in Hlt. lia. }
  rewrite (proj2 (ymd_to_days_small y mo d Hv ltac:(unfold MIN_YEAR, MAX_YEAR, LAST_YEAR in *; lia))).
  unfold US_PER_DAY, US_PER_HOUR, US_PER_SEC, u64_lim. lia.
Qed.

(** ** The contract *)

(** C38: The calendar conversions at the width of [i64]. Of every day number whose shifted
    sum fits [i64], [days_to_ymd] gives a valid date (leap years included, before 1970
    too), day 0 being 1970-01-01, and dates are ordered as their day numbers: so the date
    is the calendar's. [ymd_to_days] is its inverse: it takes the date of any day number
    back to the day number, and every valid date of a year up to [LAST_YEAR] (25 * 10^15,
    either sign) has a day number of which it is the date. Past the last of these day
    numbers, [i64::MAX - 719468], the sum wraps and the date is before 1970. *)
Theorem civil_dates_exact :
  days_to_ymd 0 = (1970, 1, 1) /\
  (forall days, - i64_lim <= days <= LAST_DAY ->
     let '(y, m, d) := days_to_ymd days in
     valid_date y m d /\ ymd_to_days y m d = days /\
     forall days', - i64_lim <= days' <= LAST_DAY -> cmp (y, m, d) (days_to_ymd days') = (days ?= days')) /\
  (forall y m d, valid_date y m d -> - LAST_YEAR <= y <= LAST_YEAR ->
     - i64_lim <= ymd_to_days y m d <= LAST_DAY /\ days_to_ymd (ymd_to_days y m d) = (y, m, d)) /\
  (forall days, LAST_DAY < days < i64_lim -> (days_to_ymd days).1.1 < 1970).
Proof.
  split_and!; [done|..].
  - intros days Hd. rewrite days_to_ymd_small by done. pose proof (civil_of_days_valid days) as H.
    pose proof (civil_year days ltac:(unfold LAST_DAY, u64_lim, i64_lim in *; lia)) as Hy.
    destruct (civil_of_days days) as [[y m] d]. destruct H as [Hv E]. split_and!; [done| |].
    + rewrite ymd_to_days_wrap, E by done. apply wrap_i64_small. unfold LAST_DAY in Hd. lia.
    + intros days' Hd'. rewrite days_to_ymd_small by done. pose proof (civil_of_days_valid days') as H'.
      destruct (civil_of_days days') as [[y' m'] d']. destruct H' as [Hv' E']. rewrite <-E, <-E'. by apply cmp_date.
  - intros y m d Hv Hy. destruct (ymd_to_days_small y m d Hv Hy) as [Hd ->]. split; [done|].
    rewrite days_to_ymd_small by done. by apply days_of_civil_inverse.
  - intros days Hd. rewrite days_to_ymd_large by done. pose proof (civil_of_days_valid (days - u64_lim)) as H.
    destruct (civil_of_days (days - u64_lim)) as [[y m] d]. destruct H as [Hv E]. cbn.
    assert (valid_date 1970 1 1) as Hv0 by (split; cbn; lia). destruct (Z.lt_ge_cases y 1970) as [|Hge]; [done|].
    assert (0 <= days_of_civil y m d); [|unfold u64_lim, i64_lim, LAST_DAY in *; lia].
    destruct (decide ((y, m, d) = (1970, 1, 1))) as [[= -> -> ->]|Hne]; [done|].
    pose proof (days_of_civil_lt 1970 1 1 y m d Hv0 Hv) as Hlt. change (days_of_civil 1970 1 1) with 0 in Hlt.
    destruct Hv as [Hm Hdd]. assert (y <> 1970 \/ m <> 1 \/ d <> 1) by (destruct (decide (y = 1970)); [|lia];
      destruct (decide (m = 1)); [|lia]; destruct (decide (d = 1)); [subst; by destruct Hne|lia]). lia.
Qed.

(** Two timestamps are in one partition directory iff they are in the same hour;
    up to the year 9999 the directory names have a fixed width and sort as the hours
    do. *)
Theorem hour_partition_faithful a b : 0 <= a < u64_lim -> 0 <= b < u64_lim ->
  (hour_partition a = hour_partition b <-> a / US_PER_HOUR = b / US_PER_HOUR) /\
  (a < 253402300800 * US_PER_SEC -> b < 253402300800 * US_PER_SEC ->
   zlen (hour_partition a) = 18 /\
   cmp (hour_partition a) (hour_partition b) = (a / US_PER_HOUR ?= b / US_PER_HOUR)).
Proof.
  intros Ha Hb. split; [by apply hour_partition_inj|]. intros Ha' Hb'.
  assert (forall ts, 0 <= ts -> ts < 253402300800 * US_PER_SEC ->
    exists y m d, civil_of_days (ts / US_PER_DAY) = (y, m, d) /\ y < 10000) as Hyear.
  { intros ts H0 H1. pose proof (civil_of_days_valid (ts / US_PER_DAY)) as H.
    destruct (civil_of_days (ts / US_PER_DAY)) as [[y m] d]. destruct H as [Hv E].
    exists y, m, d. split; [done|]. destruct (Z.lt_ge_cases y 10000) as [|Hge]; [done|exfalso].
    assert (valid_date 9999 12 31) as Hv' by (split; cbn; lia).
    pose proof (days_of_civil_lt _ _ _ _ _ _ Hv' Hv) as Hlt. destruct Hv as [Hm _].
    change (days_of_civil 9999 12 31) with 2932896 in Hlt. rewrite E in Hlt.
    assert (ts / US_PER_DAY < 2932897) by (apply Z.div_lt_upper_bound; [done|];
      unfold US_PER_DAY, US_PER_HOUR, US_PER_SEC in *; lia). lia. }
  destruct (Hyear a (proj1 Ha) Ha') as (y & m & d & E & Hy), (Hyear b (proj1 Hb) Hb') as (y2 & m2 & d2 & E2 & Hy2).
  by eapply hour_partition_cmp.
Qed.

(** RFC 3339 text round trip: every timestamp up to the last accepted year is read
    back from its printed form; a later one is rejected, not misread; and a parsed
    timestamp always fits [u64]. *)
Theorem rfc3339_roundtrip ts s :
  0 <= ts < u64_lim ->
  parse_rfc3339_utc (format_rfc3339_utc ts)
    = (if (days_to_ymd (to_signed64 (ts / US_PER_DAY))).1.1 <=? MAX_YEAR then Ok ts else bad "year out of range") /\
  (forall us, parse_rfc3339_utc s = Ok us -> 0 <= us < u64_lim).
Proof.
  intros Hts. split; [|apply parse_range]. rewrite days_of_ts by done.
  destruct (civil_of_days (ts / US_PER_DAY)) as [[y m] d] eqn:E. by eapply parse_format.
Qed.

(** ** Instances *)

(** A leap day, a day before 1970, and the two sides of the last day. *)
Lemma civil_dates_witness :
  days_to_ymd (ymd_to_days 2024 2 29) = (2024, 2, 29) /\
  ymd_to_days 1969 12 31 = -1 /\
  cmp (days_to_ymd (-1)) (days_to_ymd LAST_DAY) = Lt /\
  (days_to_ymd (LAST_DAY + 1)).1.1 < 1970.
Proof.
  destruct civil_dates_exact as (_ & Hdays & Hdates & Hlast).
  split; [|split; [|split]].
  - apply (Hdates 2024 2 29); vm_compute; repeat split; congruence.
  - assert (- i64_lim <= -1 <= LAST_DAY) as Hr by (vm_compute; split; congruence).
    destruct (Hdays (-1) Hr) as (_ & H & _). exact H.
  - assert (- i64_lim <= -1 <= LAST_DAY) as Hr by (vm_compute; split; congruence).
    destruct (Hdays (-1) Hr) as (_ & _ & H). exact (H LAST_DAY ltac:(vm_compute; split; congruence)).
  - apply Hlast. vm_compute. split; congruence.
Defined.

Example last_day : days_to_ymd LAST_DAY = (25252734927766554, 9, 25) /\
  days_to_ymd (LAST_DAY + 1) = (-25252734927766555, 8, 5).
Proof. vm_compute. done. Qed.

Lemma hour_partition_witness :
  hour_partition 1700000000000000 = hour_partition 1700002799999999 /\
  cmp (hour_partition 1700000000000000) (hour_partition 1700002799999999) = Eq.
Proof.
  destruct (hour_partition_faithful 1700000000000000 1700002799999999) as [Hi Hc]; [by vm_compute|by vm_compute|].
  split; [apply Hi; vm_compute; reflexivity|].
  rewrite (proj2 (Hc ltac:(vm_compute; reflexivity) ltac:(vm_compute; reflexivity))).
  vm_compute. reflexivity.
Defined.

Lemma rfc3339_witness :
  parse_rfc3339_utc (lit "2023-11-14T22:13:20.000007Z") = Ok 1700000000000007.
Proof.
  destruct (rfc3339_roundtrip 1700000000000007 []) as [H _]; [vm_compute; split; congruence|].
  assert (format_rfc3339_utc 1700000000000007 = lit "2023-11-14T22:13:20.000007Z") as <-
    by (vm_compute; reflexivity).
  rewrite H. vm_compute. reflexivity.
Defined.

(** Clients use the lemmas; the conversion of names is never wanted. *)
#[global] Opaque hour_partition.
