(* ===== verification/Config.v ===== *)
(** * Config: the validated configuration ([config.rs])

    The configuration records with their defaults, and [validate]: the numeric bounds
    and the names that become directories and columns, with what the other components
    need of both ([bounds_ok], [series_ok]).
    [serde_json] is a parameter of [config_load]; [str::to_lowercase] (a Unicode
    table) is the class [Lowercase]. *)

From Stdlib Require Import ZArith Lia.
From Stdlib Require Import Strings.Byte.
From S2P Require Import Prelude Text Record Codec Disk Time.
Open Scope Z_scope.

(** [struct ServerConfig]. *)
Record ServerConfig := mkServer {
  ingest_endpoint : bytes;
  control_endpoint : bytes;
  rcv_hwm : Z;
  max_batch_bytes : Z
}.

(** [struct LimitsConfig]; the cache of [ts_min_us] only saves the second parse. *)
Record LimitsConfig := mkLimits {
  max_record_bytes : Z;
  reject_max_bytes : Z;
  ts_min : bytes;
  ts_max_skew_ms : Z;
  validate_json : bool
}.

(** [struct WalConfig]. *)
Record WalConfig := mkWal {
  fsync_interval_ms : Z;
  fsync_bytes : Z;
  segment_max_bytes : Z
}.

(** [struct FlushConfig]. *)
Record FlushConfig := mkFlush {
  interval_ms : Z;
  on_startup : bool;
  compression : bytes;
  row_group_rows : Z;
  merge_fan_in : Z;
  memory_budget_bytes : Z
}.

(** [struct SeriesConfig]. *)
Record SeriesConfig := mkSeries {
  sc_name : bytes;
  sc_keys : list KeyDef
}.

(** [struct Config]. *)
Record Config := mkConfig {
  data_dir : bytes;
  cfg_server : ServerConfig;
  cfg_limits : LimitsConfig;
  cfg_wal : WalConfig;
  cfg_flush : FlushConfig;
  cfg_series : list SeriesConfig
}.

(** ** The defaults *)

Definition DEFAULT_MAX_BATCH_BYTES : Z := 8388608.

Definition server_default : ServerConfig :=
  mkServer (lit "tcp://127.0.0.1:5555") (lit "tcp://127.0.0.1:5556") 100000
    DEFAULT_MAX_BATCH_BYTES.

Definition limits_default : LimitsConfig :=
  mkLimits 16384 67108864 (lit "2000-01-01T00:00:00Z") 86400000 false.

Definition wal_default : WalConfig := mkWal 10 4194304 67108864.

Definition flush_default : FlushConfig :=
  mkFlush 3600000 true (lit "lz4_raw") 131072 64 268435456.

Definition config_default : Config :=
  mkConfig (lit "./data") server_default limits_default wal_default flush_default [].

(** ** Validation *)

(** [SUPPORTED_COMPRESSION] (flush/parquet.rs). *)
Definition SUPPORTED_COMPRESSION : list bytes :=
  [lit "lz4_raw"; lit "lz4"; lit "uncompressed"; lit "none"].

Definition RESERVED_KEY_NAMES : list bytes := [lit "ts"; lit "id"; lit "extra"; lit "data"].

Definition MAX_FLUSH_INTERVAL_MS : Z := 100 * 365 * 24 * 60 * 60 * 1000.

Definition ts_min_us (l : LimitsConfig) : result Error Z := parse_rfc3339_utc (ts_min l).

(** [if cond { return bad(..) }]. *)
Definition reject_if (cond : bool) (why : string) : result Error unit :=
  if cond then Err (ConfigErr why) else Ok tt.

(** [check_bounds]; the sums are [u64] additions of the release build. *)
Definition check_bounds (c : Config) : result Error unit :=
  let limits := cfg_limits c in
  let flush := cfg_flush c in
  let wal := cfg_wal c in
  let server := cfg_server c in
  reject_if (max_record_bytes limits =? 0) "limits.max_record_bytes must be greater than 0" ;;
  reject_if (merge_fan_in flush <? 2) "flush.merge_fan_in must be at least 2" ;;
  reject_if (memory_budget_bytes flush =? 0) "flush.memory_budget_bytes must be greater than 0" ;;
  reject_if (row_group_rows flush =? 0) "flush.row_group_rows must be greater than 0" ;;
  reject_if (MAX_FLUSH_INTERVAL_MS <? interval_ms flush) "flush.interval_ms is out of range" ;;
  reject_if (fsync_interval_ms wal =? 0) "wal.fsync_interval_ms must be greater than 0" ;;
  reject_if (fsync_bytes wal =? 0) "wal.fsync_bytes must be greater than 0" ;;
  (let smallest_segment := wrap64 (max_record_bytes limits + SEGMENT_HEADER_BYTES) in
   reject_if (segment_max_bytes wal <? smallest_segment) "wal.segment_max_bytes cannot hold one record") ;;
  reject_if (max_batch_bytes server <=? 0) "server.max_batch_bytes must be greater than 0" ;;
  (let smallest_useful := wrap64 (max_record_bytes limits + BATCH_HEADER_BYTES) in
   reject_if (max_batch_bytes server <? smallest_useful) "server.max_batch_bytes cannot hold one record") ;;
  reject_if (negb (bool_decide (compression flush ∈ SUPPORTED_COMPRESSION)))
    "flush.compression is not compiled in".

(** [name.chars().any(|c| c.is_control())]: the category Cc is U+0000 to U+001F and
    U+007F to U+009F, the latter encoded as C2 80 to C2 9F. *)
Fixpoint has_control (s : bytes) : bool :=
  match s with
  | [] => false
  | b :: r =>
      (byte_val b <? 32) || (byte_val b =? 127)
      || ((byte_val b =? 194) && match r with
                                 | b' :: _ => in_range 128 159 b'
                                 | [] => false
                                 end)
      || has_control r
  end.

Definition check_series_name (name : bytes) : result Error unit :=
  reject_if (zlen name =? 0) "must not be empty" ;;
  reject_if (u16_lim <=? zlen name) "must be under 64 KiB" ;;
  reject_if (bool_decide (name = lit ".") || bool_decide (name = lit "..")
             || bool_decide (x2f ∈ name) || bool_decide (x5c ∈ name))
    "must not be a path component like '.', '..' or contain a separator" ;;
  reject_if (has_control name) "must not contain control characters".

(** The loop over the keys of one series, with the names seen so far. *)
Fixpoint check_keys (seen : list bytes) (keys : list KeyDef) : result Error unit :=
  match keys with
  | [] => Ok tt
  | k :: keys' =>
      reject_if (zlen (key_name k) =? 0) "key with an empty name" ;;
      reject_if (bool_decide (key_name k ∈ RESERVED_KEY_NAMES)) "reserved key name" ;;
      reject_if (bool_decide (key_name k ∈ seen)) "key declared twice" ;;
      check_keys (key_name k :: seen) keys'
  end.

Class Lowercase := to_lowercase : bytes -> bytes.

Section validate.
Context `{Lowercase}.

(** The loop of [check_series], with [seen_series] and [seen_folded]. *)
Fixpoint check_series_list (seen folded : list bytes) (series : list SeriesConfig)
    : result Error unit :=
  match series with
  | [] => Ok tt
  | s :: series' =>
      check_series_name (sc_name s) ;;
      reject_if (bool_decide (sc_name s ∈ seen)) "duplicate series" ;;
      reject_if (bool_decide (to_lowercase (sc_name s) ∈ folded)) "series differing only in case" ;;
      check_keys [] (sc_keys s) ;;
      check_series_list (sc_name s :: seen) (to_lowercase (sc_name s) :: folded) series'
  end.

Definition check_series (c : Config) : result Error unit := check_series_list [] [] (cfg_series c).

Definition validate (c : Config) : result Error unit :=
  _ ← ts_min_us (cfg_limits c);
  check_bounds c ;;
  check_series c.

(** [Config::load]: [from_str] is [serde_json::from_str]. *)
Definition config_load (from_str : bytes -> option Config) (p : path) : io Config :=
  r ← read_file p;
  match r with
  | Err _ => throw (ConfigErr "cannot read")
  | Ok text =>
      match (if utf8_valid text then from_str text else None) with
      | None => throw (ConfigErr "config")
      | Some cfg => match validate cfg with Ok _ => mret cfg | Err e => throw e end
      end
  end.
End validate.

Definition find_series (c : Config) (name : bytes) : option SeriesConfig :=
  List.find (fun s => bool_decide (sc_name s = name)) (cfg_series c).

(** [struct SeriesHandle]. *)
Record SeriesHandle := mkHandle {
  sh_name : bytes;
  sh_keys : list KeyDef;
  sh_epoch : Z
}.

Definition handle_new (series : SeriesConfig) (epoch : Z) : result Error SeriesHandle :=
  check_series_name (sc_name series) ;;
  Ok (mkHandle (sc_name series) (sc_keys series) epoch).

Definition arity (h : SeriesHandle) : Z := zlen (sh_keys h).

Definition key_type_name (ty : KeyType) : bytes :=
  match ty with
  | KStr => lit "string"
  | KI64 => lit "i64"
  | KF64 => lit "f64"
  | KBool => lit "bool"
  end.

(** [key_type_serde::deserialize]. *)
Definition key_type_of_name (raw : bytes) : option KeyType :=
  if decide (raw = lit "string") then Some KStr
  else if decide (raw = lit "i64") then Some KI64
  else if decide (raw = lit "f64") then Some KF64
  else if decide (raw = lit "bool") then Some KBool
  else None.

(** ** What validation promises *)

Record name_ok (name : bytes) : Prop := {
  no_len : 0 < zlen name < u16_lim;
  no_dot : name <> lit "." /\ name <> lit "..";
  no_sep : x2f ∉ name /\ x5c ∉ name;
  no_ctl : has_control name = false
}.

Definition keys_ok (keys : list KeyDef) : Prop :=
  NoDup (key_name <$> keys) /\
  (forall k, k ∈ keys -> key_name k <> [] /\ key_name k ∉ RESERVED_KEY_NAMES).

(** The values of the numeric fields: [u64] and [usize], and an [i64]. *)
Record typed (c : Config) : Prop := {
  ty_record : 0 <= max_record_bytes (cfg_limits c) < usize_lim;
  ty_fsync_interval : 0 <= fsync_interval_ms (cfg_wal c) < u64_lim;
  ty_fsync_bytes : 0 <= fsync_bytes (cfg_wal c) < u64_lim;
  ty_segment : 0 <= segment_max_bytes (cfg_wal c) < u64_lim;
  ty_batch : - i64_lim <= max_batch_bytes (cfg_server c) < i64_lim;
  ty_interval : 0 <= interval_ms (cfg_flush c) < u64_lim;
  ty_rows : 0 <= row_group_rows (cfg_flush c) < usize_lim;
  ty_fan_in : 0 <= merge_fan_in (cfg_flush c) < usize_lim;
  ty_budget : 0 <= memory_budget_bytes (cfg_flush c) < usize_lim
}.

(** What the other components need. A frame of any length [append] accepts fits, behind
    the header, an empty segment and one ingest message; a merge step takes two sources
    or more; a batch, a row group, the committer's tick and its threshold are not empty;
    the interval in microseconds is a [u64] and a century at most; and the writer knows
    the codec. *)
Record bounds_ok (c : Config) : Prop := {
  bo_record : 0 < max_record_bytes (cfg_limits c);
  bo_segment : forall frame : bytes, zlen frame <= max_record_bytes (cfg_limits c) ->
    SEGMENT_HEADER_BYTES + zlen frame <= segment_max_bytes (cfg_wal c);
  bo_batch : forall frame : bytes, zlen frame <= max_record_bytes (cfg_limits c) ->
    BATCH_HEADER_BYTES + zlen frame <= max_batch_bytes (cfg_server c);
  bo_fan_in : (2 <= Z.to_nat (merge_fan_in (cfg_flush c)))%nat;
  bo_budget : 0 < memory_budget_bytes (cfg_flush c);
  bo_rows : (0 < Z.to_nat (row_group_rows (cfg_flush c)))%nat;
  bo_fsync : 0 < fsync_interval_ms (cfg_wal c) /\ 0 < fsync_bytes (cfg_wal c);
  bo_interval : sat_mul (interval_ms (cfg_flush c)) 1000 = interval_ms (cfg_flush c) * 1000 /\
    sat_mul (interval_ms (cfg_flush c)) 1000 <= 36500 * US_PER_DAY;
  bo_codec : compression (cfg_flush c) ∈ SUPPORTED_COMPRESSION
}.

(** The two sums of [check_bounds] fit [u64]. *)
Definition no_wrap (c : Config) : Prop :=
  max_record_bytes (cfg_limits c) + Z.max SEGMENT_HEADER_BYTES BATCH_HEADER_BYTES < u64_lim.

Section spec.
Context `{Lowercase}.

Record series_ok (c : Config) : Prop := {
  so_names : Forall (fun s => name_ok (sc_name s)) (cfg_series c);
  so_nodup : NoDup (sc_name <$> cfg_series c);
  so_folded : NoDup (to_lowercase ∘ sc_name <$> cfg_series c);
  so_keys : Forall (fun s => keys_ok (sc_keys s)) (cfg_series c)
}.

(** ** Lemmas *)

Lemma reject_if_Ok cond why u : reject_if cond why = Ok u <-> cond = false.
Proof. destruct cond, u; cbn; split; done. Qed.

Lemma seq_Ok {A} (m : result Error unit) (k : result Error A) r :
  (m ;; k) = Ok r <-> m = Ok tt /\ k = Ok r.
Proof. unfold mbind, result_bind. destruct m as [[]|]; split; [by auto|by intros [_ ?]|done|by intros [? _]]. Qed.

(** A bound on every frame up to a length is the bound on the longest. *)
Lemma longest_frame h n top : 0 <= n ->
  (forall frame : bytes, zlen frame <= n -> h + zlen frame <= top) <-> h + n <= top.
Proof.
  intros Hn. split; [|intros ? ?; lia]. intros Hf. specialize (Hf (replicate (Z.to_nat n) x00)).
  unfold zlen in Hf. rewrite length_replicate in Hf. lia.
Qed.

Lemma interval_exact n : 0 <= n < u64_lim ->
  (sat_mul n 1000 = n * 1000 /\ sat_mul n 1000 <= 36500 * US_PER_DAY) <-> n <= MAX_FLUSH_INTERVAL_MS.
Proof.
  intros Hn. unfold sat_mul, u64_max, MAX_FLUSH_INTERVAL_MS, US_PER_DAY, US_PER_HOUR, US_PER_SEC, u64_lim in *. lia.
Qed.

Lemma check_bounds_Ok c : typed c -> no_wrap c -> check_bounds c = Ok tt <-> bounds_ok c.
Proof.
  intros [Hrec Hint Hfb Hseg Hbat Hivl Hrows Hfan Hbud] Hw. unfold no_wrap in Hw.
  unfold check_bounds. rewrite !seq_Ok, !reject_if_Ok, negb_false_iff, bool_decide_eq_true.
  rewrite !Z.eqb_neq, !Z.ltb_ge, Z.leb_gt. unfold wrap64.
  rewrite !Z.mod_small by (unfold SEGMENT_HEADER_BYTES, BATCH_HEADER_BYTES, usize_lim, u64_lim in *; lia).
  rewrite <-interval_exact by done.
  transitivity (0 < max_record_bytes (cfg_limits c) /\
    SEGMENT_HEADER_BYTES + max_record_bytes (cfg_limits c) <= segment_max_bytes (cfg_wal c) /\
    BATCH_HEADER_BYTES + max_record_bytes (cfg_limits c) <= max_batch_bytes (cfg_server c) /\
    (2 <= Z.to_nat (merge_fan_in (cfg_flush c)))%nat /\ 0 < memory_budget_bytes (cfg_flush c) /\
    (0 < Z.to_nat (row_group_rows (cfg_flush c)))%nat /\
    (0 < fsync_interval_ms (cfg_wal c) /\ 0 < fsync_bytes (cfg_wal c)) /\
    (sat_mul (interval_ms (cfg_flush c)) 1000 = interval_ms (cfg_flush c) * 1000 /\
     sat_mul (interval_ms (cfg_flush c)) 1000 <= 36500 * US_PER_DAY) /\
    compression (cfg_flush c) ∈ SUPPORTED_COMPRESSION).
  - split; intros; destruct_and?; split_and?; try done; unfold BATCH_HEADER_BYTES in *; lia.
  - rewrite <-!longest_frame by lia. split; [by intros (? & ? & ? & ? & ? & ? & ? & ? & ?)|by intros []].
Qed.

Lemma check_series_name_Ok name : check_series_name name = Ok tt <-> name_ok name.
Proof.
  unfold check_series_name. rewrite !seq_Ok, !reject_if_Ok, !orb_false_iff, !bool_decide_eq_false.
  rewrite Z.eqb_neq, Z.leb_gt. pose proof (zlen_nonneg name). split.
  - intros (? & ? & [[[? ?] ?] ?] & ?). split; [lia|done..].
  - intros [? [? ?] [? ?] ?]. split_and!; [lia|lia|done..].
Qed.

Lemma check_keys_Ok seen keys :
  check_keys seen keys = Ok tt <->
  keys_ok keys /\ (forall k, k ∈ keys -> key_name k ∉ seen).
Proof.
  revert seen. induction keys as [|k keys IH]; intros seen; cbn [check_keys].
  - split; [|done]. intros _. split; [split; [constructor|]|]; set_solver.
  - rewrite !seq_Ok, !reject_if_Ok, !bool_decide_eq_false, IH, Z.eqb_neq. unfold keys_ok. cbn [fmap list_fmap].
    rewrite NoDup_cons. setoid_rewrite elem_of_cons.
    assert (zlen (key_name k) <> 0 <-> key_name k <> []) as -> by (unfold zlen; destruct (key_name k); cbn; split; congruence || lia).
    assert ((key_name k ∉ key_name <$> keys) <-> forall k', k' ∈ keys -> key_name k' <> key_name k) as ->.
    { rewrite list_elem_of_fmap. split; [intros Hn k' Hk E; apply Hn; eauto|intros Hn (k' & E & Hk); by eapply Hn]. }
    naive_solver.
Qed.

Lemma check_series_list_Ok seen folded series :
  check_series_list seen folded series = Ok tt <->
  (Forall (fun s => name_ok (sc_name s)) series /\ NoDup (sc_name <$> series) /\
   NoDup (to_lowercase ∘ sc_name <$> series) /\ Forall (fun s => keys_ok (sc_keys s)) series) /\
  (forall s, s ∈ series -> sc_name s ∉ seen /\ to_lowercase (sc_name s) ∉ folded).
Proof.
  revert seen folded. induction series as [|s series IH]; intros seen folded; cbn [check_series_list].
  - split; [|done]. intros _. split_and!; try constructor; set_solver.
  - rewrite !seq_Ok, !reject_if_Ok, !bool_decide_eq_false, IH, check_series_name_Ok, check_keys_Ok.
    cbn [fmap list_fmap]. rewrite !NoDup_cons, !Forall_cons, !list_elem_of_fmap. split.
    + intros (Hn & Hs & Hf & (Hk & _) & (Hns & Hnd & Hndf & Hks) & Hrest). split_and!; try done.
      * intros (s' & E & Hin). apply (Hrest s' Hin). rewrite E. set_solver.
      * intros (s' & E & Hin). apply (Hrest s' Hin). unfold compose in E. rewrite E. set_solver.
      * intros s' [->|Hin]%elem_of_cons; [done|]. specialize (Hrest s' Hin). set_solver.
    + intros (((Hn & Hns) & (Hx & Hnd) & (Hxf & Hndf) & Hk & Hks) & Hrest).
      split_and!; try done; [set_solver|set_solver|set_solver|].
      intros s' Hin. specialize (Hrest s' ltac:(set_solver)). rewrite !not_elem_of_cons.
      split_and!; try apply Hrest; intros E; [apply Hx|apply Hxf]; eauto.
Qed.

Lemma check_series_Ok c : check_series c = Ok tt <-> series_ok c.
Proof.
  unfold check_series. rewrite check_series_list_Ok. split.
  - intros [(? & ? & ? & ?) _]. by split.
  - intros [? ? ? ?]. split; [done|]. intros s _. split; apply not_elem_of_nil.
Qed.

Lemma find_series_Some c s :
  NoDup (sc_name <$> cfg_series c) -> s ∈ cfg_series c -> find_series c (sc_name s) = Some s.
Proof.
  unfold find_series. induction (cfg_series c) as [|s' l IH]; [set_solver|].
  cbn [fmap list_fmap]. rewrite NoDup_cons, elem_of_cons. intros [Hx Hn] [->|Hin]; cbn [List.find].
  - by rewrite bool_decide_eq_true_2.
  - rewrite bool_decide_eq_false_2; [by apply IH|]. intros E. apply Hx. rewrite E.
    by apply list_elem_of_fmap_2.
Qed.

Lemma validate_parts c :
  validate c = Ok tt <->
  is_ok (parse_rfc3339_utc (ts_min (cfg_limits c))) = true /\ check_bounds c = Ok tt /\ series_ok c.
Proof.
  unfold validate, ts_min_us. rewrite <-check_series_Ok.
  unfold mbind at 1, result_bind at 1. destruct (parse_rfc3339_utc _); cbn [is_ok].
  - rewrite seq_Ok. naive_solver.
  - naive_solver.
Qed.

(** C39: For values of the fields' types whose two sums fit [u64], [validate] accepts
    exactly the configurations with a readable [ts_min], numeric limits that the other
    components can work with (every frame up to [max_record_bytes] fits a segment and a
    message behind their headers, no division or wait by zero, an interval that is
    converted without saturation), and series and key names that are safe as directories
    and columns (no separators, dots or control characters, no reserved or repeated
    names, not even up to case); every series of an accepted configuration is found by
    its name. *)
Theorem validate_exact c : typed c -> no_wrap c ->
  (validate c = Ok tt <->
   is_ok (parse_rfc3339_utc (ts_min (cfg_limits c))) = true /\ bounds_ok c /\ series_ok c) /\
  (validate c = Ok tt -> forall s, s ∈ cfg_series c -> find_series c (sc_name s) = Some s).
Proof.
  intros Ht Hw. split; [by rewrite validate_parts, check_bounds_Ok|].
  intros (_ & _ & Hs)%validate_parts s Hin. apply find_series_Some; [apply Hs|done].
Qed.
End spec.

(** ** Instances *)

(** Lower case of ASCII letters. *)
Definition ascii_lower : Lowercase := fun s =>
  (fun b => if in_range 65 90 b then byte_of (byte_val b + 32) else b) <$> s.

Definition sample_config : Config :=
  mkConfig (lit "./data") server_default limits_default wal_default flush_default
    [mkSeries (lit "orders") [mkKey (lit "qty") KI64 false; mkKey (lit "region") KStr true];
     mkSeries (lit "Ticks") []].

Lemma validate_witness :
  validate (H := ascii_lower) sample_config = Ok tt /\
  bounds_ok sample_config /\
  find_series sample_config (lit "Ticks") = Some (mkSeries (lit "Ticks") []).
Proof.
  assert (typed sample_config) as Ht by (split; vm_compute; split; congruence).
  assert (no_wrap sample_config) as Hw by (vm_compute; reflexivity).
  pose proof (validate_exact (H := ascii_lower) sample_config Ht Hw) as [He Hf].
  assert (validate (H := ascii_lower) sample_config = Ok tt) as Hv by (vm_compute; reflexivity).
  split; [exact Hv|]. split; [apply He; exact Hv|]. apply (Hf Hv (mkSeries (lit "Ticks") [])).
  apply elem_of_cons. right. apply elem_of_cons. left. reflexivity.
Defined.

(** Without [no_wrap]: the sums are unchecked [u64] additions, so at the top of the range
    of [max_record_bytes] they wrap, and a segment of 20 bytes is accepted for records of
    [usize::MAX] bytes. *)
Definition wrapping_config : Config :=
  mkConfig (lit "./data") server_default (mkLimits u64_max 67108864 (lit "2000-01-01T00:00:00Z") 86400000 false)
    (mkWal 10 1 20) flush_default [].

Example segment_bound_wraps :
  validate (H := ascii_lower) wrapping_config = Ok tt /\
  segment_max_bytes (cfg_wal wrapping_config) < max_record_bytes (cfg_limits wrapping_config).
Proof. vm_compute. split; reflexivity. Qed.
