(* ===== verification/Manifest.v ===== *)
(** * Manifest: schema history and the commit point ([manifest.rs])

    [reconcile] folds a configuration into the schema history, [schema] looks up the
    keys a frame of an old epoch decodes against, and [commit] replaces
    [manifest.json] atomically. [serde_json] is the class [ManifestJson]: a function
    each way, with the round trip on values of the Rust types. *)

From Stdlib Require Import ZArith Lia.
From Stdlib Require Import Strings.Byte.
From S2P Require Import Prelude Text Record Codec Disk Calls Time Config.
Open Scope Z_scope.

Definition MANIFEST_FILE : bytes := lit "manifest.json".
Definition MANIFEST_TMP_FILE : bytes := lit "manifest.json.tmp".
Definition manifest_path : path := [MANIFEST_FILE].
Definition manifest_tmp : path := [MANIFEST_TMP_FILE].

(** [struct EpochSchema]. *)
Record EpochSchema := mkEpoch {
  es_epoch : Z;
  es_keys : list KeyDef
}.

#[export] Instance epoch_schema_eq_dec : EqDecision EpochSchema.
Proof. solve_decision. Defined.

(** [struct Manifest]. *)
Record Manifest := mkManifest {
  m_series : gmap bytes (list EpochSchema);
  last_flushed_segment : Z;
  last_flush_at : option Z
}.

Definition manifest_default : Manifest := mkManifest ∅ 0 None.

(** ** Schema history *)

Definition retyped (old n : KeyDef) : bool :=
  bool_decide (key_name n = key_name old) && negb (bool_decide (key_ty n = key_ty old)).

Definition retype_error : Error :=
  ConfigErr "retyping a key makes historical Parquet unreadable".

(** [check_no_retype]. *)
Definition check_no_retype (history : list EpochSchema) (keys : list KeyDef) : result Error unit :=
  if existsb (fun past => existsb (fun old => existsb (retyped old) keys) (es_keys past)) history
  then Err retype_error else Ok tt.

Definition history_of (m : Manifest) (name : bytes) : list EpochSchema :=
  default [] (m_series m !! name).

Definition set_history (m : Manifest) (name : bytes) (h : list EpochSchema) : Manifest :=
  mkManifest (<[name := h]> (m_series m)) (last_flushed_segment m) (last_flush_at m).

Definition same_layout (a b : list KeyDef) : bool :=
  (zlen a =? zlen b)
  && forallb (fun '(x, y) => bool_decide (key_name x = key_name y)
                             && bool_decide (key_ty x = key_ty y)) (zip a b).

Definition exhausted_error : Error := ConfigErr "series has exhausted its schema epochs".

(** The body of the second loop of [reconcile]: the history after it, and whether it
    changed. *)
Definition reconcile_history (history : list EpochSchema) (keys : list KeyDef)
    : result Error (list EpochSchema * bool) :=
  match last history with
  | Some e =>
      if same_layout (es_keys e) keys then
        if decide (es_keys e = keys) then Ok (history, false)
        else Ok (removelast history ++ [mkEpoch (es_epoch e) keys], true)
      else if es_epoch e + 1 <? u32_lim
      then Ok (history ++ [mkEpoch (es_epoch e + 1) keys], true)
      else Err exhausted_error
  | None => Ok (history ++ [mkEpoch 0 keys], true)
  end.

Fixpoint check_all (m : Manifest) (series : list SeriesConfig) : result Error unit :=
  match series with
  | [] => Ok tt
  | s :: series' => check_no_retype (history_of m (sc_name s)) (sc_keys s) ;; check_all m series'
  end.

(** The second loop; the manifest is mutated entry by entry. *)
Fixpoint reconcile_all (m : Manifest) (changed : bool) (series : list SeriesConfig)
    : Manifest * result Error bool :=
  match series with
  | [] => (m, Ok changed)
  | s :: series' =>
      let m := set_history m (sc_name s) (history_of m (sc_name s)) in
      match reconcile_history (history_of m (sc_name s)) (sc_keys s) with
      | Err e => (m, Err e)
      | Ok (h, c) => reconcile_all (set_history m (sc_name s) h) (changed || c) series'
      end
  end.

Definition reconcile (m : Manifest) (c : Config) : Manifest * result Error bool :=
  match check_all m (cfg_series c) with
  | Err e => (m, Err e)
  | Ok _ => reconcile_all m false (cfg_series c)
  end.

Definition current_epoch (m : Manifest) (series : bytes) : option Z :=
  h ← m_series m !! series; e ← last h; Some (es_epoch e).

Definition schema (m : Manifest) (series : bytes) (epoch : Z) : option (list KeyDef) :=
  h ← m_series m !! series;
  e ← List.find (fun e => es_epoch e =? epoch) h;
  Some (es_keys e).

(** ** On disk *)

(** The values the Rust types hold. *)
Definition key_typed (k : KeyDef) : Prop := str_wf (key_name k).
Definition epoch_typed (e : EpochSchema) : Prop :=
  0 <= es_epoch e < u32_lim /\ Forall key_typed (es_keys e).

Record manifest_typed (m : Manifest) : Prop := {
  mt_series : map_Forall (fun name h => str_wf name /\ Forall epoch_typed h) (m_series m);
  mt_last : 0 <= last_flushed_segment m < u64_lim;
  mt_at : forall t, last_flush_at m = Some t -> 0 <= t < u64_lim
}.

(** [serde_json::to_vec_pretty] and [serde_json::from_str] at this type. *)
Class ManifestJson := {
  to_vec_pretty : Manifest -> option bytes;
  from_str : bytes -> option Manifest;
  json_roundtrip : forall m, manifest_typed m ->
    exists b, to_vec_pretty m = Some b /\
      utf8_valid (b ++ [x0a]) = true /\ from_str (b ++ [x0a]) = Some m
}.

Section disk.
Context `{ManifestJson}.

Definition manifest_load : io Manifest :=
  r ← remove_file manifest_tmp;
  (match r with
   | Ok _ | Err NotFound => mret tt
   | Err e => throw (Io e)
   end) ;;
  t ← read_file manifest_path;
  match t with
  | Err NotFound => mret manifest_default
  | Err e => throw (Io e)
  | Ok text =>
      if utf8_valid text then
        match from_str text with
        | Some m => mret m
        | None => throw (ConfigErr "manifest.json")
        end
      else throw (Io (InvalidData "stream did not contain valid UTF-8"))
  end.

(** [Manifest::exists]: an error reads as absence. *)
Definition manifest_exists : io bool :=
  r ← file_len manifest_path; mret (match r with Ok _ => true | Err _ => false end).

Definition commit (m : Manifest) : io unit :=
  match to_vec_pretty m with
  | None => throw (Json "manifest")
  | Some b =>
      try (write_file manifest_tmp (b ++ [x0a])) ;;
      try (sync manifest_tmp) ;;
      try (rename manifest_tmp manifest_path) ;;
      try (fsync_dir [])
  end.
End disk.

(** ** The history *)

(** Epochs count up, and a key name has had one type. *)
Definition epochs_up (h : list EpochSchema) : Prop :=
  StronglySorted (fun a b => es_epoch a < es_epoch b) h.

Definition typed_once (h : list EpochSchema) : Prop :=
  forall e e' k k', e ∈ h -> e' ∈ h -> k ∈ es_keys e -> k' ∈ es_keys e' ->
    key_name k = key_name k' -> key_ty k = key_ty k'.

Definition history_wf (h : list EpochSchema) : Prop := epochs_up h /\ typed_once h.

Definition manifest_wf (m : Manifest) : Prop := map_Forall (fun _ h => history_wf h) (m_series m).

(** The positional layout a frame is decoded against. *)
Definition layout (keys : list KeyDef) : list (bytes * KeyType) :=
  (fun k => (key_name k, key_ty k)) <$> keys.

(** Every epoch of [h] is an epoch of [h'] with the same layout. *)
Definition extends (h h' : list EpochSchema) : Prop :=
  forall epoch e, List.find (fun e => es_epoch e =? epoch) h = Some e ->
    exists e', List.find (fun e => es_epoch e =? epoch) h' = Some e' /\
      layout (es_keys e') = layout (es_keys e).

(** [h'] is the history after folding in [keys]. *)
Record folded (h : list EpochSchema) (keys : list KeyDef) (h' : list EpochSchema) (c : bool) : Prop := {
  fo_wf : history_wf h';
  fo_extends : extends h h';
  fo_last : exists e, last h' = Some e /\ es_keys e = keys;
  fo_same : c = false -> h' = h
}.

Lemma same_layout_spec a b : same_layout a b = true <-> layout a = layout b.
Proof.
  unfold same_layout. rewrite andb_true_iff, Z.eqb_eq. unfold zlen, layout. revert b.
  induction a as [|x a IH]; intros [|y b]; cbn; [by split|split; [lia|done]|split; [lia|done]|].
  rewrite !andb_true_iff, !bool_decide_eq_true. specialize (IH b). split.
  - intros (Hl & (En & Et) & Hz). rewrite En, Et. f_equal. apply IH. split; [lia|done].
  - intros E. injection E as En Et E. apply IH in E as [? ?]. split_and!; [lia|done..].
Qed.

Lemma check_no_retype_Ok h keys :
  check_no_retype h keys = Ok tt <->
  forall e old n, e ∈ h -> old ∈ es_keys e -> n ∈ keys -> key_name n = key_name old ->
    key_ty n = key_ty old.
Proof.
  unfold check_no_retype. destruct (existsb _ h) eqn:E; split; try done.
  - intros Hn. exfalso. apply existsb_exists in E as (e & He & E).
    apply existsb_exists in E as (old & Ho & E). apply existsb_exists in E as (n & Hi & E).
    apply andb_true_iff in E as [E1%bool_decide_eq_true E2%negb_true_iff].
    apply bool_decide_eq_false in E2. apply list_elem_of_In in He, Ho, Hi. by eapply E2, Hn.
  - intros _ e old n He Ho Hi En. apply list_elem_of_In in He, Ho, Hi.
    destruct (decide (key_ty n = key_ty old)) as [|Hne]; [done|exfalso].
    rewrite <-not_true_iff_false in E. apply E. rewrite existsb_exists. exists e. split; [done|].
    rewrite existsb_exists. exists old. split; [done|]. rewrite existsb_exists. exists n. split; [done|].
    unfold retyped. by rewrite bool_decide_eq_true_2, bool_decide_eq_false_2.
Qed.

Lemma find_snoc {A} (p : A -> bool) l x :
  List.find p (l ++ [x]) = match List.find p l with Some y => Some y | None => if p x then Some x else None end.
Proof. induction l as [|y l IH]; cbn; [done|]. destruct (p y); done. Qed.

Lemma epochs_snoc h x :
  epochs_up (h ++ [x]) <-> epochs_up h /\ forall e, e ∈ h -> es_epoch e < es_epoch x.
Proof.
  unfold epochs_up. induction h as [|y h IH]; cbn.
  - split; [intros; split; [constructor|set_solver]|intros; repeat constructor].
  - split.
    + intros Hs. apply StronglySorted_inv in Hs as [Hs Hf]. apply IH in Hs as [Hs Hl].
      rewrite Forall_app in Hf. destruct Hf as [Hf Hx]. rewrite Forall_singleton in Hx.
      split; [by constructor|]. intros e [->|]%elem_of_cons; auto.
    + intros [Hs Hl]. apply StronglySorted_inv in Hs as [Hs Hf]. constructor.
      * apply IH. split; [done|]. intros e He. apply Hl. set_solver.
      * apply Forall_app. split; [done|]. apply Forall_singleton, Hl. set_solver.
Qed.

Section history.
Context (h : list EpochSchema) (keys : list KeyDef) (Hwf : history_wf h)
  (Hnd : NoDup (key_name <$> keys)) (Hcheck : check_no_retype h keys = Ok tt).

(** The new keys beside the epochs of [h] they do not replace. *)
Lemma typed_once_snoc h0 epoch :
  (forall e, e ∈ h0 -> e ∈ h) -> typed_once (h0 ++ [mkEpoch epoch keys]).
Proof.
  intros Hsub e e' k k' He He' Hk Hk' En. rewrite check_no_retype_Ok in Hcheck.
  rewrite elem_of_app, list_elem_of_singleton in He, He'.
  destruct He as [He| ->], He' as [He'| ->]; cbn in Hk, Hk'.
  - destruct Hwf as [_ Ht]. apply (Ht e e' k k'); auto.
  - symmetry. apply (Hcheck e k k'); auto.
  - apply (Hcheck e' k' k); auto.
  - f_equal. by eapply (NoDup_fmap_eq key_name keys).
Qed.

Lemma folded_snoc epoch :
  (forall e, e ∈ h -> es_epoch e < epoch) -> folded h keys (h ++ [mkEpoch epoch keys]) true.
Proof.
  intros Hep. destruct Hwf as [Hu Ht]. split.
  - split; [by apply epochs_snoc|]. by apply typed_once_snoc.
  - intros ep e Hf. exists e. by rewrite find_snoc, Hf.
  - exists (mkEpoch epoch keys). by rewrite last_snoc.
  - done.
Qed.

Lemma folded_replace e :
  last h = Some e -> layout (es_keys e) = layout keys ->
  folded h keys (removelast h ++ [mkEpoch (es_epoch e) keys]) true.
Proof.
  intros Hl El. apply last_split in Hl as Eh. set (h0 := removelast h) in *.
  assert (epochs_up h) as Hu by apply Hwf. rewrite Eh in Hu. apply epochs_snoc in Hu as [Hu Hlt].
  split.
  - split; [by apply epochs_snoc|]. apply typed_once_snoc. rewrite Eh. set_solver.
  - intros ep e0. rewrite Eh, !find_snoc. cbn.
    destruct (List.find _ h0) as [x|]; [intros [= ->]; eauto|].
    destruct (es_epoch e =? ep); [|done]. intros [= <-]. by eexists.
  - exists (mkEpoch (es_epoch e) keys). by rewrite last_snoc.
  - done.
Qed.

Lemma epochs_last e : last h = Some e -> forall e', e' ∈ h -> es_epoch e' <= es_epoch e.
Proof.
  intros Hl e' He'. apply last_split in Hl. assert (epochs_up h) as Hu by apply Hwf.
  rewrite Hl in Hu, He'. apply epochs_snoc in Hu as [_ Hlt].
  rewrite elem_of_app, list_elem_of_singleton in He'. destruct He' as [He'| ->]; [|lia].
  specialize (Hlt e' He'). lia.
Qed.

Lemma reconcile_history_spec :
  match reconcile_history h keys with
  | Ok (h', c) => folded h keys h' c
  | Err e => e = exhausted_error /\ exists l, last h = Some l /\ u32_lim <= es_epoch l + 1
  end.
Proof.
  unfold reconcile_history. destruct (last h) as [e|] eqn:El.
  - destruct (same_layout (es_keys e) keys) eqn:Es.
    + apply same_layout_spec in Es. destruct (decide (es_keys e = keys)) as [Ek|].
      * split; [done|intros ep e' Hf; eauto|eauto|done].
      * by apply folded_replace.
    + destruct (Z.ltb_spec (es_epoch e + 1) u32_lim); [|eauto].
      apply folded_snoc. intros e' He'. pose proof (epochs_last e El e' He'). lia.
  - apply folded_snoc. apply last_None in El. rewrite El. set_solver.
Qed.
End history.

(** ** Folding in a configuration *)

(** What [reconcile] leaves of [m] for the given series. *)
Record reconciled (m : Manifest) (series : list SeriesConfig) (m' : Manifest) (b : bool) : Prop := {
  re_series : forall s, s ∈ series ->
    exists h' c, m_series m' !! sc_name s = Some h' /\
      folded (history_of m (sc_name s)) (sc_keys s) h' c;
  re_others : forall name, name ∉ sc_name <$> series -> m_series m' !! name = m_series m !! name;
  re_flush : last_flushed_segment m' = last_flushed_segment m /\ last_flush_at m' = last_flush_at m;
  re_same : b = false -> m' = m
}.

Definition can_fold (m : Manifest) (s : SeriesConfig) : Prop :=
  history_wf (history_of m (sc_name s)) /\ NoDup (key_name <$> sc_keys s) /\
  check_no_retype (history_of m (sc_name s)) (sc_keys s) = Ok tt.

Lemma history_of_set m name h name' :
  history_of (set_history m name h) name' = if decide (name = name') then h else history_of m name'.
Proof.
  unfold history_of, set_history. cbn. destruct (decide _) as [->|].
  - by rewrite lookup_insert_eq.
  - by rewrite lookup_insert_ne.
Qed.

Lemma set_history_twice m name h h' :
  set_history (set_history m name h) name h' = set_history m name h'.
Proof. unfold set_history. cbn. by rewrite insert_insert_eq. Qed.

Lemma set_history_same m name h : h <> [] -> history_of m name = h -> set_history m name h = m.
Proof.
  unfold history_of, set_history. intros Hne E. destruct m as [ms l a]. cbn in *.
  destruct (ms !! name) as [h0|] eqn:El; cbn in E; [|by rewrite <-E in Hne].
  subst h0. by rewrite insert_id.
Qed.

Lemma can_fold_set m name h s : name <> sc_name s -> can_fold m s -> can_fold (set_history m name h) s.
Proof. intros Hne. unfold can_fold. rewrite history_of_set, decide_False by done. done. Qed.

Lemma reconcile_all_spec m changed series :
  NoDup (sc_name <$> series) -> (forall s, s ∈ series -> can_fold m s) ->
  match reconcile_all m changed series with
  | (m', Ok b) => reconciled m series m' b /\ (b = false -> changed = false)
  | (m', Err e) => e = exhausted_error /\ exists s l, s ∈ series /\
      last (history_of m (sc_name s)) = Some l /\ u32_lim <= es_epoch l + 1
  end.
Proof.
  revert m changed. induction series as [|s series IH]; intros m changed Hnd Hc; cbn [reconcile_all].
  - split; [|done]. split; [set_solver|done|done|done].
  - cbn in Hnd. apply NoDup_cons in Hnd as [Hx Hnd].
    destruct (Hc s ltac:(set_solver)) as (Hwf & Hk & Hch).
    rewrite history_of_set, decide_True by done.
    pose proof (reconcile_history_spec _ _ Hwf Hk Hch) as Hs.
    destruct (reconcile_history _ _) as [[h c]|e]; [|destruct Hs as (-> & l & ? & ?); split; [done|];
      exists s, l; split; [set_solver|done]].
    rewrite set_history_twice. set (m1 := set_history m (sc_name s) h).
    assert (forall s', s' ∈ series -> sc_name s <> sc_name s') as Hne.
    { intros s' Hs' E. apply Hx. rewrite E. by apply list_elem_of_fmap_2. }
    specialize (IH m1 (changed || c) Hnd). destruct (reconcile_all m1 _ series) as [m' [b|e]].
    + destruct IH as [[Hser Hoth [Hf1 Hf2] Hsame] Hb].
      { intros s' Hs'. apply can_fold_set; [by apply Hne|]. apply Hc. set_solver. }
      split; [|intros Eb; specialize (Hb Eb); by apply orb_false_iff in Hb as [? ?]]. split; [| |done|].
      * intros s' [->|Hs']%elem_of_cons.
        -- exists h, c. split; [|done]. rewrite Hoth by done. apply lookup_insert_eq.
        -- destruct (Hser s' Hs') as (h' & c' & Hl & Hfo). exists h', c'. split; [done|].
           unfold m1 in Hfo. rewrite history_of_set, decide_False in Hfo by (by apply Hne). done.
      * intros name Hn. cbn in Hn. rewrite not_elem_of_cons in Hn. destruct Hn as [Hn1 Hn2].
        rewrite Hoth by done. cbn. by apply lookup_insert_ne.
      * intros Eb. rewrite (Hsame Eb). specialize (Hb Eb). apply orb_false_iff in Hb as [_ ->]. destruct Hs as [_ _ (e & El & _) Esame].
        specialize (Esame eq_refl). subst h. apply set_history_same; [|done]. by intros E; rewrite E in El.
    + destruct IH as (-> & s' & l & Hs' & Hl & He).
      { intros s' Hs'. apply can_fold_set; [by apply Hne|]. apply Hc. set_solver. }
      split; [done|]. exists s', l. split; [set_solver|]. split; [|done].
      unfold m1 in Hl. rewrite history_of_set, decide_False in Hl by (by apply Hne). done.
Qed.

Lemma check_all_spec m series :
  match check_all m series with
  | Ok _ => forall s, s ∈ series -> check_no_retype (history_of m (sc_name s)) (sc_keys s) = Ok tt
  | Err e => e = retype_error /\ exists s, s ∈ series /\
      check_no_retype (history_of m (sc_name s)) (sc_keys s) = Err retype_error
  end.
Proof.
  induction series as [|s series IH]; cbn [check_all]; [set_solver|].
  unfold mbind, result_bind. destruct (check_no_retype _ (sc_keys s)) as [[]|e] eqn:E.
  - destruct (check_all m series); [intros s' [->|]%elem_of_cons; auto|].
    destruct IH as (-> & s' & Hs' & E'). split; [done|]. exists s'. split; [set_solver|done].
  - assert (e = retype_error) as -> by (unfold check_no_retype in E; destruct (existsb _ _) in E; by simplify_eq).
    split; [done|]. exists s. split; [set_solver|done].
Qed.

Lemma history_wf_of m name : manifest_wf m -> history_wf (history_of m name).
Proof.
  intros Hm. unfold history_of. destruct (m_series m !! name) as [h|] eqn:E; cbn; [by apply (Hm name h)|].
  split; [constructor|]. intros e. set_solver.
Qed.

Lemma schema_history m name epoch :
  schema m name epoch
  = e ← List.find (fun e => es_epoch e =? epoch) (history_of m name); Some (es_keys e).
Proof. unfold schema, history_of. by destruct (m_series m !! name). Qed.

Lemma find_last_epoch h e : epochs_up h -> last h = Some e ->
  List.find (fun x => es_epoch x =? es_epoch e) h = Some e.
Proof.
  intros Hu Hl. apply last_split in Hl. set (h0 := removelast h) in *. rewrite Hl in Hu |- *.
  apply epochs_snoc in Hu as [_ Hlt]. rewrite find_snoc, Z.eqb_refl.
  destruct (List.find _ h0) as [x|] eqn:Ef; [|done]. apply find_some in Ef as [Hx Ex].
  apply list_elem_of_In, Hlt in Hx. apply Z.eqb_eq in Ex. lia.
Qed.

Lemma reconciled_wf m series m' b : manifest_wf m -> reconciled m series m' b -> manifest_wf m'.
Proof.
  intros Hm [Hs Ho _ _] name h Hl. destruct (decide (name ∈ sc_name <$> series)) as [Hin|Hn].
  - apply list_elem_of_fmap in Hin as (s & -> & Hin). destruct (Hs s Hin) as (h' & c & Hl' & Hf).
    rewrite Hl in Hl'. injection Hl' as <-. apply Hf.
  - rewrite Ho in Hl by done. by apply (Hm name).
Qed.

Lemma reconciled_schema m series m' b name epoch keys :
  reconciled m series m' b -> schema m name epoch = Some keys ->
  exists keys', schema m' name epoch = Some keys' /\ layout keys' = layout keys.
Proof.
  intros [Hs Ho _ _]. rewrite !schema_history. intros E.
  destruct (decide (name ∈ sc_name <$> series)) as [Hin|Hn].
  - apply list_elem_of_fmap in Hin as (s & -> & Hin). destruct (Hs s Hin) as (h' & c & Hl' & Hf).
    destruct (List.find _ (history_of m _)) as [e|] eqn:Ef; [|done]. injection E as <-.
    destruct (fo_extends _ _ _ _ Hf _ _ Ef) as (e' & Ef' & El).
    unfold history_of. rewrite Hl'. cbn. rewrite Ef'. cbn. eauto.
  - unfold history_of in *. rewrite Ho by done. eauto.
Qed.

(** Every configured series is current with its configured keys. *)
Lemma reconciled_current m series m' b s : manifest_wf m -> reconciled m series m' b -> s ∈ series ->
  exists epoch, current_epoch m' (sc_name s) = Some epoch /\ schema m' (sc_name s) epoch = Some (sc_keys s).
Proof.
  intros Hm Hr Hs. pose proof (reconciled_wf _ _ _ _ Hm Hr) as Hm'.
  destruct (re_series _ _ _ _ Hr s Hs) as (h' & c' & Hl & Hf).
  destruct (fo_last _ _ _ _ Hf) as (e & El & Ek). exists (es_epoch e).
  unfold current_epoch, schema, mbind, option_bind. rewrite Hl, El.
  rewrite find_last_epoch by (try done; apply (Hm' _ _ Hl)). by rewrite Ek.
Qed.

(** ** The contract *)

(** C22: Schema evolution. With a well-formed history and a validated configuration,
    [reconcile] either succeeds, and then every configured series is current with
    exactly its configured keys, every epoch of every series still decodes with the
    positional layout it had, the history stays well-formed (epochs count up, a key
    name keeps one type for ever), nothing else changes and [false] means nothing
    changed at all; or it rejects a retyped key and leaves the manifest as it was; or a
    series has used up its epochs. *)
Theorem reconcile_outcome m c :
  manifest_wf m -> NoDup (sc_name <$> cfg_series c) ->
  Forall (fun s => NoDup (key_name <$> sc_keys s)) (cfg_series c) ->
  match reconcile m c with
  | (m', Ok changed) =>
      manifest_wf m' /\
      (forall s, s ∈ cfg_series c -> exists epoch,
         current_epoch m' (sc_name s) = Some epoch /\
         schema m' (sc_name s) epoch = Some (sc_keys s)) /\
      (forall name epoch keys, schema m name epoch = Some keys ->
         exists keys', schema m' name epoch = Some keys' /\ layout keys' = layout keys) /\
      (forall name, name ∉ sc_name <$> cfg_series c -> m_series m' !! name = m_series m !! name) /\
      last_flushed_segment m' = last_flushed_segment m /\ last_flush_at m' = last_flush_at m /\
      (changed = false -> m' = m)
  | (m', Err e) =>
      (e = retype_error /\ m' = m /\ exists s past old n, s ∈ cfg_series c /\
         past ∈ history_of m (sc_name s) /\ old ∈ es_keys past /\ n ∈ sc_keys s /\
         key_name n = key_name old /\ key_ty n <> key_ty old) \/
      (e = exhausted_error /\ exists s l, s ∈ cfg_series c /\
         last (history_of m (sc_name s)) = Some l /\ u32_lim <= es_epoch l + 1)
  end.
Proof.
  intros Hm Hn Hk. unfold reconcile. pose proof (check_all_spec m (cfg_series c)) as Hc.
  destruct (check_all m (cfg_series c)) as [[]|e].
  - pose proof (reconcile_all_spec m false (cfg_series c) Hn) as Hr.
    rewrite Forall_forall in Hk.
    destruct (reconcile_all m false (cfg_series c)) as [m' [b|e]].
    + destruct Hr as [Hr _].
      { intros s Hs. split_and!; [by apply history_wf_of|by apply Hk|by apply Hc]. }
      pose proof (reconciled_wf _ _ _ _ Hm Hr) as Hm'. split_and!; try apply Hr; [done| |].
      * intros s Hs. by apply (reconciled_current m (cfg_series c) m' b).
      * intros. by eapply reconciled_schema.
    + right. apply Hr. intros s Hs. split_and!; [by apply history_wf_of|by apply Hk|by apply Hc].
  - left. destruct Hc as (-> & s & Hs & E). split_and!; [done|done|].
    assert (check_no_retype (history_of m (sc_name s)) (sc_keys s) <> Ok tt) as Hno by congruence.
    unfold check_no_retype in E. destruct (existsb _ _) eqn:Ex in E; [|done].
    apply existsb_exists in Ex as (past & Hp & Ex). apply existsb_exists in Ex as (old & Ho & Ex).
    apply existsb_exists in Ex as (n & Hi & Ex).
    apply andb_true_iff in Ex as [E1%bool_decide_eq_true E2%negb_true_iff].
    apply bool_decide_eq_false in E2. apply list_elem_of_In in Hp, Ho, Hi. by exists s, past, old, n.
Qed.

(** ** The commit point *)

Section commit.
Context `{ManifestJson}.

(** The directory loads as [m]; with no file, as the default. *)
Definition loads (fs : Files) (m : Manifest) : Prop :=
  match fs !! manifest_path with
  | None => m = manifest_default
  | Some c => utf8_valid c = true /\ from_str c = Some m
  end.

(** Equal but for the staging file and, possibly, the manifest. *)
Definition same_but_manifest (fs fs' : Files) : Prop :=
  forall p, p <> manifest_path -> p <> manifest_tmp -> fs' !! p = fs !! p.

Lemma loads_same fs fs' m : fs' !! manifest_path = fs !! manifest_path -> loads fs m -> loads fs' m.
Proof. unfold loads. by intros ->. Qed.

Lemma runs_load fs m : loads fs m -> runs manifest_load fs (delete manifest_tmp fs) (Ret m).
Proof.
  intros Hl. unfold manifest_load.
  assert (exists r, runs (remove_file manifest_tmp) fs (delete manifest_tmp fs) (Ret r) /\
    (r = Ok tt \/ r = Err NotFound)) as (r & Hr & Er).
  { destruct (fs !! manifest_tmp) eqn:E; [exists (Ok tt); split; [by apply runs_remove|by left]|].
    exists (Err NotFound). split; [|by right]. rewrite delete_id by done. apply runs_call_eq; cbn [effect]; by rewrite E. }
  eapply runs_bind; [exact Hr|]. eapply runs_bind; [destruct Er as [-> | ->]; apply runs_ret|].
  unfold loads in Hl. assert (manifest_tmp <> manifest_path) as Hne by done.
  rewrite <-(lookup_delete_ne fs manifest_tmp) in Hl by done.
  destruct (delete manifest_tmp fs !! manifest_path) as [c|] eqn:E.
  - destruct Hl as [Hu Hs]. eapply runs_bind; [by apply runs_read|]. cbv beta iota.
    rewrite Hu, Hs. apply runs_ret.
  - subst m. eapply runs_bind; [apply runs_call_eq; cbn [effect]; by rewrite E|]. apply runs_ret.
Qed.

Lemma triple_commit m m0 fs0 : manifest_typed m ->
  triple (fun fs => fs = fs0 /\ loads fs m0) (commit m)
    (fun fs => same_but_manifest fs0 fs /\ (loads fs m0 \/ loads fs m))
    (fun _ fs => same_but_manifest fs0 fs /\ loads fs m).
Proof.
  intros Hm. destruct (json_roundtrip m Hm) as (b & Eb & Hu & Hs). unfold commit. rewrite Eb.
  assert (manifest_tmp <> manifest_path) as Hne by done.
  set (staged := fun fs => exists c, fs = <[manifest_tmp := c]> fs0).
  assert (forall fs c, loads fs0 m0 -> fs = <[manifest_tmp := c]> fs0 ->
    same_but_manifest fs0 fs /\ (loads fs m0 \/ loads fs m)) as Hst.
  { intros fs c Hl ->. split; [intros p _ Hp; by rewrite lookup_insert_ne|]. left.
    eapply loads_same; [|exact Hl]. by rewrite lookup_insert_ne. }
  eapply triple_bind.
  { apply triple_try_write.
    - intros fs [-> Hl]. split; [by intros p|by left].
    - intros n fs [-> Hl]. by apply (Hst _ (take n (b ++ [x0a]))). }
  intros []. eapply triple_bind.
  { apply (triple_try_idle (fun fs => exists fs1, (fs1 = fs0 /\ loads fs1 m0) /\
      fs = <[manifest_tmp := b ++ [x0a]]> fs1)); [apply _|].
    intros fs (fs1 & [-> Hl] & ->). by eapply Hst. }
  intros []. eapply triple_bind.
  { apply triple_try. eapply triple_conseq; [apply (triple_rename (fun fs => loads fs0 m0 /\
      fs = <[manifest_tmp := b ++ [x0a]]> fs0))| |].
    - intros fs [Hl ->]. by eapply Hst.
    - intros fs c [Hl ->]. rewrite lookup_insert_eq. intros [= <-]. split.
      + intros p Hp Hp'. by rewrite lookup_insert_ne, delete_insert_eq, lookup_delete_ne.
      + right. unfold loads. rewrite lookup_insert_eq. done.
    - intros fs (fs1 & [-> Hl] & ->). done.
    - intros [[]|e] fs.
      + intros (fs1 & c & [Hl ->] & Hc & ->). rewrite lookup_insert_eq in Hc. injection Hc as <-.
        instantiate (1 := fun _ fs => same_but_manifest fs0 fs /\ loads fs m). split.
        * intros p Hp Hp'. by rewrite lookup_insert_ne, delete_insert_eq, lookup_delete_ne.
        * unfold loads. rewrite lookup_insert_eq. done.
      + intros Hf. assert (loads fs0 m0 /\ fs = <[manifest_tmp := b ++ [x0a]]> fs0) as [Hl ->]
          by (by destruct e; try destruct Hf).
        by eapply Hst. }
  intros []. idle. intros fs [Hsame Hl]. auto.
Qed.

Lemma runs_commit m fs : manifest_typed m ->
  exists fs', runs (commit m) fs fs' (Ret tt) /\ same_but_manifest fs fs'.
Proof.
  intros Hm. destruct (json_roundtrip m Hm) as (b & Eb & Hu & Hs). unfold commit. rewrite Eb.
  eexists. split.
  - eapply runs_bind; [apply runs_try, runs_write|]. eapply runs_bind; [apply runs_try, runs_idle, _|].
    eapply runs_bind; [apply runs_try, runs_rename, lookup_insert_eq|]. apply runs_try, runs_idle, _.
  - intros p Hp Ht. by rewrite lookup_insert_ne, lookup_delete_ne, lookup_insert_ne by done.
Qed.

(** Only the staging file is ever written without being synced, and it is synced before
    the rename. *)
Lemma commit_dirty m w p : p ∈ dirty ∅ (trace (commit m) w) -> p = manifest_tmp.
Proof.
  unfold commit. destruct (to_vec_pretty m) as [b|]; [|by intros Hp%not_elem_of_empty].
  assert (p ∈ ({[manifest_tmp]} ∪ ∅ : gset path) -> p = manifest_tmp) as Hone
    by (by intros [->%elem_of_singleton|Hp%not_elem_of_empty]%elem_of_union).
  assert (({[manifest_tmp]} ∪ ∅ : gset path) ∖ {[manifest_tmp]} = ∅) as Hnone by set_solver.
  intros [(o & _ & Hp)|([] & w1 & Hp)]%dirty_try_call; cbn [dirty_after answered_ok] in Hp; [by apply Hone|].
  apply dirty_try_call in Hp as [(o & Ho & Hp)|([] & w2 & Hp)]; cbn [dirty_after answered_ok] in Hp;
    [rewrite Ho in Hp; by apply Hone|rewrite Hnone in Hp].
  apply dirty_try_call in Hp as [(o & Ho & Hp)|([] & w3 & Hp)]; cbn [dirty_after answered_ok] in Hp;
    [rewrite Ho in Hp; destruct (not_elem_of_empty p Hp)|].
  rewrite decide_False in Hp by exact (not_elem_of_empty _).
  unfold fsync_dir in Hp. rewrite trace_try_call in Hp. cbn [dirty dirty_after] in Hp.
  destruct (proj1 (elem_of_difference _ _ _) Hp) as [He _]. destruct (not_elem_of_empty p He).
Qed.

(** C23: The commit is atomic and durable in the sense recovery relies on: whatever
    errors interrupt [commit], and whether it returns, is killed or ends in a power cut
    that loses or garbles any bytes not synced, the directory [fs] afterwards loads as the
    previous manifest or as the new one, no file but the manifest and its staging file has
    changed, and after success it loads as the new one; without faults it succeeds. *)
Theorem commit_atomic m0 m w fs :
  manifest_typed m -> loads (files w) m0 ->
  let '(w', r) := commit m w in
  power_cut (dirty ∅ (trace (commit m) w)) (files w') fs ->
  same_but_manifest (files w) fs /\
  (exists m1, (m1 = m0 \/ m1 = m) /\ (r = Ret tt -> m1 = m) /\
     runs manifest_load fs (delete manifest_tmp fs) (Ret m1)) /\
  (script w = [] -> r = Ret tt).
Proof.
  intros Hm Hl. pose proof (triple_commit m m0 (files w) Hm w (conj eq_refl Hl)) as [[Hsame Hc] Hr].
  pose proof (commit_dirty m w) as Hd. destruct (commit m w) as [w' r] eqn:E. cbn in Hsame, Hc, Hr. intros Hcut.
  assert (forall p, p <> manifest_tmp -> fs !! p = files w' !! p) as Hfs by (intros p Hp; apply Hcut; by intros ?%Hd).
  assert (forall m1, loads (files w') m1 -> runs manifest_load fs (delete manifest_tmp fs) (Ret m1)) as Hload.
  { intros m1 H1. apply runs_load. eapply loads_same; [by apply Hfs|exact H1]. }
  split_and!.
  - intros p Hp Ht. rewrite Hfs by done. by apply Hsame.
  - destruct r as [[]|e|].
    + destruct Hr as [_ Hr]. exists m. split_and!; [by right|done|by apply Hload].
    + destruct Hc as [Hc|Hc]; [exists m0|exists m]; (split_and!; [auto|done|by apply Hload]).
    + destruct Hc as [Hc|Hc]; [exists m0|exists m]; (split_and!; [auto|done|by apply Hload]).
  - intros Hs. destruct (runs_commit m (files w) Hm) as (fs' & Hrun & _). unfold runs in Hrun.
    destruct w as [f s]. cbn in Hs, Hrun. subst s. rewrite E in Hrun. by injection Hrun.
Qed.
End commit.

(** ** Instances *)

(** A concrete encoding: the manifest as one number, in binary, low digit first. *)
#[export] Instance key_type_countable : Countable KeyType.
Proof.
  refine (inj_countable'
    (fun t => match t with KBool => 0%nat | KI64 => 1%nat | KF64 => 2%nat | KStr => 3%nat end)
    (fun n => match n with 0%nat => KBool | 1%nat => KI64 | 2%nat => KF64 | _ => KStr end) _).
  by intros [].
Defined.

#[export] Instance key_def_countable : Countable KeyDef.
Proof.
  refine (inj_countable' (fun k => (key_name k, key_ty k, key_nullable k))
    (fun '(n, t, b) => mkKey n t b) _). by intros [].
Defined.

#[export] Instance epoch_schema_countable : Countable EpochSchema.
Proof.
  refine (inj_countable' (fun e => (es_epoch e, es_keys e)) (fun '(n, k) => mkEpoch n k) _).
  by intros [].
Defined.

#[export] Instance manifest_eq_dec : EqDecision Manifest.
Proof. solve_decision. Defined.

#[export] Instance manifest_countable : Countable Manifest.
Proof.
  refine (inj_countable' (fun m => (m_series m, last_flushed_segment m, last_flush_at m))
    (fun '(s, l, a) => mkManifest s l a) _). by intros [].
Defined.

Fixpoint binary (n : positive) : bytes :=
  match n with
  | xH => [x31]
  | xO n' => x30 :: binary n'
  | xI n' => x31 :: binary n'
  end.

Fixpoint of_binary (s : bytes) : option positive :=
  match s with
  | [x31; x0a] => Some xH
  | x30 :: s' => xO <$> of_binary s'
  | x31 :: s' => xI <$> of_binary s'
  | _ => None
  end.

Lemma binary_cons n : exists b s, binary n = b :: s /\ (b = x30 \/ b = x31).
Proof. destruct n; eexists _, _; (split; [done|auto]). Qed.

Lemma of_binary_binary n : of_binary (binary n ++ [x0a]) = Some n.
Proof.
  induction n as [n IH|n IH|]; cbn; [|by rewrite IH|done].
  destruct (binary_cons n) as (b & s & E & Hb). rewrite IH, E. cbn.
  destruct Hb as [-> | ->]; by destruct s.
Qed.

Lemma binary_ascii n : utf8_valid (binary n ++ [x0a]) = true.
Proof.
  apply utf8_ascii. intros b [Hb|Hb%list_elem_of_singleton]%elem_of_app; [|by subst].
  induction n as [n IH|n IH|]; cbn in Hb; [| |by apply list_elem_of_singleton in Hb as ->];
    (apply elem_of_cons in Hb as [->|Hb]; [done|auto]).
Qed.

Definition number_from (text : bytes) : option Manifest := of_binary text ≫= countable.decode.

Lemma number_roundtrip m : manifest_typed m ->
  exists b, Some (binary (countable.encode m)) = Some b /\
    utf8_valid (b ++ [x0a]) = true /\ number_from (b ++ [x0a]) = Some m.
Proof.
  intros _. eexists. split; [done|]. split; [apply binary_ascii|].
  unfold number_from. rewrite of_binary_binary. apply decode_encode.
Qed.

Definition NumberJson : ManifestJson := {|
  to_vec_pretty m := Some (binary (countable.encode m));
  from_str := number_from;
  json_roundtrip := number_roundtrip
|}.

Definition sample_manifest : Manifest :=
  mkManifest {[lit "orders" := [mkEpoch 0 [mkKey (lit "qty") KI64 false]]]} 4 None.

Lemma sample_manifest_wf : manifest_wf sample_manifest.
Proof.
  intros name h Hl. cbn in Hl. apply lookup_singleton_Some in Hl as [<- <-]. split; [repeat constructor|].
  intros e e' k k' He He' Hk Hk' _. apply list_elem_of_singleton in He as ->, He' as ->.
  apply list_elem_of_singleton in Hk as ->, Hk' as ->. done.
Qed.

Lemma reconcile_witness :
  match reconcile sample_manifest sample_config with
  | (m', Ok changed) => exists keys', schema m' (lit "orders") 0 = Some keys' /\
      layout keys' = [(lit "qty", KI64)]
  | _ => False
  end.
Proof.
  pose proof (reconcile_outcome sample_manifest sample_config sample_manifest_wf) as H.
  destruct (reconcile sample_manifest sample_config) as [m' r] eqn:E.
  assert (r = Ok true) as -> by (injection E as _ <-; vm_compute; reflexivity).
  destruct H as (_ & _ & Hs & _).
  - apply (bool_decide_unpack _). vm_compute. exact I.
  - apply (bool_decide_unpack _). vm_compute. exact I.
  - destruct (Hs (lit "orders") 0 [mkKey (lit "qty") KI64 false]) as (keys' & Hk & Hl);
      [vm_compute; reflexivity|]. by exists keys'.
Defined.

(** A power cut before the staging file is synced loses it. *)
Lemma commit_witness :
  let w := mkWorld ∅ [Fine; Stop] in
  exists m1, (m1 = manifest_default \/ m1 = sample_manifest) /\
    manifest_tmp ∈ dirty ∅ (trace (commit (H := NumberJson) sample_manifest) w) /\
    runs (manifest_load (H := NumberJson)) ∅ (delete manifest_tmp ∅) (Ret m1).
Proof.
  cbv zeta.
  assert (manifest_typed sample_manifest) as Ht.
  { split; [|vm_compute; split; congruence|done].
    intros name h Hl. cbn in Hl. apply lookup_singleton_Some in Hl as [<- <-].
    split; [by vm_compute|]. repeat constructor; vm_compute; congruence. }
  pose proof (commit_atomic (H := NumberJson) manifest_default sample_manifest (mkWorld ∅ [Fine; Stop]) ∅ Ht eq_refl) as H.
  assert (manifest_tmp ∈ dirty ∅ (trace (commit (H := NumberJson) sample_manifest) (mkWorld ∅ [Fine; Stop]))) as Hin
    by (apply (bool_decide_unpack _); vm_compute; exact I).
  assert (power_cut (dirty ∅ (trace (commit (H := NumberJson) sample_manifest) (mkWorld ∅ [Fine; Stop])))
    (files (commit (H := NumberJson) sample_manifest (mkWorld ∅ [Fine; Stop])).1) ∅) as Hc.
  { intros p Hp. assert (p <> manifest_tmp) as Hne by (intros ->; by apply Hp).
    unfold commit. destruct (to_vec_pretty sample_manifest) as [b|]; [|reflexivity]. symmetry. exact (lookup_insert_ne ∅ _ _ _ (not_eq_sym Hne)). }
  destruct (commit sample_manifest (mkWorld ∅ [Fine; Stop])) as [w' r].
  destruct (H Hc) as (_ & (m1 & Hm & _ & Hr) & _). exists m1. split; [exact Hm|]. split; [exact Hin|exact Hr].
Defined.

(** The epochs of the second series run out after the first was changed: the error
    leaves the manifest changed. *)
Example reconcile_not_all_or_nothing :
  let m := mkManifest {[lit "b" := [mkEpoch (u32_lim - 1) []]]} 0 None in
  let c := mkConfig [] server_default limits_default wal_default flush_default
    [mkSeries (lit "a") []; mkSeries (lit "b") [mkKey (lit "k") KI64 false]] in
  (reconcile m c).2 = Err exhausted_error /\
  current_epoch m (lit "a") = None /\ current_epoch (reconcile m c).1 (lit "a") = Some 0.
Proof. vm_compute. split_and!; reflexivity. Qed.
