(* ===== verification/Columns.v ===== *)
(** * Columns: rows into Parquet column chunks ([flush/parquet.rs])

    [RowBuilder] accumulates rows column by column; [write_group] hands slices of the
    columns with their definition and repetition levels to the Parquet library as the
    chunks of one row group; [PartitionWriter] streams groups, [write_parquet] (the
    source's [write_file]) writes a whole table. The library is the class [Parquet]:
    the bytes of a file as a function of the schema, the properties and the chunks
    it was given. *)

From Stdlib Require Import ZArith Lia.
From Stdlib Require Import Strings.Byte.
From S2P Require Import Prelude Text Record Codec CodecProofs Disk Wal Time Config.
Open Scope Z_scope.

(** ** The schema *)

Inductive Physical : Type := PBoolean | PInt64 | PDouble | PByteArray.
Inductive Repetition : Type := Required | Optional | Repeated.
Inductive Logical : Type := LString | LTimestampMicros | LMap.

(** A Parquet [Type]: the converted type follows the logical one. *)
Inductive PType : Type :=
| Prim (name : bytes) (physical : Physical) (rep : Repetition) (logical : option Logical)
| Group (name : bytes) (rep : option Repetition) (logical : option Logical) (fields : list PType).

Definition utf8 (name : bytes) (rep : Repetition) : PType :=
  Prim name PByteArray rep (Some LString).

Definition physical_of (ty : KeyType) : Physical :=
  match ty with
  | KBool => PBoolean
  | KI64 => PInt64
  | KF64 => PDouble
  | KStr => PByteArray
  end.

Definition key_field (k : KeyDef) : PType :=
  if decide (key_ty k = KStr) then utf8 (key_name k) Optional
  else Prim (key_name k) (physical_of (key_ty k)) Optional None.

Definition parquet_schema (keys : list KeyDef) : PType :=
  let key_value := Group (lit "key_value") (Some Repeated) None
    [utf8 (lit "key") Required; utf8 (lit "value") Optional] in
  Group (lit "orc") None None
    ([Prim (lit "ts") PInt64 Required (Some LTimestampMicros); utf8 (lit "id") Required]
     ++ (key_field <$> keys)
     ++ [Group (lit "extra") (Some Required) (Some LMap) [key_value];
         utf8 (lit "data") Required]).

(** [WriterProperties], as the builder calls set them. *)
Inductive Compression : Type := LZ4_RAW | UNCOMPRESSED.

Record Props := mkProps {
  pr_compression : Compression;
  pr_no_dictionary : list bytes;
  pr_delta_packed : list bytes;
  pr_no_statistics : list bytes;
  pr_sorting : list (Z * bool * bool);
  pr_metadata : list (bytes * bytes)
}.

Definition EPOCH_META_KEY : bytes := lit "orc.schema_epoch".
Definition SERIES_META_KEY : bytes := lit "orc.series".
Definition TS_COLUMN_IDX : Z := 0.

Definition writer_properties (series : bytes) (epoch : Z) (compression : bytes) : result Error Props :=
  codec ← (if decide (compression = lit "lz4_raw" \/ compression = lit "lz4") then Ok LZ4_RAW
           else if decide (compression = lit "uncompressed" \/ compression = lit "none")
           then Ok UNCOMPRESSED
           else Err (ConfigErr "unsupported compression"));
  Ok (mkProps codec [lit "ts"; lit "id"; lit "data"] [lit "ts"] [lit "data"]
        [(TS_COLUMN_IDX, false, false)]
        [(EPOCH_META_KEY, show epoch); (SERIES_META_KEY, series)]).

(** ** Column buffers *)

(** [struct StrColumn]: all bytes and the end offsets. *)
Record StrColumn := mkStr { s_bytes : bytes; s_ends : list Z }.

Definition str_empty : StrColumn := mkStr [] [].

Definition str_push (c : StrColumn) (s : bytes) : StrColumn :=
  mkStr (s_bytes c ++ s) (s_ends c ++ [zlen (s_bytes c ++ s)]).

(** [ends[i]] for an index in range. *)
Definition str_end (c : StrColumn) (i : nat) : Z := nth i (s_ends c) 0.

Definition str_start (c : StrColumn) (i : nat) : Z :=
  match i with O => 0 | S j => str_end c j end.

(** [StrColumn::arrays]: slices of one shared copy of the range. *)
Definition str_arrays (c : StrColumn) (a b : nat) : list bytes :=
  if (b <=? a)%nat then []
  else
    let base := str_start c a in
    let shared := slice base (str_end c (b - 1)) (s_bytes c) in
    (fun i => slice (str_start c i - base) (str_end c i - base) shared) <$> seq a (b - a).

(** [enum Values]. *)
Inductive Values : Type :=
| VsBool (xs : list bool)
| VsI64 (xs : list Z)
| VsF64 (xs : list Z)
| VsStr (xs : StrColumn).

(** [struct KeyColumn]. *)
Record KeyColumn := mkColumn { kc_vals : Values; kc_defs : list Z }.

Definition column_new (ty : KeyType) : KeyColumn :=
  mkColumn (match ty with
            | KBool => VsBool []
            | KI64 => VsI64 []
            | KF64 => VsF64 []
            | KStr => VsStr str_empty
            end) [].

Definition column_type (c : KeyColumn) : KeyType :=
  match kc_vals c with
  | VsBool _ => KBool
  | VsI64 _ => KI64
  | VsF64 _ => KF64
  | VsStr _ => KStr
  end.

(** [KeyColumn::append]. *)
Definition column_append (c : KeyColumn) (v : Value) (series key : bytes) : result Error KeyColumn :=
  match v with
  | VNull => Ok (mkColumn (kc_vals c) (kc_defs c ++ [0]))
  | _ =>
      match kc_vals c, v with
      | VsBool xs, VBool x => Ok (mkColumn (VsBool (xs ++ [x])) (kc_defs c ++ [1]))
      | VsI64 xs, VI64 x => Ok (mkColumn (VsI64 (xs ++ [x])) (kc_defs c ++ [1]))
      | VsF64 xs, VF64 x => Ok (mkColumn (VsF64 (xs ++ [x])) (kc_defs c ++ [1]))
      | VsStr xs, VStr x => Ok (mkColumn (VsStr (str_push xs x)) (kc_defs c ++ [1]))
      | _, _ => Err (TypeMismatch series key (column_type c) (value_key_type v))
      end
  end.

(** [struct Columns]. *)
Record Columns := mkColumns {
  c_series : bytes;
  c_schema : PType;
  c_key_names : list bytes;
  c_rows : nat;
  c_ts : list Z;
  c_id : StrColumn;
  c_keys : list KeyColumn;
  c_extra_keys : StrColumn;
  c_extra_values : StrColumn;
  c_extra_counts : list Z;
  c_data : StrColumn
}.

(** [RowBuilder::new]; the builder is its columns, [order] being scratch. *)
Definition builder_new (series : bytes) (key_defs : list KeyDef) : Columns :=
  mkColumns series (parquet_schema key_defs) (key_name <$> key_defs) 0 [] str_empty
    ((fun k => column_new (key_ty k)) <$> key_defs) str_empty str_empty [] str_empty.

(** The loop over the key columns; a mismatch keeps the columns appended before it. *)
Fixpoint append_keys (series : bytes) (names : list bytes) (cols : list KeyColumn)
    (vals : list Value) : list KeyColumn * result Error unit :=
  match cols, vals with
  | c :: cols', v :: vals' =>
      match column_append c v series (hd [] names) with
      | Err e => (cols, Err e)
      | Ok c' =>
          let '(rest, r) := append_keys series (tl names) cols' vals' in (c' :: rest, r)
      end
  | _, _ => (cols, Ok tt)
  end.

(** The pairs of [extra] the row keeps, in the order they are pushed. *)
Definition kept_pairs (extra : list (bytes * bytes)) : list (bytes * bytes) :=
  if is_canonical extra then extra else nth_pair extra <$> extra_order extra.

(** [RowBuilder::append]: on an error the columns keep what was pushed before it. *)
Definition builder_append (c : Columns) (ts : Z) (id : bytes) (keys : list Value)
    (extra : list (bytes * bytes)) (data : bytes) : Columns * result Error unit :=
  if negb (zlen keys =? zlen (c_keys c))
  then (c, Err (KeyArity (c_series c) (zlen (c_keys c)) (zlen keys)))
  else if i64_lim <=? ts then (c, Err (ConfigErr "ts is past the largest instant Parquet can record"))
  else
    let '(cols, r) := append_keys (c_series c) (c_key_names c) (c_keys c) keys in
    let c := mkColumns (c_series c) (c_schema c) (c_key_names c) (c_rows c)
               (c_ts c ++ [ts]) (str_push (c_id c) id) cols (c_extra_keys c)
               (c_extra_values c) (c_extra_counts c) (c_data c) in
    match r with
    | Err e => (c, Err e)
    | Ok _ =>
        let pairs := kept_pairs extra in
        (mkColumns (c_series c) (c_schema c) (c_key_names c) (c_rows c + 1)
           (c_ts c) (c_id c) (c_keys c)
           (foldl str_push (c_extra_keys c) pairs.*1) (foldl str_push (c_extra_values c) pairs.*2)
           (c_extra_counts c ++ [zlen pairs]) (str_push (c_data c) data), Ok tt)
    end.

Definition column_clear (c : KeyColumn) : KeyColumn :=
  mkColumn (match kc_vals c with
            | VsBool _ => VsBool []
            | VsI64 _ => VsI64 []
            | VsF64 _ => VsF64 []
            | VsStr _ => VsStr str_empty
            end) [].

(** [RowBuilder::clear]. *)
Definition builder_clear (c : Columns) : Columns :=
  mkColumns (c_series c) (c_schema c) (c_key_names c) 0 [] str_empty
    (column_clear <$> c_keys c) str_empty str_empty [] str_empty.

(** ** Row groups *)

(** [struct MapLevels]. *)
Record MapLevels := mkLevels {
  ml_key_defs : list Z;
  ml_value_defs : list Z;
  ml_reps : list Z;
  ml_entries : nat
}.

(** The slots of one row's map. *)
Definition row_levels (count : Z) : list (Z * Z * Z) :=
  if count =? 0 then [(0, 0, 0)]
  else (fun i => (1, 2, if (i =? 0)%nat then 0 else 1)) <$> seq 0 (Z.to_nat count).

Definition for_rows (counts : list Z) : MapLevels :=
  let slots := concat (row_levels <$> counts) in
  mkLevels ((fun s => s.1.1) <$> slots) ((fun s => s.1.2) <$> slots) (snd <$> slots)
    (sum_list (Z.to_nat <$> counts)).

(** The arguments of one [write_batch]: values, definition and repetition levels. *)
Inductive Chunk : Type :=
| ChBool (vals : list bool) (defs reps : option (list Z))
| ChInt64 (vals : list Z) (defs reps : option (list Z))
| ChDouble (vals : list Z) (defs reps : option (list Z))
| ChBytes (vals : list bytes) (defs reps : option (list Z)).

(** [struct Cursors]. *)
Record Cursors := mkCursors { cu_keys : list nat; cu_extra : nat }.

Definition cursors_new (c : Columns) : Cursors := mkCursors (replicate (length (c_keys c)) 0%nat) 0.

(** Rows [a..b] of a vector. *)
Definition rows_of {A : Type} (a b : nat) (l : list A) : list A := take (b - a) (drop a l).

(** One key column of the group, and its cursor after it. *)
Definition key_chunk (col : KeyColumn) (start end_ from : nat) : Chunk * nat :=
  let defs := rows_of start end_ (kc_defs col) in
  let present := length (filter (fun d => d = 1) defs) in
  let to := (from + present)%nat in
  (match kc_vals col with
   | VsBool v => ChBool (rows_of from to v) (Some defs) None
   | VsI64 v => ChInt64 (rows_of from to v) (Some defs) None
   | VsF64 v => ChDouble (rows_of from to v) (Some defs) None
   | VsStr v => ChBytes (str_arrays v from to) (Some defs) None
   end, to).

Definition key_chunks (cols : list KeyColumn) (start end_ : nat) (froms : list nat)
    : list (Chunk * nat) :=
  zip_with (fun col from => key_chunk col start end_ from) cols froms.

(** [Columns::write_group]: the chunks in schema order, and the advanced cursors. *)
Definition write_group (c : Columns) (start end_ : nat) (cu : Cursors) : list Chunk * Cursors :=
  let keys := key_chunks (c_keys c) start end_ (cu_keys cu) in
  let levels := for_rows (rows_of start end_ (c_extra_counts c)) in
  let from := cu_extra cu in
  let to := (from + ml_entries levels)%nat in
  ([ChInt64 (rows_of start end_ (c_ts c)) None None;
    ChBytes (str_arrays (c_id c) start end_) None None]
   ++ keys.*1
   ++ [ChBytes (str_arrays (c_extra_keys c) from to) (Some (ml_key_defs levels)) (Some (ml_reps levels));
       ChBytes (str_arrays (c_extra_values c) from to) (Some (ml_value_defs levels)) (Some (ml_reps levels));
       ChBytes (str_arrays (c_data c) start end_) None None],
   mkCursors keys.*2 to).

(** ** Files *)

(** The library: what a [SerializedFileWriter] has written after some row groups, and
    the closed file. *)
Class Parquet := {
  pq_data : PType -> Props -> list (list Chunk) -> bytes;
  pq_file : PType -> Props -> list (list Chunk) -> bytes
}.

Section files.
Context `{Parquet}.

(** The loop of [write_file]; every round advances by at least one row. *)
Fixpoint write_groups (fuel : nat) (p : path) (props : Props) (c : Columns) (group_rows start : nat)
    (cu : Cursors) (groups : list (list Chunk)) : io (list (list Chunk)) :=
  match fuel with
  | O => mret groups
  | S fuel' =>
      if (start <? c_rows c)%nat then
        let end_ := Nat.min (start + group_rows) (c_rows c) in
        let '(g, cu) := write_group c start end_ cu in
        let groups := groups ++ [g] in
        try (write_file p (pq_data (c_schema c) props groups)) ;;
        write_groups fuel' p props c group_rows end_ cu groups
      else mret groups
  end.

(** [write_file] of flush/parquet.rs. *)
Definition write_parquet (p : path) (c : Columns) (series : bytes) (epoch : Z)
    (compression : bytes) (row_group_rows : nat) : io unit :=
  props ← lift (writer_properties series epoch compression);
  try (write_file p []) ;;
  try (write_file p (pq_data (c_schema c) props [])) ;;
  groups ← write_groups (c_rows c) p props c (Nat.max row_group_rows 1) 0 (cursors_new c) [];
  try (write_file p (pq_file (c_schema c) props groups)) ;;
  try (sync p).

(** [struct PartitionWriter]: the library's writer is its path and the groups given to
    it. *)
Record PartitionWriter := mkPartition {
  pw_path : path;
  pw_props : Props;
  pw_groups : list (list Chunk);
  pw_builder : Columns;
  pw_group_rows : nat;
  pw_rows : nat
}.

Definition partition_create (p : path) (series : bytes) (epoch : Z) (key_defs : list KeyDef)
    (compression : bytes) (row_group_rows : nat) : io PartitionWriter :=
  props ← lift (writer_properties series epoch compression);
  let builder := builder_new series key_defs in
  try (write_file p []) ;;
  try (write_file p (pq_data (c_schema builder) props [])) ;;
  mret (mkPartition p props [] builder (Nat.max row_group_rows 1) 0).

(** [PartitionWriter::write_group]. *)
Definition partition_group (w : PartitionWriter) : io PartitionWriter :=
  let c := pw_builder w in
  if (c_rows c =? 0)%nat then mret w
  else
    let '(g, _) := write_group c 0 (c_rows c) (cursors_new c) in
    let groups := pw_groups w ++ [g] in
    try (write_file (pw_path w) (pq_data (c_schema c) (pw_props w) groups)) ;;
    mret (mkPartition (pw_path w) (pw_props w) groups (builder_clear c) (pw_group_rows w) (pw_rows w)).

Definition partition_append (w : PartitionWriter) (ts : Z) (id : bytes) (keys : list Value)
    (extra : list (bytes * bytes)) (data : bytes) : io PartitionWriter :=
  let '(c, r) := builder_append (pw_builder w) ts id keys extra data in
  _ ← lift r;
  let w := mkPartition (pw_path w) (pw_props w) (pw_groups w) c (pw_group_rows w) (pw_rows w + 1) in
  if (pw_group_rows w <=? c_rows c)%nat then partition_group w else mret w.

Definition partition_finish (w : PartitionWriter) : io nat :=
  w ← partition_group w;
  try (write_file (pw_path w) (pq_file (c_schema (pw_builder w)) (pw_props w) (pw_groups w))) ;;
  try (sync (pw_path w)) ;;
  mret (pw_rows w).
End files.

(** ** Output file names *)

Definition output_file_name (first_segment last_segment epoch : Z) : bytes :=
  show_pad 10 first_segment ++ lit "-" ++ show_pad 10 last_segment ++ lit ".e" ++ show epoch
  ++ lit ".parquet".

Definition parse_segment_field (s : bytes) : option Z :=
  if (zlen s =? 0) || negb (all_digits s) then None
  else if (length s <? SEGMENT_ID_DIGITS)%nat
          || (negb (length s =? SEGMENT_ID_DIGITS)%nat && bool_decide (head s = Some x30))
  then None
  else parse_uint u64_lim s.

Definition parse_output_file_name (name : bytes) : option (Z * Z * Z) :=
  rest ← strip_suffix (lit ".parquet") name;
  '(range, epoch) ← rsplit_once (lit ".e") rest;
  '(first, last) ← split_once x2d range;
  if negb (all_digits epoch) || (zlen epoch =? 0) then None
  else
    a ← parse_segment_field first;
    b ← parse_segment_field last;
    e ← parse_uint u32_lim epoch;
    Some (a, b, e).

(** [struct WrittenFile]. *)
Record WrittenFile := mkWrittenFile {
  wf_series : bytes;
  wf_epoch : Z;
  wf_hour : bytes;
  wf_rows : nat
}.
