(* ===== verification/ColumnsProofs.v ===== *)
(** * ColumnsProofs: what the column builder and the writers hand to the library

    The state of the builder is a function of the rows appended to it
    ([columns_of]); the chunks of a row group are a function of its rows
    ([chunks_of]), whichever writer made it; and reading the chunks back by the rules
    of the format ([read_group]) gives the rows. *)

From Stdlib Require Import ZArith Lia.
From Stdlib Require Import Strings.Byte.
From S2P Require Import Prelude Text Record Codec CodecProofs Disk Wal Time Config Columns.
Open Scope Z_scope.

(** ** Ranges *)

Lemma rows_of_all {A} n (l : list A) : n = length l -> rows_of 0 n l = l.
Proof. intros ->. unfold rows_of. rewrite drop_0, Nat.sub_0_r. by apply take_ge. Qed.

Lemma rows_of_fmap {A B} (f : A -> B) a b l : rows_of a b (f <$> l) = f <$> rows_of a b l.
Proof. unfold rows_of. by rewrite fmap_take, fmap_drop. Qed.

Lemma length_rows_of {A} a b (l : list A) : (b <= length l)%nat -> length (rows_of a b l) = (b - a)%nat.
Proof. intros. unfold rows_of. rewrite length_take, length_drop. lia. Qed.

Lemma take_rows_of {A} a b (l : list A) : (a <= b)%nat -> take b l = take a l ++ rows_of a b l.
Proof.
  intros Hab. unfold rows_of. rewrite <-(take_drop a l) at 1. rewrite take_app.
  rewrite take_take, length_take. replace (b `min` a)%nat with a by lia.
  destruct (decide (a <= length l)%nat) as [Hl|Hl].
  - by replace (a `min` length l)%nat with a by lia.
  - by rewrite !(drop_ge l a), !take_nil by lia.
Qed.

Lemma rows_of_app_mid {A} (x y z : list A) :
  rows_of (length x) (length x + length y) (x ++ y ++ z) = y.
Proof.
  unfold rows_of. rewrite drop_app_length.
  replace (length x + length y - length x)%nat with (length y) by lia. apply take_app_length.
Qed.

(** ** String columns *)

(** The column that holds [l]. *)
Definition str_of (l : list bytes) : StrColumn := foldl str_push str_empty l.

Lemma str_of_snoc l s : str_of (l ++ [s]) = str_push (str_of l) s.
Proof. apply foldl_snoc. Qed.

Lemma str_of_app l l' : foldl str_push (str_of l) l' = str_of (l ++ l').
Proof. unfold str_of. by rewrite foldl_app. Qed.

Lemma str_of_bytes l : s_bytes (str_of l) = concat l.
Proof.
  induction l as [|s l IH] using rev_ind; [done|]. rewrite str_of_snoc. cbn.
  by rewrite IH, concat_app, concat_cons, concat_nil, app_nil_r.
Qed.

Lemma length_str_ends l : length (s_ends (str_of l)) = length l.
Proof.
  induction l as [|s l IH] using rev_ind; [done|]. rewrite str_of_snoc. cbn.
  by rewrite !length_app, IH.
Qed.

Lemma str_end_of l i : (i < length l)%nat -> str_end (str_of l) i = zlen (concat (take (S i) l)).
Proof.
  unfold str_end. induction l as [|s l IH] using rev_ind; [cbn; lia|]. intros Hi.
  rewrite str_of_snoc. cbn [s_ends str_push]. rewrite length_app in Hi. cbn in Hi.
  destruct (decide (i < length l)%nat) as [Hlt|Hge].
  - rewrite app_nth1 by (rewrite length_str_ends; lia). rewrite IH by done.
    by rewrite take_app_le by lia.
  - assert (i = length l) as -> by lia. rewrite app_nth2 by (rewrite length_str_ends; lia).
    rewrite length_str_ends, Nat.sub_diag. cbn. rewrite str_of_bytes.
    rewrite take_ge by (rewrite length_app; cbn; lia).
    by rewrite concat_app, concat_cons, concat_nil, app_nil_r.
Qed.

Lemma str_start_of l i : (i <= length l)%nat -> str_start (str_of l) i = zlen (concat (take i l)).
Proof. destruct i; [done|]. intros Hi. cbn. apply str_end_of. lia. Qed.

(** A value between the offsets of its neighbours. *)
Lemma concat_slice (pre : list bytes) s post :
  slice (zlen (concat pre)) (zlen (concat (pre ++ [s]))) (concat (pre ++ s :: post)) = s.
Proof.
  rewrite !concat_app, !concat_cons, concat_nil, app_nil_r, zlen_app. apply slice_app_mid.
Qed.

Lemma str_arrays_of l a b : (a <= b <= length l)%nat -> str_arrays (str_of l) a b = rows_of a b l.
Proof.
  intros [Hab Hb]. unfold str_arrays. destruct (Nat.leb_spec b a).
  { assert (a = b) as -> by lia. unfold rows_of. by rewrite Nat.sub_diag. }
  rewrite str_start_of, str_end_of, str_of_bytes by lia. replace (S (b - 1)) with b by lia.
  set (pre := take a l). set (mid := rows_of a b l).
  assert (take b l = pre ++ mid) as Etk by (apply take_rows_of; lia).
  assert (slice (zlen (concat pre)) (zlen (concat (take b l))) (concat l) = concat mid) as ->.
  { rewrite <-(take_drop b l) at 2. rewrite Etk, !concat_app, zlen_app, <-app_assoc.
    apply slice_app_mid. }
  assert (length mid = (b - a)%nat) as Hlen by (apply length_rows_of; lia).
  rewrite <-Hlen. clearbody mid. clear Hlen.
  apply list_eq. intros i. rewrite list_lookup_fmap.
  destruct (decide (i < length mid)%nat) as [Hi|Hi].
  2:{ rewrite lookup_seq_ge by lia. by rewrite lookup_ge_None_2 by lia. }
  rewrite lookup_seq_lt by lia. cbn [fmap option_fmap option_map].
  destruct (lookup_lt_is_Some_2 mid i Hi) as [s Hs]. rewrite Hs. f_equal.
  assert (length pre = a) as Hpre by (unfold pre; rewrite length_take; lia).
  assert (length (take b l) = length (pre ++ mid)) as Hlb by (by rewrite Etk).
  rewrite length_take, length_app in Hlb.
  rewrite str_start_of, str_end_of by lia.
  assert (forall n, (n <= length mid)%nat -> take (a + n) l = pre ++ take n mid) as Hpfx.
  { intros n Hn. rewrite <-(take_drop b l) at 1. rewrite take_app_le by (rewrite length_take; lia).
    rewrite Etk, take_app_ge by lia. f_equal. f_equal. lia. }
  rewrite Hpfx by lia. replace (S (a + i)) with (a + S i)%nat by lia. rewrite Hpfx by lia.
  rewrite !concat_app, !zlen_app, !Z.add_simpl_l. rewrite (take_S_r mid i s Hs).
  rewrite <-(take_drop_middle mid i s Hs) at 3. apply concat_slice.
Qed.

(** ** Key columns *)

Definition as_bool (v : Value) : option bool := match v with VBool b => Some b | _ => None end.
Definition as_i64 (v : Value) : option Z := match v with VI64 i => Some i | _ => None end.
Definition as_f64 (v : Value) : option Z := match v with VF64 f => Some f | _ => None end.
Definition as_str (v : Value) : option bytes := match v with VStr s => Some s | _ => None end.
Definition def_of (v : Value) : Z := match v with VNull => 0 | _ => 1 end.

(** A null, or a value of the type. *)
Definition fits_type (ty : KeyType) (v : Value) : bool :=
  match value_key_type v with None => true | Some t => bool_decide (t = ty) end.

(** The column that holds [vs]. *)
Definition column_of (ty : KeyType) (vs : list Value) : KeyColumn :=
  mkColumn (match ty with
            | KBool => VsBool (omap as_bool vs)
            | KI64 => VsI64 (omap as_i64 vs)
            | KF64 => VsF64 (omap as_f64 vs)
            | KStr => VsStr (str_of (omap as_str vs))
            end) (def_of <$> vs).

Lemma column_append_of ty vs v series key :
  column_append (column_of ty vs) v series key
  = if fits_type ty v then Ok (column_of ty (vs ++ [v]))
    else Err (TypeMismatch series key ty (value_key_type v)).
Proof.
  unfold column_of. rewrite fmap_app.
  destruct v, ty; cbn; rewrite ?omap_app; cbn; rewrite ?app_nil_r, ?str_of_snoc; done.
Qed.

Lemma omap_take_rows {A B} (f : A -> option B) a b (l : list A) : (a <= b)%nat ->
  omap f (take b l) = omap f (take a l) ++ omap f (rows_of a b l).
Proof. intros. by rewrite (take_rows_of a b), omap_app. Qed.

Lemma rows_of_omap {A B} (f : A -> option B) a b (l : list A) : (a <= b)%nat ->
  rows_of (length (omap f (take a l))) (length (omap f (take b l))) (omap f l)
  = omap f (rows_of a b l).
Proof.
  intros Hab. assert (omap f l = omap f (take a l) ++ omap f (rows_of a b l) ++ omap f (drop b l)) as ->.
  { rewrite <-(take_drop b l) at 1. by rewrite omap_app, (omap_take_rows f a b), <-app_assoc. }
  rewrite (omap_take_rows f a b), length_app by done. apply rows_of_app_mid.
Qed.

(** The chunk of a column whose values are [vs]. *)
Definition chunk_of (ty : KeyType) (vs : list Value) : Chunk :=
  let defs := Some (def_of <$> vs) in
  match ty with
  | KBool => ChBool (omap as_bool vs) defs None
  | KI64 => ChInt64 (omap as_i64 vs) defs None
  | KF64 => ChDouble (omap as_f64 vs) defs None
  | KStr => ChBytes (omap as_str vs) defs None
  end.

(** The number of values before a row. *)
Definition present (vs : list Value) : nat := length (filter (fun d => d = 1) (def_of <$> vs)).

Lemma present_cons v vs :
  present (v :: vs) = ((match v with VNull => 0 | _ => 1 end) + present vs)%nat.
Proof. unfold present. cbn [fmap list_fmap]. rewrite filter_cons. by destruct v. Qed.

Lemma present_omap ty vs : Forall (fun v => fits_type ty v = true) vs ->
  present vs = match ty with
               | KBool => length (omap as_bool vs)
               | KI64 => length (omap as_i64 vs)
               | KF64 => length (omap as_f64 vs)
               | KStr => length (omap as_str vs)
               end.
Proof.
  induction 1 as [|v vs Hv _ IH]; [by destruct ty|].
  rewrite present_cons, IH. destruct v, ty; done.
Qed.

Lemma present_app vs vs' : present (vs ++ vs') = (present vs + present vs')%nat.
Proof. unfold present. by rewrite fmap_app, filter_app, length_app. Qed.

Lemma Forall_rows_of {A} (P : A -> Prop) a b l : Forall P l -> Forall P (rows_of a b l).
Proof. intros. unfold rows_of. by apply Forall_take, Forall_drop. Qed.

Lemma key_chunk_of ty vs a b : Forall (fun v => fits_type ty v = true) vs ->
  (a <= b <= length vs)%nat ->
  key_chunk (column_of ty vs) a b (present (take a vs))
  = (chunk_of ty (rows_of a b vs), present (take b vs)).
Proof.
  intros Hf Hab. unfold key_chunk. cbn [kc_defs column_of]. rewrite rows_of_fmap.
  fold (present (rows_of a b vs)). rewrite <-present_app, <-take_rows_of by lia.
  f_equal. rewrite !(present_omap ty) by (by apply Forall_take). unfold chunk_of.
  assert (forall B (f : Value -> option B), (length (omap f (take a vs)) <= length (omap f (take b vs))
    <= length (omap f vs))%nat) as Hle.
  { intros B f. split.
    - rewrite (omap_take_rows f a b), length_app by lia. lia.
    - rewrite <-(take_drop b vs) at 2. rewrite omap_app, length_app. lia. }
  destruct ty; cbn [kc_vals column_of]; rewrite ?str_arrays_of by apply Hle;
    by rewrite rows_of_omap by lia.
Qed.

(** ** The builder *)

(** The key columns of rows given by their key values. *)
Fixpoint key_columns (defs : list KeyDef) (kss : list (list Value)) : list KeyColumn :=
  match defs with
  | [] => []
  | k :: defs' => column_of (key_ty k) (hd VNull <$> kss) :: key_columns defs' (tl <$> kss)
  end.

Fixpoint keys_fit (defs : list KeyDef) (vals : list Value) : bool :=
  match defs, vals with
  | [], [] => true
  | k :: defs', v :: vals' => fits_type (key_ty k) v && keys_fit defs' vals'
  | _, _ => false
  end.

Lemma keys_fit_length defs vals : keys_fit defs vals = true -> length vals = length defs.
Proof.
  revert vals. induction defs as [|k defs IH]; intros [|v vals]; cbn; try done.
  intros [_ Hf]%andb_true_iff. f_equal. by apply IH.
Qed.

Lemma length_key_columns defs kss : length (key_columns defs kss) = length defs.
Proof. revert kss. induction defs as [|k defs IH]; intros kss; cbn; [done|]. by rewrite IH. Qed.

Lemma append_keys_of series defs names kss vals :
  names = key_name <$> defs -> length vals = length defs ->
  if keys_fit defs vals
  then append_keys series names (key_columns defs kss) vals = (key_columns defs (kss ++ [vals]), Ok tt)
  else exists cols key ty got,
    append_keys series names (key_columns defs kss) vals = (cols, Err (TypeMismatch series key ty got)).
Proof.
  revert names kss vals. induction defs as [|k defs IH]; intros names kss [|v vals] -> Hl; try done.
  cbn [key_columns append_keys fmap list_fmap hd tl keys_fit]. rewrite column_append_of.
  destruct (fits_type (key_ty k) v); cbn [andb]; [|by eexists _, _, _, _].
  specialize (IH _ (tl <$> kss) vals eq_refl ltac:(by injection Hl)).
  destruct (keys_fit defs vals).
  - rewrite IH, !fmap_app. done.
  - destruct IH as (cols & key & ty & got & ->). by eexists _, _, _, _.
Qed.

(** The columns that hold [rows], which carry canonical [extra] pairs. *)
Definition columns_of (series : bytes) (defs : list KeyDef) (rows : list Row) : Columns :=
  mkColumns series (parquet_schema defs) (key_name <$> defs) (length rows)
    (row_ts <$> rows) (str_of (row_id <$> rows)) (key_columns defs (row_keys <$> rows))
    (str_of (concat (row_extra <$> rows)).*1) (str_of (concat (row_extra <$> rows)).*2)
    ((fun r => zlen (row_extra r)) <$> rows) (str_of (row_data <$> rows)).

(** A row the columns can hold. *)
Definition row_fits (defs : list KeyDef) (r : Row) : bool :=
  keys_fit defs (row_keys r) && (row_ts r <? i64_lim).

(** The row as it is stored. *)
Definition stored (r : Row) : Row :=
  mkRow (row_ts r) (row_id r) (row_keys r) (canonical_extra (row_extra r)) (row_data r).

Lemma kept_pairs_canonical extra : kept_pairs extra = canonical_extra extra.
Proof.
  unfold kept_pairs. destruct (is_canonical extra) eqn:E; [by rewrite canonical_extra_id|].
  apply extra_order_spec.
Qed.

Lemma builder_new_of series defs : builder_new series defs = columns_of series defs [].
Proof.
  unfold builder_new, columns_of. f_equal. cbn. induction defs as [|k defs IH]; [done|].
  cbn. rewrite IH. by destruct (key_ty k).
Qed.

Lemma builder_clear_of series defs rows :
  builder_clear (columns_of series defs rows) = columns_of series defs [].
Proof.
  unfold builder_clear, columns_of. cbn. f_equal. generalize (row_keys <$> rows).
  induction defs as [|k defs IH]; intros kss; [done|]. cbn. rewrite IH. by destruct (key_ty k).
Qed.

Definition append_row (c : Columns) (r : Row) : Columns * result Error unit :=
  builder_append c (row_ts r) (row_id r) (row_keys r) (row_extra r) (row_data r).

Lemma append_row_of series defs rows r :
  if row_fits defs r
  then append_row (columns_of series defs rows) r = (columns_of series defs (rows ++ [stored r]), Ok tt)
  else exists c e, append_row (columns_of series defs rows) r = (c, Err e).
Proof.
  unfold row_fits, append_row, builder_append. cbn [c_keys c_series c_key_names columns_of].
  assert (zlen (key_columns defs (row_keys <$> rows)) = zlen defs) as ->
    by (unfold zlen; by rewrite length_key_columns).
  destruct (Z.eqb_spec (zlen (row_keys r)) (zlen defs)) as [El|Hne]; cbn [negb].
  2:{ destruct (keys_fit defs (row_keys r)) eqn:E; cbn [andb]; [|eauto].
      apply keys_fit_length in E. unfold zlen in Hne. lia. }
  unfold zlen in El. apply Nat2Z.inj in El.
  rewrite Z.leb_antisym. destruct (Z.ltb_spec (row_ts r) i64_lim); cbn [negb];
    [rewrite andb_true_r|rewrite andb_false_r; eauto].
  pose proof (append_keys_of series defs _ (row_keys <$> rows) (row_keys r) eq_refl El) as Ha.
  destruct (keys_fit defs (row_keys r)).
  - rewrite Ha, kept_pairs_canonical. cbn -[str_push str_of canonical_extra zlen]. f_equal.
    unfold columns_of. rewrite !fmap_app, length_app, concat_app, !fmap_app.
    cbn [fmap list_fmap stored row_ts row_id row_keys row_extra row_data concat].
    rewrite !str_of_app, !str_of_snoc, app_nil_r, Nat.add_1_r. cbn. by rewrite Nat.add_1_r.
  - destruct Ha as (cols & key & ty & got & ->). eauto.
Qed.

(** ** Row groups *)

Fixpoint key_chunks_of (defs : list KeyDef) (kss : list (list Value)) : list Chunk :=
  match defs with
  | [] => []
  | k :: defs' => chunk_of (key_ty k) (hd VNull <$> kss) :: key_chunks_of defs' (tl <$> kss)
  end.

(** The number of values of each key column. *)
Fixpoint key_present (defs : list KeyDef) (kss : list (list Value)) : list nat :=
  match defs with
  | [] => []
  | _ :: defs' => present (hd VNull <$> kss) :: key_present defs' (tl <$> kss)
  end.

(** The slots of the maps of some rows: key level, value level, repetition. *)
Definition map_slots (rows : list Row) : list (Z * Z * Z) :=
  concat ((fun r => row_levels (zlen (row_extra r))) <$> rows).

(** The chunks of one row group, from its rows. *)
Definition chunks_of (defs : list KeyDef) (rows : list Row) : list Chunk :=
  let pairs := concat (row_extra <$> rows) in
  let slots := map_slots rows in
  [ChInt64 (row_ts <$> rows) None None; ChBytes (row_id <$> rows) None None]
  ++ key_chunks_of defs (row_keys <$> rows)
  ++ [ChBytes pairs.*1 (Some ((fun s => s.1.1) <$> slots)) (Some (snd <$> slots));
      ChBytes pairs.*2 (Some ((fun s => s.1.2) <$> slots)) (Some (snd <$> slots));
      ChBytes (row_data <$> rows) None None].

(** The cursors before row [n]. *)
Definition cursors_at (defs : list KeyDef) (rows : list Row) (n : nat) : Cursors :=
  mkCursors (key_present defs (row_keys <$> take n rows)) (length (concat (row_extra <$> take n rows))).

Lemma keys_fit_tl defs k kss :
  Forall (fun ks => keys_fit (k :: defs) ks = true) kss ->
  Forall (fun v => fits_type (key_ty k) v = true) (hd VNull <$> kss) /\
  Forall (fun ks => keys_fit defs ks = true) (tl <$> kss).
Proof.
  induction 1 as [|[|v ks] kss Hf _ [IH1 IH2]]; [by split; constructor|done|].
  cbn in Hf. apply andb_true_iff in Hf as [Hv Hf]. by split; constructor.
Qed.

Lemma key_chunks_spec defs kss a b :
  Forall (fun ks => keys_fit defs ks = true) kss -> (a <= b <= length kss)%nat ->
  key_chunks (key_columns defs kss) a b (key_present defs (take a kss))
  = zip (key_chunks_of defs (rows_of a b kss)) (key_present defs (take b kss)).
Proof.
  revert kss. induction defs as [|k defs IH]; intros kss Hf Hab; [done|].
  cbn [key_columns key_present key_chunks_of key_chunks zip_with zip].
  apply keys_fit_tl in Hf as [Hv Hf]. rewrite !fmap_take, <-!rows_of_fmap.
  rewrite key_chunk_of by (try done; rewrite length_fmap; lia).
  unfold key_chunks in IH. rewrite IH by (try done; rewrite length_fmap; lia). done.
Qed.

Lemma length_key_present defs kss : length (key_present defs kss) = length defs.
Proof. revert kss. induction defs as [|k defs IH]; intros kss; cbn; [done|]. by rewrite IH. Qed.

Lemma length_key_chunks_of defs kss : length (key_chunks_of defs kss) = length defs.
Proof. revert kss. induction defs as [|k defs IH]; intros kss; cbn; [done|]. by rewrite IH. Qed.

Lemma sum_counts rows :
  sum_list (Z.to_nat <$> ((fun r => zlen (row_extra r)) <$> rows)) = length (concat (row_extra <$> rows)).
Proof.
  induction rows as [|r rows IH]; [done|]. cbn. rewrite IH, length_app. unfold zlen. lia.
Qed.

Lemma rows_of_concat {A B} (f : A -> list B) a b (l : list A) : (a <= b)%nat ->
  rows_of (length (concat (f <$> take a l))) (length (concat (f <$> take b l))) (concat (f <$> l))
  = concat (f <$> rows_of a b l) /\
  (length (concat (f <$> take a l)) <= length (concat (f <$> take b l)) <= length (concat (f <$> l)))%nat /\
  length (concat (f <$> take b l))
    = (length (concat (f <$> take a l)) + length (concat (f <$> rows_of a b l)))%nat.
Proof.
  intros Hab. assert (concat (f <$> take b l) = concat (f <$> take a l) ++ concat (f <$> rows_of a b l)) as Eb
    by (by rewrite (take_rows_of a b), fmap_app, concat_app).
  assert (concat (f <$> l) = concat (f <$> take a l) ++ concat (f <$> rows_of a b l)
    ++ concat (f <$> drop b l)) as ->
    by (rewrite <-(take_drop b l) at 1; by rewrite fmap_app, concat_app, Eb, <-app_assoc).
  rewrite Eb, !length_app. split_and!; [apply rows_of_app_mid|lia|lia|lia].
Qed.

Lemma write_group_of series defs rows a b :
  Forall (fun r => keys_fit defs (row_keys r) = true) rows -> (a <= b <= length rows)%nat ->
  write_group (columns_of series defs rows) a b (cursors_at defs rows a)
  = (chunks_of defs (rows_of a b rows), cursors_at defs rows b).
Proof.
  intros Hf Hab. unfold write_group, cursors_at, columns_of, chunks_of.
  cbn [c_ts c_id c_keys c_extra_keys c_extra_values c_extra_counts c_data cu_keys cu_extra].
  assert (Forall (fun ks => keys_fit defs ks = true) (row_keys <$> rows)) as Hk by (by apply Forall_fmap).
  rewrite fmap_take, key_chunks_spec by (try done; rewrite length_fmap; lia).
  rewrite fst_zip, snd_zip by (rewrite length_key_present, length_key_chunks_of; lia).
  unfold for_rows. cbn [ml_key_defs ml_value_defs ml_reps ml_entries].
  rewrite !rows_of_fmap, sum_counts, <-list_fmap_compose. fold (map_slots (rows_of a b rows)).
  destruct (rows_of_concat row_extra a b rows ltac:(lia)) as (Ec & Hle & El).
  rewrite <-El. rewrite !str_arrays_of by (rewrite ?length_fmap; lia).
  rewrite !rows_of_fmap, Ec, <-fmap_take. done.
Qed.

(** ** Files *)

(** Consecutive groups of [n] rows. *)
Fixpoint cut {A : Type} (fuel n : nat) (l : list A) : list (list A) :=
  match fuel, l with
  | S fuel', _ :: _ => take n l :: cut fuel' n (drop n l)
  | _, _ => []
  end.

Definition row_groups {A : Type} (n : nat) (l : list A) : list (list A) := cut (length l) n l.

Lemma cut_fuel {A} fuel n (l : list A) : (1 <= n)%nat -> (length l <= fuel)%nat ->
  cut fuel n l = row_groups n l.
Proof.
  intros Hn. unfold row_groups. remember (length l) as m eqn:Em. revert fuel l Em.
  induction m as [m IH] using lt_wf_ind. intros fuel l -> Hf.
  destruct fuel as [|fuel], l as [|x l]; try done; [cbn in Hf; lia|]. cbn [cut length].
  f_equal. assert (length (drop n (x :: l)) <= length l)%nat as Hd by (rewrite length_drop; cbn; lia).
  rewrite (IH (length (drop n (x :: l)))) by (cbn in *; lia).
  symmetry. rewrite (IH (length (drop n (x :: l)))) by (cbn in *; lia). done.
Qed.

Lemma row_groups_app {A} n (g l : list A) : (1 <= n)%nat -> length g = n ->
  row_groups n (g ++ l) = g :: row_groups n l.
Proof.
  intros Hn Hg. unfold row_groups at 1. destruct g as [|x g]; [cbn in Hg; lia|].
  rewrite length_app. cbn [length Nat.add app cut]. change (x :: g ++ l) with ((x :: g) ++ l).
  rewrite <-Hg, take_app_length, drop_app_length. f_equal. apply cut_fuel; cbn; lia.
Qed.

Lemma row_groups_concat {A} n (full : list (list A)) rem : (1 <= n)%nat ->
  Forall (fun g => length g = n) full -> (length rem < n)%nat ->
  row_groups n (concat full ++ rem) = full ++ (if decide (rem = []) then [] else [rem]).
Proof.
  intros Hn Hf Hr. induction Hf as [|g full Hg _ IH]; cbn [concat app].
  - destruct rem as [|x rem]; [done|]. rewrite decide_False by done. unfold row_groups.
    cbn [length cut]. rewrite take_ge, drop_ge by (cbn in *; lia). by destruct rem.
  - rewrite <-app_assoc, row_groups_app by done. by rewrite IH.
Qed.

Lemma concat_row_groups {A} n (l : list A) : (1 <= n)%nat -> concat (row_groups n l) = l.
Proof.
  intros Hn. unfold row_groups. remember (length l) as m eqn:Em. revert l Em.
  induction m as [m IH] using lt_wf_ind. intros [|x l] ->; [done|]. cbn [length cut concat].
  rewrite cut_fuel by (rewrite ?length_drop; cbn; lia). unfold row_groups.
  rewrite (IH (length (drop n (x :: l)))) by (rewrite ?length_drop; cbn; lia). apply take_drop.
Qed.

Lemma row_groups_size {A} n (l : list A) : (1 <= n)%nat ->
  Forall (fun g => 1 <= length g <= n)%nat (row_groups n l).
Proof.
  intros Hn. unfold row_groups. generalize (length l) as fuel. intros fuel. revert l.
  induction fuel as [|fuel IH]; intros [|x l]; cbn [cut]; constructor; [|apply IH].
  rewrite length_take. cbn. lia.
Qed.

Section writers.
Context `{Parquet} (series : bytes) (defs : list KeyDef).

Lemma write_groups_spec fuel p props rows n start gs fs d0 :
  (1 <= n)%nat -> Forall (fun r => keys_fit defs (row_keys r) = true) rows ->
  (length rows - start <= fuel)%nat -> (start <= length rows)%nat ->
  exists d, runs (write_groups fuel p props (columns_of series defs rows) n start
                    (cursors_at defs rows start) gs)
    (<[p := d0]> fs) (<[p := d]> fs)
    (Ret (gs ++ (chunks_of defs <$> cut fuel n (drop start rows)))).
Proof.
  intros Hn Hf. revert start gs d0. induction fuel as [|fuel IH]; intros start gs d0 Hfuel Hs.
  - exists d0. cbn. rewrite app_nil_r. apply runs_ret.
  - cbn [write_groups]. change (c_rows (columns_of series defs rows)) with (length rows).
    destruct (Nat.ltb_spec start (length rows)) as [Hlt|Hge].
    2:{ exists d0. rewrite drop_ge by lia. cbn. rewrite app_nil_r. apply runs_ret. }
    set (end_ := Nat.min (start + n) (length rows)).
    rewrite write_group_of by (try done; lia).
    edestruct (IH end_ (gs ++ [chunks_of defs (rows_of start end_ rows)])) as (d & Hr); [lia|lia|].
    exists d. destruct (drop start rows) as [|x l] eqn:Ed;
      [apply (f_equal length) in Ed; rewrite length_drop in Ed; cbn in Ed; lia|].
    assert (length (x :: l) = (length rows - start)%nat) as Hlen by (by rewrite <-Ed, length_drop).
    assert (take n (x :: l) = rows_of start end_ rows) as Et.
    { rewrite <-Ed. unfold rows_of, end_. destruct (Nat.min_spec (start + n) (length rows)) as [[? ->]|[? ->]].
      - f_equal. lia.
      - rewrite !take_ge; [done|rewrite length_drop; lia|rewrite length_drop; lia]. }
    assert (drop n (x :: l) = drop end_ rows) as Edr.
    { rewrite <-Ed, drop_drop. unfold end_.
      destruct (Nat.min_spec (start + n) (length rows)) as [[? ->]|[? ->]]; [done|].
      by rewrite !drop_ge by lia. }
    cbn [cut fmap list_fmap]. rewrite Et, Edr. rewrite <-app_assoc in Hr. cbn [app] in Hr.
    eapply runs_bind; [apply runs_try, runs_write|]. rewrite insert_insert_eq. exact Hr.
Qed.

(** Rows appended one by one. *)
Fixpoint append_rows (w : PartitionWriter) (rows : list Row) : io PartitionWriter :=
  match rows with
  | [] => mret w
  | r :: rows' =>
      w' ← partition_append w (row_ts r) (row_id r) (row_keys r) (row_extra r) (row_data r);
      append_rows w' rows'
  end.

(** The writer after [full] groups and [rem] more rows. *)
Definition writer_at (p : path) (props : Props) (n : nat) (full : list (list Row)) (rem : list Row)
    : PartitionWriter :=
  mkPartition p props (chunks_of defs <$> full) (columns_of series defs rem) n
    (length (concat full) + length rem).

Lemma cursors_start rows : cursors_new (columns_of series defs rows) = cursors_at defs rows 0.
Proof.
  unfold cursors_new, cursors_at. cbn [c_keys columns_of]. rewrite length_key_columns. f_equal.
  cbn. clear. induction defs as [|k l IH]; [done|]. cbn. by rewrite IH.
Qed.

Lemma write_all_group rows : Forall (fun r => keys_fit defs (row_keys r) = true) rows ->
  (write_group (columns_of series defs rows) 0 (length rows) (cursors_new (columns_of series defs rows))).1
  = chunks_of defs rows.
Proof.
  intros Hf. rewrite cursors_start, write_group_of by (try done; lia). cbn.
  by rewrite rows_of_all.
Qed.

Lemma runs_partition_group p props n full rem fs d0 :
  Forall (fun r => keys_fit defs (row_keys r) = true) rem -> rem <> [] ->
  exists d, runs (partition_group (writer_at p props n full rem)) (<[p := d0]> fs) (<[p := d]> fs)
    (Ret (writer_at p props n (full ++ [rem]) [])).
Proof.
  intros Hf Hne. unfold partition_group. cbn [pw_builder writer_at c_rows columns_of].
  destruct (Nat.eqb_spec (length rem) 0) as [E|_]; [by destruct rem|].
  pose proof (write_all_group rem Hf) as Eg. unfold columns_of in Eg. cbn [c_rows] in Eg.
  fold (columns_of series defs rem) in *. destruct (write_group _ _ _ _) as [g cu].
  cbn in Eg. subst g. eexists. eapply runs_bind; [apply runs_try, runs_write|].
  rewrite insert_insert_eq. cbn [pw_groups pw_path pw_props pw_group_rows pw_rows].
  rewrite builder_clear_of. unfold writer_at. rewrite fmap_app, concat_app, length_app.
  cbn [fmap list_fmap concat length]. rewrite app_nil_r, Nat.add_0_r. apply runs_ret.
Qed.

Lemma runs_partition_append p props n full rem r fs d0 :
  (1 <= n)%nat -> (length rem < n)%nat -> row_fits defs r = true ->
  Forall (fun r => keys_fit defs (row_keys r) = true) rem ->
  exists d full' rem', runs (partition_append (writer_at p props n full rem)
      (row_ts r) (row_id r) (row_keys r) (row_extra r) (row_data r))
      (<[p := d0]> fs) (<[p := d]> fs) (Ret (writer_at p props n full' rem')) /\
    concat full' ++ rem' = (concat full ++ rem) ++ [stored r] /\ (length rem' < n)%nat /\
    (Forall (fun g => length g = n) full -> Forall (fun g => length g = n) full') /\
    Forall (fun r => keys_fit defs (row_keys r) = true) rem'.
Proof.
  intros Hn Hl Hr Hf. pose proof (append_row_of series defs rem r) as Ha. rewrite Hr in Ha.
  unfold append_row in Ha. unfold partition_append. cbn [pw_builder writer_at]. rewrite Ha.
  cbn [lift pw_path pw_props pw_groups pw_group_rows pw_rows].
  assert (Forall (fun r => keys_fit defs (row_keys r) = true) (rem ++ [stored r])) as Hf'.
  { apply Forall_app. split; [done|]. apply Forall_singleton. by apply andb_true_iff in Hr as [? _]. }
  change (c_rows (columns_of series defs (rem ++ [stored r]))) with (length (rem ++ [stored r])).
  assert (mkPartition p props (chunks_of defs <$> full) (columns_of series defs (rem ++ [stored r])) n
    (length (concat full) + length rem + 1) = writer_at p props n full (rem ++ [stored r])) as Ew
    by (unfold writer_at; rewrite length_app; cbn; f_equal; lia).
  destruct (Nat.leb_spec n (length (rem ++ [stored r]))) as [Hge|Hlt].
  - destruct (runs_partition_group p props n full (rem ++ [stored r]) fs d0 Hf') as (d & Hd);
      [by destruct rem|].
    exists d, (full ++ [rem ++ [stored r]]), []. split_and!.
    + eapply runs_bind; [apply runs_ret|]. cbv beta zeta.
      cbn [pw_path pw_props pw_groups pw_group_rows pw_rows c_rows columns_of writer_at].
      fold (columns_of series defs (rem ++ [stored r])).
      rewrite (proj2 (Nat.leb_le _ _)) by done. rewrite Ew. exact Hd.
    + rewrite concat_app. cbn. by rewrite !app_nil_r, app_assoc.
    + cbn. lia.
    + intros. apply Forall_app. split; [done|]. apply Forall_singleton.
      rewrite length_app in *. cbn in *. lia.
    + constructor.
  - exists d0, full, (rem ++ [stored r]). split_and!; [|by rewrite app_assoc|done|done|done].
    eapply runs_bind; [apply runs_ret|]. cbv beta zeta.
    cbn [pw_path pw_props pw_groups pw_group_rows pw_rows c_rows columns_of writer_at].
    fold (columns_of series defs (rem ++ [stored r])).
    rewrite (proj2 (Nat.leb_gt _ _)) by done. rewrite Ew. apply runs_ret.
Qed.

Lemma runs_append_rows p props n full rem rows fs d0 :
  (1 <= n)%nat -> (length rem < n)%nat -> Forall (fun r => row_fits defs r = true) rows ->
  Forall (fun r => keys_fit defs (row_keys r) = true) rem -> Forall (fun g => length g = n) full ->
  exists d full' rem', runs (append_rows (writer_at p props n full rem) rows)
      (<[p := d0]> fs) (<[p := d]> fs) (Ret (writer_at p props n full' rem')) /\
    concat full' ++ rem' = (concat full ++ rem) ++ (stored <$> rows) /\ (length rem' < n)%nat /\
    Forall (fun g => length g = n) full' /\ Forall (fun r => keys_fit defs (row_keys r) = true) rem'.
Proof.
  intros Hn Hl Hr. revert full rem Hl d0.
  induction Hr as [|r rows Hr _ IH]; intros full rem Hl d0 Hf Hfull.
  - exists d0, full, rem. cbn. rewrite app_nil_r. split_and!; [apply runs_ret|done..].
  - destruct (runs_partition_append p props n full rem r fs d0 Hn Hl Hr Hf)
      as (d1 & full1 & rem1 & H1 & E1 & Hl1 & Hfull1 & Hf1).
    destruct (IH full1 rem1 Hl1 d1 Hf1 (Hfull1 Hfull)) as (d & full' & rem' & H2 & E2 & Hrest).
    exists d, full', rem'. split; [by eapply runs_bind|]. split; [|done].
    rewrite E2, E1. cbn. by rewrite <-app_assoc.
Qed.

(** The closed file of [rows]. *)
Definition table_file (props : Props) (n : nat) (rows : list Row) : bytes :=
  pq_file (parquet_schema defs) props (chunks_of defs <$> row_groups n (stored <$> rows)).

Lemma runs_stream p epoch comp props n rows fs :
  writer_properties series epoch comp = Ok props -> Forall (fun r => row_fits defs r = true) rows ->
  runs (w ← partition_create p series epoch defs comp n; w ← append_rows w rows; partition_finish w)
    fs (<[p := table_file props (Nat.max n 1) rows]> fs) (Ret (length rows)).
Proof.
  intros Hp Hr. set (n1 := Nat.max n 1).
  eapply runs_bind.
  { unfold partition_create. rewrite Hp. eapply runs_bind; [apply runs_ret|].
    eapply runs_bind; [apply runs_try, runs_write|]. eapply runs_bind; [apply runs_try, runs_write|].
    rewrite insert_insert_eq, builder_new_of. apply runs_ret. }
  destruct (runs_append_rows p props n1 [] [] rows fs (pq_data (parquet_schema defs) props []))
    as (d & full & rem & H1 & E & Hl & Hfull & Hf); [lia|cbn; lia|done|constructor|constructor|].
  cbn [concat app] in E. eapply runs_bind; [exact H1|].
  assert (row_groups n1 (stored <$> rows) = full ++ (if decide (rem = []) then [] else [rem])) as Eg
    by (rewrite <-E; apply row_groups_concat; [lia|done|done]).
  assert (length (concat full) + length rem = length rows)%nat as Elen
    by (apply (f_equal length) in E; by rewrite length_app, length_fmap in E).
  unfold table_file. rewrite Eg. unfold partition_finish.
  destruct (decide (rem = [])) as [->|Hne].
  - eapply runs_bind; [apply runs_ret|].
    eapply runs_bind; [apply runs_try, runs_write|]. rewrite insert_insert_eq.
    eapply runs_bind; [apply runs_try, runs_idle, _|]. rewrite app_nil_r.
    cbn [pw_rows writer_at] in *. rewrite <-Elen. apply runs_ret.
  - destruct (runs_partition_group p props n1 full rem fs d Hf Hne) as (d' & Hd).
    eapply runs_bind; [exact Hd|].
    eapply runs_bind; [apply runs_try, runs_write|]. rewrite insert_insert_eq.
    eapply runs_bind; [apply runs_try, runs_idle, _|].
    replace (length rows) with (pw_rows (writer_at p props n1 (full ++ [rem]) [])); [apply runs_ret|].
    cbn. rewrite concat_app, length_app. cbn. rewrite app_nil_r. lia.
Qed.

(** The builder filled with [rows]. *)
Fixpoint fill (c : Columns) (rows : list Row) : result Error Columns :=
  match rows with
  | [] => Ok c
  | r :: rows' => match append_row c r with (c', Ok _) => fill c' rows' | (_, Err e) => Err e end
  end.

Lemma fill_of acc rows : Forall (fun r => row_fits defs r = true) rows ->
  fill (columns_of series defs acc) rows = Ok (columns_of series defs (acc ++ (stored <$> rows))).
Proof.
  intros Hr. revert acc. induction Hr as [|r rows Hr _ IH]; intros acc; cbn [fill fmap list_fmap].
  - by rewrite app_nil_r.
  - pose proof (append_row_of series defs acc r) as Ha. rewrite Hr in Ha. rewrite Ha, IH.
    by rewrite <-app_assoc.
Qed.

Lemma runs_reference p epoch comp props n rows c fs :
  writer_properties series epoch comp = Ok props -> Forall (fun r => row_fits defs r = true) rows ->
  fill (builder_new series defs) rows = Ok c ->
  runs (write_parquet p c series epoch comp n) fs (<[p := table_file props (Nat.max n 1) rows]> fs) (Ret tt).
Proof.
  intros Hp Hr Hc. rewrite builder_new_of, fill_of in Hc by done. injection Hc as <-. cbn [app].
  unfold write_parquet. rewrite Hp. eapply runs_bind; [apply runs_ret|].
  eapply runs_bind; [apply runs_try, runs_write|]. eapply runs_bind; [apply runs_try, runs_write|].
  rewrite insert_insert_eq, cursors_start.
  assert (Forall (fun r => keys_fit defs (row_keys r) = true) (stored <$> rows)) as Hf.
  { apply Forall_fmap. eapply Forall_impl; [exact Hr|]. intros r E. by apply andb_true_iff in E as [? _]. }
  edestruct (write_groups_spec (length (stored <$> rows)) p props (stored <$> rows) (Nat.max n 1) 0 [] fs)
    as (d & Hd); [lia|done|lia|lia|].
  eapply runs_bind; [exact Hd|]. cbn [app]. rewrite drop_0.
  eapply runs_bind; [apply runs_try, runs_write|]. rewrite insert_insert_eq.
  apply runs_try, runs_idle, _.
Qed.
End writers.

(** ** Reading a row group by the rules of the format *)

(** An OPTIONAL column: a value where the definition level is 1. *)
Fixpoint read_optional {A : Type} (mk : A -> Value) (defs : list Z) (vals : list A) : list Value :=
  match defs, vals with
  | d :: defs', v :: vals' =>
      if d =? 1 then mk v :: read_optional mk defs' vals' else VNull :: read_optional mk defs' vals
  | d :: defs', [] => VNull :: read_optional mk defs' []
  | [], _ => []
  end.

Definition read_key (c : Chunk) : list Value :=
  match c with
  | ChBool vals (Some defs) _ => read_optional VBool defs vals
  | ChInt64 vals (Some defs) _ => read_optional VI64 defs vals
  | ChDouble vals (Some defs) _ => read_optional VF64 defs vals
  | ChBytes vals (Some defs) _ => read_optional VStr defs vals
  | _ => []
  end.

(** A MAP column: repetition level 0 opens a row, and key level 1 is an entry. *)
Fixpoint read_maps (slots : list (Z * Z)) (ks vs : list bytes) (acc : list (list (bytes * bytes)))
    : list (list (bytes * bytes)) :=
  match slots with
  | [] => acc
  | (def, rep) :: slots' =>
      let acc := if rep =? 0 then acc ++ [[]] else acc in
      if def =? 0 then read_maps slots' ks vs acc
      else
        match ks, vs with
        | k :: ks', v :: vs' =>
            read_maps slots' ks' vs'
              (removelast acc ++ [List.last acc [] ++ [(k, v)]])
        | _, _ => acc
        end
  end.

Definition chunk_ints (c : Chunk) : list Z := match c with ChInt64 v None None => v | _ => [] end.
Definition chunk_strs (c : Chunk) : list bytes := match c with ChBytes v _ _ => v | _ => [] end.
Definition chunk_levels (c : Chunk) : list (Z * Z) :=
  match c with ChBytes _ (Some d) (Some r) => zip d r | _ => [] end.

Definition no_chunk : Chunk := ChBytes [] None None.

(** The rows of a group with [n] key columns. *)
Definition read_group (n : nat) (g : list Chunk) : list Row :=
  let ts := chunk_ints (nth 0 g no_chunk) in
  let ids := chunk_strs (nth 1 g no_chunk) in
  let keys := read_key <$> take n (drop 2 g) in
  let rest := drop (2 + n) g in
  let key := nth 0 rest no_chunk in
  let maps := read_maps (chunk_levels key) (chunk_strs key) (chunk_strs (nth 1 rest no_chunk)) [] in
  let data := chunk_strs (nth 2 rest no_chunk) in
  (fun j => mkRow (nth j ts 0) (nth j ids []) ((fun c => nth j c VNull) <$> keys)
              (nth j maps []) (nth j data [])) <$> seq 0 (length ts).

Lemma read_null {A} (mk : A -> Value) defs vals :
  read_optional mk (0 :: defs) vals = VNull :: read_optional mk defs vals.
Proof. by destruct vals. Qed.

Lemma read_chunk_of ty vs : Forall (fun v => fits_type ty v = true) vs ->
  read_key (chunk_of ty vs) = vs.
Proof.
  unfold chunk_of, read_key. induction 1 as [|v vs Hv _ IH]; [by destruct ty|].
  destruct ty, v; cbn [fits_type value_key_type] in Hv; try done;
    cbn [fmap list_fmap omap list_omap as_bool as_i64 as_f64 as_str def_of] in *;
    rewrite ?read_null; cbn [read_optional Z.eqb Pos.eqb]; by rewrite IH.
Qed.

Lemma read_keys_of defs kss : Forall (fun ks => keys_fit defs ks = true) kss ->
  forall j ks, kss !! j = Some ks ->
  (fun c => nth j c VNull) <$> (read_key <$> key_chunks_of defs kss) = ks.
Proof.
  revert kss. induction defs as [|k defs IH]; intros kss Hf j ks Hj.
  - cbn. rewrite Forall_forall in Hf. specialize (Hf ks (list_elem_of_lookup_2 _ _ _ Hj)).
    by destruct ks.
  - pose proof Hf as Hf'. apply keys_fit_tl in Hf' as [Hv Ht].
    cbn [key_chunks_of fmap list_fmap]. rewrite read_chunk_of by done.
    rewrite (IH _ Ht j (tl ks)) by (by rewrite list_lookup_fmap, Hj).
    rewrite Forall_forall in Hf. specialize (Hf ks (list_elem_of_lookup_2 _ _ _ Hj)).
    destruct ks as [|v ks]; [done|]. cbn [tl]. f_equal.
    apply nth_lookup_Some. by rewrite list_lookup_fmap, Hj.
Qed.

Lemma read_maps_row pairs slots ks vs acc :
  read_maps (((fun s => (s.1.1, s.2)) <$> row_levels (zlen pairs)) ++ slots)
    (pairs.*1 ++ ks) (pairs.*2 ++ vs) acc
  = read_maps slots ks vs (acc ++ [pairs]).
Proof.
  assert (forall ps a cur, (1 <= a)%nat ->
    read_maps (((fun i => (1, if (i =? 0)%nat then 0 else 1)) <$> seq a (length ps)) ++ slots)
      (ps.*1 ++ ks) (ps.*2 ++ vs) (acc ++ [cur])
    = read_maps slots ks vs (acc ++ [cur ++ ps])) as Hmore.
  { induction ps as [|[k v] ps IH]; intros a cur Ha; [cbn; by rewrite app_nil_r|].
    cbn [length seq fmap list_fmap app read_maps fst snd].
    destruct (Nat.eqb_spec a 0); [lia|]. cbn [Z.eqb].
    rewrite removelast_last, last_last, IH by lia. by rewrite <-app_assoc. }
  unfold row_levels. destruct (Z.eqb_spec (zlen pairs) 0) as [E|Hne].
  - apply zlen_zero in E as ->. done.
  - destruct pairs as [|[k v] ps]; [done|]. unfold zlen. rewrite Nat2Z.id.
    rewrite <-list_fmap_compose. cbn [length seq fmap list_fmap app compose fst snd read_maps Nat.eqb Z.eqb].
    rewrite removelast_last, last_last. cbn [app].
    specialize (Hmore ps 1%nat [(k, v)] ltac:(lia)). cbn [app] in Hmore. rewrite <-Hmore.
    done.
Qed.

Lemma read_maps_rows rows acc :
  read_maps ((fun s => (s.1.1, s.2)) <$> map_slots rows)
    (concat (row_extra <$> rows)).*1 (concat (row_extra <$> rows)).*2 acc
  = acc ++ (row_extra <$> rows).
Proof.
  revert acc. unfold map_slots. induction rows as [|r rows IH]; intros acc; cbn; [by rewrite app_nil_r|].
  rewrite !fmap_app, read_maps_row, IH, <-app_assoc. done.
Qed.

Lemma zip_levels (l : list (Z * Z * Z)) :
  zip ((fun s => s.1.1) <$> l) (snd <$> l) = (fun s => (s.1.1, s.2)) <$> l.
Proof. induction l as [|s l IH]; [done|]. cbn. by rewrite IH. Qed.

Lemma read_group_of defs rows : Forall (fun r => keys_fit defs (row_keys r) = true) rows ->
  read_group (length defs) (chunks_of defs rows) = rows.
Proof.
  intros Hf. assert (Forall (fun ks => keys_fit defs ks = true) (row_keys <$> rows)) as Hk
    by (by apply Forall_fmap).
  pose proof (length_key_chunks_of defs (row_keys <$> rows)) as Hlen.
  unfold read_group, chunks_of. cbn [app nth drop]. set (kc := key_chunks_of _ _) in *.
  rewrite drop_0, take_app_length' by done. change (2 + length defs)%nat with (S (S (length defs))).
  cbn [drop]. rewrite drop_app_length' by done. cbn [nth].
  cbn [chunk_ints chunk_strs chunk_levels]. rewrite zip_levels, read_maps_rows. cbn [app].
  rewrite length_fmap. apply list_eq. intros j. rewrite list_lookup_fmap.
  destruct (decide (j < length rows)%nat) as [Hj|Hj].
  2:{ rewrite lookup_seq_ge, lookup_ge_None_2 by lia. done. }
  rewrite lookup_seq_lt by done. cbn [fmap option_fmap option_map Nat.add]. unfold kc.
  destruct (lookup_lt_is_Some_2 rows j Hj) as [r Hr]. rewrite Hr. f_equal.
  rewrite (read_keys_of defs _ Hk j (row_keys r)) by (by rewrite list_lookup_fmap, Hr).
  rewrite (nth_lookup_Some (row_ts <$> rows) j 0 (row_ts r)) by (by rewrite list_lookup_fmap, Hr).
  rewrite (nth_lookup_Some (row_id <$> rows) j [] (row_id r)) by (by rewrite list_lookup_fmap, Hr).
  rewrite (nth_lookup_Some (row_extra <$> rows) j [] (row_extra r)) by (by rewrite list_lookup_fmap, Hr).
  rewrite (nth_lookup_Some (row_data <$> rows) j [] (row_data r)) by (by rewrite list_lookup_fmap, Hr).
  by destruct r.
Qed.
