(* ===== verification/ColumnsTheorems.v ===== *)
(** * ColumnsTheorems: the contract of the Parquet writers and of the output names *)

From Stdlib Require Import ZArith Lia.
From Stdlib Require Import Strings.Byte.
From S2P Require Import Prelude Text Record Codec CodecProofs CodecTheorems Disk Wal Time Config Columns ColumnsProofs.
Open Scope Z_scope.

(** ** Output names *)

Lemma rsplit_none c pat s : c ∉ s -> rsplit_once (c :: pat) s = None.
Proof.
  induction s as [|x s IH]; intros Hc; [done|]. apply not_elem_of_cons in Hc as [Hx Hc].
  cbn. rewrite IH by done. by rewrite decide_False by congruence.
Qed.

Lemma rsplit_last c pat a b :
  c ∉ pat -> c ∉ b -> rsplit_once (c :: pat) (a ++ (c :: pat) ++ b) = Some (a, b).
Proof.
  intros Hp Hb. induction a as [|x a IH].
  - cbn [app rsplit_once]. rewrite rsplit_none by (rewrite not_elem_of_app; done).
    rewrite decide_True by (change (c :: pat ++ b) with ((c :: pat) ++ b); apply take_app_length).
    change (c :: pat ++ b) with ((c :: pat) ++ b). by rewrite drop_app_length.
  - cbn [app rsplit_once] in *. by rewrite IH.
Qed.

Lemma rsplit_Some pat s x y : rsplit_once pat s = Some (x, y) -> s = x ++ pat ++ y.
Proof.
  revert x. induction s as [|b s IH]; intros x E; [done|]. cbn [rsplit_once] in E.
  destruct (rsplit_once pat s) as [[x' y']|].
  - injection E as <- <-. cbn. f_equal. by apply IH.
  - destruct (decide _) as [Ed|]; [|done]. injection E as <- <-. cbn [app].
    rewrite <-Ed at 1. by rewrite take_drop.
Qed.

Lemma parse_segment_field_iff s id :
  parse_segment_field s = Some id <-> 0 <= id < u64_lim /\ s = show_pad 10 id.
Proof.
  unfold parse_segment_field. split.
  - intros E. destruct (_ || negb _) eqn:E1 in E; [done|]. destruct (_ || _) eqn:E2 in E; [done|].
    apply orb_false_iff in E1 as [_ Hd%negb_false_iff]. apply orb_false_iff in E2 as [Hl Hz].
    apply Nat.ltb_ge in Hl. pose proof (digits_val_range s Hd).
    apply parse_uint_digits in E as [-> Hu]; [|done]. split; [lia|]. symmetry.
    apply show_pad_unique; [done|lia|done|]. apply andb_false_iff in Hz as [Hz|Hz].
    + left. by apply negb_false_iff, Nat.eqb_eq in Hz.
    + right. by apply bool_decide_eq_false in Hz.
  - intros [Hid ->]. pose proof (length_show_pad 10 id) as Hl.
    rewrite show_pad_digits by lia. assert (zlen (show_pad 10 id) <> 0) as Hz%Z.eqb_neq by (unfold zlen; lia).
    rewrite Hz. cbn [negb orb]. unfold SEGMENT_ID_DIGITS.
    rewrite (proj2 (Nat.ltb_ge _ _)) by lia. cbn [orb].
    destruct (Nat.eqb_spec (length (show_pad 10 id)) 10) as [|Hne]; cbn [negb andb];
      [by apply parse_uint_show_pad|].
    rewrite bool_decide_eq_false_2 by (apply show_pad_head; lia). by apply parse_uint_show_pad.
Qed.

Lemma parse_output_name first last_ epoch :
  0 <= first < u64_lim -> 0 <= last_ < u64_lim -> 0 <= epoch < u32_lim ->
  parse_output_file_name (output_file_name first last_ epoch) = Some (first, last_, epoch).
Proof.
  intros Hf Hl He. unfold parse_output_file_name, mbind, option_bind, output_file_name. rewrite !app_assoc, strip_suffix_app, <-!app_assoc.
  assert (forall c w n, is_digit c = false -> 0 <= n -> c ∉ show_pad w n) as Hno
    by (intros; apply digits_no_sep; [by apply show_pad_digits|done]).
  rewrite (show_as_pad epoch) by lia.
  rewrite (app_assoc (show_pad 10 first)), (app_assoc (show_pad 10 first ++ lit "-")).
  change (lit ".e") with (x2e :: [x65]).
  rewrite rsplit_last by (try (apply Hno; [done|lia]); by apply (bool_decide_unpack _)).
  rewrite <-app_assoc. change (lit "-") with [x2d]. cbn [app].
  rewrite split_once_app by (apply Hno; [done|lia]).
  rewrite show_pad_digits by lia. cbn [negb orb].
  assert (zlen (show_pad 1 epoch) <> 0) as Hz%Z.eqb_neq by (unfold zlen; rewrite length_show_pad; lia).
  rewrite Hz. rewrite (proj2 (parse_segment_field_iff _ first)), (proj2 (parse_segment_field_iff _ last_)) by done.
  by rewrite parse_uint_show_pad.
Qed.

(** Output file names. [parse_output_file_name] reads back every name
    [output_file_name] writes; a name it accepts is that name up to leading zeros of
    the epoch, so the segment range in a name decides whether the sweep may touch the
    file. *)
Theorem output_name_roundtrip name first last_ epoch :
  (0 <= first < u64_lim -> 0 <= last_ < u64_lim -> 0 <= epoch < u32_lim ->
   parse_output_file_name (output_file_name first last_ epoch) = Some (first, last_, epoch)) /\
  (parse_output_file_name name = Some (first, last_, epoch) ->
   0 <= first < u64_lim /\ 0 <= last_ < u64_lim /\ 0 <= epoch < u32_lim /\
   exists digits, all_digits digits = true /\ digits_val digits = epoch /\
     name = show_pad 10 first ++ lit "-" ++ show_pad 10 last_ ++ lit ".e" ++ digits ++ lit ".parquet").
Proof.
  split.
  - intros. by apply parse_output_name.
  - unfold parse_output_file_name, mbind, option_bind. intros E.
    destruct (strip_suffix (lit ".parquet") name) as [rest|] eqn:Es; [|done].
    apply strip_suffix_Some in Es as ->.
    destruct (rsplit_once (lit ".e") rest) as [[range ep]|] eqn:Er; [|done].
    apply rsplit_Some in Er as ->. destruct (split_once x2d range) as [[a b]|] eqn:Ec; [|done].
    apply split_once_Some in Ec as [-> _]. destruct (_ || _) eqn:Eb in E; [done|].
    apply orb_false_iff in Eb as [Hd%negb_false_iff _].
    destruct (parse_segment_field a) as [x|] eqn:Ea; [|done].
    destruct (parse_segment_field b) as [y|] eqn:Ey; [|done].
    destruct (parse_uint u32_lim ep) as [z|] eqn:Ez; [|done]. injection E as -> -> ->.
    apply parse_segment_field_iff in Ea as [Hx ->], Ey as [Hy ->].
    apply parse_uint_digits in Ez as [-> Hz]; [|done]. pose proof (digits_val_range ep Hd).
    split_and!; [lia..|]. exists ep. split_and!; [done|done|].
    change (lit "-") with [x2d]. cbn [app]. by rewrite <-!app_assoc.
Qed.

(** ** The writers *)

(** A configuration [validate] accepts has a codec. *)
Lemma supported_properties series epoch compression : compression ∈ SUPPORTED_COMPRESSION ->
  exists props, writer_properties series epoch compression = Ok props.
Proof.
  unfold SUPPORTED_COMPRESSION. rewrite !elem_of_cons, elem_of_nil.
  unfold writer_properties. intros [->|[->|[->|[->|[]]]]]; eexists; reflexivity.
Qed.

(** C20: Streaming equals the reference, and nothing is lost or misplaced. For rows with
    the declared arity and types, streaming them through [PartitionWriter] and
    collecting them in a [RowBuilder] for [write_file] leave the same bytes; the row
    groups the library is given have at most [row_group_rows] rows and, read back by
    the format's rules for definition and repetition levels, are exactly the rows in
    order with [extra] in canonical form. *)
Theorem stream_matches_reference `{Parquet} p series epoch defs compression n rows fs :
  compression ∈ SUPPORTED_COMPRESSION -> Forall (fun r => row_fits defs r = true) rows ->
  exists props c groups,
    writer_properties series epoch compression = Ok props /\
    fill (builder_new series defs) rows = Ok c /\
    let fs' := <[p := pq_file (parquet_schema defs) props groups]> fs in
    runs (w ← partition_create p series epoch defs compression n;
          w ← append_rows w rows; partition_finish w) fs fs' (Ret (length rows)) /\
    runs (write_parquet p c series epoch compression n) fs fs' (Ret tt) /\
    concat (read_group (length defs) <$> groups) = stored <$> rows /\
    Forall (fun g => 1 <= length (read_group (length defs) g) <= Nat.max n 1)%nat groups.
Proof.
  intros Hc Hr. destruct (supported_properties series epoch compression Hc) as [props Hp].
  set (n1 := Nat.max n 1). set (parts := row_groups n1 (stored <$> rows)).
  exists props, (columns_of series defs (stored <$> rows)), (chunks_of defs <$> parts).
  assert (fill (builder_new series defs) rows = Ok (columns_of series defs (stored <$> rows))) as Hfill
    by (rewrite builder_new_of; by apply (fill_of series defs [])).
  assert (Forall (fun r => keys_fit defs (row_keys r) = true) (concat parts)) as Hf.
  { unfold parts. rewrite concat_row_groups by lia. apply Forall_fmap.
    eapply Forall_impl; [exact Hr|]. intros r E. by apply andb_true_iff in E as [? _]. }
  assert (read_group (length defs) <$> (chunks_of defs <$> parts) = parts) as Eg.
  { rewrite <-list_fmap_compose.
    clear -Hf. induction parts as [|g parts IH]; [done|]. cbn in Hf |- *. apply Forall_app in Hf as [Hg Hf].
    rewrite IH by done. f_equal. by apply read_group_of. }
  cbv zeta. split_and!; [done|done|by apply runs_stream|by eapply runs_reference| |].
  - rewrite Eg. apply concat_row_groups. lia.
  - rewrite Forall_fmap. pose proof (row_groups_size n1 (stored <$> rows) ltac:(lia)) as Hs.
    fold parts in Hs. clear -Hf Hs. induction parts as [|g parts IH]; [constructor|].
    cbn in Hf. apply Forall_app in Hf as [Hg Hf]. apply Forall_cons in Hs as [Hs1 Hs].
    constructor; [|by apply IH]. unfold compose. by rewrite (read_group_of defs g Hg).
Qed.

(** ** Instances *)

Lemma output_name_witness :
  parse_output_file_name (lit "0000000003-0000000017.e2.parquet") = Some (3, 17, 2).
Proof.
  destruct (output_name_roundtrip [] 3 17 2) as [H _].
  apply H; vm_compute; split; congruence.
Defined.

(** The epoch may carry leading zeros: two names for one range. *)
Example output_name_not_unique :
  parse_output_file_name (lit "0000000003-0000000017.e02.parquet") = Some (3, 17, 2).
Proof. vm_compute. reflexivity. Qed.

(** A file as the number of its groups; any function of the chunks will do. *)
Definition count_parquet : Parquet := {|
  pq_data _ _ groups := show (zlen groups);
  pq_file _ _ groups := lit "PAR1" ++ show (zlen groups)
|}.

Definition sample_defs : list KeyDef :=
  [mkKey (lit "qty") KI64 false; mkKey (lit "region") KStr true; mkKey (lit "ok") KBool true].

Lemma stream_witness :
  exists props c groups,
    writer_properties (lit "orders") 3 (lit "lz4") = Ok props /\
    fill (builder_new (lit "orders") sample_defs) [sample_row; sample_row; sample_row] = Ok c /\
    concat (read_group 3 <$> groups) = stored <$> [sample_row; sample_row; sample_row] /\
    runs (write_parquet (H := count_parquet) [lit "f"] c (lit "orders") 3 (lit "lz4") 2) ∅
      (<[[lit "f"] := pq_file (Parquet := count_parquet) (parquet_schema sample_defs) props groups]> ∅) (Ret tt).
Proof.
  destruct (stream_matches_reference (H := count_parquet) [lit "f"] (lit "orders") 3 sample_defs
    (lit "lz4") 2 [sample_row; sample_row; sample_row] ∅) as (props & c & groups & Hp & Hc & H).
  - apply (bool_decide_unpack _). vm_compute. exact I.
  - repeat constructor.
  - destruct H as (_ & Hr & Hg & _). exists props, c, groups.
    exact (conj Hp (conj Hc (conj Hg Hr))).
Defined.
