(* ===== verification/ReadBack.v ===== *)
(** * ReadBack: reading flushed tables ([flush/read.rs])

    [row_from] turns a row of the Parquet library into texts, [read_table] (the source's
    [read_file]) reads a whole file and [read_metadata] its footer. The library's reader
    is the class [ParquetReader]; its laws relate it to the writer of file Columns, and
    the theorem is the round trip of a table through both. *)

From Stdlib Require Import ZArith Lia.
From Stdlib Require Import Strings.Byte.
From stdpp Require Import countable.
From S2P Require Import Prelude Text Record Codec CodecProofs CodecTheorems Disk Wal Time Config Manifest Columns ColumnsProofs ColumnsTheorems.
Open Scope Z_scope.

(** ** Texts of numbers *)

(** [i64::to_string]. *)
Definition signed_text (n : Z) : bytes := if n <? 0 then x2d :: show (- n) else show n.

Definition bool_text (b : bool) : bytes := if b then lit "true" else lit "false".

(** The shortest decimal digits that identify the value [m * 2 ^ e] among its
    neighbours, from one digit up. [lo] and [hi] are the distances to the middle of the
    gaps below and above, in the unit of [m]; the result is the digits and the decimal
    exponent of the last one. [num / den] is the value in units of the last digit. *)
Fixpoint shortest_digits (fuel : nat) (m lo hi e : Z) (even : bool) (exp : Z) : Z * Z :=
  let scale x := x * 2 ^ Z.max e 0 * 10 ^ Z.max (- exp) 0 in
  let den := 2 ^ Z.max (- e) 0 * 10 ^ Z.max exp 0 in
  let d := scale m / den in
  let rem := scale m mod den in
  let within x bound := if even then x <=? bound else x <? bound in
  let down := within rem (scale lo) in
  let up := within (den - rem) (scale hi) in
  match fuel with
  | O => (d, exp)
  | S fuel' =>
      if down || up then ((if up && (negb down || (den <=? 2 * rem)) then d + 1 else d), exp)
      else shortest_digits fuel' m lo hi e even (exp - 1)
  end.

(** Positional notation, without an exponent. *)
Definition positional (d exp : Z) : bytes :=
  let digits := show d in
  if 0 <=? exp then digits ++ replicate (Z.to_nat exp) x30
  else
    let padded := replicate (S (Z.to_nat (- exp)) - length digits) x30 ++ digits in
    let cut := (length padded - Z.to_nat (- exp))%nat in
    take cut padded ++ x2e :: drop cut padded.

(** [to_string] of a binary float with [mbits] bits of mantissa and [ebits] of exponent. *)
Definition float_text (ebits mbits bits : Z) : bytes :=
  let sign := if Z.testbit bits (ebits + mbits) then [x2d] else [] in
  let ex := Z.land (Z.shiftr bits mbits) (2 ^ ebits - 1) in
  let man := Z.land bits (2 ^ mbits - 1) in
  if ex =? 2 ^ ebits - 1 then (if man =? 0 then sign ++ lit "inf" else lit "NaN")
  else if (ex =? 0) && (man =? 0) then sign ++ [x30]
  else
    let m := if ex =? 0 then man else man + 2 ^ mbits in
    let e := Z.max ex 1 - 2 ^ (ebits - 1) + 1 - mbits in
    let lo := if (man =? 0) && (1 <? ex) then 1 else 2 in
    let top := (Z.log2 m + e) * 30103 / 100000 + 1 in
    let '(d, exp) := shortest_digits 40 (4 * m) lo 2 (e - 2) (Z.even m) top in
    sign ++ positional d exp.

Example one_tenth : float_text 11 52 0x3FB999999999999A = lit "0.1".
Proof. vm_compute. reflexivity. Qed.
Example minus_pi : float_text 11 52 0xC00921FB54442D18 = lit "-3.141592653589793".
Proof. vm_compute. reflexivity. Qed.
Example two_to_53 : float_text 11 52 0x4340000000000000 = lit "9007199254740992".
Proof. vm_compute. reflexivity. Qed.
Example ten_to_23 : float_text 11 52 0x44B52D02C7E14AF6 = lit "100000000000000000000000".
Proof. vm_compute. reflexivity. Qed.
Example single : float_text 8 23 0x3DCCCCCD = lit "0.1".
Proof. vm_compute. reflexivity. Qed.
Example zero_and_inf : (float_text 11 52 (2 ^ 63), float_text 11 52 0x7FF0000000000000) = (lit "-0", lit "inf").
Proof. vm_compute. reflexivity. Qed.

(** ** The library's reader *)

(** The library's [Field]: the constructors the source names, the others with the text
    they print as. *)
Inductive Field : Type :=
| FNull
| FBool (b : bool)
| FInt (n : Z)
| FLong (n : Z)
| FFloat (bits : Z)
| FDouble (bits : Z)
| FStr (s : bytes)
| FTimestampMicros (n : Z)
| FTimestampMillis (n : Z)
| FMapInternal (entries : list (Field * Field))
| FOther (text : bytes).

(** What the code takes from the library's [ParquetMetaData]. *)
Record ParquetMeta := mkParquetMeta {
  pm_key_value : option (list (bytes * option bytes));
  pm_row_groups : list (option (list (Z * bool * bool)) * Z);
  pm_num_rows : Z;
  pm_columns : list bytes
}.

(** Opening the bytes of a file, iterating over its rows ([None] is a [ParquetError]) and
    its metadata. [map_text] is the [Display] of a map field. *)
Class ParquetReader := {
  pq_rows : bytes -> option (list (option (list (bytes * Field))));
  pq_metadata : bytes -> option ParquetMeta;
  map_text : list (Field * Field) -> bytes
}.

(** ** The reader of the crate *)

(** [struct ReadRow]. *)
Record ReadRow := mkReadRow {
  rr_ts : Z;
  rr_id : bytes;
  rr_keys : list (option bytes);
  rr_extra : list (bytes * bytes);
  rr_data : bytes
}.

(** [struct FileMeta]. *)
Record FileMeta := mkFileMeta {
  fm_key_value : gmap bytes bytes;
  fm_sorting_columns : list (Z * bool * bool);
  fm_row_group_rows : list Z;
  fm_num_rows : Z;
  fm_columns : list bytes
}.

Section reading.
Context `{ParquetReader}.

Definition field_text (f : Field) : option bytes :=
  match f with
  | FNull => None
  | FBool v => Some (bool_text v)
  | FLong v | FInt v | FTimestampMicros v | FTimestampMillis v => Some (signed_text v)
  | FDouble v => Some (float_text 11 52 v)
  | FFloat v => Some (float_text 8 23 v)
  | FStr v => Some v
  | FMapInternal m => Some (map_text m)
  | FOther text => Some text
  end.

Definition field_ts (f : Field) : result Error Z :=
  match f with
  | FTimestampMicros raw | FLong raw =>
      if raw <? 0 then Err (ConfigErr "ts is before the epoch") else Ok raw
  | _ => Err (ConfigErr "ts is not an integer")
  end.

(** [unwrap_or_default]. *)
Definition text_or_empty (f : Field) : bytes := default [] (field_text f).

(** The locals of [row_from] in its loop. *)
Record Partial := mkPartial {
  pt_ts : option Z;
  pt_id : bytes;
  pt_keys : list (option bytes);
  pt_extra : list (bytes * bytes);
  pt_data : bytes
}.

(** One column of the loop. *)
Definition take_column (s : Partial) (name : bytes) (field : Field) : result Error Partial :=
  if decide (name = lit "ts") then
    ts ← field_ts field; Ok (mkPartial (Some ts) (pt_id s) (pt_keys s) (pt_extra s) (pt_data s))
  else if decide (name = lit "id") then
    Ok (mkPartial (pt_ts s) (text_or_empty field) (pt_keys s) (pt_extra s) (pt_data s))
  else if decide (name = lit "data") then
    Ok (mkPartial (pt_ts s) (pt_id s) (pt_keys s) (pt_extra s) (text_or_empty field))
  else if decide (name = lit "extra") then
    match field with
    | FMapInternal m =>
        let pairs := (fun p => (text_or_empty p.1, text_or_empty p.2)) <$> m in
        Ok (mkPartial (pt_ts s) (pt_id s) (pt_keys s) (pt_extra s ++ pairs) (pt_data s))
    | FNull => Ok s
    | _ => Err (ConfigErr "extra is not a map")
    end
  else Ok (mkPartial (pt_ts s) (pt_id s) (pt_keys s ++ [field_text field]) (pt_extra s) (pt_data s)).

Fixpoint take_columns (s : Partial) (row : list (bytes * Field)) : result Error Partial :=
  match row with
  | [] => Ok s
  | (name, field) :: row' => s' ← take_column s name field; take_columns s' row'
  end.

Definition row_from (row : list (bytes * Field)) : result Error ReadRow :=
  s ← take_columns (mkPartial None [] [] [] []) row;
  match pt_ts s with
  | Some ts => Ok (mkReadRow ts (pt_id s) (pt_keys s) (pt_extra s) (pt_data s))
  | None => Err (ConfigErr "row has no ts column")
  end.

Definition read_err {A : Type} (r : option A) : result Error A :=
  match r with Some a => Ok a | None => Err (ConfigErr "reading parquet") end.

(** The loop of [read_file]. *)
Fixpoint read_rows (rows : list (option (list (bytes * Field)))) : result Error (list ReadRow) :=
  match rows with
  | [] => Ok []
  | row :: rows' => row ← read_err row; r ← row_from row; out ← read_rows rows'; Ok (r :: out)
  end.

(** [File::open], then what the library reads of the file. *)
Definition open_parquet (p : path) : io bytes :=
  try (Call (OpenFile p)) ;;
  r ← read_file p;
  match r with Ok c => mret c | Err _ => throw (ConfigErr "reading parquet") end.

(** [read_file] of flush/read.rs. *)
Definition read_table (p : path) : io (list ReadRow) :=
  c ← open_parquet p;
  rows ← lift (read_err (pq_rows c));
  lift (read_rows rows).

Definition read_metadata (p : path) : io FileMeta :=
  c ← open_parquet p;
  meta ← lift (read_err (pq_metadata c));
  let key_value := foldl (fun m kv => <[kv.1 := default [] kv.2]> m) ∅ (default [] (pm_key_value meta)) in
  let sorting := match pm_row_groups meta with g :: _ => default [] g.1 | [] => [] end in
  mret (mkFileMeta key_value sorting (pm_row_groups meta).*2 (pm_num_rows meta) (pm_columns meta)).

Definition read_ts_id (p : path) : io (list (Z * bytes)) :=
  rows ← read_table p; mret ((fun r => (rr_ts r, rr_id r)) <$> (rows : list ReadRow)).
End reading.

(** ** What the library promises *)

(** The dotted paths of the leaves of a type. *)
Fixpoint leaf_paths (t : PType) : list bytes :=
  match t with
  | Prim name _ _ _ => [name]
  | Group name _ _ fields => (fun q => name ++ x2e :: q) <$> flat_map leaf_paths fields
  end.

Definition schema_columns (t : PType) : list bytes :=
  match t with Group _ _ _ fields => flat_map leaf_paths fields | Prim name _ _ _ => [name] end.

(** The field of a key. *)
Definition value_field (v : Value) : Field :=
  match v with
  | VNull => FNull
  | VBool b => FBool b
  | VI64 i => FLong i
  | VF64 bits => FDouble bits
  | VStr s => FStr s
  end.

(** A row of a table with the schema of [defs], column by column. *)
Definition row_fields (defs : list KeyDef) (r : Row) : list (bytes * Field) :=
  [(lit "ts", FTimestampMicros (row_ts r)); (lit "id", FStr (row_id r))]
  ++ zip (key_name <$> defs) (value_field <$> row_keys r)
  ++ [(lit "extra", FMapInternal ((fun p => (FStr p.1, FStr p.2)) <$> row_extra r));
      (lit "data", FStr (row_data r))].

(** A row the format can represent. *)
Definition representable (defs : list KeyDef) (r : Row) : Prop :=
  keys_fit defs (row_keys r) = true /\ row_ts r < i64_lim /\ row_wf r.

(** Reading what was written: the rows whose values and levels the chunks are, and the
    properties the writer was given. *)
Class ParquetReaderLaws `{Parquet, ParquetReader} := {
  pq_rows_written defs props (parts : list (list Row)) : Forall (Forall (representable defs)) parts ->
    pq_rows (pq_file (parquet_schema defs) props (chunks_of defs <$> parts))
    = Some (Some <$> (row_fields defs <$> concat parts));
  pq_metadata_written defs props (parts : list (list Row)) : Forall (Forall (representable defs)) parts ->
    pq_metadata (pq_file (parquet_schema defs) props (chunks_of defs <$> parts))
    = Some (mkParquetMeta (Some (prod_map id Some <$> pr_metadata props))
              ((fun g => (Some (pr_sorting props), zlen g)) <$> parts) (zlen (concat parts))
              (schema_columns (parquet_schema defs)))
}.

(** ** The round trip *)

(** The texts of a row. *)
Definition value_text (v : Value) : option bytes :=
  match v with
  | VNull => None
  | VBool b => Some (bool_text b)
  | VI64 i => Some (signed_text i)
  | VF64 bits => Some (float_text 11 52 bits)
  | VStr s => Some s
  end.

Definition read_row (r : Row) : ReadRow :=
  mkReadRow (row_ts r) (row_id r) (value_text <$> row_keys r) (row_extra r) (row_data r).

(** No declared key has the name of a fixed column. *)
Definition names_free (defs : list KeyDef) : Prop :=
  Forall (fun k => key_name k ∉ RESERVED_KEY_NAMES) defs.

Section roundtrip.
Context `{ParquetReaderLaws}.

Lemma field_value_text v : field_text (value_field v) = value_text v.
Proof. by destruct v. Qed.

Lemma take_key s name f : name ∉ RESERVED_KEY_NAMES ->
  take_column s name f = Ok (mkPartial (pt_ts s) (pt_id s) (pt_keys s ++ [field_text f]) (pt_extra s) (pt_data s)).
Proof.
  unfold RESERVED_KEY_NAMES. rewrite !not_elem_of_cons. intros (? & ? & ? & ? & _).
  unfold take_column. by rewrite !decide_False.
Qed.

(** The key columns append their texts. *)
Lemma take_keys defs vals s rest : names_free defs -> length vals = length defs ->
  take_columns s (zip (key_name <$> defs) (value_field <$> vals) ++ rest)
  = take_columns (mkPartial (pt_ts s) (pt_id s) (pt_keys s ++ (value_text <$> vals)) (pt_extra s) (pt_data s)) rest.
Proof.
  revert vals s. induction defs as [|k defs IH]; intros [|v vals] s Hn Hl; try done.
  - cbn. rewrite app_nil_r. by destruct s.
  - apply Forall_cons in Hn as [Hk Hn]. cbn [fmap list_fmap zip zip_with app take_columns].
    rewrite take_key, field_value_text by done. cbn [mbind result_bind].
    rewrite IH by (done || by injection Hl). cbn [pt_ts pt_id pt_keys pt_extra pt_data].
    by rewrite <-app_assoc.
Qed.

Lemma pairs_text (l : list (bytes * bytes)) :
  (fun p => (text_or_empty p.1, text_or_empty p.2)) <$> ((fun p => (FStr p.1, FStr p.2)) <$> l) = l.
Proof. induction l as [|[x y] l IH]; [done|]. cbn [fmap list_fmap fst snd]. by rewrite IH. Qed.

Lemma take_extra s l : take_column s (lit "extra") (FMapInternal ((fun p => (FStr p.1, FStr p.2)) <$> l))
  = Ok (mkPartial (pt_ts s) (pt_id s) (pt_keys s) (pt_extra s ++ l) (pt_data s)).
Proof. rewrite <-(pairs_text l) at 2. done. Qed.

(** One row. *)
Lemma row_from_fields defs r : names_free defs -> representable defs r ->
  row_from (row_fields defs r) = Ok (read_row r).
Proof.
  intros Hn (Hk & _ & [Hts _ _ _ _]). apply keys_fit_length in Hk. unfold row_from, row_fields.
  cbn [app take_columns]. change (take_column _ (lit "ts") _) with
    (ts ← field_ts (FTimestampMicros (row_ts r)); Ok (mkPartial (Some ts) [] [] [] [])).
  unfold field_ts. destruct (Z.ltb_spec (row_ts r) 0); [lia|]. cbn [mbind result_bind].
  change (take_column _ (lit "id") _) with (@Ok Error _ (mkPartial (Some (row_ts r)) (row_id r) [] [] [])).
  cbn [mbind result_bind]. rewrite take_keys by done. cbn [pt_ts pt_id pt_keys pt_extra pt_data app].
  cbn [take_columns]. by rewrite take_extra.
Qed.

Lemma read_rows_fields defs rows : names_free defs -> Forall (representable defs) rows ->
  read_rows (Some <$> (row_fields defs <$> rows)) = Ok (read_row <$> rows).
Proof.
  intros Hn. induction 1 as [|r rows Hr _ IH]; [done|]. rewrite !fmap_cons. cbn [read_rows read_err mbind result_bind].
  rewrite row_from_fields by done. cbn [mbind result_bind]. by rewrite IH.
Qed.

Lemma runs_open_parquet p c fs : fs !! p = Some c -> runs (open_parquet p) fs fs (Ret c).
Proof.
  intros E. eapply runs_bind; [apply runs_try, runs_call_eq; cbn [effect]; by rewrite E|].
  eapply runs_bind; [by apply runs_read|]. apply runs_ret.
Qed.

Lemma stored_representable defs r : row_fits defs r = true -> row_wf r -> representable defs (stored r).
Proof.
  intros [Hk Hts]%andb_true_iff Hw. split_and!; [done|by apply Z.ltb_lt in Hts|].
  destruct Hw. split; try done. by apply Forall_canonical_extra.
Qed.

(** A table on the disk, read back. *)
Lemma runs_read_table defs props n rows p fs :
  (1 <= n)%nat -> names_free defs -> Forall (representable defs) (stored <$> rows) ->
  fs !! p = Some (table_file defs props n rows) ->
  runs (read_table p) fs fs (Ret (read_row <$> (stored <$> rows))).
Proof.
  intros Hn Hf Hr Hp. unfold read_table. eapply runs_bind; [by apply runs_open_parquet|]. unfold table_file.
  rewrite pq_rows_written, concat_row_groups by (done || (apply Forall_concat; by rewrite concat_row_groups)). cbn [read_err].
  eapply runs_bind; [apply runs_ret|]. rewrite read_rows_fields by done. apply runs_ret.
Qed.

(** The footer of a table with these rows. *)
Record describes (series : bytes) (epoch : Z) (defs : list KeyDef) (n : nat) (rows : list Row)
    (meta : FileMeta) : Prop := {
  ds_rows : fm_num_rows meta = zlen rows;
  ds_groups : foldr Z.add 0 (fm_row_group_rows meta) = zlen rows;
  ds_group_size : Forall (fun k => 1 <= k <= Z.of_nat n) (fm_row_group_rows meta);
  ds_sorting : rows <> [] -> fm_sorting_columns meta = [(TS_COLUMN_IDX, false, false)];
  ds_series : fm_key_value meta !! SERIES_META_KEY = Some series;
  ds_epoch : fm_key_value meta !! EPOCH_META_KEY = Some (show epoch);
  ds_columns : fm_columns meta = [lit "ts"; lit "id"] ++ (key_name <$> defs)
    ++ [lit "extra.key_value.key"; lit "extra.key_value.value"; lit "data"]
}.

Lemma sum_groups (parts : list (list Row)) : foldr Z.add 0 (zlen <$> parts) = zlen (concat parts).
Proof. induction parts as [|g parts IH]; [done|]. rewrite fmap_cons. cbn [foldr concat]. by rewrite IH, zlen_app. Qed.

Lemma columns_of_schema defs : schema_columns (parquet_schema defs) =
  [lit "ts"; lit "id"] ++ (key_name <$> defs)
  ++ [lit "extra.key_value.key"; lit "extra.key_value.value"; lit "data"].
Proof.
  unfold parquet_schema, schema_columns. rewrite !flat_map_app. do 2 f_equal.
  induction defs as [|k defs IH]; [done|]. rewrite !fmap_cons. cbn [flat_map]. rewrite IH.
  unfold key_field. by destruct (decide _).
Qed.

Lemma runs_read_metadata series epoch comp defs props n rows p fs :
  writer_properties series epoch comp = Ok props -> (1 <= n)%nat ->
  Forall (representable defs) (stored <$> rows) -> fs !! p = Some (table_file defs props n rows) ->
  exists meta, runs (read_metadata p) fs fs (Ret meta) /\ describes series epoch defs n rows meta.
Proof.
  intros Hp Hn Hr Hl. set (parts := row_groups n (stored <$> rows)).
  assert (concat parts = stored <$> rows) as Hc by (by apply concat_row_groups).
  assert (pr_sorting props = [(TS_COLUMN_IDX, false, false)] /\
    pr_metadata props = [(EPOCH_META_KEY, show epoch); (SERIES_META_KEY, series)]) as [Hs Hm].
  { unfold writer_properties in Hp. destruct (if decide _ then _ else _) in Hp; [|done]. by injection Hp as <-. }
  eexists. split.
  - eapply runs_bind; [by apply runs_open_parquet|]. unfold table_file. fold parts.
    rewrite pq_metadata_written by (apply Forall_concat; by rewrite Hc). cbn [read_err].
    eapply runs_bind; [apply runs_ret|]. apply runs_ret.
  - rewrite Hs, Hm, Hc. split; cbn [fm_num_rows fm_row_group_rows fm_sorting_columns fm_key_value fm_columns
      pm_num_rows pm_row_groups pm_key_value pm_columns].
    + unfold zlen. by rewrite length_fmap.
    + rewrite <-list_fmap_compose. change (snd ∘ _) with (@zlen Row). rewrite sum_groups, Hc.
      unfold zlen. by rewrite length_fmap.
    + rewrite <-list_fmap_compose, Forall_fmap. pose proof (row_groups_size n (stored <$> rows) Hn) as Hg.
      fold parts in Hg. eapply Forall_impl; [exact Hg|]. intros g Hgs. unfold compose. cbn [snd]. unfold zlen. cbn in Hgs. lia.
    + intros Hne. destruct parts as [|g parts']; [|done]. by destruct rows.
    + done.
    + done.
    + apply columns_of_schema.
Qed.

(** C21: What the writer streams into a table the reader returns. For a supported codec,
    key names that are not names of fixed columns and rows that fit the declared keys,
    [PartitionWriter] leaves a file from which [read_file] returns the texts of every row,
    in order, with nulls as [None] and [extra] in canonical form, [read_ts_id] the
    timestamps and ids, and [read_metadata] the series, the epoch, the declared columns,
    the sort order and row groups of at most [row_group_rows] rows that add up. *)
Theorem table_reads_back p series epoch defs compression n rows fs :
  compression ∈ SUPPORTED_COMPRESSION -> names_free defs ->
  Forall (fun r => row_fits defs r = true) rows -> Forall row_wf rows ->
  exists fs',
    runs (w ← partition_create p series epoch defs compression n;
          w ← append_rows w rows; partition_finish w) fs fs' (Ret (length rows)) /\
    runs (read_table p) fs' fs' (Ret (read_row <$> (stored <$> rows))) /\
    runs (read_ts_id p) fs' fs' (Ret ((fun r => (row_ts r, row_id r)) <$> rows)) /\
    exists meta, runs (read_metadata p) fs' fs' (Ret meta) /\
      describes series epoch defs (Nat.max n 1) rows meta.
Proof.
  intros Hc Hn Hf Hw. destruct (supported_properties series epoch compression Hc) as [props Hp].
  assert (Forall (representable defs) (stored <$> rows)) as Hr.
  { apply Forall_fmap. rewrite Forall_forall in Hf, Hw |- *. intros r Hin. apply stored_representable; auto. }
  exists (<[p := table_file defs props (Nat.max n 1) rows]> fs).
  assert (runs (read_table p) (<[p := table_file defs props (Nat.max n 1) rows]> fs) _ (Ret _)) as Hread
    by (eapply runs_read_table; [| |exact Hr|apply lookup_insert_eq]; [lia|done]).
  split_and!; [by apply runs_stream|exact Hread| |].
  - eapply runs_bind; [exact Hread|]. rewrite <-!list_fmap_compose. apply runs_ret.
  - eapply runs_read_metadata; [done|lia|done|apply lookup_insert_eq].
Qed.
End roundtrip.

(** ** Instances *)

(** A concrete format: the column paths, the properties and the rows of each group, as
    one number in binary; the bytes of an unfinished file do not matter. *)
#[export] Instance value_countable : Countable Value.
Proof.
  refine (inj_countable'
    (fun v => match v with
      | VNull => inl (inl (inl tt)) | VBool b => inl (inl (inr b)) | VI64 i => inl (inr (inl i))
      | VF64 x => inl (inr (inr x)) | VStr s => inr s end)
    (fun c => match c with
      | inl (inl (inl _)) => VNull | inl (inl (inr b)) => VBool b | inl (inr (inl i)) => VI64 i
      | inl (inr (inr x)) => VF64 x | inr s => VStr s end) _).
  by intros [].
Defined.

#[export] Instance row_eq_dec : EqDecision Row.
Proof. solve_decision. Defined.

#[export] Instance row_countable : Countable Row.
Proof.
  refine (inj_countable' (fun r => (row_ts r, row_id r, row_keys r, row_extra r, row_data r))
    (fun '(t, i, k, e, d) => mkRow t i k e d) _). by intros [].
Defined.

Definition field_name (t : PType) : bytes := match t with Prim n _ _ _ | Group n _ _ _ => n end.

(** The names of the keys: the fields between the fixed ones. *)
Definition key_names (t : PType) : list bytes :=
  match t with
  | Group _ _ _ fields => field_name <$> take (length fields - 4) (drop 2 fields)
  | Prim _ _ _ _ => []
  end.

Definition plain_file : Type :=
  list bytes * list bytes * list (bytes * bytes) * list (Z * bool * bool) * list (list Row).

Definition plain_parquet : Parquet := {|
  pq_data _ _ groups := show (zlen groups);
  pq_file schema props groups := binary (countable.encode ((key_names schema, schema_columns schema,
    pr_metadata props, pr_sorting props,
    read_group (length (key_names schema)) <$> groups) : plain_file)) ++ [x0a]
|}.

Definition plain_load (c : bytes) : option plain_file := n ← of_binary c; countable.decode n.

Definition plain_reader : ParquetReader := {|
  pq_rows c :=
    '(names, _, _, _, groups) ← plain_load c;
    Some (Some <$> (row_fields ((fun n => mkKey n KStr true) <$> names) <$> concat groups));
  pq_metadata c :=
    '(_, columns, meta, sorting, groups) ← plain_load c;
    Some (mkParquetMeta (Some (prod_map id Some <$> meta)) ((fun g => (Some sorting, zlen g)) <$> groups)
            (zlen (concat groups)) columns);
  map_text _ := []
|}.

Lemma key_names_schema defs : key_names (parquet_schema defs) = key_name <$> defs.
Proof.
  unfold parquet_schema, key_names. set (tail := [Group _ _ _ _; utf8 _ _]).
  change (field_name <$> take (length ((key_field <$> defs) ++ tail) - 2) ((key_field <$> defs) ++ tail) = key_name <$> defs).
  rewrite length_app, length_fmap. change (length tail) with 2%nat.
  rewrite take_app_length' by (rewrite length_fmap; lia). rewrite <-list_fmap_compose.
  apply list_fmap_ext. intros i k _. unfold compose, key_field. by destruct (decide _).
Qed.

Lemma plain_groups defs (parts : list (list Row)) : Forall (Forall (representable defs)) parts ->
  read_group (length defs) <$> (chunks_of defs <$> parts) = parts.
Proof.
  induction 1 as [|g parts Hg _ IH]; [done|]. rewrite !fmap_cons, IH, read_group_of; [done|].
  eapply Forall_impl; [exact Hg|]. by intros r [? _].
Qed.

Lemma plain_load_written defs props parts : Forall (Forall (representable defs)) parts ->
  plain_load (pq_file (Parquet := plain_parquet) (parquet_schema defs) props (chunks_of defs <$> parts))
  = Some (key_name <$> defs, schema_columns (parquet_schema defs), pr_metadata props, pr_sorting props, parts).
Proof.
  intros Hp. unfold plain_load. cbn [pq_file plain_parquet]. rewrite key_names_schema, length_fmap, plain_groups by done.
  rewrite of_binary_binary. cbn [mbind option_bind]. apply countable.decode_encode.
Qed.

Lemma row_fields_names defs r :
  row_fields ((fun n => mkKey n KStr true) <$> (key_name <$> defs)) r = row_fields defs r.
Proof. unfold row_fields. rewrite <-!list_fmap_compose. done. Qed.

Definition plain_laws : @ParquetReaderLaws plain_parquet plain_reader.
Proof.
  split; intros defs props parts Hp; cbn [pq_rows pq_metadata plain_reader]; rewrite plain_load_written by done;
    cbn [mbind option_bind]; [|done].
  do 2 f_equal. apply list_fmap_ext. intros i r _. apply row_fields_names.
Qed.

Lemma table_reads_back_witness : exists fs' meta,
  runs (read_table (H := plain_reader) [lit "f"]) fs' fs' (Ret (read_row <$> [stored sample_row; stored sample_row])) /\
  runs (read_metadata (H := plain_reader) [lit "f"]) fs' fs' (Ret meta) /\ fm_num_rows meta = 2.
Proof.
  destruct (table_reads_back (H1 := plain_laws) [lit "f"] (lit "orders") 3 sample_defs (lit "lz4") 1
    [sample_row; sample_row] ∅) as (fs' & _ & Hr & _ & meta & Hm & Hd).
  - apply (bool_decide_unpack _). vm_compute. exact I.
  - apply (bool_decide_unpack _). vm_compute. exact I.
  - repeat constructor.
  - repeat (constructor; [exact sample_row_wf|]). constructor.
  - exists fs', meta. split; [exact Hr|]. split; [exact Hm|]. exact (ds_rows _ _ _ _ _ _ Hd).
Defined.
