(* ===== verification/View.v ===== *)
(** * View: the generated DuckDB view ([flush/view.rs])

    [view_sql] unions all epochs of a series by name; a key some epoch lacks is
    coalesced against [extra]. Names come from user configuration, so every name in the
    text is quoted. [lex] reads a text as SQL's tokens; [view_tokens] is the statement
    meant. *)

From Stdlib Require Import ZArith Lia.
From Stdlib Require Import Strings.Byte.
From S2P Require Import Prelude Text Record Disk Time Config Manifest.
Open Scope Z_scope.

(** [s.replace(c, cc)]: each occurrence of [c] doubled. *)
Definition double (c : byte) (s : bytes) : bytes :=
  concat ((fun b => if decide (b = c) then [c; c] else [b]) <$> s).

Definition sql_str (s : bytes) : bytes := x27 :: double x27 s ++ [x27].
Definition sql_ident (s : bytes) : bytes := x22 :: double x22 s ++ [x22].

Definition duckdb_type (ty : KeyType) : bytes :=
  match ty with
  | KBool => lit "BOOLEAN"
  | KI64 => lit "BIGINT"
  | KF64 => lit "DOUBLE"
  | KStr => lit "VARCHAR"
  end.

(** The keys of all epochs, the first definition of each name. *)
Fixpoint add_keys (all : list KeyDef) (keys : list KeyDef) : list KeyDef :=
  match keys with
  | [] => all
  | k :: keys' =>
      add_keys (if existsb (fun seen => bool_decide (key_name seen = key_name k)) all
                then all else all ++ [k]) keys'
  end.

Definition all_keys (history : list EpochSchema) : list KeyDef :=
  foldl (fun all e => add_keys all (es_keys e)) [] history.

Definition newline : bytes := [x0a].

(** [epochs.join(", ")]. *)
Fixpoint join (sep : bytes) (l : list bytes) : bytes :=
  match l with
  | [] => []
  | [x] => x
  | x :: l' => x ++ sep ++ join sep l'
  end.

Definition present_everywhere (history : list EpochSchema) (k : KeyDef) : bool :=
  forallb (fun e => existsb (fun ek => bool_decide (key_name ek = key_name k)) (es_keys e)) history.

(** The line of one key. *)
Definition key_line (history : list EpochSchema) (k : KeyDef) : bytes :=
  let ident := sql_ident (key_name k) in
  if present_everywhere history k then lit "  " ++ ident ++ lit "," ++ newline
  else lit "  coalesce(" ++ ident ++ lit ", try_cast(extra[" ++ sql_str (key_name k) ++ lit "] AS "
       ++ duckdb_type (key_ty k) ++ lit ")) AS " ++ ident ++ lit "," ++ newline.

Definition view_header (series : bytes) (history : list EpochSchema) : bytes :=
  lit "-- Generated by orc; regenerated on every flush. Do not edit." ++ newline
  ++ lit "-- Paths are relative to the data directory, and DuckDB resolves them" ++ newline
  ++ lit "-- against the process working directory -- not this file's location:" ++ newline
  ++ lit "--   cd <data_dir> && duckdb -c " ++ [x22] ++ lit ".read series/" ++ series
  ++ lit "/view.sql" ++ [x22] ++ newline
  ++ match history with
     | [] => lit "-- No epochs recorded for this series yet." ++ newline
     | _ => lit "-- Epochs unioned: " ++ join (lit ", ") ((fun e => show (es_epoch e)) <$> history)
            ++ newline
     end.

Definition view_sql (series : bytes) (history : list EpochSchema) : bytes :=
  view_header series history
  ++ lit "CREATE OR REPLACE VIEW " ++ sql_ident series ++ lit " AS SELECT" ++ newline
  ++ lit "  ts," ++ newline ++ lit "  id," ++ newline
  ++ concat (key_line history <$> all_keys history)
  ++ lit "  extra," ++ newline ++ lit "  data" ++ newline
  ++ lit "FROM read_parquet(" ++ sql_str (lit "series/" ++ series ++ lit "/**/*.parquet")
  ++ lit ", hive_partitioning = 1, union_by_name = 1);" ++ newline.

(** The loop of [view_columns]. *)
Fixpoint add_columns (seen cols : list bytes) (keys : list KeyDef) : list bytes * list bytes :=
  match keys with
  | [] => (seen, cols)
  | k :: keys' =>
      if decide (key_name k ∈ seen) then add_columns seen cols keys'
      else add_columns (key_name k :: seen) (cols ++ [key_name k]) keys'
  end.

Definition view_columns (history : list EpochSchema) : list bytes :=
  let '(_, cols) := foldl (fun '(seen, cols) e => add_columns seen cols (es_keys e))
                      ([], [lit "ts"; lit "id"]) history in
  cols ++ [lit "extra"; lit "data"].

(** ** How the text is read *)

(** The part of SQL's lexical grammar the view uses: words, names in double quotes,
    strings in single quotes, symbols, and comments up to the end of the line. Inside
    quotes a doubled quote stands for one. *)
Inductive Token :=
| Word (w : bytes)
| Quoted (quote : byte) (w : bytes)
| Sym (c : byte).

(** The reader of one byte after the other; [Closing]: after a quote that ends the token
    unless it is doubled; [Dash]: after one [-]. *)
Inductive Lex :=
| Between
| InWord (w : bytes)
| InQuoted (quote : byte) (w : bytes)
| Closing (quote : byte) (w : bytes)
| Dash
| Comment.

Definition is_word (b : byte) : bool := in_range 97 122 b || in_range 65 90 b || is_digit b || bool_decide (b = x5f).

Definition lex_start (b : byte) : Lex * list Token :=
  if bool_decide (b = x22) || bool_decide (b = x27) then (InQuoted b [], [])
  else if is_word b then (InWord [b], [])
  else if bool_decide (b = x20) || bool_decide (b = x0a) then (Between, [])
  else if bool_decide (b = x2d) then (Dash, [])
  else (Between, [Sym b]).

Definition lex_step (st : Lex) (b : byte) : Lex * list Token :=
  match st with
  | Between => lex_start b
  | InWord w =>
      if is_word b then (InWord (w ++ [b]), [])
      else let '(st, out) := lex_start b in (st, Word w :: out)
  | InQuoted q w => if decide (b = q) then (Closing q w, []) else (InQuoted q (w ++ [b]), [])
  | Closing q w =>
      if decide (b = q) then (InQuoted q (w ++ [q]), [])
      else let '(st, out) := lex_start b in (st, Quoted q w :: out)
  | Dash =>
      if decide (b = x2d) then (Comment, [])
      else let '(st, out) := lex_start b in (st, Sym x2d :: out)
  | Comment => (if decide (b = x0a) then Between else Comment, [])
  end.

Fixpoint lex_run (st : Lex) (s : bytes) : Lex * list Token :=
  match s with
  | [] => (st, [])
  | b :: s' =>
      let '(st, out) := lex_step st b in
      let '(st, out') := lex_run st s' in (st, out ++ out')
  end.

(** The tokens of a text; [None] when a quote is not closed. *)
Definition lex (s : bytes) : option (list Token) :=
  let '(st, out) := lex_run Between s in
  match st with
  | Between | Comment => Some out
  | InWord w => Some (out ++ [Word w])
  | InQuoted _ _ => None
  | Closing q w => Some (out ++ [Quoted q w])
  | Dash => Some (out ++ [Sym x2d])
  end.

(** The names of the columns a [SELECT] returns: at each comma outside brackets, and at
    [FROM], the last name before it. *)
Fixpoint select_list (depth : nat) (name : bytes) (toks : list Token) : list bytes :=
  match toks with
  | [] => []
  | Word w :: r => if decide (depth = 0%nat /\ w = lit "FROM") then [name] else select_list depth w r
  | Quoted _ w :: r => select_list depth w r
  | Sym c :: r =>
      if decide (c = x28 \/ c = x5b) then select_list (S depth) name r
      else if decide (c = x29 \/ c = x5d) then select_list (pred depth) name r
      else if decide (depth = 0%nat /\ c = x2c) then name :: select_list depth [] r
      else select_list depth name r
  end.

Fixpoint selected (toks : list Token) : list bytes :=
  match toks with
  | [] => []
  | Word w :: r => if decide (w = lit "SELECT") then select_list 0 [] r else selected r
  | _ :: r => selected r
  end.

(** ** The statement meant *)

(** The keys of all epochs, without the later declarations of a name. *)
Fixpoint first_declared (keys : list KeyDef) : list KeyDef :=
  match keys with
  | [] => []
  | k :: keys' => k :: filter (fun k' => key_name k' <> key_name k) (first_declared keys')
  end.

Definition word (w : string) : Token := Word (lit w).
Definition ident (s : bytes) : Token := Quoted x22 s.
Definition str (s : bytes) : Token := Quoted x27 s.

(** A key that every epoch declares is a column; another one is taken from [extra] where
    the column is missing. *)
Definition key_tokens (history : list EpochSchema) (k : KeyDef) : list Token :=
  if decide (Forall (fun e => key_name k ∈ key_name <$> es_keys e) history)
  then [ident (key_name k); Sym x2c]
  else [word "coalesce"; Sym x28; ident (key_name k); Sym x2c; word "try_cast"; Sym x28; word "extra"; Sym x5b;
        str (key_name k); Sym x5d; word "AS"; Word (duckdb_type (key_ty k)); Sym x29; Sym x29; word "AS";
        ident (key_name k); Sym x2c].

Definition view_tokens (series : bytes) (history : list EpochSchema) : list Token :=
  [word "CREATE"; word "OR"; word "REPLACE"; word "VIEW"; ident series; word "AS"; word "SELECT";
   word "ts"; Sym x2c; word "id"; Sym x2c]
  ++ concat (key_tokens history <$> first_declared (concat (es_keys <$> history)))
  ++ [word "extra"; Sym x2c; word "data"; word "FROM"; word "read_parquet"; Sym x28;
      str (lit "series/" ++ series ++ lit "/**/*.parquet"); Sym x2c;
      word "hive_partitioning"; Sym x3d; word "1"; Sym x2c; word "union_by_name"; Sym x3d; word "1"; Sym x29; Sym x3b].

(** ** Reading a text in parts *)

(** From [st], [s] gives [out] and leaves the reader in [st']. *)
Definition reads_as (st : Lex) (s : bytes) (out : list Token) (st' : Lex) : Prop := lex_run st s = (st', out).

Lemma reads_app st s1 o1 st1 s2 o2 st2 :
  reads_as st s1 o1 st1 -> reads_as st1 s2 o2 st2 -> reads_as st (s1 ++ s2) (o1 ++ o2) st2.
Proof.
  unfold reads_as. revert st o1. induction s1 as [|b s1 IH]; intros st o1; cbn [app lex_run]; [by intros [= -> <-] ->|].
  destruct (lex_step st b) as [st' out]. destruct (lex_run st' s1) as [st'' out'] eqn:E. intros [= -> <-] H2.
  by rewrite (IH _ _ E H2), app_assoc.
Qed.

Lemma reads_skip st s1 st1 s2 o st2 :
  reads_as st s1 [] st1 -> reads_as st1 s2 o st2 -> reads_as st (s1 ++ s2) o st2.
Proof. apply (reads_app _ _ []). Qed.

Lemma reads_eq st s o o' st' : reads_as st s o st' -> o = o' -> reads_as st s o' st'.
Proof. by intros ? <-. Qed.

(** A text without names is read by evaluation. *)
Ltac reads_lit := unfold reads_as; lazy; reflexivity.

(** Inside quotes a name is read to its end, whatever quotes it has. *)
Lemma reads_double q w s : reads_as (InQuoted q w) (double q s) [] (InQuoted q (w ++ s)).
Proof.
  unfold reads_as. revert w. induction s as [|b s IH]; intros w; [by rewrite app_nil_r|].
  change (double q (b :: s)) with ((if decide (b = q) then [q; q] else [b]) ++ double q s).
  case_decide as Hb; cbn [app lex_run lex_step].
  - subst b. rewrite decide_True by done. cbn [app lex_run lex_step]. rewrite decide_True by done.
    by rewrite IH, <-app_assoc.
  - rewrite decide_False by done. by rewrite IH, <-app_assoc.
Qed.

Lemma reads_quoted q s : q = x22 \/ q = x27 -> reads_as Between (q :: double q s ++ [q]) [] (Closing q s).
Proof.
  intros Hq. apply (reads_skip _ [q] (InQuoted q [])); [by destruct Hq; subst|].
  eapply reads_skip; [apply reads_double|]. unfold reads_as. cbn. by rewrite decide_True.
Qed.

Lemma reads_ident s : reads_as Between (sql_ident s) [] (Closing x22 s).
Proof. apply reads_quoted. by left. Qed.

Lemma reads_str s : reads_as Between (sql_str s) [] (Closing x27 s).
Proof. apply reads_quoted. by right. Qed.

Lemma reads_comment s : x0a ∉ s -> reads_as Comment s [] Comment.
Proof.
  unfold reads_as. induction s as [|b s IH]; [done|]. rewrite not_elem_of_cons. intros [Hb Hs].
  cbn [lex_run lex_step]. rewrite decide_False by done. by rewrite IH.
Qed.

(** ** Columns *)

(** The names of [add_keys] and of [add_columns] grow together. *)
Lemma add_keys_columns all keys seen pre :
  (forall n, n ∈ seen <-> n ∈ key_name <$> all) ->
  exists seen', add_columns seen (pre ++ (key_name <$> all)) keys
      = (seen', pre ++ (key_name <$> add_keys all keys)) /\
    (forall n, n ∈ seen' <-> n ∈ key_name <$> add_keys all keys).
Proof.
  revert all seen. induction keys as [|k keys IH]; intros all seen Hs; [by exists seen|].
  cbn [add_columns add_keys].
  assert (existsb (fun s => bool_decide (key_name s = key_name k)) all
    = bool_decide (key_name k ∈ seen)) as ->.
  { apply eq_true_iff_eq. rewrite bool_decide_eq_true, Hs, existsb_exists, list_elem_of_fmap.
    setoid_rewrite bool_decide_eq_true. setoid_rewrite <-list_elem_of_In. naive_solver. }
  case_decide as Hk; [rewrite bool_decide_eq_true_2 by done; by apply IH|].
  rewrite bool_decide_eq_false_2 by done.
  destruct (IH (all ++ [k]) (key_name k :: seen)) as (seen' & E & Hs').
  - intros n. rewrite fmap_app. cbn. rewrite elem_of_cons, elem_of_app, Hs. set_solver.
  - exists seen'. rewrite fmap_app in E. cbn in E. rewrite app_assoc in E. done.
Qed.

Lemma view_columns_fold history all seen pre :
  (forall n, n ∈ seen <-> n ∈ key_name <$> all) ->
  (foldl (fun '(seen, cols) e => add_columns seen cols (es_keys e))
     (seen, pre ++ (key_name <$> all)) history).2
  = pre ++ (key_name <$> foldl (fun all e => add_keys all (es_keys e)) all history).
Proof.
  revert all seen. induction history as [|e history IH]; intros all seen Hs; [done|]. cbn [foldl].
  destruct (add_keys_columns all (es_keys e) seen pre Hs) as (seen' & -> & Hs'). by apply IH.
Qed.

(** [add_keys] appends the first declarations of new names. *)
Lemma add_keys_first all keys :
  add_keys all keys = all ++ filter (fun k => key_name k ∉ key_name <$> all) (first_declared keys).
Proof.
  revert all. induction keys as [|k keys IH]; intros all; cbn [add_keys first_declared]; [by rewrite app_nil_r|].
  assert (existsb (fun s => bool_decide (key_name s = key_name k)) all = bool_decide (key_name k ∈ key_name <$> all)) as ->.
  { apply eq_true_iff_eq. rewrite bool_decide_eq_true, existsb_exists, list_elem_of_fmap.
    setoid_rewrite bool_decide_eq_true. setoid_rewrite <-list_elem_of_In. naive_solver. }
  case_bool_decide as Hk; rewrite IH.
  - rewrite filter_cons_False by (intros Hn; by apply Hn). f_equal. rewrite list_filter_filter.
    apply list_filter_iff. intros k'. split; [|by intros []]. intros Hn. split; [done|]. intros E. by rewrite E in Hn.
  - rewrite filter_cons_True by done. rewrite <-app_assoc. f_equal. cbn [app]. f_equal. rewrite list_filter_filter.
    apply list_filter_iff. intros k'. rewrite fmap_app, not_elem_of_app. cbn. rewrite not_elem_of_cons. set_solver.
Qed.

Lemma add_keys_app all keys keys' : add_keys all (keys ++ keys') = add_keys (add_keys all keys) keys'.
Proof. revert all. induction keys as [|k keys IH]; intros all; [done|]. cbn [app add_keys]. by rewrite IH. Qed.

Lemma all_keys_first history : all_keys history = first_declared (concat (es_keys <$> history)).
Proof.
  unfold all_keys. trans (add_keys [] (concat (es_keys <$> history))).
  - generalize (@nil KeyDef). induction history as [|e history IH]; intros all; [done|].
    cbn [foldl fmap list_fmap concat]. by rewrite IH, add_keys_app.
  - rewrite add_keys_first. cbn [app]. induction (first_declared _) as [|k l IHl]; [done|].
    rewrite filter_cons_True by apply not_elem_of_nil. by f_equal.
Qed.

Lemma elem_first_declared keys n : n ∈ key_name <$> first_declared keys <-> n ∈ key_name <$> keys.
Proof.
  induction keys as [|k keys IH]; [done|]. cbn [first_declared fmap list_fmap]. rewrite !elem_of_cons, <-IH.
  destruct (decide (n = key_name k)) as [->|Hn]; [set_solver|].
  rewrite !list_elem_of_fmap. setoid_rewrite list_elem_of_filter. naive_solver.
Qed.

Lemma first_declared_nodup keys : NoDup (key_name <$> first_declared keys).
Proof.
  induction keys as [|k keys IH]; [constructor|]. cbn [first_declared fmap list_fmap]. apply NoDup_cons. split.
  - rewrite list_elem_of_fmap. intros (k' & E & Hk). apply list_elem_of_filter in Hk as [Hk _]. by apply Hk.
  - refine (sublist_NoDup _ _ IH _). apply fmap_sublist, sublist_filter.
Qed.

Lemma view_columns_exact history :
  view_columns history
  = [lit "ts"; lit "id"] ++ (key_name <$> first_declared (concat (es_keys <$> history))) ++ [lit "extra"; lit "data"].
Proof.
  rewrite <-all_keys_first. unfold view_columns. pose proof (view_columns_fold history [] [] [lit "ts"; lit "id"]) as Hv.
  cbn [fmap list_fmap app] in Hv. fold (all_keys history) in Hv.
  destruct (foldl _ _ history) as [seen cols] eqn:E. cbn in Hv. rewrite Hv by set_solver. done.
Qed.

(** ** The text of the view *)

Lemma show_no_newline n : x0a ∉ show n.
Proof.
  unfold show. generalize (S (Z.to_nat (Z.log2 n))). intros fuel. assert (x0a ∉ @nil byte) as Ha by apply not_elem_of_nil.
  revert n Ha. generalize (@nil byte). induction fuel as [|fuel IH]; intros acc n Ha; [done|]. cbn [show_aux].
  assert (x0a ∉ digit (n mod 10) :: acc) as Ha'.
  { apply not_elem_of_cons. split; [|done]. intros E.
    pose proof (is_digit_digit (n mod 10) (Z.mod_pos_bound n 10 ltac:(done))) as Hd. by rewrite <-E in Hd. }
  destruct (n <? 10); [done|by apply IH].
Qed.

Lemma join_no_newline sep l : x0a ∉ sep -> Forall (fun s => x0a ∉ s) l -> x0a ∉ join sep l.
Proof.
  intros Hs. induction 1 as [|s l H1 H2 IH]; [apply not_elem_of_nil|]. cbn [join]. destruct l; [done|].
  by rewrite !not_elem_of_app.
Qed.

Lemma has_control_newline s : has_control s = false -> x0a ∉ s.
Proof.
  induction s as [|b s IH]; [intros; apply not_elem_of_nil|]. cbn [has_control]. rewrite !orb_false_iff.
  intros [[[H1 _] _] H2]. apply not_elem_of_cons. split; [|by apply IH]. by intros <-.
Qed.

(** The header is comments, whatever the series is called. *)
Lemma reads_header series history : x0a ∉ series -> reads_as Between (view_header series history) [] Between.
Proof.
  intros Hs. unfold view_header. do 9 (eapply reads_skip; [reads_lit|]).
  eapply reads_skip; [by apply reads_comment|]. do 3 (eapply reads_skip; [reads_lit|]).
  destruct history as [|e history]; [reads_lit|]. eapply reads_skip; [reads_lit|].
  eapply reads_skip; [apply reads_comment, join_no_newline|reads_lit].
  - change (lit ", ") with [x2c; x20]. rewrite !not_elem_of_cons. split_and!; try done. apply not_elem_of_nil.
  - apply Forall_fmap, Forall_true. intros e'. apply show_no_newline.
Qed.

Lemma present_everywhere_spec history k :
  present_everywhere history k = bool_decide (Forall (fun e => key_name k ∈ key_name <$> es_keys e) history).
Proof.
  apply eq_true_iff_eq. unfold present_everywhere. rewrite bool_decide_eq_true, forallb_forall, Forall_forall.
  setoid_rewrite <-list_elem_of_In. setoid_rewrite existsb_exists. setoid_rewrite bool_decide_eq_true.
  setoid_rewrite list_elem_of_fmap. setoid_rewrite <-list_elem_of_In. naive_solver.
Qed.

Lemma reads_type ty : reads_as Between (duckdb_type ty) [] (InWord (duckdb_type ty)).
Proof. destruct ty; reads_lit. Qed.

Lemma reads_key history k : reads_as Between (key_line history k) (key_tokens history k) Between.
Proof.
  unfold key_line, key_tokens. rewrite present_everywhere_spec. case_bool_decide as Hp.
  - rewrite decide_True by done. eapply reads_skip; [reads_lit|]. eapply reads_skip; [apply reads_ident|reads_lit].
  - rewrite decide_False by done. eapply reads_eq.
    + eapply reads_app; [reads_lit|]. eapply reads_app; [apply reads_ident|]. eapply reads_app; [reads_lit|].
      eapply reads_app; [apply reads_str|]. eapply reads_app; [reads_lit|]. eapply reads_app; [apply reads_type|].
      eapply reads_app; [reads_lit|]. eapply reads_app; [apply reads_ident|]. reads_lit.
    + reflexivity.
Qed.

Lemma reads_keys history keys :
  reads_as Between (concat (key_line history <$> keys)) (concat (key_tokens history <$> keys)) Between.
Proof.
  induction keys as [|k keys IH]; [done|]. cbn [fmap list_fmap concat].
  eapply reads_app; [apply reads_key|exact IH].
Qed.

Lemma reads_view series history : x0a ∉ series ->
  reads_as Between (view_sql series history) (view_tokens series history) Between.
Proof.
  intros Hs. unfold view_sql. rewrite all_keys_first. eapply reads_eq.
  - eapply reads_app; [by apply reads_header|]. eapply reads_app; [reads_lit|].
    eapply reads_app; [apply reads_ident|]. do 6 (eapply reads_app; [reads_lit|]).
    eapply reads_app; [apply reads_keys|]. do 5 (eapply reads_app; [reads_lit|]).
    eapply reads_app; [apply reads_str|]. eapply reads_app; reads_lit.
  - unfold view_tokens. cbn [app]. reflexivity.
Qed.

(** ** The columns it selects *)

Lemma select_key history k r : select_list 0 [] (key_tokens history k ++ r) = key_name k :: select_list 0 [] r.
Proof. unfold key_tokens. destruct (decide _); [done|]. by destruct (key_ty k). Qed.

Lemma select_keys history keys r :
  select_list 0 [] (concat (key_tokens history <$> keys) ++ r) = (key_name <$> keys) ++ select_list 0 [] r.
Proof.
  induction keys as [|k keys IH]; [done|]. cbn [fmap list_fmap concat]. rewrite <-app_assoc, select_key. cbn. by f_equal.
Qed.

Lemma selected_view series history : selected (view_tokens series history) = view_columns history.
Proof.
  rewrite view_columns_exact. unfold view_tokens. generalize (first_declared (concat (es_keys <$> history))). intros keys.
  match goal with |- selected (_ ++ ?r) = _ => trans (lit "ts" :: lit "id" :: select_list 0 [] r); [reflexivity|] end.
  by rewrite select_keys.
Qed.

(** C40: The generated view. For a series whose name the configuration accepts, whatever
    quotes it and the keys' names contain, the text of [view_sql] reads as the statement
    that is meant: its tokens name exactly the series and the keys (no name ends a quote
    early, none is left out), and its path is that of the series. It selects, between the
    fixed columns, one column per key name ever declared, with the type of its first
    declaration and in the order of these; a key that some epoch does not declare is
    taken from [extra] there, the others are not. These are the names [view_columns]
    gives. *)
Theorem view_names_exact series history :
  check_series_name series = Ok tt ->
  lex (view_sql series history) = Some (view_tokens series history) /\
  selected (view_tokens series history) = view_columns history /\
  view_columns history
    = [lit "ts"; lit "id"] ++ (key_name <$> first_declared (concat (es_keys <$> history))) ++ [lit "extra"; lit "data"] /\
  NoDup (key_name <$> first_declared (concat (es_keys <$> history))) /\
  (forall e k, e ∈ history -> k ∈ es_keys e ->
     key_name k ∈ key_name <$> first_declared (concat (es_keys <$> history))).
Proof.
  intros Hs%check_series_name_Ok. split_and!; [|apply selected_view|apply view_columns_exact|apply first_declared_nodup|].
  - unfold lex. by rewrite (reads_view series history (has_control_newline series (no_ctl _ Hs))).
  - intros e k He Hk. apply elem_first_declared, list_elem_of_fmap_2, list_elem_of_In, in_concat.
    exists (es_keys e). split; apply list_elem_of_In; [by apply list_elem_of_fmap_2|done].
Qed.

(** Quotes in the name of the series and of a key that only the second epoch declares. *)
Definition quoted_history : list EpochSchema :=
  [mkEpoch 0 [mkKey (lit "select") KStr true];
   mkEpoch 1 [mkKey (lit "select") KStr true; mkKey (lit "it's") KI64 true]].

Lemma view_names_witness :
  lex (view_sql [x6f; x22; x27] quoted_history) = Some (view_tokens [x6f; x22; x27] quoted_history) /\
  view_columns quoted_history = [lit "ts"; lit "id"; lit "select"; lit "it's"; lit "extra"; lit "data"].
Proof.
  destruct (view_names_exact [x6f; x22; x27] quoted_history) as (Hl & _ & Hc & _); [vm_compute; reflexivity|].
  split; [exact Hl|]. rewrite Hc. vm_compute. reflexivity.
Defined.
