(* ===== verification/Planner.v ===== *)
(** * Planner: the flush job ([flush/planner.rs])

    Sealed segments are decoded into a batch (spilled over budget), each group is
    merged and streamed into one staged Parquet file per hour, the manifest is
    committed, staged files are renamed into [series/], and the segments are deleted.
    [sweep_uncommitted] cleans up after an interrupted flush.

    The clock is an input of [run]. Empty directories are not represented, so
    [create_dir_all] is a call without effect on the files and [remove_dir], whose
    result the code ignores, does not appear. *)

From Stdlib Require Import ZArith Lia.
From Stdlib Require Import Strings.Byte.
From S2P Require Import Prelude Text Record Codec CodecProofs Disk Wal Reader Merge Time Config Manifest Columns View.
Open Scope Z_scope.

Definition SERIES_DIR : bytes := lit "series".
Definition TMP_DIR : bytes := lit "tmp".
Definition REJECTS_DIR : bytes := lit "rejects".
Definition REJECT_EXT : bytes := lit "rej".
Definition VIEW_FILE : bytes := lit "view.sql".

Definition series_dir (series : bytes) : path := [SERIES_DIR; series].
Definition tmp_dir : path := [TMP_DIR].
Definition rejects_dir : path := [REJECTS_DIR].

(** [struct FlushOutcome]. *)
Record FlushOutcome := mkOutcome {
  segments_consumed : list Z;
  files_written : list WrittenFile;
  rows_written : Z;
  rows_deduplicated : Z;
  frames_rejected : Z;
  bytes_skipped : Z
}.

Definition outcome_default : FlushOutcome := mkOutcome [] [] 0 0 0 0.

(** ** Calls *)

(** [read_dir(dir).into_iter().flatten().flatten()]: an error is an empty listing. *)
Definition or_empty {A : Type} (m : io (result IoError (list A))) : io (list A) :=
  r ← m; mret (match r with Ok l => l | Err _ => [] end).

Fixpoint io_flat_map {A B : Type} (f : A -> io (list B)) (l : list A) : io (list B) :=
  match l with
  | [] => mret []
  | x :: l' => a ← f x; b ← io_flat_map f l'; mret (a ++ b)
  end.

(** What [Drop] does when a value goes out of scope, on every return. *)
Definition finally {A : Type} (m : io A) (cleanup : io unit) : io A :=
  r ← attempt m;
  _ ← attempt cleanup;
  lift r.

(** The errors of an ignored result. *)
Definition ignore {A : Type} (m : io A) : io unit := _ ← m; mret tt.

(** ** Rejected frames *)

(** [struct RejectSink]; [capped_logged] only limits log lines. *)
Record RejectSink := mkRejects { rj_cap : Z; rj_used : option Z }.

Fixpoint sum_sizes (dir : path) (names : list bytes) (total : Z) : io Z :=
  match names with
  | [] => mret total
  | name :: names' =>
      r ← file_len (dir ++ [name]);
      sum_sizes dir names' (match r with Ok n => total + n | Err _ => total end)
  end.

Definition dir_bytes (dir : path) : io Z :=
  r ← read_dir dir;
  match r with
  | Err _ => mret 0
  | Ok names => sum_sizes dir names 0
  end.

Definition reject_path (segment : Z) : path :=
  rejects_dir ++ [show_pad SEGMENT_ID_DIGITS segment ++ lit "." ++ REJECT_EXT].

(** [RejectSink::write]. *)
Definition reject_write (segment : Z) (frame : bytes) : io (result IoError unit) :=
  r ← create_dir_all rejects_dir;
  match r with
  | Err e => mret (Err e)
  | Ok _ => append_file (reject_path segment) frame
  end.

(** [RejectSink::append]. *)
Definition reject_append (s : RejectSink) (segment : Z) (frame : bytes) : io RejectSink :=
  used ← match rj_used s with Some n => mret n | None => dir_bytes rejects_dir end;
  let s := mkRejects (rj_cap s) (Some used) in
  if rj_cap s <? sat_add used (zlen frame) then mret s
  else
    r ← reject_write segment frame;
    match r with
    | Err _ => mret s
    | Ok _ => mret (mkRejects (rj_cap s) (Some (used + zlen frame)))
    end.

(** ** Decoding a segment *)

Definition matches_schema (keys : list KeyDef) (values : list Value) : bool :=
  (zlen keys =? zlen values)
  && forallb (fun '(k, v) => match value_key_type v with
                             | None => true
                             | Some ty => bool_decide (ty = key_ty k)
                             end) (zip keys values).

(** [struct Decoded]. *)
Record SegDecoded := mkDecodedSeg {
  d_schemas : gmap GroupKey (list KeyDef);
  d_touched : gset bytes;
  d_rows : Z;
  d_rejected : Z;
  d_skipped : Z;
  d_unreadable : bool;
  d_quarantined : bool
}.

Definition decoded_default : SegDecoded := mkDecodedSeg ∅ ∅ 0 0 0 false false.

(** [cached_keys]: the keys and the cache. *)
Definition cached_keys (cache : gmap GroupKey (list KeyDef)) (m : Manifest) (series : bytes) (epoch : Z)
    : list KeyDef * gmap GroupKey (list KeyDef) :=
  match cache !! (series, epoch) with
  | Some keys => (keys, cache)
  | None =>
      let keys := default [] (schema m series epoch) in
      (keys, <[(series, epoch) := keys]> cache)
  end.

(** The closure [key_count], without its memo table. *)
Definition key_count (m : Manifest) (series : bytes) (epoch : Z) : option nat :=
  length <$> schema m series epoch.

(** The offset of the id in a frame: header, [ts], [epoch], [series] with its length,
    and the length of the id. *)
Definition id_offset (series : bytes) : Z := 24 + zlen series.

(** Planner's [quarantine_segment]: whether the rename happened. *)
Definition try_quarantine (id : Z) : io bool :=
  r ← quarantine_segment id;
  mret (match r with Ok _ => true | Err _ => false end).

Section decode.
Context `{Crc32}.

(** What one item of the reader adds. *)
Definition add_rejected (d : SegDecoded) (skipped : Z) : SegDecoded :=
  mkDecodedSeg (d_schemas d) (d_touched d) (d_rows d) (d_rejected d + 1) (d_skipped d + skipped)
    (d_unreadable d) (d_quarantined d).

Definition decode_item (segment_id : Z) (buf : bytes) (m : Manifest) (item : FrameResult)
    (values : list Value) (d : SegDecoded) (rejects : RejectSink) (batch : Batch)
    : io (SegDecoded * RejectSink * Batch) :=
  match item with
  | Err (BadRecord offset len _) | Err (UnknownSchema offset len _ _) =>
      rejects ← reject_append rejects segment_id (slice offset (offset + len) buf);
      mret (add_rejected d 0, rejects, batch)
  | Err (Undecodable offset _) =>
      let tail := drop (Z.to_nat offset) buf in
      rejects ← reject_append rejects segment_id tail;
      mret (add_rejected d (zlen tail), rejects, batch)
  | Ok frame =>
      let record := frame_record frame in
      let bytes_ := slice (frame_offset frame) (frame_offset frame + frame_len frame) buf in
      let '(keys, cache) := cached_keys (d_schemas d) m (rec_series record) (rec_epoch record) in
      let d := mkDecodedSeg cache ({[rec_series record]} ∪ d_touched d) (d_rows d) (d_rejected d)
                 (d_skipped d) (d_unreadable d) (d_quarantined d) in
      if negb (matches_schema keys values) then
        rejects ← reject_append rejects segment_id bytes_;
        mret (add_rejected d 0, rejects, batch)
      else
        let batch := push batch (rec_series record, rec_epoch record) (rec_ts record)
                       (id_offset (rec_series record)) (zlen (rec_id record))
                       (segment_id, frame_offset frame) bytes_ in
        mret (mkDecodedSeg (d_schemas d) (d_touched d) (d_rows d + 1) (d_rejected d) (d_skipped d)
                (d_unreadable d) (d_quarantined d), rejects, batch)
  end.

(** The loop over the frames; every frame is at least one byte long. *)
Fixpoint decode_frames (fuel : nat) (segment_id : Z) (buf : bytes) (m : Manifest) (r : SegmentReader)
    (d : SegDecoded) (rejects : RejectSink) (batch : Batch) : io (SegDecoded * RejectSink * Batch) :=
  match fuel with
  | O => throw out_of_fuel
  | S fuel' =>
      match next_frame (key_count m) r with
      | (_, None) => mret (d, rejects, batch)
      | (r', Some item) =>
          s ← decode_item segment_id buf m item (sr_keys r') d rejects batch;
          let '(d, rejects, batch) := s in
          decode_frames fuel' segment_id buf m r' d rejects batch
      end
  end.

Definition decode_segment (segment_id : Z) (buf : bytes) (m : Manifest) (rejects : RejectSink)
    (batch : Batch) : io (SegDecoded * RejectSink * Batch) :=
  match reader_new buf (zlen buf) with
  | Err _ =>
      q ← try_quarantine segment_id;
      mret (mkDecodedSeg ∅ ∅ 0 0 (zlen buf) true q, rejects, batch)
  | Ok reader =>
      decode_frames (length buf) segment_id buf m reader decoded_default rejects batch
  end.
End decode.

(** ** Spilled runs *)

(** [struct Spill]. *)
Record Spill := mkSpill {
  sp_next : nat;
  sp_groups : gmap GroupKey (list path);
  sp_touched : gset bytes
}.

Definition clear_runs : io unit := ignore (remove_dir_all runs_dir).

Definition spill_new : io Spill := clear_runs ;; mret (mkSpill 0 ∅ ∅).

(** [self.groups.entry(key).or_default().push(path)]. *)
Definition add_run (groups : gmap GroupKey (list path)) (r : GroupKey * path)
    : gmap GroupKey (list path) :=
  <[r.1 := default [] (groups !! r.1) ++ [r.2]]> groups.

(** [Spill::spill]. *)
Definition spill_batch (s : Spill) (batch : Batch) : io (Spill * Batch) :=
  try (create_dir_all runs_dir) ;;
  r ← spill next_path batch (sp_next s);
  let '(runs, batch, n) := r in
  mret (mkSpill n (foldl add_run (sp_groups s) runs) (sp_touched s), batch).

(** ** Phase 1 *)

(** The state the loop over the segments threads. *)
Record Phase1 := mkPhase1 {
  p1_consumed : list Z;
  p1_schemas : gmap GroupKey (list KeyDef);
  p1_rows : Z;
  p1_rejected : Z;
  p1_skipped : Z;
  p1_rejects : RejectSink;
  p1_spill : Spill;
  p1_batch : Batch
}.

Section run.
Context `{Crc32} `{Parquet} `{ManifestJson}.

Definition phase1_add (s : Phase1) (id : Z) (d : SegDecoded) (rejects : RejectSink) (batch : Batch) : Phase1 :=
  mkPhase1 (p1_consumed s ++ [id]) (d_schemas d ∪ p1_schemas s) (p1_rows s + d_rows d)
    (p1_rejected s) (p1_skipped s) rejects
    (mkSpill (sp_next (p1_spill s)) (sp_groups (p1_spill s)) (d_touched d ∪ sp_touched (p1_spill s)))
    batch.

Fixpoint phase1 (m : Manifest) (budget : Z) (ids : list Z) (s : Phase1) : io Phase1 :=
  match ids with
  | [] => mret s
  | id :: ids' =>
      buf ← try (read_file (segment_path id));
      r ← decode_segment id buf m (p1_rejects s) (p1_batch s);
      let '(d, rejects, batch) := r in
      let s := mkPhase1 (p1_consumed s) (p1_schemas s) (p1_rows s) (p1_rejected s + d_rejected d)
                 (p1_skipped s + d_skipped d) rejects (p1_spill s) batch in
      if d_unreadable d then
        if negb (d_quarantined d) then mret s else phase1 m budget ids' s
      else
        let s := phase1_add s id d rejects batch in
        if (budget <=? batch_bytes batch) && bool_decide (ids' <> []) then
          r ← spill_batch (p1_spill s) batch;
          let '(sp, batch) := r in
          phase1 m budget ids'
            (mkPhase1 (p1_consumed s) (p1_schemas s) (p1_rows s) (p1_rejected s) (p1_skipped s)
               (p1_rejects s) sp batch)
        else phase1 m budget ids' s
  end.

(** ** Phase 2 *)

(** The writer that is open, by hour, and the files staged so far. *)
Record Staging := mkStaging {
  st_open : option (Z * (bytes * path * PartitionWriter));
  st_staged : list (WrittenFile * path)
}.

Definition finish_file (series : bytes) (epoch : Z) (f : bytes * path * PartitionWriter)
    (staged : list (WrittenFile * path)) : io (list (WrittenFile * path)) :=
  let '(hour, p, writer) := f in
  rows ← partition_finish writer;
  mret (staged ++ [(mkWrittenFile series epoch hour rows, p)]).

Definition staged_path (series hour name : bytes) : path := tmp_dir ++ [series; hour; name].

Definition redecode_error : Error := Io (InvalidData "re-decoding a frame").

Section partition.
Context (flush : FlushConfig) (series : bytes) (epoch : Z) (keys : list KeyDef) (name : bytes).

(** Open the file of a new hour, closing the one before it. *)
Definition open_hour (ts : Z) (s : Staging) : io Staging :=
  let hour_index := ts / US_PER_HOUR in
  if match st_open s with Some (h, _) => h =? hour_index | None => false end then mret s
  else
    staged ← match st_open s with
             | Some (_, file) => finish_file series epoch file (st_staged s)
             | None => mret (st_staged s)
             end;
    let hour := hour_partition ts in
    let p := staged_path series hour name in
    try (create_dir_all (tmp_dir ++ [series; hour])) ;;
    writer ← partition_create p series epoch keys (compression flush)
               (Z.to_nat (row_group_rows flush));
    mret (mkStaging (Some (hour_index, (hour, p, writer))) staged).

(** The sink of [merge_partition]. *)
Definition stage_row (entry : Head) (s : Staging) : io Staging :=
  s ← open_hour (h_ts entry) s;
  match decode_verified (h_frame entry) (length keys) with
  | Err _ => throw redecode_error
  | Ok d =>
      let record := dec_record d in
      match st_open s with
      | None => throw redecode_error
      | Some (h, (hour, p, writer)) =>
          writer ← partition_append writer (rec_ts record) (rec_id record) (dec_keys d)
                     (dec_extra d) (rec_data record);
          mret (mkStaging (Some (h, (hour, p, writer))) (st_staged s))
      end
  end.

Definition merge_partition (runs : list path) (in_memory : option MemRun) (n : nat)
    (staged : list (WrittenFile * path)) : io (MergeStats * nat * list (WrittenFile * path)) :=
  r ← merge_bounded next_path stage_row runs in_memory (Z.to_nat (merge_fan_in flush)) n
        (mkStaging None staged);
  let '(stats, n, s) := r in
  staged ← match st_open s with
           | Some (_, file) => finish_file series epoch file (st_staged s)
           | None => mret (st_staged s)
           end;
  mret (stats, n, staged).
End partition.

(** The groups of the batch and of the runs, in key order. *)
Fixpoint phase2 (flush : FlushConfig) (first last_ : Z) (schemas : gmap GroupKey (list KeyDef))
    (memory : gmap GroupKey MemRun) (spilled : gmap GroupKey (list path)) (keys : list GroupKey)
    (n : nat) (staged : list (WrittenFile * path)) (stats : MergeStats)
    : io (list (WrittenFile * path) * MergeStats) :=
  match keys with
  | [] => mret (staged, stats)
  | key :: keys' =>
      r ← merge_partition flush key.1 key.2 (default [] (schemas !! key))
            (output_file_name first last_ key.2)
            (default [] (spilled !! key)) (memory !! key) n staged;
      let '(st, n, staged) := r in
      phase2 flush first last_ schemas memory spilled keys' n staged
        (mkStats (emitted stats + emitted st) (deduplicated stats + deduplicated st))
  end.

Definition group_keys (memory : gmap GroupKey MemRun) (spilled : gmap GroupKey (list path))
    : list GroupKey :=
  sort_by_key id (elements (dom memory ∪ dom spilled : gset GroupKey)).

(** ** Publishing *)

(** The directories between [tmp/] and a staged file. *)
Fixpoint parents (dir : path) (rest : path) : list path :=
  match rest with
  | [] | [_] => []
  | d :: rest' => (dir ++ [d]) :: parents (dir ++ [d]) rest'
  end.

Definition staging_dirs (staged : list path) : list path :=
  sort_by_key id (remove_dups (concat ((fun p => parents tmp_dir (drop 1 p)) <$> staged))).

Definition fsync_staging (staged : list path) : io unit :=
  io_each (fun d => try (fsync_dir d)) (staging_dirs staged) ;;
  try (fsync_dir tmp_dir).

Definition not_under_tmp : Error := ConfigErr "not under tmp/".

Definition promoted_path (staged : path) : path := SERIES_DIR :: drop 1 staged.

Definition promote (staged : path) : io unit :=
  if negb (under tmp_dir staged) then throw not_under_tmp
  else
    let dest := promoted_path staged in
    let dir := removelast dest in
    try (create_dir_all dir) ;;
    try (rename staged dest) ;;
    try (fsync_dir dir) ;;
    try (fsync_dir (removelast dir)) ;;
    try (fsync_dir [SERIES_DIR]).

Definition delete_segments (ids : list Z) : io unit :=
  io_each (fun id =>
    r ← remove_file (segment_path id);
    match r with
    | Ok _ | Err NotFound => mret tt
    | Err e => throw (Io e)
    end) ids ;;
  try (fsync_dir wal_dir).

Definition regenerate_views (m : Manifest) (series : gset bytes) : io unit :=
  io_each (fun name =>
    let history := history_of m name in
    r ← create_dir_all (series_dir name);
    match r with
    | Err _ => mret tt
    | Ok _ => ignore (write_file (series_dir name ++ [VIEW_FILE]) (view_sql name history))
    end) (sort_by_key id (elements series)).

(** ** The flush *)

Definition with_watermark (m : Manifest) (last_ now_us : Z) : Manifest :=
  mkManifest (m_series m) (Z.max (last_flushed_segment m) last_) (Some now_us).

(** After the commit point. *)
Definition publish (m : Manifest) (staged : list path) (consumed : list Z) (touched : gset bytes) : io unit :=
  io_each promote staged ;;
  delete_segments consumed ;;
  regenerate_views m touched.

(** What is staged for commit: the phases before the commit point. *)
Definition stage (c : Config) (first last_ : Z) (s : Phase1)
    : io (list (WrittenFile * path) * Z * Z) :=
  try (create_dir_all tmp_dir) ;;
  let '(batch, sources) := into_sources (p1_batch s) in
  let memory := foldl (fun m p => <[p.1 := p.2]> m) (∅ : gmap GroupKey MemRun) sources in
  r ← phase2 (cfg_flush c) first last_ (p1_schemas s) memory (sp_groups (p1_spill s))
        (group_keys memory (sp_groups (p1_spill s))) (sp_next (p1_spill s)) [] stats_default;
  let '(staged, stats) := r in
  fsync_staging staged.*2 ;;
  mret (staged, emitted stats, deduplicated stats + b_deduplicated batch).

Definition run_inner (c : Config) (m : Manifest) (ids : list Z) (now_us : Z) (spill : Spill)
    : io (Manifest * result Error FlushOutcome) :=
  s ← attempt (phase1 m (memory_budget_bytes (cfg_flush c)) ids
        (mkPhase1 [] ∅ 0 0 0 (mkRejects (reject_max_bytes (cfg_limits c)) None) spill batch_default));
  match s with
  | Err e => mret (m, Err e)
  | Ok s =>
      match p1_consumed s with
      | [] => mret (m, Ok (mkOutcome [] [] 0 0 (p1_rejected s) (p1_skipped s)))
      | first :: _ =>
          if (p1_rows s =? 0) && (p1_rejected s =? 0) && (p1_skipped s =? 0)
          then mret (m, Ok outcome_default)
          else
            let last_ := List.last (p1_consumed s) 0 in
            r ← attempt (stage c first last_ s);
            match r with
            | Err e => mret (m, Err e)
            | Ok (staged, rows, dedup) =>
                let m' := with_watermark m last_ now_us in
                r ← attempt (commit m' ;;
                             publish m' staged.*2 (p1_consumed s) (sp_touched (p1_spill s)));
                mret (m', match r with
                          | Err e => Err e
                          | Ok _ => Ok (mkOutcome (p1_consumed s) staged.*1 rows dedup
                                          (p1_rejected s) (p1_skipped s))
                          end)
            end
      end
  end.

(** [run]: the manifest is mutated in place, so its value is returned with the result,
    errors included. *)
Definition run (c : Config) (m : Manifest) (segments : list Z) (now_us : Z)
    : io (Manifest * result Error FlushOutcome) :=
  match dedup_by Z.eqb (sort_by_key id segments) with
  | [] => mret (m, Ok outcome_default)
  | ids =>
      spill ← spill_new;
      finally (run_inner c m ids now_us spill) clear_runs
  end.

(** ** After an interrupted flush *)

Definition staged_files : io (list (path * option (Z * Z * Z))) :=
  series ← or_empty (read_subdirs tmp_dir);
  dirs ← io_flat_map (fun s =>
           hours ← or_empty (read_subdirs (tmp_dir ++ [s]));
           mret ((fun h => tmp_dir ++ [s; h]) <$> (hours : list bytes))) series;
  files ← io_flat_map (fun d =>
            names ← or_empty (read_dir d);
            mret ((fun n => (d ++ [n],
                     if utf8_valid n then parse_output_file_name n else None)) <$> (names : list bytes))) dirs;
  mret (sort_by_key fst files).

Definition output_files : io (list (path * (Z * Z * Z))) :=
  series ← or_empty (read_subdirs [SERIES_DIR]);
  dirs ← io_flat_map (fun s =>
           hours ← or_empty (read_subdirs [SERIES_DIR; s]);
           mret ((fun h => [SERIES_DIR; s; h]) <$> (hours : list bytes))) series;
  files ← io_flat_map (fun d =>
            names ← or_empty (read_dir d);
            mret (omap (fun n => r ← (if utf8_valid n then parse_output_file_name n else None);
                                 Some (d ++ [n], r)) (names : list bytes))) dirs;
  mret (sort_by_key fst files).

(** A staged file: promoted when the manifest covers it, deleted otherwise. *)
Definition sweep_staged (last_flushed : Z) (f : path * option (Z * Z * Z)) : io unit :=
  match f.2 with
  | Some (_, last_, _) =>
      if last_ <=? last_flushed then promote f.1 else try (remove_file f.1)
  | None => try (remove_file f.1)
  end.

Definition sweep_uncommitted (last_flushed : Z) : io unit :=
  clear_runs ;;
  staged ← staged_files;
  io_each (sweep_staged last_flushed) staged ;;
  flat ← or_empty (read_dir tmp_dir);
  io_each (fun n => _ ← file_len (tmp_dir ++ [n]); ignore (remove_file (tmp_dir ++ [n]))) flat ;;
  outputs ← output_files;
  io_each (fun '(p, (_, last_, _)) =>
    if last_ <=? last_flushed then mret tt else ignore (remove_file p)) outputs.

Definition lost_manifest : Error := ConfigErr "no manifest but flush output".

Definition require_manifest_for_output : io unit :=
  outputs ← output_files;
  staged ← staged_files;
  let found := outputs.*1 ++ (filter (fun f => is_Some f.2) staged).*1 in
  match found with
  | [] => mret tt
  | _ => throw lost_manifest
  end.
End run.
