(* ===== verification/Local.v ===== *)
(** * Local: which files a computation may change

    [local D m]: whatever the script, [m] changes no file outside [D], and leaves no bytes
    unsynced outside [D]. The calculus below reduces the locality of the flush phases to
    the paths they name. *)

From Stdlib Require Import ZArith Lia.
From Stdlib Require Import Strings.Byte.
From S2P Require Import Prelude Text Record Codec Disk Calls Wal Reader Merge Time Config Manifest Columns Planner.
Open Scope Z_scope.

(** Equal outside [D]. *)
Definition keeps (D : path -> Prop) (fs fs' : Files) : Prop := forall p, ~ D p -> fs' !! p = fs !! p.

(** No bytes are left unsynced outside [D]. *)
Definition dirt_in (D : path -> Prop) (l : list event) : Prop :=
  forall u p, p ∈ dirty u l -> p ∈ u \/ D p.

Definition local {A : Type} (D : path -> Prop) (m : io A) : Prop :=
  forall w, keeps D (files w) (files (m w).1) /\ dirt_in D (trace m w).

Lemma local_keeps {A : Type} D (m : io A) w : local D m -> keeps D (files w) (files (m w).1).
Proof. intros Hm. apply Hm. Qed.

Lemma dirt_nil D : dirt_in D [].
Proof. by left. Qed.

Lemma dirt_app D l1 l2 : dirt_in D l1 -> dirt_in D l2 -> dirt_in D (l1 ++ l2).
Proof. intros H1 H2 u p. rewrite dirty_app. intros [Hd|?]%H2; [by apply (H1 u)|by right]. Qed.

Lemma dirt_mono (D D' : path -> Prop) l : (forall p, D p -> D' p) -> dirt_in D l -> dirt_in D' l.
Proof. intros HD Hl u p [?|?]%Hl; auto. Qed.

(** The files a call may leave with unsynced bytes. *)
Definition dirties {R : Type} (c : call R) (p : path) : Prop :=
  match c with
  | WriteFile q _ | AppendFile q _ | CreateNew q _ | OpenTruncate q | SetLen q _ | WriteCount q _ | Rename _ q => p = q
  | _ => False
  end.

Lemma dirt_call {R : Type} D (c : call R) o : (forall p, dirties c p -> D p) -> dirt_in D [Event c o].
Proof.
  intros Hd u p. cbn. assert (forall X : gset path, p ∈ u ∖ X -> p ∈ u) as Hdiff by (intros X Hp; set_solver).
  destruct c; cbn in *; try destruct (answered_ok o); eauto;
    try (intros [->%elem_of_singleton|?]%elem_of_union; auto).
  destruct (decide (from ∈ u)); [|eauto]. intros [->%elem_of_singleton|Hp]%elem_of_union; eauto.
Qed.

(** A call that never changes a file dirties none. *)
Lemma reads_clean {R : Type} D (c : call R) o : (forall fs, (effect c fs).1 = fs) -> dirt_in D [Event c o].
Proof.
  intros He u p. cbn.
  assert (forall q x, (effect c ∅).1 !! q = Some x -> False) as Hnew by (intros q x; by rewrite He, lookup_empty).
  assert (forall X : gset path, p ∈ u ∖ X -> p ∈ u) as Hdiff by (intros X Hp; set_solver).
  destruct c; cbn -[lookup] in *; try match goal with |- context [answered_ok ?o] => destruct (answered_ok o) end; eauto; try (by specialize (Hnew _ _ (lookup_insert_eq _ _ _))).
  - destruct (decide (from ∈ u)) as [Hu|]; [|eauto]. destruct (decide (from = to)) as [->|Hne].
    + intros [->%elem_of_singleton|Hp]%elem_of_union; eauto.
    + exfalso. specialize (He {[from := []]}). rewrite lookup_singleton_eq in He. cbn in He.
      apply (f_equal (.!! to)) in He. by rewrite lookup_insert_eq, lookup_singleton_ne in He.
  - exfalso. specialize (He {[p0 := [x00]]}). rewrite lookup_singleton_eq in He. cbn in He.
    apply (f_equal (.!! p0)) in He. by rewrite lookup_insert_eq, lookup_singleton_eq in He.
  - exfalso. specialize (He {[p0 := replicate (S (Z.to_nat n)) x00]}). rewrite lookup_singleton_eq in He. cbn -[replicate] in He.
    apply (f_equal (.!! p0)) in He. rewrite lookup_insert_eq, lookup_singleton_eq in He. injection He as He.
    apply (f_equal length) in He. rewrite length_take in He. cbn in He. rewrite length_replicate in He. lia.
Qed.

Lemma keeps_refl D fs : keeps D fs fs.
Proof. by intros p. Qed.

Lemma keeps_trans D fs1 fs2 fs3 : keeps D fs1 fs2 -> keeps D fs2 fs3 -> keeps D fs1 fs3.
Proof. intros H1 H2 p Hp. by rewrite H2, H1. Qed.

Lemma keeps_mono (D D' : path -> Prop) fs fs' :
  (forall p, D p -> D' p) -> keeps D fs fs' -> keeps D' fs fs'.
Proof. intros HD Hk p Hp. apply Hk. auto. Qed.

Lemma keeps_insert (D : path -> Prop) p c fs : D p -> keeps D fs (<[p := c]> fs).
Proof. intros Hp q Hq. rewrite lookup_insert_ne; [done|]. by intros ->. Qed.

Lemma keeps_delete (D : path -> Prop) p fs : D p -> keeps D fs (delete p fs).
Proof. intros Hp q Hq. rewrite lookup_delete_ne; [done|]. by intros ->. Qed.

Section local.
Context {A B : Type} (D : path -> Prop).

Lemma local_mono (D' : path -> Prop) (m : io A) : (forall p, D' p -> D p) -> local D' m -> local D m.
Proof. intros HD Hm w. destruct (Hm w). split; [by eapply keeps_mono|by eapply dirt_mono]. Qed.

Lemma local_ret (a : A) : local D (mret a).
Proof. intros w. split; [apply keeps_refl|apply dirt_nil]. Qed.

Lemma local_throw e : local D (@throw A e).
Proof. intros w. split; [apply keeps_refl|apply dirt_nil]. Qed.

Lemma local_bind (m : io A) (k : A -> io B) :
  local D m -> (forall a, local D (k a)) -> local D (m ≫= k).
Proof.
  intros Hm Hk w. unfold mbind, io_bind. cbn [exec trace]. destruct (Hm w) as [Hf Ht].
  destruct (m w) as [w' [a| |]]; cbn [fst] in Hf; [|by rewrite app_nil_r..]. destruct (Hk a w') as [Hf' Ht'].
  split; [by eapply keeps_trans|by apply dirt_app].
Qed.

Lemma local_call {R : Type} (c : call R) : (forall p, dirties c p -> D p) ->
  (forall n fs, keeps D fs (part c n fs)) -> (forall fs, keeps D fs (effect c fs).1) -> local D (Call c).
Proof.
  intros Hd Ht Hf w. split; [|by apply dirt_call]. cbn. unfold perform. specialize (Hf (files w)).
  destruct (script w) as [|[|e|n e| |n] s]; cbn; try apply keeps_refl; try apply Ht;
    by destruct (effect c (files w)).
Qed.

Lemma local_whole {R : Type} (c : call (result IoError R)) `{!Whole c} : (forall p, dirties c p -> D p) ->
  (forall fs, keeps D fs (effect c fs).1) -> local D (Call c).
Proof. intros Hd Hf. apply local_call; [done| |done]. intros. rewrite whole_part. apply keeps_refl. Qed.

(** A call that only reads. *)
Lemma local_read {R : Type} (c : call (result IoError R)) `{!Whole c} :
  (forall fs, (effect c fs).1 = fs) -> local D (Call c).
Proof.
  intros Hf w. split; [|by apply reads_clean]. cbn. unfold perform. specialize (Hf (files w)).
  destruct (script w) as [|[|e|n e| |n] s]; cbn; rewrite ?whole_part; try apply keeps_refl;
    destruct (effect c (files w)); cbn in *; subst; apply keeps_refl.
Qed.

Lemma local_idle (c : call (result IoError unit)) `{!Idle c} : local D (Call c).
Proof. apply local_read; [apply _|]. intros fs. by rewrite idle_effect. Qed.

Lemma local_attempt (m : io A) : local D m -> local D (attempt m).
Proof. intros Hm w. rewrite exec_attempt. specialize (Hm w). by destruct (m w) as [w' [a| |]]. Qed.

Lemma local_lift (r : result Error A) : local D (lift r).
Proof. destruct r; [apply local_ret|apply local_throw]. Qed.
End local.

Lemma local_try {A : Type} D (m : io (result IoError A)) : local D m -> local D (try m).
Proof. intros Hm. apply local_bind; [done|]. intros [a|e]; [apply local_ret|apply local_throw]. Qed.

Lemma local_ignore {A : Type} D (m : io A) : local D m -> local D (ignore m).
Proof. intros Hm. apply local_bind; [done|]. intros a. apply local_ret. Qed.

Lemma exec_finally {A : Type} (m : io A) cleanup w :
  exec (finally m cleanup) w =
    match m w with
    | (w', Halted) => (w', Halted)
    | (w', r) =>
        match cleanup w' with
        | (w'', Halted) => (w'', Halted)
        | (w'', _) => (w'', r)
        end
    end.
Proof.
  unfold finally. rewrite exec_bind, exec_attempt. destruct (m w) as [w' [a|e|]]; [| |done];
    rewrite exec_bind, exec_attempt; by destruct (cleanup w') as [w'' [[]| |]].
Qed.

Lemma local_finally {A : Type} (D : path -> Prop) (m : io A) cleanup :
  local D m -> local D cleanup -> local D (finally m cleanup).
Proof.
  intros Hm Hc. apply local_bind; [by apply local_attempt|]. intros r.
  apply local_bind; [by apply local_attempt|]. intros _. apply local_lift.
Qed.

Section calls.
Context (D : path -> Prop).

Lemma local_sync p : local D (sync p).
Proof. apply local_idle, _. Qed.

Lemma local_fsync_dir p : local D (fsync_dir p).
Proof. apply local_idle, _. Qed.

Lemma local_create_dir_all p : local D (create_dir_all p).
Proof. apply local_idle, _. Qed.

Lemma local_read_file p : local D (read_file p).
Proof. apply local_read; [apply _|]. intros fs. cbn. by destruct (fs !! p). Qed.

Lemma local_file_len p : local D (file_len p).
Proof. apply local_read; [apply _|]. intros fs. cbn. by destruct (fs !! p). Qed.

Lemma local_read_dir p : local D (read_dir p).
Proof. by apply local_read; [apply _|]. Qed.

Lemma local_read_subdirs p : local D (read_subdirs p).
Proof. by apply local_read; [apply _|]. Qed.

Lemma local_write p c : D p -> local D (write_file p c).
Proof. intros Hp. apply local_call; [by intros ? ->|intros; by apply keeps_insert..]. Qed.

Lemma local_append p c : D p -> local D (append_file p c).
Proof. intros Hp. apply local_call; [by intros ? ->|intros; by apply keeps_insert..]. Qed.

Lemma local_remove p : D p -> local D (remove_file p).
Proof.
  intros Hp. apply local_whole; [apply _|done|]. intros fs. cbn.
  destruct (fs !! p); [by apply keeps_delete|apply keeps_refl].
Qed.

Lemma local_rename p q : D p -> D q -> local D (rename p q).
Proof.
  intros Hp Hq. apply local_whole; [apply _|by intros ? ->|]. intros fs. cbn. destruct (fs !! p); [|apply keeps_refl].
  eapply keeps_trans; [by apply (keeps_delete D p)|by apply keeps_insert].
Qed.

Lemma keeps_delete_all ps fs : (forall p, p ∈ ps -> D p) -> keeps D fs (foldr delete fs ps).
Proof.
  induction ps as [|p ps IH]; intros Hp; [apply keeps_refl|]. cbn.
  eapply keeps_trans; [apply IH; set_solver|]. apply keeps_delete. set_solver.
Qed.

Lemma local_remove_dir_all dir : (forall p, under dir p = true -> D p) -> local D (remove_dir_all dir).
Proof.
  intros Hd. apply local_call; [done|intros; apply keeps_delete_all; intros p Hp; apply Hd..].
  - apply elem_of_take_list in Hp. by apply elem_of_files_under in Hp as [Hp _].
  - by apply elem_of_files_under in Hp as [Hp _].
Qed.

Lemma local_each {A : Type} (f : A -> io unit) l :
  (forall x, x ∈ l -> local D (f x)) -> local D (io_each f l).
Proof.
  induction l as [|x l IH]; intros Hf; cbn; [apply local_ret|].
  apply local_bind; [apply Hf; set_solver|]. intros []. apply IH. intros y Hy. apply Hf. set_solver.
Qed.

Lemma local_flat_map {A B : Type} (f : A -> io (list B)) l :
  (forall x, local D (f x)) -> local D (io_flat_map f l).
Proof.
  intros Hf. induction l as [|x l IH]; cbn; [apply local_ret|].
  apply local_bind; [done|]. intros a. apply local_bind; [done|]. intros b. apply local_ret.
Qed.

Lemma local_or_empty {A : Type} (m : io (result IoError (list A))) : local D m -> local D (or_empty m).
Proof. intros Hm. apply local_bind; [done|]. intros r. apply local_ret. Qed.
End calls.

(** Locality as a triple. *)
Lemma triple_conj {A : Type} (P P' C C' : Files -> Prop) (Q Q' : A -> Files -> Prop) (m : io A) :
  triple P m C Q -> triple P' m C' Q' ->
  triple (fun fs => P fs /\ P' fs) m (fun fs => C fs /\ C' fs) (fun a fs => Q a fs /\ Q' a fs).
Proof.
  intros H1 H2 w [Hp Hp']. destruct (H1 w Hp) as [? Hq], (H2 w Hp') as [? Hq'].
  split; [done|]. by destruct (m w).2.
Qed.

Lemma triple_local {A : Type} (D : path -> Prop) (P C : Files -> Prop) (m : io A) :
  local D m -> (forall fs, P fs -> C fs) -> (forall fs fs', keeps D fs fs' -> P fs -> P fs') ->
  triple P m C (fun _ => P).
Proof.
  intros Hm HC HP w Hw. assert (P (files (m w).1)) by (eapply HP; [by apply local_keeps|done]).
  split; [auto|]. by destruct (m w).2.
Qed.

Lemma keeps_none fs fs' : keeps (fun _ => False) fs fs' -> fs' = fs.
Proof. intros Hk. apply map_eq. intros p. apply Hk. tauto. Qed.

Lemma files_try_idle (c : call (result IoError unit)) `{!Idle c} w : files (try (Call c) w).1 = files w.
Proof. by apply keeps_none, local_keeps, local_try, local_idle. Qed.

Create HintDb local.
#[export] Hint Resolve local_ret local_throw local_bind local_try local_ignore local_lift local_sync
  local_fsync_dir local_create_dir_all local_attempt
  local_read_file local_file_len local_read_dir local_read_subdirs local_write local_append
  local_remove local_rename local_or_empty : local.

(** Split a computation into its calls. *)
Ltac local_step :=
  lazymatch goal with
  | |- local _ (mret _) => apply local_ret
  | |- local _ (throw _) => apply local_throw
  | |- local _ (_ ≫= _) => apply local_bind; [|intros]
  | |- local _ (try _) => apply local_try
  | |- local _ (ignore _) => apply local_ignore
  | |- local _ (lift _) => apply local_lift
  | |- local _ (if ?b then _ else _) => destruct b
  | |- local _ (match ?x with _ => _ end) => destruct x
  | |- local _ (let '_ := ?x in _) => destruct x
  | |- local _ (sync _) => apply local_sync
  | |- local _ (fsync_dir _) => apply local_fsync_dir
  | |- local _ (create_dir_all _) => apply local_create_dir_all
  | |- local _ (attempt _) => apply local_attempt
  | |- local _ (Call _) => apply local_idle; [apply _]
  | |- local _ (read_file _) => apply local_read_file
  | |- local _ (file_len _) => apply local_file_len
  | |- local _ (read_dir _) => apply local_read_dir
  | |- local _ (read_subdirs _) => apply local_read_subdirs
  | |- local _ (or_empty _) => apply local_or_empty
  | |- local _ (write_file _ _) => apply local_write
  | |- local _ (append_file _ _) => apply local_append
  | |- local _ (remove_file _) => apply local_remove
  | |- local _ (rename _ _) => apply local_rename
  end.
Ltac local_solve := repeat (local_step; cbv beta zeta in * ); auto.
