(* ===== verification/Decode.v ===== *)
(** * Decode: what a flush takes out of a segment

    Under any faults, [decode_segment] either is cut off by a stop or adds to the batch
    exactly the records of the segment's good frames that fit their schema, in order. *)

From Stdlib Require Import ZArith Lia.
From Stdlib Require Import Strings.Byte.
From S2P Require Import Prelude Text Record Codec CodecProofs CodecTheorems Disk Wal Reader Recovery Heap Merge MergeProofs Sources Bounded BatchProofs Config Manifest Columns Planner.
Open Scope Z_scope.

(** ** Computations that do not fail *)

(** [m] is stopped or returns a value that satisfies [Q]; it never throws. *)
Definition returns {A : Type} (m : io A) (Q : A -> Prop) : Prop :=
  forall w, match (m w).2 with Ret a => Q a | Throw _ => False | Halted => True end.

Lemma returns_ret {A : Type} (a : A) (Q : A -> Prop) : Q a -> returns (mret a) Q.
Proof. by intros HQ w. Qed.

Lemma returns_bind {A B : Type} (m : io A) (k : A -> io B) Q R :
  returns m Q -> (forall a, Q a -> returns (k a) R) -> returns (m ≫= k) R.
Proof.
  intros Hm Hk w. specialize (Hm w). unfold mbind, io_bind. cbn [exec]. destruct (m w) as [w' [a| |]]; [|done|done].
  by apply Hk.
Qed.

Lemma returns_mono {A : Type} (m : io A) (Q R : A -> Prop) :
  returns m Q -> (forall a, Q a -> R a) -> returns m R.
Proof. intros Hm HQ w. specialize (Hm w). destruct (m w) as [w' [a| |]]; cbn in *; auto. Qed.

Definition any {A : Type} (_ : A) : Prop := True.

Lemma returns_call {R : Type} (c : call R) : returns (Call c) any.
Proof.
  intros w. cbn. unfold perform.
  destruct (script w) as [|[| | | |] s]; try done; by destruct (effect c (files w)).
Qed.

Lemma returns_sum_sizes dir names total : returns (sum_sizes dir names total) any.
Proof.
  revert total. induction names as [|n names IH]; intros total; cbn [sum_sizes]; [done|].
  apply (returns_bind _ _ any); [apply returns_call|auto].
Qed.

Lemma returns_reject s segment f : returns (reject_append s segment f) any.
Proof.
  unfold reject_append. apply (returns_bind _ _ any).
  - destruct (rj_used s); [done|]. unfold dir_bytes. apply (returns_bind _ _ any); [apply returns_call|].
    intros [names|] _; [apply returns_sum_sizes|done].
  - intros used _. cbv zeta. destruct (_ <? _); [done|]. apply (returns_bind _ _ any).
    + unfold reject_write. apply (returns_bind _ _ any); [apply returns_call|].
      intros [|] _; [apply returns_call|done].
    + by intros [|] _.
Qed.

Lemma returns_try_quarantine id : returns (try_quarantine id) any.
Proof.
  unfold try_quarantine, quarantine_segment. apply (returns_bind _ _ any); [|done].
  repeat first [done | apply (returns_bind _ _ any); [apply returns_call|]; intros [|] _
               | apply returns_call | progress cbv beta zeta].
Qed.

(** ** The records of a segment *)

Section decode.
Context `{Crc32} (m : Manifest).

(** The sixteen-bit fields of a batch entry can hold the offset of an id. *)
Definition short_names : Prop := forall name, is_Some (m_series m !! name) -> id_offset name < u16_lim.

(** The record of one frame, if a flush takes it. *)
Definition frame_head (segment_id max at_ : Z) (f : bytes) : option (GroupKey * Head) :=
  match frame_item (key_count m) max at_ f with
  | Ok (fr, values, _) =>
      let r := frame_record fr in
      if matches_schema (default [] (schema m (rec_series r) (rec_epoch r))) values
      then Some ((rec_series r, rec_epoch r), mkHead (rec_ts r) (rec_id r) (segment_id, at_) f)
      else None
  | Err _ => None
  end.

Fixpoint frame_heads (segment_id max at_ : Z) (fs : list bytes) : list (GroupKey * Head) :=
  match fs with
  | [] => []
  | f :: fs' => option_list (frame_head segment_id max at_ f) ++ frame_heads segment_id max (at_ + zlen f) fs'
  end.

Definition segment_heads (segment_id : Z) (buf : bytes) : list (GroupKey * Head) :=
  frame_heads segment_id (zlen buf) SEGMENT_HEADER_BYTES (records buf).

Lemma frame_item_Ok max at_ f fr values extra : valid_frame max f -> zlen f <= usize_max ->
  frame_item (key_count m) max at_ f = Ok (fr, values, extra) ->
  exists n, key_count m (rec_series (frame_record fr)) (rec_epoch (frame_record fr)) = Some n /\
    let r := frame_record fr in
    frame_offset fr = at_ /\ frame_len fr = zlen f /\ 0 <= rec_epoch r < u32_lim /\
    zlen f < FRAME_HEADER_BYTES + u32_lim /\ zlen (rec_id r) < u16_lim /\
    id_offset (rec_series r) + zlen (rec_id r) <= zlen f /\
    slice (id_offset (rec_series r)) (id_offset (rec_series r) + zlen (rec_id r)) f = rec_id r /\
    verified_sort_key f = Ok (rec_ts r, rec_id r, zlen f).
Proof.
  intros Hv Hmax. unfold frame_item. destruct (validate_prefix f max) as [p|] eqn:Ev; [|done].
  destruct (key_count m (pre_series p) (pre_epoch p)) as [n|] eqn:Ek; [|done].
  destruct (decode f n max) as [d|] eqn:Ed; [|done]. intros [= <- <- <-]. cbn [frame_record frame_offset frame_len].
  pose proof (decode_valid_len _ _ _ _ Hv Ed) as Hlen.
  apply decode_Ok in Ed as (payload & rest & -> & Hp & Hu & Ed).
  pose proof (decode_readers payload n d Hu Ed) as [Hpre Hsort].
  pose proof (verified_frame_of payload rest n (proj1 Hp) Hu) as [_ Hver].
  assert (pre_series p = rec_series (dec_record d) /\ pre_epoch p = rec_epoch (dec_record d)) as [Es Ee].
  { rewrite (validate_prefix_frame_of payload rest max _ ltac:(lia) Hu Hpre) in Ev. by injection Ev as <-. }
  pose proof (decode_payload_sound _ _ _ _ Ed) as (_ & _ & He & Hdl & _ & _ & Fi & Epay & _).
  assert (rest = []) as ->. { apply zlen_zero. rewrite Hdl, zlen_app in Hlen. lia. }
  rewrite app_nil_r in *. exists n. rewrite <-Es, <-Ee. split; [done|]. rewrite Es, Ee.
  unfold fits16 in Fi. apply Z.ltb_lt in Fi. rewrite zlen_frame_of in *.
  set (r := dec_record d) in *. set (tail := concat _ ++ _) in Epay.
  assert (frame_of payload = (le_bytes 4 (zlen payload) ++ le_bytes 4 (crc32 (le_bytes 4 (zlen payload) ++ payload))
    ++ le_bytes 8 (rec_ts r) ++ le_bytes 4 (rec_epoch r) ++ str16 (rec_series r)
    ++ le_bytes 2 (zlen (rec_id r))) ++ rec_id r ++ tail) as Ef.
  { unfold frame_of. rewrite <-!app_assoc. do 2 f_equal. rewrite Epay. unfold prefix_bytes, str16. by rewrite <-!app_assoc. }
  assert (id_offset (rec_series r) = zlen (le_bytes 4 (zlen payload) ++ le_bytes 4 (crc32 (le_bytes 4 (zlen payload) ++ payload))
    ++ le_bytes 8 (rec_ts r) ++ le_bytes 4 (rec_epoch r) ++ str16 (rec_series r)
    ++ le_bytes 2 (zlen (rec_id r)))) as Eo.
  { unfold id_offset, str16. zlen_lia. }
  split_and!; try done; try lia.
  - rewrite <-zlen_frame_of, Ef, Eo. zlen_lia.
  - rewrite Ef, Eo. apply slice_app_mid.
  - rewrite Hver, Hsort. by rewrite Hdl.
Qed.

(** ** The loop *)

Lemma key_count_schema series epoch n : key_count m series epoch = Some n ->
  is_Some (m_series m !! series) /\ exists keys, schema m series epoch = Some keys /\ length keys = n.
Proof.
  unfold key_count, schema. destruct (m_series m !! series) as [h|]; [|done]. cbn.
  destruct (List.find _ h) as [x|]; [|done]. cbn. intros [= <-]. split; [by eexists|by eexists].
Qed.

(** The cache holds schemas of the manifest. *)
Definition cache_ok (cache : gmap GroupKey (list KeyDef)) : Prop :=
  map_Forall (fun g keys => schema m g.1 g.2 = Some keys) cache.

Lemma cached_keys_spec cache series epoch keys keys' cache' : cache_ok cache -> schema m series epoch = Some keys ->
  cached_keys cache m series epoch = (keys', cache') ->
  keys' = keys /\ cache_ok cache' /\ cache' !! (series, epoch) = Some keys /\ cache ⊆ cache'.
Proof.
  intros Hc Hs. unfold cached_keys. destruct (cache !! (series, epoch)) as [ks|] eqn:E; intros [= <- <-].
  - pose proof (Hc _ _ E) as E'. cbn in E'. rewrite Hs in E'. injection E' as ->. done.
  - rewrite Hs. cbn. split_and!; [done| |apply lookup_insert_eq|by apply insert_subseteq].
    intros g ks. destruct (decide (g = (series, epoch))) as [->|Hne].
    + rewrite lookup_insert_eq. by intros [= <-].
    + rewrite lookup_insert_ne by done. apply Hc.
Qed.

(** What the frames add to the counts and the batch. *)
Record decoded (hs : list (GroupKey * Head)) (bad : Z) (skipped : Z) (d d' : SegDecoded) (b b' : Batch) : Prop := {
  dc_batch : batch_wf b';
  dc_content : content b' = content b ++ hs;
  dc_rows : d_rows d' = d_rows d + zlen hs;
  dc_rejected : d_rejected d' = d_rejected d + bad;
  dc_skipped : d_skipped d' = d_skipped d + skipped;
  dc_cache : cache_ok (d_schemas d') /\ d_schemas d ⊆ d_schemas d';
  dc_schemas : Forall (fun p => is_Some (d_schemas d' !! p.1)) hs;
  dc_touched : d_touched d ⊆ d_touched d' /\ Forall (fun p => p.1.1 ∈ d_touched d') hs;
  dc_flags : d_unreadable d' = d_unreadable d /\ d_quarantined d' = d_quarantined d
}.

Lemma decoded_trans hs1 hs2 bad1 bad2 sk1 sk2 d1 d2 d3 b1 b2 b3 :
  decoded hs1 bad1 sk1 d1 d2 b1 b2 -> decoded hs2 bad2 sk2 d2 d3 b2 b3 ->
  decoded (hs1 ++ hs2) (bad1 + bad2) (sk1 + sk2) d1 d3 b1 b3.
Proof.
  intros [A1 A2 A3 A4 A5 [_ A6] A7 [A8 A8'] [A9 A9']] [B1 B2 B3 B4 B5 [B6 B6'] B7 [B8 B8'] [B9 B9']].
  split; [done|by rewrite B2, A2, app_assoc|rewrite zlen_app; lia|lia|lia| | | |split; congruence].
  - split; [done|]. by etrans.
  - apply Forall_app. split; [|done]. eapply Forall_impl; [exact A7|]. intros p [ks Hk].
    exists ks. by eapply lookup_weaken.
  - split; [set_solver|]. apply Forall_app. split; [|done]. eapply Forall_impl; [exact A8'|]. set_solver.
Qed.

Lemma decoded_reject d b skipped : batch_wf b -> cache_ok (d_schemas d) -> decoded [] 1 skipped d (add_rejected d skipped) b b.
Proof. intros Hb Hc. split; cbn; rewrite ?app_nil_r, ?zlen_nil; try done; lia. Qed.

(** One good frame. *)
Lemma decode_item_frame id buf at_ f item values extra d rejects batch :
  short_names -> valid_frame (zlen buf) f -> zlen f < u32_lim ->
  slice at_ (at_ + zlen f) buf = f ->
  observe (item, values, extra) = frame_item (key_count m) (zlen buf) at_ f ->
  batch_wf batch -> cache_ok (d_schemas d) ->
  returns (decode_item id buf m item values d rejects batch) (fun '(d', _, batch') =>
    decoded (option_list (frame_head id (zlen buf) at_ f))
      (1 - zlen (option_list (frame_head id (zlen buf) at_ f))) 0 d d' batch batch').
Proof.
  intros Hshort Hv Hf Hsl Ho Hb Hc. unfold frame_head.
  assert (forall d1 f1, decoded [] 1 0 d d1 batch batch -> returns (rj ← reject_append rejects id f1; mret (d1, rj, batch))
    (fun '(d', _, batch') => decoded [] 1 0 d d' batch batch')) as Hrej.
  { intros d1 f1 Hd. apply (returns_bind _ _ any); [apply returns_reject|]. intros rj _. by apply returns_ret. }
  destruct item as [fr|fault]; cbn [observe] in Ho; rewrite <-Ho.
  2:{ cbn [option_list]. unfold frame_item in Ho. pose proof Hv as (p & Ep & _). rewrite Ep in Ho.
      destruct fault as [? ? ?|? ? ? ?|? ?]; [by apply Hrej, decoded_reject..|].
      destruct (key_count m _ _); [|done]. by destruct (decode _ _ _). }
  destruct (frame_item_Ok (zlen buf) at_ f fr values extra Hv ltac:(unfold usize_max, usize_lim; unfold u32_lim in Hf; lia) (eq_sym Ho))
    as (n & Hk & Hoff & Hlen & He & Hfl & Hid & Hido & Hids & Hsort). cbv zeta in *.
  destruct (key_count_schema _ _ _ Hk) as (Hin & keys & Hks & _). rewrite Hks. change (default [] (Some keys)) with keys.
  unfold decode_item. rewrite Hoff, Hlen, Hsl. cbv zeta.
  destruct (cached_keys _ _ _ _) as [keys' cache'] eqn:Eck.
  destruct (cached_keys_spec _ _ _ _ _ _ Hc Hks Eck) as (-> & Hc' & Hl & Hsub).
  destruct (matches_schema keys values); cbn [negb].
  - apply returns_ret. cbn [option_list].
    destruct (push_spec batch (rec_series (frame_record fr), rec_epoch (frame_record fr)) (rec_ts (frame_record fr))
      (id_offset (rec_series (frame_record fr))) (zlen (rec_id (frame_record fr))) (id, at_) f Hb) as [Hb' Hcon];
      [split; [unfold id_offset; zlen_lia|by apply Hshort]|zlen_lia|done|lia|].
    rewrite Hids in Hcon. split; [exact Hb'|exact Hcon|unfold zlen; cbn; lia..| | | |done]; [done| |].
    + apply Forall_singleton. by eexists.
    + split; [set_solver|]. apply Forall_singleton. cbn. set_solver.
  - cbn [option_list]. apply Hrej. split; cbn; rewrite ?app_nil_r, ?zlen_nil; try done; try lia. split; [set_solver|done].
Qed.

Definition small_frames (fs : list bytes) : Prop := Forall (fun f => zlen f < u32_lim) fs.

(** The frames after the last good one count as one rejected frame. *)
Definition stuck_count (rest : bytes) : Z := match rest with [] => 0 | _ => 1 end.

(** Where no frame starts: one rejection, and the loop ends. *)
Lemma decode_frames_stuck fuel id r rest d rejects batch :
  sr_stopped r = false -> 0 <= sr_at r -> sr_max r = zlen (sr_buf r) ->
  drop (Z.to_nat (sr_at r)) (sr_buf r) = rest -> stuck (sr_max r) rest ->
  (2 <= fuel)%nat -> batch_wf batch -> cache_ok (d_schemas d) ->
  returns (decode_frames fuel id (sr_buf r) m r d rejects batch) (fun '(d', _, batch') =>
    decoded [] (stuck_count rest) (zlen rest) d d' batch batch').
Proof.
  destruct r as [i buf at_ max stopped ks ex]. cbn [sr_stopped sr_at sr_max sr_buf].
  intros -> Ha -> Hd Hst Hfuel Hb Hc. destruct fuel as [|[|fuel]]; [lia..|]. cbn [decode_frames next_frame orb].
  assert (decoded [] 0 0 d d batch batch) as Hnone.
  { split; rewrite ?app_nil_r, ?zlen_nil, ?Z.add_0_r; try done. }
  assert (zlen rest = Z.max 0 (zlen buf - at_)) as Hl by (rewrite <-Hd; zlen_lia).
  destruct (Z.leb_spec (zlen buf) at_).
  { assert (rest = []) as -> by (apply zlen_zero; lia). by apply returns_ret. }
  rewrite Hd. destruct Hst as [->|[e E]]; [rewrite zlen_nil in Hl; lia|]. rewrite E. cbn [decode_item].
  rewrite Hd. apply (returns_bind _ _ (fun '(d', _, batch') => d' = add_rejected d (zlen rest) /\ batch' = batch)).
  { apply (returns_bind _ _ any); [apply returns_reject|]. intros rj _. by apply returns_ret. }
  intros [[d' rj] batch'] [-> ->]. cbn [orb]. apply returns_ret.
  assert (stuck_count rest = 1) as -> by (destruct rest; [rewrite zlen_nil in Hl; lia|done]).
  by apply decoded_reject.
Qed.

Lemma decode_frames_spec fuel id r fs rest d rejects batch :
  short_names -> small_frames fs ->
  sr_stopped r = false -> 0 <= sr_at r -> sr_max r = zlen (sr_buf r) ->
  drop (Z.to_nat (sr_at r)) (sr_buf r) = concat fs ++ rest ->
  Forall (valid_frame (sr_max r)) fs -> stuck (sr_max r) rest ->
  (length fs + 2 <= fuel)%nat -> batch_wf batch -> cache_ok (d_schemas d) ->
  let hs := frame_heads id (sr_max r) (sr_at r) fs in
  returns (decode_frames fuel id (sr_buf r) m r d rejects batch) (fun '(d', _, batch') =>
    decoded hs (zlen fs - zlen hs + stuck_count rest) (zlen rest) d d' batch batch').
Proof.
  intros Hshort. revert fuel r d rejects batch. induction fs as [|f fs IH];
    intros fuel r d rejects batch Hsm Hst Ha Hm Hd Hf Hstuck Hfuel Hb Hc hs.
  { exact (decode_frames_stuck fuel id r rest d rejects batch Hst Ha Hm Hd Hstuck ltac:(cbn in Hfuel; lia) Hb Hc). }
  apply Forall_cons in Hf as [Hf Hfs]. apply Forall_cons in Hsm as [Hsf Hsm].
  cbn [concat] in Hd. rewrite <-app_assoc in Hd.
  destruct fuel as [|fuel]; [lia|]. cbn [decode_frames].
  destruct (next_frame_valid (key_count m) r f _ Hst Ha Hd Hf) as (r' & item & -> & Ho & Hb' & Hm' & Hs' & Ha').
  assert (slice (sr_at r) (sr_at r + zlen f) (sr_buf r) = f) as Hsl.
  { unfold slice. rewrite Hd. replace (sr_at r + zlen f - sr_at r) with (zlen f) by lia. by apply take_drop_frame. }
  rewrite Hm in Ho, Hf. eapply returns_bind.
  { apply (decode_item_frame id (sr_buf r) (sr_at r) f item (sr_keys r') (sr_extra r')); try done. }
  intros [[d1 rejects1] batch1] H1. rewrite <-Hb'.
  assert (drop (Z.to_nat (sr_at r')) (sr_buf r') = concat fs ++ rest) as Hd'.
  { rewrite Ha', Hb', Z2Nat.inj_add, <-drop_drop, Hd by zlen_lia. by apply take_drop_frame. }
  eapply returns_mono; [apply (IH fuel r' d1 rejects1 batch1 Hsm Hs')|].
  - rewrite Ha'. zlen_lia.
  - by rewrite Hm', Hb'.
  - done.
  - by rewrite Hm'.
  - by rewrite Hm'.
  - cbn in Hfuel. lia.
  - by destruct H1.
  - by destruct H1 as [_ _ _ _ _ [? _]].
  - intros [[d2 rejects2] batch2] H2. subst hs. cbn [frame_heads].
    rewrite Hm', Ha', Hm in H2. rewrite Hm.
    pose proof (decoded_trans _ _ _ _ _ _ _ _ _ _ _ _ H1 H2) as H12. rewrite Z.add_0_l in H12.
    rewrite zlen_app, zlen_cons. set (x := zlen (option_list _)) in *. set (y := zlen (frame_heads _ _ _ _)) in *.
    replace (1 + zlen fs - (x + y) + stuck_count rest) with (1 - x + (zlen fs - y + stuck_count rest)) by lia. done.
Qed.

(** A segment with a good header. *)
Lemma decode_segment_spec id buf rejects batch :
  short_names -> good_header buf -> small_frames (records buf) -> batch_wf batch ->
  let hs := segment_heads id buf in
  returns (decode_segment id buf m rejects batch) (fun '(d, _, batch') =>
    decoded hs (zlen (records buf) - zlen hs + stuck_count (torn buf)) (zlen (torn buf)) decoded_default d batch batch').
Proof.
  intros Hshort Hg Hsm Hb hs. pose proof Hg as [i Hi].
  destruct (content_split buf Hg) as (_ & Hbody & Hv & Hst).
  pose proof (length_valid_frames _ _ Hv) as Hn.
  unfold decode_segment, reader_new, mbind, result_bind. rewrite Hi.
  set (r := mkReader i buf SEGMENT_HEADER_BYTES (zlen buf) false [] []).
  apply (decode_frames_spec (length buf) id r (records buf) (torn buf)); try done.
  assert (SEGMENT_HEADER_BYTES <= zlen buf) as Hh.
  { unfold parse_segment_header, parse_common_header, mbind, result_bind in Hi.
    destruct (Z.ltb_spec (zlen buf) SEGMENT_HEADER_BYTES); done. }
  assert (length (body buf) = length (concat (records buf) ++ torn buf)) as Hl by (by rewrite Hbody).
  unfold body in Hl. rewrite length_drop, length_app in Hl. unfold SEGMENT_HEADER_BYTES, zlen in *. lia.
Qed.
End decode.

(** A series name of 65512 bytes, which the 16-bit length of the wire format allows, puts
    the id past the 16-bit offset of a batch entry: the entry points at the start of the
    frame. *)
Example id_offset_wraps :
  let name := replicate (Z.to_nat 65512) x61 in
  zlen name < u16_lim /\ id_offset name mod u16_lim = 0.
Proof. vm_compute. split; reflexivity. Qed.
