(* ===== verification/FlushBounds.v ===== *)
(** * FlushBounds: what a flush holds in memory

    The README says that peak memory is "roughly the budget plus one segment and one row
    group": here are the loops of [planner::run] and [merge_bounded] with an assertion at
    the point where each holds the most. That the assertion never stops the program,
    whatever the calls of the operating system do, is that the two versions are equal.
    Counted are the bytes in use; what an allocator adds to them is not modelled. *)

From Stdlib Require Import ZArith Lia.
From Stdlib Require Import Strings.Byte.
From S2P Require Import Prelude Text Record Codec CodecProofs CodecTheorems Disk Wal Reader Recovery Heap Merge MergeProofs Config Manifest Columns ColumnsProofs ColumnsTheorems Planner Decode.
Open Scope Z_scope.

(** ** Values a computation can return *)

Definition returning {A : Type} (m : io A) (Q : A -> Prop) : Prop := forall w a, (m w).2 = Ret a -> Q a.

Lemma returning_ret {A : Type} (a : A) (Q : A -> Prop) : Q a -> returning (mret a) Q.
Proof. intros HQ w b E. cbn in E. by injection E as <-. Qed.

Lemma returning_throw {A : Type} e (Q : A -> Prop) : returning (throw e) Q.
Proof. intros w b E. done. Qed.

Lemma returning_bind {A B : Type} (m : io A) (k : A -> io B) Q R :
  returning m Q -> (forall a, Q a -> returning (k a) R) -> returning (m ≫= k) R.
Proof.
  intros Hm Hk w b. specialize (Hm w). unfold mbind, io_bind. cbn [exec]. destruct (m w) as [w' [a| |]]; [|done|done].
  intros E. exact (Hk a (Hm a eq_refl) w' b E).
Qed.

Lemma returning_mono {A : Type} (m : io A) (Q R : A -> Prop) :
  returning m Q -> (forall a, Q a -> R a) -> returning m R.
Proof. intros Hm HQ w a E. apply HQ. by apply (Hm w). Qed.

Lemma returning_any {A : Type} (m : io A) : returning m any.
Proof. by intros w a _. Qed.

Lemma returning_after {A B : Type} (m : io A) (k : A -> io B) R :
  (forall a, returning (k a) R) -> returning (m ≫= k) R.
Proof. intros Hk. apply (returning_bind _ _ any); [apply returning_any|auto]. Qed.

(** Two computations with the same behaviour. *)
Definition same_io {A : Type} (m m' : io A) : Prop := forall w, m w = m' w.

#[export] Instance same_io_equiv {A : Type} : Equivalence (@same_io A).
Proof. split; [done|by intros m m' Hm w|by intros m1 m2 m3 H1 H2 w; rewrite H1]. Qed.

Lemma same_bind {A B : Type} (m m' : io A) (k k' : A -> io B) Q :
  same_io m m' -> returning m Q -> (forall a, Q a -> same_io (k a) (k' a)) -> same_io (m ≫= k) (m' ≫= k').
Proof.
  intros Hm HQ Hk w. unfold mbind, io_bind. cbn [exec]. rewrite <-Hm. specialize (HQ w).
  destruct (m w) as [w' [a| |]]; [|done|done]. apply Hk. by apply HQ.
Qed.

#[export] Instance same_bind_proper {A B : Type} :
  Proper (@same_io A ==> pointwise_relation A (@same_io B) ==> @same_io B) (fun m k => m ≫= k).
Proof. intros m m' Hm k k' Hk. apply (same_bind m m' k k' any Hm (returning_any m)). intros a _. apply Hk. Qed.

(** [assert!(ok)]. *)
Definition over_bound : Error := Io (OtherIo "memory bound exceeded").
Definition assert (ok : bool) : io unit := if ok then mret tt else throw over_bound.

Lemma same_assert {A : Type} (ok : bool) (m : io A) : ok = true -> same_io (assert ok ;; m) m.
Proof. by intros -> w. Qed.

(** ** Decoding a segment *)

Section decode.
Context `{Crc32} (m : Manifest).

(** A batch entry takes 48 bytes and a frame at least 30. *)
Definition weight (b : Batch) : Z := 5 * batch_bytes b.

Lemma push_weight b g ts off len arr f : 30 <= zlen f -> weight (push b g ts off len arr f) <= weight b + 13 * zlen f.
Proof.
  intros Hf. unfold weight, batch_bytes, push. destruct (intern b g) as [i gs]. cbn [b_arena b_entries].
  rewrite !zlen_app, zlen_cons, zlen_nil. unfold ENTRY_BYTES. lia.
Qed.

Lemma decode_len rest max n d : decode rest n max = Ok d -> 30 <= dec_len d <= zlen rest.
Proof.
  intros Ed. apply decode_Ok in Ed as (payload & r & -> & [Hmin _] & _ & Ed).
  apply decode_payload_sound in Ed as (_ & _ & _ & -> & _).
  rewrite zlen_app, zlen_frame_of. unfold FRAME_HEADER_BYTES, MIN_PAYLOAD_BYTES in *. zlen_lia.
Qed.

(** The cursor moves forward, past each frame it returns. *)
Lemma next_frame_forward r r' item : 0 <= sr_at r -> next_frame (key_count m) r = (r', Some item) ->
  sr_buf r' = sr_buf r /\ sr_at r <= sr_at r' /\
  match item with
  | Ok f => frame_offset f = sr_at r /\ sr_at r' = sr_at r + frame_len f /\
            30 <= frame_len f <= zlen (sr_buf r) - sr_at r
  | Err _ => True
  end.
Proof.
  destruct r as [id buf at_ max stopped keys extra]. cbn [sr_at sr_buf next_frame]. intros Ha.
  destruct (stopped || (zlen buf <=? at_)) eqn:Ee; [done|]. apply orb_false_iff in Ee as [_ Hlt].
  apply Z.leb_gt in Hlt. destruct (validate_prefix _ max) as [p|] eqn:Ep; [|intros [= <- <-]; cbn; done].
  apply validate_prefix_Ok in Ep as (payload & rest & _ & Hp & _).
  assert (0 <= pre_frame_len p) by (rewrite Hp; apply zlen_nonneg).
  destruct (key_count m _ _) as [n|]; [|intros [= <- <-]; cbn; split_and!; [done|lia|done]].
  destruct (decode _ n max) as [d|] eqn:Ed; intros [= <- <-]; cbn; [|split_and!; [done|lia|done]].
  apply decode_len in Ed. assert (zlen (drop (Z.to_nat at_) buf) = zlen buf - at_) as E by zlen_lia.
  rewrite E in Ed. split_and!; try done; lia.
Qed.

Lemma decode_item_weight id buf item values d rejects batch :
  match item with Ok f => 0 <= frame_offset f /\ 30 <= frame_len f <= zlen buf - frame_offset f | Err _ => True end ->
  returning (decode_item id buf m item values d rejects batch)
    (fun '(d', _, b') => d_unreadable d' = d_unreadable d /\ weight b' <= weight batch + match item with Ok f => 13 * frame_len f | Err _ => 0 end).
Proof.
  destruct item as [f|fault]; intros Hf; unfold decode_item.
  - destruct (cached_keys _ _ _ _) as [keys cache]. destruct (negb _).
    + apply returning_after. intros rj. apply returning_ret. split; [done|lia].
    + apply returning_ret. set (bytes_ := slice _ _ buf).
      assert (zlen bytes_ = frame_len f) as <- by (unfold bytes_; rewrite zlen_slice; lia).
      split; [done|]. apply push_weight. unfold bytes_. rewrite zlen_slice; lia.
  - destruct fault; apply returning_after; intros rj; apply returning_ret; (split; [done|lia]).
Qed.

Lemma decode_frames_weight fuel id r d rejects batch : 0 <= sr_at r ->
  returning (decode_frames fuel id (sr_buf r) m r d rejects batch)
    (fun '(d', _, b') => d_unreadable d' = d_unreadable d /\ weight b' <= weight batch + 13 * Z.max 0 (zlen (sr_buf r) - sr_at r)).
Proof.
  revert r d rejects batch. induction fuel as [|fuel IH]; intros r d rejects batch Ha; [apply returning_throw|].
  cbn [decode_frames]. destruct (next_frame _ r) as [r' [item|]] eqn:En; [|apply returning_ret; split; [done|lia]].
  destruct (next_frame_forward r r' item Ha En) as (Hb & Hle & Hitem).
  eapply returning_bind; [apply decode_item_weight; destruct item; [|done]; lia|].
  intros [[d1 rj1] b1] [E1 H1]. rewrite <-Hb. eapply returning_mono; [apply IH; lia|].
  intros [[d2 rj2] b2] [E2 H2]. rewrite Hb in *. split; [congruence|]. destruct item as [f|fault]; lia.
Qed.

(** A segment adds at most 13/5 of its length to the bytes of the batch. *)
Lemma decode_segment_weight id buf rejects batch :
  returning (decode_segment id buf m rejects batch) (fun '(d, _, b') =>
    weight b' <= weight batch + 13 * zlen buf /\ (d_unreadable d = true -> b' = batch)).
Proof.
  unfold decode_segment, reader_new. destruct (parse_segment_header buf) as [i|e]; cbn [mbind result_bind].
  - eapply returning_mono.
    + apply (decode_frames_weight _ id (mkReader i buf SEGMENT_HEADER_BYTES (zlen buf) false [] [])). done.
    + intros [[d rj] b] [E Hw]. cbn [sr_buf sr_at] in Hw. split; [|by rewrite E]. unfold SEGMENT_HEADER_BYTES in Hw. zlen_lia.
  - apply returning_after. intros q. apply returning_ret. split; [zlen_lia|done].
Qed.

(** ** Phase 1 *)

(** What phase 1 holds once a segment is decoded: the batch, and the buffer all segments
    are read into, which is as long as the largest read so far. *)
Definition held (b : Batch) (largest : Z) : Z := batch_bytes b + largest.

(** The most it may be: the budget and 18/5 of the largest segment, its bytes in the
    buffer and, for frames of 30 bytes, 13/5 of them in the batch. *)
Definition held_limit (budget largest : Z) : Z := budget + 18 * largest / 5.

(** The loop of phase 1 with an assertion where the most is held, after a segment is
    decoded and before the batch is spilled. *)
Fixpoint phase1_bounded (budget largest : Z) (ids : list Z) (s : Phase1) : io Phase1 :=
  match ids with
  | [] => mret s
  | id :: ids' =>
      buf ← try (read_file (segment_path id));
      let largest := Z.max largest (zlen buf) in
      r ← decode_segment id buf m (p1_rejects s) (p1_batch s);
      let '(d, rejects, batch) := r in
      assert (held batch largest <=? held_limit budget largest) ;;
      let s := mkPhase1 (p1_consumed s) (p1_schemas s) (p1_rows s) (p1_rejected s + d_rejected d)
                 (p1_skipped s + d_skipped d) rejects (p1_spill s) batch in
      if d_unreadable d then
        if negb (d_quarantined d) then mret s else phase1_bounded budget largest ids' s
      else
        let s := phase1_add s id d rejects batch in
        if (budget <=? batch_bytes batch) && bool_decide (ids' <> []) then
          r ← spill_batch (p1_spill s) batch;
          let '(sp, batch) := r in
          phase1_bounded budget largest ids'
            (mkPhase1 (p1_consumed s) (p1_schemas s) (p1_rows s) (p1_rejected s) (p1_skipped s)
               (p1_rejects s) sp batch)
        else phase1_bounded budget largest ids' s
  end.

(** A spill empties the batch. *)
Lemma spill_empties sp b : returning (spill_batch sp b) (fun '(_, b') => batch_bytes b' = 0).
Proof.
  unfold spill_batch. apply returning_after. intros _. eapply (returning_bind _ _ (fun '(_, b', _) => batch_bytes b' = 0)).
  - unfold spill. apply returning_after. intros [out n]. by apply returning_ret.
  - intros [[runs b'] n] Hb. by apply returning_ret.
Qed.

(** Before a segment, the batch is below the budget. *)
Lemma held_within budget largest n b b' : batch_bytes b < budget -> weight b' <= weight b + 13 * n ->
  held b' (Z.max largest n) <=? held_limit budget (Z.max largest n) = true.
Proof. intros Hb Hw. apply Z.leb_le. unfold held, held_limit, weight in *. Z.to_euclidean_division_equations. lia. Qed.

Lemma phase1_within budget largest ids s : ids = [] \/ batch_bytes (p1_batch s) < budget ->
  same_io (phase1 m budget ids s) (phase1_bounded budget largest ids s).
Proof.
  revert largest s. induction ids as [|id ids IH]; intros largest s Hs; [done|]. destruct Hs as [|Hs]; [done|].
  cbn [phase1 phase1_bounded]. apply (same_bind _ _ _ _ any); [done|apply returning_any|]. intros buf _. cbv zeta.
  eapply same_bind; [done|apply decode_segment_weight|]. intros [[d rj] b] [Hw Hu].
  rewrite same_assert by (by eapply held_within). cbv zeta.
  destruct (d_unreadable d).
  - destruct (negb (d_quarantined d)); [done|]. apply IH. right. cbn [p1_batch]. by rewrite Hu.
  - destruct (Z.leb_spec budget (batch_bytes b)) as [Hle|Hlt]; cbn [andb].
    + destruct (bool_decide_reflect (ids <> [])) as [Hne|He].
      * eapply same_bind; [done|apply spill_empties|]. intros [sp b'] Hb. apply IH. right. cbn [p1_batch].
        pose proof (zlen_nonneg (b_arena (p1_batch s))). pose proof (zlen_nonneg (b_entries (p1_batch s))).
        unfold batch_bytes, ENTRY_BYTES in *. lia.
      * apply IH. left. destruct ids; [done|by destruct He].
    + apply IH. by right.
Qed.
End decode.

(** ** The merge *)

Section merge.
Context {A : Type} (next_run : nat -> path) (sink : Head -> A -> io A).

(** [open_runs] where at most [limit] readers may be open. *)
Definition open_within (limit : nat) (runs : list path) : io (list (RunReader + MemRun)) :=
  assert (length runs <=? limit)%nat ;; open_runs runs.

Definition premerge_bounded (limit : nat) (runs : list path) (take_ : nat) (n : nat) : io (list path * Z) :=
  sized ← run_sizes runs;
  let runs := snd <$> sort_by_key fst sized in
  let batch := take take_ runs in
  let p := next_run n in
  out ← run_create p;
  sources ← open_within limit batch;
  r ← merge (fun h w => run_push w (h_arrival h) (h_frame h)) sources out;
  let '(stats, out) := r in
  _ ← run_finish out;
  io_each remove_quietly batch ;;
  mret (drop take_ runs ++ [p], deduplicated stats).

Fixpoint premerge_loop_bounded (fuel : nat) (runs : list path) (in_memory fan_in : nat)
    (n : nat) (dedup : Z) : io (list path * nat * Z) :=
  if (fan_in <? length runs + in_memory)%nat then
    match fuel with
    | O => throw out_of_fuel
    | S fuel' =>
        let take_ := Nat.min (length runs + in_memory - fan_in + 1) fan_in in
        r ← premerge_bounded fan_in runs take_ n;
        let '(runs, d) := r in
        premerge_loop_bounded fuel' runs in_memory fan_in (n + 1) (dedup + d)
    end
  else mret (runs, n, dedup).

(** [merge_bounded] with an assertion at each of the two places where it opens runs: with
    the run in memory, at most [fan_in] sources. *)
Definition merge_within (runs : list path) (memory : option MemRun) (fan_in n : nat) (a : A)
    : io (MergeStats * nat * A) :=
  let fan_in := Nat.max fan_in 2 in
  let in_memory := match memory with Some _ => 1%nat | None => 0%nat end in
  p ← premerge_loop_bounded (length runs) runs in_memory fan_in n 0;
  let '(runs, n, dedup) := p in
  disk ← open_within (fan_in - in_memory) runs;
  let sources := disk ++ match memory with Some m => [inr m] | None => [] end in
  r ← merge sink sources a;
  let '(stats, a) := r in
  mret (mkStats (emitted stats) (deduplicated stats + dedup), n, a).

Lemma same_open limit runs : (length runs <= limit)%nat -> same_io (open_runs runs) (open_within limit runs).
Proof. intros Hl. symmetry. apply same_assert. by apply Nat.leb_le. Qed.

Lemma premerge_within limit runs take_ n : (take_ <= limit)%nat ->
  same_io (premerge next_run runs take_ n) (premerge_bounded limit runs take_ n).
Proof.
  intros Ht. unfold premerge, premerge_bounded. apply same_bind_proper; [done|]. intros sized. cbv zeta.
  apply same_bind_proper; [done|]. intros out. apply same_bind_proper; [|done].
  apply same_open. rewrite length_take. lia.
Qed.

Lemma premerge_loop_within fuel runs k fan_in n d :
  same_io (premerge_loop next_run fuel runs k fan_in n d) (premerge_loop_bounded fuel runs k fan_in n d).
Proof.
  revert runs n d. induction fuel as [|fuel IH]; intros runs n d; [done|]. cbn [premerge_loop premerge_loop_bounded].
  destruct (_ <? _)%nat; [|done]. apply same_bind_proper; [by apply premerge_within, Nat.le_min_r|].
  intros [runs' d']. apply IH.
Qed.

(** The loop leaves at most [fan_in] sources. *)
Lemma premerge_loop_leaves fuel runs k fan_in n d :
  returning (premerge_loop next_run fuel runs k fan_in n d) (fun '(runs', _, _) => length runs' + k <= fan_in)%nat.
Proof.
  revert runs n d. induction fuel as [|fuel IH]; intros runs n d; cbn [premerge_loop];
    destruct (Nat.ltb_spec fan_in (length runs + k)); try (by apply returning_ret); [apply returning_throw|].
  apply returning_after. intros [runs' d']. apply IH.
Qed.

Lemma merge_bounded_within runs memory fan_in n a :
  same_io (merge_bounded next_run sink runs memory fan_in n a) (merge_within runs memory fan_in n a).
Proof.
  unfold merge_bounded, merge_within. cbv zeta. eapply same_bind; [apply premerge_loop_within|apply premerge_loop_leaves|].
  intros [[runs' n'] d] Hl. cbn beta iota in Hl. apply same_bind_proper; [apply same_open; lia|done].
Qed.
End merge.

(** ** The open file *)

Section writer.
Context `{Parquet}.

(** Between calls the builder holds less than a row group. *)
Definition writer_within (w : PartitionWriter) : Prop := (c_rows (pw_builder w) < pw_group_rows w)%nat.

Lemma create_within p series epoch defs comp n : returning (partition_create p series epoch defs comp n)
  (fun w => writer_within w /\ pw_group_rows w = Nat.max n 1).
Proof.
  unfold partition_create. apply returning_after. intros props. do 2 (apply returning_after; intros _).
  apply returning_ret. split; [unfold writer_within; cbn; lia|done].
Qed.

Lemma group_within w : returning (partition_group w)
  (fun w' => c_rows (pw_builder w') = 0%nat /\ pw_group_rows w' = pw_group_rows w).
Proof.
  unfold partition_group. destruct (Nat.eqb_spec (c_rows (pw_builder w)) 0); [by apply returning_ret|].
  destruct (write_group _ _ _ _). apply returning_after. intros _. by apply returning_ret.
Qed.

Lemma append_within w ts id keys extra data : writer_within w ->
  returning (partition_append w ts id keys extra data)
    (fun w' => writer_within w' /\ pw_group_rows w' = pw_group_rows w).
Proof.
  intros Hw. unfold partition_append. destruct (builder_append _ _ _ _ _ _) as [c r]. apply returning_after. intros _.
  cbn [pw_group_rows pw_builder]. destruct (Nat.leb_spec (pw_group_rows w) (c_rows c)).
  - eapply returning_mono; [apply group_within|]. intros w' [E1 E2]. cbn in E2. unfold writer_within in *. split; [lia|done].
  - apply returning_ret. done.
Qed.

Lemma append_rows_within w rows : writer_within w ->
  returning (append_rows w rows) (fun w' => writer_within w' /\ pw_group_rows w' = pw_group_rows w).
Proof.
  revert w. induction rows as [|r rows IH]; intros w Hw; cbn [append_rows]; [by apply returning_ret|].
  eapply returning_bind; [by apply append_within|]. intros w1 [Hw1 E1]. rewrite <-E1. by apply IH.
Qed.

Lemma stream_within p series epoch defs comp n rows :
  returning (w ← partition_create p series epoch defs comp n; append_rows w rows)
    (fun w => (c_rows (pw_builder w) < Nat.max n 1)%nat).
Proof.
  eapply returning_bind; [apply create_within|]. intros w [Hw E]. eapply returning_mono; [by apply append_rows_within|].
  intros w' [Hw' E']. unfold writer_within in Hw'. lia.
Qed.
End writer.

(** C16: What a flush holds in memory, under any faults. With an assertion after each
    segment is decoded, phase 1 behaves as it does without: the batch (48 bytes for each
    record's entry, and its frame) and the buffer the segments are read into are together
    never more than the budget and 18/5 of the largest segment read so far, the worst case
    of a segment of 30-byte frames; the batch the merge reads is the last one measured.
    The merge of a group behaves as it does with an assertion before each opening of runs:
    with the one in memory it never has more than [merge_fan_in] sources open, each of
    which holds one record. And between two rows the Parquet writer buffers fewer rows
    than a row group. *)
Theorem flush_memory_bounded `{Crc32} `{Parquet} m c :
  0 < memory_budget_bytes (cfg_flush c) ->
  let flush := cfg_flush c in
  let budget := memory_budget_bytes flush in
  (forall ids rejects spill,
    let start := mkPhase1 [] ∅ 0 0 0 rejects spill batch_default in
    same_io (phase1 m budget ids start) (phase1_bounded m budget 0 ids start)) /\
  (forall series epoch keys name runs memory n staged,
    let sink := stage_row flush series epoch keys name in
    same_io (merge_bounded next_path sink runs memory (Z.to_nat (merge_fan_in flush)) n (mkStaging None staged))
            (merge_within next_path sink runs memory (Z.to_nat (merge_fan_in flush)) n (mkStaging None staged))) /\
  (forall p series epoch keys rows,
    returning (w ← partition_create p series epoch keys (compression flush) (Z.to_nat (row_group_rows flush));
               append_rows w rows)
      (fun w => (c_rows (pw_builder w) < Nat.max (Z.to_nat (row_group_rows flush)) 1)%nat)).
Proof.
  intros Hb flush budget. split_and!.
  - intros ids rejects spill start. apply phase1_within. by right.
  - intros. apply merge_bounded_within.
  - intros. apply stream_within.
Qed.

(** ** Instances *)

#[local] Existing Instance Crc32_ieee.
#[local] Existing Instance count_parquet.

(** Two segments of two records each, and a budget the first exceeds: phase 1 asserts
    twice, spills between, and consumes both. *)
Definition held_manifest : Manifest := mkManifest {[lit "orders" := [mkEpoch 3 sample_defs]]} 4 None.
Definition held_files : Files := {[segment_path 5 := sample_segment; segment_path 6 := sample_segment]}.
Definition held_config : Config :=
  mkConfig (lit "./data") server_default limits_default wal_default
    (mkFlush 3600000 true (lit "lz4_raw") 131072 64 100) [].

Lemma flush_memory_witness :
  let start := mkPhase1 [] ∅ 0 0 0 (mkRejects 0 None) (mkSpill 0 ∅ ∅) batch_default in
  let stopped := phase1_bounded held_manifest 100 0 [5; 6] start (mkWorld held_files []) in
  phase1 held_manifest 100 [5; 6] start (mkWorld held_files []) = stopped /\
  (match stopped.2 with
   | Ret s => (p1_consumed s, p1_rows s, map_size (sp_groups (p1_spill s)), 0 <? batch_bytes (p1_batch s))
   | _ => ([], 0, 0%nat, false)
   end) = ([5; 6], 2, 1%nat, true).
Proof.
  cbv zeta. destruct (flush_memory_bounded held_manifest held_config) as [Hp _]; [vm_compute; reflexivity|].
  split; [exact (Hp [5; 6] (mkRejects 0 None) (mkSpill 0 ∅ ∅) (mkWorld held_files []))|].
  vm_compute. reflexivity.
Defined.

(** The assertion is about something: a batch over a bound stops. *)
Example bound_stops : (assert (held (push batch_default (lit "s", 0) 0 0 0 (0, 0) [x00]) 1 <=? held_limit 1 1) (mkWorld ∅ [])).2
  = Throw over_bound.
Proof. vm_compute. reflexivity. Qed.

(** The 18/5 are needed: 26 records of 30 bytes, the least a frame can be. *)
Example held_tight :
  let frame := replicate 30 x00 in
  let batch := Nat.iter 26 (fun b => push b (lit "s", 0) 0 0 0 (0, 0) frame) batch_default in
  let largest := SEGMENT_HEADER_BYTES + 26 * 30 in
  held_limit 0 largest - 60 <= held batch largest <= held_limit 0 largest.
Proof. vm_compute. split; congruence. Qed.
