(* ===== verification/FlushLocal.v ===== *)
(** * FlushLocal: the files each phase of a flush may change

    Before the commit point a flush changes files under [tmp/], [runs/] and
    [rejects/], and moves segments with an unreadable header aside. *)

From Stdlib Require Import ZArith Lia.
From Stdlib Require Import Strings.Byte.
From S2P Require Import Prelude Text Record Codec CodecProofs Disk Calls Wal Reader Recovery Heap Merge MergeProofs Time Config Manifest Columns Planner Local.
Open Scope Z_scope.

Definition in_top (name : bytes) (p : path) : Prop := head p = Some name.

Lemma under_top name p : under [name] p = true -> in_top name p.
Proof.
  intros E%bool_decide_eq_true. destruct p as [|x p]; [done|]. cbn in E. by injection E as ->.
Qed.

(** The spilled runs. *)
Definition run_file (p : path) : Prop := in_top RUNS_DIR p.

(** [runs/] and [rejects/]. *)
Definition scratch (p : path) : Prop := run_file p \/ in_top REJECTS_DIR p.

Lemma run_file_next n : run_file (next_path n).
Proof. done. Qed.

Lemma run_file_scratch p : run_file p -> scratch p.
Proof. by left. Qed.

#[export] Hint Resolve run_file_next : local.

(** ** Rejects and runs *)

Lemma local_sum_sizes D dir names total : local D (sum_sizes dir names total).
Proof. revert total. induction names as [|n names IH]; intros total; cbn; local_solve. Qed.

(** The files of rejected frames. *)
Definition reject_file (p : path) : Prop := in_top REJECTS_DIR p.

Lemma local_reject s segment frame : local reject_file (reject_append s segment frame).
Proof.
  unfold reject_append. apply local_bind.
  - destruct (rj_used s); [apply local_ret|]. unfold dir_bytes. local_solve. apply local_sum_sizes.
  - intros used. cbv zeta. destruct (_ <? _); [apply local_ret|].
    unfold reject_write. by local_solve.
Qed.

Lemma local_run_create p : run_file p -> local run_file (run_create p).
Proof. intros Hp. unfold run_create. local_solve. Qed.

Lemma local_run_push w a f : run_file (rw_path w) -> local run_file (run_push w a f).
Proof. intros Hp. unfold run_push. local_solve. Qed.

Lemma local_clear_runs : local run_file clear_runs.
Proof.
  unfold clear_runs. apply local_ignore, local_remove_dir_all. intros p Hp. by apply under_top.
Qed.

(** Locality with a fact about the result. *)
Definition local_to {A : Type} (D : path -> Prop) (Q : A -> Prop) (m : io A) : Prop :=
  local D m /\ forall w, match (m w).2 with Ret a => Q a | _ => True end.

Lemma local_to_ret {A} D (Q : A -> Prop) a : Q a -> local_to D Q (mret a).
Proof. intros Hq. split; [apply local_ret|done]. Qed.

Lemma local_to_throw {A} D (Q : A -> Prop) e : local_to D Q (@throw A e).
Proof. split; [apply local_throw|done]. Qed.

Lemma local_to_bind {A B} D (Q : A -> Prop) (R : B -> Prop) (m : io A) (k : A -> io B) :
  local_to D Q m -> (forall a, Q a -> local_to D R (k a)) -> local_to D R (m ≫= k).
Proof.
  intros [Hm HQ] Hk. split.
  - intros w. unfold mbind, io_bind. cbn [exec trace]. destruct (Hm w) as [Hf Ht]. specialize (HQ w).
    destruct (m w) as [w' [a| |]]; cbn [fst] in Hf; [|by rewrite app_nil_r..]. destruct (Hk a HQ) as [Hl _].
    destruct (Hl w') as [Hf' Ht']. split; [by eapply keeps_trans|by apply dirt_app].
  - intros w. unfold mbind, io_bind. cbn [exec]. specialize (HQ w). destruct (m w) as [w' [a| |]]; [|done|done].
    by apply Hk.
Qed.

Lemma local_to_mono {A} (D D' : path -> Prop) (Q : A -> Prop) (m : io A) :
  (forall p, D p -> D' p) -> local_to D Q m -> local_to D' Q m.
Proof. intros HD [Hm HQ]. split; [by eapply local_mono|done]. Qed.

Lemma local_to_any {A} D (Q : A -> Prop) (m : io A) : (forall a, Q a) -> local D m -> local_to D Q m.
Proof. intros HQ Hm. split; [done|]. intros w. by destruct (m w).2. Qed.

Lemma local_to_local {A} D (Q : A -> Prop) (m : io A) : local_to D Q m -> local D m.
Proof. by intros [? _]. Qed.

(** ** The merge *)

Section merge.
Context {S A : Type} `{Source S} (D : path -> Prop) (Q : A -> Prop) (sink : Head -> A -> io A).
Context (Hadv : forall s, local D (src_advance s)) (Hsink : forall h a, Q a -> local_to D Q (sink h a)).

Lemma local_merge_loop fuel sources heap st last a :
  Q a -> local_to D (fun r => Q r.2) (merge_loop sink fuel sources heap st last a).
Proof.
  revert sources heap st last a. induction fuel as [|fuel IH]; intros sources heap st last a Ha; cbn [merge_loop].
  { apply local_to_throw. }
  destruct heap as [|top t]; [by apply local_to_ret|].
  destruct (sources !! top) as [src|]; [|apply local_to_throw]. cbv zeta.
  apply (local_to_bind _ (fun r => Q r.2)).
  - destruct (is_duplicate last (src_head src)); [by apply local_to_ret|].
    eapply local_to_bind; [by apply Hsink|]. intros a' Ha'. by apply local_to_ret.
  - intros [[st' last'] a'] Ha'. apply (local_to_bind _ (fun _ => True)); [by apply local_to_any|].
    intros [src' more] _. by apply IH.
Qed.

Lemma local_merge sources a : Q a -> local_to D (fun r => Q r.2) (merge sink sources a).
Proof. intros Ha. by apply local_merge_loop. Qed.
End merge.

Lemma local_read_tick D : local D read_tick.
Proof. apply local_idle, _. Qed.

Lemma local_corrupt {A} D (m : io (result IoError A)) : local D m -> local D (corrupt_on_err m).
Proof. intros Hm. unfold corrupt_on_err. local_solve. Qed.

Lemma local_read_next D r : local D (read_next r).
Proof.
  unfold read_next. apply local_bind.
  - apply local_corrupt. unfold read_exact_or_eof. apply local_bind; [apply local_read_tick|]. intros. local_solve.
  - intros [[head input]|]; [|apply local_ret]. cbv zeta. apply local_bind.
    + apply local_corrupt. unfold read_exact. apply local_bind; [apply local_read_tick|]. intros. local_solve.
    + intros [payload input']. local_solve.
Qed.

Lemma local_advance D (s : RunReader + MemRun) : local D (src_advance s).
Proof.
  destruct s as [r|m]; cbn.
  - apply local_bind; [apply local_read_next|]. intros [r' more]. apply local_ret.
  - apply local_bind; [apply local_ret|]. intros [m' more]. apply local_ret.
Qed.

Lemma local_open_runs D runs_ : local D (open_runs runs_).
Proof.
  induction runs_ as [|p runs_ IH]; cbn; [apply local_ret|].
  apply local_bind; [|intros; local_solve].
  unfold run_open. local_solve. apply local_read_next.
Qed.

Lemma local_run_sizes D runs_ : local D (run_sizes runs_).
Proof. induction runs_ as [|p runs_ IH]; cbn; local_solve. Qed.

Lemma local_premerge runs_ take_ n : Forall run_file runs_ ->
  local_to run_file (fun r => Forall run_file r.1) (premerge next_path runs_ take_ n).
Proof.
  intros Hr. unfold premerge.
  assert (local_to run_file (fun sized => sized.*2 = runs_) (run_sizes runs_)) as Hs.
  { split; [apply local_run_sizes|]. clear Hr. induction runs_ as [|p runs_ IH]; intros w; [done|].
    cbn. unfold mbind, io_bind. cbn [exec]. destruct (file_len p w) as [w' [r| |]]; [|done|done].
    specialize (IH w'). destruct (run_sizes runs_ w') as [w'' [l| |]]; [|done|done]. cbn in *. by rewrite IH. }
  eapply local_to_bind; [exact Hs|]. intros sized Es. cbv zeta.
  assert (Forall run_file (snd <$> sort_by_key fst sized)) as Hsorted.
  { apply Forall_forall. intros p Hp. apply list_elem_of_fmap in Hp as (x & -> & Hx).
    apply elem_of_sort in Hx. rewrite Forall_forall in Hr. apply Hr. rewrite <-Es.
    by apply list_elem_of_fmap_2. }
  eapply (local_to_bind _ (fun w => run_file (rw_path w))).
  { unfold run_create. split; [apply local_run_create, run_file_next|]. intros w.
    unfold mbind, io_bind. cbn [exec]. destruct (try _ w) as [w' [?| |]]; [|done|done]. apply run_file_next. }
  intros out Hout. apply (local_to_bind _ (fun _ => True)); [apply local_to_any; [done|apply local_open_runs]|].
  intros sources _. eapply local_to_bind.
  { apply (local_merge run_file (fun w => run_file (rw_path w))); [apply local_advance| |exact Hout].
    intros h w Hw. split; [by apply local_run_push|]. intros world. unfold run_push, mbind, io_bind. cbn [exec].
    destruct (try _ world) as [w' [?| |]]; done. }
  intros [st out'] Hout'. apply (local_to_bind _ (fun _ => True)).
  { apply local_to_any; [done|]. unfold run_finish. local_solve. }
  intros _ _. apply (local_to_bind _ (fun _ => True)).
  { apply local_to_any; [done|]. apply local_each. intros p Hp. unfold remove_quietly. local_solve.
    rewrite Forall_forall in Hsorted. apply Hsorted. by eapply elem_of_take_list. }
  intros [] _. apply local_to_ret. cbn. apply Forall_app. split; [by apply Forall_drop|].
  apply Forall_singleton, run_file_next.
Qed.

Lemma local_premerge_loop fuel runs_ im fan_in n dedup : Forall run_file runs_ ->
  local_to run_file (fun r => Forall run_file r.1.1) (premerge_loop next_path fuel runs_ im fan_in n dedup).
Proof.
  revert runs_ n dedup. induction fuel as [|fuel IH]; intros runs_ n dedup Hr; cbn [premerge_loop];
    destruct (_ <? _)%nat; try (by apply local_to_ret); [apply local_to_throw|].
  cbv zeta. eapply local_to_bind; [by apply local_premerge|]. intros [runs' d] Hr'. by apply IH.
Qed.

Lemma local_merge_bounded {A : Type} (D : path -> Prop) (Q : A -> Prop) (sink : Head -> A -> io A) runs_ memory fan_in n a :
  (forall p, run_file p -> D p) ->
  (forall h a, Q a -> local_to D Q (sink h a)) -> Forall run_file runs_ -> Q a ->
  local_to D (fun r => Q r.2) (merge_bounded next_path sink runs_ memory fan_in n a).
Proof.
  intros HD Hsink Hr Ha. unfold merge_bounded. cbv zeta.
  eapply local_to_bind; [by eapply local_to_mono; [exact HD|apply local_premerge_loop]|]. intros [[runs' n'] d] Hr'.
  apply (local_to_bind _ (fun _ => True)); [apply local_to_any; [done|apply local_open_runs]|].
  intros disk _. eapply local_to_bind.
  { by apply (local_merge D Q); [apply local_advance|..]. }
  intros [st a'] Ha'. by apply local_to_ret.
Qed.

(** ** Group keys carry [u32] epochs *)

Definition key_ok (k : GroupKey) : Prop := 0 <= k.2 < u32_lim.

Definition batch_ok (b : Batch) : Prop := Forall key_ok (b_groups b).

Definition spill_ok (groups : gmap GroupKey (list path)) : Prop :=
  map_Forall (fun k ps => key_ok k /\ Forall run_file ps) groups.

Lemma key_ok_at groups i : Forall key_ok groups -> key_ok (group_at groups i).
Proof.
  intros Hg. unfold group_at. destruct (nth_in_or_default (Z.to_nat i) groups ([], 0)) as [Hin| ->].
  - rewrite Forall_forall in Hg. apply Hg. by apply list_elem_of_In.
  - done.
Qed.

Lemma push_ok b k ts off len arrival frame : batch_ok b -> key_ok k ->
  batch_ok (push b k ts off len arrival frame).
Proof.
  intros Hb Hk. unfold push, intern.
  assert (batch_ok (mkBatch [] [] (match position k (b_groups b) 0 with Some _ => b_groups b | None => b_groups b ++ [k] end) 0)) as Hs.
  { unfold batch_ok. cbn. destruct (position _ _ _); [done|]. apply Forall_app. split; [done|by apply Forall_singleton]. }
  destruct (last (b_entries b)) as [e|]; [destruct (decide _); [done|]|];
    destruct (position k (b_groups b) 0); exact Hs.
Qed.

Lemma ranges_ok_keys groups fuel l : Forall key_ok groups ->
  Forall key_ok (group_ranges fuel groups l).*1.
Proof.
  intros Hg. revert l. induction fuel as [|fuel IH]; intros [|e l]; cbn [group_ranges]; try constructor.
  destruct (take_group (me_group e) (e :: l)) as [run rest]. cbn. constructor; [by apply key_ok_at|apply IH].
Qed.

Lemma batch_ranges_keys b : batch_ok b -> Forall key_ok (batch_ranges (batch_sort b)).*1.
Proof. intros Hb. by apply ranges_ok_keys. Qed.

Lemma local_spill_groups arena ranges n :
  local_to run_file (fun r => Forall run_file r.1.*2 /\ r.1.*1 = ranges.*1) (spill_groups next_path arena ranges n).
Proof.
  revert n. induction ranges as [|[key es] ranges IH]; intros n; cbn [spill_groups]; [by apply local_to_ret|].
  assert (forall w es, run_file (rw_path w) -> local_to run_file (fun w => run_file (rw_path w)) (write_run arena w es)) as Hw.
  { clear. intros w es. revert w. induction es as [|e es IH]; intros w Hw; cbn [write_run]; [by apply local_to_ret|].
    apply (local_to_bind _ (fun w => run_file (rw_path w))); [|auto].
    split; [by apply local_run_push|]. intros world. unfold run_push, mbind, io_bind. cbn [exec].
    by destruct (try _ world) as [? [?| |]]. }
  cbv zeta. eapply (local_to_bind _ (fun w => run_file (rw_path w))).
  { split; [apply local_run_create, run_file_next|]. intros w. unfold run_create, mbind, io_bind. cbn [exec].
    destruct (try _ w) as [w' [?| |]]; [|done|done]. apply run_file_next. }
  intros w Hpw. eapply local_to_bind; [by apply Hw|]. intros w' Hpw'.
  apply (local_to_bind _ (fun _ => True)).
  { apply local_to_any; [done|]. unfold run_finish. local_solve. }
  intros _ _. eapply local_to_bind; [apply IH|]. intros [out n'] [Hout Hk]. apply local_to_ret.
  cbn in *. split; [constructor; [apply run_file_next|done]|by rewrite Hk].
Qed.

Lemma add_runs_ok groups runs_ : spill_ok groups -> Forall run_file runs_.*2 -> Forall key_ok runs_.*1 ->
  spill_ok (foldl add_run groups runs_).
Proof.
  revert groups. induction runs_ as [|[k p] runs_ IH]; intros groups Hg Hr Hk; [done|]. cbn in Hr, Hk |- *.
  apply Forall_cons in Hr as [Hp Hr], Hk as [Hk0 Hk]. apply IH; [|done|done]. unfold add_run. cbn.
  intros k' ps Hl. rewrite lookup_insert in Hl. case_decide as E; [|by apply (Hg k')].
  subst k'. injection Hl as <-. split; [done|]. apply Forall_app. split; [|by apply Forall_singleton].
  destruct (groups !! k) eqn:E; [by apply (Hg k)|constructor].
Qed.

Lemma local_spill_batch s batch : spill_ok (sp_groups s) -> batch_ok batch ->
  local_to run_file (fun r => spill_ok (sp_groups r.1) /\ batch_ok r.2) (spill_batch s batch).
Proof.
  intros Hs Hb. unfold spill_batch. apply (local_to_bind _ (fun _ => True)).
  { apply local_to_any; [done|]. local_solve. }
  intros [] _. unfold spill. cbv zeta.
  apply (local_to_bind _ (fun r => Forall run_file r.1.1.*2 /\ Forall key_ok r.1.1.*1 /\ batch_ok r.1.2)).
  { eapply local_to_bind; [apply local_spill_groups|]. intros [out n'] [Hout Ek]. apply local_to_ret.
    cbn in *. split_and!; [done| |constructor]. rewrite Ek. by apply batch_ranges_keys. }
  intros [[runs_ b] n] (Hr & Hk & Hb'). apply local_to_ret. cbn in *. split; [by apply add_runs_ok|done].
Qed.

Section decode.
Context `{Crc32}.

Lemma next_frame_epoch kc r r' frame :
  next_frame kc r = (r', Some (Ok frame)) -> 0 <= rec_epoch (frame_record frame) < u32_lim.
Proof.
  unfold next_frame. destruct r as [id buf at_ max stopped keys extra].
  destruct (_ || _); [done|]. destruct (validate_prefix _ _) as [prefix|]; [|done].
  destruct (kc _ _) as [n|]; [|done]. destruct (decode _ _ _) as [d|] eqn:E; [|done].
  intros Ef. injection Ef as <- <-. cbn. apply decode_Ok in E as (payload & rest & _ & _ & _ & E).
  by apply decode_payload_sound in E as (_ & _ & ? & _).
Qed.

Lemma local_decode_frames fuel id buf m r d rejects batch : batch_ok batch ->
  local_to reject_file (fun s => batch_ok s.2) (decode_frames fuel id buf m r d rejects batch).
Proof.
  revert r d rejects batch. induction fuel as [|fuel IH]; intros r d rejects batch Hb; cbn [decode_frames].
  { apply local_to_throw. }
  destruct (next_frame (key_count m) r) as [r' [item|]] eqn:En; [|by apply local_to_ret].
  apply (local_to_bind _ (fun s => batch_ok s.2)).
  - assert (forall d' f, local_to reject_file (fun s : SegDecoded * RejectSink * Batch => batch_ok s.2)
        (rj ← reject_append rejects id f; mret (d', rj, batch))) as Hrej.
    { intros d' f. apply (local_to_bind _ (fun _ => True)); [apply local_to_any; [done|apply local_reject]|].
      intros rj _. by apply local_to_ret. }
    unfold decode_item. destruct item as [frame|[? ? ?|? ? ? ?|? ?]]; [|by apply Hrej..].
    cbv zeta. destruct (cached_keys _ _ _ _) as [keys cache]. destruct (negb _); [by apply Hrej|].
    apply local_to_ret. apply push_ok; [done|]. by apply next_frame_epoch in En.
  - intros [[d' rejects'] batch'] Hb'. by apply IH.
Qed.
End decode.

(** ** Phase 1 *)

Definition bad_header (c : bytes) : Prop := forall r, reader_new c (zlen c) <> Ok r.

(** What a flush may change before its commit point. *)
Definition touchable (fs0 : Files) (p : path) : Prop :=
  scratch p \/ (exists id, 0 <= id /\ p = corrupt_path id) \/
  (exists id c, 0 <= id /\ p = segment_path id /\ fs0 !! p = Some c /\ bad_header c).

(** Files changed only there, and a fact about the result. *)
Definition stays {A : Type} (T : path -> Prop) (fs0 : Files) (Q : A -> Prop) (m : io A) : Prop :=
  triple (keeps T fs0) m (keeps T fs0) (fun a fs => keeps T fs0 fs /\ Q a) /\
  forall w, keeps T fs0 (files w) -> dirt_in T (trace m w).

Section stays.
Context (T : path -> Prop) (fs0 : Files).

Lemma stays_local {A} (D : path -> Prop) (Q : A -> Prop) (m : io A) :
  (forall p, D p -> T p) -> local_to D Q m -> stays T fs0 Q m.
Proof.
  intros HD [Hm HQ]. split; [|intros w _; eapply dirt_mono; [exact HD|apply Hm]].
  intros w Hw. assert (keeps T fs0 (files (m w).1)) as Hk.
  { eapply keeps_trans; [exact Hw|]. eapply keeps_mono; [exact HD|]. by apply local_keeps. }
  split; [done|]. specialize (HQ w). by destruct (m w).2.
Qed.

Lemma stays_ret {A} (Q : A -> Prop) a : Q a -> stays T fs0 Q (mret a).
Proof. intros Hq. split; [by apply triple_ret|]. intros w _. apply dirt_nil. Qed.

Lemma stays_bind {A B} (Q : A -> Prop) (R : B -> Prop) (m : io A) (k : A -> io B) :
  stays T fs0 Q m -> (forall a, Q a -> stays T fs0 R (k a)) -> stays T fs0 R (m ≫= k).
Proof.
  intros [Hm Hd] Hk. split.
  - eapply triple_bind; [exact Hm|]. intros a. cbv beta.
    apply (triple_pure _ _ _ _ (Q a)); [by intros fs [_ ?]|]. intros Ha.
    eapply triple_conseq; [by apply Hk|by intros fs [? _]|done].
  - intros w Hw. unfold mbind, io_bind. cbn [trace]. apply dirt_app; [by apply Hd|].
    destruct (Hm w Hw) as [_ Hq]. destruct (m w) as [w' [a| |]]; [|apply dirt_nil..]. destruct Hq as [Hw' Ha]. by apply Hk.
Qed.

Lemma stays_mono {A} (Q Q' : A -> Prop) (m : io A) :
  (forall a, Q a -> Q' a) -> stays T fs0 Q m -> stays T fs0 Q' m.
Proof. intros HQ [Hm Hd]. split; [|done]. eapply triple_conseq; [exact Hm|done|]. intros a fs [? ?]. auto. Qed.
End stays.

(** The segments consumed are among the given ones, in their order. *)
Record phase1_ok (ids : list Z) (s0 s : Phase1) : Prop := {
  po_consumed : exists l, p1_consumed s = p1_consumed s0 ++ l /\ sublist l ids;
  po_runs : spill_ok (sp_groups (p1_spill s));
  po_batch : batch_ok (p1_batch s)
}.

Section phase1.
Context `{Crc32} (fs0 : Files) (m : Manifest) (budget : Z).

Lemma scratch_touchable p : scratch p -> touchable fs0 p.
Proof. by left. Qed.

Lemma segment_not_scratch id : ~ scratch (segment_path id).
Proof. intros [H1|H1]; vm_compute in H1; done. Qed.

(** A readable segment of the start is out of reach. *)
Lemma segment_touchable id : 0 <= id ->
  touchable fs0 (segment_path id) <->
  exists c, fs0 !! segment_path id = Some c /\ bad_header c.
Proof.
  intros Hid. split.
  - intros [Hs|[(id' & Hid' & E)|(id' & c & Hid' & E & Hc & Hb)]].
    + by apply segment_not_scratch in Hs.
    + symmetry in E. by apply corrupt_path_ne in E.
    + exists c. by rewrite E in *.
  - intros (c & Hc & Hb). right. right. by exists id, c.
Qed.

Lemma bad_header_dec c : {bad_header c} + {~ bad_header c}.
Proof.
  unfold bad_header. destruct (reader_new c (zlen c)) as [r|e].
  - right. intros Hn. by apply (Hn r).
  - left. done.
Qed.

Lemma stays_read id : 0 <= id -> stays (touchable fs0) fs0
  (fun buf => bad_header buf -> touchable fs0 (segment_path id)) (try (read_file (segment_path id))).
Proof.
  intros Hid. split; [|intros w _; apply (local_try (touchable fs0) _ (local_read_file _ _) w)].
  apply triple_try. eapply triple_conseq; [apply (triple_read (keeps (touchable fs0) fs0)); done|done|].
  intros [buf|e] fs; [|by intros [? _]]. intros [Hk Hl]. split; [done|]. intros Hb.
  apply segment_touchable; [done|]. destruct (fs0 !! segment_path id) as [c|] eqn:E0.
  - exists c. split; [done|]. destruct (bad_header_dec c) as [|Hg]; [done|].
    rewrite Hk in Hl; [by rewrite E0 in Hl; injection Hl as ->|].
    intros (c' & Hc' & Hb')%segment_touchable; [|done]. rewrite E0 in Hc'. by injection Hc' as ->.
  - rewrite Hk in Hl; [by rewrite E0 in Hl|].
    intros (c' & Hc' & Hb')%segment_touchable; [|done]. by rewrite E0 in Hc'.
Qed.

Lemma local_quarantine id : 0 <= id ->
  local (fun p => p = segment_path id \/ p = corrupt_path id) (try_quarantine id).
Proof.
  intros Hid. unfold try_quarantine, quarantine_segment. local_solve.
Qed.

Lemma stays_decode id buf rejects batch : 0 <= id ->
  (bad_header buf -> touchable fs0 (segment_path id)) ->
  batch_ok batch ->
  stays (touchable fs0) fs0 (fun r => batch_ok r.2) (decode_segment id buf m rejects batch).
Proof.
  intros Hid Hb Hbatch. unfold decode_segment. destruct (reader_new buf (zlen buf)) as [r|e] eqn:E.
  - eapply stays_local; [|by apply local_decode_frames]. intros p Hp. apply scratch_touchable. by right.
  - eapply (stays_local _ _ (fun p => p = segment_path id \/ p = corrupt_path id)).
    + intros p [-> | ->]; [apply Hb; intros r Hr; congruence|]. right. left. by exists id.
    + apply (local_to_bind _ (fun _ => True)); [apply local_to_any; [done|by apply local_quarantine]|].
      intros q _. by apply local_to_ret.
Qed.

Lemma phase1_ok_trans ids ids' s0 s1 s id :
  phase1_ok ids' s1 s -> p1_consumed s1 = p1_consumed s0 ++ id -> sublist id ids ->
  phase1_ok (ids ++ ids') s0 s.
Proof.
  intros [(l & Hl & Hs) Hr Hb] E Hi. split; [|done|done]. exists (id ++ l). rewrite Hl, E, <-app_assoc.
  split; [done|]. by apply sublist_app.
Qed.

Lemma stays_phase1 ids s : Forall (fun id => 0 <= id) ids ->
  spill_ok (sp_groups (p1_spill s)) -> batch_ok (p1_batch s) ->
  stays (touchable fs0) fs0 (phase1_ok ids s) (phase1 m budget ids s).
Proof.
  intros Hids. revert s. induction Hids as [|id ids Hid _ IH]; intros s Hs Hbs; cbn [phase1].
  { apply stays_ret. split; [|done|done]. exists []. by rewrite app_nil_r. }
  assert (forall s1 l, p1_consumed s1 = p1_consumed s ++ l -> sublist l [id] ->
    spill_ok (sp_groups (p1_spill s1)) -> batch_ok (p1_batch s1) ->
    stays (touchable fs0) fs0 (phase1_ok (id :: ids) s) (phase1 m budget ids s1)) as Hnext.
  { intros s1 l E1 Hl Hr1 Hb1. eapply stays_mono; [|by apply IH]. intros s' Hq.
    by apply (phase1_ok_trans [id] ids s s1 s' l Hq). }
  eapply stays_bind; [by apply stays_read|]. intros buf Hb.
  eapply stays_bind; [by apply stays_decode|]. intros [[d rejects] batch] Hbatch. cbv zeta. cbn in Hbatch.
  destruct (d_unreadable d).
  { destruct (negb _).
    - apply stays_ret. split; [|done|done]. exists []. split; [by rewrite app_nil_r|apply sublist_nil_l].
    - apply (Hnext _ []); [by rewrite app_nil_r|apply sublist_nil_l|done|done]. }
  destruct (_ && _); [|by apply (Hnext _ [id])].
  eapply stays_bind; [eapply stays_local; [|by apply local_spill_batch]; intros p Hp; by apply scratch_touchable, run_file_scratch|].
  intros [sp b'] [Hsp Hb']. by apply (Hnext _ [id]).
Qed.
End phase1.

(** ** Phase 2 *)

(** A staged path of a flush of segments [first] to [last_]. *)
Definition staged_ok (first last_ : Z) (p : path) : Prop :=
  exists series hour epoch, 0 <= epoch < u32_lim /\
    p = staged_path series hour (output_file_name first last_ epoch).

(** What the staging phases may change. *)
Definition staging (first last_ : Z) (p : path) : Prop := run_file p \/ staged_ok first last_ p.

Lemma run_file_staging first last_ p : run_file p -> staging first last_ p.
Proof. by left. Qed.

Lemma staged_staging first last_ p : staged_ok first last_ p -> staging first last_ p.
Proof. by right. Qed.

Section partition.
Context `{Parquet} (first last_ : Z) (series : bytes) (epoch : Z) (Hepoch : 0 <= epoch < u32_lim).

Definition staging_ok (s : Staging) : Prop :=
  Forall (staged_ok first last_) (st_staged s).*2 /\
  match st_open s with
  | Some (_, (_, p, w)) => staged_ok first last_ p /\ pw_path w = p
  | None => True
  end.

Lemma local_partition_group D w : D (pw_path w) ->
  local_to D (fun w' => pw_path w' = pw_path w) (partition_group w).
Proof.
  intros Hw. unfold partition_group. cbv zeta. destruct (_ =? _)%nat; [by apply local_to_ret|].
  destruct (write_group _ _ _ _) as [g cu]. apply (local_to_bind _ (fun _ => True)).
  - apply local_to_any; [done|]. local_solve.
  - intros [] _. by apply local_to_ret.
Qed.

Lemma local_partition_append D w ts id keys extra data : D (pw_path w) ->
  local_to D (fun w' => pw_path w' = pw_path w) (partition_append w ts id keys extra data).
Proof.
  intros Hw. unfold partition_append. destruct (builder_append _ _ _ _ _ _) as [c r].
  apply (local_to_bind _ (fun _ => True)); [apply local_to_any; [done|apply local_lift]|].
  intros _ _. cbv zeta. destruct (_ <=? _)%nat; [|by apply local_to_ret].
  match goal with |- context [partition_group ?x] => exact (local_partition_group D x Hw) end.
Qed.

Lemma local_partition_create D p keys comp n : D p ->
  local_to D (fun w => pw_path w = p) (partition_create p series epoch keys comp n).
Proof.
  intros Hp. unfold partition_create. apply (local_to_bind _ (fun _ => True)).
  { apply local_to_any; [done|apply local_lift]. }
  intros props _. cbv zeta. apply (local_to_bind _ (fun _ => True)); [apply local_to_any; [done|local_solve]|].
  intros [] _. apply (local_to_bind _ (fun _ => True)); [apply local_to_any; [done|local_solve]|].
  intros [] _. by apply local_to_ret.
Qed.

Lemma local_finish_file hour p w staged :
  staged_ok first last_ p -> pw_path w = p -> Forall (staged_ok first last_) staged.*2 ->
  local_to (staging first last_) (fun l => Forall (staged_ok first last_) l.*2)
    (finish_file series epoch (hour, p, w) staged).
Proof.
  intros Hp Ep Hst. unfold finish_file. apply (local_to_bind _ (fun _ => True)).
  - apply local_to_any; [done|]. unfold partition_finish.
    apply (local_to_local _ (fun _ => True)).
    assert (staging first last_ (pw_path w)) as Hs by (rewrite Ep; by eapply staged_staging).
    eapply local_to_bind; [by apply local_partition_group|]. intros w' Ew.
    apply local_to_any; [done|]. local_solve. by rewrite Ew.
  - intros rows _. apply local_to_ret. rewrite fmap_app. apply Forall_app. split; [done|].
    by apply Forall_singleton.
Qed.

Lemma local_finish_open (s : Staging) : staging_ok s ->
  local_to (staging first last_) (fun l => Forall (staged_ok first last_) l.*2)
    (match st_open s with
     | Some (_, file) => finish_file series epoch file (st_staged s)
     | None => mret (st_staged s)
     end).
Proof.
  intros [Hst Ho]. destruct (st_open s) as [[h [[hour p] w]]|]; [|by apply local_to_ret].
  destruct Ho as [Hp Ep]. by apply local_finish_file.
Qed.

Lemma local_stage_row flush keys entry s : staging_ok s ->
  local_to (staging first last_) staging_ok
    (stage_row flush series epoch keys (output_file_name first last_ epoch) entry s).
Proof.
  intros Hs. unfold stage_row. apply (local_to_bind _ staging_ok).
  - unfold open_hour. cbv zeta.
    destruct (match st_open s with Some (h, _) => h =? _ | None => false end); [by apply local_to_ret|].
    eapply local_to_bind; [by apply local_finish_open|]. intros staged Hst.
    apply (local_to_bind _ (fun _ => True)); [apply local_to_any; [done|local_solve]|]. intros [] _.
    assert (staged_ok first last_ (staged_path series (hour_partition (h_ts entry))
      (output_file_name first last_ epoch))) as Hp by (by exists series, (hour_partition (h_ts entry)), epoch).
    eapply local_to_bind; [apply local_partition_create; by eapply staged_staging|].
    intros w Ew. by apply local_to_ret.
  - intros s' [Hst Ho]. destruct (decode_verified _ _) as [d|]; [|apply local_to_throw]. cbv zeta.
    destruct (st_open s') as [[h [[hour p] w]]|]; [|apply local_to_throw]. destruct Ho as [Hp Ep].
    eapply local_to_bind; [apply local_partition_append; rewrite Ep; by eapply staged_staging|].
    intros w' Ew. apply local_to_ret. split; [done|]. cbn. by rewrite Ew.
Qed.

Lemma local_merge_partition flush keys runs_ memory n staged :
  Forall run_file runs_ -> Forall (staged_ok first last_) staged.*2 ->
  local_to (staging first last_) (fun r => Forall (staged_ok first last_) r.2.*2)
    (merge_partition flush series epoch keys (output_file_name first last_ epoch) runs_ memory n staged).
Proof.
  intros Hr Hst. unfold merge_partition. eapply local_to_bind.
  - apply (local_merge_bounded (staging first last_) staging_ok); [apply run_file_staging| |done|done]. intros h s Hs. by apply local_stage_row.
  - intros [[st n'] s] Hs. eapply local_to_bind; [by apply local_finish_open|].
    intros l Hl. by apply local_to_ret.
Qed.
End partition.

Section stage.
Context `{Parquet} (first last_ : Z).

Lemma local_phase2 flush schemas memory spilled keys n staged st :
  Forall key_ok keys -> spill_ok spilled -> Forall (staged_ok first last_) staged.*2 ->
  local_to (staging first last_) (fun r => Forall (staged_ok first last_) r.1.*2)
    (phase2 flush first last_ schemas memory spilled keys n staged st).
Proof.
  intros Hk Hsp. revert n staged st. induction Hk as [|key keys Hkey _ IH]; intros n staged st Hst; cbn [phase2].
  { by apply local_to_ret. }
  eapply local_to_bind.
  - apply local_merge_partition; [done| |done]. destruct (spilled !! key) as [ps|] eqn:E; [by apply (Hsp key)|constructor].
  - intros [[st' n'] staged'] Hst'. by apply IH.
Qed.

Lemma into_sources_keys b : batch_ok b -> Forall key_ok (into_sources b).2.*1.
Proof.
  intros Hb. unfold into_sources. cbn [snd]. rewrite <-list_fmap_compose.
  rewrite (list_fmap_ext _ fst) by (by intros ? [? ?]). by apply batch_ranges_keys.
Qed.

Lemma memory_dom (l : list (GroupKey * MemRun)) (m0 : gmap GroupKey MemRun) k :
  k ∈ dom (foldl (fun m p => <[p.1 := p.2]> m) m0 l) -> k ∈ dom m0 \/ k ∈ l.*1.
Proof.
  revert m0. induction l as [|[k' v] l IH]; intros m0; cbn; [by left|]. intros Hk.
  apply IH in Hk as [Hk|Hk]; [|right; set_solver]. rewrite dom_insert in Hk. set_solver.
Qed.

Lemma group_keys_ok batch spilled : batch_ok batch -> spill_ok spilled ->
  Forall key_ok (group_keys (foldl (fun m p => <[p.1 := p.2]> m) ∅ (into_sources batch).2) spilled).
Proof.
  intros Hb Hsp. pose proof (into_sources_keys _ Hb) as Hk. apply Forall_forall. intros k Hin.
  unfold group_keys in Hin. apply elem_of_sort, elem_of_elements, elem_of_union in Hin as [Hin|Hin].
  - apply memory_dom in Hin as [Hin|Hin]; [by rewrite dom_empty in Hin; apply elem_of_empty in Hin|].
    rewrite Forall_forall in Hk. by apply Hk.
  - apply elem_of_dom in Hin as [ps Hps]. by apply (Hsp k ps).
Qed.

Lemma local_fsync_staging D staged : local D (fsync_staging staged).
Proof.
  unfold fsync_staging. apply local_bind; [|intros; local_solve]. apply local_each. intros d _. local_solve.
Qed.

Lemma local_stage c s : spill_ok (sp_groups (p1_spill s)) -> batch_ok (p1_batch s) ->
  local_to (staging first last_) (fun r => Forall (staged_ok first last_) r.1.1.*2) (stage c first last_ s).
Proof.
  intros Hsp Hb. unfold stage. apply (local_to_bind _ (fun _ => True)); [apply local_to_any; [done|local_solve]|].
  intros [] _. pose proof (group_keys_ok _ _ Hb Hsp) as Hk.
  destruct (into_sources (p1_batch s)) as [batch sources]. cbn [snd] in Hk. cbv zeta.
  eapply local_to_bind; [by apply local_phase2|].
  intros [staged st] Hst. apply (local_to_bind _ (fun _ => True)); [|intros [] _; by apply local_to_ret].
  apply local_to_any; [done|]. apply local_fsync_staging.
Qed.
End stage.
