(* ===== verification/MergeFaults.v ===== *)
(** * MergeFaults: the merge under faults

    The files MergeProofs and Bounded say what a merge does when no call fails. Here the
    script is arbitrary: a failed read, write or rename stops the merge with an error,
    an ignored error (the size of a run, its removal) does not matter, and whenever the
    merge returns it has delivered exactly what a merge without faults delivers. *)

From Stdlib Require Import ZArith Lia.
From Stdlib Require Import Strings.Byte.
From S2P Require Import Prelude Text Record Codec CodecProofs Disk Heap Merge MergeProofs Sources Bounded BatchProofs Spill Config Manifest Planner Local.
Open Scope Z_scope.

(** A fact carried along with the state of the files. *)
Lemma triple_fact {A : Type} (F : Prop) (P C : Files -> Prop) (Q : A -> Files -> Prop) (m : io A) :
  (F -> triple P m C Q) -> triple (fun fs => F /\ P fs) m C Q.
Proof. intros Hm w [HF Hw]. by apply Hm. Qed.

Ltac triple_fact := cbv beta; cbn [fst snd]; apply triple_fact.

(** ** The loop *)

Section loop.
Context {S A : Type} `{SourceLaws S} (sink : Head -> A -> io A).
(** What holds of the sink's state and the files after delivering a list. *)
Context (C : Files -> Prop) (I : list Head -> A -> Files -> Prop).
Context (HC : forall l a fs, I l a fs -> C fs).
Context (Hsink : forall l h a, triple (I l a) (sink h a) C (I (l ++ [h]))).

Lemma advance_delivers s h rest : streams s (h :: rest) ->
  exists s', (rest <> [] -> streams s' rest) /\
    forall l a, triple (I l a) (src_advance s) C (fun r fs => r = (s', negb (bool_decide (rest = []))) /\ I l a fs).
Proof.
  intros Hs. destruct (streams_advance s h rest Hs) as (s' & Hrun & Hs'). exists s'. split; [done|]. intros l a.
  apply triple_yields; [eapply yields_runs; [apply advance_constant|apply (Hrun ∅)]|].
  intros w Hw. destruct (advance_keeps s (I l a) w Hw) as [H1' H2']. split; [by eapply HC|done].
Qed.

Lemma delivers_loop fuel sources heap L st last a l :
  loop_inv sources heap L ->
  let out := dedup_last last (sort_by_key head_key (left_over heap L)) in
  triple (I l a) (merge_loop sink fuel sources heap st last a) C
    (fun r fs => I (l ++ out) r.2 fs /\ r.1 = add_stats st (length (left_over heap L)) (length out)).
Proof.
  revert sources heap L st last a l.
  induction fuel as [|fuel IH]; intros sources heap L st last a l Hinv out; [apply triple_throw; eauto|].
  destruct heap as [|top t].
  { cbn. apply triple_ret; [eauto|]. intros fs Hfs. rewrite app_nil_r. split; [done|]. destruct st. unfold add_stats. cbn.
    by rewrite !Z.add_0_r. }
  destruct (inv_streams _ _ _ Hinv top ltac:(set_solver)) as (s & Hs & Hst).
  destruct (streams_head s _ Hst) as [rest HL]. rewrite HL in Hst.
  destruct (advance_delivers s _ rest Hst) as (s' & Hst' & Hadv).
  destruct (inv_step sources top t L s s' rest Hinv Hs HL Hst') as [Hinv' Hperm].
  set (heap' := sift_down (length (next_heap top t rest)) (next_heap top t rest) 0
    (less (<[top := s']> sources))) in *.
  set (L' := drop_head L top rest) in *.
  assert (sort_by_key head_key (left_over (top :: t) L)
    = src_head s :: sort_by_key head_key (left_over heap' L')) as Esort.
  { apply sort_min; [exact (inv_unique _ _ _ Hinv)|by rewrite Hperm|]. by eapply top_least. }
  pose proof (Permutation_length Hperm) as Hlen. cbn [length] in Hlen.
  unfold out. rewrite Esort. cbn [merge_loop dedup_last]. rewrite Hs. clear out. cbv zeta.
  destruct (is_duplicate last (src_head s)).
  - eapply triple_bind; [apply (triple_ret (I l a) C (fun r fs => r = (mkStats (emitted st) (deduplicated st + 1), last, a) /\ I l a fs)); [eauto|done]|].
    intros x. triple_fact. intros ->. eapply triple_bind; [apply Hadv|].
    intros x. triple_fact. intros ->. eapply triple_conseq; [apply (IH _ heap' L'); done|done|].
    intros r fs [Hr ->]. split; [done|]. unfold add_stats. cbn [emitted deduplicated]. f_equal; lia.
  - eapply triple_bind; [eapply triple_bind; [apply Hsink|]; intros a'; apply (triple_ret _ C (fun r fs =>
      r.1 = (mkStats (emitted st + 1) (deduplicated st), Some (row_key (src_head s))) /\ I (l ++ [src_head s]) r.2 fs)); [eauto|done]|].
    intros [[st1 last1] a1]. cbn [fst snd].
    triple_fact. intros [= -> ->]. eapply triple_bind; [apply Hadv|].
    intros x. triple_fact. intros ->. eapply triple_conseq; [apply (IH _ heap' L'); done|done|].
    intros r fs [Hr ->]. rewrite <-app_assoc in Hr. split; [done|]. unfold add_stats. cbn [emitted deduplicated length]. f_equal; lia.
Qed.

Lemma delivers_merge sources ls a :
  Forall2 streams sources ls -> Forall sorted_heads ls -> arrivals_unique (concat ls) ->
  triple (I [] a) (merge sink sources a) C (fun r fs => I (merged (concat ls)) r.2 fs /\
    r.1 = add_stats stats_default (length (concat ls)) (length (merged (concat ls)))).
Proof.
  intros H2 Hs Hu. destruct (start_inv sources ls H2 Hs Hu) as [Hinv Hp]. unfold merge.
  eapply triple_conseq; [apply (delivers_loop _ _ _ (stream_of ls)), Hinv|done|]. cbn [app]. intros r fs.
  rewrite dedup_last_none, (sort_perm_eq head_key _ (concat ls)); [|exact (inv_unique _ _ _ Hinv)|done].
  rewrite <-merged_eq. by rewrite (Permutation_length Hp).
Qed.
End loop.

(** ** Runs *)

(** No claim about the files. *)
Definition any_files (_ : Files) : Prop := True.

(** A computation that reads: the files stay, and if it returns, it returns [a]. *)
Definition reads {A : Type} (m : io A) (fs : Files) (a : A) : Prop :=
  triple (fun fs' => fs' = fs) m any_files (fun x fs' => x = a /\ fs' = fs).

Lemma reading_ret {A : Type} (a : A) fs : reads (mret a) fs a.
Proof. by apply triple_ret. Qed.

Lemma reading_bind {A B : Type} (m : io A) (k : A -> io B) fs a b :
  reads m fs a -> reads (k a) fs b -> reads (m ≫= k) fs b.
Proof. intros Hm Hk. eapply triple_bind; [exact Hm|]. intros x. triple_fact. by intros ->. Qed.

Lemma reads_constant {A : Type} (m : io A) fs a : constant m -> runs m fs fs (Ret a) ->
  (forall P : Files -> Prop, triple P m P (fun _ => P)) -> reads m fs a.
Proof.
  intros Hc Hr Hk w Hw. split; [done|]. destruct (Hk (fun fs' => fs' = fs) w Hw) as [_ H1].
  pose proof (yields_runs m fs fs a Hc Hr w) as Hy. by destruct (m w).2.
Qed.

Lemma reads_file p c fs : fs !! p = Some c -> reads (try (read_file p)) fs c.
Proof.
  intros Hp w Hw. split; [done|]. unfold try, read_file, mbind, io_bind. cbn [exec]. unfold perform.
  destruct w as [fs' s]. cbn in Hw. subst fs'. destruct s as [|[] s]; cbn; rewrite ?Hp; done.
Qed.

Lemma reads_run_open fs p l : run_file fs p l ->
  reads (run_open p) fs (match l with [] => None | h :: rest => Some (reader_at h rest) end).
Proof.
  intros [Hb Ho _]. eapply reading_bind; [by apply reads_file|]. destruct l as [|h rest].
  - apply (reading_bind _ _ _ (mkRunReader (run_bytes []) 0 (0, 0) [] [], false)); [|apply reading_ret].
    apply reads_constant; [apply constant_read_next|done|intros P; apply triple_read_next].
  - apply Forall_cons in Ho as [Hh _]. apply (reading_bind _ _ _ (reader_at h rest, true)); [|apply reading_ret].
    apply reads_constant; [apply constant_read_next|by apply runs_read_next|intros P; apply triple_read_next].
Qed.

Lemma reads_open_runs fs runs_ (R : path -> list Head) :
  (forall p, p ∈ runs_ -> run_file fs p (R p)) ->
  exists srcs ls, reads (open_runs runs_) fs srcs /\
    Forall2 streams srcs ls /\ Forall sorted_heads ls /\ concat ls = concat (R <$> runs_).
Proof.
  induction runs_ as [|p runs_ IH]; intros HR.
  { exists [], []. split_and!; [apply reading_ret|constructor..|done]. }
  destruct IH as (srcs & ls & Hr & H2 & Hs & Hc); [set_solver|].
  pose proof (HR p ltac:(set_solver)) as Hp. pose proof (reads_run_open fs p (R p) Hp) as Ho.
  destruct Hp as [_ Hok Hsort]. cbn [open_runs fmap list_fmap concat].
  destruct (R p) as [|h rest].
  - exists srcs, ls. split_and!; [|done..]. eapply reading_bind; [exact Ho|].
    eapply reading_bind; [exact Hr|]. apply reading_ret.
  - exists (inl (reader_at h rest) :: srcs), ((h :: rest) :: ls). split_and!.
    + eapply reading_bind; [exact Ho|]. eapply reading_bind; [exact Hr|]. apply reading_ret.
    + constructor; [|done]. cbn. by exists h, rest.
    + by constructor.
    + cbn. by rewrite Hc.
Qed.

(** The sizes may be wrong; the paths are the given ones. *)
Lemma triple_run_sizes fs runs_ :
  triple (fun fs' => fs' = fs) (run_sizes runs_) any_files (fun sized fs' => snd <$> sized = runs_ /\ fs' = fs).
Proof.
  induction runs_ as [|p runs_ IH]; cbn [run_sizes]; [by apply triple_ret|].
  eapply triple_bind; [apply (triple_whole (fun fs' => fs' = fs) any_files (fun _ fs' => fs' = fs) (FileLen p)); [done| |done]; intros ? ->; cbn; by destruct (fs !! p)|].
  intros r. eapply triple_bind; [exact IH|]. intros rest. triple_fact. intros E.
  apply triple_ret; [done|]. intros fs' ->. cbn. by rewrite E.
Qed.

(** The run at [p] holds [l], and the rest is as before. *)
Definition wrote (p : path) (fs : Files) (l : list Head) (w : RunWriter) (fs' : Files) : Prop :=
  w = mkRunWriter p (run_bytes l) (zlen l) /\ fs' !! p = Some (run_bytes l) /\ keeps (eq p) fs fs'.

Lemma wrote_create p fs : triple (fun fs' => fs' = fs) (run_create p) any_files (wrote p fs []).
Proof.
  eapply triple_bind; [apply triple_try; apply (triple_call _ _ (fun r fs' =>
    match r with Ok _ => fs' = <[p := []]> fs | Err _ => any_files fs' end)); [done|done| |done|done]; by intros ? ->|].
  intros []. apply triple_ret; [done|]. intros fs' ->. split_and!; [done|by rewrite lookup_insert_eq|].
  by apply keeps_insert.
Qed.

Lemma wrote_push p fs l h w : triple (wrote p fs l w) (run_sink h w) any_files (wrote p fs (l ++ [h])).
Proof.
  intros wd (-> & Hd & Hk). revert wd Hd Hk. cbn [rw_path rw_data rw_entries run_sink].
  assert (run_bytes l ++ run_entry (h_arrival h) (h_frame h) = run_bytes (l ++ [h])) as E.
  { unfold run_bytes. rewrite fmap_app, concat_app. cbn. by rewrite app_nil_r. }
  assert (triple (fun fs' => fs' !! p = Some (run_bytes l) /\ keeps (eq p) fs fs')
    (run_sink h (mkRunWriter p (run_bytes l) (zlen l))) any_files (wrote p fs (l ++ [h]))) as Ht.
  { unfold run_sink, run_push. cbn [rw_path rw_data rw_entries]. rewrite E.
    eapply triple_bind; [apply triple_try; apply (triple_call _ _ (fun r fs' =>
      match r with Ok _ => fs' !! p = Some (run_bytes (l ++ [h])) /\ keeps (eq p) fs fs' | Err _ => any_files fs' end));
      [done|done| |done|done]|].
    - intros fs' [_ Hk]. split; [done|]. cbn. split; [by rewrite lookup_insert_eq|].
      eapply keeps_trans; [exact Hk|]. by apply keeps_insert.
    - intros []. apply triple_ret; [done|]. intros fs' [Hp Hk]. split_and!; [|done|done].
      f_equal. rewrite zlen_app. done. }
  intros wd Hd Hk. by apply Ht.
Qed.

(** ** The bounded merge *)

Lemma triple_at {A : Type} (P C : Files -> Prop) (Q : A -> Files -> Prop) (m : io A) :
  (forall fs, P fs -> triple (fun fs' => fs' = fs) m C Q) -> triple P m C Q.
Proof. intros Hm w Hw. by apply (Hm (files w)). Qed.

Section bounded.
Context (next_run : nat -> path) `{!Inj eq eq next_run}.

Definition old_or_new (runs_ : list path) (n : nat) (q : path) : Prop :=
  q ∈ runs_ \/ exists m, (n <= m)%nat /\ q = next_run m.

Lemma faulty_premerge fs runs_ (R : path -> list Head) take_ n :
  numbered next_run runs_ n -> (forall p, p ∈ runs_ -> run_file fs p (R p)) -> arrivals_unique (concat (R <$> runs_)) ->
  triple (fun fs' => fs' = fs) (premerge next_run runs_ take_ n) any_files (fun r fs' =>
    (forall q, q ∈ r.1 -> old_or_new runs_ n q) /\
    exists R', rearranged next_run fs fs' runs_ R n r.1 R' (n + 1) /\
      r.2 = zlen (concat (R <$> runs_)) - zlen (concat (R' <$> r.1))).
Proof.
  intros Hnum HR Hu. unfold premerge. eapply triple_bind; [apply triple_run_sizes|].
  intros sized. triple_fact. intros Hsnd. cbv zeta. set (runs2 := snd <$> sort_by_key fst sized).
  assert (runs2 ≡ₚ runs_) as Hp2 by (unfold runs2; rewrite (sort_perm fst); by rewrite Hsnd).
  set (batch := take take_ runs2). set (others := drop take_ runs2).
  assert (batch ++ others ≡ₚ runs_) as Hsplit by (unfold batch, others; by rewrite take_drop).
  pose proof (numbered_fresh next_run _ _ n Hnum ltac:(lia)) as Hfresh. set (p := next_run n) in *.
  assert (p ∉ batch /\ p ∉ others) as [Hpb Hpo] by (rewrite <-Hsplit in Hfresh; set_solver).
  eapply triple_bind; [apply wrote_create|]. intros out. apply triple_at. intros fs1 Hw.
  destruct (reads_open_runs fs1 batch R) as (srcs & ls & Hopen & H2 & Hls & Hc).
  { intros q Hq. destruct Hw as (_ & _ & Hk). destruct (HR q) as [Hb Ho Hs]; [rewrite <-Hsplit; set_solver|].
    split; [|done..]. rewrite Hk; [done|]. by intros ->. }
  assert (arrivals_unique (concat ls)) as Huls.
  { rewrite Hc. eapply arrivals_incl; [exact Hu|]. intros x Hx.
    rewrite <-(concat_perm _ _ (fmap_Permutation R _ _ Hsplit)), fmap_app, concat_app. set_solver. }
  eapply triple_bind; [exact Hopen|]. intros srcs'. triple_fact. intros ->.
  eapply triple_bind.
  { eapply triple_conseq; [apply (delivers_merge run_sink any_files (wrote p fs)); [done|intros; apply wrote_push|exact H2|exact Hls|exact Huls]|
      by intros ? ->|intros r fs' X; exact X]. }
  rewrite Hc. intros [st out']. cbn [fst snd]. clear out Hw Hopen H2 Hls Huls Hc.
  apply (triple_pure _ _ _ _ (st = add_stats stats_default (length (concat (R <$> batch))) (length (merged (concat (R <$> batch))))));
    [by intros ? [_ ?]|]. intros ->.
  apply (triple_bind _ _ (fun _ fs' => wrote p fs (merged (concat (R <$> batch))) out' fs')).
  { eapply triple_bind; [idle; done|]. intros []. apply triple_ret; [done|]. by intros ? [? _]. }
  intros _. apply (triple_bind _ _ (fun _ fs' => fs' !! p = Some (run_bytes (merged (concat (R <$> batch)))) /\
    forall q, q ∉ batch -> q <> p -> fs' !! q = fs !! q)).
  - set (P := fun fs' : Files => fs' !! p = Some (run_bytes (merged (concat (R <$> batch)))) /\
      forall q, q ∉ batch -> q <> p -> fs' !! q = fs !! q).
    apply (triple_conseq _ P _ _ (fun _ => P)); [|intros fs' (_ & Hp & Hk); split; [done|]|done].
    + apply (triple_local (fun q => q ∈ batch)); [|done|].
      * apply local_each. intros q Hq. unfold remove_quietly. by local_solve.
      * intros fa fb Hk [Hp Ho]. split; [by rewrite Hk|]. intros q Hq Hn. by rewrite Hk, Ho.
    + intros q _ Hn. apply Hk. congruence.
  - intros []. apply triple_ret; [done|]. intros fs' [Hp Hs]. cbn [fst snd]. fold others. split.
    + intros q [Hq|Hq]%elem_of_app; [left; rewrite <-Hsplit; set_solver|right; exists n].
      by apply list_elem_of_singleton in Hq.
    + exists (with_run next_run R n batch). split; [by apply merge_rearranges|].
      rewrite concat_with_run by done. rewrite <-(zlen_perm _ _ (concat_perm _ _ (fmap_Permutation R _ _ Hsplit))).
      rewrite fmap_app, concat_app, !zlen_app. unfold add_stats. cbn. unfold zlen. lia.
Qed.

Lemma faulty_premerge_loop fuel fs runs_ (R : path -> list Head) in_memory fan_in n dedup :
  numbered next_run runs_ n -> (forall p, p ∈ runs_ -> run_file fs p (R p)) -> arrivals_unique (concat (R <$> runs_)) ->
  triple (fun fs' => fs' = fs) (premerge_loop next_run fuel runs_ in_memory fan_in n dedup) any_files (fun r fs' =>
    exists R', rearranged next_run fs fs' runs_ R n r.1.1 R' r.1.2 /\
      r.2 = dedup + (zlen (concat (R <$> runs_)) - zlen (concat (R' <$> r.1.1)))).
Proof.
  revert fs runs_ R n dedup. induction fuel as [|fuel IH]; intros fs runs_ R n dedup Hnum HR Hu; cbn [premerge_loop];
    destruct (_ <? _)%nat.
  1: by apply triple_throw.
  1,3: apply triple_ret; [done|]; intros fs' ->; exists R; cbn; (split; [by apply rearranged_refl|lia]).
  cbv zeta. eapply triple_bind; [by apply (faulty_premerge fs runs_ R)|]. intros [runs1 d].
  cbn [fst snd]. triple_fact. intros Hold. apply triple_at. intros fs1 (R1 & Hra & Hd).
  eapply triple_conseq; [apply (IH fs1 runs1 R1); apply Hra|done|].
  intros [[runs' n'] d'] fs' (R' & Hra' & Hd'). cbn [fst snd] in *. exists R'. split; [|lia].
  by eapply rearranged_trans.
Qed.

Lemma faulty_merge_bounded {A : Type} (I : list Head -> A -> Files -> Prop) (sink : Head -> A -> io A)
    fs runs_ (R : path -> list Head) memory lm fan_in n a :
  (forall l h a, triple (I l a) (sink h a) any_files (I (l ++ [h]))) ->
  (forall fs1, (forall q, ~ old_or_new runs_ n q -> fs1 !! q = fs !! q) -> I [] a fs1) ->
  numbered next_run runs_ n -> (forall p, p ∈ runs_ -> run_file fs p (R p)) ->
  memory_streams memory lm -> sorted_heads lm ->
  arrivals_unique (concat (R <$> runs_) ++ lm) ->
  let all := concat (R <$> runs_) ++ lm in
  triple (fun fs' => fs' = fs) (merge_bounded next_run sink runs_ memory fan_in n a) any_files (fun r fs' =>
    I (merged all) r.2 fs' /\ (n <= r.1.2)%nat /\
    r.1.1 = add_stats stats_default (length all) (length (merged all))).
Proof.
  intros Hsink HI Hnum HR Hmem Hsm Hu all. unfold merge_bounded. cbv zeta.
  eapply triple_bind; [apply (faulty_premerge_loop _ fs runs_ R); [done|done|eapply arrivals_incl; [exact Hu|set_solver]]|].
  intros [[runs1 n1] d]. cbn [fst snd]. apply triple_at. intros fs1 (R1 & [Hnum1 Hn HR1 Hu1 Hm1 Hin Hsame] & Hd).
  destruct (reads_open_runs fs1 runs1 R1 HR1) as (srcs & ls & Hopen & H2 & Hls & Hc).
  eapply triple_bind; [exact Hopen|]. intros srcs'. triple_fact. intros ->. fold (memory_list memory).
  destruct (memory_list_streams memory lm Hmem Hsm) as (lsm & Hm2 & Hsm2 & Hcm).
  assert (concat (ls ++ lsm) = concat (R1 <$> runs1) ++ lm) as Ecat by (by rewrite concat_app, Hc, Hcm).
  assert (arrivals_unique (concat (R1 <$> runs1) ++ lm)) as Hu2.
  { eapply arrivals_incl; [exact Hu|]. intros x [Hx|Hx]%elem_of_app; [apply Hin in Hx|]; set_solver. }
  pose proof (merged_runs_memory _ _ lm Hu Hu2 Hm1) as Emerged. fold all in Emerged.
  eapply triple_bind.
  { eapply triple_conseq; [apply (delivers_merge sink any_files I (fun _ _ _ _ => Logic.I) Hsink (srcs ++ memory_list memory) (ls ++ lsm));
      [by apply Forall2_app|by apply Forall_app|by rewrite Ecat]| |intros r fs' X; exact X].
    intros ? ->. apply HI. intros q Hq. apply Hsame; [intros H1; apply Hq; by left|intros m Hm ->; apply Hq; right; eauto]. }
  rewrite Ecat, Emerged. intros [st a']. cbn [fst snd]. apply triple_ret; [done|].
  intros fs' [Hi ->]. cbn [fst snd]. split_and!; [done|done|]. unfold add_stats, all. cbn. f_equal.
  rewrite !length_app. unfold zlen in Hd. lia.
Qed.
End bounded.

(** ** Spilling *)

Lemma wrote_run p fs arena es : forall l w, triple (wrote p fs l w) (write_run arena w es) any_files
  (wrote p fs (l ++ (entry_head arena <$> es))).
Proof.
  induction es as [|e es IH]; intros l w; cbn [write_run].
  - apply triple_ret; [done|]. intros fs' Hw. by rewrite app_nil_r.
  - eapply triple_bind; [apply (wrote_push p fs l (entry_head arena e))|]. intros w'.
    eapply triple_conseq; [apply IH|done|]. intros w2 fs'. by rewrite <-app_assoc.
Qed.

Section spill.
Context (new_path : nat -> path) `{!Inj eq eq new_path}.

Lemma faulty_spill_groups arena ranges n fs :
  triple (fun fs' => fs' = fs) (spill_groups new_path arena ranges n) any_files (fun r fs' =>
    r = (imap (fun i r => (r.1, new_path (n + i)%nat)) ranges, (n + length ranges)%nat) /\
    (forall i key es, ranges !! i = Some (key, es) ->
       fs' !! new_path (n + i)%nat = Some (run_bytes (entry_head arena <$> es))) /\
    (forall q, (forall i, (i < length ranges)%nat -> q <> new_path (n + i)%nat) -> fs' !! q = fs !! q)).
Proof.
  revert n fs. induction ranges as [|[key es] ranges IH]; intros n fs; cbn [spill_groups].
  { apply triple_ret; [done|]. intros fs' ->. by rewrite Nat.add_0_r. }
  set (p := new_path n). set (data := run_bytes (entry_head arena <$> es)).
  eapply triple_bind; [apply wrote_create|]. intros w. eapply triple_bind; [apply wrote_run|]. intros w'. cbn [app].
  apply (triple_bind _ _ (fun _ fs' => fs' !! p = Some data /\ keeps (eq p) fs fs')).
  { eapply triple_bind; [idle; done|]. intros []. apply triple_ret; [done|]. by intros ? (_ & ? & ?). }
  intros _. apply triple_at. intros fs1 [Hp Hk]. eapply triple_bind; [apply IH|]. intros [out n'].
  triple_fact. intros [= -> ->]. apply triple_ret; [done|]. intros fs' [Hfiles Hsame]. split_and!.
  - cbn [imap length]. f_equal; [|lia]. rewrite Nat.add_0_r. f_equal. apply imap_ext. intros i r _. cbn. do 2 f_equal. lia.
  - intros [|i] key' es' Hi; cbn in Hi.
    + injection Hi as <- <-. rewrite Nat.add_0_r. fold p. rewrite Hsame; [done|].
      intros i _ E. apply (inj new_path) in E. lia.
    + replace (n + S i)%nat with (n + 1 + i)%nat by lia. by eapply Hfiles.
  - intros q Hq. rewrite Hsame, Hk; [done| |].
    + intros <-. apply (Hq 0%nat); [cbn; lia|]. by rewrite Nat.add_0_r.
    + intros i Hi. replace (n + 1 + i)%nat with (n + S i)%nat by lia. apply Hq. cbn. lia.
Qed.

Lemma faulty_spill b n fs :
  batch_wf b -> arrivals_distinct (content b) -> Forall (fun p => head_ok p.2) (content b) ->
  triple (fun fs' => fs' = fs) (spill new_path b n) any_files (fun r fs' =>
    spilled new_path b n fs fs' r.1.1 r.1.2 r.2).
Proof.
  intros Hwf Hd Hok. unfold spill. cbv zeta. eapply triple_bind; [apply faulty_spill_groups|].
  intros [out n']. triple_fact. intros [= -> ->]. apply triple_ret; [done|].
  intros fs' [Hf Hs]. by apply spilled_of.
Qed.
End spill.
