(* ===== verification/Total.v ===== *)
(** * Total: computations that return when no call fails

    [triple] says what holds when a computation returns; [total] says that without
    faults it does. The two compose: the state a step starts from is what the triple of
    the step before gives. *)

From Stdlib Require Import ZArith Lia.
From Stdlib Require Import Strings.Byte.
From S2P Require Import Prelude Record Disk Wal MergeProofs Columns Planner Decode MergeFaults.
Open Scope Z_scope.

(** Without faults, from files in [P], [m] returns a value. *)
Definition total {A : Type} (P : Files -> Prop) (m : io A) : Prop :=
  forall fs, P fs -> exists fs' a, runs m fs fs' (Ret a).

Lemma total_ret {A : Type} (P : Files -> Prop) (a : A) : total P (mret a).
Proof. intros fs _. by exists fs, a. Qed.

Lemma total_bind {A B : Type} (P : Files -> Prop) (Q : A -> Files -> Prop) (m : io A) (k : A -> io B) :
  total P m -> triple P m any_files Q -> (forall a, total (Q a) (k a)) -> total P (m ≫= k).
Proof.
  intros Hm Ht Hk fs Hfs. destruct (Hm fs Hfs) as (fs1 & a & Hr). pose proof (Ht (mkWorld fs []) Hfs) as [_ Hq].
  unfold runs in Hr. rewrite Hr in Hq. destruct (Hk a fs1 Hq) as (fs2 & b & Hr2). exists fs2, b. by eapply runs_bind.
Qed.

Lemma total_conseq {A : Type} (P P' : Files -> Prop) (m : io A) : (forall fs, P fs -> P' fs) -> total P' m -> total P m.
Proof. intros HP Hm fs Hfs. by apply Hm, HP. Qed.

Lemma total_at {A : Type} (P : Files -> Prop) (m : io A) :
  (forall fs, P fs -> total (fun fs' => fs' = fs) m) -> total P m.
Proof. intros Hm fs Hfs. by apply (Hm fs Hfs). Qed.

Lemma total_runs {A : Type} (P : Files -> Prop) (m : io A) :
  (forall fs, P fs -> exists fs' a, runs m fs fs' (Ret a)) -> total P m.
Proof. done. Qed.

(** A call whose error is ignored. *)
Lemma total_call {R : Type} (P : Files -> Prop) (c : call R) : total P (Call c).
Proof. intros fs _. eexists _, _. apply runs_call. Qed.

Lemma total_try_idle (P : Files -> Prop) (c : call (result IoError unit)) `{!Idle c} : total P (try (Call c)).
Proof. intros fs _. exists fs, tt. apply runs_try, runs_idle, _. Qed.

Lemma total_try_write (P : Files -> Prop) p c : total P (try (write_file p c)).
Proof. intros fs _. by exists (<[p := c]> fs), tt. Qed.

(** Sequencing when what follows needs nothing of the files. *)
Lemma total_any {A B : Type} (P : Files -> Prop) (m : io A) (k : A -> io B) :
  total P m -> (forall a, total any_files (k a)) -> total P (m ≫= k).
Proof.
  intros Hm Hk fs Hfs. destruct (Hm fs Hfs) as (fs1 & a & Hr). destruct (Hk a fs1 I) as (fs2 & b & Hr2).
  exists fs2, b. by eapply runs_bind.
Qed.

Lemma total_each_any {A : Type} (f : A -> io unit) (l : list A) : (forall x, total any_files (f x)) -> total any_files (io_each f l).
Proof. intros Hf. induction l as [|x l IH]; cbn; [apply total_ret|]. by apply total_any. Qed.

(** A computation that never throws returns. *)
Lemma total_returns {A : Type} (P : Files -> Prop) (m : io A) (Q : A -> Prop) : returns m Q -> total P m.
Proof.
  intros Hr fs _. specialize (Hr (mkWorld fs [])). destruct (exec_steady m (mkWorld fs []) eq_refl) as [Hw Hn].
  unfold runs. destruct (m (mkWorld fs [])) as [[fs' s] [a| |]]; [|done|done]. cbn in Hw. subst s. by exists fs', a.
Qed.
