(* ===== verification/FlushRows.v ===== *)
(** * FlushRows: the records a flush holds between its phases

    The first phase keeps the records of the decoded segments in sorted runs on disk and
    in the batch in memory. Whatever errors occur and whenever it spills, merging the
    runs and the batch of a group gives the sorted records of the group, each row
    once. *)

From Stdlib Require Import ZArith Lia.
From Stdlib Require Import Strings.Byte.
From S2P Require Import Prelude Text Record Codec CodecProofs CodecTheorems Disk Wal Reader Recovery Heap Merge MergeProofs Sources Bounded BatchProofs Spill Config Manifest Columns Planner Decode Local MergeFaults FlushLocal.
Open Scope Z_scope.

Section heads.
Context `{Crc32} (m : Manifest).

(** ** The records of a segment *)

(** A segment a flush can read. *)
Record readable (fs : Files) (id : Z) (buf : bytes) : Prop := {
  rd_id : 0 <= id < u64_lim;
  rd_file : fs !! segment_path id = Some buf;
  rd_header : good_header buf;
  rd_small : small_frames (records buf);
  rd_len : zlen buf < u64_lim
}.

(** The records of the segments [ids], in log order. *)
Definition flush_heads (fs : Files) (ids : list Z) : list (GroupKey * Head) :=
  concat ((fun id => segment_heads m id (default [] (fs !! segment_path id))) <$> ids).

Lemma frame_head_Some id max at_ f p : valid_frame max f -> zlen f < u32_lim ->
  frame_head m id max at_ f = Some p ->
  h_frame p.2 = f /\ h_arrival p.2 = (id, at_) /\
  verified_sort_key f = Ok (h_ts p.2, h_id p.2, zlen f) /\ 0 <= p.1.2 < u32_lim.
Proof.
  intros Hv Hf. unfold frame_head. destruct (frame_item _ _ _ _) as [[[fr values] extra]|] eqn:E; [|done].
  apply (frame_item_Ok m) in E as (n & _ & _ & _ & He & _ & _ & _ & _ & Hs);
    [|done|unfold usize_max, usize_lim; unfold u32_lim in Hf; lia].
  destruct (matches_schema _ _); [|done]. intros [= <-]. done.
Qed.

(** Frames further on arrive later. *)
Lemma frame_heads_arrivals id max at_ fs : Forall (valid_frame max) fs -> small_frames fs ->
  Forall (fun p => (h_arrival p.2).1 = id /\ at_ <= (h_arrival p.2).2 < at_ + zlen (concat fs) /\
    verified_sort_key (h_frame p.2) = Ok (h_ts p.2, h_id p.2, zlen (h_frame p.2)) /\ 0 <= p.1.2 < u32_lim)
    (frame_heads m id max at_ fs) /\
  arrivals_distinct (frame_heads m id max at_ fs).
Proof.
  intros Hv. revert at_. induction Hv as [|f fs Hf _ IH]; intros at_ Hs; [by split; constructor|].
  apply Forall_cons in Hs as [Hsf Hs]. destruct (IH (at_ + zlen f) Hs) as [Hr Hd].
  pose proof (valid_frame_len _ _ Hf) as Hl. pose proof (zlen_nonneg (concat fs)).
  cbn [frame_heads concat]. rewrite zlen_app.
  destruct (frame_head m id max at_ f) as [p|] eqn:Ep; cbn [option_list app].
  - apply frame_head_Some in Ep as (Ef & Ea & Es & He); [|done|done]. rewrite <-Ef in Es. split.
    + constructor; [cbn; rewrite Ea; cbn; split_and!; [done|lia|lia|done|lia|lia]|].
      eapply Forall_impl; [exact Hr|]. cbn. intros q (? & ? & ? & ?). split_and!; [done|lia|lia|done|lia|lia].
    + unfold arrivals_distinct. cbn [fmap list_fmap]. apply NoDup_cons. split; [|done]. rewrite Ea.
      intros (q & E & Hq)%list_elem_of_fmap. rewrite Forall_forall in Hr. destruct (Hr q Hq) as (_ & Hle & _).
      rewrite <-E in Hle. cbn in Hle. lia.
  - split; [|done]. eapply Forall_impl; [exact Hr|]. cbn. intros q (? & ? & ? & ?). split_and!; [done|lia|lia|done|lia|lia].
Qed.

Lemma segment_heads_ok fs id buf : readable fs id buf ->
  Forall (fun p => (h_arrival p.2).1 = id /\ head_ok p.2 /\ 0 <= p.1.2 < u32_lim) (segment_heads m id buf) /\
  arrivals_distinct (segment_heads m id buf).
Proof.
  intros [Hid _ Hg Hs Hl]. destruct (content_split buf Hg) as (Eb & _ & Hv & _).
  destruct (frame_heads_arrivals id (zlen buf) SEGMENT_HEADER_BYTES (records buf) Hv Hs) as [Hr Hd].
  split; [|done]. eapply Forall_impl; [exact Hr|]. intros p (Ei & Ho & Hk & He). split_and!; [done| |lia|lia].
  split_and!; [rewrite Ei; lia|rewrite Ei; lia| | |done]; [unfold SEGMENT_HEADER_BYTES in Ho; lia|].
  apply (f_equal zlen) in Eb. pose proof (good_header_len buf Hg).
  rewrite !zlen_app, zlen_take in Eb. pose proof (zlen_nonneg (torn buf)). lia.
Qed.

Lemma flush_heads_ok fs ids : Forall (fun id => exists buf, readable fs id buf) ids -> NoDup ids ->
  Forall (fun p => (h_arrival p.2).1 ∈ ids /\ head_ok p.2 /\ 0 <= p.1.2 < u32_lim) (flush_heads fs ids) /\
  arrivals_distinct (flush_heads fs ids).
Proof.
  unfold flush_heads. induction 1 as [|id ids [buf Hr] _ IH]; [by split; constructor|]. intros [Hn Hd]%NoDup_cons.
  destruct (IH Hd) as [Hok Hda]. destruct (segment_heads_ok fs id buf Hr) as [Hok1 Hd1]. cbn [fmap list_fmap concat].
  rewrite (rd_file _ _ _ Hr). change (default [] (Some buf)) with buf. split.
  - apply Forall_app. split; (eapply Forall_impl; [eassumption|]; cbn); intros p [Hp ?]; (split; [|done]); set_solver.
  - unfold arrivals_distinct. rewrite fmap_app. apply NoDup_app. split_and!; [done| |done].
    intros a Ha Ha'. apply list_elem_of_fmap in Ha as (p & -> & Hp), Ha' as (q & E & Hq).
    rewrite Forall_forall in Hok, Hok1. destruct (Hok1 p Hp) as [E1 _], (Hok q Hq) as [E2 _].
    apply Hn. rewrite <-E1, E. done.
Qed.
End heads.

(** ** What phase 1 keeps *)

(** What the runs and the batch hold of a group. *)
Definition stock (groups : gmap GroupKey (list path)) (R : path -> list Head) (b : Batch) (g : GroupKey) : list Head :=
  concat (R <$> default [] (groups !! g)) ++ of_group g (content b).

(** [R] says what is in each run; [all] are the records decoded so far. *)
Record stocked (all : list (GroupKey * Head)) (groups : gmap GroupKey (list path)) (n : nat) (b : Batch)
    (R : path -> list Head) (fs : Files) : Prop := {
  sk_runs : forall g ps p, groups !! g = Some ps -> p ∈ ps -> Bounded.run_file fs p (R p);
  sk_numbered : forall g ps, groups !! g = Some ps -> numbered next_path ps n;
  sk_apart : forall g g' ps ps' p, groups !! g = Some ps -> groups !! g' = Some ps' -> p ∈ ps -> p ∈ ps' -> g = g';
  sk_batch : batch_wf b;
  sk_distinct : arrivals_distinct (content b);
  sk_merged : forall g, merged (stock groups R b g) = merged (of_group g all);
  sk_incl : forall g x, x ∈ stock groups R b g -> x ∈ of_group g all;
  sk_groups : forall g, is_Some (groups !! g) -> of_group g all <> []
}.

Lemma stocked_start n fs : stocked [] ∅ n batch_default (fun _ => []) fs.
Proof.
  split; try done.
  - split; constructor.
  - constructor.
  - intros g [x Hx]. by rewrite lookup_empty in Hx.
Qed.

Lemma stock_unique all groups n b R fs g :
  stocked all groups n b R fs -> arrivals_distinct all -> arrivals_unique (stock groups R b g).
Proof.
  intros Hs Hd. eapply arrivals_incl; [by apply (arrivals_distinct_group all g)|]. apply (sk_incl _ _ _ _ _ _ Hs).
Qed.

Lemma arrivals_distinct_prefix l l' : arrivals_distinct (l ++ l') -> arrivals_distinct l.
Proof. unfold arrivals_distinct. rewrite fmap_app. by intros [? _]%NoDup_app. Qed.

Lemma stocked_files all groups n b R fs fs' : (forall q, run_file q -> fs' !! q = fs !! q) ->
  stocked all groups n b R fs -> stocked all groups n b R fs'.
Proof.
  intros Hk [H1' H2' H3 H4 H4' H5 H6 H7]. split; [|done..]. intros g ps p Hg Hp.
  destruct (H1' g ps p Hg Hp) as [Hb Ho Hsort]. split; [|done..]. rewrite Hk; [done|].
  destruct (H2' g ps Hg) as [_ Hn]. destruct (Hn p Hp) as (m & _ & ->). apply run_file_next.
Qed.

Lemma stocked_content all groups n b R fs p : stocked all groups n b R fs -> p ∈ content b -> p ∈ all.
Proof.
  intros Hs Hp. destruct p as [g h]. apply elem_of_group, (sk_incl _ _ _ _ _ _ Hs g).
  apply elem_of_app. right. by apply elem_of_group.
Qed.

(** Merging what is already merged. *)
Lemma merged_absorb_r x y : arrivals_unique (x ++ y) -> merged (x ++ merged y) = merged (x ++ y).
Proof.
  intros Hu. assert (arrivals_unique (x ++ merged y)) as Hu3.
  { eapply arrivals_incl; [exact Hu|]. intros z [Hz|Hz]%elem_of_app; [set_solver|].
    apply merged_incl in Hz; [set_solver|]. eapply arrivals_incl; [exact Hu|set_solver]. }
  unfold merged. rewrite (dedup_sort_perm _ _ _ _ Hu3 (Permutation_app_comm _ _)).
  rewrite (dedup_sort_perm _ _ _ _ Hu (Permutation_app_comm _ _)). apply dedup_sort_absorb.
  eapply full_inj_perm; [apply Permutation_app_comm|exact Hu].
Qed.

(** Decoded records are added to the batch. *)
Lemma stocked_decode all hs groups n b b' R fs :
  stocked all groups n b R fs -> arrivals_distinct (all ++ hs) -> batch_wf b' ->
  content b' = content b ++ hs -> stocked (all ++ hs) groups n b' R fs.
Proof.
  intros Hs Hd Hwf Hc. pose proof (arrivals_distinct_prefix _ _ Hd) as Hda.
  assert (forall g, stock groups R b' g = stock groups R b g ++ of_group g hs) as Est.
  { intros g. unfold stock. by rewrite Hc, of_group_app, app_assoc. }
  assert (forall g x, x ∈ stock groups R b' g -> x ∈ of_group g (all ++ hs)) as Hin.
  { intros g x. rewrite Est, of_group_app, !elem_of_app. intros [Hx|Hx]; [left; by eapply sk_incl|by right]. }
  pose proof (fun g => arrivals_incl _ _ (arrivals_distinct_group _ g Hd) (Hin g)) as Hu.
  pose proof Hs as [H1' H2' H3 _ H4 H5 H6 H7]. split; [done..| | |done|].
  - rewrite Hc. unfold arrivals_distinct in *. rewrite fmap_app in Hd |- *. apply NoDup_app in Hd as (_ & Hdis & Hdh).
    apply NoDup_app. split_and!; [done| |done]. intros a (p & -> & Hp)%list_elem_of_fmap. apply Hdis.
    apply list_elem_of_fmap. exists p. split; [done|]. by eapply stocked_content.
  - intros g. rewrite Est, of_group_app. apply merged_runs_memory; [|by rewrite <-Est|apply H5].
    rewrite <-of_group_app. by apply arrivals_distinct_group.
  - intros g Hg. rewrite of_group_app. intros [E _]%app_eq_nil. by apply (H7 g Hg).
Qed.

(** The lists of runs after a spill. *)
Lemma add_runs_lookup out groups g : NoDup out.*1 ->
  (forall p, (g, p) ∈ out -> foldl add_run groups out !! g = Some (default [] (groups !! g) ++ [p])) /\
  (g ∉ out.*1 -> foldl add_run groups out !! g = groups !! g).
Proof.
  revert groups. induction out as [|[k p] out IH]; intros groups; [split; [by intros p ?%elem_of_nil|done]|].
  cbn [fmap list_fmap fst foldl]. intros [Hn Hd]%NoDup_cons.
  destruct (IH (add_run groups (k, p)) Hd) as [IH1 IH2]. split.
  - intros q [[= <- <-]|Hq]%elem_of_cons.
    + rewrite IH2 by done. unfold add_run. cbn [fst snd]. by rewrite lookup_insert_eq.
    + rewrite (IH1 q Hq). unfold add_run. cbn [fst snd]. rewrite lookup_insert_ne; [done|].
      intros <-. apply Hn. apply list_elem_of_fmap. by exists (k, q).
  - intros [Hne Hg]%not_elem_of_cons. rewrite IH2 by done. unfold add_run. cbn [fst snd]. by rewrite lookup_insert_ne.
Qed.

(** What the runs hold after a spill. *)
Definition spilled_runs (R : path -> list Head) (b : Batch) (out : list (GroupKey * path)) (p : path) : list Head :=
  match list_find (fun r => r.2 = p) out with
  | Some (_, r) => merged (of_group r.1 (content b))
  | None => R p
  end.

Lemma spilled_runs_new R b out g p : NoDup out.*2 -> (g, p) ∈ out -> spilled_runs R b out p = merged (of_group g (content b)).
Proof.
  intros Hn Hin. unfold spilled_runs. destruct (list_find _ out) as [[i [g' p']]|] eqn:E.
  - apply list_find_Some in E as (Hl & Ep & _). cbn in Ep. subst p'. apply list_elem_of_lookup_2 in Hl.
    by pose proof (NoDup_fmap_eq snd out _ _ Hn Hin Hl eq_refl) as [= <-].
  - apply list_find_None in E. rewrite Forall_forall in E. by destruct (E _ Hin).
Qed.

Lemma spilled_runs_old R b out p : p ∉ out.*2 -> spilled_runs R b out p = R p.
Proof.
  intros Hp. unfold spilled_runs. destruct (list_find _ out) as [[i r]|] eqn:E; [|done].
  apply list_find_Some in E as (Hl & <- & _). destruct Hp. apply list_elem_of_fmap.
  exists r. split; [done|]. by eapply list_elem_of_lookup_2.
Qed.

Section spill.
Context (all : list (GroupKey * Head)) (groups : gmap GroupKey (list path)) (n n' : nat) (b b' : Batch)
  (R : path -> list Head) (fs fs' : Files) (out : list (GroupKey * path)).
Context (Hs : stocked all groups n b R fs) (Hd : arrivals_distinct all)
  (Hsp : spilled next_path b n fs fs' out b' n').

Let groups' := foldl add_run groups out.
Let R' := spilled_runs R b out.

Lemma spill_paths : NoDup out.*2 /\ forall p, p ∈ out.*2 -> exists m, (n <= m < n')%nat /\ p = next_path m.
Proof.
  pose proof (sp_paths _ _ _ _ _ _ _ _ Hsp) as E. pose proof (Spill.sp_next _ _ _ _ _ _ _ _ Hsp). rewrite E. split.
  - apply NoDup_fmap_2; [apply _|apply NoDup_seq].
  - intros p (m & -> & Hm%elem_of_seq)%list_elem_of_fmap. exists m. split; [lia|done].
Qed.

(** A run of the group is an old one or the new one. *)
Lemma spill_groups_cases g ps : groups' !! g = Some ps ->
  (g ∉ out.*1 /\ groups !! g = Some ps) \/
  exists p, (g, p) ∈ out /\ ps = default [] (groups !! g) ++ [p].
Proof.
  intros Hg. destruct (add_runs_lookup out groups g (sp_nodup _ _ _ _ _ _ _ _ Hsp)) as [H1' H2'].
  destruct (decide (g ∈ out.*1)) as [([k p] & E & Hp)%list_elem_of_fmap|Hn].
  - cbn in E. subst k. right. exists p. split; [done|]. unfold groups' in Hg. rewrite (H1' p Hp) in Hg. by injection Hg.
  - left. split; [done|]. unfold groups' in Hg. by rewrite H2' in Hg.
Qed.

Lemma old_run_fresh g ps p : groups !! g = Some ps -> p ∈ ps -> p ∉ out.*2.
Proof.
  intros Hg Hp Hin. destruct (sk_numbered _ _ _ _ _ _ Hs g ps Hg) as [_ Hn]. destruct (Hn p Hp) as (i & Hi & ->).
  destruct spill_paths as [_ Hr]. destruct (Hr _ Hin) as (j & Hj & E). apply (inj next_path) in E. lia.
Qed.

Lemma spill_stock g : exists extra, stock groups' R' b' g = concat (R <$> default [] (groups !! g)) ++ extra /\
  extra = merged (of_group g (content b)).
Proof.
  destruct (add_runs_lookup out groups g (sp_nodup _ _ _ _ _ _ _ _ Hsp)) as [H1' H2'].
  destruct (sp_empty _ _ _ _ _ _ _ _ Hsp) as [_ Ec]. unfold stock. rewrite Ec. cbn [of_group filter list_filter fmap list_fmap].
  eexists. split; [|reflexivity].
  assert (R' <$> default [] (groups !! g) = R <$> default [] (groups !! g)) as Eold.
  { apply list_fmap_ext. intros i q Hq. apply spilled_runs_old. destruct (groups !! g) as [ps|] eqn:Eg; [|done].
    eapply old_run_fresh; [done|by eapply list_elem_of_lookup_2]. }
  destruct (decide (g ∈ out.*1)) as [([k p] & E & Hp)%list_elem_of_fmap|Hn].
  - cbn in E. subst k. unfold groups'. rewrite (H1' p Hp). change (default [] (Some ?x)) with x.
    rewrite fmap_app, concat_app, Eold. cbn. rewrite !app_nil_r. f_equal.
    apply spilled_runs_new; [apply spill_paths|done].
  - unfold groups'. rewrite (H2' Hn), Eold. destruct (decide (of_group g (content b) = [])) as [->|Hne]; [by rewrite !app_nil_r|].
    by destruct (Hn (sp_all _ _ _ _ _ _ _ _ Hsp g Hne)).
Qed.

Lemma in_snd g p : (g, p) ∈ out -> p ∈ out.*2.
Proof. intros Hp. apply list_elem_of_fmap. by exists (g, p). Qed.

(** A run of a group is an old one of it, or the new one. *)
Lemma spill_run_cases g ps p : groups' !! g = Some ps -> p ∈ ps ->
  (exists ps0, groups !! g = Some ps0 /\ p ∈ ps0) \/ (g, p) ∈ out.
Proof.
  intros Hg Hp. destruct (spill_groups_cases g ps Hg) as [[_ Hg0]|(q & Hq & ->)]; [left; by exists ps|].
  apply elem_of_app in Hp as [Hp|Hp]; [left|right; by apply list_elem_of_singleton in Hp as ->].
  destruct (groups !! g) as [ps0|]; [by exists ps0|by apply elem_of_nil in Hp].
Qed.

Lemma spill_runs g ps p : groups' !! g = Some ps -> p ∈ ps -> Bounded.run_file fs' p (R' p).
Proof.
  intros Hg Hp. destruct (spill_run_cases g ps p Hg Hp) as [(ps0 & Hg0 & Hp0)|Hq].
  - pose proof (old_run_fresh g ps0 p Hg0 Hp0) as Hf. unfold R'. rewrite spilled_runs_old by done.
    destruct (sk_runs _ _ _ _ _ _ Hs g ps0 p Hg0 Hp0) as [Hb Ho Hso]. split; [|done..].
    by rewrite (sp_same _ _ _ _ _ _ _ _ Hsp).
  - unfold R'. rewrite (spilled_runs_new R b out g p) by (done || by apply spill_paths).
    by apply (sp_run _ _ _ _ _ _ _ _ Hsp).
Qed.

Lemma spill_numbered g ps : groups' !! g = Some ps -> numbered next_path ps n'.
Proof.
  intros Hg. destruct spill_paths as [_ Hpaths]. pose proof (Spill.sp_next _ _ _ _ _ _ _ _ Hsp) as Hn'.
  assert (forall ps0, groups !! g = Some ps0 -> numbered next_path ps0 n') as Hold.
  { intros ps0 Hg0. destruct (sk_numbered _ _ _ _ _ _ Hs g ps0 Hg0) as [Hnd Hn]. split; [done|].
    intros p Hp. destruct (Hn p Hp) as (i & ? & ->). exists i. split; [lia|done]. }
  destruct (spill_groups_cases g ps Hg) as [[_ Hg0]|(q & Hq & ->)]; [by apply Hold|].
  destruct (Hpaths q (in_snd _ _ Hq)) as (j & Hj & Eq).
  assert (numbered next_path (default [] (groups !! g)) n') as [Hnd Hn].
  { destruct (groups !! g) as [ps0|]; [by apply Hold|]. split; [constructor|by intros p ?%elem_of_nil]. }
  split.
  - apply NoDup_app. split_and!; [done| |apply NoDup_singleton]. intros p Hp ->%list_elem_of_singleton.
    destruct (groups !! g) as [ps0|] eqn:Eg; [|by apply elem_of_nil in Hp].
    by apply (old_run_fresh g ps0 q Eg Hp), (in_snd g).
  - intros p [Hp|Hp]%elem_of_app; [by apply Hn|]. apply list_elem_of_singleton in Hp as ->. exists j. split; [lia|done].
Qed.

Lemma spill_apart g g' ps ps' p : groups' !! g = Some ps -> groups' !! g' = Some ps' -> p ∈ ps -> p ∈ ps' -> g = g'.
Proof.
  intros Hg Hg' Hp Hp'. destruct spill_paths as [Hnd2 _].
  destruct (spill_run_cases g ps p Hg Hp) as [(p0 & Hg0 & Hp0)|Ho], (spill_run_cases g' ps' p Hg' Hp') as [(p0' & Hg0' & Hp0')|Ho'].
  - by eapply (sk_apart _ _ _ _ _ _ Hs).
  - by destruct (old_run_fresh g p0 p Hg0 Hp0 (in_snd _ _ Ho')).
  - by destruct (old_run_fresh g' p0' p Hg0' Hp0' (in_snd _ _ Ho)).
  - by pose proof (NoDup_fmap_eq snd out _ _ Hnd2 Ho Ho' eq_refl) as [= <-].
Qed.

Lemma stocked_spill : stocked all groups' n' b' R' fs'.
Proof.
  pose proof (fun g => stock_unique _ _ _ _ _ _ g Hs Hd) as Hu.
  split; [exact spill_runs|exact spill_numbered|exact spill_apart|apply (sp_empty _ _ _ _ _ _ _ _ Hsp)|..].
  - destruct (sp_empty _ _ _ _ _ _ _ _ Hsp) as [_ ->]. constructor.
  - intros g. destruct (spill_stock g) as (extra & -> & ->). rewrite <-(sk_merged _ _ _ _ _ _ Hs g).
    apply merged_absorb_r, Hu.
  - intros g z. destruct (spill_stock g) as (extra & -> & ->). intros Hz. apply (sk_incl _ _ _ _ _ _ Hs g).
    unfold stock. apply elem_of_app in Hz as [Hz|Hz]; [set_solver|]. apply elem_of_app. right.
    apply merged_incl in Hz; [done|]. eapply arrivals_incl; [exact (Hu g)|]. unfold stock. set_solver.
  - intros g [ps Hg]. destruct (spill_groups_cases g ps Hg) as [[_ Hg0]|(q & Hq & _)].
    + apply (sk_groups _ _ _ _ _ _ Hs). by exists ps.
    + assert (g ∈ out.*1) as Ho by (apply list_elem_of_fmap; by exists (g, q)).
      pose proof (sp_occurs _ _ _ _ _ _ _ _ Hsp g Ho) as Hne. destruct (of_group g (content b)) as [|h l] eqn:Ec; [done|].
      intros E. pose proof (sk_incl _ _ _ _ _ _ Hs g h) as Hi. rewrite E in Hi.
      assert (h ∈ ([] : list Head)) as []%elem_of_nil. apply Hi. unfold stock. rewrite Ec. set_solver.
Qed.
End spill.

(** ** Phase 1 *)

Section taken.
Context `{Crc32}.

(** The header of the segment can be read. *)
Definition good_segment (fs : Files) (id : Z) : bool :=
  match fs !! segment_path id with
  | Some buf => match parse_segment_header buf with Ok _ => true | Err _ => false end
  | None => false
  end.

(** What holds of any directory of the program: ids and lengths are machine words and
    so are the lengths of the records. *)
Definition flushable (fs : Files) (id : Z) : Prop :=
  0 <= id < u64_lim /\
  forall buf, fs !! segment_path id = Some buf -> small_frames (records buf) /\ zlen buf < u64_lim.

Definition goods (fs : Files) (ids : list Z) : list Z := List.filter (good_segment fs) ids.

Lemma good_readable fs id : flushable fs id -> good_segment fs id = true -> exists buf, readable fs id buf.
Proof.
  unfold good_segment. intros [Hid Hf]. destruct (fs !! segment_path id) as [buf|] eqn:E; [|done].
  destruct (parse_segment_header buf) as [i|] eqn:Eh; [|done]. intros _. destruct (Hf buf eq_refl) as [Hs Hl].
  exists buf. split; [done..| |done|done]. by exists i.
Qed.

Lemma goods_readable fs ids : Forall (flushable fs) ids -> Forall (fun id => exists buf, readable fs id buf) (goods fs ids).
Proof.
  intros Hf. rewrite Forall_forall in Hf. apply Forall_forall. intros id [Hin Hg]%list_elem_of_In%filter_In.
  apply good_readable; [|done]. by apply Hf, list_elem_of_In.
Qed.

Lemma goods_app fs l l' : goods fs (l ++ l') = goods fs l ++ goods fs l'.
Proof. apply List.filter_app. Qed.

Lemma goods_nodup fs l : NoDup l -> NoDup (goods fs l).
Proof. rewrite !NoDup_ListNoDup. apply List.NoDup_filter. Qed.

Lemma flush_heads_app m fs l l' : flush_heads m fs (l ++ l') = flush_heads m fs l ++ flush_heads m fs l'.
Proof. unfold flush_heads. by rewrite fmap_app, concat_app. Qed.

(** A first phase looks at the segments in order; only one it can neither read nor move
    away stops it. *)
Definition looks_at (fs : Files) (ids looked : list Z) : Prop :=
  exists rest, ids = looked ++ rest /\
    (rest = [] \/ exists l id, looked = l ++ [id] /\ good_segment fs id = false).
End taken.

Section phase1.
Context `{Crc32} (m : Manifest) (budget : Z) (fs0 : Files) (Hshort : short_names m).

(** What the loop may change when it has looked at the segments [done]. *)
Definition looked (done : list Z) (p : path) : Prop :=
  scratch p \/ exists id, id ∈ done /\ (p = segment_path id \/ p = corrupt_path id).

(** The state of the loop when it has looked at the segments [done]. *)
Record gathered (done : list Z) (s : Phase1) (fs : Files) : Prop := {
  ga_stock : exists R, stocked (flush_heads m fs0 (goods fs0 done)) (sp_groups (p1_spill s)) (sp_next (p1_spill s)) (p1_batch s) R fs;
  ga_cache : cache_ok m (p1_schemas s);
  ga_schemas : Forall (fun p => is_Some (p1_schemas s !! p.1)) (flush_heads m fs0 (goods fs0 done));
  ga_rows : p1_rows s = zlen (flush_heads m fs0 (goods fs0 done));
  ga_consumed : p1_consumed s = goods fs0 done;
  ga_keeps : keeps (looked done) fs0 fs
}.

(** The start. *)
Lemma gathered_start s fs : sp_groups (p1_spill s) = ∅ -> p1_batch s = batch_default -> p1_consumed s = [] ->
  p1_schemas s = ∅ -> p1_rows s = 0 -> keeps scratch fs0 fs -> gathered [] s fs.
Proof.
  intros Hsp Hb Hc Hsch Hrows Hk. split; [|by rewrite Hsch|constructor|done|done|].
  - exists (fun _ => []). rewrite Hsp, Hb. apply stocked_start.
  - eapply keeps_mono; [|exact Hk]. by left.
Qed.

Lemma triple_returns {A : Type} (D : path -> Prop) (P : Files -> Prop) (Q : A -> Prop) (mm : io A) :
  returns mm Q -> local D mm -> (forall fs fs', keeps D fs fs' -> P fs -> P fs') ->
  triple P mm any_files (fun a fs => Q a /\ P fs).
Proof.
  intros Hr Hl HP w Hw. split; [done|]. specialize (Hr w). apply (local_keeps _ _ w) in Hl.
  destruct (mm w) as [w' [a| |]]; [|done|done]. split; [done|]. by eapply HP.
Qed.

Lemma looked_mono l l' fs : keeps (looked l) fs0 fs -> keeps (looked (l ++ l')) fs0 fs.
Proof. apply keeps_mono. intros p [Hp|(i & Hi & Hp)]; [by left|right; exists i]. split; [set_solver|done]. Qed.

(** The records of the segments looked at. *)
Lemma taken_ok l : Forall (flushable fs0) l -> NoDup l ->
  arrivals_distinct (flush_heads m fs0 (goods fs0 l)) /\
  Forall (fun p => head_ok p.2 /\ 0 <= p.1.2 < u32_lim) (flush_heads m fs0 (goods fs0 l)).
Proof.
  intros Hf Hnd. destruct (flush_heads_ok m fs0 (goods fs0 l) (goods_readable fs0 l Hf) (goods_nodup _ _ Hnd)) as [Hok Hd].
  split; [done|]. eapply Forall_impl; [exact Hok|]. by intros p [_ ?].
Qed.

Lemma local_decode_good id buf rejects batch : good_header buf -> local reject_file (decode_segment id buf m rejects batch).
Proof.
  intros [i Hi]. unfold decode_segment, reader_new, mbind, result_bind. rewrite Hi.
  assert (forall r d, local reject_file (decode_frames (length buf) id buf m r d rejects batch)) as Hl; [|apply Hl].
  generalize (length buf). intros fuel. revert rejects batch.
  induction fuel as [|fuel IH]; intros rejects batch r d; cbn [decode_frames]; [apply local_throw|].
  destruct (next_frame _ r) as [r' [item|]]; [|apply local_ret]. apply local_bind.
  - assert (forall (d' : SegDecoded) f, local reject_file (rj ← reject_append rejects id f; mret (d', rj, batch))) as Hrej.
    { intros d' f. apply local_bind; [apply local_reject|]. intros rj. apply local_ret. }
    unfold decode_item. destruct item as [frame|[? ? ?|? ? ? ?|? ?]]; [|by apply Hrej..].
    cbv zeta. destruct (cached_keys _ _ _ _) as [keys cache]. destruct (negb _); [by apply Hrej|apply local_ret].
  - intros [[d' rejects'] batch']. apply IH.
Qed.

(** Segments still to come are as they were at the start. *)
Lemma segment_unchanged l id s fs : Forall (fun i => 0 <= i) (id :: l) -> id ∉ l -> gathered l s fs ->
  fs !! segment_path id = fs0 !! segment_path id.
Proof.
  intros [Hid Hl]%Forall_cons Hn Hg. apply (ga_keeps _ _ _ Hg).
  rewrite Forall_forall in Hl. intros [Hs|(i & Hi & [E|E])].
  - by apply segment_not_scratch in Hs.
  - apply segment_path_inj in E; [by subst i|done|by apply Hl].
  - symmetry in E. apply corrupt_path_ne in E; [done|by apply Hl|done].
Qed.

(** One more segment. *)
Lemma step_bounds l id ids : Forall (flushable fs0) ((l ++ [id]) ++ ids) -> NoDup ((l ++ [id]) ++ ids) ->
  Forall (flushable fs0) (l ++ [id]) /\ NoDup (l ++ [id]) /\ Forall (fun i => 0 <= i) (id :: l) /\ id ∉ l.
Proof.
  intros [Hf1 _]%Forall_app [Hnd1 _]%NoDup_app. pose proof Hf1 as [Hfl Hfi]%Forall_app. rewrite Forall_singleton in Hfi.
  split_and!; [done|done| |].
  - constructor; [apply Hfi|]. eapply Forall_impl; [exact Hfl|]. intros i Hi. apply Hi.
  - apply NoDup_app in Hnd1 as (_ & Hdis & _). intros Hin. apply (Hdis id Hin). by left.
Qed.

(** A segment is read as it was at the start. *)
Lemma gathered_read l id s : Forall (fun i => 0 <= i) (id :: l) -> id ∉ l ->
  triple (gathered l s) (try (read_file (segment_path id))) any_files (fun buf fs =>
    fs0 !! segment_path id = Some buf /\ gathered l s fs).
Proof.
  intros Hl Hn. apply triple_try.
  eapply triple_conseq; [apply (triple_read (gathered l s) any_files); done|done|].
  intros [buf|e] fs [Hg Hb]; [|done]. split; [|done]. rewrite <-Hb. symmetry. by eapply segment_unchanged.
Qed.

(** One segment that can be read. *)
Lemma gathered_decode l id buf s : readable fs0 id buf -> NoDup (l ++ [id]) -> Forall (flushable fs0) (l ++ [id]) ->
  triple (gathered l s) (decode_segment id buf m (p1_rejects s) (p1_batch s)) any_files
    (fun '(d, rejects, batch) fs => d_unreadable d = false /\
      forall rejected skipped, gathered (l ++ [id])
        (phase1_add (mkPhase1 (p1_consumed s) (p1_schemas s) (p1_rows s) rejected skipped rejects (p1_spill s) batch)
          id d rejects batch) fs).
Proof.
  intros Hr Hnd Hf. apply triple_at. intros fs [[R Hs] Hc Hsch Hrows Hcons Hk].
  destruct (taken_ok _ Hf Hnd) as [Hd _].
  assert (goods fs0 [id] = [id]) as Eg.
  { pose proof (rd_header _ _ _ Hr) as [i Hi]. unfold goods, good_segment. cbn. by rewrite (rd_file _ _ _ Hr), Hi. }
  assert (flush_heads m fs0 (goods fs0 (l ++ [id])) = flush_heads m fs0 (goods fs0 l) ++ segment_heads m id buf) as Eh.
  { rewrite goods_app, Eg, flush_heads_app. f_equal. unfold flush_heads. cbn. by rewrite (rd_file _ _ _ Hr), app_nil_r. }
  rewrite Eh in Hd.
  pose proof (decode_segment_spec m id buf (p1_rejects s) (p1_batch s) Hshort (rd_header _ _ _ Hr)
    (rd_small _ _ _ Hr) (sk_batch _ _ _ _ _ _ Hs)) as Hret. cbv zeta in Hret.
  eapply triple_conseq; [eapply (triple_returns reject_file (fun fs' => keeps reject_file fs fs'));
    [exact Hret|apply local_decode_good, (rd_header _ _ _ Hr)|]|by intros ? ->; apply keeps_refl|].
  { intros fs1 fs2 Hk2 Hk1. by eapply keeps_trans. }
  intros [[d rejects] batch] fs' [[Hwf Hcon Hdr _ _ [Hdc _] Hds _ [Hun _]] Hk']. split; [done|]. intros rejected skipped.
  split; rewrite ?Eh; cbn.
  - exists R. eapply stocked_decode; [eapply stocked_files; [|exact Hs]|done..]. intros q Hq. apply Hk'.
    intros Hrej. unfold run_file, reject_file, in_top in *. rewrite Hq in Hrej. done.
  - intros g ks Hl. apply lookup_union_Some_raw in Hl as [Hl|[_ Hl]]; [by apply Hdc|by apply Hc].
  - apply Forall_app. split.
    + eapply Forall_impl; [exact Hsch|]. intros p [ks Hp]. rewrite lookup_union, Hp. destruct (d_schemas d !! p.1); by eexists.
    + eapply Forall_impl; [exact Hds|]. intros p [ks Hp]. rewrite lookup_union, Hp. destruct (p1_schemas s !! p.1); by eexists.
  - rewrite zlen_app, Hrows, Hdr. done.
  - by rewrite goods_app, Eg, Hcons.
  - eapply keeps_trans; [by apply looked_mono|]. eapply keeps_mono; [|exact Hk']. intros p Hp. left. by right.
Qed.

(** One segment that cannot. *)
Lemma gathered_bad l id buf s : 0 <= id -> fs0 !! segment_path id = Some buf -> good_segment fs0 id = false ->
  triple (gathered l s) (decode_segment id buf m (p1_rejects s) (p1_batch s)) any_files
    (fun '(d, rejects, batch) fs => d_unreadable d = true /\
      gathered (l ++ [id]) (mkPhase1 (p1_consumed s) (p1_schemas s) (p1_rows s) (p1_rejected s + d_rejected d)
        (p1_skipped s + d_skipped d) rejects (p1_spill s) batch) fs).
Proof.
  intros Hid Hb Hg. unfold good_segment in Hg. rewrite Hb in Hg. unfold decode_segment, reader_new, mbind, result_bind.
  destruct (parse_segment_header buf) as [|e] eqn:Eh; [done|]. apply triple_at. intros fs [[R Hs] Hc Hsch Hrows Hcons Hk].
  eapply triple_bind.
  { eapply triple_conseq; [apply (triple_local (fun p => p = segment_path id \/ p = corrupt_path id)
      (keeps (fun p => p = segment_path id \/ p = corrupt_path id) fs) any_files (try_quarantine id))|by intros ? ->; apply keeps_refl|];
      [by apply local_quarantine|done| |intros q fs' X; exact X]. intros fs1 fs2 Hk2 Hk1. by eapply keeps_trans. }
  cbv beta. intros q. apply triple_ret; [done|]. intros fs' Hk'. split; [done|].
  assert (goods fs0 (l ++ [id]) = goods fs0 l) as Eg.
  { rewrite goods_app. replace (goods fs0 [id]) with (@nil Z); [by rewrite app_nil_r|].
    unfold goods, good_segment. cbn. by rewrite Hb, Eh. }
  split; cbn; rewrite ?Eg; try done.
  - exists R. eapply stocked_files; [|exact Hs]. intros q' Hq. apply Hk'. by intros [-> | ->].
  - eapply keeps_trans; [by apply looked_mono|]. eapply keeps_mono; [|exact Hk']. intros p Hp. right.
    exists id. split; [set_solver|done].
Qed.

(** A spill. *)
Lemma gathered_spill l s : Forall (flushable fs0) l -> NoDup l ->
  triple (gathered l s) (spill_batch (p1_spill s) (p1_batch s)) any_files (fun '(sp, batch) =>
    gathered l (mkPhase1 (p1_consumed s) (p1_schemas s) (p1_rows s) (p1_rejected s) (p1_skipped s)
      (p1_rejects s) sp batch)).
Proof.
  intros Hf Hnd. destruct (taken_ok _ Hf Hnd) as [Hd Hok]. apply triple_at. intros fs [[R Hs] Hc Hsch Hrows Hcons Hk].
  unfold spill_batch. eapply triple_bind; [by idle|]. intros [].
  eapply triple_bind.
  { apply faulty_spill; [apply _|apply (sk_batch _ _ _ _ _ _ Hs)|apply (sk_distinct _ _ _ _ _ _ Hs)|].
    apply Forall_forall. intros p Hp. rewrite Forall_forall in Hok. by eapply Hok, stocked_content. }
  intros [[out batch] n']. apply triple_ret; [done|]. cbn [fst snd]. intros fs' Hsp. split; cbn; try done.
  - eexists. by eapply stocked_spill.
  - eapply keeps_trans; [exact Hk|]. intros q Hq. apply (sp_same _ _ _ _ _ _ _ _ Hsp). intros Hin.
    destruct (spill_paths _ _ _ _ _ _ _ Hsp) as [_ Hp]. destruct (Hp q Hin) as (i & _ & ->). apply Hq. left. by left.
Qed.

(** The loop over the segments. *)
Lemma phase1_rows l ids s : Forall (flushable fs0) (l ++ ids) -> NoDup (l ++ ids) ->
  triple (gathered l s) (phase1 m budget ids s) any_files (fun s' fs =>
    exists done, looks_at fs0 ids done /\ gathered (l ++ done) s' fs).
Proof.
  revert l s. induction ids as [|id ids IH]; intros l s Hf Hnd; cbn [phase1].
  { apply triple_ret; [done|]. intros fs Hg. exists []. rewrite app_nil_r. split; [|done]. exists []. split; [done|by left]. }
  replace (l ++ id :: ids) with ((l ++ [id]) ++ ids) in Hf, Hnd by (by rewrite <-app_assoc).
  destruct (step_bounds l id ids Hf Hnd) as (Hf1 & Hnd1 & Hpos & Hn).
  pose proof Hf1 as [_ Hfi]%Forall_app. rewrite Forall_singleton in Hfi.
  assert (forall s2, triple (gathered (l ++ [id]) s2) (phase1 m budget ids s2) any_files (fun s' fs =>
    exists done, looks_at fs0 (id :: ids) done /\ gathered (l ++ done) s' fs)) as Hnext.
  { intros s2. eapply triple_conseq; [by apply (IH (l ++ [id]) s2)|done|]. intros s' fs (done & (rest & -> & Hr) & Hg).
    exists (id :: done). rewrite <-app_assoc in Hg. split; [|done]. exists rest. split; [done|].
    destruct Hr as [Hr|(d & i & -> & Hi)]; [by left|right]. by exists (id :: d), i. }
  eapply triple_bind; [by apply (gathered_read l id s)|].
  intros buf. triple_fact. intros Hb. destruct (good_segment fs0 id) eqn:Eg.
  - destruct (good_readable _ _ Hfi Eg) as [buf' Hr]. pose proof (rd_file _ _ _ Hr) as Hb'. rewrite Hb in Hb'.
    injection Hb' as <-. eapply triple_bind; [by apply gathered_decode|].
    intros [[d rejects] batch]. triple_fact. intros Hun. cbv zeta. rewrite Hun. destruct (_ && _).
    + eapply triple_bind; [eapply triple_conseq; [by apply (gathered_spill (l ++ [id]) (phase1_add
        (mkPhase1 (p1_consumed s) (p1_schemas s) (p1_rows s) (p1_rejected s + d_rejected d)
          (p1_skipped s + d_skipped d) rejects (p1_spill s) batch) id d rejects batch))|
        intros fs Hg; apply Hg|intros r fs X; exact X]|].
      intros [sp b']. apply Hnext.
    + eapply triple_conseq; [apply Hnext|intros fs Hg; apply Hg|done].
  - eapply triple_bind; [apply gathered_bad; [apply Hfi|done|done]|].
    intros [[d rejects] batch]. triple_fact. intros Hun. cbv zeta. rewrite Hun.
    destruct (negb _); [|apply Hnext]. apply triple_ret; [done|]. intros fs Hg. exists [id]. split; [|done].
    exists ids. split; [done|]. right. by exists [], id.
Qed.
End phase1.
