(* ===== verification/FlushTable.v ===== *)
(** * FlushTable: the files one group is staged in

    [merge_partition] streams a group's merged rows into one Parquet file per hour.
    Whatever errors occur, when it returns, the files it lists are those hours in
    order, each holding exactly the rows of its hour. *)

From Stdlib Require Import ZArith Lia.
From Stdlib Require Import Strings.Byte.
From S2P Require Import Prelude Text Record Codec CodecProofs CodecTheorems Disk Wal Reader Heap Merge MergeProofs Sources Bounded BatchProofs Spill Time Config Manifest Columns ColumnsProofs Planner Local MergeFaults FlushLocal FlushRows.
Open Scope Z_scope.

(** ** Hours *)

Definition hour_of (h : Head) : Z := h_ts h / US_PER_HOUR.

(** One more row: the last hour goes on, or a new one starts. *)
Definition hour_snoc (parts : list (Z * list Head)) (h : Head) : list (Z * list Head) :=
  match last parts with
  | Some (k, l) => if k =? hour_of h then removelast parts ++ [(k, l ++ [h])] else parts ++ [(hour_of h, [h])]
  | None => [(hour_of h, [h])]
  end.

(** A list of rows cut where the hour changes. *)
Definition by_hour (l : list Head) : list (Z * list Head) := foldl hour_snoc [] l.

(** Rows in time order that carry their own keys. *)
Definition good_heads (l : list Head) : Prop :=
  Forall head_ok l /\ StronglySorted (fun x y => h_ts x <= h_ts y) l.

Lemma good_prefix l l' : good_heads (l ++ l') -> good_heads l.
Proof.
  intros [Ho Hs]. split; [by apply Forall_app in Ho as [? _]|]. clear Ho.
  induction l as [|x l IH]; [constructor|]. cbn in Hs. apply StronglySorted_cons in Hs as [Hx Hs].
  apply Forall_app in Hx as [Hx _]. constructor; auto.
Qed.

Lemma by_hour_snoc l h : by_hour (l ++ [h]) = hour_snoc (by_hour l) h.
Proof. apply foldl_snoc. Qed.

Lemma sorted_snoc {A} (R : A -> A -> Prop) l x : StronglySorted R (l ++ [x]) <->
  StronglySorted R l /\ Forall (fun y => R y x) l.
Proof.
  induction l as [|y l IH]; cbn; [split; [split; constructor|repeat constructor]|].
  rewrite !StronglySorted_cons, IH, !Forall_app, Forall_singleton, Forall_cons. tauto.
Qed.

(** The parts of a cut list. *)
Record hours_ok (l : list Head) (parts : list (Z * list Head)) : Prop := {
  ho_concat : concat parts.*2 = l;
  ho_part : Forall (fun q => q.2 <> [] /\ Forall (fun h => hour_of h = q.1) q.2) parts;
  ho_sorted : StronglySorted Z.lt parts.*1
}.

Lemma by_hour_ok l : good_heads l -> hours_ok l (by_hour l).
Proof.
  induction l as [|h l IH] using rev_ind; intros Hg; [split; constructor|]. rewrite by_hour_snoc.
  destruct (IH (good_prefix _ _ Hg)) as [Hc Hp Hs]. destruct Hg as [_ [_ Hle]%sorted_snoc].
  unfold hour_snoc. destruct (last (by_hour l)) as [[k part]|] eqn:El.
  - apply last_Some in El as [init Ei]. rewrite Ei in *. rewrite fmap_app in Hs. cbn in Hs.
    apply sorted_snoc in Hs as [Hs Hlt]. apply Forall_app in Hp as [Hp [Hne Hk]%Forall_singleton]. cbn in Hne, Hk.
    rewrite fmap_app, concat_app in Hc. cbn in Hc. rewrite app_nil_r in Hc.
    assert (k <= hour_of h) as Hkh.
    { destruct part as [|x part]; [done|]. apply Forall_cons in Hk as [<- _].
      rewrite <-Hc, Forall_app, Forall_cons in Hle. apply Z.div_le_mono; [done|]. by destruct Hle as (_ & ? & _). }
    destruct (Z.eqb_spec k (hour_of h)) as [->|Hne'].
    + rewrite removelast_last. split.
      * rewrite fmap_app, concat_app. cbn. by rewrite app_nil_r, app_assoc, Hc.
      * apply Forall_app. split; [done|]. apply Forall_singleton. cbn. split; [by destruct part|].
        apply Forall_app. split; [done|]. by apply Forall_singleton.
      * rewrite fmap_app. cbn. by apply sorted_snoc.
    + split.
      * rewrite !fmap_app, !concat_app. cbn. by rewrite !app_nil_r, Hc.
      * apply Forall_app. split; [apply Forall_app; split; [done|by apply Forall_singleton]|].
        apply Forall_singleton. cbn. split; [done|by apply Forall_singleton].
      * rewrite !fmap_app. cbn. apply sorted_snoc. split; [by apply sorted_snoc|].
        apply Forall_app. split; [|apply Forall_singleton; lia]. eapply Forall_impl; [exact Hlt|]. cbn. lia.
  - apply last_None in El. rewrite El in *. cbn in Hc. subst l. split; [done| |repeat constructor].
    apply Forall_singleton. cbn. split; [done|by apply Forall_singleton].
Qed.

Lemma staged_path_inj s h n s' h' n' : staged_path s h n = staged_path s' h' n' -> s = s' /\ h = h' /\ n = n'.
Proof. by intros [= -> -> ->]. Qed.

(** ** The rows *)

(** The row in a record's frame; [stage_row] fails where it does not decode. *)
Definition head_row `{Crc32} (n : nat) (h : Head) : Row :=
  match decode_verified (h_frame h) n with
  | Ok d => mkRow (rec_ts (dec_record d)) (rec_id (dec_record d)) (dec_keys d) (dec_extra d) (rec_data (dec_record d))
  | Err _ => mkRow 0 [] [] [] []
  end.

(** A fault-free value and a local effect are all a constant computation does. *)
Lemma triple_constant {A : Type} D (m : io A) fs fs1 fs2 a :
  constant m -> runs m fs1 fs2 (Ret a) -> local D m ->
  triple (fun fs' => fs' = fs) m any_files (fun x fs' => x = a /\ keeps D fs fs').
Proof.
  intros Hc Hr Hl w Hw. split; [done|]. apply (local_keeps _ _ w) in Hl. pose proof (yields_runs m fs1 fs2 a Hc Hr w).
  rewrite Hw in Hl. by destruct (m w).2.
Qed.

Lemma head_ok_ts h : head_ok h -> 0 <= h_ts h < u64_lim.
Proof.
  intros (_ & _ & Hv). unfold verified_sort_key, mbind, result_bind in Hv.
  destruct (frame_extent _ _) as [[payload n]|]; [|done]. unfold cur_sort_key, mbind, cur_bind in Hv.
  destruct (cur_u64 (cursor_new payload)) as [[ts c1]|] eqn:E; [|done].
  apply (sound_u64 [] payload) in E as (e & rest & _ & _ & _ & Hts).
  destruct (cur_u32 c1) as [[? c2]|]; [|done]. destruct (cur_u16 c2) as [[n1 c3]|]; [|done].
  destruct (cur_take n1 c3) as [[? c4]|]; [|done]. destruct (cur_u16 c4) as [[n2 c5]|]; [|done].
  destruct (cur_take n2 c5) as [[? c6]|]; [|done]. cbn in Hv. by injection Hv as <- _ _.
Qed.

Section group.
Context `{Crc32} `{Parquet} (flush : FlushConfig) (series : bytes) (epoch : Z) (keys : list KeyDef) (name : bytes).

#[local] Notation group_rows := (Nat.max (Z.to_nat (row_group_rows flush)) 1).

Definition part_file (part : list Head) : path :=
  staged_path series (hour_partition (h_ts (hd no_head part))) name.

Definition part_rows (part : list Head) : list Row := head_row (length keys) <$> part.

(** The closed file of one hour. *)
Definition closed_file (fs : Files) (part : list Head) : Prop :=
  exists props, writer_properties series epoch (compression flush) = Ok props /\
    Forall (fun r => row_fits keys r = true) (part_rows part) /\
    fs !! part_file part = Some (table_file keys props group_rows (part_rows part)).

Definition written_of (part : list Head) : WrittenFile * path :=
  (mkWrittenFile series epoch (hour_partition (h_ts (hd no_head part))) (length part), part_file part).

(** *** The calls of the writer *)

Lemma constant_group w : constant (partition_group w).
Proof.
  unfold partition_group. cbv zeta. destruct (_ =? _)%nat; [apply constant_ret|].
  destruct (write_group _ _ _ _) as [g cu]. apply constant_bind; [apply constant_unit|]. intros []. apply constant_ret.
Qed.

Lemma constant_lift {A : Type} (r : result Error A) : constant (lift r).
Proof. destruct r; [apply constant_ret|apply constant_throw]. Qed.

Lemma constant_append w ts id ks extra data : constant (partition_append w ts id ks extra data).
Proof.
  unfold partition_append. destruct (builder_append _ _ _ _ _ _) as [c r]. apply constant_bind; [apply constant_lift|].
  intros _. cbv zeta. destruct (_ <=? _)%nat; [apply constant_group|apply constant_ret].
Qed.

Lemma constant_create p comp n : constant (partition_create p series epoch keys comp n).
Proof.
  unfold partition_create. apply constant_bind; [apply constant_lift|]. intros props. cbv zeta.
  apply constant_bind; [apply constant_unit|]. intros []. apply constant_bind; [apply constant_unit|].
  intros []. apply constant_ret.
Qed.

(** A writer that has been given [rows]. *)
Definition writing_rows (p : path) (rows : list Row) (w : PartitionWriter) : Prop :=
  exists props full rem, w = writer_at series keys p props group_rows full rem /\
    writer_properties series epoch (compression flush) = Ok props /\
    concat full ++ rem = stored <$> rows /\ (length rem < group_rows)%nat /\
    Forall (fun g => length g = group_rows) full /\
    Forall (fun r => keys_fit keys (row_keys r) = true) rem /\
    Forall (fun r => row_fits keys r = true) rows.

Lemma create_rows p fs :
  triple (fun fs' => fs' = fs) (partition_create p series epoch keys (compression flush) (Z.to_nat (row_group_rows flush)))
    any_files (fun w fs' => writing_rows p [] w /\ keeps (eq p) fs fs').
Proof.
  destruct (writer_properties series epoch (compression flush)) as [props|e] eqn:Ep.
  2:{ unfold partition_create. rewrite Ep. intros w _. done. }
  eapply triple_conseq; [apply (triple_constant (eq p) _ fs fs (<[p := pq_data (parquet_schema keys) props []]> fs)
    (writer_at series keys p props group_rows [] []))|done|].
  - apply constant_create.
  - unfold partition_create. rewrite Ep. eapply runs_bind; [apply runs_ret|]. cbv zeta.
    eapply runs_bind; [apply runs_try, runs_write|]. eapply runs_bind; [apply runs_try, runs_write|].
    rewrite insert_insert_eq, builder_new_of. apply runs_ret.
  - eapply local_to_local, local_partition_create. done.
  - intros w fs' [-> Hk]. split; [|done]. exists props, [], []. split_and!; try done; cbn; lia.
Qed.

Lemma append_rows_step p rows r w fs : writing_rows p rows w ->
  triple (fun fs' => fs' = fs) (partition_append w (row_ts r) (row_id r) (row_keys r) (row_extra r) (row_data r))
    any_files (fun w' fs' => writing_rows p (rows ++ [r]) w' /\ keeps (eq p) fs fs').
Proof.
  intros (props & full & rem & -> & Hp & Ec & Hl & Hfull & Hk & Hfit).
  pose proof (append_row_of series keys rem r) as Ha. destruct (row_fits keys r) eqn:Er.
  2:{ destruct Ha as (c & e & Ha). unfold append_row in Ha. unfold partition_append. cbn [pw_builder writer_at].
      rewrite Ha. intros w _. done. }
  destruct (runs_partition_append series keys p props group_rows full rem r fs [] ltac:(lia) Hl Er Hk)
    as (d & full' & rem' & Hrun & E' & Hl' & Hfull' & Hk').
  eapply triple_conseq; [eapply (triple_constant (eq p) _ fs); [apply constant_append|exact Hrun|]|done|].
  - by eapply local_to_local, local_partition_append.
  - intros w fs' [-> Hkeep]. split; [|done]. exists props, full', rem'. split_and!; [done|done| |done|auto|done|].
    + by rewrite E', Ec, fmap_app.
    + apply Forall_app. split; [done|by apply Forall_singleton].
Qed.

Lemma finish_rows p rows w fs : writing_rows p rows w ->
  triple (fun fs' => fs' = fs) (partition_finish w) any_files (fun k fs' =>
    k = length rows /\ keeps (eq p) fs fs' /\
    exists props, writer_properties series epoch (compression flush) = Ok props /\
      fs' !! p = Some (table_file keys props group_rows rows)).
Proof.
  intros (props & full & rem & -> & Hp & Ec & Hl & Hfull & Hk & Hfit). unfold partition_finish.
  assert (row_groups group_rows (stored <$> rows) = full ++ (if decide (rem = []) then [] else [rem])) as Eg
    by (rewrite <-Ec; apply row_groups_concat; [lia|done|done]).
  assert (length (concat full) + length rem = length rows)%nat as Elen
    by (apply (f_equal length) in Ec; by rewrite length_app, length_fmap in Ec).
  apply (triple_bind _ _ (fun w' fs' => w' = writer_at series keys p props group_rows (full ++ (if decide (rem = []) then [] else [rem])) []
    /\ keeps (eq p) fs fs')).
  - destruct (decide (rem = [])) as [->|Hne].
    + rewrite app_nil_r. apply triple_ret; [done|]. by intros ? ->.
    + destruct (runs_partition_group series keys p props group_rows full rem fs [] Hk Hne) as (d & Hrun).
      eapply triple_constant; [apply constant_group|exact Hrun|]. by eapply local_to_local, local_partition_group.
  - intros w'. triple_fact. intros ->. cbn [pw_path writer_at pw_builder pw_props pw_groups pw_rows].
    apply (triple_bind _ _ (fun _ fs' => keeps (eq p) fs fs' /\ fs' !! p = Some (table_file keys props group_rows rows))).
    + apply triple_try. apply triple_call; [done|done| |done|done]. intros fs' Hk'. split; [done|]. cbn. split.
      * eapply keeps_trans; [exact Hk'|]. by apply keeps_insert.
      * rewrite lookup_insert_eq. unfold table_file. by rewrite Eg.
    + intros []. eapply triple_bind; [by idle|]. intros []. apply triple_ret; [done|].
      intros fs' [Hk' Hf]. split_and!; [|done|by exists props]. rewrite <-Elen. destruct (decide (rem = [])) as [->|_];
        rewrite ?app_nil_r, ?concat_app, ?length_app; cbn; rewrite ?app_nil_r; lia.
Qed.

(** *** The hours *)

(** Different hours have different files. *)
Lemma part_files_distinct l parts : Forall head_ok l -> hours_ok l parts -> NoDup (part_file <$> parts.*2).
Proof.
  intros Hok [Hc Hp Hs]. rewrite <-Hc in Hok. clear Hc.
  induction parts as [|[k part] parts IH]; [constructor|]. cbn [fmap list_fmap snd fst concat] in *.
  apply Forall_cons in Hp as [[Hne Hk] Hp]. apply StronglySorted_cons in Hs as [Hlt Hs].
  apply Forall_app in Hok as [Hok1 Hok]. constructor; [|by apply IH].
  rewrite <-list_fmap_compose. intros ([k' part'] & E & Hin)%list_elem_of_fmap. cbn in E.
  rewrite Forall_forall in Hp; rewrite Forall_forall in Hlt. destruct (Hp _ Hin) as [Hne' Hk']. cbn in Hne', Hk'.
  assert (k < k') as Hkk by (apply Hlt, list_elem_of_fmap; by exists (k', part')).
  destruct part as [|h part]; [by destruct Hne|]. destruct part' as [|h' part']; [by destruct Hne'|].
  unfold part_file in E. cbn [hd] in E. apply staged_path_inj in E as (_ & E & _).
  apply Forall_cons in Hk as [Ek _], Hk' as [Ek' _], Hok1 as [Hh _].
  assert (head_ok h') as Hh'.
  { apply Forall_concat in Hok. rewrite Forall_fmap, Forall_forall in Hok.
    specialize (Hok _ Hin). by apply Forall_cons in Hok as [? _]. }
  apply hour_partition_inj in E; [|by apply head_ok_ts..]. unfold hour_of in *. cbn in Ek. lia.
Qed.

Section staging.
(** [D0]: what may change besides the group's files. *)
Context (D0 : path -> Prop) (fs0 : Files) (st0 : list (WrittenFile * path)).

(** The hours [cl] are closed and the file of the hour of [ts] holds [part]. *)
Record writing (cl : list (Z * list Head)) (k ts : Z) (part : list Head) (s : Staging) (fs : Files) : Prop := {
  wr_open : exists w, let p := staged_path series (hour_partition ts) name in
    st_open s = Some (k, (hour_partition ts, p, w)) /\ writing_rows p (part_rows part) w;
  wr_staged : st_staged s = st0 ++ (written_of <$> cl.*2);
  wr_closed : Forall (closed_file fs) cl.*2;
  wr_keeps : keeps (fun p => D0 p \/ p ∈ part_file <$> cl.*2 \/ p = staged_path series (hour_partition ts) name) fs0 fs
}.

(** The state of [merge_partition] after the rows [l]. *)
Definition staging_rows (l : list Head) (s : Staging) (fs : Files) : Prop :=
  match last (by_hour l) with
  | None => st_open s = None /\ st_staged s = st0 /\ keeps D0 fs0 fs
  | Some (k, part) => writing (removelast (by_hour l)) k (h_ts (hd no_head part)) part s fs
  end.

(** All hours closed. *)
Definition staged_rows (parts : list (list Head)) (staged : list (WrittenFile * path)) (fs : Files) : Prop :=
  staged = st0 ++ (written_of <$> parts) /\ Forall (closed_file fs) parts /\
  keeps (fun p => D0 p \/ p ∈ part_file <$> parts) fs0 fs.

Lemma closed_keeps D fs fs' part : keeps D fs fs' -> ~ D (part_file part) -> closed_file fs part -> closed_file fs' part.
Proof. intros Hk Hd (props & Hp & Hf & Hl). exists props. split_and!; [done|done|]. by rewrite Hk. Qed.

Lemma closed_all p fs fs' parts : keeps (eq p) fs fs' -> p ∉ part_file <$> parts ->
  Forall (closed_file fs) parts -> Forall (closed_file fs') parts.
Proof.
  intros Hk Hp Hc. rewrite Forall_forall in *. intros part Hin. eapply closed_keeps; [exact Hk| |by apply Hc].
  intros ->. apply Hp. by apply list_elem_of_fmap_2.
Qed.

Lemma finish_writing cl k part s fs p w :
  let ts := h_ts (hd no_head part) in
  part_file part ∉ part_file <$> cl.*2 ->
  writing cl k ts part s fs -> st_open s = Some (k, (hour_partition ts, p, w)) ->
  triple (fun fs' => fs' = fs) (finish_file series epoch (hour_partition ts, p, w) (st_staged s)) any_files
    (staged_rows (cl.*2 ++ [part])).
Proof.
  intros ts Hfresh [(w' & Eo & Hw) Hst Hc Hk] Eo'. rewrite Eo in Eo'. injection Eo' as <- <-.
  fold (part_file part) in *. unfold finish_file. eapply triple_bind; [by apply finish_rows|].
  intros n. triple_fact. intros ->. apply triple_ret; [done|]. intros fs' [Hk' (props & Hp & Hf)]. split_and!.
  - rewrite Hst, <-app_assoc, fmap_app. unfold written_of at 3, part_rows. cbn. by rewrite length_fmap.
  - apply Forall_app. split; [by eapply closed_all|]. apply Forall_singleton. exists props. split_and!; [done| |done].
    by destruct Hw as (? & ? & ? & _ & _ & _ & _ & _ & _ & ?).
  - eapply keeps_trans; [eapply keeps_mono; [|exact Hk]|eapply keeps_mono; [|exact Hk']]; intros q; rewrite fmap_app, elem_of_app.
    + intros [Hq|[Hq| ->]]; [by left|right; by left|right; right; by apply list_elem_of_singleton].
    + intros <-. right. right. by apply list_elem_of_singleton.
Qed.

(** The part of [open_hour] that opens the file of a new hour. *)
Definition new_hour (ts : Z) (staged : list (WrittenFile * path)) : io Staging :=
  try (sync (tmp_dir ++ [series; hour_partition ts])) ;;
  writer ← partition_create (staged_path series (hour_partition ts) name) series epoch keys (compression flush)
             (Z.to_nat (row_group_rows flush));
  mret (mkStaging (Some (ts / US_PER_HOUR, (hour_partition ts, staged_path series (hour_partition ts) name, writer))) staged).

(** What the sink needs: the open file is the one of the head's hour. *)
Definition hour_opened (l : list Head) (h : Head) (s : Staging) (fs : Files) : Prop :=
  exists cl k part, hour_snoc (by_hour l) h = cl ++ [(k, part ++ [h])] /\
    writing cl k (h_ts (hd no_head (part ++ [h]))) part s fs.

Lemma new_hour_rows l h staged fs parts : good_heads (l ++ [h]) ->
  staged_rows parts.*2 staged fs -> hour_snoc (by_hour l) h = parts ++ [(hour_of h, [h])] ->
  triple (fun fs' => fs' = fs) (new_hour (h_ts h) staged) any_files (hour_opened l h).
Proof.
  intros Hg (-> & Hcl & Hk) E. unfold new_hour.
  pose proof (by_hour_ok _ Hg) as Hok'. rewrite by_hour_snoc, E in Hok'.
  pose proof (part_files_distinct _ _ (proj1 Hg) Hok') as Hd'.
  rewrite !fmap_app in Hd'. cbn in Hd'. apply NoDup_app in Hd' as (_ & Hf & _).
  eapply triple_bind; [by idle|]. intros [].
  eapply triple_bind; [apply create_rows|]. intros w. apply triple_ret; [done|]. intros fs' [Hw Hk'].
  exists parts, (hour_of h), []. split; [done|]. cbn [app hd]. split.
  - exists w. cbn. done.
  - done.
  - eapply closed_all; [exact Hk'| |done]. intros Hin. apply (Hf _ Hin). by left.
  - eapply keeps_trans; [eapply keeps_mono; [|exact Hk]|eapply keeps_mono; [|exact Hk']]; intros q.
    + intros [Hq|Hq]; [by left|right; by left].
    + intros <-. right. by right.
Qed.

(** Before a row: the hour it belongs to is open. *)
Lemma open_hour_rows l h s : good_heads (l ++ [h]) ->
  triple (staging_rows l s) (open_hour flush series epoch keys name (h_ts h) s) any_files (hour_opened l h).
Proof.
  intros Hg. apply triple_at. intros fs Hs. pose proof (by_hour_ok l (good_prefix _ _ Hg)) as Hok.
  pose proof (part_files_distinct _ _ (proj1 (good_prefix _ _ Hg)) Hok) as Hdist.
  unfold open_hour. cbv zeta. change (h_ts h / US_PER_HOUR) with (hour_of h).
  change (fun staged => try (sync _) ;; _) with (new_hour (h_ts h)).
  unfold staging_rows in Hs. destruct (last (by_hour l)) as [[k part]|] eqn:El.
  - pose proof (last_split _ _ El) as Esplit. destruct (wr_open _ _ _ _ _ _ Hs) as (w & Eo & Hw). cbv zeta in Eo, Hw. rewrite Eo.
    destruct (Z.eqb_spec k (hour_of h)) as [->|Hne].
    + apply triple_ret; [done|]. intros fs' ->. exists (removelast (by_hour l)), (hour_of h), part.
      split; [unfold hour_snoc; by rewrite El, Z.eqb_refl|].
      assert (part <> []) as Hpn.
      { pose proof (ho_part _ _ Hok) as Hp. rewrite Esplit in Hp. apply Forall_app in Hp as [_ [? _]%Forall_singleton]. done. }
      destruct part; done.
    + assert (part_file part ∉ part_file <$> (removelast (by_hour l)).*2) as Hfresh.
      { rewrite Esplit, !fmap_app in Hdist. cbn in Hdist. apply NoDup_app in Hdist as (_ & Hf & _). intros Hin.
        apply (Hf _ Hin). by left. }
      eapply triple_bind; [by eapply (finish_writing _ k part s)|].
      intros staged. apply triple_at. intros fs1 Hst. apply (new_hour_rows l h staged fs1 (by_hour l)); [done| |].
      * rewrite Esplit, fmap_app. exact Hst.
      * unfold hour_snoc. rewrite El. by destruct (Z.eqb_spec k (hour_of h)).
  - destruct Hs as (Eo & Est & Hk). rewrite Eo.
    eapply triple_bind; [apply (triple_ret (fun fs' => fs' = fs) any_files (fun x fs' => x = st0 /\ fs' = fs)); [done|by intros ? ->]|].
    intros staged. triple_fact. intros ->. apply (new_hour_rows l h st0 fs []); [done| |].
    + split_and!; [by rewrite app_nil_r|constructor|]. eapply keeps_mono; [|exact Hk]. intros q Hq. by left.
    + unfold hour_snoc. by rewrite El.
Qed.

(** One row. *)
Lemma stage_row_rows l h s : good_heads (l ++ [h]) ->
  triple (staging_rows l s) (stage_row flush series epoch keys name h s) any_files (staging_rows (l ++ [h])).
Proof.
  intros Hg. unfold stage_row. eapply triple_bind; [by apply open_hour_rows|]. intros s1. apply triple_at.
  intros fs (cl & k & part & E & [(w & Eo & Hw) Hst Hcl Hk]). cbv zeta in Eo, Hw.
  pose proof (by_hour_ok _ Hg) as Hok. rewrite by_hour_snoc, E in Hok.
  pose proof (part_files_distinct _ _ (proj1 Hg) Hok) as Hd. rewrite !fmap_app in Hd. cbn in Hd. apply NoDup_app in Hd as (_ & Hf & _).
  destruct (decode_verified (h_frame h) (length keys)) as [d|e] eqn:Ed; [|by apply triple_throw]. rewrite Eo.
  assert (head_row (length keys) h = mkRow (rec_ts (dec_record d)) (rec_id (dec_record d)) (dec_keys d) (dec_extra d) (rec_data (dec_record d)))
    as Er by (unfold head_row; by rewrite Ed).
  pose proof (append_rows_step _ _ (head_row (length keys) h) w fs Hw) as Happ. rewrite Er in Happ. cbn in Happ. rewrite <-Er in Happ.
  eapply triple_bind; [exact Happ|]. intros w'. apply triple_ret; [done|]. intros fs' [Hw' Hk'].
  unfold staging_rows. rewrite by_hour_snoc, E, last_snoc, removelast_last. split; cbn.
  - eexists. split; [reflexivity|]. unfold part_rows. rewrite fmap_app. exact Hw'.
  - done.
  - eapply closed_all; [exact Hk'| |done]. intros Hin. apply (Hf _ Hin). by left.
  - eapply keeps_trans; [exact Hk|]. eapply keeps_mono; [|exact Hk']. intros q <-. right. by right.
Qed.

(** The end of the stream. *)
Lemma finish_open_rows l s : good_heads l ->
  triple (staging_rows l s)
    (match st_open s with Some (_, file) => finish_file series epoch file (st_staged s) | None => mret (st_staged s) end)
    any_files (staged_rows (by_hour l).*2).
Proof.
  intros Hg. apply triple_at. intros fs Hs. pose proof (by_hour_ok l Hg) as Hok.
  pose proof (part_files_distinct _ _ (proj1 Hg) Hok) as Hdist.
  unfold staging_rows in Hs. destruct (last (by_hour l)) as [[k part]|] eqn:El.
  - pose proof (last_split _ _ El) as Esplit. destruct (wr_open _ _ _ _ _ _ Hs) as (w & Eo & Hw). cbv zeta in Eo, Hw. rewrite Eo.
    eapply triple_conseq; [eapply (finish_writing (removelast (by_hour l)) k part s fs)|done|]; [|exact Hs|exact Eo|].
    + rewrite Esplit, !fmap_app in Hdist. cbn in Hdist. apply NoDup_app in Hdist as (_ & Hf & _). intros Hin.
      apply (Hf _ Hin). by left.
    + intros staged fs' X. rewrite Esplit, fmap_app. exact X.
  - destruct Hs as (-> & -> & Hk). apply last_None in El. rewrite El. apply triple_ret; [done|]. intros fs' ->.
    split_and!; [by rewrite app_nil_r|constructor|]. eapply keeps_mono; [|exact Hk]. intros q Hq. by left.
Qed.
End staging.

(** *** The whole group *)

Lemma sorted_ts l : sorted_heads l -> StronglySorted (fun x y => h_ts x <= h_ts y) l.
Proof.
  intros Hs. eapply sorted_impl; [|exact Hs]. intros x y Hle. unfold key_le in Hle. apply cle_fst, cle_fst in Hle.
  unfold cle, cmp, cmp_Z in Hle. cbn in Hle. by rewrite Z.compare_gt_iff, Z.nlt_ge in Hle.
Qed.

Lemma merged_good l : arrivals_unique l -> Forall head_ok l -> good_heads (merged l).
Proof. intros Hu Hok. split; [by apply merged_ok|by apply sorted_ts, merged_sorted]. Qed.

(** [merge_partition] stages the merged rows hour by hour. *)
Lemma merge_partition_rows fs runs_ (R : path -> list Head) memory lm n st0 :
  numbered next_path runs_ n -> (forall p, p ∈ runs_ -> Bounded.run_file fs p (R p)) ->
  memory_streams memory lm -> sorted_heads lm -> Forall head_ok lm ->
  arrivals_unique (concat (R <$> runs_) ++ lm) ->
  let all := concat (R <$> runs_) ++ lm in
  triple (fun fs' => fs' = fs) (merge_partition flush series epoch keys name runs_ memory n st0) any_files (fun r fs' =>
    staged_rows (old_or_new next_path runs_ n) fs st0 (by_hour (merged all)).*2 r.2 fs' /\ (n <= r.1.2)%nat /\
    r.1.1 = add_stats stats_default (length all) (length (merged all))).
Proof.
  intros Hnum HR Hmem Hsm Hokm Hu all.
  assert (good_heads (merged all)) as Hgood.
  { apply merged_good; [done|]. apply Forall_app. split; [|done]. apply Forall_concat, Forall_fmap, Forall_forall.
    intros p Hp. by apply (rf_ok fs p), HR. }
  unfold merge_partition. set (D0 := old_or_new next_path runs_ n).
  eapply triple_bind.
  { apply (faulty_merge_bounded next_path (fun l s fs' => good_heads l -> staging_rows D0 fs st0 l s fs') _ fs runs_ R memory lm);
      [| |done|done|done|done|done].
    - intros l h s w Hw. split; [done|]. destruct (stage_row _ _ _ _ _ h s w) as [w' [s'| |]] eqn:E; [|done|done].
      cbn. intros Hg. pose proof (stage_row_rows D0 fs st0 l h s Hg w (Hw (good_prefix _ _ Hg))) as [_ Hq]. by rewrite E in Hq.
    - intros fs1 Hsame _. by split_and!. }
  intros [[st n'] s]. cbn [fst snd]. apply triple_at. intros fs1 (Hi & Hn & ->). fold all in Hi |- *.
  eapply triple_bind; [eapply triple_conseq; [by apply (finish_open_rows D0 fs st0)| |intros r fs' X; exact X]|].
  { intros ? ->. by apply Hi. }
  intros staged. apply triple_ret; [done|]. by intros fs' Hst.
Qed.
End group.
