(* ===== verification/FlushStage.v ===== *)
(** * FlushStage: what a flush stages

    The second phase, for all groups: whatever errors occur, when [stage] returns, the
    staged files are, for each group in key order and each of its hours, one file that
    holds the group's rows of that hour, each row once. *)

From Stdlib Require Import ZArith Lia.
From Stdlib Require Import Strings.Byte.
From S2P Require Import Prelude Text Record Codec CodecProofs CodecTheorems Disk Wal Reader Recovery Heap Merge MergeProofs Sources Bounded BatchProofs Spill Time Config Manifest Columns ColumnsProofs Planner Decode Local MergeFaults FlushLocal FlushRows FlushTable.
Open Scope Z_scope.

(** ** The staged files *)

(** The groups that occur, in key order. *)
Definition groups_of (hs : list (GroupKey * Head)) : list GroupKey := sort_by_key id (remove_dups hs.*1).

(** The rows of a group cut by hours. *)
Definition group_parts (hs : list (GroupKey * Head)) (g : GroupKey) : list (list Head) :=
  (by_hour (merged (of_group g hs))).*2.

Section staged.
Context `{Crc32} `{Parquet} (flush : FlushConfig) (first last_ : Z) (keys_of : GroupKey -> list KeyDef).

Definition file_name (g : GroupKey) : bytes := output_file_name first last_ g.2.

Definition group_files (parts : GroupKey -> list (list Head)) (g : GroupKey) : list (WrittenFile * path) :=
  written_of g.1 g.2 (file_name g) <$> parts g.

(** The files of [gs] are closed and hold their rows. *)
Definition groups_closed (parts : GroupKey -> list (list Head)) (gs : list GroupKey) (fs : Files) : Prop :=
  Forall (fun g => Forall (closed_file flush g.1 g.2 (keys_of g) (file_name g) fs) (parts g)) gs.

Lemma group_files_paths parts g : (group_files parts g).*2 = part_file g.1 (file_name g) <$> parts g.
Proof. unfold group_files. by rewrite <-list_fmap_compose. Qed.

Lemma show_inj a b : 0 <= a -> 0 <= b -> show a = show b -> a = b.
Proof. intros Ha Hb. rewrite !show_as_pad by done. by apply show_pad_inj. Qed.

Lemma group_paths_apart g g' part part' : 0 <= g.2 -> 0 <= g'.2 ->
  part_file g.1 (file_name g) part = part_file g'.1 (file_name g') part' -> g = g'.
Proof.
  intros Hg Hg' (Es & _ & En)%staged_path_inj. unfold file_name, output_file_name in En.
  apply app_inv_head, app_inv_head, app_inv_head, app_inv_head in En. apply app_inv_tail in En.
  apply show_inj in En; [|done|done]. destruct g, g'. cbn in *. by subst.
Qed.

(** ** All groups *)

Section groups.
Context (spilled : gmap GroupKey (list path)) (memory : gmap GroupKey MemRun)
  (R : path -> list Head) (lm : GroupKey -> list Head).
Context (Hmem : forall g, memory_streams (memory !! g) (lm g)) (Hsm : forall g, sorted_heads (lm g))
  (Hokm : forall g, Forall head_ok (lm g)).
Context (Hapart : forall g g' ps ps' p, spilled !! g = Some ps -> spilled !! g' = Some ps' -> p ∈ ps -> p ∈ ps' -> g = g').

Definition kept (g : GroupKey) : list Head := concat (R <$> default [] (spilled !! g)) ++ lm g.
Definition kept_parts (g : GroupKey) : list (list Head) := (by_hour (merged (kept g))).*2.

Context (Hu : forall g, arrivals_unique (kept g)).

Definition runs_ready (gs : list GroupKey) (n : nat) (fs : Files) : Prop :=
  forall g, g ∈ gs -> numbered next_path (default [] (spilled !! g)) n /\
    forall p, p ∈ default [] (spilled !! g) -> Bounded.run_file fs p (R p).

(** What staging some groups may change. *)
Definition of_groups (gs : list GroupKey) (p : path) : Prop :=
  run_file p \/ exists g, g ∈ gs /\ p ∈ part_file g.1 (file_name g) <$> kept_parts g.

Lemma numbered_runs ps n p : numbered next_path ps n -> p ∈ ps -> run_file p.
Proof. intros [_ Hn] Hp. destruct (Hn p Hp) as (m & _ & ->). apply run_file_next. Qed.

Lemma part_not_run series name part : ~ run_file (part_file series name part).
Proof. done. Qed.

(** Staging one group leaves the runs of the others alone. *)
Lemma ready_next g gs n n' fs fs1 : g ∉ gs -> (n <= n')%nat ->
  keeps (fun p => old_or_new next_path (default [] (spilled !! g)) n p \/ p ∈ part_file g.1 (file_name g) <$> kept_parts g) fs fs1 ->
  runs_ready (g :: gs) n fs -> runs_ready gs n' fs1.
Proof.
  intros Hn Hle Hk Hready g' Hg'. destruct (Hready g' ltac:(by right)) as [[Hnd' Hnum'] HR']. split.
  - split; [done|]. intros p Hp. destruct (Hnum' p Hp) as (m & Hm & ->). exists m. split; [lia|done].
  - intros p Hp. destruct (HR' p Hp) as [Hb Ho Hs]. split; [|done..]. rewrite Hk; [done|].
    pose proof (numbered_runs _ _ _ (conj Hnd' Hnum') Hp) as Hrun.
    intros [[Hin|(m & Hm & ->)]|(part & -> & _)%list_elem_of_fmap].
    + apply Hn. replace g with g'; [done|].
      destruct (spilled !! g) as [ps|] eqn:E1; [|by apply elem_of_nil in Hin].
      destruct (spilled !! g') as [ps'|] eqn:E2; [|by apply elem_of_nil in Hp]. by eapply Hapart.
    + destruct (Hnum' _ Hp) as (m' & Hm' & E). apply (inj next_path) in E. lia.
    + by apply part_not_run in Hrun.
Qed.

Lemma phase2_rows schemas gs n staged st fs : NoDup gs -> Forall (fun g => 0 <= g.2) gs ->
  (forall g, g ∈ gs -> default [] (schemas !! g) = keys_of g) -> runs_ready gs n fs ->
  triple (fun fs' => fs' = fs) (phase2 flush first last_ schemas memory spilled gs n staged st) any_files (fun r fs' =>
    r.1 = staged ++ concat (group_files kept_parts <$> gs) /\
    emitted r.2 = emitted st + zlen (concat ((fun g => merged (kept g)) <$> gs)) /\
    groups_closed kept_parts gs fs' /\ keeps (of_groups gs) fs fs').
Proof.
  intros Hnd He Hsch. revert n staged st fs. induction gs as [|g gs IH]; intros n staged st fs Hready; cbn [phase2].
  { apply triple_ret; [done|]. intros fs' ->. cbn. rewrite app_nil_r, Z.add_0_r. split_and!; [done|done|constructor|apply keeps_refl]. }
  apply NoDup_cons in Hnd as [Hn Hnd]. apply Forall_cons in He as [Hg He].
  destruct (Hready g ltac:(by left)) as [Hnum HR]. set (runs_ := default [] (spilled !! g)) in *.
  eapply triple_bind.
  { apply (merge_partition_rows flush g.1 g.2 _ _ fs runs_ R (memory !! g) (lm g)); try done. apply (Hu g). }
  rewrite (Hsch g) by (by left). fold (file_name g). intros [[st1 n'] staged']. cbn [fst snd]. apply triple_at.
  intros fs1 ((-> & Hcl & Hk) & Hle & ->). fold runs_ in Hcl, Hk. change (concat (R <$> runs_) ++ lm g) with (kept g) in *.
  fold (kept_parts g) in Hcl, Hk |- *.
  pose proof (ready_next g gs n n' fs fs1 Hn Hle Hk Hready) as Hready1.
  eapply triple_conseq; [apply (IH Hnd He (fun g' Hg' => Hsch g' (proj2 (elem_of_cons _ _ _) (or_intror Hg'))) n' _ _ fs1 Hready1)|done|].
  intros r fs' (-> & Eem & Hcl' & Hk'). split_and!.
  - cbn [fmap list_fmap concat]. by rewrite app_assoc.
  - rewrite Eem. cbn [fmap list_fmap concat emitted add_stats]. rewrite zlen_app. unfold add_stats, zlen. cbn. lia.
  - constructor; [|done]. eapply Forall_impl; [exact Hcl|]. intros part. apply closed_keeps with (D := of_groups gs); [done|].
    intros [Hrun|(g' & Hg' & (part' & E & _)%list_elem_of_fmap)]; [by apply part_not_run in Hrun|].
    apply group_paths_apart in E as ->; [done|done|]. rewrite Forall_forall in He. by apply He.
  - eapply keeps_trans; (eapply keeps_mono; [|eassumption]); intros p.
    + intros [[Hp|(m & _ & ->)]|Hp]; [left; by eapply numbered_runs|left; apply run_file_next|right; exists g; split; [by left|done]].
    + intros [Hp|(g' & Hg' & Hp)]; [by left|right; exists g'; split; [by right|done]].
Qed.
End groups.

(** ** The phase *)

Lemma insert_all_lookup (l : list (GroupKey * MemRun)) (m0 : gmap GroupKey MemRun) g : NoDup l.*1 ->
  (forall v, (g, v) ∈ l -> foldl (fun (m : gmap GroupKey MemRun) p => <[p.1 := p.2]> m) m0 l !! g = Some v) /\
  (g ∉ l.*1 -> foldl (fun (m : gmap GroupKey MemRun) p => <[p.1 := p.2]> m) m0 l !! g = m0 !! g).
Proof.
  revert m0. induction l as [|[k v] l IH]; intros m0; [split; [by intros ? ?%elem_of_nil|done]|].
  cbn [fmap list_fmap fst foldl snd]. intros [Hn Hd]%NoDup_cons. destruct (IH (<[k := v]> m0) Hd) as [IH1 IH2]. split.
  - intros x [[= -> ->]|Hx]%elem_of_cons; [|by apply IH1]. rewrite IH2 by done. apply lookup_insert_eq.
  - intros [Hne Hg]%not_elem_of_cons. rewrite IH2 by done. by apply lookup_insert_ne.
Qed.

Lemma merged_nonempty l : arrivals_unique l -> l <> [] -> merged l <> [].
Proof.
  intros Hu Hl E. destruct l as [|h l]; [done|].
  destruct (first_exists row_key h_arrival (h :: l) h ltac:(by left)) as (x & Hx & _).
  apply (elem_of_dedup_sort row_key h_arrival _ _ Hu) in Hx. unfold merged in E. rewrite E in Hx. by apply elem_of_nil in Hx.
Qed.

Lemma of_group_nonempty g hs : g ∈ hs.*1 <-> of_group g hs <> [].
Proof.
  split.
  - intros ([k h] & -> & Hp)%list_elem_of_fmap E. cbn in E. apply elem_of_group in Hp. rewrite E in Hp. by apply elem_of_nil in Hp.
  - intros Hne. destruct (of_group g hs) as [|h l] eqn:E; [done|]. apply list_elem_of_fmap. exists (g, h). split; [done|].
    apply elem_of_group. rewrite E. by left.
Qed.

Lemma elem_of_groups hs g : g ∈ groups_of hs <-> of_group g hs <> [].
Proof. unfold groups_of. rewrite elem_of_sort, elem_of_remove_dups. apply of_group_nonempty. Qed.

(** The sources are the groups of the records. *)
Lemma group_keys_eq (memory : gmap GroupKey MemRun) (spilled : gmap GroupKey (list path)) hs :
  (forall g, is_Some (memory !! g) \/ is_Some (spilled !! g) <-> of_group g hs <> []) ->
  group_keys memory spilled = groups_of hs.
Proof.
  intros Hg. unfold group_keys, groups_of. apply sort_perm_eq; [done|].
  apply NoDup_Permutation; [apply NoDup_elements|apply NoDup_remove_dups|]. intros g.
  rewrite elem_of_elements, elem_of_union, !elem_of_dom, Hg, elem_of_remove_dups. symmetry. apply of_group_nonempty.
Qed.
End staged.

Section stage.
Context `{Crc32} `{Parquet} (m : Manifest) (fs0 : Files).

Definition keys_in (g : GroupKey) : list KeyDef := default [] (schema m g.1 g.2).

(** The memory runs by group. *)
Definition memory_of (b : Batch) : gmap GroupKey MemRun :=
  foldl (fun m p => <[p.1 := p.2]> m) ∅ (into_sources b).2.

(** What the batch holds of a group, sorted. *)
Definition memory_heads (b : Batch) (g : GroupKey) : list Head := merged (of_group g (content b)).

Lemma memory_of_spec b g : batch_wf b -> arrivals_distinct (content b) ->
  (is_Some (memory_of b !! g) <-> of_group g (content b) <> []) /\
  memory_streams (memory_of b !! g) (memory_heads b g).
Proof.
  intros Hwf Hd. pose proof (into_sources_spec b Hwf Hd) as (Hnd & Hst & Hocc). unfold memory_of.
  destruct (into_sources b) as [b' sources]. cbn [snd] in *.
  destruct (insert_all_lookup sources ∅ g Hnd) as [Hl1 Hl2].
  destruct (decide (g ∈ sources.*1)) as [Hin|Hn].
  - pose proof Hin as ([k mm] & E & Hp)%list_elem_of_fmap. cbn in E. subst k. rewrite (Hl1 mm Hp).
    split; [split; [intros _; by apply Hocc|by eexists]|]. by apply Hst.
  - rewrite (Hl2 Hn), lookup_empty. split.
    + split; [by intros []%is_Some_None|]. intros Hne. by apply Hocc in Hne.
    + cbn. unfold memory_heads. destruct (decide (of_group g (content b) = [])) as [->|Hne]; [done|].
      by destruct Hn; apply Hocc.
Qed.

Section sources.
Context (all : list (GroupKey * Head)) (spilled : gmap GroupKey (list path)) (n : nat) (b : Batch)
  (R : path -> list Head) (fs : Files).
Context (Hs : stocked all spilled n b R fs) (Hd : arrivals_distinct all).

Lemma kept_incl g x : x ∈ kept spilled R (memory_heads b) g -> x ∈ stock spilled R b g.
Proof.
  unfold kept, stock, memory_heads. intros [Hx|Hx]%elem_of_app; apply elem_of_app; [by left|right].
  by apply merged_incl in Hx; [|apply arrivals_distinct_group, (sk_distinct _ _ _ _ _ _ Hs)].
Qed.

Lemma kept_unique g : arrivals_unique (kept spilled R (memory_heads b) g).
Proof. eapply arrivals_incl; [exact (stock_unique _ _ _ _ _ _ g Hs Hd)|apply kept_incl]. Qed.

(** The sources of a group hold exactly its records. *)
Lemma merged_kept g : merged (kept spilled R (memory_heads b) g) = merged (of_group g all).
Proof. rewrite <-(sk_merged _ _ _ _ _ _ Hs g). apply merged_absorb_r, (stock_unique _ _ _ _ _ _ g Hs Hd). Qed.

(** The groups with sources are the groups of the records. *)
Lemma sources_groups : group_keys (memory_of b) spilled = groups_of all.
Proof.
  apply group_keys_eq. intros g.
  rewrite (proj1 (memory_of_spec b g (sk_batch _ _ _ _ _ _ Hs) (sk_distinct _ _ _ _ _ _ Hs))). split.
  - intros [Hne|Hsp]; [|by apply (sk_groups _ _ _ _ _ _ Hs)].
    destruct (of_group g (content b)) as [|h l] eqn:E; [done|]. intros E2.
    pose proof (sk_incl _ _ _ _ _ _ Hs g h) as Hi. rewrite E2 in Hi. unfold stock in Hi. rewrite E in Hi.
    apply elem_of_nil in Hi; [done|]. apply elem_of_app. right. by left.
  - intros Hne. apply (merged_nonempty _ (arrivals_distinct_group _ g Hd)) in Hne.
    rewrite <-(sk_merged _ _ _ _ _ _ Hs g) in Hne.
    destruct (decide (of_group g (content b) = [])) as [E|]; [|by left]. right. unfold stock in Hne.
    rewrite E, app_nil_r in Hne. destruct (spilled !! g) as [ps|] eqn:Eg; [by eexists|done].
Qed.

Lemma memory_heads_ok : Forall (fun p => head_ok p.2) all -> forall g, Forall head_ok (memory_heads b g).
Proof.
  intros Hok g. apply merged_ok; [apply arrivals_distinct_group, (sk_distinct _ _ _ _ _ _ Hs)|].
  apply Forall_forall. intros h Hh. rewrite Forall_forall in Hok.
  apply (Hok (g, h)). by apply (stocked_content _ _ _ _ _ _ _ Hs), elem_of_group.
Qed.

Lemma sources_ready gs : runs_ready spilled R gs n fs.
Proof.
  intros g _. destruct (spilled !! g) as [ps|] eqn:Eg.
  - split; [by apply (sk_numbered _ _ _ _ _ _ Hs g)|]. intros p Hp. by apply (sk_runs _ _ _ _ _ _ Hs g ps).
  - split; [split; [constructor|]|]; by intros p ?%elem_of_nil.
Qed.
End sources.

(** The files of all groups. *)
Definition table_files (first last_ : Z) (all : list (GroupKey * Head)) : list (WrittenFile * path) :=
  concat (group_files first last_ (group_parts all) <$> groups_of all).

(** Everything a flush of the records [all] stages is closed. *)
Definition tables_closed (flush : FlushConfig) (first last_ : Z) (all : list (GroupKey * Head)) : Files -> Prop :=
  groups_closed flush first last_ keys_in (group_parts all) (groups_of all).

(** The sources of the second phase hold the records of the consumed segments. *)
Lemma stage_rows c first last_ s looked_ fs :
  gathered m fs0 looked_ s fs -> Forall (flushable fs0) looked_ -> NoDup looked_ ->
  let all := flush_heads m fs0 (p1_consumed s) in
  triple (fun fs' => fs' = fs) (stage c first last_ s) any_files (fun r fs' =>
    r.1.1 = table_files first last_ all /\
    r.1.2 = zlen (concat ((fun g => merged (of_group g all)) <$> groups_of all)) /\
    tables_closed (cfg_flush c) first last_ all fs' /\
    keeps (fun p => run_file p \/ p ∈ (table_files first last_ all).*2) fs fs').
Proof.
  intros [[R Hs] Hc Hsch _ Econ _] Hf Hnd. destruct (taken_ok m fs0 looked_ Hf Hnd) as [Hd [Hok Hep]%Forall_and].
  rewrite Econ. set (all := flush_heads m fs0 (goods fs0 looked_)) in *. cbv zeta. unfold stage. eapply triple_bind; [by idle|]. intros [].
  pose proof (sk_batch _ _ _ _ _ _ Hs) as Hwf. pose proof (sk_distinct _ _ _ _ _ _ Hs) as Hdb.
  destruct (into_sources (p1_batch s)) as [batch sources] eqn:Es. cbv zeta.
  replace (foldl _ ∅ sources) with (memory_of (p1_batch s)) by (unfold memory_of; by rewrite Es).
  rewrite (sources_groups _ _ _ _ _ _ Hs Hd). set (spilled := sp_groups (p1_spill s)) in *.
  set (lm := memory_heads (p1_batch s)).
  pose proof (merged_kept _ _ _ _ _ _ Hs Hd) as Hkept. fold lm in Hkept.
  assert (forall g, kept_parts spilled R lm g = group_parts all g) as Eparts
    by (intros g; unfold kept_parts, group_parts; by rewrite Hkept).
  assert (forall p g, p.1 = g -> p ∈ all -> g ∈ all.*1) as Hin by (intros p g <- Hp; by apply list_elem_of_fmap_2).
  assert (forall g, g ∈ groups_of all -> exists p, g = p.1 /\ p ∈ all) as Hgs
    by (by intros g Hg%elem_of_groups%of_group_nonempty%list_elem_of_fmap).
  eapply triple_bind.
  { apply (phase2_rows (cfg_flush c) first last_ keys_in spilled (memory_of (p1_batch s)) R lm).
    - intros g. by apply memory_of_spec.
    - intros g. by apply merged_sorted, arrivals_distinct_group.
    - by eapply memory_heads_ok.
    - intros g g' ps ps' p Hg Hg'. by apply (sk_apart _ _ _ _ _ _ Hs g g' ps ps').
    - by eapply kept_unique.
    - unfold groups_of. rewrite (sort_perm id). apply NoDup_remove_dups.
    - apply Forall_forall. intros g (p & -> & Hp)%Hgs. rewrite Forall_forall in Hep. by apply Hep.
    - intros g (p & -> & Hp)%Hgs. rewrite Forall_forall in Hsch. destruct (Hsch p Hp) as [ks Hks].
      rewrite Hks. unfold keys_in. by rewrite (Hc _ _ Hks).
    - by eapply sources_ready. }
  assert (group_files first last_ (kept_parts spilled R lm) <$> groups_of all =
    group_files first last_ (group_parts all) <$> groups_of all) as Efiles
    by (apply list_fmap_ext; intros i g _; unfold group_files; by rewrite Eparts).
  intros [staged st]. cbn [fst snd]. eapply triple_bind.
  { eapply (triple_local (fun _ => False)); [apply local_fsync_staging|done|by intros fs1 fs2 ->%keeps_none]. }
  intros []. apply triple_ret; [done|]. cbn [fst snd]. intros fs' (-> & -> & Hcl & Hk). split_and!.
  - unfold table_files. by rewrite Efiles.
  - change (emitted stats_default) with 0. rewrite Z.add_0_l. do 2 f_equal. apply list_fmap_ext. intros i g _. apply Hkept.
  - unfold tables_closed, groups_closed. eapply Forall_impl; [exact Hcl|]. cbn beta. intros g Hg. by rewrite <-Eparts.
  - eapply keeps_mono; [|exact Hk]. intros p [Hp|(g & Hg & Hp)]; [by left|right]. unfold table_files.
    rewrite Eparts, <-group_files_paths in Hp. rewrite list_elem_of_fmap in Hp |- *. destruct Hp as (q & -> & Hq).
    exists q. split; [done|]. apply list_elem_of_In, in_concat. exists (group_files first last_ (group_parts all) g).
    rewrite <-!list_elem_of_In. split; [|done]. by apply list_elem_of_fmap_2.
Qed.
End stage.
