(* ===== verification/FlushTotal.v ===== *)
(** * FlushTotal: a flush without faults completes

    Each phase of a flush, started in the state the phase before leaves, returns when no
    call fails and every record fits its table. Together with the triples of the phases
    (which say what they leave when they return) this is total correctness. *)

From Stdlib Require Import ZArith Lia.
From Stdlib Require Import Strings.Byte.
From S2P Require Import Prelude Text Record Codec CodecProofs CodecTheorems Disk Wal Reader Recovery Heap Merge MergeProofs Sources Bounded BatchProofs Spill Time Config Manifest Columns ColumnsProofs ColumnsTheorems View Planner Local Decode MergeFaults FlushLocal FlushRows FlushTable FlushStage Total.
Open Scope Z_scope.

Section total.
Context `{Crc32} `{Parquet}.

(** ** The writer *)

Lemma total_group w : total any_files (partition_group w).
Proof.
  unfold partition_group. cbv zeta. destruct (_ =? _)%nat; [apply total_ret|]. destruct (write_group _ _ _ _) as [g cu].
  apply total_any; [apply total_try_write|]. intros []. apply total_ret.
Qed.

Lemma total_append w ts id ks extra data c : builder_append (pw_builder w) ts id ks extra data = (c, Ok tt) ->
  total any_files (partition_append w ts id ks extra data).
Proof.
  intros E. unfold partition_append. rewrite E. apply total_any; [apply total_ret|]. intros _. cbv zeta.
  destruct (_ <=? _)%nat; [apply total_group|apply total_ret].
Qed.

Lemma total_create p series epoch keys comp n props : writer_properties series epoch comp = Ok props ->
  total any_files (partition_create p series epoch keys comp n).
Proof.
  intros E. unfold partition_create. rewrite E. apply total_any; [apply total_ret|]. intros pr. cbv zeta.
  apply total_any; [apply total_try_write|]. intros []. apply total_any; [apply total_try_write|].
  intros []. apply total_ret.
Qed.

Lemma total_finish series epoch f staged : total any_files (finish_file series epoch f staged).
Proof.
  destruct f as [[hour p] w]. unfold finish_file, partition_finish. apply total_any; [|intros; apply total_ret].
  apply total_any; [apply total_group|]. intros w'. apply total_any; [apply total_try_write|]. intros [].
  apply total_any; [apply total_try_idle, _|]. intros []. apply total_ret.
Qed.

(** ** One group *)

(** The record decodes and its row fits the columns. *)
Definition storable (keys : list KeyDef) (h : Head) : Prop :=
  (exists d, decode_verified (h_frame h) (length keys) = Ok d) /\ row_fits keys (head_row (length keys) h) = true.

Section group.
Context (flush : FlushConfig) (series : bytes) (epoch : Z) (keys : list KeyDef) (name : bytes) (props : Props).
Context (Hprops : writer_properties series epoch (compression flush) = Ok props).

Lemma total_open_hour ts s : total any_files (open_hour flush series epoch keys name ts s).
Proof.
  unfold open_hour. cbv zeta. destruct (match st_open s with Some _ => _ | None => _ end); [apply total_ret|].
  apply total_any; [destruct (st_open s) as [[h f]|]; [apply total_finish|apply total_ret]|]. intros staged.
  apply total_any; [apply total_try_idle, _|]. intros []. apply total_any; [by eapply total_create|].
  intros w. apply total_ret.
Qed.

Lemma total_stage_row D0 fs0 st0 l h s : good_heads (l ++ [h]) -> storable keys h ->
  total (staging_rows flush series epoch keys name D0 fs0 st0 l s) (stage_row flush series epoch keys name h s).
Proof.
  intros Hg [[d Hd] Hfit]. unfold stage_row. eapply total_bind.
  { eapply total_conseq; [|apply total_open_hour]. done. }
  { by apply open_hour_rows. }
  intros s1 fs (cl & k & part & E & [(w & Eo & Hw) Hst Hcl Hk]). rewrite Hd, Eo. cbv zeta.
  destruct Hw as (pr & full & rem & -> & _ & _ & _ & _ & _ & _).
  pose proof (append_row_of series keys rem (head_row (length keys) h)) as Ha. rewrite Hfit in Ha.
  unfold append_row, head_row in Ha. rewrite Hd in Ha. cbn [row_ts row_id row_keys row_extra row_data] in Ha.
  apply (total_any any_files); [|intros; apply total_ret|done]. eapply total_append. exact Ha.
Qed.

Lemma total_stage_rows D0 fs0 st0 l' : forall l s, good_heads (l ++ l') -> Forall (storable keys) l' ->
  total (staging_rows flush series epoch keys name D0 fs0 st0 l s) (io_fold (stage_row flush series epoch keys name) l' s).
Proof.
  induction l' as [|h l' IH]; intros l s Hg Hs; cbn [io_fold]; [apply total_ret|].
  apply Forall_cons in Hs as [Hh Hs]. replace (l ++ h :: l') with ((l ++ [h]) ++ l') in Hg by (by rewrite <-app_assoc).
  pose proof (good_prefix _ _ Hg) as Hg1. eapply total_bind; [by apply total_stage_row|by apply stage_row_rows|].
  intros s'. by apply IH.
Qed.

Lemma total_merge_partition fs runs_ (R : path -> list Head) memory lm n st0 :
  numbered next_path runs_ n -> (forall p, p ∈ runs_ -> Bounded.run_file fs p (R p)) ->
  memory_streams memory lm -> sorted_heads lm -> Forall head_ok lm ->
  arrivals_unique (concat (R <$> runs_) ++ lm) ->
  Forall (storable keys) (concat (R <$> runs_) ++ lm) ->
  total (fun fs' => fs' = fs) (merge_partition flush series epoch keys name runs_ memory n st0).
Proof.
  intros Hnum HR Hmem Hsm Hokm Hu Hst ? ->. set (all := concat (R <$> runs_) ++ lm) in *.
  assert (good_heads (merged all)) as Hgood.
  { apply merged_good; [done|]. apply Forall_app. split; [|done]. apply Forall_concat, Forall_fmap, Forall_forall.
    intros p Hp. by apply (rf_ok fs p), HR. }
  assert (Forall (storable keys) (merged all)) as Hstm.
  { apply Forall_forall. intros h Hh%merged_incl; [|done]. rewrite Forall_forall in Hst. by apply Hst. }
  destruct (merge_bounded_spec next_path (stage_row flush series epoch keys name) fs runs_ R memory lm
    (Z.to_nat (merge_fan_in flush)) n (mkStaging None st0)) as (fs1 & n1 & Hsame & _ & Hmerge); try done.
  fold all in Hmerge.
  assert (staging_rows flush series epoch keys name (fun _ => True) fs1 st0 [] (mkStaging None st0) fs1) as Hstart
    by (split_and!; [done|done|apply keeps_refl]).
  destruct (total_stage_rows (fun _ => True) fs1 st0 (merged all) [] _ Hgood Hstm fs1 Hstart) as (fs2 & s & Hrun).
  assert (exists st, runs (merge_bounded next_path (stage_row flush series epoch keys name) runs_ memory
    (Z.to_nat (merge_fan_in flush)) n (mkStaging None st0)) fs fs2 (Ret (st, n1, s))) as [st Hm].
  { eexists. unfold runs in *. rewrite Hmerge. unfold mbind, io_bind. cbn [exec]. rewrite Hrun. reflexivity. }
  assert (total any_files (match st_open s with
    | Some (_, file) => finish_file series epoch file (st_staged s) | None => mret (st_staged s) end)) as Hfin
    by (destruct (st_open s) as [[h f]|]; [apply total_finish|apply total_ret]).
  destruct (Hfin fs2 I) as (fs3 & staged & Hr3). exists fs3, (st, n1, staged).
  unfold merge_partition. eapply runs_bind; [exact Hm|]. cbv beta iota. eapply runs_bind; [exact Hr3|]. apply runs_ret.
Qed.
End group.

(** ** All groups *)

Section groups.
Context (flush : FlushConfig) (first last_ : Z) (keys_of : GroupKey -> list KeyDef).
Context (Hprops : forall g, exists props, writer_properties g.1 g.2 (compression flush) = Ok props).
Context (spilled : gmap GroupKey (list path)) (memory : gmap GroupKey MemRun)
  (R : path -> list Head) (lm : GroupKey -> list Head).
Context (Hmem : forall g, memory_streams (memory !! g) (lm g)) (Hsm : forall g, sorted_heads (lm g))
  (Hokm : forall g, Forall head_ok (lm g)).
Context (Hapart : forall g g' ps ps' p, spilled !! g = Some ps -> spilled !! g' = Some ps' -> p ∈ ps -> p ∈ ps' -> g = g').
Context (Hu : forall g, arrivals_unique (kept spilled R lm g)).
Context (Hst : forall g, Forall (storable (keys_of g)) (kept spilled R lm g)).

Lemma total_phase2 schemas gs : forall n staged st fs, NoDup gs ->
  (forall g, g ∈ gs -> default [] (schemas !! g) = keys_of g) -> runs_ready spilled R gs n fs ->
  total (fun fs' => fs' = fs) (phase2 flush first last_ schemas memory spilled gs n staged st).
Proof.
  induction gs as [|g gs IH]; intros n staged st fs Hnd Hsch Hready; cbn [phase2]; [apply total_ret|].
  apply NoDup_cons in Hnd as [Hn Hnd]. destruct (Hprops g) as [props Hp].
  destruct (Hready g ltac:(by left)) as [Hnum HR]. rewrite (Hsch g) by (by left).
  eapply total_bind.
  - eapply (total_merge_partition flush g.1 g.2 _ _ props Hp fs _ R _ (lm g)); first [exact (Hu g)|exact (Hst g)|done].
  - apply (merge_partition_rows flush g.1 g.2 _ _ fs _ R _ (lm g)); try done. apply (Hu g).
  - intros [[st1 n'] staged']. cbn [fst snd]. apply total_at. intros fs1 ((_ & _ & Hk) & Hle & _).
    apply IH; [done|intros g' Hg'; apply Hsch; by right|].
    by apply (ready_next first last_ spilled R lm Hapart g gs n n' fs fs1).
Qed.
End groups.

Lemma total_fsync_staging P staged : total P (fsync_staging staged).
Proof.
  apply (total_conseq _ any_files); [done|]. unfold fsync_staging, fsync_dir.
  apply total_any; [|intros; apply total_try_idle, _]. apply total_each_any. intros d. apply total_try_idle, _.
Qed.

(** The records of a flush decode and fit. *)
Definition all_storable (m : Manifest) (all : list (GroupKey * Head)) : Prop :=
  Forall (fun p => storable (keys_in m p.1) p.2) all.

Lemma total_stage m fs0 c first last_ s looked_ :
  compression (cfg_flush c) ∈ SUPPORTED_COMPRESSION ->
  Forall (flushable fs0) looked_ -> NoDup looked_ -> all_storable m (flush_heads m fs0 (p1_consumed s)) ->
  total (gathered m fs0 looked_ s) (stage c first last_ s).
Proof.
  intros Hcomp Hf Hnd Hst. apply total_at. intros fs [[R Hs] Hc Hsch _ Econ _].
  destruct (taken_ok m fs0 looked_ Hf Hnd) as [Hd [Hok _]%Forall_and]. rewrite <-Econ in *.
  set (all := flush_heads m fs0 (p1_consumed s)) in *. unfold stage.
  pose proof (sk_batch _ _ _ _ _ _ Hs) as Hwf. pose proof (sk_distinct _ _ _ _ _ _ Hs) as Hdb.
  destruct (into_sources (p1_batch s)) as [batch sources] eqn:Es. cbv zeta.
  replace (foldl _ ∅ sources) with (memory_of (p1_batch s)) by (unfold memory_of; by rewrite Es).
  rewrite (sources_groups _ _ _ _ _ _ Hs Hd).
  eapply total_bind; [apply total_try_idle, _|by apply (triple_try_idle (fun fs' => fs' = fs)); [apply _|]|]. intros [].
  apply total_any.
  - eapply (total_phase2 (cfg_flush c) first last_ (keys_in m)); try done.
    + intros g. by apply supported_properties.
    + intros g. by apply memory_of_spec.
    + intros g. by apply merged_sorted, arrivals_distinct_group.
    + by eapply memory_heads_ok.
    + intros g g' ps ps' p Hg Hg'. by apply (sk_apart _ _ _ _ _ _ Hs g g' ps ps').
    + by eapply kept_unique.
    + intros g. apply Forall_forall. intros h Hh. apply (kept_incl _ _ _ _ _ _ Hs), (sk_incl _ _ _ _ _ _ Hs), elem_of_group in Hh.
      unfold all_storable in Hst. rewrite Forall_forall in Hst. apply (Hst (g, h) Hh).
    + unfold groups_of. rewrite (sort_perm id). apply NoDup_remove_dups.
    + intros g Hg%elem_of_groups%of_group_nonempty. apply list_elem_of_fmap in Hg as (p & -> & Hp).
      rewrite Forall_forall in Hsch. destruct (Hsch p Hp) as [ks Hks]. rewrite Hks. unfold keys_in. by rewrite (Hc _ _ Hks).
    + by eapply sources_ready.
  - intros [staged st]. apply total_any; [apply total_fsync_staging|]. intros []. apply total_ret.
Qed.

(** ** Phase 1 *)

Section phase1.
Context (m : Manifest) (budget : Z) (fs0 : Files) (Hshort : short_names m).

Lemma total_spill l s : Forall (flushable fs0) l -> NoDup l ->
  total (gathered m fs0 l s) (spill_batch (p1_spill s) (p1_batch s)).
Proof.
  intros Hf Hnd fs [[R Hs] _ _ _ _ _]. destruct (taken_ok m fs0 l Hf Hnd) as [_ Hok].
  destruct (spill_spec next_path (p1_batch s) (sp_next (p1_spill s)) fs) as (fs' & out & b' & n' & Hr & _).
  - apply (sk_batch _ _ _ _ _ _ Hs).
  - apply (sk_distinct _ _ _ _ _ _ Hs).
  - apply Forall_forall. intros p Hp. rewrite Forall_forall in Hok. by eapply Hok, stocked_content.
  - eexists _, _. unfold spill_batch. eapply runs_bind; [apply runs_try, runs_idle, _|].
    eapply runs_bind; [exact Hr|]. apply runs_ret.
Qed.

Lemma total_read l id buf s : Forall (fun i => 0 <= i) (id :: l) -> id ∉ l -> fs0 !! segment_path id = Some buf ->
  total (gathered m fs0 l s) (try (read_file (segment_path id))).
Proof.
  intros Hl Hn Hb fs Hg. exists fs, buf. apply runs_try, runs_read. rewrite (segment_unchanged m fs0 l id s fs); done.
Qed.

Lemma total_phase1 ids : forall l s, Forall (flushable fs0) (l ++ ids) -> NoDup (l ++ ids) ->
  Forall (fun id => good_segment fs0 id = true) ids ->
  total (gathered m fs0 l s) (phase1 m budget ids s).
Proof.
  induction ids as [|id ids IH]; intros l s Hf Hnd Hgood; cbn [phase1]; [apply total_ret|].
  apply Forall_cons in Hgood as [Hg Hgood]. replace (l ++ id :: ids) with ((l ++ [id]) ++ ids) in Hf, Hnd by (by rewrite <-app_assoc).
  destruct (step_bounds fs0 l id ids Hf Hnd) as (Hf1 & Hnd1 & Hpos & Hn). pose proof Hf1 as [_ Hfi]%Forall_app. rewrite Forall_singleton in Hfi.
  destruct (good_readable _ _ Hfi Hg) as [buf Hr]. eapply total_bind; [by eapply total_read, rd_file|by apply gathered_read|].
  intros buf'. apply total_at. intros fs [Hb Hga]. rewrite (rd_file _ _ _ Hr) in Hb. injection Hb as <-.
  pose proof Hga as [[R Hs] _ _ _ _ _]. apply (total_bind _ (fun '(d, rejects, batch) fs => d_unreadable d = false /\
    forall rejected skipped, gathered m fs0 (l ++ [id])
      (phase1_add (mkPhase1 (p1_consumed s) (p1_schemas s) (p1_rows s) rejected skipped rejects (p1_spill s) batch)
        id d rejects batch) fs)).
  { eapply total_returns. apply (decode_segment_spec m id buf (p1_rejects s) (p1_batch s) Hshort
      (rd_header _ _ _ Hr) (rd_small _ _ _ Hr) (sk_batch _ _ _ _ _ _ Hs)). }
  { eapply triple_conseq; [by apply gathered_decode|by intros ? ->|done]. }
  intros [[d rejects] batch]. apply total_at. intros fs1 [Hun Hg1]. cbv zeta. rewrite Hun.
  set (s1 := phase1_add _ id d rejects batch) in *. destruct (_ && _); [|apply (total_conseq _ (gathered m fs0 (l ++ [id]) s1)); [intros ? ->; apply Hg1|by apply IH]].
  apply (total_bind _ (fun '(sp, b') => gathered m fs0 (l ++ [id]) (mkPhase1 (p1_consumed s1) (p1_schemas s1) (p1_rows s1)
    (p1_rejected s1) (p1_skipped s1) (p1_rejects s1) sp b'))).
  - apply (total_conseq _ (gathered m fs0 (l ++ [id]) s1)); [intros ? ->; apply Hg1|by apply total_spill].
  - eapply triple_conseq; [by apply (gathered_spill m fs0 (l ++ [id]) s1)|intros ? ->; apply Hg1|done].
  - intros [sp b']. by apply IH.
Qed.
End phase1.

(** ** The records fit *)

Lemma matches_fit keys values : matches_schema keys values = keys_fit keys values.
Proof.
  unfold matches_schema. revert values. induction keys as [|k keys IH]; intros [|v values]; try done.
  cbn [zip zip_with forallb keys_fit]. rewrite <-IH, !zlen_cons. unfold fits_type.
  replace (1 + zlen keys =? 1 + zlen values) with (zlen keys =? zlen values)
    by (destruct (Z.eqb_spec (zlen keys) (zlen values)); symmetry; [apply Z.eqb_eq|apply Z.eqb_neq]; lia).
  destruct (zlen keys =? zlen values), (value_key_type v); cbn; try done; by rewrite ?andb_false_r.
Qed.

Lemma frame_head_decodes m id max at_ f p : frame_head m id max at_ f = Some p ->
  exists d, decode_verified (h_frame p.2) (length (keys_in m p.1)) = Ok d /\
    p.1 = (rec_series (dec_record d), rec_epoch (dec_record d)) /\
    h_ts p.2 = rec_ts (dec_record d) /\ keys_fit (keys_in m p.1) (dec_keys d) = true.
Proof.
  unfold frame_head, frame_item. destruct (validate_prefix f max) as [pre|] eqn:Ev; [|done].
  destruct (key_count m _ _) as [n|] eqn:Ek; [|done]. destruct (decode f n max) as [d|] eqn:Ed; [|done].
  cbn [frame_record]. destruct (partial_readers_agree f n max d Ed) as (Hv & Hd & _). rewrite Hv in Ev. injection Ev as <-.
  cbn [pre_series pre_epoch] in Ek. destruct (matches_schema _ _) eqn:Em; [|done]. intros [= <-]. cbn [fst snd h_frame h_ts].
  destruct (key_count_schema m _ _ _ Ek) as (_ & keys & Hs & Hl). unfold keys_in. cbn [fst snd]. rewrite Hs in Em |- *.
  change (default [] (Some keys)) with keys in *. exists d. rewrite Hl. split_and!; [done..|]. by rewrite <-matches_fit.
Qed.

(** A record of a segment is that of a frame. *)
Lemma segment_head_frame m id buf p : p ∈ segment_heads m id buf ->
  exists max at_ f, frame_head m id max at_ f = Some p.
Proof.
  unfold segment_heads. generalize (zlen buf), SEGMENT_HEADER_BYTES.
  induction (records buf) as [|f frames IH]; intros max at_; cbn [frame_heads]; [by intros ?%elem_of_nil|].
  intros [Hf|Hf]%elem_of_app; [|by eapply IH]. exists max, at_, f.
  destruct (frame_head m id max at_ f); cbn in Hf; [by apply list_elem_of_singleton in Hf as <-|by apply elem_of_nil in Hf].
Qed.

Lemma taken_frame_head m fs ids p : p ∈ flush_heads m fs ids ->
  exists id max at_ f, frame_head m id max at_ f = Some p.
Proof.
  unfold flush_heads. intros Hin. apply list_elem_of_In, in_concat in Hin as (l & Hl & Hin).
  apply list_elem_of_In, list_elem_of_fmap in Hl as (id & -> & _). apply list_elem_of_In in Hin.
  exists id. by eapply segment_head_frame.
Qed.

Lemma taken_storable m fs ids : Forall (fun p => h_ts p.2 < i64_lim) (flush_heads m fs ids) ->
  all_storable m (flush_heads m fs ids).
Proof.
  unfold all_storable. rewrite !Forall_forall. intros Hts p Hp. destruct (taken_frame_head _ _ _ _ Hp) as (id & max & at_ & f & Hh).
  destruct (frame_head_decodes _ _ _ _ _ _ Hh) as (d & Hd & _ & Ht & Hk). split; [by exists d|].
  unfold head_row, row_fits. rewrite Hd. cbn [row_keys row_ts]. rewrite Hk, <-Ht. by apply Z.ltb_lt, Hts.
Qed.

(** The Parquet builder accepts the row of such a record exactly when its timestamp fits
    the signed column. *)
Lemma builder_accepts keys series rows h d : decode_verified (h_frame h) (length keys) = Ok d ->
  h_ts h = rec_ts (dec_record d) -> keys_fit keys (dec_keys d) = true ->
  (exists c, append_row (columns_of series keys rows) (head_row (length keys) h) = (c, Ok tt)) <-> h_ts h < i64_lim.
Proof.
  intros Hd Ht Hk. pose proof (append_row_of series keys rows (head_row (length keys) h)) as Ha.
  unfold row_fits, head_row in Ha. rewrite Hd in Ha. cbn [row_keys row_ts] in Ha. rewrite Hk in Ha.
  unfold head_row. rewrite Hd, Ht. cbn [andb] in Ha. destruct (Z.ltb_spec (rec_ts (dec_record d)) i64_lim) as [Hlt|Hge].
  - split; [done|]. intros _. eexists. exact Ha.
  - destruct Ha as (c & e & Ha). split; [|intros; lia]. intros (c' & Ha'). rewrite Ha in Ha'. done.
Qed.

(** What the decode stage promises of a record it puts in the batch under a group. *)
Definition fits_group (m : Manifest) (p : GroupKey * Head) : Prop :=
  let '(g, h) := p in
  exists d, decode_verified (h_frame h) (length (keys_in m g)) = Ok d /\
    g = (rec_series (dec_record d), rec_epoch (dec_record d)) /\ h_ts h = rec_ts (dec_record d) /\
    keys_fit (keys_in m g) (dec_keys d) = true /\
    forall rows, (exists c, append_row (columns_of g.1 (keys_in m g) rows) (head_row (length (keys_in m g)) h) = (c, Ok tt)) <->
      h_ts h < i64_lim.

Lemma segment_heads_fit m id buf : Forall (fits_group m) (segment_heads m id buf).
Proof.
  apply Forall_forall. intros [g h] Hin. destruct (segment_head_frame _ _ _ _ Hin) as (max & at_ & f & Hh).
  destruct (frame_head_decodes _ _ _ _ _ _ Hh) as (d & Hd & Hg & Ht & Hk). exists d. split_and!; [done..|].
  intros rows. by apply (builder_accepts _ _ _ _ d).
Qed.

(** C17: Type soundness of the decode stage, for any segment whose frames are below 4 GiB
    and any faults (the series names leave room for the 16-bit offset of the id):
    [decode_segment] does not fail, and it appends to the batch only records that fit.
    Such a record is under the series and epoch its frame names, decodes again at the
    merge against the keys the manifest has for them, and has the number and types of
    values the table's columns have: the Parquet builder accepts its row exactly when its
    timestamp fits the signed column. What is not taken is counted: of a segment that is
    read, every frame, and the torn tail as one, is a row or a rejection. *)
Theorem taken_records_fit m id buf rejects batch :
  short_names m -> small_frames (records buf) -> batch_wf batch ->
  returns (decode_segment id buf m rejects batch) (fun '(d, _, batch') =>
    exists taken, content batch' = content batch ++ taken /\ d_rows d = zlen taken /\
      Forall (fits_group m) taken /\
      (d_unreadable d = false -> d_rows d + d_rejected d = zlen (records buf) + stuck_count (torn buf))).
Proof.
  intros Hshort Hsm Hb. destruct (parse_segment_header buf) as [i|e] eqn:Eh.
  - eapply returns_mono; [apply decode_segment_spec; try done; by exists i|].
    intros [[d rj] b] [_ Hc Hr Hrj _ _ _ _ _]. exists (segment_heads m id buf). cbn in Hr, Hrj. split_and!; [done|lia| |lia].
    apply segment_heads_fit.
  - unfold decode_segment, reader_new. rewrite Eh. cbn [mbind result_bind].
    eapply returns_bind; [apply returns_try_quarantine|]. intros q _. apply returns_ret. exists []. cbn.
    split_and!; [by rewrite app_nil_r|done|constructor|done].
Qed.
End total.

(** ** Instances *)

#[local] Existing Instance Crc32_ieee.

Definition one_manifest : Manifest := mkManifest {[lit "orders" := [mkEpoch 3 sample_defs]]} 4 None.
Definition one_segment : Files := {[segment_path 5 := sample_segment]}.

(** Of the three frames and the torn tail, one record is taken. *)
Lemma taken_records_fit_witness :
  returns (decode_segment 5 sample_segment one_manifest (mkRejects 0 None) batch_default) (fun '(d, _, batch') =>
    exists p, content batch' = [p] /\ fits_group one_manifest p /\ d_rejected d = 3).
Proof.
  assert (short_names one_manifest) as Hshort.
  { intros name (h & Hn). unfold one_manifest in Hn. cbn [m_series] in Hn.
    apply lookup_singleton_Some in Hn as [<- _]. vm_compute. reflexivity. }
  assert (small_frames (records sample_segment)) as Hsm.
  { unfold small_frames. apply (bool_decide_unpack _). vm_compute. exact I. }
  assert (batch_wf batch_default) as Hb by (split; constructor).
  intros w. pose proof (taken_records_fit one_manifest 5 sample_segment (mkRejects 0 None) batch_default Hshort Hsm Hb w) as Ht.
  pose proof (decode_segment_spec one_manifest 5 sample_segment (mkRejects 0 None) batch_default Hshort
    ltac:(by exists 5; vm_compute) Hsm Hb w) as Hs.
  destruct (decode_segment 5 sample_segment one_manifest (mkRejects 0 None) batch_default w).2 as [[[d rj] b]| |]; [|exact Ht|exact Ht].
  destruct Ht as (taken & Hc & Hr & Hf & Hn). destruct Hs as [_ _ Hrows Hrej _ _ _ _ _].
  assert (zlen taken = 1) as Hl by (rewrite <-Hr, Hrows; vm_compute; reflexivity).
  destruct taken as [|p [|p' taken]]; [discriminate Hl| |exfalso; unfold zlen in Hl; cbn [length] in Hl; lia].
  exists p. apply Forall_cons in Hf as [Hp _]. split; [exact Hc|]. split; [exact Hp|].
  rewrite Hrej. vm_compute. reflexivity.
Defined.
