(* ===== verification/FlushStaged.v ===== *)
(** * FlushStaged: what the staging phases leave in [tmp/]

    Whatever errors the calls of the phases before the commit point meet, when they
    return a list of staged files each one is a complete Parquet file on disk. *)

From Stdlib Require Import ZArith Lia.
From Stdlib Require Import Strings.Byte.
From S2P Require Import Prelude Text Record Codec CodecProofs Disk Wal Reader Recovery Heap Merge MergeProofs Time Config Manifest Columns Planner Local MergeFaults FlushLocal.
Open Scope Z_scope.

(** ** The merge, with an invariant of the sink's state and the files *)

Section merge.
Context {A : Type} (C : Files -> Prop) (I : A -> Files -> Prop) (sink : Head -> A -> io A).
Context (HC : forall a fs, I a fs -> C fs) (Hsink : forall h a, triple (I a) (sink h a) C I).

Lemma triple_reads {B : Type} a (m : io B) :
  local (fun _ => False) m -> triple (I a) m C (fun _ => I a).
Proof.
  intros Hm. eapply triple_local; [exact Hm|apply HC|]. by intros fs fs' ->%keeps_none.
Qed.

Lemma triple_merge_loop fuel (sources : list (RunReader + MemRun)) heap st last a :
  triple (I a) (merge_loop sink fuel sources heap st last a) C (fun r => I r.2).
Proof.
  revert sources heap st last a. induction fuel as [|fuel IH]; intros sources heap st last a; cbn [merge_loop].
  { apply triple_throw, HC. }
  destruct heap as [|top t]; [by apply triple_ret; [apply HC|]|].
  destruct (sources !! top) as [src|]; [|apply triple_throw, HC]. cbv zeta.
  apply (triple_bind _ _ (fun r => I r.2)).
  - destruct (is_duplicate last (src_head src)); [by apply triple_ret; [apply HC|]|].
    eapply triple_bind; [apply Hsink|]. intros a'. by apply triple_ret; [apply HC|].
  - intros [[st' last'] a']. eapply triple_bind; [apply triple_reads, local_advance|].
    intros [src' more]. apply IH.
Qed.

(** Runs may come and go. *)
Lemma triple_merge_bounded runs_ memory fan_in n a :
  (forall a fs fs', keeps run_file fs fs' -> I a fs -> I a fs') -> Forall run_file runs_ ->
  triple (I a) (merge_bounded next_path sink runs_ memory fan_in n a) C (fun r => I r.2).
Proof.
  intros HI Hr. unfold merge_bounded. cbv zeta. apply (triple_bind _ _ (fun _ => I a)).
  - eapply triple_local; [by eapply local_to_local, local_premerge_loop|apply HC|apply HI].
  - intros [[runs' n'] d]. eapply triple_bind; [apply triple_reads, local_open_runs|].
    intros disk. eapply triple_bind; [apply triple_merge_loop|].
    intros [st a']. by apply triple_ret; [apply HC|].
Qed.
End merge.

(** ** Complete files *)

(** A file with its footer. *)
Definition complete `{Parquet} (fs : Files) (p : path) : Prop :=
  exists schema props groups, fs !! p = Some (pq_file schema props groups).

Section complete.
Context `{Parquet} (fs0 : Files).

(** Every staged file but the one that is open is complete, and nothing else changed. *)
Definition complete_but (q : option path) (l : list path) (fs : Files) : Prop :=
  (forall p, p ∈ l -> Some p <> q -> complete fs p) /\
  keeps (fun p => run_file p \/ p ∈ l \/ q = Some p) fs0 fs.

Lemma complete_keeps D fs fs' p : keeps D fs fs' -> ~ D p -> complete fs p -> complete fs' p.
Proof. intros Hk Hp (? & ? & ? & E). repeat eexists. rewrite Hk by done. exact E. Qed.

Lemma complete_but_keeps D q l fs fs' : keeps D fs fs' -> (forall p, p ∈ l -> D p -> q = Some p) ->
  (forall p, D p -> run_file p \/ q = Some p) ->
  complete_but q l fs -> complete_but q l fs'.
Proof.
  intros Hk HD Hrun [Hc Hk0]. split.
  - intros p Hp Hq. eapply complete_keeps; [exact Hk| |by apply Hc].
    intros Hd. by rewrite (HD p Hp Hd) in Hq.
  - eapply keeps_trans; [exact Hk0|]. eapply keeps_mono; [|exact Hk]. intros p [Hp|Hp]%Hrun; auto.
Qed.

Definition open_path (s : Staging) : option path :=
  match st_open s with Some (_, (_, p, _)) => Some p | None => None end.

Definition staging_inv (s : Staging) (fs : Files) : Prop :=
  complete_but (open_path s) (st_staged s).*2 fs /\
  match st_open s with Some (_, (_, p, w)) => pw_path w = p | None => True end.

(** A call of the open writer. *)
Lemma triple_writer {A : Type} p l (Q : A -> Prop) (m : io A) :
  local_to (eq p) Q m ->
  triple (complete_but (Some p) l) m any_files (fun a fs => complete_but (Some p) l fs /\ Q a).
Proof.
  intros [Hm HQ] w Hw. split; [done|]. specialize (HQ w). apply (local_keeps _ _ w) in Hm.
  destruct (m w) as [w' [a| |]]; [|done|done]. split; [|done].
  eapply complete_but_keeps; [exact Hm|by intros ? _ ->|by intros ? ->; right|done].
Qed.

Lemma triple_finish series epoch hour p w staged : pw_path w = p ->
  triple (complete_but (Some p) staged.*2) (finish_file series epoch (hour, p, w) staged) any_files
    (fun l => complete_but None l.*2).
Proof.
  intros Ep. unfold finish_file. apply (triple_bind _ _ (fun _ fs => complete_but (Some p) staged.*2 fs /\ complete fs p)).
  - unfold partition_finish. eapply triple_bind.
    { apply triple_writer. rewrite <-Ep. by apply local_partition_group. }
    intros w'. cbv beta. apply (triple_pure _ _ _ _ (pw_path w' = pw_path w)); [by intros fs [_ ?]|].
    intros Ew. apply (triple_bind _ _ (fun _ fs => complete_but (Some p) staged.*2 fs /\ complete fs p)).
    + apply triple_try. apply triple_call; [done|done| |done|done].
      intros fs [Hfs _]. split; [done|]. cbn. split.
      * eapply (complete_but_keeps (eq p)); [|by intros ? _ ->|by intros ? ->; right|done].
        apply keeps_insert. congruence.
      * rewrite Ew, Ep. repeat eexists. apply lookup_insert_eq.
    + intros []. eapply triple_bind; [by idle|]. intros []. by apply triple_ret.
  - intros rows. apply triple_ret; [done|]. intros fs [[Hb Hk] Hp]. rewrite fmap_app. split.
    + intros q [Hq|Hq%list_elem_of_singleton]%elem_of_app _; [|by subst q].
      destruct (decide (q = p)) as [->|Hn]; [done|]. apply Hb; [done|congruence].
    + eapply keeps_mono; [|exact Hk]. intros q [Hq|[Hq|[= ->]]]; [by left|right; left; set_solver..].
Qed.

Lemma triple_finish_open series epoch s :
  triple (staging_inv s) (match st_open s with
    | Some (_, file) => finish_file series epoch file (st_staged s)
    | None => mret (st_staged s)
    end) any_files (fun l => complete_but None l.*2).
Proof.
  unfold staging_inv, open_path. destruct (st_open s) as [[h [[hour p] w]]|].
  - apply (triple_pure _ _ _ _ (pw_path w = p)); [by intros fs [_ ?]|]. intros Ep.
    eapply triple_conseq; [by apply triple_finish|by intros fs [? _]|done].
  - by apply triple_ret; [|intros fs [? _]].
Qed.
(** A fact about the result, whatever the files. *)
Lemma triple_value {A : Type} (D : path -> Prop) (P C : Files -> Prop) (Q : A -> Prop) (R : A -> Files -> Prop) (m : io A) :
  local_to D Q m -> triple P m C R -> triple P m C (fun a fs => R a fs /\ Q a).
Proof.
  intros [_ HQ] Hm w Hw. destruct (Hm w Hw) as [Hc Hr]. split; [done|]. specialize (HQ w).
  by destruct (m w).2.
Qed.

Lemma triple_open_hour flush series epoch keys name ts s :
  triple (staging_inv s) (open_hour flush series epoch keys name ts s) any_files staging_inv.
Proof.
  unfold open_hour. cbv zeta.
  destruct (match st_open s with Some (h, _) => h =? _ | None => false end); [by apply triple_ret|].
  eapply triple_bind; [apply triple_finish_open|]. intros staged.
  eapply triple_bind; [by idle|]. intros [].
  set (p := staged_path series (hour_partition ts) name).
  apply (triple_bind _ _ (fun w fs => complete_but (Some p) staged.*2 fs /\ pw_path w = p)).
  - eapply triple_conseq; [apply (triple_writer p staged.*2); by apply local_partition_create| |done].
    intros fs [Hc Hk]. split; [intros q Hq _; by apply Hc|]. eapply keeps_mono; [|exact Hk].
    intros q [Hq|[Hq|Hq]]; [by left|right; by left|done].
  - intros w. by apply triple_ret.
Qed.

Lemma triple_stage_row flush series epoch keys name entry s :
  triple (staging_inv s) (stage_row flush series epoch keys name entry s) any_files staging_inv.
Proof.
  unfold stage_row. eapply triple_bind; [apply triple_open_hour|]. intros s'.
  destruct (decode_verified _ _) as [d|]; [|by apply triple_throw]. cbv zeta.
  unfold staging_inv at 1, open_path. destruct (st_open s') as [[h [[hour p] w]]|]; [|by apply triple_throw].
  apply (triple_pure _ _ _ _ (pw_path w = p)); [by intros fs [_ ?]|]. intros Ep.
  apply (triple_bind _ _ (fun w' fs => complete_but (Some p) (st_staged s').*2 fs /\ pw_path w' = p)).
  - eapply triple_conseq; [apply (triple_writer p (st_staged s').*2 (fun w' => pw_path w' = p))|by intros fs [? _]|done].
    rewrite <-Ep. by apply local_partition_append.
  - intros w'. by apply triple_ret.
Qed.

Lemma staged_not_run first last_ p : staged_ok first last_ p -> ~ run_file p.
Proof. intros (s & h & e & _ & ->). done. Qed.

Lemma triple_merge_partition flush first last_ series epoch keys runs_ memory n staged :
  0 <= epoch < u32_lim -> Forall run_file runs_ -> Forall (staged_ok first last_) staged.*2 ->
  triple (complete_but None staged.*2)
    (merge_partition flush series epoch keys (output_file_name first last_ epoch) runs_ memory n staged)
    any_files (fun r => complete_but None r.2.*2).
Proof.
  intros He Hr Hst. unfold merge_partition.
  set (I := fun s fs => staging_inv s fs /\ staging_ok first last_ s).
  apply (triple_bind _ _ (fun r => I r.2)).
  - eapply triple_conseq; [apply (triple_merge_bounded any_files I)| |done]; [done| | |done|].
    + intros h s. apply (triple_pure _ _ _ _ (staging_ok first last_ s)); [by intros fs [_ ?]|]. intros Hs.
      eapply triple_conseq; [eapply triple_value; [by apply local_stage_row|apply triple_stage_row]|by intros fs [? _]|done].
    + intros s fs fs' Hk [[Hc Ho] Hs]. split; [split; [|done]|done].
      eapply complete_but_keeps; [exact Hk| |by left|done]. intros p Hp Hrun. destruct Hs as [Hs _].
      rewrite Forall_forall in Hs. by apply Hs, staged_not_run in Hp.
    + intros fs Hc. done.
  - intros [[st n'] s]. eapply triple_bind.
    { eapply triple_conseq; [apply triple_finish_open|by intros fs [? _]|done]. }
    intros l. by apply triple_ret.
Qed.

Lemma triple_phase2 flush first last_ schemas memory spilled keys n staged st :
  Forall key_ok keys -> spill_ok spilled -> Forall (staged_ok first last_) staged.*2 ->
  triple (complete_but None staged.*2)
    (phase2 flush first last_ schemas memory spilled keys n staged st) any_files (fun r => complete_but None r.1.*2).
Proof.
  intros Hk Hsp. revert n staged st. induction Hk as [|key keys Hkey _ IH]; intros n staged st Hst; cbn [phase2].
  { by apply triple_ret. }
  assert (Forall run_file (default [] (spilled !! key))) as Hr.
  { destruct (spilled !! key) as [ps|] eqn:E; [by apply (Hsp key)|constructor]. }
  eapply triple_bind.
  - eapply triple_value; [by apply local_merge_partition|by apply triple_merge_partition].
  - intros [[st' n'] staged']. apply (triple_pure _ _ _ _ (Forall (staged_ok first last_) staged'.*2)).
    + by intros fs [_ ?].
    + intros Hst'. eapply triple_conseq; [by apply IH|by intros fs [? _]|done].
Qed.

(** When the staging phases return, every file they staged is complete, and they
    changed nothing else but runs. *)
Lemma triple_stage c first last_ s : spill_ok (sp_groups (p1_spill s)) -> batch_ok (p1_batch s) ->
  triple (fun fs => fs = fs0) (stage c first last_ s) any_files (fun r fs => complete_but None r.1.1.*2 fs).
Proof.
  intros Hsp Hb. unfold stage. eapply triple_bind; [by idle|]. intros [].
  pose proof (group_keys_ok _ _ Hb Hsp) as Hk.
  destruct (into_sources (p1_batch s)) as [batch sources]. cbn [snd] in Hk. cbv zeta.
  apply (triple_bind _ _ (fun r => complete_but None r.1.*2)).
  - eapply triple_conseq; [apply triple_phase2| |done]; [done|done|constructor|].
    intros fs ->. split; [by intros p ?%elem_of_nil|apply keeps_refl].
  - intros [staged st]. eapply triple_bind.
    + eapply (triple_local (fun _ => False)); [apply local_fsync_staging|done|by intros fs fs' ->%keeps_none].
    + intros []. by apply triple_ret.
Qed.
End complete.
