(* ===== verification/FlushCrash.v ===== *)
(** * FlushCrash: a flush interrupted anywhere is all or nothing

    Whatever errors occur and wherever the process stops, the directory is either as
    before the flush for everything that matters (the manifest, the published files,
    the readable segments), or the new manifest is committed and every staged file is
    complete in [tmp/] or published. The sweep at the next start finishes either case. *)

From Stdlib Require Import ZArith Lia.
From Stdlib Require Import Strings.Byte.
From S2P Require Import Prelude Text Record Codec CodecProofs Disk Wal Reader Recovery Merge MergeProofs BatchProofs Time Config Manifest Columns View Planner Decode Local MergeFaults FlushLocal FlushRows FlushTable FlushStage FlushStaged.
Open Scope Z_scope.

(** ** After the commit point *)

(** What publishing may change. *)
Definition after (staged : list path) (consumed : list Z) (p : path) : Prop :=
  p ∈ staged \/ p ∈ promoted_path <$> staged \/
  (exists id, id ∈ consumed /\ p = segment_path id) \/
  (exists name, p = series_dir name ++ [VIEW_FILE]).

(** Each staged file is where it was or published. *)
Definition in_place (staged : list path) (fs1 fs : Files) : Prop :=
  forall p c, p ∈ staged -> fs1 !! p = Some c ->
    fs !! p = Some c \/ (fs !! p = None /\ fs !! promoted_path p = Some c).

Definition all_published (staged : list path) (fs1 fs : Files) : Prop :=
  forall p c, p ∈ staged -> fs1 !! p = Some c -> fs !! p = None /\ fs !! promoted_path p = Some c.

Definition is_staged (p : path) : Prop := exists s h n, p = staged_path s h n.

Lemma promoted_inj p q : is_staged p -> is_staged q -> promoted_path p = promoted_path q -> p = q.
Proof. intros (? & ? & ? & ->) (? & ? & ? & ->) E. unfold promoted_path in E. cbn in E. by simplify_eq. Qed.

Lemma promoted_ne p q : is_staged p -> is_staged q -> promoted_path p <> q.
Proof. intros (? & ? & ? & ->) (? & ? & ? & ->) E. unfold promoted_path in E. by cbn in E. Qed.

Lemma staged_under p : is_staged p -> under tmp_dir p = true.
Proof. intros (? & ? & ? & ->). done. Qed.

Section publish.
Context (staged : list path) (consumed : list Z) (fs1 : Files) (Hst : Forall is_staged staged).

(** The state while publishing. *)
Definition publishing (fs : Files) : Prop := in_place staged fs1 fs /\ keeps (after staged consumed) fs1 fs.

(** The first [n] files are published. *)
Definition published_to (done : list path) (fs : Files) : Prop :=
  publishing fs /\ forall p c, p ∈ done -> fs1 !! p = Some c -> fs !! p = None /\ fs !! promoted_path p = Some c.

Lemma is_staged_in p : p ∈ staged -> is_staged p.
Proof. intros Hp. rewrite Forall_forall in Hst. auto. Qed.

Lemma publishing_move q c fs (done : list path) : q ∈ staged -> (forall p, p ∈ done -> p ∈ staged) ->
  published_to done fs -> fs !! q = Some c ->
  published_to (q :: done) (<[promoted_path q := c]> (delete q fs)).
Proof.
  intros Hq Hdone [[Hin Hk] Hd] Hc. pose proof (is_staged_in q Hq) as Sq.
  assert (forall p, p ∈ staged -> p <> q ->
    (<[promoted_path q := c]> (delete q fs) : Files) !! p = fs !! p /\
    (<[promoted_path q := c]> (delete q fs) : Files) !! promoted_path p = fs !! promoted_path p) as Hother.
  { intros p Hp Hne. pose proof (is_staged_in p Hp) as Sp. split.
    - rewrite lookup_insert_ne by (by apply promoted_ne). by rewrite lookup_delete_ne.
    - rewrite lookup_insert_ne by (intros E; symmetry in E; apply promoted_inj in E; done).
      rewrite lookup_delete_ne; [done|]. intros E. symmetry in E. by apply promoted_ne in E. }
  assert ((<[promoted_path q := c]> (delete q fs) : Files) !! q = None /\
    (<[promoted_path q := c]> (delete q fs) : Files) !! promoted_path q = Some c) as Hself.
  { split; [|apply lookup_insert_eq]. rewrite lookup_insert_ne by (by apply promoted_ne).
    apply lookup_delete_eq. }
  assert (forall c1, fs1 !! q = Some c1 -> c1 = c) as Eq.
  { intros c1 Hc1. destruct (Hin q c1 Hq Hc1) as [E|[E _]]; congruence. }
  split; [split|].
  - intros p c1 Hp Hc1. destruct (decide (p = q)) as [->|Hne].
    + right. by rewrite (Eq c1 Hc1).
    + destruct (Hother p Hp Hne) as [-> ->]. by apply Hin.
  - eapply keeps_trans; [exact Hk|]. eapply keeps_trans.
    + apply (keeps_delete _ q). by left.
    + apply keeps_insert. right. left. by apply list_elem_of_fmap_2.
  - intros p c1 [->|Hp]%elem_of_cons Hc1; [by rewrite (Eq c1 Hc1)|].
    destruct (decide (p = q)) as [->|Hne]; [by rewrite (Eq c1 Hc1)|].
    destruct (Hother p (Hdone p Hp) Hne) as [-> ->]. by apply Hd.
Qed.

Lemma triple_promote q (done : list path) : q ∈ staged -> (forall p, p ∈ done -> p ∈ staged) ->
  triple (published_to done) (promote q) publishing (fun _ => published_to (q :: done)).
Proof.
  intros Hq Hdone. unfold promote. rewrite staged_under by (by apply is_staged_in). cbn [negb].
  assert (forall d fs, published_to d fs -> publishing fs) as Hp by (by intros d fs [? _]).
  eapply triple_bind; [idle; apply Hp|]. intros [].
  eapply (triple_bind _ _ (fun _ => published_to (q :: done))).
  { apply triple_try. eapply triple_conseq; [apply (triple_rename (published_to done))|done|].
    - apply Hp.
    - intros fs c Hfs Hc. eapply Hp. by apply publishing_move.
    - intros [[]|e] fs; [intros (fs0 & c & Hfs & Hc & ->); by apply publishing_move|].
      destruct e; [intros [Hfs _]|intros Hfs..]; by eapply Hp. }
  intros []. eapply triple_bind; [idle; apply Hp|]. intros [].
  eapply triple_bind; [idle; apply Hp|]. intros [].
  idle; apply Hp.
Qed.

Lemma triple_promotes todo (done : list path) : (forall p, p ∈ todo -> p ∈ staged) ->
  (forall p, p ∈ done -> p ∈ staged) ->
  triple (published_to done) (io_each promote todo) publishing
    (fun _ => published_to (reverse todo ++ done)).
Proof.
  revert done. induction todo as [|q todo IH]; intros done Ht Hd; cbn [io_each].
  - apply triple_ret; [by intros fs [? _]|done].
  - eapply triple_bind; [apply triple_promote; [set_solver|done]|]. intros [].
    rewrite reverse_cons, <-app_assoc. apply IH; [set_solver|].
    intros p [->|Hp]%elem_of_cons; [set_solver|auto].
Qed.

(** Calls that leave the staged files and their targets alone. *)
Lemma published_local {A : Type} (D : path -> Prop) (d : list path) (m : io A) :
  local D m -> (forall p, D p -> after staged consumed p) ->
  (forall p, p ∈ staged -> ~ D p /\ ~ D (promoted_path p)) -> (forall p, p ∈ d -> p ∈ staged) ->
  triple (published_to d) m publishing (fun _ => published_to d).
Proof.
  intros Hm HD Hno Hd w [[Hin Hk] Hpub].
  assert (published_to d (files (m w).1)) as Hres.
  { assert (forall p, p ∈ staged -> files (m w).1 !! p = files w !! p /\
      files (m w).1 !! promoted_path p = files w !! promoted_path p) as Hs.
    { intros p Hp. destruct (Hno p Hp). split; by apply Hm. }
    split; [split|].
    - intros p c Hp Hc. destruct (Hs p Hp) as [-> ->]. by apply Hin.
    - eapply keeps_trans; [exact Hk|]. eapply keeps_mono; [exact HD|]. apply Hm.
    - intros p c Hp Hc. destruct (Hs p (Hd p Hp)) as [-> ->]. by apply Hpub. }
  split; [by destruct Hres|]. by destruct (m w).2.
Qed.

Definition deleted (ids : list Z) (fs : Files) : Prop := forall id, id ∈ ids -> fs !! segment_path id = None.

Lemma segment_not_staged id p : p ∈ staged -> segment_path id <> p /\ segment_path id <> promoted_path p.
Proof. intros Hp. destruct (is_staged_in p Hp) as (s & h & n & ->). split; intros E; by cbn in E. Qed.

Lemma view_not_staged name p : p ∈ staged ->
  series_dir name ++ [VIEW_FILE] <> p /\ series_dir name ++ [VIEW_FILE] <> promoted_path p.
Proof.
  intros Hp. destruct (is_staged_in p Hp) as (s & h & n & ->).
  split; intros E; unfold promoted_path in E; by cbn in E.
Qed.

Lemma local_delete_segments D : (forall id, id ∈ consumed -> D (segment_path id)) ->
  local D (delete_segments consumed).
Proof.
  intros HD. unfold delete_segments. apply local_bind; [|intros; local_solve].
  apply local_each. intros id Hid. local_solve.
Qed.

Lemma local_views D m touched : (forall name, D (series_dir name ++ [VIEW_FILE])) ->
  local D (regenerate_views m touched).
Proof. intros HD. apply local_each. intros name _. cbv zeta. local_solve. Qed.

Lemma triple_delete ids todo : triple (deleted ids)
  (io_each (fun id => r ← remove_file (segment_path id);
     match r with Ok _ | Err NotFound => mret tt | Err e => throw (Io e) end) todo)
  (fun _ => True) (fun _ => deleted (reverse todo ++ ids)).
Proof.
  revert ids. induction todo as [|id todo IH]; intros ids; cbn [io_each]; [by apply triple_ret|].
  rewrite reverse_cons, <-app_assoc.
  eapply (triple_bind _ _ (fun _ => deleted (id :: ids))); [|intros []; apply IH].
  eapply triple_bind; [by apply (triple_remove (deleted ids))|].
  intros [[]|[]]; [| |by apply triple_throw..]; apply triple_ret; [done| |done|].
  - intros fs (fs0 & Hd & _ & ->) x [->|Hx]%elem_of_cons; [apply lookup_delete_eq|].
    apply lookup_delete_None. right. by apply Hd.
  - intros fs [Hd Hn] x [->|Hx]%elem_of_cons; [done|by apply Hd].
Qed.

Lemma triple_deleted : triple (fun _ => True) (delete_segments consumed) (fun _ => True)
  (fun _ => deleted consumed).
Proof.
  unfold delete_segments. eapply (triple_bind _ _ (fun _ => deleted consumed)).
  - eapply triple_conseq; [apply (triple_delete [])|by intros fs _ x ?%elem_of_nil|].
    intros [] fs Hd x Hx. apply Hd. rewrite app_nil_r. by apply elem_of_reverse.
  - intros []. by idle.
Qed.

Lemma triple_deletes : triple (published_to staged) (delete_segments consumed) publishing
  (fun _ fs => published_to staged fs /\ deleted consumed fs).
Proof.
  assert (triple (published_to staged) (delete_segments consumed) publishing (fun _ => published_to staged)) as H1.
  { apply (published_local (fun p => exists id, id ∈ consumed /\ p = segment_path id)); [| | |done].
    - apply local_delete_segments. intros id Hid. by exists id.
    - intros p (id & Hid & ->). right. right. left. by exists id.
    - intros p Hp. split; intros (id & _ & E); by destruct (segment_not_staged id p Hp). }
  intros w Hw. by destruct (triple_conj _ _ _ _ _ _ _ H1 triple_deleted w (conj Hw I)) as [[? _] ?].
Qed.

Lemma triple_views m touched :
  triple (fun fs => published_to staged fs /\ deleted consumed fs) (regenerate_views m touched) publishing
    (fun _ fs => published_to staged fs /\ deleted consumed fs).
Proof.
  set (D := fun p => exists name, p = series_dir name ++ [VIEW_FILE]).
  assert (local D (regenerate_views m touched)) as Hl by (apply local_views; intros name; by exists name).
  assert (triple (published_to staged) (regenerate_views m touched) publishing (fun _ => published_to staged)) as H1.
  { apply (published_local D); [done|intros p Hd; right; right; by right| |done].
    intros p Hp. split; intros (name & E); by destruct (view_not_staged name p Hp). }
  assert (triple (deleted consumed) (regenerate_views m touched) (deleted consumed) (fun _ => deleted consumed)) as H2.
  { apply (triple_local D); [done|done|]. intros fs fs' Hk Hd id Hid. rewrite Hk; [by apply Hd|].
    intros (name & E). by cbn in E. }
  intros w Hw. by destruct (triple_conj _ _ _ _ _ _ _ H1 H2 w Hw) as [[? _] ?].
Qed.

Lemma triple_publish m touched :
  triple (published_to []) (publish m staged consumed touched) publishing
    (fun _ fs => published_to staged fs /\ deleted consumed fs).
Proof.
  unfold publish. eapply (triple_bind _ _ (fun _ => published_to staged)).
  - eapply triple_conseq; [apply (triple_promotes staged [] (fun _ H => H)); by intros ? ?%elem_of_nil|done|].
    intros [] fs [Hp Hd]. split; [done|]. intros p c Hin. apply Hd. rewrite app_nil_r. by apply elem_of_reverse.
  - intros []. eapply triple_bind; [apply triple_deletes|]. intros []. apply triple_views.
Qed.
End publish.

(** ** The two ends of a flush *)

Section flush.
Context `{Crc32} `{Parquet} `{ManifestJson}.

Definition manifest_file (p : path) : Prop := p = manifest_path \/ p = manifest_tmp.

(** What a flush of [ids] may change before its commit point: the files staged under
    its own names, too. *)
Definition flushing (ids : list Z) (fs0 : Files) (p : path) : Prop :=
  touchable fs0 p \/ exists first last_, first ∈ ids /\ last_ ∈ ids /\ staged_ok first last_ p.

(** Nothing that matters changed: the manifest is the old one. *)
Record uncommitted (m0 : Manifest) (ids : list Z) (fs0 fs : Files) : Prop := {
  un_loads : loads fs m0;
  un_keeps : keeps (fun p => flushing ids fs0 p \/ manifest_file p) fs0 fs
}.

(** The manifest is the new one; [fs1] are the files at the commit point, where every
    staged file is complete, and since then each one has stayed or moved to [series/]. *)
Record committed_at (m : Manifest) (now : Z) (fs0 fs1 : Files) (staged : list path)
    (consumed : list Z) (fs : Files) : Prop := {
  cm_loads : loads fs (with_watermark m (List.last consumed 0) now);
  cm_before : keeps (fun p => touchable fs0 p \/ p ∈ staged) fs0 fs1;
  cm_staged : Forall (staged_ok (hd 0 consumed) (List.last consumed 0)) staged;
  cm_complete : Forall (complete fs1) staged;
  cm_in_place : in_place staged fs1 fs;
  cm_after : keeps (fun p => after staged consumed p \/ manifest_file p \/ run_file p) fs1 fs
}.

(** The flush of [consumed] is finished. *)
Definition finished (m : Manifest) (now : Z) (fs0 fs1 : Files) (staged : list path) (consumed : list Z)
    (fs : Files) : Prop :=
  committed_at m now fs0 fs1 staged consumed fs /\ all_published staged fs1 fs /\ deleted consumed fs.

(** A directory and a manifest within the program's bounds. *)
Record fits (m : Manifest) (ids : list Z) (fs0 : Files) : Prop := {
  ft_short : short_names m;
  ft_segments : Forall (flushable fs0) ids
}.

(** The staged files are one per group and hour of the records of the consumed
    segments, and each holds exactly the rows of its group and hour, each row once. *)
Record tables (flush : FlushConfig) (m : Manifest) (ids : list Z) (fs0 fs1 : Files)
    (staged : list (WrittenFile * path)) (consumed : list Z) : Prop := {
  tb_looked : exists looked, looks_at fs0 ids looked /\ consumed = goods fs0 looked;
  tb_files : staged = table_files (hd 0 consumed) (List.last consumed 0) (flush_heads m fs0 consumed);
  tb_closed : tables_closed m flush (hd 0 consumed) (List.last consumed 0) (flush_heads m fs0 consumed) fs1
}.

(** How many rows these files hold. *)
Definition table_rows (m : Manifest) (fs0 : Files) (consumed : list Z) : Z :=
  let all := flush_heads m fs0 consumed in
  zlen (concat ((fun g => merged (of_group g all)) <$> groups_of all)).

(** A committed flush of [ids] that consumed [consumed]. *)
Definition committed (flush : FlushConfig) (m : Manifest) (now : Z) (fs0 : Files) (ids consumed : list Z)
    (fs : Files) : Prop :=
  consumed <> [] /\ sublist consumed ids /\
  exists fs1 staged, committed_at m now fs0 fs1 staged.*2 consumed fs /\
    (fits m ids fs0 -> tables flush m ids fs0 fs1 staged consumed).

Lemma staged_is_staged first last_ l : Forall (staged_ok first last_) l -> Forall is_staged l.
Proof.
  intros Hl. eapply Forall_impl; [exact Hl|]. intros p (s & h & e & _ & ->). repeat eexists.
Qed.

Lemma run_file_ne p : run_file p ->
  ~ manifest_file p /\ ~ is_staged p /\ (forall q, is_staged q -> promoted_path q <> p) /\
  (forall id, segment_path id <> p).
Proof.
  intros Hr. split_and!.
  - by intros [-> | ->].
  - intros (s & h & n & ->). done.
  - intros q (s & h & n & ->) <-. done.
  - intros id <-. done.
Qed.

(** Removing the runs changes neither end. *)
Lemma uncommitted_runs m0 ids fs0 fs fs' :
  keeps run_file fs fs' -> uncommitted m0 ids fs0 fs -> uncommitted m0 ids fs0 fs'.
Proof.
  intros Hk [Hl Hu]. split.
  - eapply loads_same; [|exact Hl]. apply Hk. intros [Hm _]%run_file_ne. apply Hm. by left.
  - eapply keeps_trans; [exact Hu|]. eapply keeps_mono; [|exact Hk]. intros p Hp. left. left.
    by apply scratch_touchable, run_file_scratch.
Qed.

Lemma committed_runs m now fs0 fs1 staged consumed fs fs' : keeps run_file fs fs' ->
  committed_at m now fs0 fs1 staged consumed fs -> committed_at m now fs0 fs1 staged consumed fs'.
Proof.
  intros Hk [Hl Hb Hs Hc Hi Ha]. split; [|done..| |].
  - eapply loads_same; [|exact Hl]. apply Hk. intros [Hm _]%run_file_ne. apply Hm. by left.
  - intros p c Hp Hpc. apply staged_is_staged in Hs. rewrite Forall_forall in Hs. specialize (Hs p Hp).
    rewrite !Hk; [by apply Hi| |]; intros (_ & Hn & Hq & _)%run_file_ne; [by eapply Hq|done].
  - eapply keeps_trans; [exact Ha|]. eapply keeps_mono; [|exact Hk]. auto.
Qed.

Lemma finished_runs m now fs0 fs1 staged consumed fs fs' : keeps run_file fs fs' ->
  finished m now fs0 fs1 staged consumed fs -> finished m now fs0 fs1 staged consumed fs'.
Proof.
  intros Hk (Hc & Hp & Hd). split_and!; [by eapply committed_runs| |].
  - intros p c Hin Hpc. pose proof (staged_is_staged _ _ _ (cm_staged _ _ _ _ _ _ _ Hc)) as Hs.
    rewrite Forall_forall in Hs. specialize (Hs p Hin).
    rewrite !Hk; [by apply Hp| |]; intros (_ & Hn & Hq & _)%run_file_ne; [by eapply Hq|done].
  - intros id Hid. rewrite Hk; [by apply Hd|]. intros (_ & _ & _ & Hn)%run_file_ne. by eapply Hn.
Qed.

(** *** Commit and publish *)

Section commit.
Context (m m0 : Manifest) (now : Z) (fs0 fs1 : Files) (staged : list path) (ids consumed : list Z).
Let m' := with_watermark m (List.last consumed 0) now.
Context (Hm : manifest_typed m') (Hload : loads fs1 m0) (Hflushing : keeps (flushing ids fs0) fs0 fs1)
  (Hbefore : keeps (fun p => touchable fs0 p \/ p ∈ staged) fs0 fs1)
  (Hstaged : Forall (staged_ok (hd 0 consumed) (List.last consumed 0)) staged)
  (Hcomplete : Forall (complete fs1) staged).

Lemma manifest_not_staged p : p ∈ staged -> ~ manifest_file p /\ ~ manifest_file (promoted_path p).
Proof.
  intros Hp. pose proof (staged_is_staged _ _ _ Hstaged) as Hs. rewrite Forall_forall in Hs.
  destruct (Hs p Hp) as (s & h & n & ->). split; by intros [? | ?].
Qed.

(** Committed, from the files after the manifest's rename. *)
Lemma publishing_committed fs2 fs : same_but_manifest fs1 fs2 -> loads fs2 m' ->
  publishing staged consumed fs2 fs -> committed_at m now fs0 fs1 staged consumed fs.
Proof.
  intros Hsame Hl [Hi Hk]. split; [|done..| |].
  - eapply loads_same; [|exact Hl]. apply Hk. intros [Hp|[Hp|[(id & _ & E)|(name & E)]]]; [| |done|done].
    + apply manifest_not_staged in Hp as [Hp _]. apply Hp. by left.
    + apply list_elem_of_fmap in Hp as (q & E & Hq). apply manifest_not_staged in Hq as [_ Hq].
      apply Hq. left. done.
  - intros p c Hp Hc. apply Hi; [done|]. apply manifest_not_staged in Hp as [Hp _].
    rewrite Hsame; [done| |]; intros E; apply Hp; [by left|by right].
  - eapply keeps_trans; [|eapply keeps_mono; [|exact Hk]; auto].
    intros p Hp. apply Hsame; intros ->; apply Hp; right; left; [by left|by right].
Qed.

Lemma published_finished fs2 fs : same_but_manifest fs1 fs2 -> loads fs2 m' ->
  published_to staged consumed fs2 staged fs -> deleted consumed fs -> finished m now fs0 fs1 staged consumed fs.
Proof.
  intros Hsame Hl [Hp Hd] Hdel. split_and!; [by eapply publishing_committed| |done].
  intros p c Hin Hc. apply Hd; [done|]. apply manifest_not_staged in Hin as [Hn _].
  rewrite Hsame; [done| |]; intros E; apply Hn; [by left|by right].
Qed.

Lemma triple_commit_publish touched :
  triple (fun fs => fs = fs1) (commit m' ;; publish m' staged consumed touched)
    (fun fs => uncommitted m0 ids fs0 fs \/ committed_at m now fs0 fs1 staged consumed fs)
    (fun _ fs => finished m now fs0 fs1 staged consumed fs).
Proof.
  assert (forall fs2, same_but_manifest fs1 fs2 -> loads fs2 m' ->
    committed_at m now fs0 fs1 staged consumed fs2) as Hc2.
  { intros fs2 Hs Hl. eapply publishing_committed; [done|done|]. split; [|apply keeps_refl].
    intros p c _ Hc. by left. }
  intros w Ew. unfold mbind, io_bind. cbn [exec].
  destruct (triple_commit m' m0 fs1 Hm w) as [[Hsame Hlo] Hr]; [by rewrite Ew|].
  destruct (commit m' w) as [w2 r2]. cbn [fst snd] in *.
  assert (uncommitted m0 ids fs0 (files w2) \/ committed_at m now fs0 fs1 staged consumed (files w2)) as Hend.
  { destruct Hlo as [Hlo|Hlo]; [left|right; by apply Hc2]. split; [done|].
    eapply keeps_trans; [eapply keeps_mono; [|exact Hflushing]; by left|].
    intros p Hp. apply Hsame; intros ->; apply Hp; right; [by left|by right]. }
  destruct r2 as [[]|e|]; [|done|done]. destruct Hr as [_ Hl2].
  assert (published_to staged consumed (files w2) [] (files w2)) as Hstart.
  { split; [split; [by left|apply keeps_refl]|]. by intros p c ?%elem_of_nil. }
  destruct (triple_publish staged consumed (files w2) (staged_is_staged _ _ _ Hstaged) m' touched w2 Hstart) as [Hp Hq].
  destruct (publish m' staged consumed touched w2) as [w3 r3]. cbn [fst snd] in *. split.
  - right. by eapply publishing_committed.
  - destruct r3; [|done|done]. destruct Hq as [Hq Hdel]. by eapply published_finished.
Qed.
End commit.

(** *** The whole run *)

Lemma manifest_not_flushing ids fs0 : ~ flushing ids fs0 manifest_path.
Proof.
  intros [[[Hp|Hp]|[(id & _ & Hp)|(id & c & _ & Hp & _)]]|(f & l & _ & _ & s & h & e & _ & Hp)]; done.
Qed.

Lemma touched_uncommitted m0 ids fs0 fs :
  loads fs0 m0 -> keeps (flushing ids fs0) fs0 fs -> uncommitted m0 ids fs0 fs.
Proof.
  intros Hl Hk. split; [|by eapply keeps_mono; [|exact Hk]; auto].
  eapply loads_same; [|exact Hl]. apply Hk, manifest_not_flushing.
Qed.

Lemma with_watermark_typed m last_ now : manifest_typed m -> 0 <= last_ < u64_lim -> 0 <= now < u64_lim ->
  manifest_typed (with_watermark m last_ now).
Proof.
  intros [Hs Hl Ha] Hlast Hnow. split; cbn; [done|lia|]. intros t E. by injection E as <-.
Qed.

Lemma last_elem (l : list Z) d : l <> [] -> List.last l d ∈ l.
Proof.
  intros Hl. destruct (exists_last Hl) as (l' & x & ->). rewrite last_last. set_solver.
Qed.

(** What a run that returned a value leaves. *)
Definition flush_result (flush : FlushConfig) (m m0 : Manifest) (now : Z) (ids : list Z) (fs0 : Files)
    (r : outcome (Manifest * result Error FlushOutcome)) (fs : Files) : Prop :=
  match r with
  | Ret (m', Ok o) =>
      let consumed := segments_consumed o in
      (consumed = [] /\ m' = m /\ uncommitted m0 ids fs0 fs) \/
      (consumed <> [] /\ m' = with_watermark m (List.last consumed 0) now /\
       exists fs1 staged, finished m now fs0 fs1 staged.*2 consumed fs /\
         files_written o = staged.*1 /\
         (fits m ids fs0 -> tables flush m ids fs0 fs1 staged consumed /\ rows_written o = table_rows m fs0 consumed))
  | _ => True
  end.

Section run.
Context (c : Config) (m m0 : Manifest) (now : Z) (fs0 : Files).
Context (Hm : manifest_typed m) (Hnow : 0 <= now < u64_lim) (Hload : loads fs0 m0).

Definition flush_end (ids : list Z) (fs : Files) : Prop :=
  uncommitted m0 ids fs0 fs \/ exists consumed, committed (cfg_flush c) m now fs0 ids consumed fs.

(** The first phase, whether the directory fits or not. *)
Lemma run_phase1 ids s0 w : Forall (fun id => 0 <= id < u64_lim) ids -> NoDup ids ->
  sp_groups (p1_spill s0) = ∅ -> p1_batch s0 = batch_default -> p1_consumed s0 = [] -> p1_schemas s0 = ∅ ->
  p1_rows s0 = 0 -> keeps scratch fs0 (files w) ->
  let '(w', r) := phase1 m (memory_budget_bytes (cfg_flush c)) ids s0 w in
  keeps (touchable fs0) fs0 (files w') /\
  match r with
  | Ret s => phase1_ok ids s0 s /\ (fits m ids fs0 -> exists looked_, looks_at fs0 ids looked_ /\
      gathered m fs0 looked_ s (files w'))
  | _ => True
  end.
Proof.
  intros Hids Hnd Hsp Hb Hc Hsch Hrows Hw.
  assert (Forall (fun id => 0 <= id) ids) as Hids0 by (eapply Forall_impl; [exact Hids|]; cbn; lia).
  assert (spill_ok (sp_groups (p1_spill s0))) as Hsp0 by (rewrite Hsp; apply map_Forall_empty).
  assert (batch_ok (p1_batch s0)) as Hb0 by (rewrite Hb; apply Forall_nil_2).
  assert (keeps (touchable fs0) fs0 (files w)) as Hw0 by (eapply keeps_mono; [|exact Hw]; apply scratch_touchable).
  destruct (proj1 (stays_phase1 fs0 m (memory_budget_bytes (cfg_flush c)) ids s0 Hids0 Hsp0 Hb0) w Hw0) as [Hk1 Hq1].
  assert (fits m ids fs0 -> gathered m fs0 [] s0 (files w)) as Hstart.
  { intros _. by apply gathered_start. }
  destruct (phase1 _ _ _ _ w) as [w1 r1] eqn:E. split; [done|]. destruct r1 as [s| |]; [|done|done].
  destruct Hq1 as [_ Hok]. split; [done|]. intros Hf.
  pose proof (phase1_rows m (memory_budget_bytes (cfg_flush c)) fs0 (ft_short _ _ _ Hf) [] ids s0
    (ft_segments _ _ _ Hf) Hnd w (Hstart Hf)) as [_ Hr]. by rewrite E in Hr.
Qed.

(** The second phase. *)
Lemma run_stage ids s s0 w first rest : phase1_ok ids s0 s -> p1_consumed s0 = [] -> NoDup ids ->
  (fits m ids fs0 -> exists looked_, looks_at fs0 ids looked_ /\ gathered m fs0 looked_ s (files w)) ->
  keeps (touchable fs0) fs0 (files w) -> p1_consumed s = first :: rest ->
  let last_ := List.last (p1_consumed s) 0 in
  let '(w', r) := stage c first last_ s w in
  keeps (flushing ids fs0) fs0 (files w') /\
  match r with
  | Ret (staged, rows, _) =>
      Forall (staged_ok first last_) staged.*2 /\ Forall (complete (files w')) staged.*2 /\
      keeps (fun p => touchable fs0 p \/ p ∈ staged.*2) fs0 (files w') /\
      (fits m ids fs0 -> tables (cfg_flush c) m ids fs0 (files w') staged (p1_consumed s) /\
        rows = table_rows m fs0 (p1_consumed s))
  | _ => True
  end.
Proof.
  intros [(l & El & Hsub) Hsp1 Hb1] Ec0 Hnd Hrows Hk1 Ec last_. rewrite Ec0 in El. cbn in El. subst l.
  assert (first ∈ ids /\ last_ ∈ ids) as [Hfi Hli].
  { split; (eapply elem_of_sublist; [|exact Hsub]); [rewrite Ec; by left|apply last_elem; by rewrite Ec]. }
  pose proof (local_stage first last_ c s Hsp1 Hb1) as [Hloc Hst].
  destruct (triple_stage (files w) c first last_ s Hsp1 Hb1 w eq_refl) as [_ Hcomp].
  assert (fits m ids fs0 -> exists looked_, looks_at fs0 ids looked_ /\ gathered m fs0 looked_ s (files w) /\
    Forall (flushable fs0) looked_ /\ NoDup looked_) as Hrows2.
  { intros Hf. destruct (Hrows Hf) as (lk & Hlk & Hg). exists lk. split_and!; [done|done|..];
      destruct Hlk as (rst & -> & _); destruct Hf as [_ Hf]; [by apply Forall_app in Hf as [? _]|by apply NoDup_app in Hnd as [? _]]. }
  assert (fits m ids fs0 -> exists looked_, looks_at fs0 ids looked_ /\ p1_consumed s = goods fs0 looked_ /\
    triple (fun fs' => fs' = files w) (stage c first last_ s) any_files (fun r fs' =>
      r.1.1 = table_files first last_ (flush_heads m fs0 (p1_consumed s)) /\ r.1.2 = table_rows m fs0 (p1_consumed s) /\
      tables_closed m (cfg_flush c) first last_ (flush_heads m fs0 (p1_consumed s)) fs')) as Htab.
  { intros Hf. destruct (Hrows2 Hf) as (lk & Hlk & Hg & Hfl & Hndl). exists lk. split_and!; [done|by apply (ga_consumed _ _ _ _ _ Hg)|].
    eapply triple_conseq; [by apply (stage_rows m fs0 c first last_ s lk)|done|]. by intros r fs' (? & ? & ? & _). }
  apply (local_keeps _ _ w) in Hloc; specialize (Hst w). destruct (stage c first last_ s w) as [w2 r2] eqn:E. cbn [fst snd] in *. split.
  - eapply keeps_trans; [eapply keeps_mono; [|exact Hk1]; by left|]. eapply keeps_mono; [|exact Hloc].
    intros p [Hp|Hp]; [left; by apply scratch_touchable, run_file_scratch|right]. by exists first, last_.
  - destruct r2 as [[[staged rows] dedup]| |]; [|done|done]. cbn [fst snd] in *. destruct Hcomp as [Hcomp Hkst]. split_and!; [done| | |].
    + apply Forall_forall. intros p Hp. by apply Hcomp.
    + eapply keeps_trans; [eapply keeps_mono; [|exact Hk1]; by left|]. eapply keeps_mono; [|exact Hkst].
      intros p [Hp|[Hp|Hp]]; [left; by apply scratch_touchable, run_file_scratch|by right|done].
    + intros Hf. destruct (Htab Hf) as (lk & Hlk & Ecg & Htr). destruct (Htr w eq_refl) as [_ Hr]. rewrite E in Hr.
      cbn [fst snd] in Hr. destruct Hr as (-> & -> & Hcl). split; [|done].
      assert (first = hd 0 (p1_consumed s)) as Ef by (by rewrite Ec). rewrite Ef in *. split; [by exists lk|done|done].
Qed.

(** One phase after the other: what each way a phase can end makes of the run. *)
Lemma exec_run_inner ids spill w :
  exec (run_inner c m ids now spill) w =
    match phase1 m (memory_budget_bytes (cfg_flush c)) ids
        (mkPhase1 [] ∅ 0 0 0 (mkRejects (reject_max_bytes (cfg_limits c)) None) spill batch_default) w with
    | (w, Halted) => (w, Halted)
    | (w, Throw e) => (w, Ret (m, Err e))
    | (w, Ret s) =>
        match p1_consumed s with
        | [] => (w, Ret (m, Ok (mkOutcome [] [] 0 0 (p1_rejected s) (p1_skipped s))))
        | first :: _ =>
            if (p1_rows s =? 0) && (p1_rejected s =? 0) && (p1_skipped s =? 0)
            then (w, Ret (m, Ok outcome_default))
            else
              let last_ := List.last (p1_consumed s) 0 in
              match stage c first last_ s w with
              | (w, Halted) => (w, Halted)
              | (w, Throw e) => (w, Ret (m, Err e))
              | (w, Ret (staged, rows, dedup)) =>
                  let m' := with_watermark m last_ now in
                  match (commit m' ;; publish m' staged.*2 (p1_consumed s) (sp_touched (p1_spill s))) w with
                  | (w, Halted) => (w, Halted)
                  | (w, Throw e) => (w, Ret (m', Err e))
                  | (w, Ret _) =>
                      (w, Ret (m', Ok (mkOutcome (p1_consumed s) staged.*1 rows dedup
                                         (p1_rejected s) (p1_skipped s))))
                  end
              end
        end
    end.
Proof.
  unfold run_inner. rewrite exec_bind, exec_attempt. destruct (phase1 _ _ _ _ w) as [w1 [s|e|]]; [|done..].
  destruct (p1_consumed s) as [|first rest]; [done|]. destruct (_ && _); [done|]. cbv zeta.
  rewrite exec_bind, exec_attempt. destruct (stage _ _ _ _ w1) as [w2 [[[staged rows] dedup]|e|]]; [|done..].
  rewrite exec_bind, exec_attempt. by destruct (exec (_ ≫= _) w2) as [w3 [[]|e|]].
Qed.

Lemma run_inner_crash ids spill w : Forall (fun id => 0 <= id < u64_lim) ids -> NoDup ids ->
  sp_groups spill = ∅ -> keeps scratch fs0 (files w) ->
  let '(w', r) := run_inner c m ids now spill w in
  flush_end ids (files w') /\ flush_result (cfg_flush c) m m0 now ids fs0 r (files w').
Proof.
  intros Hids Hnd Hsp Hw. rewrite exec_run_inner. set (s0 := mkPhase1 _ _ _ _ _ _ _ _).
  pose proof (run_phase1 ids s0 w Hids Hnd Hsp eq_refl eq_refl eq_refl eq_refl Hw) as Hp1.
  destruct (phase1 _ _ _ _ w) as [w1 r1]. destruct Hp1 as [Hk1 Hp1].
  pose proof (touched_uncommitted _ ids _ _ Hload (keeps_mono _ _ _ _ (fun p H => or_introl H) Hk1)) as Hun1.
  destruct r1 as [s|e|]; [|split; [by left|done]..]. destruct Hp1 as [Hok Hrows].
  destruct (p1_consumed s) as [|first rest] eqn:Ec; [split; [by left|]; by left|].
  destruct (_ && _); [split; [by left|]; by left|].
  pose proof (run_stage ids s s0 w1 first rest Hok eq_refl Hnd Hrows Hk1 Ec) as Hp2. cbv zeta in Hp2.
  destruct Hok as [(l & El & Hsub) _ _]. cbn in El. subst l. rewrite <-Ec in *. set (last_ := List.last _ 0) in *.
  assert (0 <= last_ < u64_lim) as Hlast.
  { rewrite Forall_forall in Hids. apply Hids. eapply elem_of_sublist; [|exact Hsub].
    apply last_elem. by rewrite Ec. }
  assert (p1_consumed s <> []) as Hne by (by rewrite Ec). cbv zeta.
  destruct (stage c first last_ s w1) as [w2 r2]. destruct Hp2 as [Hk3 Hp2].
  pose proof (touched_uncommitted _ _ _ _ Hload Hk3) as Hun2.
  destruct r2 as [[[staged rows] dedup]|e|]; [|split; [by left|done]..].
  destruct Hp2 as (Hst & Hcomp & Hkst & Htab). assert (first = hd 0 (p1_consumed s)) as Ef by (by rewrite Ec). rewrite Ef in Hst.
  destruct (triple_commit_publish m m0 now fs0 (files w2) staged.*2 ids (p1_consumed s)
    (with_watermark_typed m last_ now Hm Hlast Hnow) (un_loads _ _ _ _ Hun2) Hk3 Hkst Hst Hcomp
    (sp_touched (p1_spill s)) w2 eq_refl) as [Hend Hfin].
  destruct (exec (commit _ ;; publish _ _ _ _) w2) as [w3 r3]. cbn [fst snd] in *.
  assert (flush_end ids (files w3)) as Hfe.
  { destruct Hend as [Hend|Hend]; [by left|right]. exists (p1_consumed s). split_and!; [done|done|].
    exists (files w2), staged. split; [done|]. intros Hf. by apply Htab. }
  destruct r3; [|by split..]. split; [done|]. right. cbn. split_and!; [done|done|]. by exists (files w2), staged.
Qed.

(** A readable segment stays until its rows are committed. *)
Lemma segment_not_flushing l id buf : 0 <= id -> fs0 !! segment_path id = Some buf -> ~ bad_header buf ->
  ~ flushing l fs0 (segment_path id).
Proof.
  intros Hid Hbuf Hgood [Ht|(f & la & _ & _ & s & h & e & _ & E)]; [|done]. revert Ht.
  rewrite segment_touchable by done. intros (b & Hb & Hbad). rewrite Hbuf in Hb. by injection Hb as <-.
Qed.

Lemma segment_kept_uncommitted ids fs id buf : uncommitted m0 ids fs0 fs -> 0 <= id ->
  fs0 !! segment_path id = Some buf -> ~ bad_header buf -> fs !! segment_path id = Some buf.
Proof.
  intros [_ Hk] Hid Hbuf Hgood. rewrite Hk; [done|].
  intros [Hp|[E|E]]; [by eapply segment_not_flushing|done|done].
Qed.

Lemma segment_kept_committed fs1 staged consumed fs id buf : Forall (fun i => 0 <= i) consumed ->
  committed_at m now fs0 fs1 staged consumed fs -> 0 <= id -> id ∉ consumed ->
  fs0 !! segment_path id = Some buf -> ~ bad_header buf -> fs !! segment_path id = Some buf.
Proof.
  intros Hpos Hc Hid Hnin Hbuf Hgood.
  pose proof (staged_is_staged _ _ _ (cm_staged _ _ _ _ _ _ _ Hc)) as Hst. rewrite Forall_forall in Hst. rewrite Forall_forall in Hpos.
  rewrite (cm_after _ _ _ _ _ _ _ Hc), (cm_before _ _ _ _ _ _ _ Hc); [done| |].
  { intros [Hp|Hp]; [eapply (segment_not_flushing [] id); [done..|by left]|].
    by destruct (Hst _ Hp) as (? & ? & ? & E). }
  intros [[Hp|[Hp|[(id' & Hid' & E)|(name & E)]]]|[[Hp|Hp]|Hp]]; try done.
  - by destruct (Hst _ Hp) as (? & ? & ? & E).
  - apply list_elem_of_fmap in Hp as (q & E & Hq). destruct (Hst q Hq) as (? & ? & ? & ->). done.
  - apply segment_path_inj in E; [by subst|done|auto].
Qed.

Lemma segment_kept ids fs id buf : Forall (fun i => 0 <= i) ids -> flush_end ids fs -> 0 <= id ->
  fs0 !! segment_path id = Some buf -> ~ bad_header buf ->
  fs !! segment_path id = Some buf \/
  exists consumed, id ∈ consumed /\ committed (cfg_flush c) m now fs0 ids consumed fs.
Proof.
  intros Hids [Hu|(consumed & Hc)] Hid Hbuf Hgood; [left; by eapply segment_kept_uncommitted|].
  destruct (decide (id ∈ consumed)) as [Hin|Hnin]; [right; by exists consumed|].
  left. destruct Hc as (Hne & Hsub & fs1 & staged & Hc & _). eapply segment_kept_committed; [|done..].
  rewrite Forall_forall in *. intros i Hi. apply Hids. by eapply elem_of_sublist.
Qed.
End run.
End flush.
