(* ===== verification/FlushTheorems.v ===== *)
(** * FlushTheorems: a flush interrupted anywhere is all or nothing *)

From Stdlib Require Import ZArith Lia.
From Stdlib Require Import Strings.Byte.
From S2P Require Import Prelude Text Record Codec CodecTheorems Disk Wal Reader Recovery Merge MergeProofs BatchProofs Time Config Manifest Columns ColumnsTheorems View Planner Decode Local FlushLocal FlushRows FlushTable FlushStage FlushStaged FlushCrash.
Open Scope Z_scope.

Lemma elem_of_dedup_from_sub {A} (same : A -> A -> bool) k l x : x ∈ dedup_from same k l -> x ∈ l.
Proof.
  revert k. induction l as [|y l IH]; intros k; cbn; [done|].
  destruct (same y k); [intros Hx%IH; by right|]. intros [->|Hx%IH]%elem_of_cons; [by left|by right].
Qed.

Lemma Forall_dedup_by {A} (P : A -> Prop) same l : Forall P l -> Forall P (dedup_by same l).
Proof.
  intros Hl. rewrite Forall_forall in *. intros x Hx. apply Hl. destruct l as [|y l]; [done|].
  apply elem_of_cons in Hx as [->|Hx%elem_of_dedup_from_sub]; [by left|by right].
Qed.

(** Sorted ids without the repetitions. *)
Lemma dedup_ids_sorted k l : StronglySorted Z.le (k :: l) -> StronglySorted Z.lt (k :: dedup_from Z.eqb k l).
Proof.
  revert k. induction l as [|y l IH]; intros k Hs; cbn [dedup_from]; [repeat constructor|].
  apply StronglySorted_cons in Hs as [[Hky Hk]%Forall_cons Hs]. destruct (Z.eqb_spec y k) as [->|Hne]; [by apply IH|].
  pose proof (IH y Hs) as Hy. apply StronglySorted_cons. split; [|done]. apply StronglySorted_cons in Hy as [Hlt _].
  constructor; [lia|]. eapply Forall_impl; [exact Hlt|]. cbn. lia.
Qed.

Section flush.
Context `{Crc32} `{Parquet} `{ManifestJson}.

(** The segments a run looks at. *)
Definition run_ids (segments : list Z) : list Z := dedup_by Z.eqb (sort_by_key id segments).

Lemma run_ids_ok (P : Z -> Prop) segments : Forall P segments -> Forall P (run_ids segments).
Proof.
  intros Hs. apply Forall_dedup_by. rewrite Forall_forall in *. intros x Hx. apply Hs.
  by apply elem_of_sort in Hx.
Qed.

Lemma run_ids_sorted segments : StronglySorted Z.lt (run_ids segments).
Proof.
  unfold run_ids. assert (StronglySorted Z.le (sort_by_key id segments)) as Hs.
  { eapply sorted_impl; [|apply (sort_sorted id)]. intros x y Hxy. unfold key_le, cle, cmp, cmp_Z, id in Hxy.
    by rewrite Z.compare_gt_iff, Z.nlt_ge in Hxy. }
  destruct (sort_by_key id segments) as [|x l]; [constructor|]. by apply dedup_ids_sorted.
Qed.

Lemma run_ids_nodup segments : NoDup (run_ids segments).
Proof.
  generalize (run_ids_sorted segments). generalize (run_ids segments). induction 1 as [|x l Hs IH Hx]; [constructor|].
  constructor; [|done]. intros Hin. rewrite Forall_forall in Hx. specialize (Hx x Hin). lia.
Qed.

Lemma flush_end_runs c m m0 now fs0 ids fs fs' : keeps run_file fs fs' ->
  flush_end c m m0 now fs0 ids fs -> flush_end c m m0 now fs0 ids fs'.
Proof.
  intros Hk [Hu|(consumed & Hne & Hs & fs1 & staged & Hc & Ht)]; [left; by eapply uncommitted_runs|right].
  exists consumed. split_and!; [done|done|]. exists fs1, staged. split; [by eapply committed_runs|done].
Qed.

Lemma flush_result_runs c m m0 now ids fs0 r fs fs' : keeps run_file fs fs' ->
  flush_result c m m0 now ids fs0 r fs -> flush_result c m m0 now ids fs0 r fs'.
Proof.
  intros Hk. destruct r as [[m' [o|e]]|e|]; [|done..]. cbn. intros [(? & ? & Hu)|(? & ? & fs1 & staged & Hf & ? & ?)]; [left|right].
  - split_and!; [done|done|by eapply uncommitted_runs].
  - split_and!; [done|done|]. exists fs1, staged. split_and!; [by eapply finished_runs|done|done].
Qed.

Lemma local_spill_new : local run_file spill_new.
Proof. apply local_bind; [apply local_clear_runs|]. intros []. apply local_ret. Qed.

Lemma spill_new_empty w : match (spill_new w).2 with Ret s => sp_groups s = ∅ | _ => True end.
Proof. unfold spill_new, mbind, io_bind. cbn [exec]. by destruct (clear_runs w) as [w' [[]|e|]]. Qed.

Lemma run_crash c m m0 segments now w :
  manifest_typed m -> 0 <= now < u64_lim -> Forall (fun id => 0 <= id < u64_lim) segments ->
  loads (files w) m0 ->
  let '(w', r) := run c m segments now w in
  flush_end c m m0 now (files w) (run_ids segments) (files w') /\
  flush_result (cfg_flush c) m m0 now (run_ids segments) (files w) r (files w').
Proof.
  intros Hm Hnow Hseg Hload. pose proof (run_ids_ok _ _ Hseg) as Hids. pose proof (run_ids_nodup segments) as Hnd.
  assert (forall w', keeps (touchable (files w)) (files w) (files w') ->
    uncommitted m0 (run_ids segments) (files w) (files w')) as Hun.
  { intros w' Hk. apply touched_uncommitted; [done|]. eapply keeps_mono; [|exact Hk]. by left. }
  destruct (run c m segments now w) as [w' r] eqn:E. revert E.
  unfold run. fold (run_ids segments). destruct (run_ids segments) as [|i ids].
  { intros [= <- <-]. pose proof (Hun w (keeps_refl _ _)). split; [by left|by left]. }
  assert (keeps scratch (files w) (files (spill_new w).1)) as Hk.
  { eapply keeps_mono; [|apply local_keeps, local_spill_new]. intros p Hp. by apply run_file_scratch. }
  pose proof (spill_new_empty w) as Hempty.
  rewrite exec_bind. destruct (spill_new w) as [w1 r1]. cbn [fst snd] in *.
  destruct r1 as [sp|e|]; [|by intros [= <- <-]; split; [left; apply Hun; eapply keeps_mono; [|exact Hk]; apply scratch_touchable|]..].
  pose proof (run_inner_crash c m m0 now (files w) Hm Hnow Hload (i :: ids) sp w1 Hids Hnd Hempty Hk) as Hrun.
  rewrite exec_finally. destruct (run_inner c m (i :: ids) now sp w1) as [w2 r2]. destruct Hrun as [He Hr].
  pose proof (local_keeps _ _ w2 local_clear_runs) as Hc. destruct (clear_runs w2) as [w3 r3]. cbn [fst] in Hc.
  destruct r2 as [a|e|]; intros E; [| |by injection E as <- <-];
    (destruct r3; injection E as <- <-; (split; [by eapply flush_end_runs|done || by eapply flush_result_runs])).
Qed.

(** C4: Crash safety of a flush ([planner::run]), for every sequence of I/O errors and
    every point where the process stops (a torn write included). Either the manifest on
    disk is still the old one and every file is as before except [runs/], [rejects/],
    the manifest's staging file, files staged in [tmp/] under this flush's own names,
    and segments whose header was already unreadable (moved aside); or the manifest is
    the new one and every staged file was complete when it was committed and has since
    stayed in [tmp/] or moved, whole, to its place in [series/]. In a directory within
    the program's bounds the staged files are exactly one per series, epoch and hour of
    the consumed segments' records, each the Parquet table of the rows of that hour in
    order, each row once with its first arrival kept; the consumed segments are the
    readable ones, up to one that could be neither read nor moved away. A run that
    reports consumed segments has moved every staged file, deleted those segments and
    reports those files and their row count; and a readable segment never goes before
    its rows are committed. *)
Theorem flush_crash_safe c m m0 segments now w :
  manifest_typed m -> 0 <= now < u64_lim -> Forall (fun id => 0 <= id < u64_lim) segments ->
  loads (files w) m0 ->
  let '(w', r) := run c m segments now w in
  flush_end c m m0 now (files w) (run_ids segments) (files w') /\
  flush_result (cfg_flush c) m m0 now (run_ids segments) (files w) r (files w') /\
  forall id buf, 0 <= id -> files w !! segment_path id = Some buf -> ~ bad_header buf ->
    files w' !! segment_path id = Some buf \/
    exists consumed, id ∈ consumed /\ committed (cfg_flush c) m now (files w) (run_ids segments) consumed (files w').
Proof.
  intros Hm Hnow Hseg Hload. pose proof (run_crash c m m0 segments now w Hm Hnow Hseg Hload) as Hrun.
  destruct (run c m segments now w) as [w' r]. destruct Hrun as [He Hr]. split_and!; [done|done|].
  intros id buf Hid Hb Hg. eapply segment_kept; [|done..].
  eapply Forall_impl; [by apply run_ids_ok|]. cbn. lia.
Qed.
End flush.

(** ** Instances *)

Definition flush_manifest : Manifest := mkManifest {[lit "orders" := [mkEpoch 3 sample_defs]]} 4 None.

Lemma flush_manifest_typed : manifest_typed flush_manifest.
Proof.
  split; [|vm_compute; split; congruence|done].
  intros name h Hl. cbn in Hl. apply lookup_singleton_Some in Hl as [<- <-].
  split; [by vm_compute|]. repeat constructor; vm_compute; congruence.
Qed.

#[local] Existing Instance Crc32_ieee.
#[local] Existing Instance count_parquet.
#[local] Existing Instance NumberJson.

(** The manifest on disk and one segment with one good record. *)
Definition flush_files : Files :=
  <[manifest_path := binary (countable.encode flush_manifest) ++ [x0a]]> {[segment_path 5 := sample_segment]}.

Lemma flush_files_load : loads flush_files flush_manifest.
Proof. split; [apply binary_ascii|]. unfold flush_files. vm_compute. reflexivity. Qed.

(** A run without faults: one file published, the segment deleted. *)
Example flush_sample :
  let '(w', r) := run sample_config flush_manifest [5] 7 (mkWorld flush_files []) in
  match r with
  | Ret (m', Ok o) => last_flushed_segment m' = 5 /\ segments_consumed o = [5] /\
      rows_written o = 1 /\ frames_rejected o = 3 /\
      files w' !! segment_path 5 = None /\
      files w' !! [SERIES_DIR; lit "orders"; lit "hour=1970-01-20T16"; lit "0000000005-0000000005.e3.parquet"]
        = Some (lit "PAR11")
  | _ => False
  end.
Proof. vm_compute. repeat split. Qed.

Lemma flush_files_fit : fits flush_manifest [5] flush_files.
Proof.
  split.
  - intros name [h Hl]. cbn in Hl. apply lookup_singleton_Some in Hl as [<- _]. by vm_compute.
  - apply Forall_singleton. split; [split; [discriminate|reflexivity]|]. intros buf Hb.
    assert (buf = sample_segment) as -> by (vm_compute in Hb |- *; congruence).
    split; [|by vm_compute].
    assert (forallb (fun f => zlen f <? u32_lim) (records sample_segment) = true) as Hf by (vm_compute; reflexivity).
    rewrite forallb_forall in Hf. unfold small_frames. revert Hf. generalize (records sample_segment). intros l Hf.
    apply Forall_forall. intros f Hin%list_elem_of_In. by apply Z.ltb_lt, Hf.
Qed.

(** The process stops in the middle of staging. *)
Lemma flush_crash_witness :
  loads flush_files flush_manifest /\ fits flush_manifest [5] flush_files /\
  let '(w', r) := run sample_config flush_manifest [5; 5] 7 (mkWorld flush_files [Fine; Fine; Fine; Fine; Fine; Fine; Torn 2]) in
  flush_end sample_config flush_manifest flush_manifest 7 flush_files [5] (files w') /\
  (files w' !! segment_path 5 = Some sample_segment \/
   exists consumed, 5 ∈ consumed /\
     committed (cfg_flush sample_config) flush_manifest 7 flush_files [5] consumed (files w')).
Proof.
  split; [exact flush_files_load|]. split; [exact flush_files_fit|].
  assert (0 <= 7 < u64_lim) as Hnow by (split; [discriminate|reflexivity]).
  assert (Forall (fun id => 0 <= id < u64_lim) [5; 5]) as Hids by (repeat constructor; discriminate).
  pose proof (flush_crash_safe sample_config flush_manifest flush_manifest [5; 5] 7
    (mkWorld flush_files [Fine; Fine; Fine; Fine; Fine; Fine; Torn 2]) flush_manifest_typed
    Hnow Hids flush_files_load) as Hs.
  destruct (run _ _ _ _ _) as [w' r]. destruct Hs as (He & _ & Hseg). split; [exact He|].
  apply (Hseg 5 sample_segment); [discriminate|vm_compute; reflexivity|].
  destruct (reader_new sample_segment (zlen sample_segment)) as [rd|e] eqn:E.
  - intros Hb. exact (Hb rd E).
  - vm_compute in E. discriminate.
Defined.
