(* ===== verification/Beside.v ===== *)
(** * Beside: a computation while other threads run

    Between the calls of a computation other threads may change files. [exec_beside]
    runs a tree of calls next to such threads: what they do before each call is an
    arbitrary list of changes. When no call touches the files the others change, the
    computation does what it does alone, and so do they. *)

From Stdlib Require Import ZArith Lia.
From S2P Require Import Prelude Text Record Disk Local Calls.

(** What another thread does to a file. *)
Inductive act : Type :=
| Put (p : path) (c : bytes)
| Del (p : path).

Definition act_path (a : act) : path := match a with Put p _ | Del p => p end.

Definition apply_act (fs : Files) (a : act) : Files :=
  match a with
  | Put p c => <[p := c]> fs
  | Del p => delete p fs
  end.

Definition apply_acts (l : list act) (fs : Files) : Files := foldl apply_act fs l.

(** The world, what the others will do before each coming call, and what they did. *)
Record Busy := mkBusy { b_world : World; b_coming : list (list act); b_acts : list act }.

(** One call, after what the others do before it. *)
Definition perform_beside {R : Type} (c : call R) (b : Busy) : Busy * outcome R :=
  let acts := hd [] (b_coming b) in
  let w := b_world b in
  let '(w', r) := perform c (mkWorld (apply_acts acts (files w)) (script w)) in
  (mkBusy w' (tl (b_coming b)) (b_acts b ++ acts), r).

Fixpoint exec_beside {A : Type} (m : io A) : Busy -> Busy * outcome A :=
  match m in io A return Busy -> Busy * outcome A with
  | Done a => fun b => (b, Ret a)
  | Raise e => fun b => (b, Throw e)
  | Call c => perform_beside c
  | Bind m k => fun b =>
      match exec_beside m b with
      | (b', Ret a) => exec_beside (k a) b'
      | (b', Throw e) => (b', Throw e)
      | (b', Halted) => (b', Halted)
      end
  | Catch m => fun b =>
      match exec_beside m b with
      | (b', Ret a) => (b', Ret (Ok a))
      | (b', Throw e) => (b', Ret (Err e))
      | (b', Halted) => (b', Halted)
      end
  end.

(** The files whose content or presence a call depends on or changes. *)
Definition touches {R : Type} (c : call R) (p : path) : Prop :=
  match c with
  | Rename from to => p = from \/ p = to
  | RemoveFile q | ReadFile q | FileLen q | OpenFile q | WriteFile q _ | AppendFile q _
  | CreateNew q _ | OpenTruncate q | SetLen q _ | WriteCount q _ | SyncLen q => p = q
  | SyncFile _ | TryClone _ | FlushFile _ | FsyncDir _ | CreateDirAll _ | ReadTick => False
  | ReadDir dir => is_Some (name_in dir p)
  | ReadSubdirs dir => is_Some (subdir_in dir p)
  | RemoveDirAll dir => under dir p = true
  end.

(** ** Directories that agree *)

Lemma NoDup_files (fs : Files) : NoDup (map_to_list fs).*1.
Proof. apply NoDup_fst_map_to_list. Qed.

Lemma elem_of_files (fs : Files) p : p ∈ (map_to_list fs).*1 <-> is_Some (fs !! p).
Proof.
  rewrite list_elem_of_fmap. split.
  - intros ([q c] & -> & Hq%elem_of_map_to_list). by eexists.
  - intros [c Hc]. exists (p, c). split; [done|]. by apply elem_of_map_to_list.
Qed.

Lemma sort_same {A : Type} `{CmpLaws A} (l l' : list A) : NoDup l -> NoDup l' ->
  (forall x, x ∈ l <-> x ∈ l') -> sort_by_key id l = sort_by_key id l'.
Proof.
  intros Hl Hl' Hx. apply sort_unique; [by intros x y _ _ ?| |apply sort_sorted].
  rewrite sort_perm. by apply NoDup_Permutation.
Qed.

Section agree.
Context (E : path -> Prop).

(** Equal but for the files of the others. *)
Definition agree (fs fs' : Files) : Prop := forall p, ~ E p -> fs' !! p = fs !! p.

Lemma agree_insert fs fs' p c : agree fs fs' -> agree (<[p := c]> fs) (<[p := c]> fs').
Proof.
  intros Ha q Hq. destruct (decide (q = p)) as [->|]; [by rewrite !lookup_insert_eq|].
  rewrite !lookup_insert_ne by done. by apply Ha.
Qed.

Lemma agree_delete fs fs' p : agree fs fs' -> agree (delete p fs) (delete p fs').
Proof.
  intros Ha q Hq. destruct (decide (q = p)) as [->|]; [by rewrite !lookup_delete_eq|].
  rewrite !lookup_delete_ne by done. by apply Ha.
Qed.

Lemma agree_delete_all ps fs fs' : agree fs fs' -> agree (foldr delete fs ps) (foldr delete fs' ps).
Proof. intros Ha. induction ps as [|p ps IH]; [done|]. by apply agree_delete. Qed.

Lemma agree_names fs fs' dir : agree fs fs' -> (forall p, is_Some (name_in dir p) -> ~ E p) ->
  names_of fs' dir = names_of fs dir.
Proof.
  intros Ha Hd. unfold names_of. apply sort_same.
  1, 2: apply omap_NoDup; [|apply NoDup_files]; intros x y b; rewrite !name_in_Some; by intros -> ->.
  intros n. rewrite !list_elem_of_omap. setoid_rewrite elem_of_files.
  split; intros (p & Hp & Hn); exists p; (split; [|done]); [rewrite <-(Ha p)|rewrite (Ha p)]; try done;
    apply Hd; by eexists.
Qed.

Lemma agree_subdirs fs fs' dir : agree fs fs' -> (forall p, is_Some (subdir_in dir p) -> ~ E p) ->
  subdirs_of fs' dir = subdirs_of fs dir.
Proof.
  intros Ha Hd. unfold subdirs_of. apply sort_same; [apply NoDup_remove_dups..|].
  intros n. rewrite !elem_of_remove_dups, !list_elem_of_omap. setoid_rewrite elem_of_files.
  split; intros (p & Hp & Hn); exists p; (split; [|done]); [rewrite <-(Ha p)|rewrite (Ha p)]; try done;
    apply Hd; by eexists.
Qed.

Lemma agree_under fs fs' dir : agree fs fs' -> (forall p, under dir p = true -> ~ E p) ->
  files_under dir fs' = files_under dir fs.
Proof.
  intros Ha Hd. unfold files_under. apply sort_same; [apply NoDup_filter, NoDup_files..|].
  intros p. rewrite !list_elem_of_filter, !elem_of_files. split; intros [Hu Hp]; (split; [done|]);
    [rewrite <-(Ha p)|rewrite (Ha p)]; auto.
Qed.

(** ** A call next to files it does not touch *)

Definition apart {R : Type} (c : call R) : Prop := forall p, touches c p -> ~ E p.

Ltac agree_solve :=
  first [done | by apply agree_insert | by apply agree_delete | by apply agree_insert, agree_delete].

Lemma effect_agree {R : Type} (c : call R) fs fs' : apart c -> agree fs fs' ->
  (effect c fs').2 = (effect c fs).2 /\ agree (effect c fs).1 (effect c fs').1.
Proof.
  intros Hc Ha. unfold apart in Hc.
  destruct c; cbn [touches] in Hc; cbn;
    try (rewrite (Ha _ (Hc _ eq_refl)); repeat (destruct (fs !! _)); cbn; split; agree_solve);
    try by split; [|agree_solve].
  - rewrite (Ha from) by (apply Hc; by left). destruct (fs !! from); cbn; split; agree_solve.
  - split; [|done]. f_equal. by apply agree_names.
  - split; [|done]. f_equal. by apply agree_subdirs.
  - split; [done|]. rewrite (agree_under fs fs') by done. by apply agree_delete_all.
Qed.

Lemma part_agree {R : Type} (c : call R) n fs fs' : apart c -> agree fs fs' -> agree (part c n fs) (part c n fs').
Proof.
  intros Hc Ha. unfold apart in Hc. destruct c; cbn [touches] in Hc; cbn; try done;
    try (rewrite (Ha _ (Hc _ eq_refl))); try by apply agree_insert.
  rewrite (agree_under fs fs') by done. by apply agree_delete_all.
Qed.

(** A call changes no file it does not touch. *)
Lemma local_touches {R : Type} (c : call R) : local (touches c) (Call c).
Proof.
  apply local_call.
  - intros p. destruct c; cbn; tauto.
  - intros n fs. destruct c; cbn; try apply keeps_refl; try by apply keeps_insert.
    apply keeps_delete_all. intros p Hp%elem_of_take_list. by apply elem_of_files_under in Hp as [? _].
  - intros fs. destruct c; cbn; try apply keeps_refl;
      try (destruct (fs !! _); cbn; try apply keeps_refl); try (by apply keeps_insert); try (by apply keeps_delete).
    + eapply keeps_trans; [apply (keeps_delete _ from); by left|apply keeps_insert; by right].
    + apply keeps_delete_all. intros p Hp. by apply elem_of_files_under in Hp as [? _].
Qed.

Lemma perform_agree {R : Type} (c : call R) w w' : apart c -> script w' = script w ->
  agree (files w) (files w') ->
  (perform c w').2 = (perform c w).2 /\ script (perform c w').1 = script (perform c w).1 /\
  agree (files (perform c w).1) (files (perform c w').1).
Proof.
  intros Hc Hs Ha. unfold perform. rewrite Hs.
  destruct (effect_agree c (files w) (files w') Hc Ha) as [Hr Hf].
  assert (forall n, agree (part c n (files w)) (part c n (files w'))) as Hp by (intros n; by apply part_agree).
  destruct (script w) as [|[|e|n e| |n] s]; cbn; try (by split_and!);
    destruct (effect c (files w)) as [g r], (effect c (files w')) as [g' r']; cbn in *; by subst r'.
Qed.

Lemma perform_others {R : Type} (c : call R) w p : apart c -> E p -> files (perform c w).1 !! p = files w !! p.
Proof. intros Hc Hp. apply (local_touches c w). intros Ht. by apply (Hc p Ht). Qed.

(** ** A computation next to files it does not touch *)

Definition others_only (acts : list act) : Prop := Forall (fun a => E (act_path a)) acts.

Lemma apply_acts_agree acts fs : others_only acts -> agree fs (apply_acts acts fs).
Proof.
  unfold others_only. intros Ha. revert fs. induction Ha as [|a acts Ha _ IH]; intros fs; [done|].
  intros p Hp. change (apply_acts (a :: acts) fs) with (apply_acts acts (apply_act fs a)).
  rewrite (IH _ p Hp). destruct a as [q c|q]; cbn in *;
    [rewrite lookup_insert_ne|rewrite lookup_delete_ne]; congruence.
Qed.

Lemma apply_acts_app l l' fs : apply_acts (l ++ l') fs = apply_acts l' (apply_acts l fs).
Proof. apply foldl_app. Qed.

Lemma apply_acts_same acts fs fs' p : fs !! p = fs' !! p -> apply_acts acts fs !! p = apply_acts acts fs' !! p.
Proof.
  revert fs fs'. induction acts as [|a acts IH]; intros fs fs' Hp; [done|]. apply IH.
  destruct a as [q c|q]; cbn; destruct (decide (p = q)) as [->|];
    rewrite ?lookup_insert_eq, ?lookup_delete_eq, ?lookup_insert_ne, ?lookup_delete_ne by done; done.
Qed.

(** How far a run next to others is from the run alone: nothing but the others' files,
    and those are as the others left them. *)
Record next_to (g : Files) (coming : list (list act)) (w : World) (b : Busy) : Prop := {
  nt_script : script (b_world b) = script w;
  nt_own : agree (files w) (files (b_world b));
  nt_others : forall p, E p -> files (b_world b) !! p = apply_acts (b_acts b) g !! p;
  nt_acts : concat coming = b_acts b ++ concat (b_coming b);
  nt_only : Forall others_only (b_coming b)
}.

Lemma perform_beside_spec {R : Type} (c : call R) g coming w b : apart c -> next_to g coming w b ->
  (perform_beside c b).2 = (perform c w).2 /\ next_to g coming (perform c w).1 (perform_beside c b).1.
Proof.
  intros Hc [Hs Hown Hoth Hacts Honly]. unfold perform_beside.
  set (acts := hd [] (b_coming b)).
  assert (others_only acts) as Ha by (unfold acts; destruct Honly; [apply Forall_nil_2|done]).
  assert (concat (b_coming b) = acts ++ concat (tl (b_coming b))) as Ec by (unfold acts; by destruct (b_coming b)).
  set (w1 := mkWorld (apply_acts acts (files (b_world b))) (script (b_world b))).
  assert (agree (files w) (files w1)) as Hag.
  { intros p Hp. cbn. rewrite (apply_acts_agree acts _ Ha p Hp). by apply Hown. }
  destruct (perform_agree c w w1 Hc Hs Hag) as (Hr & Hs' & Hf).
  pose proof (perform_others c w1) as Hk. destruct (perform c w1) as [w2 r2]. cbn [fst snd] in *.
  split; [done|]. split; cbn [b_world b_acts b_coming]; [done|done| | |].
  - intros p Hp. rewrite Hk by done. cbn [files w1]. rewrite apply_acts_app. apply apply_acts_same. by apply Hoth.
  - by rewrite Hacts, Ec, app_assoc.
  - destruct Honly; [constructor|done].
Qed.

(** [J] is what the monitor's states have in common. *)
Lemma exec_beside_spec {M A : Type} `{Monitor M} (J : M -> Prop) (m : io A) Q X (s : M) g coming w b :
  (forall s R (c : call R), J s -> allowed s c = true -> apart c) ->
  (forall s R (c : call R) r, J s -> J (after s c r)) ->
  J s -> wp m Q X s -> next_to g coming w b ->
  (exec_beside m b).2 = (exec m w).2 /\ next_to g coming (exec m w).1 (exec_beside m b).1 /\
  match (exec m w).2 with
  | Ret a => exists s', J s' /\ Q a s'
  | Throw _ => exists s', J s' /\ X s'
  | Halted => True
  end.
Proof.
  intros Hap Hj. revert Q X s w b. induction m as [A a|A e|R c|A B m IH k IHk|A m IH]; intros Q X s w b Js Hm Hn.
  - cbn in *. eauto.
  - cbn in *. eauto.
  - destruct Hm as [Hc Hr]. destruct (perform_beside_spec c g coming w b) as [E1 Hn1]; [by eapply Hap|done|].
    cbn [exec exec_beside]. split; [done|]. split; [done|].
    destruct (perform c w).2 as [r|e|] eqn:Er; [by eexists; split; [apply (Hj s)|]| |done].
    exfalso. unfold perform in Er. destruct (script w) as [|[| | | |] ?]; try done; by destruct (effect _ _).
  - destruct (IH _ _ s w b Js Hm Hn) as (E1 & Hn1 & Hq). cbn [exec exec_beside].
    destruct (exec m w) as [w1 r1], (exec_beside m b) as [b1 r1']. cbn [fst snd] in *. subst r1'.
    destruct r1 as [a|e|]; [|by split_and!..]. destruct Hq as (s1 & Js1 & Hq). by eapply IHk.
  - destruct (IH _ _ s w b Js Hm Hn) as (E1 & Hn1 & Hq). cbn [exec exec_beside].
    destruct (exec m w) as [w1 r1], (exec_beside m b) as [b1 r1']. cbn [fst snd] in *. subst r1'.
    destruct r1 as [a|e|]; cbn [fst snd]; (split; [done|]); (split; [done|]); [done| |done].
    destruct Hq as (s1 & Js1 & Hq). exists s1. split; [done|]. apply Hq.
Qed.
End agree.
