(* ===== verification/Durable.v ===== *)
(** * Durable: the order in which a flush writes, syncs, renames and deletes

    A call's effect survives a stop of the process (file Disk), but a power cut can take
    away bytes that were not synced and names whose directory was not. The flush is safe
    against that because of the order of its calls: a staged file and the names that lead
    to it are synced before the manifest that mentions it is renamed into place, a file
    is moved into [series/] only after that rename is synced, and a segment is deleted
    only after the names in [series/] are synced. This file states the order as a
    [Monitor] over the calls of a flush; FlushCalls shows that every flush keeps it.

    Two more facts for the file PowerCut: the monitor's unsynced bytes are those of [dirty]
    (file Calls), and they are never bytes that matter ([harmless]).

    The monitor also says which files are the flush's own, which is what Beside needs to
    run it next to the threads that append. *)

From Stdlib Require Import ZArith Lia.
From Stdlib Require Import Strings.Byte.
From S2P Require Import Prelude Text Record Disk Wal Merge Manifest Planner Calls.
Open Scope Z_scope.

(** What is not durable yet. *)
Record Order := mkOrder {
  inputs : list Z;          (* the segments given to the flush *)
  first_flush : bool;       (* [series/] did not exist when it began *)
  present : gset path;      (* directories that exist *)
  unsynced : gset path;     (* files with bytes that are not synced *)
  loose : gset path;        (* names, present or gone, not synced in their directory *)
  committed : bool          (* the manifest is renamed *)
}.

Definition order_start (ids : list Z) (dirs : gset path) : Order :=
  mkOrder ids (bool_decide ([SERIES_DIR] ∉ dirs)) dirs ∅ ∅ false.

(** The directories [create_dir_all] makes sure of. *)
Fixpoint ancestors (above rest : path) : list path :=
  match rest with
  | [] => []
  | d :: rest' => (above ++ [d]) :: ancestors (above ++ [d]) rest'
  end.

Definition written (s : Order) (p : path) : Order :=
  mkOrder (inputs s) (first_flush s) (present s) ({[p]} ∪ unsynced s) ({[p]} ∪ loose s) (committed s).

Definition synced (s : Order) (p : path) : Order :=
  mkOrder (inputs s) (first_flush s) (present s) (unsynced s ∖ {[p]}) (loose s) (committed s).

Definition dir_synced (s : Order) (dir : path) : Order :=
  mkOrder (inputs s) (first_flush s) (present s) (unsynced s)
    (filter (fun p => removelast p <> dir) (loose s)) (committed s).

Definition dirs_made (s : Order) (dir : path) (made : bool) : Order :=
  let new := filter (fun d => d ∉ present s) (ancestors [] dir) in
  mkOrder (inputs s) (first_flush s) (if made then list_to_set new ∪ present s else present s)
    (unsynced s) (list_to_set new ∪ loose s) (committed s).

Definition moved (s : Order) (from to : path) : Order :=
  mkOrder (inputs s) (first_flush s) (present s)
    (if decide (from ∈ unsynced s) then {[to]} ∪ unsynced s ∖ {[from]} else unsynced s ∖ {[to]})
    ({[from; to]} ∪ loose s)
    (committed s || bool_decide (to = manifest_path)).

Definition removed (s : Order) (p : path) : Order :=
  mkOrder (inputs s) (first_flush s) (present s) (unsynced s ∖ {[p]}) ({[p]} ∪ loose s) (committed s).

Definition all_removed (s : Order) (dir : path) : Order :=
  mkOrder (inputs s) (first_flush s) (filter (fun d => under dir d = false) (present s)) (unsynced s)
    ({[dir]} ∪ loose s) (committed s).

Definition order_after {R : Type} (s : Order) (c : call R) : option R -> Order :=
  match c in call R return option R -> Order with
  | Rename from to => fun o => if answered_ok o then moved s from to else s
  | RemoveFile p => fun o => if answered_ok o then removed s p else s
  | WriteFile p _ | AppendFile p _ | CreateNew p _ | OpenTruncate p | SetLen p _ => fun _ => written s p
  | WriteCount p _ => fun _ => written s p
  | SyncFile p => fun o => if answered_ok o then synced s p else s
  | SyncLen p => fun o => if answered_ok o then synced s p else s
  | FsyncDir dir => fun o => if answered_ok o then dir_synced s dir else s
  | CreateDirAll dir => fun o => dirs_made s dir (answered_ok o)
  | RemoveDirAll dir => fun _ => all_removed s dir
  | ReadFile _ => fun _ => s
  | FileLen _ => fun _ => s
  | OpenFile _ | TryClone _ | FlushFile _ | ReadTick => fun _ => s
  | ReadDir _ | ReadSubdirs _ => fun _ => s
  end.

(** ** The files of a flush *)

(** [tmp/], [runs/], [rejects/] and [series/]. *)
Definition own_dir (dir : path) : bool :=
  match dir with
  | top :: _ => bool_decide (top ∈ [TMP_DIR; RUNS_DIR; REJECTS_DIR; SERIES_DIR])
  | [] => false
  end.

(** With the manifest, its staging file, and the segments given to the flush under both
    names they can have. *)
Definition own (ids : list Z) (p : path) : bool :=
  own_dir p
  || bool_decide (p ∈ [manifest_path; manifest_tmp])
  || bool_decide (p ∈ segment_path <$> ids)
  || bool_decide (p ∈ corrupt_path <$> ids).

Definition own_call {R : Type} (ids : list Z) (c : call R) : bool :=
  match c with
  | Rename from to => own ids from && own ids to
  | RemoveFile p | ReadFile p | FileLen p | OpenFile p | WriteFile p _ | AppendFile p _
  | CreateNew p _ | OpenTruncate p | SetLen p _ | WriteCount p _ | SyncLen p => own ids p
  | SyncFile _ | TryClone _ | FlushFile _ | FsyncDir _ | CreateDirAll _ | ReadTick => true
  | ReadDir dir | ReadSubdirs dir | RemoveDirAll dir => own_dir dir
  end.

(** ** The order *)

(** A path strictly below [tmp/]. *)
Definition staged_name (p : path) : bool := under tmp_dir p && bool_decide (p <> tmp_dir).

(** Nothing staged can be lost. *)
Definition staging_durable (s : Order) : bool :=
  bool_decide (set_Forall (fun p => staged_name p = false) (unsynced s ∪ loose s)).

(** The new manifest cannot be lost. *)
Definition commit_durable (s : Order) : bool :=
  committed s && bool_decide (manifest_path ∉ unsynced s ∪ loose s).

(** Nothing published can be lost; the name of [series/] itself is synced by nobody in
    the flush that creates it. *)
Definition tables_durable (s : Order) : bool :=
  bool_decide (set_Forall (fun p => under [SERIES_DIR] p = true -> p = [SERIES_DIR] /\ first_flush s = true)
    (unsynced s ∪ loose s)).

(** The view of a series. *)
Definition is_view (p : path) : bool :=
  match p with
  | [top; _; name] => bool_decide (top = SERIES_DIR /\ name = VIEW_FILE)
  | _ => false
  end.

(** What is written: never a segment or the manifest in place; in [series/] only views;
    nothing staged after the commit. *)
Definition may_write (s : Order) (p : path) : bool :=
  negb (under wal_dir p) && bool_decide (p <> manifest_path)
  && (negb (under [SERIES_DIR] p) || is_view p)
  && negb (committed s && staged_name p).

Definition in_order {R : Type} (s : Order) (c : call R) : bool :=
  match c with
  | Rename from to =>
      if decide (to = manifest_path) then bool_decide (from ∉ unsynced s) && staging_durable s
      else if under [SERIES_DIR] to then bool_decide (from ∉ unsynced s) && commit_durable s
      else under wal_dir from && under wal_dir to
  | RemoveFile p => if under wal_dir p then commit_durable s && tables_durable s else true
  | WriteFile p _ | AppendFile p _ | CreateNew p _ | OpenTruncate p | SetLen p _ | WriteCount p _ =>
      may_write s p
  | _ => true
  end.

#[export] Instance flush_order : Monitor Order := {
  allowed R s c := own_call (inputs s) c && in_order s c;
  after R s c o := order_after s c o
}.

(** ** The monitor's book of unsynced bytes *)

Lemma after_unsynced {R : Type} (s : Order) (c : call R) o :
  unsynced (order_after s c o) = dirty_after (unsynced s) c o.
Proof.
  destruct c; cbn; try done; try by destruct (answered_ok o).
Qed.

Lemma replay_unsynced (s : Order) l : unsynced (replay s l) = dirty (unsynced s) l.
Proof.
  revert s. induction l as [|[R c o] l IH]; intros s; cbn [replay dirty]; [done|]. rewrite IH. cbn [after flush_order].
  by rewrite after_unsynced.
Qed.

(** Bytes that may be lost are never those of the manifest, of a segment or of a table in
    [series/], nor, after the commit, of a staged table. *)
Definition harmless (s : Order) : Prop := forall p, p ∈ unsynced s ->
  p <> manifest_path /\ under wal_dir p = false /\ (under [SERIES_DIR] p = true -> is_view p = true) /\
  (committed s = true -> staged_name p = false).

Lemma harmless_after {R : Type} (s : Order) (c : call R) o :
  in_order s c = true -> harmless s -> harmless (order_after s c o).
Proof.
  intros Ho Hs.
  assert (forall s', unsynced s' ⊆ unsynced s -> (committed s' = true -> committed s = true) -> harmless s') as Hsub.
  { intros s' Hu Hc p Hp. destruct (Hs p) as (? & ? & ? & ?); [set_solver|]. split_and!; auto. }
  assert (forall q, may_write s q = true -> harmless (written s q)) as Hw.
  { intros q Hq p [->%elem_of_singleton|Hp]%elem_of_union; [|by apply Hs].
    unfold may_write in Hq. rewrite !andb_true_iff, !negb_true_iff, bool_decide_eq_true in Hq.
    destruct Hq as (((? & ?) & Hv) & Hst). split_and!; [done|done| |].
    - intros Hu. by rewrite Hu in Hv.
    - intros Hc. cbn in Hc. by rewrite Hc in Hst. }
  assert (forall X : gset path, unsynced s ∖ X ⊆ unsynced s) as Hdiff by (intros X p Hp; set_solver).
  destruct c; cbn [order_after in_order] in *;
    lazymatch goal with
    | |- harmless (written _ _) => apply Hw; exact Ho
    | |- harmless s => exact Hs
    | |- harmless (if answered_ok o then moved _ _ _ else _) => idtac
    | |- harmless (if answered_ok o then dir_synced _ _ else _) =>
        destruct (answered_ok o); [apply Hsub; [reflexivity|exact id]|exact Hs]
    | |- harmless (if answered_ok o then _ else _) =>
        destruct (answered_ok o); [apply Hsub; [apply Hdiff|exact id]|exact Hs]
    | |- harmless _ => apply Hsub; [reflexivity|exact id]
    end.
  destruct (answered_ok o); [|exact Hs].
  assert (from ∉ unsynced s /\ (to = manifest_path -> forall p, p ∈ unsynced s -> staged_name p = false)) as [Hf Hst].
  { destruct (decide (to = manifest_path)) as [->|Hne].
    - apply andb_true_iff in Ho as [Hf%bool_decide_eq_true Ho]. split; [done|]. intros _ p Hp.
      apply bool_decide_eq_true in Ho. apply Ho. set_solver.
    - split; [|done]. destruct (under [SERIES_DIR] to); [by apply andb_true_iff in Ho as [Hf%bool_decide_eq_true _]|].
      apply andb_true_iff in Ho as [Hwal _]. intros Hin. destruct (Hs from Hin) as (_ & ? & _). congruence. }
  unfold moved. rewrite decide_False by done. intros p Hp. cbn in Hp.
  destruct (Hs p) as (? & ? & ? & Hc); [set_solver|]. split_and!; [done..|]. cbn. intros [Hcm|Hcm%bool_decide_eq_true]%orb_true_iff; [auto|].
  apply Hst; [done|set_solver].
Qed.

Lemma harmless_replay (s : Order) l : accepts s l = true -> harmless s -> harmless (replay s l).
Proof.
  revert s. induction l as [|[R c o] l IH]; intros s; cbn [accepts replay]; [done|].
  intros [Hc Ha]%andb_true_iff Hs. apply IH; [done|]. apply andb_true_iff in Hc as [_ Hc]. by apply harmless_after.
Qed.

Lemma committed_replay (s : Order) l : committed s = true -> committed (replay s l) = true.
Proof.
  revert s. induction l as [|[R c o] l IH]; intros s Hs; cbn [replay]; [done|]. apply IH.
  destruct c; cbn [after flush_order order_after]; try exact Hs; destruct (answered_ok o); try exact Hs.
  cbn. by rewrite Hs.
Qed.
