(* ===== verification/FlushCalls.v ===== *)
(** * FlushCalls: every flush keeps its calls in order

    The calls of [planner::run], phase by phase, against the monitor of Durable. Until
    the commit only names under [tmp/] matter: [staging] says which of them may not be
    durable yet. Everything else a flush calls before the commit ([runs/], [rejects/],
    segments moved aside) is beside the point ([aside]). *)

From Stdlib Require Import ZArith Lia.
From Stdlib Require Import Strings.Byte.
From S2P Require Import Prelude Text Record Codec Disk Wal Reader Merge Time Config Manifest Columns View Planner Local FlushLocal Calls Beside Durable.
Open Scope Z_scope.

Section order.
Context (ids : list Z).

(** The files of the flush, and what it must not forget about [series/]. *)
Definition base (s : Order) : Prop :=
  inputs s = ids /\ (first_flush s = false -> [SERIES_DIR] ∈ present s).

Definition no_tables (s : Order) : Prop :=
  forall p, p ∈ unsynced s ∪ loose s -> under [SERIES_DIR] p = false.

(** The names below [tmp/] that may not be durable: those that lead to a staged file, and
    the bytes of the one that is open. *)
Record staging (staged : list path) (open : option path) (s : Order) : Prop := {
  sg_base : base s;
  sg_tables : no_tables s;
  sg_unsynced : forall p, p ∈ unsynced s -> staged_name p = true -> open = Some p;
  sg_loose : forall p, p ∈ loose s -> staged_name p = true ->
    exists f, f ∈ staged ++ option_list open /\ p ∈ ancestors [] f;
  sg_committed : committed s = false
}.

(** ** Calls that are beside the point *)

(** Neither staged nor published, not a segment and not the manifest. *)
Definition plain (p : path) : Prop :=
  own ids p = true /\ staged_name p = false /\ under [SERIES_DIR] p = false /\
  under wal_dir p = false /\ p <> manifest_path.

Definition aside {A : Type} (Q : A -> Prop) (m : io A) : Prop :=
  forall staged open, spec (staging staged open) m (fun a s => Q a /\ staging staged open s).

Lemma aside_ret {A} (Q : A -> Prop) a : Q a -> aside Q (mret a).
Proof. intros HQ staged open. by apply spec_ret. Qed.

Lemma aside_throw {A} (Q : A -> Prop) e : aside Q (throw e).
Proof. intros staged open. apply spec_throw. Qed.

Lemma aside_bind {A B} (Q : A -> Prop) (R : B -> Prop) (m : io A) (k : A -> io B) :
  aside Q m -> (forall a, Q a -> aside R (k a)) -> aside R (m ≫= k).
Proof.
  intros Hm Hk staged open. eapply spec_bind; [apply Hm|]. intros a.
  apply spec_given. intros HQ. by apply Hk.
Qed.

Lemma aside_then {A B} (R : B -> Prop) (m : io A) (k : A -> io B) :
  aside (fun _ => True) m -> (forall a, aside R (k a)) -> aside R (m ≫= k).
Proof. intros Hm Hk. eapply aside_bind; [exact Hm|auto]. Qed.

Lemma aside_mono {A} (Q Q' : A -> Prop) (m : io A) : aside Q' m -> (forall a, Q' a -> Q a) -> aside Q m.
Proof. intros Hm HQ staged open. eapply spec_post; [apply Hm|]. intros a s [? ?]. auto. Qed.

Lemma aside_try {A} (m : io (result IoError A)) : aside (fun _ => True) m -> aside (fun _ => True) (try m).
Proof. intros Hm. apply aside_then; [done|]. intros [a|e]; [by apply aside_ret|apply aside_throw]. Qed.

Lemma aside_each {A} (f : A -> io unit) l : (forall x, x ∈ l -> aside (fun _ => True) (f x)) -> aside (fun _ => True) (io_each f l).
Proof.
  induction l as [|x l IH]; intros Hf; cbn [io_each]; [by apply aside_ret|].
  apply aside_then; [apply Hf; set_solver|]. intros _. apply IH. intros y Hy. apply Hf. set_solver.
Qed.

(** A call that is allowed before the commit and after which the names that matter are
    as before. *)
Lemma aside_call {R} (c : call R) :
  own_call ids c = true -> (forall s, in_order s c = true) ->
  (forall s r, inputs (order_after s c r) = inputs s /\ first_flush (order_after s c r) = first_flush s /\
    committed (order_after s c r) = committed s /\
    ([SERIES_DIR] ∈ present s -> [SERIES_DIR] ∈ present (order_after s c r)) /\
    (forall p, p ∈ unsynced (order_after s c r) -> p ∈ unsynced s \/ staged_name p = false /\ under [SERIES_DIR] p = false) /\
    (forall p, p ∈ loose (order_after s c r) -> p ∈ loose s \/ staged_name p = false /\ under [SERIES_DIR] p = false)) ->
  aside (fun _ => True) (Call c).
Proof.
  intros Hown Hord Hafter staged open. apply spec_call.
  - intros s [[Hi _] _ _ _ _]. cbn. by rewrite Hi, Hown, Hord.
  - intros s r [[Hi Hf] Ht Hu Hl Hcm]. split; [done|]. destruct (Hafter s (Some r)) as (Ei & Ef & Ec & Hp & Hau & Hal). cbn [after flush_order].
    split; [split; [congruence|rewrite Ef; auto]| | | |congruence].
    + intros p [Hp'%Hau|Hp'%Hal]%elem_of_union; destruct Hp' as [Hp'|[_ ?]]; [apply Ht; set_solver|done|apply Ht; set_solver|done].
    + intros p Hp' Hs. destruct (Hau p Hp') as [?|[? _]]; [auto|congruence].
    + intros p Hp' Hs. destruct (Hal p Hp') as [?|[? _]]; [auto|congruence].
Qed.

Lemma may_write_plain s p : under wal_dir p = false -> p <> manifest_path -> under [SERIES_DIR] p = false ->
  staged_name p = false -> may_write s p = true.
Proof.
  intros Hwal Hm Hse Hst. unfold may_write. rewrite Hwal, Hse, Hst, bool_decide_eq_true_2 by done. by rewrite andb_false_r.
Qed.

Lemma may_write_view s name : may_write s (series_dir name ++ [VIEW_FILE]) = true.
Proof.
  unfold may_write. change (staged_name (series_dir name ++ [VIEW_FILE])) with false. by rewrite andb_false_r.
Qed.

Lemma aside_written (c : call (result IoError unit)) p : plain p ->
  (forall s r, order_after s c r = written s p) -> own_call ids c = own ids p ->
  (forall s, in_order s c = may_write s p) -> aside (fun _ => True) (Call c).
Proof.
  intros (Hown & Hst & Hse & Hwal & Hm) Ha Ho Hi. apply aside_call; [congruence| |].
  - intros s. rewrite Hi. by apply may_write_plain.
  - intros s r. rewrite Ha. cbn. split_and!; [done|done|done|done|..]; intros q [->%elem_of_singleton|?]%elem_of_union; auto.
Qed.

Lemma aside_write p c : plain p -> aside (fun _ => True) (write_file p c).
Proof. intros Hp. by apply (aside_written (WriteFile p c) p). Qed.

Lemma aside_append p c : plain p -> aside (fun _ => True) (append_file p c).
Proof. intros Hp. by apply (aside_written (AppendFile p c) p). Qed.

(** A call that changes nothing the monitor tracks. *)
Lemma aside_same {R} (c : call R) : own_call ids c = true -> (forall s, in_order s c = true) ->
  (forall s r, order_after s c r = s) -> aside (fun _ => True) (Call c).
Proof. intros Ho Hi Ha. apply aside_call; [done|done|]. intros s r. rewrite Ha. auto 10. Qed.

Lemma aside_read p : own ids p = true -> aside (fun _ => True) (read_file p).
Proof. intros Hp. by apply aside_same. Qed.

Lemma aside_file_len p : own ids p = true -> aside (fun _ => True) (file_len p).
Proof. intros Hp. by apply aside_same. Qed.

Lemma aside_read_dir dir : own_dir dir = true -> aside (fun _ => True) (read_dir dir).
Proof. intros Hp. by apply aside_same. Qed.

Lemma aside_remove p : plain p -> aside (fun _ => True) (remove_file p).
Proof.
  intros (Hown & Hst & Hse & Hwal & Hm). apply aside_call; [done|intros s; cbn; by rewrite Hwal|].
  intros s o; cbn; destruct (answered_ok o); cbn; split_and!; try done; try (by left); intros q; [set_solver|].
  intros [->%elem_of_singleton|?]%elem_of_union; auto.
Qed.

Lemma aside_fsync dir : aside (fun _ => True) (fsync_dir dir).
Proof.
  apply aside_call; [done|done|]. intros s o; cbn; destruct (answered_ok o); cbn; split_and!; try done; try (by left).
  intros p Hp%elem_of_filter. left. apply Hp.
Qed.

Lemma aside_create_dir top : top ∈ [TMP_DIR; RUNS_DIR; REJECTS_DIR] -> aside (fun _ => True) (create_dir_all [top]).
Proof.
  intros Ht. assert (staged_name [top] = false /\ under [SERIES_DIR] [top] = false) as [Hst Hse].
  { repeat (apply elem_of_cons in Ht as [->|Ht]; [by split|]). by apply elem_of_nil in Ht. }
  apply aside_call; [done|done|]. intros s o. cbn -[filter ancestors]. split_and!; [done|done|done| |by left|].
  - intros Hp. destruct (answered_ok o); [apply elem_of_union; by right|done].
  - intros p [Hp|Hp]%elem_of_union; [right|by left]. apply elem_of_list_to_set, list_elem_of_filter in Hp as [_ Hp].
    by apply list_elem_of_singleton in Hp as ->.
Qed.

Lemma aside_remove_runs : aside (fun _ => True) (remove_dir_all runs_dir).
Proof.
  apply aside_call; [done|done|]. intros s r. cbn. split_and!; [done|done|done| |by left|].
  - intros Hp. by apply elem_of_filter.
  - intros p [->%elem_of_singleton|?]%elem_of_union; auto.
Qed.

Lemma segment_names id : staged_name (segment_path id) = false /\ under [SERIES_DIR] (segment_path id) = false /\
  staged_name (corrupt_path id) = false /\ under [SERIES_DIR] (corrupt_path id) = false.
Proof. done. Qed.

Lemma own_segment id : id ∈ ids -> own ids (segment_path id) = true.
Proof.
  intros Hid. unfold own. rewrite (bool_decide_eq_true_2 (segment_path id ∈ segment_path <$> ids)); [|by apply list_elem_of_fmap_2].
  by rewrite !orb_true_r.
Qed.

Lemma own_corrupt id : id ∈ ids -> own ids (corrupt_path id) = true.
Proof.
  intros Hid. unfold own. rewrite (bool_decide_eq_true_2 (corrupt_path id ∈ corrupt_path <$> ids)); [|by apply list_elem_of_fmap_2].
  by rewrite !orb_true_r.
Qed.

Lemma aside_quarantine id : id ∈ ids -> aside (fun _ => True) (try_quarantine id).
Proof.
  intros Hid. destruct (segment_names id) as (S1 & S2 & S3 & S4).
  apply aside_then; [|intros; by apply aside_ret]. unfold quarantine_segment. cbv zeta. apply aside_then.
  - apply aside_call.
    + cbn. by rewrite own_segment, own_corrupt.
    + intros s. unfold in_order. rewrite decide_False by done. by rewrite S4.
    + intros s o. cbn. destruct (answered_ok o); cbn; split_and!; try done; try (by left); [by apply orb_false_r|..].
      * intros p Hp. destruct (decide _); [|set_solver]. apply elem_of_union in Hp as [->%elem_of_singleton|Hp]; [by right|set_solver].
      * intros p Hp. apply elem_of_union in Hp as [Hp|Hp]; [right|by left].
        apply elem_of_union in Hp as [->%elem_of_singleton| ->%elem_of_singleton]; done.
  - intros [[]|e]; [|by apply aside_ret]. apply aside_then; [apply aside_fsync|]. intros [[]|e]; by apply aside_ret.
Qed.

Lemma plain_run p : run_file p -> plain p.
Proof.
  intros Hp. destruct p as [|d p]; [done|]. injection Hp as ->. split_and!; try done.
Qed.

Lemma plain_reject p : reject_file p -> plain p.
Proof. intros Hp. destruct p as [|d p]; [done|]. injection Hp as ->. split_and!; try done. Qed.

Lemma plain_own p : plain p -> own ids p = true.
Proof. by intros [? _]. Qed.

(** Split a computation whose values need no fact into its calls. *)
Ltac aside_step :=
  lazymatch goal with
  | |- aside _ (mret _) => by apply aside_ret
  | |- aside _ (throw _) => apply aside_throw
  | |- aside _ (_ ≫= _) => apply aside_then; [|intros]
  | |- aside _ (try _) => apply aside_try
  | |- aside _ (if ?b then _ else _) => destruct b
  | |- aside _ (match ?x with _ => _ end) => destruct x
  | |- aside _ (let '_ := ?x in _) => destruct x
  | |- aside _ (fsync_dir _) => apply aside_fsync
  | |- aside _ (Call (FlushFile _)) => by apply aside_same
  | |- aside _ read_tick => by apply aside_same
  | |- aside _ (write_file _ _) => apply aside_write
  | |- aside _ (append_file _ _) => apply aside_append
  | |- aside _ (remove_file _) => apply aside_remove
  | |- aside _ (read_file _) => apply aside_read
  | |- aside _ (file_len _) => apply aside_file_len
  end.
Ltac aside_solve := repeat (aside_step; cbv beta zeta in * ); auto.

(** ** Rejects and segments *)

Lemma aside_sum_sizes dir names total : (forall n, own ids (dir ++ [n]) = true) -> aside (fun _ => True) (sum_sizes dir names total).
Proof. intros Hd. revert total. induction names as [|n names IH]; intros total; cbn [sum_sizes]; aside_solve. Qed.

Lemma aside_reject s segment frame : aside (fun _ => True) (reject_append s segment frame).
Proof.
  unfold reject_append, dir_bytes, reject_write. aside_solve.
  - by apply aside_read_dir.
  - by apply aside_sum_sizes.
  - apply aside_create_dir. set_solver.
  - by apply plain_reject.
Qed.

Section decode.
Context `{Crc32}.

Lemma aside_decode id buf m rejects batch : id ∈ ids -> aside (fun _ => True) (decode_segment id buf m rejects batch).
Proof.
  intros Hid. pose proof aside_reject. pose proof (aside_quarantine id Hid).
  assert (forall fuel r d rj b, aside (fun _ => True) (decode_frames fuel id buf m r d rj b)) as Hf.
  { intros fuel. induction fuel as [|fuel IH]; intros r d rj b; cbn [decode_frames]; [apply aside_throw|].
    unfold decode_item. destruct (next_frame _ r) as [r' [item|]]; [|by apply aside_ret]. aside_solve. }
  unfold decode_segment. aside_solve.
Qed.
End decode.

(** ** Runs *)

Lemma aside_run_create p : run_file p -> aside (fun w => rw_path w = p) (run_create p).
Proof.
  intros Hp. unfold run_create. apply aside_then; [|intros; by apply aside_ret].
  by apply aside_try, aside_write, plain_run.
Qed.

Lemma aside_run_push w a f : run_file (rw_path w) -> aside (fun w' => rw_path w' = rw_path w) (run_push w a f).
Proof.
  intros Hp. unfold run_push. cbv zeta. apply aside_then; [|intros; by apply aside_ret].
  by apply aside_try, aside_write, plain_run.
Qed.

Lemma aside_read_next r : aside (fun _ => True) (read_next r).
Proof. unfold read_next, corrupt_on_err, read_exact_or_eof, read_exact. aside_solve. Qed.

Lemma aside_advance (s : RunReader + MemRun) : aside (fun _ => True) (src_advance s).
Proof.
  destruct s as [r|m]; cbn; (apply aside_then; [|intros [? ?]; by apply aside_ret]).
  - apply aside_read_next.
  - by apply aside_ret.
Qed.

Lemma aside_open_runs runs_ : Forall run_file runs_ -> aside (fun _ => True) (open_runs runs_).
Proof.
  induction 1 as [|p runs_ Hp _ IH]; cbn [open_runs]; [by apply aside_ret|]. pose proof aside_read_next.
  unfold run_open. aside_solve. by apply plain_own, plain_run.
Qed.

Lemma aside_run_sizes runs_ : Forall run_file runs_ -> aside (fun sized => sized.*2 = runs_) (run_sizes runs_).
Proof.
  induction 1 as [|p runs_ Hp _ IH]; cbn [run_sizes]; [by apply aside_ret|].
  apply aside_then; [by apply aside_file_len, plain_own, plain_run|]. intros r.
  eapply aside_bind; [exact IH|]. intros rest Er. apply aside_ret. cbn. by rewrite Er.
Qed.

(** ** Merges *)

Section merge.
Context {S A : Type} `{Source S} (sink : Head -> A -> io A) (I : A -> Order -> Prop).
Context (Hadv : forall s a, spec (I a) (src_advance s) (fun _ => I a)) (Hsink : forall h a, spec (I a) (sink h a) I).

Lemma spec_merge_loop fuel sources heap st last a :
  spec (I a) (merge_loop sink fuel sources heap st last a) (fun r => I r.2).
Proof.
  revert sources heap st last a. induction fuel as [|fuel IH]; intros sources heap st last a; cbn [merge_loop].
  { apply spec_throw. }
  destruct heap as [|top t]; [by apply spec_ret|].
  destruct (sources !! top) as [src|]; [|apply spec_throw]. cbv zeta.
  apply (spec_bind _ _ _ (fun r => I r.2)).
  - destruct (is_duplicate last (src_head src)); [by apply spec_ret|].
    eapply spec_bind; [apply Hsink|]. intros a'. by apply spec_ret.
  - intros [[st' last'] a']. cbn [snd]. eapply spec_bind; [apply Hadv|]. intros [src' more]. apply IH.
Qed.

Lemma spec_merge sources a : spec (I a) (merge sink sources a) (fun r => I r.2).
Proof. apply spec_merge_loop. Qed.
End merge.

Lemma aside_spec {A} (F : Prop) staged open (Q : A -> Prop) (m : io A) : aside Q m ->
  spec (fun s => F /\ staging staged open s) m (fun a s => Q a /\ F /\ staging staged open s).
Proof.
  intros Hm. apply spec_given. intros HF. eapply spec_post; [apply Hm|]. by intros a s [? ?].
Qed.

Lemma aside_premerge runs_ take_ n : Forall run_file runs_ ->
  aside (fun r => Forall run_file r.1) (premerge next_path runs_ take_ n).
Proof.
  intros Hr. unfold premerge. eapply aside_bind; [by apply aside_run_sizes|]. intros sized Es. cbv zeta.
  assert (Forall run_file (snd <$> sort_by_key fst sized)) as Hsorted.
  { apply Forall_forall. intros p Hp. apply list_elem_of_fmap in Hp as (x & -> & Hx).
    apply elem_of_sort in Hx. rewrite Forall_forall in Hr. apply Hr. rewrite <-Es.
    by apply list_elem_of_fmap_2. }
  eapply aside_bind; [by apply aside_run_create|]. intros out Hout.
  apply aside_then; [by apply aside_open_runs, Forall_take|]. intros sources.
  apply (aside_bind (fun r => rw_path r.2 = next_path n)).
  - intros staged open. eapply spec_conseq; [apply (spec_merge _ (fun w s => rw_path w = next_path n /\ staging staged open s))|done|done].
    + intros s w. eapply spec_post; [apply aside_spec, aside_advance|]. by intros r s' [_ ?].
    + intros h w. apply spec_given. intros Hw.
      eapply spec_post; [apply aside_run_push; by rewrite Hw|]. intros w' s [-> Hs]. done.
  - intros [st out'] Hout'. cbn in Hout'. apply aside_then; [unfold run_finish; aside_solve|]. intros _.
    apply aside_then.
    + apply aside_each. intros p Hp. unfold remove_quietly. apply aside_then; [|intros; by apply aside_ret].
      apply aside_remove, plain_run. rewrite Forall_forall in Hsorted. apply Hsorted. by eapply elem_of_take_list.
    + intros _. apply aside_ret. cbn. apply Forall_app. split; [by apply Forall_drop|]. by apply Forall_singleton.
Qed.

Lemma aside_premerge_loop fuel runs_ im fan_in n dedup : Forall run_file runs_ ->
  aside (fun r => Forall run_file r.1.1) (premerge_loop next_path fuel runs_ im fan_in n dedup).
Proof.
  revert runs_ n dedup. induction fuel as [|fuel IH]; intros runs_ n dedup Hr; cbn [premerge_loop];
    destruct (_ <? _)%nat; try (by apply aside_ret); [apply aside_throw|].
  cbv zeta. eapply aside_bind; [by apply aside_premerge|]. intros [runs' d] Hr'. by apply IH.
Qed.

(** The merge into the staged files. *)
Lemma spec_merge_bounded {A} (F : A -> Prop) (files_of : A -> list path) (open_of : A -> option path)
    (sink : Head -> A -> io A) runs_ memory fan_in n a :
  let I a s := F a /\ staging (files_of a) (open_of a) s in
  (forall h a, spec (I a) (sink h a) I) -> Forall run_file runs_ ->
  spec (I a) (merge_bounded next_path sink runs_ memory fan_in n a) (fun r => I r.2).
Proof.
  intros I Hsink Hr. unfold merge_bounded. cbv zeta.
  eapply spec_bind; [by apply aside_spec, aside_premerge_loop|]. intros [[runs' n'] d].
  apply spec_given. intros Hr'. apply (spec_bind _ _ _ (fun _ => I a)).
  { eapply spec_post; [by apply aside_spec, aside_open_runs|]. by intros l s [_ ?]. }
  intros disk. eapply spec_bind.
  - apply (spec_merge sink I); [|exact Hsink]. intros s a0.
    eapply spec_post; [apply aside_spec, aside_advance|]. by intros r s' [_ ?].
  - intros [st a']. by apply spec_ret.
Qed.

(** ** The first phase *)

Lemma aside_spill_groups arena ranges n :
  aside (fun r => Forall run_file r.1.*2) (spill_groups next_path arena ranges n).
Proof.
  revert n. induction ranges as [|[key es] ranges IH]; intros n; cbn [spill_groups]; [by apply aside_ret|].
  assert (forall w, run_file (rw_path w) -> aside (fun w' => rw_path w' = rw_path w) (write_run arena w es)) as Hw.
  { clear. induction es as [|e es IH]; intros w Hw; cbn [write_run]; [by apply aside_ret|].
    eapply aside_bind; [by apply aside_run_push|]. intros w' Hw'. rewrite <-Hw'. apply IH. by rewrite Hw'. }
  cbv zeta. eapply aside_bind; [by apply aside_run_create|]. intros w Ew.
  eapply aside_bind; [apply Hw; by rewrite Ew|]. intros w' _.
  apply aside_then; [unfold run_finish; aside_solve|]. intros _.
  eapply aside_bind; [apply IH|]. intros [out n'] Hout. apply aside_ret. cbn. by constructor.
Qed.

(** The runs of a spill are files of [runs/]. *)
Definition spill_files (s : Spill) : Prop := forall key runs_, sp_groups s !! key = Some runs_ -> Forall run_file runs_.

Lemma add_run_files groups l :
  (forall key runs_, groups !! key = Some runs_ -> Forall run_file runs_) -> Forall run_file l.*2 ->
  forall key runs_, foldl add_run groups l !! key = Some runs_ -> Forall run_file runs_.
Proof.
  revert groups. induction l as [|[k p] l IH]; intros groups Hg Hl; [done|]. cbn in Hl.
  apply Forall_cons in Hl as [Hp Hl]. apply IH; [|done]. unfold add_run. cbn. intros key runs_ Hk.
  rewrite lookup_insert in Hk. case_decide; [|by eapply Hg]. injection Hk as <-. apply Forall_app. split; [|by apply Forall_singleton].
  destruct (groups !! k) eqn:E; [by eapply Hg|constructor].
Qed.

Lemma aside_spill_batch s batch : spill_files s -> aside (fun r => spill_files r.1) (spill_batch s batch).
Proof.
  intros Hs. unfold spill_batch, spill. apply aside_then; [apply aside_try, aside_create_dir; set_solver|]. intros _. cbv zeta.
  apply (aside_bind (fun r => Forall run_file r.1.1.*2)).
  - eapply aside_bind; [apply aside_spill_groups|]. intros [out n'] Ho. by apply aside_ret.
  - intros [[out b] n'] Ho. apply aside_ret. unfold spill_files. cbn. by apply add_run_files.
Qed.

Context `{Crc32} `{Parquet} `{ManifestJson}.

(** The segments consumed are among those given, and the runs are in [runs/]. *)
Definition phase1_files (s : Phase1) : Prop := (forall id, id ∈ p1_consumed s -> id ∈ ids) /\ spill_files (p1_spill s).

Lemma aside_phase1 m budget l s : (forall id, id ∈ l -> id ∈ ids) -> phase1_files s ->
  aside phase1_files (phase1 m budget l s).
Proof.
  revert s. induction l as [|id l IH]; intros s Hl Hs; cbn [phase1]; [by apply aside_ret|].
  assert (id ∈ ids) as Hid by (apply Hl; set_solver). assert (forall i, i ∈ l -> i ∈ ids) as Hl' by (intros; apply Hl; set_solver).
  destruct Hs as [Hc Hsp].
  apply aside_then; [by apply aside_try, aside_read, own_segment|]. intros buf.
  apply aside_then; [by apply aside_decode|]. intros [[d rejects] batch]. cbv zeta.
  destruct (d_unreadable d); [destruct (negb _); [by apply aside_ret|by apply IH]|].
  match goal with |- aside _ (if ?b then _ else _) => destruct b end.
  - apply (aside_bind (fun r => spill_files r.1)).
    + by apply aside_spill_batch.
    + intros [sp b'] Hsp'. apply IH; [done|]. split; [|done]. cbn. intros i [Hi| ->%list_elem_of_singleton]%elem_of_app; auto.
  - apply IH; [done|]. split; [|done]. cbn. intros i [Hi| ->%list_elem_of_singleton]%elem_of_app; auto.
Qed.

(** ** The second phase *)

Definition staged_at (p : path) : Prop := exists series hour name, p = staged_path series hour name.

Lemma spec_staged_write p c staged : staged_at p ->
  spec (staging staged (Some p)) (try (write_file p c)) (fun _ => staging staged (Some p)).
Proof.
  intros (series & hour & name & ->). apply spec_try_any, spec_call.
  { intros s [[<- _] _ _ _ Hcm]. unfold allowed, flush_order, in_order, may_write. rewrite Hcm. by vm_compute. }
  intros s r [Hb Ht Hu Hl Hcm]. split; cbn; [done| | | |done].
  - intros p Hp. assert (p = staged_path series hour name \/ p ∈ unsynced s ∪ loose s) as [->|Hp'] by set_solver; [done|auto].
  - intros p [->%elem_of_singleton|Hp]%elem_of_union; [done|auto].
  - intros p [->%elem_of_singleton|Hp]%elem_of_union Hs; [|auto]. exists (staged_path series hour name).
    split; [set_solver|]. cbn. set_solver.
Qed.

Lemma spec_group w staged : staged_at (pw_path w) ->
  spec (staging staged (Some (pw_path w))) (partition_group w)
    (fun w' s => pw_path w' = pw_path w /\ staging staged (Some (pw_path w)) s).
Proof.
  intros Hw. unfold partition_group. cbv zeta. destruct (_ =? _)%nat; [by apply spec_ret|].
  destruct (write_group _ _ _ _) as [g cu]. eapply spec_bind; [by apply spec_staged_write|]. intros []. by apply spec_ret.
Qed.

Lemma spec_append w ts id ks extra data staged : staged_at (pw_path w) ->
  spec (staging staged (Some (pw_path w))) (partition_append w ts id ks extra data)
    (fun w' s => pw_path w' = pw_path w /\ staging staged (Some (pw_path w)) s).
Proof.
  intros Hw. unfold partition_append. destruct (builder_append _ _ _ _ _ _) as [c r].
  eapply spec_bind; [apply spec_lift|]. intros []. cbv zeta.
  destruct (_ <=? _)%nat; [|by apply spec_ret]. by apply (spec_group (mkPartition (pw_path w) _ _ _ _ _)).
Qed.

Lemma spec_finish w staged : staged_at (pw_path w) ->
  spec (staging staged (Some (pw_path w))) (partition_finish w) (fun _ => staging (staged ++ [pw_path w]) None).
Proof.
  intros Hw. unfold partition_finish. eapply spec_bind; [by apply spec_group|]. intros w'.
  apply spec_given. intros Ew. rewrite Ew.
  eapply spec_bind; [by apply spec_staged_write|]. intros [].
  apply (spec_bind _ _ _ (fun _ => staging (staged ++ [pw_path w]) None)); [|intros _; by apply spec_ret].
  apply spec_try, spec_call; [intros s [[<- _] _ _ _ _]; done|]. intros s [[]|e] [Hb Ht Hu Hl Hcm]; [|done].
  split; cbn; [done| | | |done].
  - intros p Hp. apply Ht. set_solver.
  - intros p [Hp Hne]%elem_of_difference Hs. apply (Hu p Hp) in Hs. injection Hs as Hs. set_solver.
  - intros p Hp Hs. destruct (Hl p Hp Hs) as (f & Hf & Ha). exists f. split; [|done]. set_solver.
Qed.

(** Making the directory of the file that comes next. *)
Lemma spec_staging_dir series hour name staged :
  spec (staging staged None) (try (create_dir_all (tmp_dir ++ [series; hour])))
    (fun _ => staging staged (Some (staged_path series hour name))).
Proof.
  apply spec_try_any, spec_call; [intros s [[<- _] _ _ _ _]; done|]. intros s r [[Hi Hf] Ht Hu Hl Hcm]. cbn [after flush_order order_after].
  assert (forall p, p ∈ loose (dirs_made s (tmp_dir ++ [series; hour]) (answered_ok (Some r))) ->
    p ∈ loose s \/ p ∈ ancestors [] (tmp_dir ++ [series; hour])) as Hloose.
  { intros p [Hp|Hp]%elem_of_union; [right|by left]. apply elem_of_list_to_set, list_elem_of_filter in Hp as [_ Hp]. done. }
  assert (staging staged (Some (staged_path series hour name)) (dirs_made s (tmp_dir ++ [series; hour]) (answered_ok (Some r)))) as Hs.
  { split.
    - split; [done|]. intros Hff. apply Hf in Hff. unfold dirs_made. cbn [present]. destruct (answered_ok (Some r)); set_solver.
    - intros p [Hp|Hp%Hloose]%elem_of_union; [apply Ht; set_solver|]. destruct Hp as [Hp|Hp]; [apply Ht; set_solver|].
      cbn in Hp. repeat (apply elem_of_cons in Hp as [->|Hp]; [done|]). by apply elem_of_nil in Hp.
    - intros p Hp Hs. by specialize (Hu p Hp Hs).
    - intros p Hp%Hloose Hs. destruct Hp as [Hp|Hp].
      + destruct (Hl p Hp Hs) as (f & Hf' & Ha). exists f. split; [set_solver|done].
      + exists (staged_path series hour name). split; [set_solver|]. cbn in Hp |- *. set_solver.
    - done. }
  done.
Qed.

Definition open_path (s : Staging) : option path := (fun x => x.2.1.2) <$> st_open s.

(** The staged files lie three levels below [tmp/], the open one too. *)
Definition staged_well (s : Staging) : Prop :=
  Forall staged_at (st_staged s).*2 /\
  match st_open s with Some (_, (_, p, w)) => staged_at p /\ pw_path w = p | None => True end.

Definition staging_at (a : Staging) (s : Order) : Prop := staged_well a /\ staging (st_staged a).*2 (open_path a) s.

Lemma spec_finish_file series epoch hour p w st : Forall staged_at st.*2 -> staged_at p -> pw_path w = p ->
  spec (staging st.*2 (Some p)) (finish_file series epoch (hour, p, w) st)
    (fun st' s => Forall staged_at st'.*2 /\ staging st'.*2 None s).
Proof.
  intros Hst Hp Ew. subst p. unfold finish_file. eapply spec_bind; [by apply spec_finish|]. intros rows.
  apply spec_ret. intros s Hs. rewrite fmap_app. split; [|done]. apply Forall_app. split; [done|by apply Forall_singleton].
Qed.

(** Closing what is open, if anything is. *)
Lemma spec_close series epoch a :
  spec (staging_at a) (match st_open a with Some (_, file) => finish_file series epoch file (st_staged a) | None => mret (st_staged a) end)
    (fun st s => Forall staged_at st.*2 /\ staging st.*2 None s).
Proof.
  apply spec_given. intros [Hst Ho]. unfold open_path. destruct (st_open a) as [[h [[hour p] w]]|].
  - destruct Ho. by apply spec_finish_file.
  - by apply spec_ret.
Qed.

Section partition.
Context (flush : FlushConfig) (series : bytes) (epoch : Z) (keys : list KeyDef) (name : bytes).

Lemma spec_create p comp n staged : staged_at p ->
  spec (staging staged (Some p)) (partition_create p series epoch keys comp n)
    (fun w s => pw_path w = p /\ staging staged (Some p) s).
Proof.
  intros Hp. unfold partition_create. eapply spec_bind; [apply spec_lift|]. intros props. cbv zeta.
  do 2 (eapply spec_bind; [by apply spec_staged_write|]; intros []). by apply spec_ret.
Qed.

Lemma spec_open_hour ts a : spec (staging_at a) (open_hour flush series epoch keys name ts a) staging_at.
Proof.
  unfold open_hour. cbv zeta.
  match goal with |- spec _ (if ?b then _ else _) _ => destruct b end; [by apply spec_ret|].
  eapply spec_bind; [apply spec_close|]. intros st.
  apply spec_given. intros Hst.
  assert (staged_at (staged_path series (hour_partition ts) name)) as Hp by (by eexists _, _, _).
  eapply spec_bind; [apply (spec_staging_dir _ _ name)|]. intros [].
  eapply spec_bind; [by apply spec_create|]. intros w. apply spec_ret. intros s [Ew Hs].
  split; [|done]. split; [done|]. by split.
Qed.

Lemma spec_stage_row h a : spec (staging_at a) (stage_row flush series epoch keys name h a) staging_at.
Proof.
  unfold stage_row. eapply spec_bind; [apply spec_open_hour|]. intros a'.
  destruct (decode_verified _ _) as [d|e]; [|apply spec_throw]. cbv zeta.
  destruct (st_open a') as [[hour [[hname p] w]]|] eqn:Eo; [|apply spec_throw].
  apply spec_given. intros [Hst Ho]. rewrite Eo in Ho. destruct Ho as [Hp <-]. unfold open_path. rewrite Eo. cbn [fmap option_fmap option_map fst snd].
  eapply spec_bind; [by apply spec_append|].
  intros w'. apply spec_ret. intros s [Ew Hs]. split; [|done]. split; [done|]. by split.
Qed.

Lemma spec_merge_partition runs_ memory n st : Forall run_file runs_ -> Forall staged_at st.*2 ->
  spec (staging st.*2 None) (merge_partition flush series epoch keys name runs_ memory n st)
    (fun r s => Forall staged_at r.2.*2 /\ staging r.2.*2 None s).
Proof.
  intros Hr Hst. unfold merge_partition.
  apply (spec_bind _ _ _ (fun r => staging_at r.2)).
  - eapply spec_conseq; [apply (spec_merge_bounded staged_well (fun a => (st_staged a).*2) open_path); [|done]|
      intros s Hs; split; [by split|exact Hs]|done]. apply spec_stage_row.
  - intros [[stats n'] a]. cbn [snd]. eapply spec_bind; [apply spec_close|]. intros st'. by apply spec_ret.
Qed.
End partition.

Lemma spec_phase2 flush first last_ schemas memory spilled keys n st stats :
  (forall key runs_, spilled !! key = Some runs_ -> Forall run_file runs_) -> Forall staged_at st.*2 ->
  spec (staging st.*2 None) (phase2 flush first last_ schemas memory spilled keys n st stats)
    (fun r s => Forall staged_at r.1.*2 /\ staging r.1.*2 None s).
Proof.
  intros Hsp. revert n st stats. induction keys as [|key keys IH]; intros n st stats Hst; cbn [phase2]; [by apply spec_ret|].
  eapply spec_bind; [apply spec_merge_partition; [|done]|].
  { destruct (spilled !! key) eqn:E; [by eapply Hsp|constructor]. }
  intros [[stt n'] st']. cbn [snd]. apply spec_given. intros Hst'. by apply IH.
Qed.

(** ** Syncing what is staged *)

Lemma spec_fsync dir staged : spec (staging staged None) (try (fsync_dir dir))
  (fun _ s => staging staged None s /\ forall p, p ∈ loose s -> removelast p <> dir).
Proof.
  apply spec_try, spec_call; [intros s [[<- _] _ _ _ _]; done|]. intros s [[]|e] [Hb Ht Hu Hl Hcm]; [|done].
  split; [|by intros p [Hp _]%elem_of_filter]. split; cbn; [done| |done| |done].
  - intros p Hp. apply Ht. set_solver.
  - intros p [_ Hp]%elem_of_filter. by apply Hl.
Qed.

(** No name of the directories [done_] is loose any more. *)
Definition swept_dirs (staged done_ : list path) (s : Order) : Prop :=
  staging staged None s /\ forall p, p ∈ loose s -> removelast p ∉ done_.

Lemma spec_fsync_also dir staged done_ :
  spec (swept_dirs staged done_) (try (fsync_dir dir)) (fun _ => swept_dirs staged (done_ ++ [dir])).
Proof.
  apply spec_try, spec_call; [intros s [[[<- _] _ _ _ _] _]; done|].
  intros s [[]|e] [[Hb Ht Hu Hl Hcm] Hd]; [|done]. split.
  - split; cbn; [done| |done| |done].
    + intros p Hp. apply Ht. set_solver.
    + intros p [_ Hp]%elem_of_filter. by apply Hl.
  - intros p [Hp Hin]%elem_of_filter [?|Hx%list_elem_of_singleton]%elem_of_app; [by eapply Hd|done].
Qed.

Lemma spec_fsync_all dirs staged done_ :
  spec (swept_dirs staged done_) (io_each (fun d => try (fsync_dir d)) dirs) (fun _ => swept_dirs staged (done_ ++ dirs)).
Proof.
  revert done_. induction dirs as [|d dirs IH]; intros done_; cbn [io_each].
  - apply spec_ret. by rewrite app_nil_r.
  - eapply spec_bind; [apply spec_fsync_also|]. intros [].
    replace (done_ ++ d :: dirs) with ((done_ ++ [d]) ++ dirs) by (by rewrite <-app_assoc). apply IH.
Qed.

(** Nothing staged can be lost any more. *)
Definition settled (s : Order) : Prop := base s /\ no_tables s /\ forall p, p ∈ unsynced s ∪ loose s -> staged_name p = false.

Lemma spec_fsync_staging staged : Forall staged_at staged ->
  spec (staging staged None) (fsync_staging staged) (fun _ => settled).
Proof.
  intros Hst. unfold fsync_staging.
  eapply spec_bind; [eapply spec_conseq; [apply (spec_fsync_all _ staged [])| |]|].
  - intros s Hs. split; [done|]. intros p _ Hp. by apply elem_of_nil in Hp.
  - done.
  - intros []. eapply spec_post; [apply spec_fsync_also|]. intros [] s [[Hb Ht Hu Hl Hcm] Hd]. split; [done|]. split; [done|].
    intros p [Hp|Hp]%elem_of_union; destruct (staged_name p) eqn:E; [by specialize (Hu p Hp E)|done| |done].
    destruct (Hl p Hp E) as (f & Hf & Ha). rewrite app_nil_r in Hf. pose proof Hf as Hin. rewrite Forall_forall in Hst.
    apply Hst in Hf as (sr & h & n & ->). exfalso. apply (Hd p Hp). clear Hd Hl Hu Ht Hb.
    assert (forall d, d ∈ parents tmp_dir [sr; h; n] -> d ∈ staging_dirs staged) as Hdirs.
    { intros d Hd. unfold staging_dirs. rewrite elem_of_sort, elem_of_remove_dups. apply list_elem_of_In, in_concat.
      exists (parents tmp_dir [sr; h; n]). split; apply list_elem_of_In; [|done].
      apply list_elem_of_fmap. by exists (staged_path sr h n). }
    cbn in Ha. repeat (apply elem_of_cons in Ha as [->|Ha]); [done| | | |by apply elem_of_nil in Ha]; cbn.
    + apply elem_of_app. right. by apply list_elem_of_singleton.
    + apply elem_of_app. left. cbn. apply Hdirs. cbn. set_solver.
    + apply elem_of_app. left. cbn. apply Hdirs. cbn. set_solver.
Qed.

Lemma spec_stage c first last_ s : spill_files (p1_spill s) ->
  spec (staging [] None) (stage c first last_ s) (fun r s' => Forall staged_at r.1.1.*2 /\ settled s').
Proof.
  intros Hsp. unfold stage. apply (spec_bind _ _ _ (fun _ => staging [] None)).
  { eapply spec_post; [apply aside_try, aside_create_dir; set_solver|]. by intros [] s' [_ Hs]. }
  intros []. destruct (into_sources (p1_batch s)) as [batch sources]. cbv zeta.
  eapply spec_bind; [apply (spec_phase2 _ _ _ _ _ _ _ _ []); [done|constructor]|]. intros [staged stats]. cbn [fst].
  apply spec_given. intros Hst. eapply spec_bind; [by apply spec_fsync_staging|]. intros []. by apply spec_ret.
Qed.

(** ** The commit and what follows *)

(** The new manifest is durable, and of the published names at most those of [l]
    are not. *)
Record publishing (l : list path) (s : Order) : Prop := {
  pb_base : base s;
  pb_committed : committed s = true;
  pb_manifest : manifest_path ∉ unsynced s ∪ loose s;
  pb_unsynced : forall p, p ∈ unsynced s -> staged_name p = false /\ under [SERIES_DIR] p = false;
  pb_tables : forall p, p ∈ loose s -> under [SERIES_DIR] p = true -> p ∈ l \/ p = [SERIES_DIR] /\ first_flush s = true
}.

Lemma spec_commit m : spec settled (commit m) (fun _ => publishing []).
Proof.
  unfold commit. destruct (to_vec_pretty m) as [b|]; [|apply spec_throw].
  eapply spec_bind; [apply (spec_try_any _ _ (fun s => settled s /\ True))|].
  { eapply spec_call; [intros s [[<- _] _]; by apply may_write_plain|]. intros s r (Hb & Ht & Hst). split; [|done]. split; [done|].
    split; intros p Hp; (assert (p = manifest_tmp \/ p ∈ unsynced s ∪ loose s) as [->|Hp'] by (cbn in Hp; set_solver); [done|auto]). }
  intros []. eapply spec_bind; [apply (spec_try _ _ (fun _ s => settled s /\ manifest_tmp ∉ unsynced s))|].
  { eapply spec_call; [by intros s [[[<- _] _] _]|]. intros s [[]|e] [(Hb & Ht & Hst) _]; [|done].
    split; [|cbn; set_solver]. split; [done|]. split; intros p Hp; [apply Ht|apply Hst]; cbn in Hp; set_solver. }
  intros []. eapply spec_bind; [apply (spec_try _ _ (fun _ s => base s /\ committed s = true /\ manifest_path ∉ unsynced s /\
    (forall p, p ∈ unsynced s -> staged_name p = false /\ under [SERIES_DIR] p = false) /\
    (forall p, p ∈ loose s -> under [SERIES_DIR] p = false)))|].
  { apply spec_call.
    - intros s [([Hi _] & _ & Hst) Hn]. cbn -[manifest_tmp manifest_path]. rewrite Hi, decide_True by done.
      rewrite bool_decide_eq_true_2 by done. unfold staging_durable. rewrite bool_decide_eq_true_2; [done|]. exact Hst.
    - intros s [[]|e] [(Hb & Ht & Hst) Hn]; [|done]. cbn [after flush_order order_after answered_ok].
      unfold moved. rewrite decide_False by done. cbn [inputs committed unsynced loose first_flush present]. split_and!.
      + done.
      + rewrite bool_decide_eq_true_2 by done. by rewrite orb_true_r.
      + set_solver.
      + intros p Hp. split; [apply Hst|apply Ht]; set_solver.
      + intros p Hp. apply elem_of_union in Hp as [Hp|Hp]; [|apply Ht; set_solver].
        by apply elem_of_union in Hp as [->%elem_of_singleton| ->%elem_of_singleton]. }
  intros []. apply spec_try, spec_call; [by intros s [[<- _] _]|]. intros s [[]|e] (Hb & Hc & Hm & Hu & Hl); [|done].
  split; cbn; [done|done| |done|].
  - intros [Hp|Hp]%elem_of_union; [done|]. apply elem_of_filter in Hp as [Hp _]. by apply Hp.
  - intros p [_ Hp]%elem_of_filter Hs. by destruct (eq_true_false_abs _ Hs (Hl p Hp)).
Qed.

Lemma spec_publish_fsync dir l l' : (forall p, p ∈ l -> removelast p = dir \/ p ∈ l') ->
  spec (publishing l) (try (fsync_dir dir)) (fun _ => publishing l').
Proof.
  intros Hll. apply spec_try, spec_call; [by intros s [[<- _] _ _ _ _]|]. intros s [[]|e] [Hb Hc Hm Hu Hl]; [|done].
  split; cbn -[under]; [done|done|set_solver|done|].
  intros p [Hp Hin]%elem_of_filter Hs. destruct (Hl p Hin Hs) as [Hpl|?]; [left|by right].
  by destruct (Hll p Hpl).
Qed.

Lemma spec_publish_dir series hour :
  spec (publishing []) (try (create_dir_all [SERIES_DIR; series; hour]))
    (fun _ => publishing [[SERIES_DIR; series]; [SERIES_DIR; series; hour]]).
Proof.
  apply spec_try_any, spec_call; [by intros s [[<- _] _ _ _ _]|]. intros s r [[Hi Hf] Hc Hm Hu Hl].
  set (dir := [SERIES_DIR; series; hour]). cbn [after flush_order order_after].
  assert (forall p, p ∈ loose (dirs_made s dir (answered_ok (Some r))) -> p ∈ loose s \/ p ∉ present s /\ p ∈ ancestors [] dir) as Hloose.
  { intros p [Hp|Hp]%elem_of_union; [right|by left]. by apply elem_of_list_to_set, list_elem_of_filter in Hp. }
  split; [split; [done|]|done| |done|].
  - intros Hff. apply Hf in Hff. unfold dirs_made. cbn [present]. destruct (answered_ok (Some r)); set_solver.
  - intros [Hp|Hp%Hloose]%elem_of_union; [apply Hm; set_solver|]. destruct Hp as [Hp|[_ Hp]]; [apply Hm; set_solver|].
    cbn in Hp. repeat (apply elem_of_cons in Hp as [Hp|Hp]; [done|]). by apply elem_of_nil in Hp.
  - intros p Hp%Hloose Hs. destruct Hp as [Hp|[Hn Hp]].
    + destruct (Hl p Hp Hs) as [Hp'|?]; [by apply elem_of_nil in Hp'|by right].
    + cbn in Hp. apply elem_of_cons in Hp as [->|Hp]; [right|left; set_solver]. split; [done|].
      cbn. destruct (first_flush s); [done|]. by destruct (Hn (Hf eq_refl)).
Qed.

Lemma spec_publish_rename series hour name l :
  spec (publishing l) (try (rename (staged_path series hour name) [SERIES_DIR; series; hour; name]))
    (fun _ => publishing ([SERIES_DIR; series; hour; name] :: l)).
Proof.
  apply spec_try, spec_call.
  - intros s [[Hi _] Hc Hm Hu _]. cbn -[manifest_path under]. rewrite decide_False by done. cbn [under].
    assert (staged_path series hour name ∉ unsynced s) as Hn by (intros Hp; by destruct (Hu _ Hp)).
    unfold commit_durable. rewrite Hc, (bool_decide_eq_true_2 (_ ∉ unsynced s)) by done.
    by rewrite (bool_decide_eq_true_2 (manifest_path ∉ _)).
  - intros s [[]|e] [Hb Hc Hm Hu Hl]; [|done]. cbn [after flush_order order_after answered_ok].
    assert (staged_path series hour name ∉ unsynced s) as Hn by (intros Hp; by destruct (Hu _ Hp)).
    unfold moved. rewrite decide_False by done. split; cbn [base inputs committed unsynced loose first_flush present].
    + done.
    + by rewrite Hc.
    + intros [Hp|Hp]%elem_of_union; [apply Hm; set_solver|]. apply elem_of_union in Hp as [Hp|Hp]; [|apply Hm; set_solver].
      by apply elem_of_union in Hp as [Hp%elem_of_singleton|Hp%elem_of_singleton].
    + intros p Hp. apply Hu. set_solver.
    + intros p [Hp|Hp]%elem_of_union Hs; [left|destruct (Hl p Hp Hs); [left; set_solver|by right]].
      apply elem_of_union in Hp as [->%elem_of_singleton| ->%elem_of_singleton]; [done|set_solver].
Qed.

Lemma spec_promote p : staged_at p -> spec (publishing []) (promote p) (fun _ => publishing []).
Proof.
  intros (series & hour & name & ->). unfold promote.
  change (negb (under tmp_dir (staged_path series hour name))) with false. cbv beta iota zeta.
  change (promoted_path (staged_path series hour name)) with [SERIES_DIR; series; hour; name]. cbn [removelast].
  eapply spec_bind; [apply spec_publish_dir|]. intros [].
  eapply spec_bind; [apply spec_publish_rename|]. intros [].
  apply (spec_bind _ _ _ (fun _ => publishing [[SERIES_DIR; series]; [SERIES_DIR; series; hour]])).
  { apply spec_publish_fsync. intros p [->|Hp]%elem_of_cons; [by left|by right]. }
  intros []. apply (spec_bind _ _ _ (fun _ => publishing [[SERIES_DIR; series]])).
  { apply spec_publish_fsync. intros p [->|[->|Hp]%elem_of_cons]%elem_of_cons; [right; set_solver|by left|by apply elem_of_nil in Hp]. }
  intros []. apply spec_publish_fsync. intros p ->%list_elem_of_singleton. by left.
Qed.

Lemma spec_delete l : (forall id, id ∈ l -> id ∈ ids) ->
  spec (publishing []) (delete_segments l) (fun _ => publishing []).
Proof.
  intros Hin. unfold delete_segments.
  eapply spec_bind; [apply spec_each|intros []; apply spec_publish_fsync; by intros p Hp%elem_of_nil].
  intros id Hid. apply (spec_bind _ _ _ (fun _ => publishing [])).
  - apply spec_call.
    + intros s [[Hi _] Hc Hm Hu Hl]. unfold allowed, flush_order. unfold own_call. rewrite Hi, own_segment by auto. cbn [andb].
      unfold in_order. change (under wal_dir (segment_path id)) with true. unfold commit_durable. rewrite Hc.
      rewrite (bool_decide_eq_true_2 (manifest_path ∉ _)) by done. cbn [andb]. apply bool_decide_eq_true.
      intros p [Hp|Hp]%elem_of_union Hs; [destruct (Hu p Hp); congruence|].
      destruct (Hl p Hp Hs) as [Hp'|?]; [by apply elem_of_nil in Hp'|done].
    + intros s r [Hb Hc Hm Hu Hl]. destruct r as [[]|e]; cbn [after flush_order order_after answered_ok removed]; [|by split].
      split; cbn -[under]; [done|done| | |].
      * intros [Hp|Hp]%elem_of_union; [apply Hm; set_solver|]. by apply elem_of_union in Hp as [Hp%elem_of_singleton|Hp]; [|apply Hm; set_solver].
      * intros p Hp. apply Hu. set_solver.
      * intros p [->%elem_of_singleton|Hp]%elem_of_union Hs; [done|by apply Hl].
  - intros [[]|[]]; first [by apply spec_ret|apply spec_throw].
Qed.

Lemma spec_views m series : spec base (regenerate_views m series) (fun _ => base).
Proof.
  unfold regenerate_views. apply spec_each. intros name _. cbv zeta.
  apply (spec_bind _ _ _ (fun _ => base)).
  - apply spec_call; [by intros s [<- _]|]. intros s r [Hi Hf]. split; [done|]. intros Hff. apply Hf in Hff.
    cbn [after flush_order order_after]. unfold dirs_made. cbn [present]. destruct (answered_ok (Some r)); set_solver.
  - intros [[]|e]; [|by apply spec_ret]. apply (spec_bind _ _ _ (fun _ => base)); [|intros; by apply spec_ret].
    apply spec_call; [intros s [<- _]; apply may_write_view|]. by intros s r Hb.
Qed.

Lemma spec_publish m staged consumed touched : Forall staged_at staged -> (forall id, id ∈ consumed -> id ∈ ids) ->
  spec (publishing []) (publish m staged consumed touched) (fun _ => base).
Proof.
  intros Hst Hc. unfold publish. eapply spec_bind; [apply spec_each|].
  { intros p Hp. apply spec_promote. rewrite Forall_forall in Hst. by apply Hst. }
  intros []. eapply spec_bind; [by apply spec_delete|]. intros [].
  eapply spec_conseq; [apply spec_views|by intros s [? _ _ _ _]|done].
Qed.

(** ** The whole run *)

Lemma spec_run_inner c m l now sp : (forall id, id ∈ l -> id ∈ ids) -> spill_files sp ->
  spec (staging [] None) (run_inner c m l now sp) (fun _ _ => True).
Proof.
  intros Hl Hsp. unfold run_inner.
  apply (spec_bind _ _ _ (fun r s => match r with Ok p => phase1_files p /\ staging [] None s | Err _ => True end)).
  { apply spec_attempt; [|done]. apply aside_phase1; [done|]. split; [|done]. by intros id Hid%elem_of_nil. }
  intros [p|e]; [|by apply spec_ret]. apply spec_given. intros [Hc Hp].
  destruct (p1_consumed p) as [|first rest] eqn:Ec; [by apply spec_ret|]. destruct (_ && _); [by apply spec_ret|]. cbv zeta.
  eapply spec_bind; [apply (spec_attempt _ _ (fun r s => match r with Ok r => Forall staged_at r.1.1.*2 /\ settled s | Err _ => True end));
    [by apply spec_stage|done]|].
  intros [[[staged rows] dedup]|e]; [|by apply spec_ret]. cbn [fst]. apply spec_given. intros Hst.
  eapply spec_bind; [apply (spec_attempt _ _ (fun _ _ => True)); [|done]|intros r; by apply spec_ret].
  eapply spec_bind; [apply spec_commit|]. intros []. eapply spec_post; [apply spec_publish; [done|done]|done].
Qed.

Lemma spec_finally {A} (P : Order -> Prop) (m : io A) cleanup Q :
  spec P m Q -> spec (fun _ => True) cleanup (fun _ _ => True) -> spec P (finally m cleanup) (fun _ _ => True).
Proof.
  intros Hm Hc. unfold finally.
  eapply spec_bind; [apply (spec_attempt _ _ (fun _ _ => True)); [by eapply spec_post|done]|]. intros r.
  eapply spec_bind; [by apply (spec_attempt _ _ (fun _ _ => True))|].
  intros r'. eapply spec_conseq; [apply (spec_lift (fun _ => True))|done|done].
Qed.

Lemma spec_spill_new : spec (staging [] None) spill_new (fun sp s => spill_files sp /\ staging [] None s).
Proof.
  unfold spill_new, clear_runs, ignore. apply (spec_bind _ _ _ (fun _ => staging [] None)).
  - apply (spec_bind _ _ _ (fun _ => staging [] None)); [|intros; by apply spec_ret].
    eapply spec_post; [apply aside_remove_runs|]. by intros r s [_ ?].
  - intros []. apply spec_ret. intros s Hs. split; [|done]. intros key runs_ E. cbn in E. by rewrite lookup_empty in E.
Qed.

(** Every call of a flush is allowed when it is made. *)
Lemma spec_run c m segments now : (forall i, i ∈ dedup_by Z.eqb (sort_by_key id segments) -> i ∈ ids) ->
  spec (staging [] None) (run c m segments now) (fun _ _ => True).
Proof.
  intros Hin. unfold run. destruct (dedup_by Z.eqb (sort_by_key id segments)) as [|i l]; [by apply spec_ret|].
  eapply spec_bind; [apply spec_spill_new|].
  intros sp. apply spec_given. intros Hsp. eapply spec_finally; [by apply spec_run_inner|].
    intros s _. cbn. done.
Qed.
End order.
