(* ===== verification/FlushOrder.v ===== *)
(** * FlushOrder: a flush next to other threads, and before a power cut

    Two consequences of FlushCalls: threads that append while a flush runs neither
    disturb it nor are disturbed, and everything a flush relies on is durable before it
    relies on it. *)

From Stdlib Require Import ZArith Lia.
From Stdlib Require Import Strings.Byte.
From S2P Require Import Prelude Text Record Codec Disk Wal Reader Recovery Merge Lock Time Config Manifest Columns ColumnsTheorems View Planner Local FlushCrash FlushTheorems Calls Beside Durable FlushCalls.
Open Scope Z_scope.

(** ** The files of a flush *)

Lemma own_dir_head dir p : own_dir dir = true -> take (length dir) p = dir -> own_dir p = true.
Proof. destruct dir as [|d dir]; [done|]. destruct p as [|x p]; [done|]. cbn. intros Hd E. by injection E as -> _. Qed.

Lemma own_call_touches {R} ids (c : call R) p : own_call ids c = true -> touches c p -> own ids p = true.
Proof.
  assert (forall dir, own_dir dir = true -> take (length dir) p = dir -> own ids p = true) as Hdir.
  { intros dir Hd Ht. unfold own. by rewrite (own_dir_head dir p Hd Ht). }
  destruct c; cbn [own_call touches]; try (by intros ? ->); try done.
  - intros [Hf Ht]%andb_true_iff [->| ->]; done.
  - intros Hd [n Hn]. apply name_in_Some in Hn as ->. apply (Hdir dir Hd). by rewrite take_app_length.
  - intros Hd [n Hn]. apply subdir_in_Some in Hn as (x & rest & ->). apply (Hdir dir Hd). by rewrite take_app_length.
  - intros Hd Hu. apply (Hdir dir Hd). by apply bool_decide_eq_true in Hu.
Qed.

Lemma other_segments_not_own segments id : Forall (fun i => 0 <= i) segments -> 0 <= id -> id ∉ segments ->
  own segments (segment_path id) = false.
Proof.
  intros Hs Hid Hn. rewrite Forall_forall in Hs. unfold own. rewrite !orb_false_iff, !bool_decide_eq_false. split_and!.
  - done.
  - intros Hp. by repeat (apply elem_of_cons in Hp as [Hp|Hp]; [done|]); apply elem_of_nil in Hp.
  - intros (i & E & Hi)%list_elem_of_fmap. apply segment_path_inj in E as ->; [done|done|by apply Hs].
  - intros (i & E & Hi)%list_elem_of_fmap. symmetry in E. by apply corrupt_path_ne in E; [|apply Hs|].
Qed.

Section theorems.
Context `{Crc32} `{Parquet} `{ManifestJson}.

(** Nothing is loose when a flush begins. *)
Lemma staging_start segments dirs : staging segments [] None (order_start segments dirs).
Proof.
  split; cbn.
  - split; [done|]. intros Hf%bool_decide_eq_false. by apply dec_stable.
  - intros p Hp. cbn in Hp. set_solver.
  - set_solver.
  - set_solver.
  - done.
Qed.

Lemma run_wp c m segments now dirs :
  wp (run c m segments now) (fun _ _ => True) (fun _ => True) (order_start segments dirs).
Proof.
  apply (spec_run segments); [|apply staging_start]. apply Forall_forall, run_ids_ok. by apply Forall_forall.
Qed.

Lemma after_inputs {R : Type} (s : Order) (k : call R) r : inputs (after s k r) = inputs s.
Proof. destruct k; cbn; try done; by destruct (answered_ok r). Qed.

Lemma after_first_flush {R : Type} (s : Order) (k : call R) r : first_flush (after s k r) = first_flush s.
Proof. destruct k; cbn; try done; by destruct (answered_ok r). Qed.

Lemma replay_start (s : Order) l : inputs (replay s l) = inputs s /\ first_flush (replay s l) = first_flush s.
Proof.
  revert s. induction l as [|[R k r] l IH]; intros s; cbn [replay]; [done|].
  destruct (IH (after s k r)) as [-> ->]. by rewrite after_inputs, after_first_flush.
Qed.

Lemma own_call_apart {R : Type} ids (s : Order) (k : call R) : inputs s = ids -> allowed s k = true ->
  apart (fun p => own ids p = false) k.
Proof.
  intros <- [Ho _]%andb_true_iff p Hp. by rewrite (own_call_touches _ _ _ Ho Hp).
Qed.

Lemma lock_not_own ids : own ids lock_path = false.
Proof.
  unfold own. rewrite !orb_false_iff, !bool_decide_eq_false. split_and!; [done|by apply (bool_decide_unpack _)| |].
  all: by intros (i & E & _)%list_elem_of_fmap.
Qed.

(** What [in_order] asks of the three calls that rely on others, in words of the state
    before them. *)
Lemma rename_manifest_ordered (s : Order) from : in_order s (Rename from manifest_path) = true ->
  from ∉ unsynced s /\ forall p, p ∈ unsynced s ∪ loose s -> staged_name p = false.
Proof.
  cbn [in_order]. rewrite decide_True by done. unfold staging_durable.
  by intros [Hf Hs]%andb_true_iff; split; [apply bool_decide_eq_true in Hf|apply bool_decide_eq_true in Hs].
Qed.

Lemma rename_series_ordered (s : Order) from to : under [SERIES_DIR] to = true -> in_order s (Rename from to) = true ->
  from ∉ unsynced s /\ committed s = true /\ manifest_path ∉ unsynced s ∪ loose s.
Proof.
  intros Ht. cbn [in_order]. destruct (decide (to = manifest_path)) as [->|]; [done|]. rewrite Ht. unfold commit_durable.
  by rewrite !andb_true_iff, !bool_decide_eq_true.
Qed.

Lemma remove_segment_ordered (s : Order) p : under wal_dir p = true -> in_order s (RemoveFile p) = true ->
  committed s = true /\ manifest_path ∉ unsynced s ∪ loose s /\
  forall q, q ∈ unsynced s ∪ loose s -> under [SERIES_DIR] q = true -> q = [SERIES_DIR] /\ first_flush s = true.
Proof.
  intros Hp. cbn [in_order]. rewrite Hp. unfold commit_durable, tables_durable.
  rewrite !andb_true_iff, !bool_decide_eq_true. by intros [[? ?] Ht].
Qed.

(** C5: A flush syncs before it relies. Follow, in the calls of any run of a flush (any
    files, any I/O errors, up to any stop), the bytes written but not synced and the names
    made, moved or removed whose directory is not synced. Then (1) when the manifest is
    renamed into place, its bytes are synced and nothing under [tmp/], where the tables
    and rejects it mentions are staged, is unsynced, neither bytes nor names; (2) when a
    file is renamed into [series/], its bytes are synced and the new manifest is in place
    with its name synced; (3) when a segment is removed, the same holds of the manifest
    and every name under [series/] is synced, except that of [series/] itself in the flush
    that creates it. No file of [wal/] is ever written, nor the manifest in place. *)
Theorem flush_keeps_order c m segments now dirs w :
  let s0 := order_start segments dirs in
  let t := trace (run c m segments now) w in
  accepts s0 t = true /\
  (forall before from r rest, t = before ++ Event (Rename from manifest_path) r :: rest ->
     let s := replay s0 before in
     from ∉ unsynced s /\ forall p, p ∈ unsynced s ∪ loose s -> staged_name p = false) /\
  (forall before from to r rest, t = before ++ Event (Rename from to) r :: rest ->
     under [SERIES_DIR] to = true ->
     let s := replay s0 before in
     from ∉ unsynced s /\ committed s = true /\ manifest_path ∉ unsynced s ∪ loose s) /\
  (forall before p r rest, t = before ++ Event (RemoveFile p) r :: rest -> under wal_dir p = true ->
     let s := replay s0 before in
     committed s = true /\ manifest_path ∉ unsynced s ∪ loose s /\
     forall q, q ∈ unsynced s ∪ loose s -> under [SERIES_DIR] q = true -> q = [SERIES_DIR] /\ [SERIES_DIR] ∉ dirs).
Proof.
  intros s0 t. destruct (wp_sound _ _ _ s0 w (run_wp c m segments now dirs)) as [Ha _]. fold t in Ha.
  split; [done|]. rewrite accepts_spec in Ha.
  assert (forall before R (k : call R) r rest, t = before ++ Event k r :: rest -> in_order (replay s0 before) k = true) as Ho.
  { intros before R k r rest E. by destruct (proj1 (andb_true_iff _ _) (Ha _ _ _ _ _ E)). }
  split_and!.
  - intros before from r rest E. eapply rename_manifest_ordered, Ho, E.
  - intros before from to r rest E Ht. eapply rename_series_ordered, Ho, E. done.
  - intros before p r rest E Hp. destruct (remove_segment_ordered _ p Hp (Ho _ _ _ _ _ E)) as (Hc & Hm & Hs).
    split_and!; [done..|]. intros q Hq Hu. destruct (Hs q Hq Hu) as [-> Hf]. split; [done|].
    rewrite (proj2 (replay_start s0 before)) in Hf. by apply bool_decide_eq_true in Hf.
Qed.

(** C6: A flush and the threads that append do not disturb each other. Let other threads
    change, between any two calls of a flush, any files but the flush's own ([tmp/],
    [runs/], [rejects/], [series/], the manifest and the segments it was given): other
    segments, the lock. Under the same I/O errors and up to the same stop the flush ends
    as it ends alone, with the same value and the same content of its own files, so all
    that is proved of a flush alone holds; and every other file is as the others' changes
    made it. The segments the flush was not given and the lock are such files. *)
Theorem flush_beside_appends c m segments now w coming :
  Forall (fun id => 0 <= id) segments ->
  Forall (Forall (fun a => own segments (act_path a) = false)) coming ->
  let '(w1, o1) := run c m segments now w in
  let '(b, o2) := exec_beside (run c m segments now) (mkBusy w coming []) in
  o2 = o1 /\ script (b_world b) = script w1 /\
  (forall p, own segments p = true -> files (b_world b) !! p = files w1 !! p) /\
  (forall p, own segments p = false -> files (b_world b) !! p = apply_acts (b_acts b) (files w) !! p) /\
  concat coming = b_acts b ++ concat (b_coming b) /\
  (forall id, 0 <= id -> id ∉ segments -> own segments (segment_path id) = false) /\
  own segments lock_path = false.
Proof.
  intros Hs Hc. set (E := fun p => own segments p = false).
  assert (next_to E (files w) coming w (mkBusy w coming [])) as Hn by (by split).
  destruct (exec_beside_spec E (fun s => inputs s = segments) (run c m segments now) _ _
    (order_start segments ∅) (files w) coming w _
    (fun s R k Hi Ha => own_call_apart segments s k Hi Ha) (fun s R k r Hi => eq_trans (after_inputs s k r) Hi)
    eq_refl (run_wp c m segments now ∅) Hn) as (Eo & [Hsc Hown Hoth Hacts _] & _).
  destruct (exec (run c m segments now) w) as [w1 o1], (exec_beside _ _) as [b o2]. cbn [fst snd] in *.
  split_and!; [done|done| |done|done|by intros; apply other_segments_not_own|apply lock_not_own].
  intros p Hp. apply Hown. unfold E. by rewrite Hp.
Qed.
End theorems.

(** ** Examples *)

#[local] Existing Instance Crc32_ieee.
#[local] Existing Instance count_parquet.
#[local] Existing Instance NumberJson.

Definition is_removal (p : path) (e : event) : bool :=
  match e with Event (RemoveFile q) _ => bool_decide (q = p) | _ => false end.

Fixpoint before_first {A : Type} (f : A -> bool) (l : list A) : option (list A) :=
  match l with
  | [] => None
  | x :: l' => if f x then Some [] else cons x <$> before_first f l'
  end.

Lemma before_first_Some {A : Type} (f : A -> bool) l b : before_first f l = Some b ->
  exists e rest, l = b ++ e :: rest /\ f e = true.
Proof.
  revert b. induction l as [|x l IH]; intros b; cbn; [done|]. destruct (f x) eqn:E.
  - intros [= <-]. by exists x, l.
  - destruct (before_first f l) as [b'|]; [|done]. intros [= <-].
    destruct (IH b' eq_refl) as (e & rest & -> & He). by exists e, rest.
Qed.

Lemma is_removal_true p e : is_removal p e = true -> exists r, e = Event (RemoveFile p) r.
Proof. destruct e as [R [] r]; cbn; try done. intros ->%bool_decide_eq_true. by exists r. Qed.

(** When the sample flush deletes its segment, the name of [series/] is not synced if the
    flush created it, and nothing under [series/] is loose if it did not. *)
Example removal_sample :
  let t := trace (run sample_config flush_manifest [5] 7) (mkWorld flush_files []) in
  let loose_then dirs :=
    (fun l => filter (fun p => under [SERIES_DIR] p = true) (elements (loose (replay (order_start [5] dirs) l))))
    <$> before_first (is_removal (segment_path 5)) t in
  loose_then ∅ = Some [[SERIES_DIR]] /\ loose_then {[ [SERIES_DIR] ]} = Some [].
Proof. vm_compute. by split. Qed.

(** The sample flush does remove its segment. *)
Lemma flush_order_witness :
  let s0 := order_start [5] ∅ in
  exists before r rest,
    trace (run sample_config flush_manifest [5] 7) (mkWorld flush_files [])
      = before ++ Event (RemoveFile (segment_path 5)) r :: rest /\
    committed (replay s0 before) = true /\ manifest_path ∉ unsynced (replay s0 before) ∪ loose (replay s0 before).
Proof.
  pose proof (flush_keeps_order sample_config flush_manifest [5] 7 ∅ (mkWorld flush_files [])) as Ho.
  assert (option_map length (before_first (is_removal (segment_path 5))
    (trace (run sample_config flush_manifest [5] 7) (mkWorld flush_files []))) = Some 28%nat) as Hb
    by (vm_compute; reflexivity).
  destruct (before_first _ _) as [before|] eqn:E in Hb; [|discriminate].
  apply before_first_Some in E as (e & rest & E & He). apply is_removal_true in He as [r ->].
  destruct Ho as (_ & _ & _ & Hr). destruct (Hr _ _ _ _ E eq_refl) as (Hc & Hm & _).
  exists before, r, rest. split; [exact E|]. split; assumption.
Defined.

(** What a thread that appends does while the sample flush runs: it opens segment 6 and
    writes to it, and the lock is rewritten. *)
Definition appends_beside : list (list act) :=
  [[]; [Put (segment_path 6) [x01]]; [Put (segment_path 6) [x01; x02]; Put lock_path [x37]]].

Lemma flush_beside_witness :
  let alone := run sample_config flush_manifest [5] 7 (mkWorld flush_files []) in
  let both := exec_beside (run sample_config flush_manifest [5] 7) (mkBusy (mkWorld flush_files []) appends_beside []) in
  both.2 = alone.2 /\
  files (b_world both.1) !! segment_path 5 = None /\ files (b_world both.1) !! segment_path 6 = Some [x01; x02].
Proof.
  assert (Forall (fun id => 0 <= id) [5]) as Hids by (repeat constructor; discriminate).
  assert (Forall (Forall (fun a => own [5] (act_path a) = false)) appends_beside) as Hown
    by (repeat constructor; vm_compute; reflexivity).
  pose proof (flush_beside_appends sample_config flush_manifest [5] 7 (mkWorld flush_files []) appends_beside Hids Hown) as Hb.
  assert (files (run sample_config flush_manifest [5] 7 (mkWorld flush_files [])).1 !! segment_path 5 = None) as Ha
    by (vm_compute; reflexivity).
  assert (b_acts (exec_beside (run sample_config flush_manifest [5] 7) (mkBusy (mkWorld flush_files []) appends_beside [])).1
    = concat appends_beside) as Hd by (vm_compute; reflexivity).
  destruct (run sample_config flush_manifest [5] 7 (mkWorld flush_files [])) as [w1 o1].
  destruct (exec_beside _ _) as [b o2]. destruct Hb as (Ho & _ & Hf & Hg & _). cbn [fst snd] in *. split_and!.
  - exact Ho.
  - rewrite (Hf (segment_path 5)) by (vm_compute; reflexivity). exact Ha.
  - rewrite (Hg (segment_path 6)) by (vm_compute; reflexivity). rewrite Hd. vm_compute. reflexivity.
Defined.
