(* ===== verification/PowerCut.v ===== *)
(** * PowerCut: a flush and the bytes it has not synced

    A stop of the process loses nothing that was written; a power cut can also lose, or
    garble, bytes that were not synced: [power_cut u fs d] of file Calls, where [u] are the files
    with unsynced bytes after the calls made ([dirty]). Names reach the disk in the order of the calls, so an earlier
    state of the directories is the state at an earlier stop, which the theorems cover as
    well.

    What a flush leaves unsynced is never anything it or the next start relies on: at
    every stop, whatever bytes are lost, the files are an end of a flush in the sense of
    FlushCrash. *)

From Stdlib Require Import ZArith Lia.
From Stdlib Require Import Strings.Byte.
From S2P Require Import Prelude Text Record Codec Disk Calls Wal Reader Recovery Merge Time Config Manifest Columns View Planner Decode Local FlushLocal FlushRows FlushTable FlushStage FlushStaged FlushCrash FlushTheorems Durable FlushCalls FlushOrder.
Open Scope Z_scope.

(** The files [a] where [P] holds, [b] elsewhere. *)
Definition patch (P : path -> Prop) `{forall p, Decision (P p)} (a b : Files) : Files :=
  filter (fun x => P x.1) a ∪ filter (fun x => ~ P x.1) b.

Lemma lookup_patch (P : path -> Prop) `{forall p, Decision (P p)} (a b : Files) p :
  patch P a b !! p = if decide (P p) then a !! p else b !! p.
Proof.
  unfold patch. rewrite lookup_union, !map_lookup_filter.
  case_decide; destruct (a !! p), (b !! p); simplify_option_eq; done || tauto.
Qed.

Section cut.
Context `{Crc32} `{Parquet} `{ManifestJson}.

(** ** The two ends of a flush after a power cut *)

Lemma cut_uncommitted m0 ids fs0 fs d u : uncommitted m0 ids fs0 fs -> power_cut u fs d ->
  (forall p, p ∈ u -> p <> manifest_path /\ (flushing ids fs0 p \/ manifest_file p)) ->
  uncommitted m0 ids fs0 d.
Proof.
  intros [Hl Hk] Hc Hu. split.
  - eapply loads_same; [|exact Hl]. apply Hc. intros Hp. by apply Hu in Hp as [].
  - intros p Hp. rewrite Hc; [by apply Hk|]. intros Hin. apply Hp. by apply Hu.
Qed.

Definition viewed (p : path) : Prop := is_view p = true \/ p = manifest_tmp.

#[export] Instance viewed_dec p : Decision (viewed p) := _.

Lemma is_view_path p : is_view p = true -> exists name, p = series_dir name ++ [VIEW_FILE].
Proof.
  destruct p as [|top [|name [|v [|]]]]; try done. cbn. intros Hv%bool_decide_eq_true. destruct Hv as [-> ->]. by exists name.
Qed.

Lemma cut_committed m now fs0 fs1 staged consumed fs d u : committed_at m now fs0 fs1 staged consumed fs -> power_cut u fs d ->
  (forall p, p ∈ u -> p <> manifest_path /\ p ∉ staged /\ p ∉ promoted_path <$> staged /\ (touchable fs0 p \/ viewed p)) ->
  exists fs1', committed_at m now fs0 fs1' staged consumed d /\ forall p, p ∈ staged -> fs1' !! p = fs1 !! p.
Proof.
  intros [Hl Hb Hs Hco Hi Ha] Hc Hu. set (P := fun p => p ∈ u /\ ~ viewed p).
  exists (patch P d fs1).
  assert (forall p, p ∈ staged -> patch P d fs1 !! p = fs1 !! p) as Hsame.
  { intros p Hp. rewrite lookup_patch. case_decide as HP; [|done]. destruct HP as [HP _]. by apply Hu in HP as (_ & ? & _). }
  split; [|done]. split.
  - eapply loads_same; [|exact Hl]. apply Hc. intros Hp. by apply Hu in Hp as [].
  - intros p Hp. rewrite lookup_patch. case_decide as HP; [|by apply Hb]. destruct HP as [HP Hv].
    apply Hu in HP as (_ & _ & _ & [Ht|?]); [|done]. exfalso. apply Hp. by left.
  - done.
  - apply Forall_forall. intros p Hp. rewrite Forall_forall in Hco. specialize (Hco p Hp).
    unfold complete in *. by rewrite Hsame.
  - intros p c Hp Hpc. rewrite Hsame in Hpc by done.
    rewrite !Hc; [by apply Hi|..]; intros Hin; apply Hu in Hin as (_ & Hn & Hn' & _); [|done].
    apply Hn'. by apply list_elem_of_fmap_2.
  - intros p Hp. rewrite lookup_patch. case_decide as HP; [done|]. rewrite Hc; [by apply Ha|].
    intros Hin. apply HP. split; [done|]. intros [Hv| ->]; apply Hp.
    + left. right. right. right. by apply is_view_path.
    + right. left. by right.
Qed.

Lemma tables_same flush m ids fs0 fs1 fs1' staged consumed : tables flush m ids fs0 fs1 staged consumed ->
  (forall p, p ∈ staged.*2 -> fs1' !! p = fs1 !! p) -> tables flush m ids fs0 fs1' staged consumed.
Proof.
  intros [Hlk Ef Hcl] Hsame. split; [done|done|]. unfold tables_closed, groups_closed in *.
  rewrite Forall_forall in Hcl. apply Forall_forall. intros g Hg. specialize (Hcl g Hg).
  rewrite Forall_forall in Hcl. apply Forall_forall. intros part Hpart.
  destruct (Hcl part Hpart) as (props & Hprops & Hok & Hl). exists props. split_and!; [done|done|].
  rewrite Hsame; [done|]. rewrite Ef. unfold table_files. apply list_elem_of_fmap.
  exists (written_of g.1 g.2 (file_name (hd 0 consumed) (List.last consumed 0) g) part).
  split; [done|]. apply list_elem_of_In, in_concat. eexists. rewrite <-!list_elem_of_In.
  split; [by apply list_elem_of_fmap_2|]. by apply list_elem_of_fmap_2.
Qed.

(** ** Commit and publish *)

Lemma local_commit m : local manifest_file (commit m).
Proof.
  unfold commit. destruct (to_vec_pretty m); [|apply local_throw]. local_solve.
  all: first [by left|by right].
Qed.

Lemma local_publish staged consumed m touched : Forall is_staged staged ->
  local (after staged consumed) (publish m staged consumed touched).
Proof.
  intros Hst. unfold publish. apply local_bind.
  - apply local_each. intros p Hp. unfold promote. destruct (negb _); [apply local_throw|]. cbv zeta.
    local_solve; [by left|right; left; by apply list_elem_of_fmap_2].
  - intros []. apply local_bind.
    + apply local_delete_segments. intros id Hid. right. right. left. by exists id.
    + intros []. apply local_views. intros name. right. right. right. by exists name.
Qed.

(** A harmless unsynced file that the flush could touch before its commit, or a view. *)
Lemma harmless_committed (s : Order) fs0 staged : Forall is_staged staged -> harmless s ->
  (forall p, p ∈ unsynced s -> touchable fs0 p \/ viewed p) ->
  (forall p, p ∈ unsynced s -> p ∉ staged) ->
  forall p, p ∈ unsynced s ->
    p <> manifest_path /\ p ∉ staged /\ p ∉ promoted_path <$> staged /\ (touchable fs0 p \/ viewed p).
Proof.
  intros Hst Hs Ht Hn p Hp. destruct (Hs p Hp) as (Hm & _ & Hv & _). split_and!; [done|by apply Hn| |by apply Ht].
  intros (q & -> & Hq)%list_elem_of_fmap. rewrite Forall_forall in Hst. destruct (Hst q Hq) as (sr & h & n & ->).
  by discriminate (Hv eq_refl).
Qed.

Lemma touchable_flushing ids fs0 p : touchable fs0 p -> flushing ids fs0 p.
Proof. by left. Qed.

Section commit.
Context (m m0 : Manifest) (now : Z) (fs0 fs1 : Files) (staged : list path) (ids consumed : list Z).
Let m' := with_watermark m (List.last consumed 0) now.
Context (Hm : manifest_typed m') (Hload : loads fs1 m0) (Hflushing : keeps (flushing ids fs0) fs0 fs1)
  (Hbefore : keeps (fun p => touchable fs0 p \/ p ∈ staged) fs0 fs1)
  (Hstaged : Forall (staged_ok (hd 0 consumed) (List.last consumed 0)) staged)
  (Hcomplete : Forall (complete fs1) staged).
Context (segments : list Z) (s : Order) (Hin : forall id, id ∈ consumed -> id ∈ segments)
  (Hs : harmless s) (Hsettled : FlushCalls.settled segments s)
  (Hdirt : forall p, p ∈ unsynced s -> touchable fs0 p).

Let end_of (d : Files) : Prop := uncommitted m0 ids fs0 d \/
  exists fs1', committed_at m now fs0 fs1' staged consumed d /\ forall p, p ∈ staged -> fs1' !! p = fs1 !! p.

Lemma staged_not_dirty p : p ∈ staged -> p ∉ unsynced s.
Proof.
  intros Hp Hu. destruct Hsettled as (_ & _ & Hst). pose proof (staged_is_staged _ _ _ Hstaged) as Hs'.
  rewrite Forall_forall in Hs'. destruct (Hs' p Hp) as (sr & h & n & ->). by discriminate (Hst _ (elem_of_union_l _ _ _ Hu)).
Qed.

(** Bytes lost while the manifest is committed. *)
Lemma cut_commit w : files w = fs1 ->
  let s' := replay s (trace (commit m') w) in
  (forall d, power_cut (unsynced s') (files (commit m' w).1) d -> end_of d) /\
  harmless s' /\ (forall p, p ∈ unsynced s' -> p ∈ unsynced s \/ p = manifest_tmp) /\
  match (commit m' w).2 with Ret _ => FlushCalls.publishing segments [] s' | _ => True end.
Proof.
  intros Ew s'. destruct (wp_sound _ _ _ s w (spec_commit segments m' s Hsettled)) as [Hacc Hpost]. fold s' in Hpost.
  assert (harmless s') as Hs' by (by apply harmless_replay).
  assert (forall p, p ∈ unsynced s' -> p ∈ unsynced s \/ p = manifest_tmp) as Hu.
  { intros p Hp. assert (p ∈ unsynced s \/ manifest_file p) as [?|[->| ->]]; [|by left| |by right].
    - unfold s' in Hp. rewrite replay_unsynced in Hp. by apply (proj2 (local_commit m' w)) in Hp.
    - by destruct (Hs' _ Hp) as []. }
  split_and!; [|done|done|by destruct (commit m' w).2].
  intros d Hd. destruct (triple_commit m' m0 fs1 Hm w) as [[Hsame Hlo] _]; [by rewrite Ew|].
  destruct Hlo as [Hlo|Hlo]; [left|right].
  - eapply (cut_uncommitted m0 ids fs0 (files (commit m' w).1)); [|exact Hd|].
    + split; [done|]. eapply keeps_trans; [eapply keeps_mono; [|exact Hflushing]; by left|].
      intros p Hp. apply Hsame; intros ->; apply Hp; right; [by left|by right].
    + intros p Hp. split; [by destruct (Hs' p Hp)|]. destruct (Hu p Hp) as [?| ->]; [left|right; by right].
      by apply touchable_flushing, Hdirt.
  - eapply cut_committed; [|exact Hd|].
    + eapply publishing_committed; [..|exact Hlo|split; [|apply keeps_refl]]; [done..|]. intros p c _ Hc. by left.
    + apply harmless_committed; [by eapply staged_is_staged|done|..].
      * intros p [?| ->]%Hu; [left; by apply Hdirt|right; by right].
      * intros p [?| ->]%Hu Hp; [by eapply staged_not_dirty|].
        by destruct (manifest_not_staged staged consumed Hstaged _ Hp) as [[] _]; right.
Qed.

(** Bytes lost while the flush publishes, too. *)
Lemma cut_commit_publish touched w : files w = fs1 ->
  forall d, power_cut (unsynced (replay s (trace (commit m' ;; publish m' staged consumed touched) w)))
    (files (exec (commit m' ;; publish m' staged consumed touched) w).1) d -> end_of d.
Proof.
  intros Ew d. destruct (cut_commit w Ew) as (Hc & Hs' & Hu & Hpost).
  destruct (triple_commit m' m0 fs1 Hm w) as [[Hsame _] Hr]; [by rewrite Ew|].
  unfold mbind, io_bind. cbn [trace exec].
  destruct (commit m' w) as [w2 [[]|e|]]; cbn [fst snd] in *; [|rewrite app_nil_r; apply Hc..].
  destruct Hr as [_ Hl2]. set (s' := replay s (trace (commit m') w)) in *. rewrite replay_app. fold s'.
  pose proof (staged_is_staged _ _ _ Hstaged) as His.
  assert (Forall staged_at staged) as Hat.
  { eapply Forall_impl; [exact Hstaged|]. intros p (sr & h & e & _ & ->). by eexists _, _, _. }
  destruct (wp_sound _ _ _ s' w2 (spec_publish segments m' staged consumed touched Hat Hin s' Hpost)) as [Hacc _].
  assert (published_to staged consumed (files w2) [] (files w2)) as Hstart.
  { split; [split; [by left|apply keeps_refl]|]. by intros p c ?%elem_of_nil. }
  destruct (triple_publish staged consumed (files w2) His m' touched w2 Hstart) as [Hp _].
  pose proof (proj2 (local_publish staged consumed m' touched His w2)) as Hdirt'.
  set (t := trace (publish m' staged consumed touched) w2) in *. assert (harmless (replay s' t)) as Ht by (by apply harmless_replay).
  assert (committed (replay s' t) = true) as Hct by (by apply committed_replay; destruct Hpost).
  intros Hd. right. eapply cut_committed; [by eapply publishing_committed|exact Hd|].
  assert (forall p, p ∈ unsynced (replay s' t) -> p ∉ staged) as Hnst.
  { intros p Hpu Hps. destruct (Ht p Hpu) as (_ & _ & _ & Hns). rewrite Forall_forall in His.
    destruct (His p Hps) as (sr & h & n & ->). by discriminate (Hns Hct). }
  apply harmless_committed; [done|done| |done]. intros p Hpu.
  destruct (Ht p Hpu) as (_ & Hwal & Hv & _). pose proof Hpu as Hpu'. rewrite replay_unsynced in Hpu'.
  apply Hdirt' in Hpu' as [Hold|Hnew].
  - destruct (Hu p Hold) as [?| ->]; [left; by apply Hdirt|right; by right].
  - destruct Hnew as [?|[(q & -> & Hq)%list_elem_of_fmap|[(id & _ & ->)|(name & ->)]]]; [by destruct (Hnst p)| |done|right; by left].
    rewrite Forall_forall in His. destruct (His q Hq) as (sr & h & k & ->). by discriminate (Hv eq_refl).
Qed.
End commit.

(** ** The whole run *)

Lemma trace_run_inner c m ids now spill w :
  trace (run_inner c m ids now spill) w =
    let phase := phase1 m (memory_budget_bytes (cfg_flush c)) ids
      (mkPhase1 [] ∅ 0 0 0 (mkRejects (reject_max_bytes (cfg_limits c)) None) spill batch_default) in
    trace phase w ++
    match phase w with
    | (w1, Ret s) =>
        match p1_consumed s with
        | [] => []
        | first :: _ =>
            if (p1_rows s =? 0) && (p1_rejected s =? 0) && (p1_skipped s =? 0) then []
            else
              let last_ := List.last (p1_consumed s) 0 in
              trace (stage c first last_ s) w1 ++
              match stage c first last_ s w1 with
              | (w2, Ret (staged, _, _)) =>
                  trace (commit (with_watermark m last_ now) ;;
                         publish (with_watermark m last_ now) staged.*2 (p1_consumed s) (sp_touched (p1_spill s))) w2
              | _ => []
              end
        end
    | _ => []
    end.
Proof.
  cbv zeta. unfold run_inner, mbind at 1, io_bind at 1. cbn [trace]. unfold attempt at 1. cbn [trace]. f_equal.
  change (exec (attempt ?m) w) with (exec (Catch m) w). cbn [exec].
  destruct (phase1 _ _ _ _ w) as [w1 [s|e|]]; [|done..].
  destruct (p1_consumed s) as [|first rest]; [done|]. destruct (_ && _); [done|]. cbv zeta.
  unfold mbind at 1, io_bind at 1, attempt at 1. cbn [trace exec]. f_equal.
  destruct (stage _ _ _ _ w1) as [w2 [[[staged rows] dedup]|e|]]; [|done..].
  unfold mbind at 1, io_bind at 1, attempt. cbn [trace exec].
  destruct (exec _ w2) as [w3 [[]|e|]]; by rewrite app_nil_r.
Qed.

Section run.
Context (c : Config) (m m0 : Manifest) (now : Z) (fs0 : Files) (segments : list Z).
Context (Hm : manifest_typed m) (Hnow : 0 <= now < u64_lim) (Hload : loads fs0 m0).

(** Bytes lost before the commit. *)
Lemma cut_before ids fs u d : keeps (flushing ids fs0) fs0 fs -> power_cut u fs d ->
  (forall p, p ∈ u -> flushing ids fs0 p) -> flush_end c m m0 now fs0 ids d.
Proof.
  intros Hk Hd Hu. left. eapply cut_uncommitted; [by apply touched_uncommitted|exact Hd|].
  intros p Hp. split; [|left; by apply Hu]. intros ->. by eapply manifest_not_flushing, Hu.
Qed.

Lemma dirt_replay (D E : path -> Prop) (s : Order) l : dirt_in D l -> (forall p, p ∈ unsynced s -> E p) ->
  (forall p, D p -> E p) -> forall p, p ∈ unsynced (replay s l) -> E p.
Proof. intros Hl Hs HD p. rewrite replay_unsynced. intros [?|?]%Hl; auto. Qed.

Lemma run_inner_cut ids spill w s : Forall (fun id => 0 <= id < u64_lim) ids -> NoDup ids ->
  sp_groups spill = ∅ -> keeps scratch fs0 (files w) -> (forall id, id ∈ ids -> id ∈ segments) ->
  FlushCalls.staging segments [] None s -> harmless s -> (forall p, p ∈ unsynced s -> scratch p) ->
  forall d, power_cut (unsynced (replay s (trace (run_inner c m ids now spill) w))) (files (run_inner c m ids now spill w).1) d ->
    flush_end c m m0 now fs0 ids d.
Proof.
  intros Hids Hnd Hsp Hw Hin Hst Hs Hscr d. rewrite trace_run_inner, exec_run_inner. cbv zeta.
  set (st0 := mkPhase1 _ _ _ _ _ _ _ _).
  assert (Forall (fun id => 0 <= id) ids) as Hids0 by (eapply Forall_impl; [exact Hids|]; cbn; lia).
  assert (spill_ok spill.(sp_groups)) as Hsp0 by (rewrite Hsp; apply map_Forall_empty).
  assert (keeps (touchable fs0) fs0 (files w)) as Hw0 by (eapply keeps_mono; [|exact Hw]; apply scratch_touchable).
  pose proof (run_phase1 c m fs0 ids st0 w Hids Hnd Hsp eq_refl eq_refl eq_refl eq_refl Hw) as Hp1.
  set (budget := memory_budget_bytes (cfg_flush c)) in *.
  pose proof (proj2 (stays_phase1 fs0 m budget ids st0 Hids0 Hsp0 (Forall_nil_2 _)) w Hw0) as Hd1.
  assert (phase1_files segments st0) as Hpf.
  { split; [by intros id Hid%elem_of_nil|]. intros k r E. cbn in E. rewrite Hsp in E. by rewrite lookup_empty in E. }
  destruct (wp_sound _ _ _ s w (aside_phase1 segments m budget ids st0 Hin Hpf [] None s Hst)) as [Ha1 Hq1].
  set (t1 := trace (phase1 m budget ids st0) w) in *. rewrite replay_app. set (s1 := replay s t1) in *.
  assert (forall p, p ∈ unsynced s1 -> touchable fs0 p) as Hu1.
  { apply (dirt_replay (touchable fs0)); [done| |done]. intros p Hp. by apply scratch_touchable, Hscr. }
  assert (harmless s1) as Hs1 by (by apply harmless_replay).
  destruct (phase1 m budget ids st0 w) as [w1 r1]. destruct Hp1 as [Hk1 Hp1]. cbn [fst snd] in Hq1.
  assert (power_cut (unsynced s1) (files w1) d -> flush_end c m m0 now fs0 ids d) as Hend1.
  { intros Hd. eapply cut_before; [|exact Hd|].
    - eapply keeps_mono; [|exact Hk1]. by left.
    - intros p Hp. left. by apply Hu1. }
  destruct r1 as [st|e|]; [|exact Hend1..]. destruct Hp1 as [Hok Hrows]. destruct Hq1 as [[Hcin Hspf] Hst1].
  destruct (p1_consumed st) as [|first rest] eqn:Ec; [exact Hend1|]. destruct (_ && _); [exact Hend1|].
  assert (p1_consumed st <> []) as Hne by (by rewrite Ec).
  pose proof (run_stage c m fs0 ids st st0 w1 first rest Hok eq_refl Hnd Hrows Hk1 Ec) as Hp2. cbv zeta in Hp2.
  destruct Hok as [(l & El & Hsub) Hspk Hbk]. cbn in El. subst l. rewrite <-Ec in *. set (last_ := List.last _ 0) in *.
  pose proof (proj2 (proj1 (local_stage first last_ c st Hspk Hbk) w1)) as Hd2.
  destruct (wp_sound _ _ _ s1 w1 (spec_stage segments c first last_ st Hspf s1 Hst1)) as [Ha2 Hq2].
  set (t2 := trace (stage c first last_ st) w1) in *. rewrite replay_app. set (s2 := replay s1 t2) in *.
  assert (first ∈ ids /\ last_ ∈ ids) as [Hfi Hli].
  { split; (eapply elem_of_sublist; [|exact Hsub]); [rewrite Ec; by left|by apply last_elem]. }
  assert (forall p, p ∈ unsynced s2 -> flushing ids fs0 p) as Hu2.
  { apply (dirt_replay (FlushLocal.staging first last_)); [done|intros p Hp; left; by apply Hu1|].
    intros p [Hp|Hp]; [left; by apply scratch_touchable, run_file_scratch|right; by exists first, last_]. }
  assert (harmless s2) as Hs2 by (by apply harmless_replay).
  destruct (stage c first last_ st w1) as [w2 r2]. destruct Hp2 as [Hk2 Hp2]. cbn [fst snd] in Hq2.
  destruct r2 as [[[staged rows] dedup]|e|]; [|intros Hd; by eapply cut_before..].
  destruct Hp2 as (Hsok & Hcomp & Hkst & Htab). destruct Hq2 as [_ Hset]. cbn [fst] in Hset.
  assert (first = hd 0 (p1_consumed st)) as Ef by (by rewrite Ec). rewrite Ef in Hsok.
  assert (0 <= last_ < u64_lim) as Hlast by (by rewrite Forall_forall in Hids; apply Hids).
  intros Hd. destruct (cut_commit_publish m m0 now fs0 (files w2) staged.*2 ids (p1_consumed st)
    (with_watermark_typed m last_ now Hm Hlast Hnow) (un_loads _ _ _ _ (touched_uncommitted _ _ _ _ Hload Hk2)) Hk2 Hkst Hsok Hcomp
    segments s2 Hcin Hs2 Hset) with (touched := sp_touched (p1_spill st)) (w := w2) (d := d) as [Hun|(fs1' & Hc & Hsame)].
  - intros p Hp. destruct (Hu2 p Hp) as [?|(f & l & _ & _ & sr & h & e & _ & ->)]; [done|].
    destruct Hset as (_ & _ & Hset). by discriminate (Hset _ (elem_of_union_l _ _ _ Hp)).
  - done.
  - revert Hd. by destruct (exec _ w2) as [w3 [[]|e|]].
  - by left.
  - right. exists (p1_consumed st). split_and!; [done|done|]. exists fs1', staged. split; [done|].
    intros Hf. eapply tables_same; [by apply Htab|done].
Qed.
End run.

Lemma trace_finally {A : Type} (m : io A) cleanup w :
  trace (finally m cleanup) w =
    trace m w ++ match m w with (_, Halted) => [] | (w', _) => trace cleanup w' end.
Proof.
  unfold finally, mbind, io_bind, attempt. cbn [trace exec]. destruct (m w) as [w' [a|e|]]; [| |done];
    f_equal; destruct (cleanup w') as [w'' [[]| |]]; by rewrite app_nil_r.
Qed.

#[local] Instance run_file_dec p : Decision (run_file p) := decide (head p = Some RUNS_DIR).

(** Removing the runs loses nothing else. *)
Lemma cut_runs c m m0 now fs0 ids (s : Order) fs fs' l d : keeps run_file fs fs' -> dirt_in run_file l ->
  (forall d, power_cut (unsynced s) fs d -> flush_end c m m0 now fs0 ids d) ->
  power_cut (unsynced (replay s l)) fs' d -> flush_end c m m0 now fs0 ids d.
Proof.
  intros Hk Hl He Hd. apply (flush_end_runs c m m0 now fs0 ids (patch run_file fs d)).
  - intros p Hp. rewrite lookup_patch. by rewrite decide_False.
  - apply He. intros p Hp. rewrite lookup_patch. case_decide as Hr; [done|]. rewrite Hd; [by apply Hk|].
    rewrite replay_unsynced. by intros [?|?]%Hl.
Qed.

Lemma run_cut c m m0 segments now w d :
  manifest_typed m -> 0 <= now < u64_lim -> Forall (fun id => 0 <= id < u64_lim) segments ->
  loads (files w) m0 ->
  power_cut (dirty ∅ (trace (run c m segments now) w)) (files (run c m segments now w).1) d ->
  flush_end c m m0 now (files w) (run_ids segments) d.
Proof.
  intros Hm Hnow Hseg Hload. pose proof (run_ids_ok _ _ Hseg) as Hids. pose proof (run_ids_nodup segments) as Hnd.
  assert (forall id, id ∈ run_ids segments -> id ∈ segments) as Hin by (apply Forall_forall, run_ids_ok; by apply Forall_forall).
  change (∅ : gset path) with (unsynced (order_start segments ∅)). rewrite <-replay_unsynced. set (s0 := order_start segments ∅).
  assert (harmless s0) as Hs0 by (by intros p Hp%not_elem_of_empty).
  unfold run. fold (run_ids segments). destruct (run_ids segments) as [|i ids].
  { intros Hd. eapply cut_before; [done|apply keeps_refl|exact Hd|]. by intros p Hp%not_elem_of_empty. }
  unfold mbind, io_bind. cbn [trace exec]. rewrite replay_app.
  destruct (local_spill_new w) as [Hk Hdirt].
  destruct (wp_sound _ _ _ s0 w (spec_spill_new segments s0 (staging_start segments ∅))) as [Ha Hq].
  set (s1 := replay s0 (trace spill_new w)) in *.
  assert (forall p, p ∈ unsynced s1 -> run_file p) as Hu by (apply (dirt_replay run_file); [done|by intros p Hp%not_elem_of_empty|done]).
  assert (harmless s1) as Hs1 by (by apply harmless_replay). pose proof (spill_new_empty w) as Hempty.
  assert (keeps scratch (files w) (files (spill_new w).1)) as Hk1 by (eapply keeps_mono; [|exact Hk]; apply run_file_scratch).
  destruct (spill_new w) as [w1 [sp|e|]]; cbn [fst snd] in *.
  2, 3: intros Hd; eapply cut_before; [done|eapply keeps_mono; [|exact Hk1]; intros p Hp; left; by left|exact Hd|];
    intros p Hp; left; left; by apply run_file_scratch, Hu.
  pose proof (run_inner_cut c m m0 now (files w) segments Hm Hnow Hload (i :: ids) sp w1 s1 Hids Hnd Hempty Hk1 Hin
    (proj2 Hq) Hs1 (fun p Hp => run_file_scratch p (Hu p Hp))) as Hrun.
  rewrite trace_finally, exec_finally. set (t := trace (run_inner c m (i :: ids) now sp) w1) in *.
  destruct (run_inner c m (i :: ids) now sp w1) as [w2 r2]. cbn [fst] in Hrun.
  destruct (local_clear_runs w2) as [Hkc Hdc].
  destruct r2 as [a|e|]; [..|rewrite app_nil_r; apply Hrun]; rewrite replay_app; intros Hd;
    (eapply cut_runs; [exact Hkc|exact Hdc|exact Hrun|]); by destruct (clear_runs w2) as [w3 [?|?|]].
Qed.
End cut.
