(* ===== verification/Sweep.v ===== *)
(** * Sweep: what a start-up cleans up after an interrupted flush

    The files after [sweep_uncommitted] as a function of the files before it, and the
    consequence for a flush: once swept, an interrupted flush has either published
    everything it staged or left no trace in [series/]. *)

From Stdlib Require Import ZArith Lia.
From Stdlib Require Import Strings.Byte.
From S2P Require Import Prelude Text Record Codec Disk Wal Reader Merge Time Config Manifest Columns ColumnsTheorems Planner Local FlushLocal FlushStaged FlushCrash.
Open Scope Z_scope.

(** The range in a file name. *)
Definition range_of (n : bytes) : option (Z * Z * Z) :=
  if utf8_valid n then parse_output_file_name n else None.

(** The file at [p] after a sweep with watermark [lf]. *)
Definition swept (lf : Z) (fs : Files) (p : path) : option bytes :=
  if decide (head p = Some RUNS_DIR) then None
  else match p with
  | [d; n] => if decide (d = TMP_DIR) then None else fs !! p
  | [d; s; h; n] =>
      if decide (d = TMP_DIR) then None
      else if decide (d = SERIES_DIR) then
        match range_of n with
        | Some (_, last_, _) =>
            if last_ <=? lf then
              match fs !! [TMP_DIR; s; h; n] with Some c => Some c | None => fs !! p end
            else None
        | None => fs !! p
        end
      else fs !! p
  | _ => fs !! p
  end.

(** ** Deleting *)

Lemma lookup_delete_all (l : list path) (fs : Files) p :
  foldr delete fs l !! p = if decide (p ∈ l) then None else fs !! p.
Proof.
  induction l as [|q l IH]; [done|]. cbn [foldr]. destruct (decide (p = q)) as [->|Hne].
  - rewrite lookup_delete_eq. by rewrite decide_True by set_solver.
  - rewrite lookup_delete_ne, IH by done. apply decide_ext. set_solver.
Qed.

Lemma runs_clear_runs fs : exists fs', runs clear_runs fs fs' (Ret tt) /\
  forall p, fs' !! p = if decide (head p = Some RUNS_DIR) then None else fs !! p.
Proof.
  exists (foldr delete fs (files_under runs_dir fs)). split; [done|]. intros p.
  rewrite lookup_delete_all. destruct (decide (head p = Some RUNS_DIR)) as [Ht|Ht].
  - destruct (fs !! p) eqn:E; [|by case_decide]. rewrite decide_True; [done|].
    apply elem_of_files_under. split; [|eauto]. destruct p as [|d p]; [done|]. injection Ht as ->. done.
  - rewrite decide_False; [done|]. intros [Hu _]%elem_of_files_under. apply Ht. by apply under_top.
Qed.

(** ** Listing *)

Lemma runs_subdirs dir fs : runs (or_empty (read_subdirs dir)) fs fs (Ret (subdirs_of fs dir)).
Proof. done. Qed.

Lemma runs_names dir fs : runs (or_empty (read_dir dir)) fs fs (Ret (names_of fs dir)).
Proof. done. Qed.

Lemma runs_flat_map {A B : Type} (f : A -> io (list B)) (g : A -> list B) l fs :
  (forall x, runs (f x) fs fs (Ret (g x))) -> runs (io_flat_map f l) fs fs (Ret (l ≫= g)).
Proof.
  intros Hf. induction l as [|x l IH]; cbn; [done|].
  eapply runs_bind; [apply Hf|]. eapply runs_bind; [exact IH|]. done.
Qed.

(** The directories two levels down. *)
Definition hour_dirs (root : bytes) (fs : Files) : list path :=
  subdirs_of fs [root] ≫= fun s => (fun h => [root; s; h]) <$> subdirs_of fs [root; s].

Lemma hour_dirs_has root fs s h n : is_Some (fs !! [root; s; h; n]) -> [root; s; h] ∈ hour_dirs root fs.
Proof.
  intros Hc. apply list_elem_of_bind. exists s. split.
  - apply list_elem_of_fmap. exists h. split; [done|]. apply elem_of_subdirs. exists n, []. exact Hc.
  - apply elem_of_subdirs. exists h, [n]. exact Hc.
Qed.

Lemma hour_dirs_shape root fs d : d ∈ hour_dirs root fs -> exists s h, d = [root; s; h].
Proof.
  intros (s & Hd & _)%list_elem_of_bind. apply list_elem_of_fmap in Hd as (h & -> & _). eauto.
Qed.

Lemma NoDup_hour_dirs root fs : NoDup (hour_dirs root fs).
Proof.
  apply NoDup_bind.
  - intros s1 s2 d _ _ (h1 & -> & _)%list_elem_of_fmap (h2 & E & _)%list_elem_of_fmap. by injection E.
  - intros s _. apply NoDup_fmap_2; [intros h1 h2 E; by injection E|apply NoDup_subdirs].
  - apply NoDup_subdirs.
Qed.

(** The files three levels down, with what [f] makes of their names. *)
Definition tree {A : Type} (f : bytes -> option A) (root : bytes) (fs : Files) : list (path * A) :=
  hour_dirs root fs ≫= fun d => omap (fun n => a ← f n; Some (d ++ [n], a)) (names_of fs d).

Lemma elem_of_tree {A : Type} (f : bytes -> option A) root fs p a :
  (p, a) ∈ tree f root fs <->
  exists s h n, p = [root; s; h; n] /\ f n = Some a /\ is_Some (fs !! p).
Proof.
  unfold tree. rewrite list_elem_of_bind. split.
  - intros (d & Hd & (s & h & ->)%hour_dirs_shape). apply list_elem_of_omap in Hd as (n & Hn & E).
    destruct (f n) as [a'|] eqn:Ef; [|done]. cbn in E. injection E as <- <-.
    apply elem_of_names in Hn. exists s, h, n. done.
  - intros (s & h & n & -> & Ef & Hc). exists [root; s; h]. split; [|by eapply hour_dirs_has].
    apply list_elem_of_omap. exists n. rewrite Ef. split; [|done]. by apply elem_of_names.
Qed.

Lemma bind_fst {A B C : Type} (f : A -> list (B * C)) l : (l ≫= f).*1 = l ≫= fun x => (f x).*1.
Proof. induction l as [|x l IH]; [done|]. rewrite !bind_cons, fmap_app. by rewrite IH. Qed.

Lemma NoDup_tree {A : Type} (f : bytes -> option A) root fs : NoDup (tree f root fs).*1.
Proof.
  unfold tree. rewrite bind_fst. apply NoDup_bind.
  - intros d1 d2 p _ _ Hp1 Hp2.
    apply list_elem_of_fmap in Hp1 as ([q1 a1] & -> & (n1 & _ & E1)%list_elem_of_omap).
    apply list_elem_of_fmap in Hp2 as ([q2 a2] & Eq & (n2 & _ & E2)%list_elem_of_omap).
    destruct (f n1), (f n2); [|done..]. cbn in *. injection E1 as <- _. injection E2 as <- _.
    by apply app_inj_2 in Eq as [? _].
  - intros d _. generalize (NoDup_names fs d). induction 1 as [|n ns Hn Hns IH]; [constructor|].
    cbn. destruct (f n) as [a|]; [|done]. cbn. constructor; [|done].
    intros ([q b] & E & (n' & Hn' & E')%list_elem_of_omap)%list_elem_of_fmap.
    destruct (f n'); [|done]. cbn in *. injection E' as <- _. apply app_one_inj in E as ->. done.
  - apply NoDup_hour_dirs.
Qed.

Lemma runs_staged_files fs : exists l, runs staged_files fs fs (Ret l) /\
  l ≡ₚ tree (fun n => Some (range_of n)) TMP_DIR fs.
Proof.
  eexists. split.
  - eapply runs_bind; [apply runs_subdirs|]. eapply runs_bind.
    { apply (runs_flat_map _ (fun s => (fun h => [TMP_DIR; s; h]) <$> subdirs_of fs [TMP_DIR; s])).
      intros s. eapply runs_bind; [apply runs_subdirs|]. done. }
    eapply runs_bind; [|done].
    apply (runs_flat_map _ (fun d => omap (fun n => a ← Some (range_of n); Some (d ++ [n], a)) (names_of fs d))).
    intros d. eapply runs_bind; [apply runs_names|]. done.
  - apply merge_sort_Permutation.
Qed.

Lemma runs_output_files fs : exists l, runs output_files fs fs (Ret l) /\ l ≡ₚ tree range_of SERIES_DIR fs.
Proof.
  eexists. split.
  - eapply runs_bind; [apply runs_subdirs|]. eapply runs_bind.
    { apply (runs_flat_map _ (fun s => (fun h => [SERIES_DIR; s; h]) <$> subdirs_of fs [SERIES_DIR; s])).
      intros s. eapply runs_bind; [apply runs_subdirs|]. done. }
    eapply runs_bind; [|done].
    apply (runs_flat_map _ (fun d => omap (fun n => a ← range_of n; Some (d ++ [n], a)) (names_of fs d))).
    intros d. eapply runs_bind; [apply runs_names|]. done.
  - apply merge_sort_Permutation.
Qed.

(** ** The loops *)

Definition covered (lf : Z) (r : option (Z * Z * Z)) : bool :=
  match r with Some (_, last_, _) => last_ <=? lf | None => false end.

(** One staged file handled. *)
Definition sweep1 (lf : Z) (fs : Files) (f : path * option (Z * Z * Z)) : Files :=
  match fs !! f.1 with
  | Some c => if covered lf f.2 then <[promoted_path f.1 := c]> (delete f.1 fs) else delete f.1 fs
  | None => fs
  end.

Lemma runs_promote p c fs : under tmp_dir p = true -> fs !! p = Some c ->
  runs (promote p) fs (<[promoted_path p := c]> (delete p fs)) (Ret tt).
Proof.
  intros Hu Hc. unfold promote. rewrite Hu. cbn [negb].
  eapply runs_bind; [apply runs_try, runs_idle, _|]. eapply runs_bind; [by apply runs_try, runs_rename|].
  repeat (eapply runs_bind; [apply runs_try, runs_idle, _|]). apply runs_try, runs_idle, _.
Qed.

Lemma runs_sweep_staged lf p r c fs : under tmp_dir p = true -> fs !! p = Some c ->
  runs (sweep_staged lf (p, r)) fs (sweep1 lf fs (p, r)) (Ret tt).
Proof.
  intros Hu Hc. assert (runs (try (remove_file p)) fs (delete p fs) (Ret tt)) as Hrm.
  { apply runs_try, runs_remove. eauto. }
  unfold sweep1, sweep_staged. cbn [fst snd]. rewrite Hc. destruct r as [[[f last_] e]|]; [|done].
  cbn. destruct (last_ <=? lf); [by apply runs_promote|done].
Qed.

Section staged.
Context (lf : Z).

(** What handling the staged files [l] does to the file at [p]. *)
Record handled (l : list (path * option (Z * Z * Z))) (fs fs' : Files) : Prop := {
  hd_gone : forall p, p ∈ l.*1 -> fs' !! p = None;
  hd_moved : forall p r, (p, r) ∈ l -> covered lf r = true -> fs' !! promoted_path p = fs !! p;
  hd_kept : forall p, p ∉ l.*1 ->
    (forall q r, (q, r) ∈ l -> covered lf r = true -> p <> promoted_path q) -> fs' !! p = fs !! p
}.

Lemma lookup_sweep1 fs p r c q : fs !! p = Some c ->
  sweep1 lf fs (p, r) !! q =
    if decide (covered lf r = true /\ q = promoted_path p) then Some c
    else if decide (q = p) then None else fs !! q.
Proof.
  intros Hc. unfold sweep1. cbn [fst snd]. rewrite Hc. destruct (covered lf r); cbn.
  - destruct (decide (q = promoted_path p)) as [->|Hne].
    + rewrite decide_True by done. apply lookup_insert_eq.
    + rewrite decide_False by (by intros [_ ?]). rewrite lookup_insert_ne by done.
      case_decide as E; [subst; apply lookup_delete_eq|by rewrite lookup_delete_ne].
  - rewrite decide_False by (by intros [? _]).
    case_decide as E; [subst; apply lookup_delete_eq|by rewrite lookup_delete_ne].
Qed.

Lemma runs_sweep_each l fs : NoDup l.*1 -> Forall is_staged l.*1 -> (forall p, p ∈ l.*1 -> is_Some (fs !! p)) ->
  exists fs', runs (io_each (sweep_staged lf) l) fs fs' (Ret tt) /\ handled l fs fs'.
Proof.
  revert fs. induction l as [|[p r] l IH]; intros fs Hnd Hst Hsome.
  { exists fs. split; [done|]. split; [by intros ? ?%elem_of_nil|by intros ? ? ?%elem_of_nil|done]. }
  cbn in Hnd, Hst. apply NoDup_cons in Hnd as [Hp Hnd]. apply Forall_cons in Hst as [Hsp Hst].
  destruct (Hsome p) as [c Hc]; [by left|]. pose proof (lookup_sweep1 fs p r c) as Hl.
  assert (forall q, q ∈ l.*1 -> is_staged q) as Hq by (by apply Forall_forall).
  assert (forall q, q ∈ l.*1 -> sweep1 lf fs (p, r) !! q = fs !! q) as Hsame.
  { intros q Hin. rewrite Hl by done. rewrite decide_False.
    - rewrite decide_False; [done|]. by intros ->.
    - intros [_ ->]. by apply (promoted_ne p (promoted_path p)); auto. }
  destruct (IH (sweep1 lf fs (p, r)) Hnd Hst) as (fs' & Hrun & [Hg Hm Hk]).
  { intros q Hin. rewrite Hsame by done. apply Hsome. by right. }
  exists fs'. split.
  { eapply runs_bind; [|exact Hrun]. apply (runs_sweep_staged lf p r c); [by apply staged_under|done]. }
  split.
  - intros q [->|Hin]%elem_of_cons; [|by apply Hg]. rewrite Hk; [|done|].
    + rewrite Hl by done. rewrite decide_False by (intros [_ E]; by apply (promoted_ne p p Hsp Hsp)).
      by rewrite decide_True.
    + intros q' r' Hin _ E. symmetry in E. apply promoted_ne in E; [done| |done].
      apply Hq. by apply (list_elem_of_fmap_2 fst) in Hin.
  - intros q r' [E|Hin]%elem_of_cons Hcov.
    + injection E as -> ->. rewrite Hk.
      * rewrite Hl by done. by rewrite decide_True.
      * intros Hin. apply (promoted_ne p (promoted_path p)); auto.
      * intros q' r'' Hin _ E. apply promoted_inj in E; [|done|apply Hq; by apply (list_elem_of_fmap_2 fst) in Hin].
        subst q'. apply Hp. by apply (list_elem_of_fmap_2 fst) in Hin.
    + rewrite (Hm q r') by done. apply Hsame. by apply (list_elem_of_fmap_2 fst) in Hin.
  - intros q Hq1 Hq2. cbn in Hq1. rewrite Hk; [|set_solver|].
    + rewrite Hl by done. rewrite decide_False.
      * rewrite decide_False; [done|]. intros ->. apply Hq1. by left.
      * intros [Hcov E]. apply (Hq2 p r); [by left|done|done].
    + intros q' r' Hin. apply Hq2. by right.
Qed.
End staged.

(** Removing files and ignoring errors. *)
Lemma runs_remove_each {A : Type} (f : A -> io unit) (g : A -> option path) l fs :
  (forall x fs0, x ∈ l -> runs (f x) fs0 (match g x with Some p => delete p fs0 | None => fs0 end) (Ret tt)) ->
  exists fs', runs (io_each f l) fs fs' (Ret tt) /\
    forall p, fs' !! p = if decide (Some p ∈ g <$> l) then None else fs !! p.
Proof.
  revert fs. induction l as [|x l IH]; intros fs Hf; [by exists fs|].
  destruct (IH (match g x with Some p => delete p fs | None => fs end)) as (fs' & Hr & Hl).
  { intros y fs0 Hy. apply Hf. by right. }
  exists fs'. split; [eapply runs_bind; [apply Hf; by left|exact Hr]|]. intros p. rewrite Hl. cbn [fmap list_fmap].
  destruct (decide (Some p ∈ g <$> l)) as [Hin|Hn]; [by rewrite decide_True by (by right)|].
  destruct (decide (g x = Some p)) as [E|E].
  - rewrite E, lookup_delete_eq, decide_True; [done|]. rewrite <-E. by left.
  - rewrite decide_False by (by intros [?|?]%elem_of_cons). destruct (g x) as [q|]; [|done].
    apply lookup_delete_ne. congruence.
Qed.

Lemma runs_ignore_remove p fs : runs (ignore (remove_file p)) fs (delete p fs) (Ret tt).
Proof.
  unfold ignore. destruct (fs !! p) eqn:E.
  - eapply runs_bind; [apply runs_remove; eauto|]. done.
  - eapply runs_bind; [apply runs_call_eq; cbn [effect]; by rewrite E|]. rewrite delete_id by done. done.
Qed.

Lemma runs_file_len_any p fs : exists r, runs (file_len p) fs fs (Ret r).
Proof. destruct (fs !! p) eqn:E; eexists; apply runs_call_eq; cbn [effect]; by rewrite E. Qed.

(** ** The sweep, step by step *)

(** After the staged files. *)
Lemma handled_tree lf l fs fs' : l ≡ₚ tree (fun n => Some (range_of n)) TMP_DIR fs -> handled lf l fs fs' ->
  forall p, fs' !! p = match p with
    | [d; s; h; n] =>
        if decide (d = TMP_DIR) then None
        else if decide (d = SERIES_DIR) then
          if covered lf (range_of n) then
            match fs !! [TMP_DIR; s; h; n] with Some c => Some c | None => fs !! p end
          else fs !! p
        else fs !! p
    | _ => fs !! p
    end.
Proof.
  intros Hl [Hg Hm Hk] p.
  assert (forall q r, (q, r) ∈ l <-> exists s h n, q = [TMP_DIR; s; h; n] /\ Some (range_of n) = Some r /\ is_Some (fs !! q)) as Hin.
  { intros q r. rewrite Hl. apply elem_of_tree. }
  assert (forall q, q ∈ l.*1 <-> exists s h n, q = [TMP_DIR; s; h; n] /\ is_Some (fs !! q)) as Hin1.
  { intros q. rewrite list_elem_of_fmap. split.
    - intros ([q' r] & -> & (s & h & n & -> & _ & Hq)%Hin). eauto.
    - intros (s & h & n & -> & Hq). exists ([TMP_DIR; s; h; n], range_of n). split; [done|]. apply Hin.
      exists s, h, n. done. }
  assert ((forall s h n c, p = [TMP_DIR; s; h; n] -> fs !! p <> Some c) ->
    (forall s h n c, p = [SERIES_DIR; s; h; n] -> covered lf (range_of n) = true ->
      fs !! [TMP_DIR; s; h; n] <> Some c) -> fs' !! p = fs !! p) as Hkeep.
  { intros H1 H2. apply Hk; [rewrite Hin1; intros (s & h & n & -> & [c Hc]); by eapply H1|].
    intros q r (s & h & n & -> & [= <-] & [c Hc])%Hin Hcov ->. by eapply H2. }
  destruct p as [|d [|s [|h [|n [|x p]]]]]; try (by apply Hkeep).
  destruct (decide (d = TMP_DIR)) as [->|Hd].
  { destruct (fs !! [TMP_DIR; s; h; n]) as [c|] eqn:E; [apply Hg, Hin1; by eauto 6|].
    rewrite Hkeep; [done|by intros; congruence|done]. }
  destruct (decide (d = SERIES_DIR)) as [->|Hd'].
  2: { apply Hkeep; intros s' h' n' c' [= -> -> -> ->]; done. }
  destruct (covered lf (range_of n)) eqn:Ecov.
  2: { apply Hkeep; [by intros s' h' n' c' [=]|]. intros s' h' n' c' [= -> -> ->]. congruence. }
  destruct (fs !! [TMP_DIR; s; h; n]) as [c|] eqn:E.
  - rewrite <-E. apply (Hm [TMP_DIR; s; h; n] (range_of n)); [|done]. apply Hin. exists s, h, n. eauto.
  - apply Hkeep; [by intros s' h' n' c' [=]|]. intros s' h' n' c' [= -> -> ->]. congruence.
Qed.

(** After the files directly in [tmp/]. *)
Lemma runs_flat fs : exists fs',
  runs (io_each (fun n => _ ← file_len (tmp_dir ++ [n]); ignore (remove_file (tmp_dir ++ [n])))
          (names_of fs tmp_dir)) fs fs' (Ret tt) /\
  forall p, fs' !! p = match p with [d; n] => if decide (d = TMP_DIR) then None else fs !! p | _ => fs !! p end.
Proof.
  destruct (runs_remove_each (fun n => _ ← file_len (tmp_dir ++ [n]); ignore (remove_file (tmp_dir ++ [n])))
    (fun n => Some (tmp_dir ++ [n])) (names_of fs tmp_dir) fs) as (fs' & Hr & Hl).
  { intros n fs0 _. destruct (runs_file_len_any (tmp_dir ++ [n]) fs0) as [r Hr].
    eapply runs_bind; [exact Hr|]. apply runs_ignore_remove. }
  exists fs'. split; [exact Hr|]. intros p. rewrite Hl.
  assert (Some p ∈ (fun n => Some (tmp_dir ++ [n])) <$> names_of fs tmp_dir <->
    exists n, p = [TMP_DIR; n] /\ is_Some (fs !! p)) as Hin.
  { rewrite list_elem_of_fmap. split.
    - intros (n & [= ->] & Hn%elem_of_names). by exists n.
    - intros (n & -> & Hn). exists n. split; [done|]. by apply elem_of_names. }
  destruct (decide (Some p ∈ _)) as [(n & -> & _)%Hin|Hn]; [done|].
  destruct p as [|d [|n [|x p]]]; try done. case_decide as E; [subst d|done].
  destruct (fs !! [TMP_DIR; n]) eqn:E; [|done]. exfalso. apply Hn, Hin. eauto.
Qed.

(** After the files of [series/]. *)
Lemma runs_outputs lf fs : exists l fs', runs output_files fs fs (Ret l) /\
  runs (io_each (fun '(p, (_, last_, _)) =>
          if last_ <=? lf then mret tt else ignore (remove_file p)) l) fs fs' (Ret tt) /\
  forall p, fs' !! p = match p with
    | [d; s; h; n] =>
        if decide (d = SERIES_DIR) then
          match range_of n with
          | Some (_, last_, _) => if last_ <=? lf then fs !! p else None
          | None => fs !! p
          end
        else fs !! p
    | _ => fs !! p
    end.
Proof.
  destruct (runs_output_files fs) as (l & Hrun & Hl).
  set (f := fun '(p, (_, last_, _)) => if last_ <=? lf then mret tt else ignore (remove_file p)).
  set (g := fun x : path * (Z * Z * Z) => if x.2.1.2 <=? lf then None else Some x.1).
  destruct (runs_remove_each f g l fs) as (fs' & Hr & Hf).
  { intros [p [[a last_] e]] fs0 _. unfold f, g. cbn. destruct (last_ <=? lf); [done|apply runs_ignore_remove]. }
  exists l, fs'. split_and!; [done|done|]. intros p. rewrite Hf.
  assert (Some p ∈ g <$> l <-> exists s h n a last_ e, p = [SERIES_DIR; s; h; n] /\
    range_of n = Some (a, last_, e) /\ (last_ <=? lf) = false /\ is_Some (fs !! p)) as Hin.
  { rewrite list_elem_of_fmap. split.
    - intros ([q [[a last_] e]] & Eg & (s & h & n & -> & Ho & Hs)%(elem_of_Permutation_proper _ _ _ Hl)%elem_of_tree).
      unfold g in Eg. cbn in Eg. destruct (last_ <=? lf) eqn:El; [done|]. injection Eg as ->. eauto 10.
    - intros (s & h & n & a & last_ & e & -> & Ho & El & Hs). exists ([SERIES_DIR; s; h; n], (a, last_, e)).
      unfold g. cbn. rewrite El. split; [done|]. rewrite Hl. apply elem_of_tree. eauto 6. }
  destruct (decide (Some p ∈ _)) as [(s & h & n & a & last_ & e & -> & Ho & El & _)%Hin|Hn].
  { rewrite decide_True by done. by rewrite Ho, El. }
  destruct p as [|d [|s [|h [|n [|x p]]]]]; try done. case_decide as E; [subst d|done].
  destruct (range_of n) as [[[a last_] e]|] eqn:Ho; [|done]. destruct (last_ <=? lf) eqn:El; [done|].
  destruct (fs !! [SERIES_DIR; s; h; n]) eqn:E; [|done]. exfalso. apply Hn, Hin. eauto 12.
Qed.

Lemma runs_sweep lf fs : exists fs',
  runs (sweep_uncommitted lf) fs fs' (Ret tt) /\ forall p, fs' !! p = swept lf fs p.
Proof.
  destruct (runs_clear_runs fs) as (fs1 & H1 & L1).
  destruct (runs_staged_files fs1) as (l & Hlist & Hl).
  assert (forall q, q ∈ l.*1 -> exists s h n, q = [TMP_DIR; s; h; n] /\ is_Some (fs1 !! q)) as Hin.
  { intros q ([q' r] & -> & (s & h & n & -> & _ & Hs)%(elem_of_Permutation_proper _ _ _ Hl)%elem_of_tree)%list_elem_of_fmap.
    eauto 6. }
  destruct (runs_sweep_each lf l fs1) as (fs2 & H2 & Hh).
  - rewrite Hl. apply NoDup_tree.
  - apply Forall_forall. intros q (s & h & n & -> & _)%Hin. by exists s, h, n.
  - intros q (s & h & n & -> & Hs)%Hin. done.
  - pose proof (handled_tree lf l fs1 fs2 Hl Hh) as L2.
    destruct (runs_flat fs2) as (fs3 & H3 & L3). destruct (runs_outputs lf fs3) as (out & fs4 & H4 & H5 & L4).
    exists fs4. split.
    + eapply runs_bind; [exact H1|]. eapply runs_bind; [exact Hlist|]. eapply runs_bind; [exact H2|].
      eapply runs_bind; [apply runs_names|]. eapply runs_bind; [exact H3|]. by eapply runs_bind.
    + intros p. rewrite L4, L3, L2. unfold swept.
      destruct p as [|d [|s [|h [|n [|x p]]]]]; rewrite ?L1; cbn [head]; try done.
      * destruct (decide (Some d = Some RUNS_DIR)) as [E|]; [|done]. injection E as ->. by rewrite decide_False.
      * destruct (decide (Some d = Some RUNS_DIR)) as [E|]; [injection E as ->; by rewrite !decide_False|].
        destruct (decide (d = TMP_DIR)) as [->|]; [by rewrite decide_False|].
        destruct (decide (d = SERIES_DIR)); [|done].
        destruct (range_of n) as [[[a last_] ep]|]; cbn; [|done]. by destruct (last_ <=? lf).
Qed.
