(* ===== verification/SweepCrash.v ===== *)
(** * SweepCrash: an interrupted sweep can be repeated

    Every step of the sweep, whatever errors it meets and wherever it stops, leaves
    files whose sweep has the same result. *)

From Stdlib Require Import ZArith Lia.
From Stdlib Require Import Strings.Byte.
From S2P Require Import Prelude Text Record Disk Wal Merge Columns Planner Local FlushLocal FlushCrash Sweep.
Open Scope Z_scope.

(** ** Listings under any script *)

Lemma local_to_flat_map {A B : Type} (D : path -> Prop) (P : A -> Prop) (Q : B -> Prop) (f : A -> io (list B)) l :
  (forall x, P x -> local_to D (Forall Q) (f x)) -> Forall P l -> local_to D (Forall Q) (io_flat_map f l).
Proof.
  intros Hf. induction 1 as [|x l Hx _ IH]; cbn; [by apply local_to_ret|].
  eapply local_to_bind; [by apply Hf|]. intros a Ha. eapply local_to_bind; [exact IH|]. intros b Hb.
  apply local_to_ret. by apply Forall_app.
Qed.

Lemma local_to_listing {A : Type} (D : path -> Prop) (m : io (result IoError (list A))) :
  local D m -> local_to D (Forall (fun _ => True)) (or_empty m).
Proof. intros Hm. apply local_to_any; [intros l; by apply Forall_true|by apply local_or_empty]. Qed.

(** The directories a listing visits. *)
Lemma local_to_dirs (D : path -> Prop) root series : Forall (fun _ => True) series ->
  local_to D (Forall (fun d : path => exists s h, d = [root; s; h]))
    (io_flat_map (fun s => hours ← or_empty (read_subdirs [root; s]);
                           mret ((fun h => [root; s; h]) <$> (hours : list bytes))) series).
Proof.
  intros Hs. eapply local_to_flat_map; [|exact Hs]. intros s _.
  eapply local_to_bind; [apply local_to_listing, local_read_subdirs|]. intros hours _.
  apply local_to_ret. apply Forall_fmap, Forall_true. intros h. by exists s, h.
Qed.

Definition staged_entry (f : path * option (Z * Z * Z)) : Prop :=
  exists s h n, f = ([TMP_DIR; s; h; n], range_of n).

Lemma local_to_staged_files D : local_to D (Forall staged_entry) staged_files.
Proof.
  unfold staged_files. eapply local_to_bind; [apply local_to_listing, local_read_subdirs|]. intros series Hs.
  eapply local_to_bind; [by apply (local_to_dirs D TMP_DIR)|]. intros dirs Hd.
  eapply (local_to_bind _ (Forall staged_entry)).
  - eapply local_to_flat_map; [|exact Hd]. intros d (s & h & ->).
    eapply local_to_bind; [apply local_to_listing, local_read_dir|]. intros names _. apply local_to_ret.
    apply Forall_fmap, Forall_true. intros n. by exists s, h, n.
  - intros l Hl. apply local_to_ret. rewrite Forall_forall in *. intros f Hf. apply Hl. by apply elem_of_sort in Hf.
Qed.

Definition output_entry (f : path * (Z * Z * Z)) : Prop :=
  exists s h n, f.1 = [SERIES_DIR; s; h; n] /\ range_of n = Some f.2.

Lemma local_to_output_files D : local_to D (Forall output_entry) output_files.
Proof.
  unfold output_files. eapply local_to_bind; [apply local_to_listing, local_read_subdirs|]. intros series Hs.
  eapply local_to_bind; [by apply (local_to_dirs D SERIES_DIR)|]. intros dirs Hd.
  eapply (local_to_bind _ (Forall output_entry)).
  - eapply local_to_flat_map; [|exact Hd]. intros d (s & h & ->).
    eapply local_to_bind; [apply local_to_listing, local_read_dir|]. intros names _. apply local_to_ret.
    apply Forall_forall. intros f (n & _ & E)%list_elem_of_omap. exists s, h, n.
    fold (range_of n) in E. destruct (range_of n) as [r|]; [|done]. cbn in E. by injection E as <-.
  - intros l Hl. apply local_to_ret. rewrite Forall_forall in *. intros f Hf. apply Hl. by apply elem_of_sort in Hf.
Qed.

(** ** Steps that do not change the outcome *)

Section crash.
Context (lf : Z) (fs0 : Files).

Definition same_sweep (fs : Files) : Prop := forall p, swept lf fs p = swept lf fs0 p.

(** Files no sweep keeps and no sweep reads. *)
Definition debris (p : path) : Prop :=
  head p = Some RUNS_DIR \/ (exists n, p = [TMP_DIR; n]) \/
  (exists s h n, p = [TMP_DIR; s; h; n] /\ covered lf (range_of n) = false) \/
  (exists s h n r, p = [SERIES_DIR; s; h; n] /\ range_of n = Some r /\ covered lf (range_of n) = false).

Lemma swept_debris fs fs' : keeps debris fs fs' -> forall p, swept lf fs' p = swept lf fs p.
Proof.
  intros Hk p. unfold swept. destruct (decide (head p = Some RUNS_DIR)) as [|Hr]; [done|].
  assert (~ debris p -> fs' !! p = fs !! p) as Hp by apply Hk.
  destruct p as [|d [|s [|h [|n [|x p]]]]];
    try (apply Hp; intros [E|[(? & E)|[(? & ? & ? & E & _)|(? & ? & ? & ? & E & _)]]]; done).
  - case_decide as Ed; [done|]. apply Hp. intros [E|[(? & E)|[(? & ? & ? & E & _)|(? & ? & ? & ? & E & _)]]]; [done|congruence|done|done].
  - case_decide as Ed; [done|]. case_decide as Es.
    + subst d. assert (covered lf (range_of n) = true \/ range_of n = None ->
        fs' !! [SERIES_DIR; s; h; n] = fs !! [SERIES_DIR; s; h; n]) as Hser.
      { intros Hc. apply Hp. intros [E|[(? & E)|[(? & ? & ? & E & _)|(? & ? & ? & r & E & Er & Ec)]]]; [done|done|done|].
        injection E as -> -> ->. destruct Hc as [Hc|Hc]; congruence. }
      destruct (range_of n) as [[[a last_] e]|] eqn:En; [|by apply Hser; right].
      destruct (last_ <=? lf) eqn:El; [|done]. rewrite Hser by (by left).
      rewrite Hk; [done|]. intros [E|[(? & E)|[(? & ? & ? & E & Ec)|(? & ? & ? & ? & E & _)]]]; [done|done| |done].
      injection E as -> -> ->. rewrite En in Ec. cbn in Ec. congruence.
    + apply Hp. intros [E|[(? & E)|[(? & ? & ? & E & _)|(? & ? & ? & ? & E & _)]]]; [done|done|congruence|congruence].
Qed.

Lemma swept_promote s h n c fs : covered lf (range_of n) = true -> fs !! [TMP_DIR; s; h; n] = Some c ->
  forall p, swept lf (<[[SERIES_DIR; s; h; n] := c]> (delete [TMP_DIR; s; h; n] fs)) p = swept lf fs p.
Proof.
  intros Hc Ht p. set (fs' := <[_ := c]> _).
  assert (forall q, q <> [SERIES_DIR; s; h; n] -> q <> [TMP_DIR; s; h; n] -> fs' !! q = fs !! q) as Hk.
  { intros q H1 H2. unfold fs'. by rewrite lookup_insert_ne, lookup_delete_ne. }
  unfold swept. destruct (decide (head p = Some RUNS_DIR)) as [|Hr]; [done|].
  destruct p as [|d [|s' [|h' [|n' [|x p]]]]]; try (by apply Hk).
  - case_decide; [done|]. by apply Hk.
  - case_decide as Ed; [done|]. case_decide as Es; [subst d|apply Hk; congruence].
    destruct (decide ([s'; h'; n'] = [s; h; n])) as [E|Hne].
    + injection E as -> -> ->. destruct (range_of n) as [[[a last_] e]|]; [|done]. cbn in Hc. rewrite Hc, Ht.
      unfold fs'. rewrite lookup_insert_eq. by rewrite lookup_insert_ne, lookup_delete_eq by done.
    + rewrite !Hk by congruence. done.
Qed.

Lemma triple_debris {A : Type} (Q : A -> Prop) (m : io A) : local_to debris Q m ->
  triple same_sweep m same_sweep (fun a fs => same_sweep fs /\ Q a).
Proof.
  intros [Hm HQ] w Hw. assert (same_sweep (files (m w).1)) as Hs.
  { intros p. rewrite <-Hw. by apply swept_debris, local_keeps. }
  split; [done|]. specialize (HQ w). by destruct (m w).2.
Qed.

Lemma triple_debris_unit {A : Type} (m : io A) : local debris m ->
  triple same_sweep m same_sweep (fun _ => same_sweep).
Proof.
  intros Hm. eapply triple_conseq; [apply (triple_debris (fun _ => True)); by apply local_to_any|done|].
  by intros a fs [? _].
Qed.

Lemma triple_promote_covered s h n : covered lf (range_of n) = true ->
  triple same_sweep (promote [TMP_DIR; s; h; n]) same_sweep (fun _ => same_sweep).
Proof.
  intros Hc. unfold promote. rewrite staged_under by (by exists s, h, n). cbn [negb].
  eapply triple_bind; [by idle|]. intros [].
  eapply (triple_bind _ _ (fun _ => same_sweep)).
  { apply triple_try. eapply triple_conseq; [apply (triple_rename same_sweep)|done|]; [done| |].
    - intros fs c Hs Hl p. rewrite <-Hs. by apply swept_promote.
    - intros [[]|e] fs; [|by destruct e; [intros [? _]|..]].
      intros (fs1 & c & Hs & Hl & ->) p. rewrite <-Hs. by apply swept_promote. }
  intros []. do 2 (eapply triple_bind; [by idle|]; intros []). by idle.
Qed.

Lemma triple_sweep_staged f : staged_entry f ->
  triple same_sweep (sweep_staged lf f) same_sweep (fun _ => same_sweep).
Proof.
  intros (s & h & n & ->). unfold sweep_staged. cbn [fst snd].
  assert (covered lf (range_of n) = false ->
    triple same_sweep (try (remove_file [TMP_DIR; s; h; n])) same_sweep (fun _ => same_sweep)) as Hrm.
  { intros Hc. apply triple_debris_unit. local_solve. right. right. left. by exists s, h, n. }
  destruct (range_of n) as [[[a last_] e]|] eqn:En; [|by apply Hrm].
  destruct (last_ <=? lf) eqn:El; [|by apply Hrm]. apply triple_promote_covered. by rewrite En.
Qed.

Lemma triple_sweep : triple same_sweep (sweep_uncommitted lf) same_sweep (fun _ => same_sweep).
Proof.
  unfold sweep_uncommitted. eapply triple_bind.
  { apply triple_debris_unit. eapply local_mono; [|apply local_clear_runs]. by left. }
  intros []. eapply triple_bind; [apply triple_debris, local_to_staged_files|]. intros staged.
  apply (triple_pure _ _ _ _ (Forall staged_entry staged)); [by intros fs [_ ?]|]. intros Hst.
  apply (triple_bind _ _ (fun _ => same_sweep)).
  { eapply triple_conseq; [apply (triple_each same_sweep)|by intros fs [? _]|done]; [done|].
    intros f Hf. apply triple_sweep_staged. rewrite Forall_forall in Hst. by apply Hst. }
  intros []. eapply triple_bind; [apply triple_debris_unit; local_solve|]. intros flat.
  eapply triple_bind.
  { apply triple_debris_unit. apply local_each. intros n _. local_solve. right. left. by exists n. }
  intros []. eapply triple_bind; [apply triple_debris, local_to_output_files|]. intros out.
  apply (triple_pure _ _ _ _ (Forall output_entry out)); [by intros fs [_ ?]|]. intros Ho.
  eapply triple_conseq; [apply triple_debris_unit|by intros fs [? _]|done].
  apply local_each. intros [p [[a last_] e]] Hin. rewrite Forall_forall in Ho.
  destruct (Ho _ Hin) as (s & h & n & Ep & Er). cbn in Ep, Er. destruct (last_ <=? lf) eqn:El; [local_solve|].
  local_solve. right. right. right. exists s, h, n, (a, last_, e). by rewrite Er.
Qed.
End crash.

(** C31: The sweep survives its own interruptions: after any sweep, whatever I/O errors
    it met and wherever it stopped, a sweep that runs to its end leaves exactly the
    files that one uninterrupted sweep of the original directory leaves. *)
Theorem sweep_restartable lf w : exists fs',
  runs (sweep_uncommitted lf) (files w) fs' (Ret tt) /\
  runs (sweep_uncommitted lf) (files (sweep_uncommitted lf w).1) fs' (Ret tt).
Proof.
  destruct (triple_sweep lf (files w) w) as [Hs _]; [by intros p|].
  destruct (runs_sweep lf (files w)) as (fs1 & Hr1 & L1).
  destruct (runs_sweep lf (files (sweep_uncommitted lf w).1)) as (fs2 & Hr2 & L2).
  exists fs1. split; [done|]. enough (fs2 = fs1) as <- by done. apply map_eq. intros p.
  by rewrite L2, L1, Hs.
Qed.
