(* ===== verification/SweepTheorems.v ===== *)
(** * SweepTheorems: interrupted flushes are settled at the next start *)

From Stdlib Require Import ZArith Lia.
From Stdlib Require Import Strings.Byte.
From S2P Require Import Prelude Text Record Codec CodecTheorems Disk Calls Wal Reader Recovery Merge MergeProofs BatchProofs Time Config Manifest Columns ColumnsProofs ColumnsTheorems Planner Decode Local FlushLocal FlushRows FlushTable FlushStage FlushStaged FlushCrash FlushTheorems PowerCut Sweep.
Open Scope Z_scope.

Lemma output_name_ascii first last_ epoch : 0 <= first -> 0 <= last_ -> 0 <= epoch ->
  utf8_valid (output_file_name first last_ epoch) = true.
Proof.
  intros Hf Hl He. apply utf8_ascii. unfold output_file_name. rewrite (show_as_pad epoch) by done.
  assert (forall w n b, 0 <= n -> b ∈ show_pad w n -> byte_val b < 128) as Hd.
  { intros w n b Hn Hb. pose proof (show_pad_digits w n Hn) as Hs. rewrite all_digits_spec in Hs. by apply digit_ascii, Hs. }
  intros b. rewrite !elem_of_app. intros [Hb|[Hb|[Hb|[Hb|[Hb|Hb]]]]]; [by apply (Hd _ _ _ Hf Hb)| |by apply (Hd _ _ _ Hl Hb)| |by apply (Hd _ _ _ He Hb)|];
    revert b Hb; apply Forall_forall; apply (bool_decide_unpack _); vm_compute; exact I.
Qed.

Lemma range_of_staged first last_ epoch :
  0 <= first < u64_lim -> 0 <= last_ < u64_lim -> 0 <= epoch < u32_lim ->
  range_of (output_file_name first last_ epoch) = Some (first, last_, epoch).
Proof.
  intros Hf Hl He. unfold range_of. rewrite output_name_ascii by lia. by apply parse_output_name.
Qed.

(** C25: The sweep. Without faults it always succeeds, and the files afterwards are the
    ones [swept] describes: [runs/] and everything staged in [tmp/] are gone, a staged
    file the watermark covers is in its place in [series/] with its content, parquet
    files beyond the watermark are gone from [series/], and every other file is as it
    was. A second sweep changes nothing. *)
Theorem sweep_exact lf fs : exists fs',
  runs (sweep_uncommitted lf) fs fs' (Ret tt) /\
  (forall p, fs' !! p = swept lf fs p) /\
  runs (sweep_uncommitted lf) fs' fs' (Ret tt).
Proof.
  destruct (runs_sweep lf fs) as (fs' & Hr & Hl). exists fs'. split_and!; [done|done|].
  destruct (runs_sweep lf fs') as (fs'' & Hr' & Hl'). enough (fs'' = fs') as -> by done.
  apply map_eq. intros p. rewrite Hl'. unfold swept at 1.
  destruct (decide (head p = Some RUNS_DIR)) as [E|E].
  { rewrite Hl. unfold swept. by rewrite decide_True. }
  destruct p as [|d [|s [|h [|n [|x p]]]]]; try done.
  - destruct (decide (d = TMP_DIR)) as [->|]; [|done]. by rewrite Hl.
  - destruct (decide (d = TMP_DIR)) as [->|Hd]; [by rewrite Hl|].
    destruct (decide (d = SERIES_DIR)) as [->|]; [|done].
    destruct (range_of n) as [[[a last_] e]|] eqn:En; [|done].
    assert (fs' !! [TMP_DIR; s; h; n] = None) as -> by (by rewrite Hl).
    destruct (last_ <=? lf) eqn:El; [done|]. rewrite Hl. unfold swept.
    rewrite decide_False by done. rewrite decide_False by done. rewrite decide_True by done. by rewrite En, El.
Qed.

(** ** Flush, crash, sweep *)

(** No file is staged, and every output file is covered by the watermark. *)
Definition settled (lf : Z) (fs : Files) : Prop :=
  (forall s h n, fs !! [TMP_DIR; s; h; n] = None) /\
  (forall s h n a last_ e, is_Some (fs !! [SERIES_DIR; s; h; n]) ->
    range_of n = Some (a, last_, e) -> last_ <= lf).

Lemma swept_settled lf fs fs' : (forall p, fs' !! p = swept lf fs p) -> settled lf fs'.
Proof.
  intros Hl. split; [intros; by rewrite Hl|]. intros s h n a last_ e [c Hc] En. rewrite Hl in Hc.
  unfold swept in Hc. rewrite decide_False in Hc by done. rewrite decide_False in Hc by done.
  rewrite decide_True, En in Hc by done. by destruct (last_ <=? lf) eqn:El; [apply Z.leb_le|].
Qed.

(** A series file after the sweep. *)
Lemma swept_series lf fs s h n : swept lf fs [SERIES_DIR; s; h; n] =
  match range_of n with
  | Some (_, last_, _) =>
      if last_ <=? lf then
        match fs !! [TMP_DIR; s; h; n] with Some c => Some c | None => fs !! [SERIES_DIR; s; h; n] end
      else None
  | None => fs !! [SERIES_DIR; s; h; n]
  end.
Proof. done. Qed.

Section flush.
Context `{Crc32} `{Parquet} `{ManifestJson}.

Lemma series_not_touchable fs0 s h n : ~ touchable fs0 [SERIES_DIR; s; h; n].
Proof. intros [[Hp|Hp]|[(id & _ & Hp)|(id & c & _ & Hp & _)]]; done. Qed.

Lemma tmp_not_touchable fs0 s h n : ~ touchable fs0 [TMP_DIR; s; h; n].
Proof. intros [[Hp|Hp]|[(id & _ & Hp)|(id & c & _ & Hp & _)]]; done. Qed.

Lemma staged_ok_range first last_ s h n :
  0 <= first < u64_lim -> 0 <= last_ < u64_lim -> staged_ok first last_ [TMP_DIR; s; h; n] ->
  exists e, range_of n = Some (first, last_, e).
Proof.
  intros Hf Hl (s' & h' & e & He & E). injection E as -> -> ->. exists e. by apply range_of_staged.
Qed.

(** Before the commit point, nothing of the flush survives the sweep. *)
Lemma uncommitted_swept m ids fs0 fs s h n : settled (last_flushed_segment m) fs0 ->
  Forall (fun id => last_flushed_segment m < id < u64_lim /\ 0 <= id) ids ->
  uncommitted m ids fs0 fs ->
  swept (last_flushed_segment m) fs [SERIES_DIR; s; h; n] = fs0 !! [SERIES_DIR; s; h; n].
Proof.
  intros [Htmp Hout] Hids [_ Hk]. rewrite swept_series.
  assert (fs !! [SERIES_DIR; s; h; n] = fs0 !! [SERIES_DIR; s; h; n]) as Es.
  { apply Hk. intros [[Hp|(f & l & _ & _ & ? & ? & ? & _ & E)]|[E|E]]; try done. by apply series_not_touchable in Hp. }
  destruct (range_of n) as [[[a last_] e]|] eqn:En; [|done]. destruct (last_ <=? _) eqn:El.
  - destruct (fs !! [TMP_DIR; s; h; n]) as [c|] eqn:Et; [|done]. exfalso. apply Z.leb_le in El.
    rewrite Hk in Et; [by rewrite Htmp in Et|].
    intros [[Hp|(f & l & Hf & Hl & Hp)]|[E|E]]; try done; [by apply tmp_not_touchable in Hp|].
    rewrite Forall_forall in Hids. pose proof (Hids f Hf). pose proof (Hids l Hl).
    destruct (staged_ok_range f l s h n) as (e' & Er); [lia|lia|done|].
    rewrite Er in En. injection En as -> -> ->. lia.
  - destruct (fs0 !! [SERIES_DIR; s; h; n]) eqn:E0; [|done]. apply Z.leb_gt in El.
    pose proof (Hout s h n a last_ e (ltac:(by rewrite E0)) En). lia.
Qed.

(** After it, exactly what was staged is published. *)
Lemma committed_swept m now fs0 fs1 staged consumed fs s h n : settled (last_flushed_segment m) fs0 ->
  consumed <> [] -> Forall (fun id => last_flushed_segment m < id < u64_lim /\ 0 <= id) consumed ->
  committed_at m now fs0 fs1 staged consumed fs ->
  swept (Z.max (last_flushed_segment m) (List.last consumed 0)) fs [SERIES_DIR; s; h; n] =
    if decide ([TMP_DIR; s; h; n] ∈ staged) then fs1 !! [TMP_DIR; s; h; n]
    else fs0 !! [SERIES_DIR; s; h; n].
Proof.
  intros [Htmp Hout] Hne Hids [_ Hb Hst Hcomp Hin Hafter]. rewrite swept_series.
  pose proof (staged_is_staged _ _ _ Hst) as Hst'. rewrite Forall_forall in Hst, Hst', Hcomp.
  assert (forall id, id ∈ consumed -> last_flushed_segment m < id < u64_lim /\ 0 <= id) as Hid by (by apply Forall_forall).
  assert (List.last consumed 0 ∈ consumed) as Hlast by (by apply last_elem).
  assert (hd 0 consumed ∈ consumed) as Hhd by (destruct consumed; [done|by left]).
  pose proof (Hid _ Hlast). pose proof (Hid _ Hhd).
  destruct (decide ([TMP_DIR; s; h; n] ∈ staged)) as [Hp|Hn].
  - destruct (staged_ok_range (hd 0 consumed) (List.last consumed 0) s h n) as (e & ->); [lia|lia|by apply Hst|].
    rewrite (proj2 (Z.leb_le _ _)) by lia. destruct (Hcomp _ Hp) as (? & ? & ? & Hc). rewrite Hc.
    destruct (Hin _ _ Hp Hc) as [-> |[-> Hs]]; [done|]. exact Hs.
  - assert (fs !! [TMP_DIR; s; h; n] = None) as ->.
    { rewrite Hafter, Hb; [apply Htmp| |].
      - intros [Hp|Hp]; [by apply tmp_not_touchable in Hp|done].
      - intros [[Hp|[Hp|[(id & _ & E)|(name & E)]]]|[[E|E]|Hp]]; try done.
        apply list_elem_of_fmap in Hp as (q & E & Hq). destruct (Hst' q Hq) as (? & ? & ? & ->). done. }
    assert (fs !! [SERIES_DIR; s; h; n] = fs0 !! [SERIES_DIR; s; h; n]) as ->.
    { rewrite Hafter, Hb; [done| |].
      - intros [Hp|Hp]; [by apply series_not_touchable in Hp|]. by destruct (Hst' _ Hp) as (? & ? & ? & E).
      - intros [[Hp|[Hp|[(id & _ & E)|(name & E)]]]|[[E|E]|Hp]]; try done.
        + by destruct (Hst' _ Hp) as (? & ? & ? & E).
        + apply list_elem_of_fmap in Hp as (q & E & Hq). destruct (Hst' q Hq) as (? & ? & ? & ->).
          injection E as -> -> ->. done. }
    destruct (range_of n) as [[[a last_] e]|] eqn:En; [|done]. destruct (last_ <=? _) eqn:El; [done|].
    destruct (fs0 !! [SERIES_DIR; s; h; n]) eqn:E0; [|done]. apply Z.leb_gt in El.
    pose proof (Hout s h n a last_ e (ltac:(by rewrite E0)) En). lia.
Qed.

Lemma swept_segment lf fs id : swept lf fs (segment_path id) = fs !! segment_path id.
Proof. done. Qed.

(** [series/] holds one table per group and hour of the consumed segments' records,
    with exactly the rows of that hour, each row once. *)
Definition series_tables (flush : FlushConfig) (m : Manifest) (fs0 : Files) (consumed : list Z) (fs : Files) : Prop :=
  let all := flush_heads m fs0 consumed in
  forall g part, g ∈ groups_of all -> part ∈ group_parts all g ->
  exists props, writer_properties g.1 g.2 (compression flush) = Ok props /\
    fs !! [SERIES_DIR; g.1; hour_partition (h_ts (hd no_head part));
           output_file_name (hd 0 consumed) (List.last consumed 0) g.2] =
      Some (table_file (keys_in m g) props (Nat.max (Z.to_nat (row_group_rows flush)) 1)
              (part_rows (keys_in m g) part)).

Lemma tables_published flush m ids fs0 fs1 fs staged consumed : tables flush m ids fs0 fs1 staged consumed ->
  (forall s h n, [TMP_DIR; s; h; n] ∈ staged.*2 -> fs !! [SERIES_DIR; s; h; n] = fs1 !! [TMP_DIR; s; h; n]) ->
  series_tables flush m fs0 consumed fs.
Proof.
  intros [_ Ef Hcl] Hp g part Hg Hpart. unfold tables_closed, groups_closed in Hcl. rewrite Forall_forall in Hcl.
  specialize (Hcl g Hg). rewrite Forall_forall in Hcl. destruct (Hcl part Hpart) as (props & Hprops & _ & Hl).
  exists props. split; [done|]. rewrite <-Hl, Hp; [done|]. rewrite Ef. unfold table_files.
  apply list_elem_of_fmap. exists (written_of g.1 g.2 (file_name (hd 0 consumed) (List.last consumed 0) g) part).
  split; [done|]. apply list_elem_of_In, in_concat. eexists. rewrite <-!list_elem_of_In.
  split; [by apply list_elem_of_fmap_2|]. by apply list_elem_of_fmap_2.
Qed.

(** C1: A flush is all or nothing, power cuts included. Start from a settled directory whose
    manifest is the one in memory, and flush segments beyond the watermark under any I/O
    errors and up to any stop. Let [fs] be what is then on the disk: what the flush left,
    except that the files with bytes it had not synced may hold anything or be gone. At the
    next start sweep with the watermark of the manifest on disk. Either the manifest is the
    old one and [series/] holds exactly the files it held and every readable segment is
    still there; or the manifest covers the consumed segments, [series/] holds the old
    files and exactly the staged ones, each complete, and every readable segment that was
    not consumed is still there. In a directory within the program's bounds those new
    files are exactly one table per series, epoch and hour of the consumed segments'
    records, each holding exactly the rows of its hour in order, each row once. *)
Theorem flush_all_or_nothing c m segments now w fs :
  manifest_typed m -> 0 <= now < u64_lim ->
  Forall (fun id => last_flushed_segment m < id < u64_lim) segments ->
  loads (files w) m -> settled (last_flushed_segment m) (files w) ->
  power_cut (dirty ∅ (trace (run c m segments now) w)) (files (run c m segments now w).1) fs ->
  let fs0 := files w in
  exists m1 fs', loads fs m1 /\
    runs (sweep_uncommitted (last_flushed_segment m1)) fs fs' (Ret tt) /\
    settled (last_flushed_segment m1) fs' /\
    ((m1 = m /\
      (forall s h n, fs' !! [SERIES_DIR; s; h; n] = fs0 !! [SERIES_DIR; s; h; n]) /\
      (forall id buf, 0 <= id -> fs0 !! segment_path id = Some buf -> ~ bad_header buf ->
        fs' !! segment_path id = Some buf)) \/
     (exists fs1 staged consumed, m1 = with_watermark m (List.last consumed 0) now /\
      consumed <> [] /\ sublist consumed (run_ids segments) /\ Forall (complete fs1) staged.*2 /\
      (forall s h n, fs' !! [SERIES_DIR; s; h; n] =
        if decide ([TMP_DIR; s; h; n] ∈ staged.*2) then fs1 !! [TMP_DIR; s; h; n]
        else fs0 !! [SERIES_DIR; s; h; n]) /\
      (fits m (run_ids segments) fs0 ->
        tables (cfg_flush c) m (run_ids segments) fs0 fs1 staged consumed /\
        series_tables (cfg_flush c) m fs0 consumed fs') /\
      (forall id buf, 0 <= id -> id ∉ consumed -> fs0 !! segment_path id = Some buf -> ~ bad_header buf ->
        fs' !! segment_path id = Some buf))).
Proof.
  intros Hm Hnow Hseg Hload Hset Hcut fs0. pose proof (mt_last _ Hm) as Hlf.
  assert (Forall (fun id => last_flushed_segment m < id < u64_lim /\ 0 <= id) (run_ids segments)) as Hids.
  { apply run_ids_ok. eapply Forall_impl; [exact Hseg|]. cbn. lia. }
  assert (Forall (fun id => 0 <= id) (run_ids segments)) as Hids0 by (eapply Forall_impl; [exact Hids|]; cbn; lia).
  assert (Forall (fun id => 0 <= id < u64_lim) segments) as Hseg0 by (eapply Forall_impl; [exact Hseg|]; cbn; lia).
  destruct (run_cut c m m segments now w fs Hm Hnow Hseg0 Hload Hcut) as [Hu|(consumed & Hne & Hsub & fs1 & staged & Hc & Htab)].
  - exists m. destruct (runs_sweep (last_flushed_segment m) fs) as (fs' & Hr & Hl). exists fs'.
    split_and!; [by destruct Hu|done|by eapply swept_settled|]. left. split_and!; [done| |].
    + intros s h n. rewrite Hl. by eapply uncommitted_swept.
    + intros id buf Hid Hbuf Hg. rewrite Hl, swept_segment. eapply segment_kept_uncommitted; done.
  - exists (with_watermark m (List.last consumed 0) now).
    destruct (runs_sweep (last_flushed_segment (with_watermark m (List.last consumed 0) now)) fs) as (fs' & Hr & Hl).
    assert (forall s h n, fs' !! [SERIES_DIR; s; h; n] =
      if decide ([TMP_DIR; s; h; n] ∈ staged.*2) then fs1 !! [TMP_DIR; s; h; n] else fs0 !! [SERIES_DIR; s; h; n]) as Hseries.
    { intros s h n. rewrite Hl. cbn. eapply committed_swept; [done|done| |done].
      rewrite Forall_forall in *. intros id Hid. apply Hids. by eapply elem_of_sublist. }
    exists fs'. split_and!; [by destruct Hc|done|by eapply swept_settled|]. right. exists fs1, staged, consumed.
    split_and!; [done|done|done|by destruct Hc|done| |].
    + intros Hf. split; [by apply Htab|]. eapply tables_published; [by apply Htab|].
      intros s h n Hin. by rewrite Hseries, decide_True.
    + intros id buf Hid Hnin Hbuf Hg. rewrite Hl, swept_segment. eapply segment_kept_committed; [|done..].
      rewrite Forall_forall in *. intros i Hi. apply Hids0. by eapply elem_of_sublist.
Qed.
End flush.

(** ** Instances *)

#[local] Existing Instance Crc32_ieee.
#[local] Existing Instance count_parquet.
#[local] Existing Instance NumberJson.

Lemma flush_files_settled : settled 4 flush_files.
Proof.
  assert (forall d s h n, flush_files !! [d; s; h; n] = None) as Hno.
  { intros. unfold flush_files. by rewrite lookup_insert_ne, lookup_singleton_ne by done. }
  split; [intros; apply Hno|]. intros s h n a last_ e [c Hc] _. by rewrite Hno in Hc.
Qed.

(** A power cut between the commit and the publication of the staged file; the rejects,
    which a flush does not sync, are lost. *)
Definition cut_world : World := mkWorld flush_files (repeat Fine 24 ++ [Stop]).
Definition rejects_lost : Files :=
  delete [REJECTS_DIR; lit "0000000005.rej"] (files (run sample_config flush_manifest [5] 7 cut_world).1).

Lemma flush_all_or_nothing_witness :
  exists m1 fs', loads rejects_lost m1 /\
    runs (sweep_uncommitted (last_flushed_segment m1)) rejects_lost fs' (Ret tt) /\ settled (last_flushed_segment m1) fs' /\
    (m1 = flush_manifest \/
     exists consumed, consumed <> [] /\ series_tables (cfg_flush sample_config) flush_manifest flush_files consumed fs').
Proof.
  assert ([REJECTS_DIR; lit "0000000005.rej"] ∈ dirty ∅ (trace (run sample_config flush_manifest [5] 7) cut_world)) as Hin
    by (apply (bool_decide_unpack _); vm_compute; exact I).
  destruct (flush_all_or_nothing sample_config flush_manifest [5] 7 cut_world rejects_lost flush_manifest_typed)
    as (m1 & fs' & H1 & H2 & H3 & H4).
  - split; [discriminate|reflexivity].
  - repeat constructor.
  - exact flush_files_load.
  - exact flush_files_settled.
  - intros p Hp. apply lookup_delete_ne. intros E. apply Hp. rewrite <-E. exact Hin.
  - exists m1, fs'. split; [exact H1|]. split; [exact H2|]. split; [exact H3|].
    destruct H4 as [[E _]|(fs1 & staged & consumed & _ & Hne & _ & _ & _ & Htab & _)]; [left; exact E|right].
    exists consumed. split; [exact Hne|]. apply Htab. exact flush_files_fit.
Defined.
