(* ===== verification/FlushCompletes.v ===== *)
(** * FlushCompletes: total correctness of a flush

    Without faults a flush of readable segments whose timestamps fit returns, and what
    it returns and leaves on disk is determined. *)

From Stdlib Require Import ZArith Lia.
From Stdlib Require Import Strings.Byte.
From S2P Require Import Prelude Text Record Codec CodecProofs CodecTheorems Disk Wal Reader Recovery Merge MergeProofs Sources Bounded BatchProofs Spill Time Config Manifest Columns ColumnsProofs ColumnsTheorems View Planner Local Decode MergeFaults FlushLocal FlushRows FlushTable FlushStage Total FlushTotal FlushStaged FlushCrash FlushTheorems Sweep SweepTheorems.
Open Scope Z_scope.

Section completes.
Context `{Crc32} `{Parquet} `{ManifestJson}.

(** ** The staged files *)

(** The files of different groups and hours have different paths. *)
Lemma table_files_nodup first last_ all : arrivals_distinct all ->
  Forall (fun p => head_ok p.2 /\ 0 <= p.1.2 < u32_lim) all -> NoDup (table_files first last_ all).*2.
Proof.
  intros Hd [Hok Hep]%Forall_and. unfold table_files.
  assert (NoDup (groups_of all)) as Hnd by (unfold groups_of; rewrite (sort_perm id); apply NoDup_remove_dups).
  assert (Forall (fun g => 0 <= g.2 /\ NoDup (part_file g.1 (file_name first last_ g) <$> group_parts all g)) (groups_of all)) as Hg.
  { apply Forall_forall. intros g Hg%elem_of_groups%of_group_nonempty. apply list_elem_of_fmap in Hg as (p & -> & Hp). split.
    - rewrite Forall_forall in Hep. by apply (Hep p Hp).
    - assert (Forall head_ok (of_group p.1 all)) as Hok1.
      { apply Forall_forall. intros h Hh%elem_of_group. rewrite Forall_forall in Hok. apply (Hok _ Hh). }
      pose proof (arrivals_distinct_group _ p.1 Hd) as Hu. eapply part_files_distinct; [by apply merged_ok|].
      by apply by_hour_ok, merged_good. }
  induction Hg as [|g gs [Hg Hparts] Hgs IH]; [constructor|]. apply NoDup_cons in Hnd as [Hn Hnd].
  cbn [fmap list_fmap concat]. rewrite fmap_app. apply NoDup_app. split_and!; [by rewrite group_files_paths| |by apply IH].
  intros p Hp Hp'. rewrite group_files_paths in Hp. apply list_elem_of_fmap in Hp as (part & -> & _).
  apply list_elem_of_fmap in Hp' as (q & E & Hq). apply list_elem_of_In, in_concat in Hq as (l & Hl & Hq).
  apply list_elem_of_In, list_elem_of_fmap in Hl as (g' & -> & Hg'). apply list_elem_of_In, (list_elem_of_fmap_2 snd) in Hq.
  rewrite <-E, group_files_paths in Hq. apply list_elem_of_fmap in Hq as (part' & E' & _).
  rewrite Forall_forall in Hgs. destruct (Hgs g' Hg') as [Hg2 _].
  by apply group_paths_apart in E' as ->.
Qed.

(** ** Publishing *)

Lemma runs_promotes l fs : NoDup l -> Forall is_staged l -> (forall p, p ∈ l -> is_Some (fs !! p)) ->
  exists fs', runs (io_each promote l) fs fs' (Ret tt).
Proof.
  revert fs. induction l as [|p l IH]; intros fs Hnd Hs Hp; [by exists fs|].
  apply NoDup_cons in Hnd as [Hn Hnd]. apply Forall_cons in Hs as [Hsp Hs]. destruct (Hp p ltac:(by left)) as [c Hc].
  destruct (IH (<[promoted_path p := c]> (delete p fs))) as [fs' Hr]; [done|done| |].
  - intros q Hq. rewrite Forall_forall in Hs. rewrite lookup_insert_ne by (apply promoted_ne; auto).
    rewrite lookup_delete_ne by (by intros ->). apply Hp. by right.
  - exists fs'. cbn [io_each]. eapply runs_bind; [by apply runs_promote, Hc; apply staged_under|exact Hr].
Qed.

Lemma total_delete ids : total any_files (delete_segments ids).
Proof.
  unfold delete_segments, fsync_dir. apply total_any; [|intros; apply total_try_idle, _]. apply total_each_any. intros id fs _.
  destruct (fs !! segment_path id) as [c|] eqn:E.
  - eexists _, tt. eapply runs_bind; [by apply runs_remove; eexists|]. apply runs_ret.
  - eexists _, tt. eapply runs_bind; [apply runs_call_eq; cbn [effect]; by rewrite E|]. apply runs_ret.
Qed.

Lemma total_views m touched : total any_files (regenerate_views m touched).
Proof.
  apply total_each_any. intros name. cbv zeta. apply total_any; [apply total_call|]. intros [[]|e]; [|apply total_ret].
  intros fs _. by eexists _, tt.
Qed.

Lemma runs_publish m staged consumed touched fs : NoDup staged -> Forall is_staged staged ->
  (forall p, p ∈ staged -> is_Some (fs !! p)) ->
  exists fs', runs (publish m staged consumed touched) fs fs' (Ret tt).
Proof.
  intros Hnd Hs Hp. destruct (runs_promotes staged fs Hnd Hs Hp) as [fs1 H1r].
  destruct (total_delete consumed fs1 I) as (fs2 & [] & H2r). destruct (total_views m touched fs2 I) as (fs3 & [] & H3r).
  exists fs3. unfold publish. eapply runs_bind; [exact H1r|]. eapply runs_bind; [exact H2r|exact H3r].
Qed.

(** ** The whole flush *)

Section run.
Context (c : Config) (m m0 : Manifest) (now : Z) (fs0 : Files).
Context (Hm : manifest_typed m) (Hnow : 0 <= now < u64_lim) (Hload : loads fs0 m0).
Context (Hcomp : compression (cfg_flush c) ∈ SUPPORTED_COMPRESSION).

(** The directory is within bounds, every segment can be read and every timestamp fits. *)
Record clean (ids : list Z) : Prop := {
  cl_fits : fits m ids fs0;
  cl_good : Forall (fun id => good_segment fs0 id = true) ids;
  cl_ts : Forall (fun p => h_ts p.2 < i64_lim) (flush_heads m fs0 ids)
}.

Lemma goods_all ids : Forall (fun id => good_segment fs0 id = true) ids -> goods fs0 ids = ids.
Proof. unfold goods. induction 1 as [|id ids Hg _ IH]; cbn; [done|]. by rewrite Hg, IH. Qed.

(** Whatever was looked at, all of it was. *)
Lemma looks_at_all ids l : Forall (fun id => good_segment fs0 id = true) ids -> looks_at fs0 ids l -> l = ids.
Proof.
  intros Hg (rest & -> & [-> |(l' & id & -> & Hb)]); [by rewrite app_nil_r|].
  apply Forall_app in Hg as [[_ Hg]%Forall_app _]. rewrite Forall_singleton in Hg. congruence.
Qed.

(** The second phase: what it staged is there to publish. *)
Lemma run_stage_total ids s fs first last_ : clean ids -> NoDup ids -> gathered m fs0 ids s fs /\ p1_consumed s = ids ->
  exists fs' staged rows dedup, runs (stage c first last_ s) fs fs' (Ret (staged, rows, dedup)) /\
    NoDup staged.*2 /\ Forall is_staged staged.*2 /\ forall p, p ∈ staged.*2 -> is_Some (fs' !! p).
Proof.
  intros [Hf Hg Hts] Hnd [Hga Ec].
  destruct (total_stage m fs0 c first last_ s ids Hcomp (ft_segments _ _ _ Hf) Hnd) with (fs := fs) as (fs' & [[staged rows] dedup] & Hr);
    [rewrite Ec; by apply taken_storable|done|].
  pose proof (stage_rows m fs0 c first last_ s ids fs Hga (ft_segments _ _ _ Hf) Hnd (mkWorld fs []) eq_refl) as [_ Hq].
  unfold runs in Hr. rewrite Hr in Hq. cbn [fst snd files] in Hq. destruct Hq as (-> & _ & Hcl & _).
  exists fs', (table_files first last_ (flush_heads m fs0 (p1_consumed s))), rows, dedup. split; [done|].
  destruct (taken_ok m fs0 ids (ft_segments _ _ _ Hf) Hnd) as [Hd Hok]. rewrite goods_all in Hd, Hok by done.
  rewrite Ec in *. split; [by apply table_files_nodup|].
  assert (forall p, p ∈ (table_files first last_ (flush_heads m fs0 ids)).*2 -> exists g part,
    p = part_file g.1 (file_name first last_ g) part /\ is_Some (fs' !! p)) as Hp.
  { intros p (q & -> & Hq)%list_elem_of_fmap. unfold table_files in Hq. apply list_elem_of_In, in_concat in Hq as (l & Hl & Hq).
    apply list_elem_of_In, list_elem_of_fmap in Hl as (g & -> & Hgr). apply list_elem_of_In, list_elem_of_fmap in Hq as (part & -> & Hpart).
    exists g, part. split; [done|]. unfold tables_closed, groups_closed in Hcl. rewrite Forall_forall in Hcl.
    specialize (Hcl g Hgr). rewrite Forall_forall in Hcl. destruct (Hcl part Hpart) as (pr & _ & _ & E). by eexists. }
  split; [|intros p Hin; by destruct (Hp p Hin) as (? & ? & _ & ?)].
  apply Forall_forall. intros p Hin. destruct (Hp p Hin) as (g & part & -> & _). by repeat eexists.
Qed.

Lemma run_inner_total ids spill fs : Forall (fun id => 0 <= id < u64_lim) ids -> NoDup ids -> clean ids ->
  sp_groups spill = ∅ -> keeps scratch fs0 fs ->
  exists fs' m' o, runs (run_inner c m ids now spill) fs fs' (Ret (m', Ok o)) /\
    (segments_consumed o = ids \/ flush_heads m fs0 ids = [] /\ segments_consumed o = []).
Proof.
  intros Hids Hnd [Hf Hg Hts] Hsp Hk. set (s0 := mkPhase1 [] ∅ 0 0 0 (mkRejects (reject_max_bytes (cfg_limits c)) None) spill batch_default).
  assert (gathered m fs0 [] s0 fs) as Hstart by (by apply gathered_start).
  destruct (total_phase1 m (memory_budget_bytes (cfg_flush c)) fs0 (ft_short _ _ _ Hf) ids [] s0 (ft_segments _ _ _ Hf) Hnd Hg fs Hstart)
    as (fs1 & s & Hr1).
  pose proof (phase1_rows m (memory_budget_bytes (cfg_flush c)) fs0 (ft_short _ _ _ Hf) [] ids s0
    (ft_segments _ _ _ Hf) Hnd (mkWorld fs []) Hstart) as [_ Hq1]. unfold runs in Hr1. rewrite Hr1 in Hq1.
  destruct Hq1 as (l & Hl & Hga). apply looks_at_all in Hl as ->; [|done]. cbn [app snd fst files] in Hga.
  pose proof (ga_consumed _ _ _ _ _ Hga) as Ec. rewrite goods_all in Ec by done.
  pose proof (ga_rows _ _ _ _ _ Hga) as Erows. rewrite goods_all in Erows by done.
  unfold runs. rewrite exec_run_inner. fold s0. rewrite Hr1. destruct (p1_consumed s) as [|first rest] eqn:Eids.
  { eexists _, _, _. split; [reflexivity|]. right. rewrite <-Ec. done. }
  destruct ((p1_rows s =? 0) && _ && _) eqn:Eb.
  { eexists _, _, _. split; [reflexivity|]. right. split; [|done].
    apply andb_true_iff in Eb as [[Er%Z.eqb_eq _]%andb_true_iff _]. apply zlen_zero. lia. }
  cbv zeta. rewrite <-Eids in *. set (last_ := List.last (p1_consumed s) 0).
  destruct (run_stage_total ids s fs1 first last_) as (fs2 & staged & rows & dedup & Hr2 & Hnd2 & Hst & Hp); [done|done|by split|].
  unfold runs in Hr2. rewrite Hr2.
  assert (manifest_typed (with_watermark m last_ now)) as Hm'.
  { apply with_watermark_typed; [done| |done]. rewrite Forall_forall in Hids. apply Hids. rewrite <-Ec.
    apply last_elem. by rewrite Eids. }
  destruct (runs_commit (with_watermark m last_ now) fs2 Hm') as (fs3 & Hr3 & Hsame).
  destruct (runs_publish (with_watermark m last_ now) staged.*2 (p1_consumed s) (sp_touched (p1_spill s)) fs3) as [fs4 Hr4]; [done|done| |].
  { intros p Hin. rewrite Hsame; [by apply Hp|..]; rewrite Forall_forall in Hst; by destruct (Hst p Hin) as (? & ? & ? & ->). }
  eexists _, _, _. rewrite exec_bind. unfold runs in Hr3, Hr4. rewrite Hr3, Hr4. split; [reflexivity|left; exact Ec].
Qed.

Lemma runs_finally {A : Type} (mm : io A) (cleanup : io unit) fs fs1 fs2 a :
  runs mm fs fs1 (Ret a) -> runs cleanup fs1 fs2 (Ret tt) -> runs (finally mm cleanup) fs fs2 (Ret a).
Proof. unfold runs. rewrite exec_finally. intros -> E. cbv beta iota. by rewrite E. Qed.

Lemma run_total segments : Forall (fun id => 0 <= id < u64_lim) segments -> clean (run_ids segments) ->
  exists fs' m' o, runs (run c m segments now) fs0 fs' (Ret (m', Ok o)) /\
    (segments_consumed o = run_ids segments \/ flush_heads m fs0 (run_ids segments) = [] /\ segments_consumed o = []).
Proof.
  intros Hseg Hcl. pose proof (run_ids_ok _ _ Hseg) as Hids. pose proof (run_ids_nodup segments) as Hnd.
  unfold run. fold (run_ids segments). destruct (run_ids segments) as [|i ids].
  { eexists _, _, _. split; [apply runs_ret|by left]. }
  destruct (runs_clear_runs fs0) as (fs1 & Hr1 & Hl1).
  assert (keeps scratch fs0 fs1) as Hk.
  { intros p Hp. rewrite Hl1, decide_False; [done|]. intros Ht. apply Hp, run_file_scratch. done. }
  destruct (run_inner_total (i :: ids) (mkSpill 0 ∅ ∅) fs1 Hids Hnd Hcl eq_refl Hk) as (fs2 & m' & o & Hr2 & Ho).
  destruct (runs_clear_runs fs2) as (fs3 & Hr3 & _). exists fs3, m', o. split; [|done].
  eapply runs_bind; [eapply runs_bind; [exact Hr1|apply runs_ret]|].
  eapply runs_finally; [exact Hr2|exact Hr3].
Qed.
End run.

(** What a flush of [ids] without faults leaves and reports. *)
Record completed (flush : FlushConfig) (m : Manifest) (now : Z) (fs : Files) (ids : list Z) (fs' : Files) (m' : Manifest)
    (o : FlushOutcome) : Prop := {
  co_loads : loads fs' m';
  co_cases : (flush_heads m fs ids = [] /\ segments_consumed o = [] /\ m' = m) \/
    (segments_consumed o = ids /\ m' = with_watermark m (List.last ids 0) now /\
     (forall id, id ∈ ids -> fs' !! segment_path id = None) /\
     files_written o = (table_files (hd 0 ids) (List.last ids 0) (flush_heads m fs ids)).*1 /\
     rows_written o = table_rows m fs ids /\
     series_tables flush m fs ids fs')
}.

Lemma run_completed c m segments now fs :
  manifest_typed m -> 0 <= now < u64_lim -> loads fs m ->
  compression (cfg_flush c) ∈ SUPPORTED_COMPRESSION ->
  Forall (fun id => 0 <= id < u64_lim) segments -> clean m fs (run_ids segments) ->
  exists fs' m' o, runs (run c m segments now) fs fs' (Ret (m', Ok o)) /\
    completed (cfg_flush c) m now fs (run_ids segments) fs' m' o.
Proof.
  intros Hm Hnow Hload Hcomp Hseg Hcl. set (ids := run_ids segments) in *.
  destruct (run_total c m now fs Hm Hnow Hcomp segments Hseg Hcl) as (fs' & m' & o & Hr & Ho). fold ids in Ho.
  exists fs', m', o. split; [done|]. pose proof (run_crash c m m segments now (mkWorld fs []) Hm Hnow Hseg Hload) as Hrun.
  unfold runs in Hr. rewrite Hr in Hrun. destruct Hrun as [_ Hres]. cbn [flush_result files] in Hres. fold ids in Hres.
  destruct Hres as [(Hc0 & -> & Hun)|(Hne & -> & fs1 & staged & (Hcm & Hpub & Hdel) & Hfiles & Htab)].
  { split; [apply (un_loads _ _ _ _ Hun)|]. left. split_and!; [|done|done]. destruct Ho as [Ho|[? _]]; [|done]. by rewrite <-Ho, Hc0. }
  destruct Ho as [Ho|[_ Ho]]; [|done]. rewrite Ho in *. split; [apply (cm_loads _ _ _ _ _ _ _ Hcm)|]. right.
  destruct (Htab (cl_fits _ _ _ Hcl)) as [Ht Hrows]. split_and!; [done|done|by apply Hdel| |done|].
  - rewrite Hfiles. by rewrite (tb_files _ _ _ _ _ _ _ Ht).
  - eapply tables_published; [exact Ht|]. intros s h n Hin.
    pose proof (cm_complete _ _ _ _ _ _ _ Hcm) as Hcomplete. rewrite Forall_forall in Hcomplete.
    destruct (Hcomplete _ Hin) as (a & b & d & E). rewrite E. by apply (Hpub [TMP_DIR; s; h; n] _ Hin).
Qed.

(** C7: Total correctness of a flush without faults. Flush segments that can be read,
    whose timestamps fit the signed column, with a codec the configuration accepts.
    The flush returns, and either there was nothing to write and it consumed nothing,
    or it consumed every segment: the segments are deleted, the manifest on disk has the
    new watermark and time, [series/] holds exactly one table per series, epoch and
    hour of their records, each with exactly the rows of its hour, each row once, and
    the files and row count it reports are those. *)
Theorem flush_completes c m segments now fs :
  manifest_typed m -> 0 <= now < u64_lim -> loads fs m ->
  compression (cfg_flush c) ∈ SUPPORTED_COMPRESSION ->
  Forall (fun id => 0 <= id < u64_lim) segments -> clean m fs (run_ids segments) ->
  let ids := run_ids segments in
  exists fs' m' o, runs (run c m segments now) fs fs' (Ret (m', Ok o)) /\ loads fs' m' /\
    ((flush_heads m fs ids = [] /\ segments_consumed o = [] /\ m' = m) \/
     (segments_consumed o = ids /\ m' = with_watermark m (List.last ids 0) now /\
      (forall id, id ∈ ids -> fs' !! segment_path id = None) /\
      files_written o = (table_files (hd 0 ids) (List.last ids 0) (flush_heads m fs ids)).*1 /\
      rows_written o = table_rows m fs ids /\
      series_tables (cfg_flush c) m fs ids fs')).
Proof.
  intros Hm Hnow Hload Hcomp Hseg Hcl ids.
  destruct (run_completed c m segments now fs Hm Hnow Hload Hcomp Hseg Hcl) as (fs' & m' & o & Hr & [Hl Hc]).
  by exists fs', m', o.
Qed.
End completes.

(** ** Instances *)

#[local] Existing Instance Crc32_ieee.
#[local] Existing Instance count_parquet.
#[local] Existing Instance NumberJson.

Lemma flush_files_clean : clean flush_manifest flush_files [5].
Proof.
  split; [exact flush_files_fit|by repeat constructor|].
  assert (forallb (fun p : GroupKey * Head => h_ts p.2 <? i64_lim) (flush_heads flush_manifest flush_files [5]) = true) as Hf
    by (vm_compute; reflexivity).
  rewrite forallb_forall in Hf. revert Hf. generalize (flush_heads flush_manifest flush_files [5]). intros l Hf.
  apply Forall_forall. intros p Hin%list_elem_of_In. by apply Z.ltb_lt, Hf.
Qed.

(** One segment with one row. *)
Lemma flush_completes_witness :
  exists fs' m' o, runs (run sample_config flush_manifest [5; 5] 7) flush_files fs' (Ret (m', Ok o)) /\
    segments_consumed o = [5] /\ loads fs' m' /\ fs' !! segment_path 5 = None /\
    series_tables (cfg_flush sample_config) flush_manifest flush_files [5] fs'.
Proof.
  destruct (flush_completes sample_config flush_manifest [5; 5] 7 flush_files flush_manifest_typed)
    as (fs' & m' & o & Hr & Hl & [(E & _)|(Hc & _ & Hd & _ & _ & Ht)]).
  - split; [discriminate|reflexivity].
  - exact flush_files_load.
  - apply (bool_decide_unpack _). vm_compute. exact I.
  - repeat constructor; discriminate.
  - exact flush_files_clean.
  - assert (length (flush_heads flush_manifest flush_files [5]) = 1%nat) as Hlen by (vm_compute; reflexivity).
    change (run_ids [5; 5]) with [5] in E. rewrite E in Hlen. discriminate Hlen.
  - exists fs', m', o. split; [exact Hr|]. split; [exact Hc|]. split; [exact Hl|]. split; [|exact Ht].
    apply Hd. change (run_ids [5; 5]) with [5]. left.
Defined.
