(* ===== verification/Writer.v ===== *)
(** * Writer: the append path and the committer thread ([wal/writer.rs])

    Every critical section of the append lock is one function on the shared state;
    the committer thread is a state machine whose steps interleave with the callers'.
    A [BufWriter] is its buffer: [write(2)] appends to the segment file, possibly only
    some of the bytes before an error.

    [sync_all] and [sync_data] return the length of the file at that moment. The code
    does not see that number: it is recorded in [s_durable], which says what a power
    cut cannot take away. Clock readings are inputs of the steps that make them. *)

From Stdlib Require Import ZArith Lia.
From Stdlib Require Import Strings.Byte.
From S2P Require Import Prelude Text Record Codec Disk Wal Lock Config.
Open Scope Z_scope.

Definition WRITE_BUFFER_BYTES : Z := 256 * 1024.

Definition closed_error : Error := Io (OtherIo "the wal writer is closed").
Definition torn_error : Error := Io (OtherIo
  "the active wal segment holds a torn frame and could not be sealed; appends are refused until the committer rolls to a new segment").

(** ** The file under the buffer *)

(** [Write::write_all] on the file: the bytes written and the result. *)
Definition write_count (p : path) (c : bytes) : io (nat * result IoError unit) := Call (WriteCount p c).

(** [File::sync_all]: the length of what is now durable. *)
Definition sync_len (p : path) : io (result IoError nat) := Call (SyncLen p).

(** [struct Active]; [a_buf] is the content of its [BufWriter]. *)
Record Active := mkActive {
  a_id : Z;
  a_buf : bytes;
  a_bytes : Z;
  a_synced : Z
}.

Definition dirty (a : Active) : Z := a_bytes a - a_synced a.

(** [BufWriter::flush]: what an error leaves unwritten stays in the buffer. *)
Definition buf_flush (a : Active) : io (Active * result IoError unit) :=
  if decide (a_buf a = []) then mret (a, Ok tt)
  else
    r ← write_count (segment_path (a_id a)) (a_buf a);
    let '(n, r) := r in
    mret (mkActive (a_id a) (drop n (a_buf a)) (a_bytes a) (a_synced a), r).

Definition buf_push (a : Active) (c : bytes) : Active :=
  mkActive (a_id a) (a_buf a ++ c) (a_bytes a) (a_synced a).

(** [BufWriter::write_all]. *)
Definition buf_write_all (a : Active) (c : bytes) : io (Active * result IoError unit) :=
  let spare := WRITE_BUFFER_BYTES - zlen (a_buf a) in
  if zlen c <? spare then mret (buf_push a c, Ok tt)
  else
    r ← (if spare <? zlen c then buf_flush a else mret (a, Ok tt));
    let '(a, r) := r in
    match r with
    | Err e => mret (a, Err e)
    | Ok _ =>
        if WRITE_BUFFER_BYTES <=? zlen c then
          r ← write_count (segment_path (a_id a)) c;
          mret (a, r.2)
        else mret (buf_push a c, Ok tt)
    end.

(** ** The shared state *)

(** [struct State] and the counters of [struct Shared]; the time of the last failure
    only limits log lines. [s_durable] is the length of each segment file at its last
    sync. *)
Record WState := mkWState {
  s_open : option Active;
  s_stop : bool;
  s_appended : Z;
  s_needs_roll : bool;
  s_fsyncs : Z;
  s_fsync_failures : Z;
  s_last_fsync_us : Z;
  s_durable : gmap Z nat
}.

Definition set_open (s : WState) (o : option Active) : WState :=
  mkWState o (s_stop s) (s_appended s) (s_needs_roll s) (s_fsyncs s) (s_fsync_failures s)
    (s_last_fsync_us s) (s_durable s).
Definition set_needs_roll (s : WState) (b : bool) : WState :=
  mkWState (s_open s) (s_stop s) (s_appended s) b (s_fsyncs s) (s_fsync_failures s)
    (s_last_fsync_us s) (s_durable s).
Definition set_stop (s : WState) : WState :=
  mkWState (s_open s) true (s_appended s) (s_needs_roll s) (s_fsyncs s) (s_fsync_failures s)
    (s_last_fsync_us s) (s_durable s).
Definition add_appended (s : WState) (n : Z) : WState :=
  mkWState (s_open s) (s_stop s) (s_appended s + n) (s_needs_roll s) (s_fsyncs s) (s_fsync_failures s)
    (s_last_fsync_us s) (s_durable s).
Definition set_durable (s : WState) (id : Z) (n : nat) : WState :=
  mkWState (s_open s) (s_stop s) (s_appended s) (s_needs_roll s) (s_fsyncs s) (s_fsync_failures s)
    (s_last_fsync_us s) (<[id := n]> (s_durable s)).

Definition note_fsync (s : WState) (now : Z) : WState :=
  mkWState (s_open s) (s_stop s) (s_appended s) (s_needs_roll s) (s_fsyncs s + 1) (s_fsync_failures s)
    now (s_durable s).
Definition note_failure (s : WState) : WState :=
  mkWState (s_open s) (s_stop s) (s_appended s) (s_needs_roll s) (s_fsyncs s) (s_fsync_failures s + 1)
    (s_last_fsync_us s) (s_durable s).

(** ** Segments *)

(** [Shared::create_segment]: the new segment and its durable length. The last call is
    [File::try_clone], which changes no file. *)
Definition create_segment (id : Z) : io (Active * nat) :=
  let p := segment_path id in
  try (create_new p []) ;;
  r ← write_count p (encode_segment_header [] id);
  try (mret r.2) ;;
  n ← try (sync_len p);
  try (fsync_dir wal_dir) ;;
  try (Call (TryClone p)) ;;
  mret (mkActive id [] SEGMENT_HEADER_BYTES SEGMENT_HEADER_BYTES, n).

(** [Shared::sync_in_lock]. *)
Definition sync_in_lock (s : WState) (a : Active) (now : Z) : io (WState * Active * result IoError unit) :=
  r ← buf_flush a;
  let '(a, r) := r in
  match r with
  | Err e => mret (s, a, Err e)
  | Ok _ =>
      r ← sync_len (segment_path (a_id a));
      match r with
      | Err e => mret (s, a, Err e)
      | Ok n =>
          mret (note_fsync (set_durable s (a_id a) n) now,
                mkActive (a_id a) (a_buf a) (a_bytes a) (a_bytes a), Ok tt)
      end
  end.

(** [Shared::roll]: the state is kept on every error. *)
Definition roll (s : WState) (now : Z) : io (WState * result Error Z) :=
  match s_open s with
  | None => mret (s, Err closed_error)
  | Some a =>
      r ← sync_in_lock s a now;
      let '(s, a, r) := r in
      let s := set_open s (Some a) in
      match r with
      | Err e => mret (s, Err (Io e))
      | Ok _ =>
          r ← attempt (create_segment (a_id a + 1));
          match r with
          | Err e => mret (s, Err e)
          | Ok (next, n) => mret (set_durable (set_open s (Some next)) (a_id next) n, Ok (a_id a))
          end
      end
  end.

Definition roll_now (s : WState) (now : Z) : io (WState * result Error Z) :=
  r ← roll s now;
  let '(s, r) := r in
  match r with
  | Ok id => mret (set_needs_roll s false, Ok id)
  | Err e => mret (s, Err e)
  end.

(** ** The callers *)

(** [WalWriter::append_bytes], which [append] and [append_batch] are: whether the
    committer is to be woken. *)
Definition append_bytes (cfg : WalConfig) (s : WState) (c : bytes) (now : Z)
    : io (WState * result Error bool) :=
  if s_needs_roll s then mret (s, Err torn_error)
  else
    match s_open s with
    | None => mret (s, Err closed_error)
    | Some a =>
        r ← buf_write_all a c;
        let '(a, r) := r in
        match r with
        | Ok _ =>
            let a := mkActive (a_id a) (a_buf a) (a_bytes a + zlen c) (a_synced a) in
            mret (add_appended (set_open s (Some a)) (zlen c),
                  Ok ((fsync_bytes cfg <=? dirty a) || (segment_max_bytes cfg <=? a_bytes a)))
        | Err e =>
            r ← roll (set_needs_roll (set_open s (Some a)) true) now;
            let '(s, r) := r in
            mret (match r with Ok _ => set_needs_roll s false | Err _ => s end, Err (Io e))
        end
    end.

Definition seal (s : WState) (now : Z) : io (WState * result Error (option Z)) :=
  match s_open s with
  | None => mret (s, Err closed_error)
  | Some a =>
      if a_bytes a =? SEGMENT_HEADER_BYTES then mret (s, Ok None)
      else
        r ← roll_now s now;
        let '(s, r) := r in
        mret (s, match r with Ok id => Ok (Some id) | Err e => Err e end)
  end.

(** The end of [WalWriter::close], once the committer has been joined; dropping the
    [BufWriter] flushes what an error left in it. *)
Definition close_active (s : WState) (now : Z) : io (WState * result Error unit) :=
  match s_open s with
  | None => mret (s, Ok tt)
  | Some a =>
      r ← sync_in_lock s a now;
      let '(s, a, r) := r in
      _ ← buf_flush a;
      mret (set_open s None, match r with Ok _ => Ok tt | Err e => Err (Io e) end)
  end.

(** [struct WalStats] and [WalWriter::stats]. *)
Record WalStats := mkWalStats {
  wst_segment : Z;
  wst_segment_bytes : Z;
  wst_dirty_bytes : Z;
  wst_appended_bytes : Z;
  wst_fsyncs : Z;
  wst_fsync_failures : Z;
  wst_last_fsync_us : Z;
  wst_closed : bool
}.

Definition writer_stats (s : WState) : WalStats :=
  let '(segment, bytes_, dirty_) := match s_open s with
                                    | Some a => (a_id a, a_bytes a, dirty a)
                                    | None => (0, 0, 0)
                                    end in
  mkWalStats segment bytes_ dirty_ (s_appended s) (s_fsyncs s) (s_fsync_failures s)
    (s_last_fsync_us s) (match s_open s with None => true | Some _ => false end).

Definition active_segment (s : WState) : Z := match s_open s with Some a => a_id a | None => 0 end.

(** ** Opening *)

Definition effective_config (wal : WalConfig) : WalConfig :=
  mkWal (Z.max (fsync_interval_ms wal) 1) (Z.max (fsync_bytes wal) 1)
    (Z.max (segment_max_bytes wal) (SEGMENT_HEADER_BYTES + 1)).

(** [WalWriter::open] up to the start of the committer thread; directories are implicit,
    so [create_dir_all] changes no file. *)
Definition writer_open (first_segment : Z) : io WState :=
  try (create_dir_all wal_dir) ;;
  try (fsync_dir []) ;;
  r ← create_segment first_segment;
  mret (mkWState (Some r.1) false 0 false 0 0 0 {[first_segment := r.2]}).

(** ** The committer *)

(** The predicate under which the thread keeps waiting for its tick. *)
Definition parked (cfg : WalConfig) (s : WState) : bool :=
  negb (s_stop s) &&
  match s_open s with
  | Some a => (dirty a <? fsync_bytes cfg) && (a_bytes a <? segment_max_bytes cfg)
  | None => false
  end.

(** Where the thread is in its loop: waiting; having flushed the buffer, about to sync
    the file; having synced it; past the commit; past the roll; or gone. *)
Inductive Pc :=
| Waiting
| Flushed (id upto : Z)
| Synced (id upto : Z)
| Committed
| Rolled
| Gone.

Record Sys := mkSys { y_state : WState; y_pc : Pc; y_retry : bool }.

(** The first critical section; [elapsed] is [last_sync.elapsed() >= interval]. *)
Definition commit_begin (cfg : WalConfig) (elapsed : bool) (y : Sys) : io Sys :=
  let s := y_state y in
  if s_stop s then mret (mkSys s Gone (y_retry y))
  else
    match s_open s with
    | None => mret (mkSys s Gone (y_retry y))
    | Some a =>
        let due := y_retry y || ((0 <? dirty a) && (elapsed || (fsync_bytes cfg <=? dirty a))) in
        if negb due then mret (mkSys s Committed (y_retry y))
        else
          r ← buf_flush a;
          let '(a, r) := r in
          match r with
          | Ok _ => mret (mkSys (set_open s (Some a)) (Flushed (a_id a) (a_bytes a)) (y_retry y))
          | Err _ => mret (mkSys (note_failure (set_open s (Some a))) Committed true)
          end
    end.

(** The sync, with the lock released. *)
Definition commit_sync (id upto : Z) (now : Z) (y : Sys) : io Sys :=
  r ← sync_len (segment_path id);
  match r with
  | Ok n => mret (mkSys (note_fsync (set_durable (y_state y) id n) now) (Synced id upto) false)
  | Err _ => mret (mkSys (note_failure (y_state y)) Committed true)
  end.

(** The second critical section: a [seal] may have swapped segments. *)
Definition commit_end (id upto : Z) (y : Sys) : Sys :=
  let s := y_state y in
  mkSys (match s_open s with
         | Some a =>
             if a_id a =? id then
               set_open s (Some (mkActive (a_id a) (a_buf a) (a_bytes a) (Z.max (a_synced a) upto)))
             else s
         | None => s
         end) Committed (y_retry y).

(** The third critical section. *)
Definition commit_roll (cfg : WalConfig) (now : Z) (y : Sys) : io Sys :=
  let s := y_state y in
  let full := match s_open s with Some a => segment_max_bytes cfg <=? a_bytes a | None => false end in
  if full || s_needs_roll s then
    r ← roll_now s now;
    mret (mkSys r.1 Rolled (y_retry y))
  else mret (mkSys s Rolled (y_retry y)).

(** The heartbeat; [beat] is [last_beat.elapsed() >= beat_every]. *)
Definition heartbeat (lock : option path) (pid : Z) (beat : bool) (y : Sys) : io Sys :=
  (match lock with
   | Some p => if beat then _ ← touch_lock p pid; mret tt else mret tt
   | None => mret tt
   end) ;;
  mret (mkSys (y_state y) Waiting (y_retry y)).

(** One step of [committer]. *)
Definition committer (cfg : WalConfig) (lock : option path) (pid : Z) (elapsed beat : bool) (now : Z)
    (y : Sys) : io Sys :=
  match y_pc y with
  | Waiting => commit_begin cfg elapsed y
  | Flushed id upto => commit_sync id upto now y
  | Synced id upto => mret (commit_end id upto y)
  | Committed => commit_roll cfg now y
  | Rolled => heartbeat lock pid beat y
  | Gone => mret y
  end.
