(* ===== verification/WriterProofs.v ===== *)
(** * WriterProofs: what the writer's critical sections do to the log

    The content of a segment file followed by the buffer in front of it is the header,
    the bytes of every acknowledged append in order, and at most one torn tail. *)

From Stdlib Require Import ZArith Lia.
From Stdlib Require Import Strings.Byte.
From S2P Require Import Prelude Text Record Codec CodecProofs Disk Wal Lock Config Local Writer.
Open Scope Z_scope.

Lemma triple_crash {A : Type} (P C C' : Files -> Prop) (Q : A -> Files -> Prop) (m : io A) :
  triple P m C Q -> (forall fs, C fs -> C' fs) -> triple P m C' Q.
Proof. intros Hm HC w Hw. destruct (Hm w Hw). auto. Qed.

(** ** The file under the buffer *)

Section file.
Context (fs0 : Files) (p : path) (c0 : bytes) (Hc0 : fs0 !! p = Some c0).

(** The file grew by [x], nothing else changed. *)
Definition grown (x : bytes) (fs : Files) : Prop := fs = <[p := c0 ++ x]> fs0.

Lemma grown_nil : grown [] fs0.
Proof. unfold grown. rewrite app_nil_r. symmetry. by apply insert_id. Qed.

Lemma triple_write_count c : triple (fun fs => fs = fs0) (write_count p c)
  (fun fs => exists n, grown (take n c) fs)
  (fun r fs => grown (take r.1 c) fs /\ match r.2 with Ok _ => r.1 = length c | Err _ => True end).
Proof.
  intros w Hw. cbn [write_count exec]. unfold perform. cbn [effect part failure]. rewrite Hw, Hc0. cbn [default from_option id].
  destruct (script w) as [|[|e|n e| |n] s]; cbn; unfold grown.
  - split; [by exists (length c)|done].
  - split; [by exists (length c)|done].
  - split; [exists 0%nat; exact grown_nil|split; [exact grown_nil|done]].
  - split; [by exists n|done].
  - split; [exists 0%nat; exact grown_nil|done].
  - split; [by exists n|done].
Qed.
End file.

(** ** The buffer *)

Section buffer.
Context (fs0 : Files) (a : Active) (c0 : bytes) (Hc0 : fs0 !! segment_path (a_id a) = Some c0).
Let grows (x : bytes) (fs : Files) : Prop := grown fs0 (segment_path (a_id a)) c0 x fs.

(** Equal but for the buffer. *)
Definition same_file (a' : Active) : Prop :=
  a_id a' = a_id a /\ a_bytes a' = a_bytes a /\ a_synced a' = a_synced a.

Lemma triple_buf_flush : triple (fun fs => fs = fs0) (buf_flush a)
  (fun fs => exists x, grows x fs /\ x `prefix_of` a_buf a)
  (fun r fs => same_file r.1 /\ exists x, grows x fs /\ x ++ a_buf r.1 = a_buf a /\
    match r.2 with Ok _ => a_buf r.1 = [] | Err _ => True end).
Proof.
  unfold buf_flush. destruct (decide (a_buf a = [])) as [E|E].
  { apply triple_ret; intros fs ->.
    - exists []. split; [by apply grown_nil|apply prefix_nil].
    - split; [done|]. exists []. split_and!; [by apply grown_nil|done|done]. }
  eapply triple_bind.
  - eapply triple_crash; [by apply triple_write_count|]. intros fs [n Hn].
    exists (take n (a_buf a)). split; [done|apply prefix_take].
  - intros [n r]. apply triple_ret.
    + intros fs [Hg _]. exists (take n (a_buf a)). split; [done|apply prefix_take].
    + intros fs [Hg Hr]. cbn [fst snd] in *. split; [done|]. exists (take n (a_buf a)). cbn.
      split_and!; [done|apply take_drop|]. destruct r; [|done]. subst n. by apply drop_all.
Qed.
End buffer.

Section write_all.
Context (fs0 : Files) (a : Active) (c0 c : bytes) (Hc0 : fs0 !! segment_path (a_id a) = Some c0).
Let grows (x : bytes) (fs : Files) : Prop := grown fs0 (segment_path (a_id a)) c0 x fs.

Lemma grown_twice fs1 fs2 x y (p : path) : grown fs0 p c0 x fs1 -> grown fs1 p (c0 ++ x) y fs2 ->
  grown fs0 p c0 (x ++ y) fs2.
Proof. unfold grown. intros -> ->. by rewrite insert_insert_eq, app_assoc. Qed.

Lemma triple_direct a1 x fs1 : same_file a a1 -> grows x fs1 -> a_buf a1 = [] -> x = a_buf a ->
  triple (fun fs => fs = fs1) (r ← write_count (segment_path (a_id a1)) c; mret (a1, r.2))
    (fun fs => exists x, grows x fs /\ x `prefix_of` a_buf a ++ c)
    (fun r fs => same_file a r.1 /\ exists x t, grows x fs /\ x ++ a_buf r.1 = a_buf a ++ t /\
      t `prefix_of` c /\ match r.2 with Ok _ => t = c | Err _ => True end).
Proof.
  intros Hs Hg Hb Hx. pose proof Hs as (Ei & _). rewrite Ei.
  assert (fs1 !! segment_path (a_id a) = Some (c0 ++ x)) as Hc1 by (rewrite Hg; apply lookup_insert_eq).
  eapply triple_bind.
  - eapply triple_crash; [by apply (triple_write_count fs1 _ _ Hc1)|]. intros fs [n Hn].
    exists (x ++ take n c). split; [by eapply grown_twice|]. subst x. apply prefix_app, prefix_take.
  - intros [n r]. apply triple_ret; intros fs [Hn Hr]; cbn [fst snd] in *.
    + exists (x ++ take n c). split; [by eapply grown_twice|]. subst x. apply prefix_app, prefix_take.
    + split; [done|]. exists (x ++ take n c), (take n c). rewrite Hb, app_nil_r. subst x.
      split_and!; [by eapply grown_twice|done|apply prefix_take|]. destruct r; [|done]. subst n. apply take_ge. lia.
Qed.

Lemma triple_write_all : triple (fun fs => fs = fs0) (buf_write_all a c)
  (fun fs => exists x, grows x fs /\ x `prefix_of` a_buf a ++ c)
  (fun r fs => same_file a r.1 /\ exists x t, grows x fs /\ x ++ a_buf r.1 = a_buf a ++ t /\
    t `prefix_of` c /\ match r.2 with Ok _ => t = c | Err _ => True end).
Proof.
  assert (forall a1 x fs1, same_file a a1 -> grows x fs1 -> x ++ a_buf a1 = a_buf a ->
    triple (fun fs => fs = fs1) (mret (buf_push a1 c, Ok tt) : io (Active * result IoError unit))
      (fun fs => exists x, grows x fs /\ x `prefix_of` a_buf a ++ c)
      (fun r fs => same_file a r.1 /\ exists x t, grows x fs /\ x ++ a_buf r.1 = a_buf a ++ t /\
        t `prefix_of` c /\ match r.2 with Ok _ => t = c | Err _ => True end)) as Hpush.
  { intros a1 x fs1 Hs Hg Hx. apply triple_ret; intros fs ->.
    - exists x. split; [done|]. rewrite <-Hx, <-app_assoc. by apply prefix_app_r.
    - split; [done|]. exists x, c. cbn. rewrite app_assoc, Hx. done. }
  unfold buf_write_all. cbv zeta. set (spare := WRITE_BUFFER_BYTES - zlen (a_buf a)).
  destruct (zlen c <? spare) eqn:E1; [by apply (Hpush a []); [|apply grown_nil|]|].
  destruct (spare <? zlen c) eqn:E2.
  - eapply triple_bind.
    { eapply triple_crash; [by apply (triple_buf_flush fs0 a c0)|]. intros fs (x & Hg & Hx).
      exists x. split; [done|]. by apply prefix_app_r. }
    intros [a1 r] w (Hs & x & Hg & Hx & Hr). cbn [fst snd] in *. destruct r as [[]|e].
    + rewrite Hr, app_nil_r in Hx. destruct (_ <=? _); [by apply (triple_direct a1 x (files w))|].
      apply (Hpush a1 x (files w)); [done|done|by rewrite Hr, app_nil_r|done].
    + split; cbn.
      * exists x. split; [done|]. rewrite <-Hx, <-app_assoc. by apply prefix_app_r.
      * split; [done|]. exists x, []. rewrite app_nil_r. split_and!; [done|done|apply prefix_nil|done].
  - assert (zlen c = spare) as Ec by (apply Z.ltb_ge in E1, E2; lia).
    eapply (triple_bind _ _ (fun r fs => r = (a, Ok tt) /\ fs = fs0)).
    { apply triple_ret; [|done]. intros fs ->. exists []. split; [by apply grown_nil|apply prefix_nil]. }
    intros r w [-> Hw]. destruct (_ <=? zlen c) eqn:E3.
    + apply (triple_direct a [] (files w)); [done|rewrite Hw; by apply grown_nil| | |done]; unfold spare in Ec;
        apply Z.leb_le in E3; destruct (a_buf a); try done; unfold zlen in *; cbn in *; lia.
    + apply (Hpush a [] (files w)); [done|rewrite Hw; by apply grown_nil|done|done].
Qed.
End write_all.

(** ** The invariant of the log *)

(** The bytes acknowledged in segment [id], in order. *)
Definition acked (hist : list (Z * bytes)) (id : Z) : bytes :=
  concat (snd <$> filter (fun x => x.1 = id) hist).

(** A segment with those bytes and a torn tail. *)
Definition whole (hist : list (Z * bytes)) (id : Z) (tail : bytes) : bytes :=
  encode_segment_header [] id ++ acked hist id ++ tail.

Lemma acked_snoc_eq hist id c : acked (hist ++ [(id, c)]) id = acked hist id ++ c.
Proof.
  unfold acked. rewrite filter_app, fmap_app, concat_app. cbn. rewrite decide_True by done. cbn.
  by rewrite app_nil_r.
Qed.

Lemma acked_snoc_ne hist id id' c : id <> id' -> acked (hist ++ [(id, c)]) id' = acked hist id'.
Proof.
  intros Hne. unfold acked. rewrite filter_app. cbn. rewrite decide_False by done. by rewrite app_nil_r.
Qed.

Lemma acked_none hist id : Forall (fun x => x.1 <> id) hist -> acked hist id = [].
Proof.
  induction 1 as [|[i c] hist Hi _ IH]; [done|]. unfold acked in *. cbn in *. by rewrite decide_False.
Qed.

Definition sealed_ok (hist : list (Z * bytes)) (s : WState) (first upto : Z) (fs : Files) : Prop :=
  forall id, first <= id < upto -> exists tail,
    fs !! segment_path id = Some (whole hist id tail) /\
    s_durable s !! id = Some (length (whole hist id tail)).

Record active_ok (hist : list (Z * bytes)) (s : WState) (a : Active) (fs : Files) (c tail : bytes) : Prop := {
  ao_file : fs !! segment_path (a_id a) = Some c;
  ao_text : c ++ a_buf a = whole hist (a_id a) tail;
  ao_torn : tail <> [] -> s_needs_roll s = true;
  ao_bytes : a_bytes a = SEGMENT_HEADER_BYTES + zlen (acked hist (a_id a));
  ao_durable : exists n, s_durable s !! a_id a = Some n /\ a_synced a <= Z.of_nat n /\ (n <= length c)%nat;
  ao_synced : a_synced a <= a_bytes a
}.

(** The log while the writer is open on [a]. *)
Record open_ok (first : Z) (hist : list (Z * bytes)) (s : WState) (a : Active) (fs : Files) : Prop := {
  oo_first : 0 <= first <= a_id a;
  oo_hist : Forall (fun x => first <= x.1 <= a_id a) hist;
  oo_durable : forall id n, s_durable s !! id = Some n -> first <= id <= a_id a;
  oo_sealed : sealed_ok hist s first (a_id a) fs;
  oo_active : exists c tail, active_ok hist s a fs c tail
}.

(** The state changed only in ways the invariant does not see. *)
Definition same_log (s s' : WState) : Prop :=
  s_durable s' = s_durable s /\ (s_needs_roll s = true -> s_needs_roll s' = true).

Lemma open_ok_same first hist s s' a fs : same_log s s' -> open_ok first hist s a fs -> open_ok first hist s' a fs.
Proof.
  intros [Ed Er] [Hf Hh Hd Hs (c & tail & [H1 H2 H3 H4 H5 H6])]. split; [done|done|by rewrite Ed|by unfold sealed_ok; rewrite Ed|].
  exists c, tail. split; [done|done|auto|done|by rewrite Ed|done].
Qed.

(** Files of later segments do not matter. *)
Lemma open_ok_keeps first hist s a fs fs' :
  keeps (fun q => forall id, 0 <= id <= a_id a -> q <> segment_path id) fs fs' ->
  open_ok first hist s a fs -> open_ok first hist s a fs'.
Proof.
  intros Hk [Hf Hh Hd Hs (c & tail & [H1 H2 H3 H4 H5 H6])].
  assert (forall id, 0 <= id <= a_id a -> fs' !! segment_path id = fs !! segment_path id) as Hsame.
  { intros id Hid. apply Hk. intros Hn. by apply (Hn id). }
  split; [done|done|done| |].
  - intros id Hid. rewrite Hsame by lia. by apply Hs.
  - exists c, tail. split; [rewrite Hsame by lia|..]; done.
Qed.

(** Bytes move from the buffer to the file. *)
Lemma open_ok_flush first hist s a a' fs c x fs' : fs !! segment_path (a_id a) = Some c ->
  grown fs (segment_path (a_id a)) c x fs' -> same_file a a' -> x ++ a_buf a' = a_buf a ->
  open_ok first hist s a fs -> open_ok first hist s a' fs'.
Proof.
  intros Hc Hg (Ei & Eb & Es) Hx [Hf Hh Hd Hs (c1 & tail & [H1 H2 H3 H4 (n & H5 & H5' & H5'') H6])].
  rewrite Hc in H1. injection H1 as <-.
  split; rewrite ?Ei; [done|done|done| |].
  - intros id Hid. rewrite Hg, lookup_insert_ne; [by apply Hs|].
    intros E%segment_path_inj; lia.
  - exists (c ++ x), tail. split; rewrite ?Ei, ?Eb, ?Es; [|by rewrite <-app_assoc, Hx|done|done| |done].
    + rewrite Hg. apply lookup_insert_eq.
    + exists n. split_and!; [done|done|]. rewrite length_app. lia.
Qed.

Lemma length_header id : length (encode_segment_header [] id) = 14%nat.
Proof. unfold encode_segment_header. by rewrite !length_app, !length_le_bytes. Qed.

Lemma length_whole hist id tail :
  Z.of_nat (length (whole hist id tail)) = SEGMENT_HEADER_BYTES + zlen (acked hist id) + zlen tail.
Proof.
  unfold whole, zlen, SEGMENT_HEADER_BYTES. rewrite !length_app, length_header. lia.
Qed.

(** The log only grows, and what is durable stays so. *)
Record later (first last_ : Z) (s : WState) (fs : Files) (s' : WState) (fs' : Files) : Prop := {
  lt_files : forall id c, first <= id <= last_ -> fs !! segment_path id = Some c ->
    exists x, fs' !! segment_path id = Some (c ++ x);
  lt_durable : forall id n, s_durable s !! id = Some n ->
    exists n', s_durable s' !! id = Some n' /\ (n <= n')%nat
}.

Lemma later_same first last_ s fs s' fs' :
  (forall id, first <= id <= last_ -> fs' !! segment_path id = fs !! segment_path id) ->
  s_durable s' = s_durable s -> later first last_ s fs s' fs'.
Proof.
  intros Hf Hd. split.
  - intros id c Hid Hc. exists []. by rewrite app_nil_r, Hf.
  - intros id n Hn. exists n. by rewrite Hd.
Qed.

Lemma later_trans first last_ s fs s1 fs1 s2 fs2 :
  later first last_ s fs s1 fs1 -> later first last_ s1 fs1 s2 fs2 -> later first last_ s fs s2 fs2.
Proof.
  intros [F1 D1] [F2 D2]. split.
  - intros id c Hid Hc. destruct (F1 id c Hid Hc) as [x Hx]. destruct (F2 id _ Hid Hx) as [y Hy].
    exists (x ++ y). by rewrite app_assoc.
  - intros id n Hn. destruct (D1 id n Hn) as (n1 & H1 & L1). destruct (D2 id n1 H1) as (n2 & H2 & L2).
    exists n2. split; [done|lia].
Qed.

Lemma later_grown first last_ s s' fs id c x fs' : 0 <= first -> 0 <= id -> fs !! segment_path id = Some c ->
  grown fs (segment_path id) c x fs' -> s_durable s' = s_durable s -> later first last_ s fs s' fs'.
Proof.
  intros Hf Hid Hc Hg Hd. split; [|intros i n Hn; exists n; by rewrite Hd].
  intros i ci Hi Hci. rewrite Hg. destruct (decide (i = id)) as [->|Hne].
  - rewrite Hc in Hci. injection Hci as <-. exists x. apply lookup_insert_eq.
  - exists []. rewrite app_nil_r, lookup_insert_ne; [done|]. intros E%segment_path_inj; lia.
Qed.

(** The active file is synced. *)
Lemma open_ok_sync first hist s a fs c now : fs !! segment_path (a_id a) = Some c -> a_buf a = [] ->
  open_ok first hist s a fs ->
  open_ok first hist (note_fsync (set_durable s (a_id a) (length c)) now)
    (mkActive (a_id a) (a_buf a) (a_bytes a) (a_bytes a)) fs.
Proof.
  intros Hc Hb [Hf Hh Hd Hs (c1 & tail & [H1 H2 H3 H4 H5 H6])]. rewrite Hc in H1. injection H1 as <-.
  split; cbn; [done|done| | |].
  - intros id n [[<- _]|[_ Hn]]%lookup_insert_Some; [lia|by eapply Hd].
  - intros id Hid. cbn. destruct (Hs id Hid) as (t & Ht & Hn). exists t. split; [done|].
    by rewrite lookup_insert_ne by lia.
  - exists c, tail. rewrite Hb, app_nil_r in H2. split; cbn; [done|by rewrite Hb, app_nil_r|done|done| |lia].
    exists (length c). rewrite lookup_insert_eq. split_and!; [done| |done].
    rewrite H4, H2, length_whole. pose proof (zlen_nonneg tail). lia.
Qed.

Lemma later_sync first last_ hist s a fs c now : fs !! segment_path (a_id a) = Some c ->
  open_ok first hist s a fs -> later first last_ s fs (note_fsync (set_durable s (a_id a) (length c)) now) fs.
Proof.
  intros Hc [Hf Hh Hd Hs (c1 & tail & [H1 H2 H3 H4 (n & H5 & _ & Hn) H6])]. rewrite Hc in H1. injection H1 as <-.
  split; [intros id c' _ Hc'; exists []; by rewrite app_nil_r|]. intros id m Hm. cbn.
  destruct (decide (id = a_id a)) as [->|Hne].
  - exists (length c). rewrite lookup_insert_eq. split; [done|]. congruence.
  - exists m. by rewrite lookup_insert_ne.
Qed.

(** The next segment is active. *)
Lemma open_ok_next first hist s a fs c fs' :
  fs !! segment_path (a_id a) = Some c -> a_buf a = [] -> s_durable s !! a_id a = Some (length c) ->
  open_ok first hist s a fs ->
  keeps (eq (segment_path (a_id a + 1))) fs fs' ->
  fs' !! segment_path (a_id a + 1) = Some (encode_segment_header [] (a_id a + 1)) ->
  let next := mkActive (a_id a + 1) [] SEGMENT_HEADER_BYTES SEGMENT_HEADER_BYTES in
  forall b, open_ok first hist (set_needs_roll (set_durable (set_open s (Some next)) (a_id a + 1) 14) b) next fs'.
Proof.
  intros Hc Hb Hdur [Hf Hh Hd Hs (c1 & tail & [H1 H2 H3 H4 H5 H6])] Hk Hnew next b.
  rewrite Hc in H1. injection H1 as <-.
  assert (forall id, 0 <= id <= a_id a -> fs' !! segment_path id = fs !! segment_path id) as Hsame.
  { intros id Hid. apply Hk. intros E%segment_path_inj; lia. }
  assert (acked hist (a_id a + 1) = []) as Hnone.
  { apply acked_none. eapply Forall_impl; [exact Hh|]. cbn. lia. }
  split; cbn; [lia| | | |].
  - eapply Forall_impl; [exact Hh|]. cbn. lia.
  - intros id n [[<- _]|[_ Hn]]%lookup_insert_Some; [lia|]. apply Hd in Hn. lia.
  - intros id Hid. cbn. rewrite Hsame, lookup_insert_ne by lia. destruct (decide (id = a_id a)) as [->|Hne].
    + exists tail. rewrite Hb, app_nil_r in H2. split; [by rewrite Hc, H2|by rewrite Hdur, H2].
    + apply Hs. lia.
  - exists (encode_segment_header [] (a_id a + 1)), []. split; cbn; [done| |done| | |lia].
    + unfold whole. by rewrite Hnone, !app_nil_r.
    + by rewrite Hnone.
    + exists 14%nat. rewrite lookup_insert_eq. split_and!; [done|done|].
      apply Nat.eq_le_incl. symmetry. apply (length_header (a_id a + 1)).
Qed.

(** ** Syncing and rolling *)

Lemma local_write_count (D : path -> Prop) p c : D p -> local D (write_count p c).
Proof.
  intros Hp. apply local_call; [by intros ? ->|intros; by apply keeps_insert..].
Qed.

Lemma local_sync_len D p : local D (sync_len p).
Proof. by apply local_read; [apply _|]. Qed.

Lemma local_create_new (D : path -> Prop) p c : D p -> local D (create_new p c).
Proof.
  intros Hp. apply local_whole; [apply _|by intros ? ->|]. intros fs. cbn. destruct (fs !! p); [apply keeps_refl|by apply keeps_insert].
Qed.

Lemma local_create_segment id : local (eq (segment_path id)) (create_segment id).
Proof.
  unfold create_segment. cbv zeta. apply local_bind; [apply local_try, local_create_new; done|]. intros [].
  apply local_bind; [by apply local_write_count|]. intros r. apply local_bind; [apply local_try, local_ret|]. intros [].
  apply local_bind; [apply local_try, local_sync_len|]. intros n. local_solve.
Qed.

Lemma triple_sync_len (P C : Files -> Prop) p : (forall fs, P fs -> C fs) ->
  triple P (sync_len p) C (fun r fs => P fs /\
    match r with Ok n => n = length (default [] (fs !! p)) | Err _ => True end).
Proof. intros HC. apply triple_whole; [apply _|done| |done]. cbn [effect]. intros fs Hfs. cbn. auto. Qed.

(** A new segment holds its header, synced. *)
Lemma create_segment_result id fs0 : triple (fun fs => fs = fs0) (create_segment id) (fun _ => True)
  (fun r fs => fs0 !! segment_path id = None /\
    fs !! segment_path id = Some (encode_segment_header [] id) /\
    r = (mkActive id [] SEGMENT_HEADER_BYTES SEGMENT_HEADER_BYTES, 14%nat)).
Proof.
  unfold create_segment. cbv zeta. set (p := segment_path id). set (header := encode_segment_header [] id).
  set (made := fun fs : Files => fs0 !! p = None /\ fs !! p = Some header).
  eapply (triple_bind _ _ (fun _ fs => fs0 !! p = None /\ fs = <[p := []]> fs0)).
  { apply triple_try, triple_whole; [apply _|done| |done]. intros fs ->. split; [done|]. cbn. by destruct (fs0 !! p). }
  intros []. eapply (triple_bind _ _ (fun r fs => match r.2 with Ok _ => made fs | Err _ => True end)).
  { intros w [Hn Hw]. assert (files w !! p = Some []) as Hp by (rewrite Hw; apply lookup_insert_eq).
    destruct (triple_write_count (files w) p [] Hp header w eq_refl) as [_ Hq]. split; [done|].
    destruct (write_count p header w) as [w' [[n [[]|e]]| |]]; [|done..]. cbn in *. destruct Hq as [Hg ->].
    split; [done|]. rewrite Hg, lookup_insert_eq. by rewrite take_ge by done. }
  intros [n r]. eapply (triple_bind _ _ (fun _ => made)).
  { apply triple_try, triple_ret; [done|]. intros fs Hfs. cbn in *. by destruct r. }
  intros []. eapply (triple_bind _ _ (fun n fs => made fs /\ n = 14%nat)).
  { apply triple_try. eapply triple_conseq; [by apply (triple_sync_len made)|done|].
    intros [m|e] fs [Hfs Hm]; [|done]. split; [done|]. destruct Hfs as [_ Hfs]. rewrite Hm, Hfs. apply length_header. }
  intros m. eapply triple_bind; [by idle|]. intros [].
  eapply triple_bind; [by idle|]. intros []. apply triple_ret; [done|].
  by intros fs [[H1 H2] ->].
Qed.

(** What a stop in the middle of a critical section leaves: the active file has grown
    by some of the buffered and incoming bytes, sealed segments are as they were. *)
Definition crash_ok (fs0 : Files) (a : Active) (c0 incoming : bytes) (fs : Files) : Prop :=
  (exists x, x `prefix_of` a_buf a ++ incoming /\ fs !! segment_path (a_id a) = Some (c0 ++ x)) /\
  keeps (fun q => q = segment_path (a_id a) \/ q = segment_path (a_id a + 1)) fs0 fs.

Lemma grown_crash fs0 a c0 incoming x fs : x `prefix_of` a_buf a ++ incoming ->
  grown fs0 (segment_path (a_id a)) c0 x fs -> crash_ok fs0 a c0 incoming fs.
Proof.
  intros Hx ->. split; [exists x; split; [done|apply lookup_insert_eq]|]. apply keeps_insert. by left.
Qed.

(** The parts of the state the log does not depend on. *)
Definition same_rest (s s' : WState) : Prop :=
  s_stop s' = s_stop s /\ s_appended s' = s_appended s /\ s_needs_roll s' = s_needs_roll s.

Section roll.
Context (first : Z) (hist : list (Z * bytes)) (s : WState) (a : Active) (fs0 : Files) (c0 : bytes).
Context (Hok : open_ok first hist s a fs0) (Hc0 : fs0 !! segment_path (a_id a) = Some c0).

Definition synced_result (r : WState * Active * result IoError unit) (fs : Files) : Prop :=
  let '(s', a', r) := r in
  open_ok first hist s' a' fs /\ later first (a_id a) s fs0 s' fs /\ crash_ok fs0 a c0 [] fs /\
  same_rest s s' /\ a_id a' = a_id a /\ a_bytes a' = a_bytes a /\
  (exists x, grown fs0 (segment_path (a_id a)) c0 x fs /\ x ++ a_buf a' = a_buf a) /\
  match r with
  | Ok _ => a_buf a' = [] /\ a_synced a' = a_bytes a' /\
      exists c, fs !! segment_path (a_id a) = Some c /\ s_durable s' !! a_id a = Some (length c)
  | Err _ => True
  end.

Lemma active_nonneg : 0 <= first /\ 0 <= a_id a.
Proof. destruct Hok as [Hf _ _ _ _]. lia. Qed.

Lemma triple_sync_in_lock now :
  triple (fun fs => fs = fs0) (sync_in_lock s a now) (crash_ok fs0 a c0 []) synced_result.
Proof.
  destruct active_nonneg as [Hf Ha]. unfold sync_in_lock. eapply triple_bind.
  { eapply triple_crash; [by apply (triple_buf_flush fs0 a c0)|]. intros fs (x & Hg & Hx).
    eapply grown_crash; [|done]. by rewrite app_nil_r. }
  intros [a1 r] w (Hs & x & Hg & Hx & Hr). cbn [fst snd] in *. pose proof Hs as (Ei & Eb & Es).
  assert (open_ok first hist s a1 (files w)) as Hok1 by (by eapply open_ok_flush).
  assert (crash_ok fs0 a c0 [] (files w)) as Hcr.
  { eapply grown_crash; [|done]. rewrite app_nil_r, <-Hx. by apply prefix_app_r. }
  assert (later first (a_id a) s fs0 s (files w)) as Hla by (by eapply later_grown).
  assert (exists x, grown fs0 (segment_path (a_id a)) c0 x (files w) /\ x ++ a_buf a1 = a_buf a) as Hgx by eauto.
  destruct r as [[]|e]; [|by split; [|split_and!]].
  assert (files w !! segment_path (a_id a1) = Some (c0 ++ x)) as Hc1 by (rewrite Ei, Hg; apply lookup_insert_eq).
  revert w Hg Hok1 Hcr Hla Hc1 Hgx. intros w Hg Hok1 Hcr Hla Hc1 Hgx.
  apply (triple_bind (fun fs => fs = files w) _ (fun r fs => fs = files w /\
    match r with Ok n => n = length (default [] (fs !! segment_path (a_id a1))) | Err _ => True end)); [| |done].
  - apply triple_sync_len. by intros fs ->.
  - intros [n|e]; apply triple_ret; intros fs [-> Hn]; try done.
    rewrite Hc1 in Hn. cbn in Hn. subst n. cbn. split_and!; [by apply open_ok_sync| |done|done|done|done|done|done|done|].
    + eapply later_trans; [exact Hla|]. by eapply later_sync.
    + exists (c0 ++ x). rewrite <-Ei. split; [done|]. apply lookup_insert_eq.
Qed.

Lemma crash_ok_next incoming fs fs' : crash_ok fs0 a c0 incoming fs ->
  keeps (eq (segment_path (a_id a + 1))) fs fs' -> crash_ok fs0 a c0 incoming fs'.
Proof.
  intros [(x & Hx & Hl) Hk] Hk'. destruct active_nonneg as [Hf Ha]. split.
  - exists x. split; [done|]. rewrite Hk'; [done|]. intros E%segment_path_inj; lia.
  - eapply keeps_trans; [exact Hk|]. eapply keeps_mono; [|exact Hk']. intros q <-. by right.
Qed.

Definition rolled_result (r : WState * result Error Z) (fs : Files) : Prop :=
  exists a', s_open r.1 = Some a' /\ open_ok first hist r.1 a' fs /\
    later first (a_id a) s fs0 r.1 fs /\ crash_ok fs0 a c0 [] fs /\ same_rest s r.1 /\
    match r.2 with
    | Ok id => id = a_id a /\ a' = mkActive (a_id a + 1) [] SEGMENT_HEADER_BYTES SEGMENT_HEADER_BYTES /\
        forall b, open_ok first hist (set_needs_roll r.1 b) a' fs
    | Err _ => a_id a' = a_id a /\ a_bytes a' = a_bytes a
    end.

(** Creating the successor of a synced segment. *)
Lemma triple_next s1 a1 fs1 : synced_result (s1, a1, Ok tt) fs1 ->
  triple (fun fs => fs = fs1)
    (r ← attempt (create_segment (a_id a1 + 1));
     match r with
     | Err e => mret (set_open s1 (Some a1), Err e)
     | Ok (next, n) => mret (set_durable (set_open (set_open s1 (Some a1)) (Some next)) (a_id next) n, Ok (a_id a1))
     end) (crash_ok fs0 a c0 []) rolled_result.
Proof.
  intros (Hok1 & Hla & Hcr & Hrest & Ei & Eb & _ & Hb & Hsy & c & Hc & Hdur) w Hw. rewrite Ei in *.
  destruct active_nonneg as [Hf Ha].
  pose proof (local_keeps _ _ w (local_create_segment (a_id a + 1))) as Hk.
  destruct (create_segment_result (a_id a + 1) fs1 w Hw) as [_ Hnew]. rewrite Hw in Hk.
  unfold mbind, io_bind, attempt. cbn [exec]. destruct (create_segment (a_id a + 1) w) as [w' r]. cbn [fst snd] in *.
  assert (crash_ok fs0 a c0 [] (files w')) as Hcr' by (by eapply crash_ok_next).
  assert (forall id, first <= id <= a_id a -> files w' !! segment_path id = fs1 !! segment_path id) as Hsame.
  { intros id Hid. apply Hk. intros E%segment_path_inj; lia. }
  destruct r as [[next n]|e|]; cbn.
  - split; [done|]. destruct Hnew as (_ & Hhead & [= -> ->]). cbn.
    assert (forall b, open_ok first hist
      (set_needs_roll (set_durable (set_open s1 (Some (mkActive (a_id a + 1) [] SEGMENT_HEADER_BYTES
        SEGMENT_HEADER_BYTES))) (a_id a + 1) 14) b)
      (mkActive (a_id a + 1) [] SEGMENT_HEADER_BYTES SEGMENT_HEADER_BYTES) (files w')) as Hnext.
    { rewrite <-Ei. apply (open_ok_next first hist s1 a1 fs1 c); rewrite ?Ei; done. }
    eexists. cbn [fst snd]. split_and!; [done|exact (Hnext (s_needs_roll s1))| |done|done|done|done|exact Hnext].
    eapply later_trans; [exact Hla|]. split.
    + intros id c' Hid Hc'. exists []. by rewrite app_nil_r, Hsame.
    + intros id n Hn. exists n. split; [|done]. cbn. rewrite lookup_insert_ne; [done|].
      apply (oo_durable _ _ _ _ _ Hok1) in Hn. lia.
  - split; [done|]. exists a1. cbn. split_and!; [done| | |done|done|done|done].
    + apply (open_ok_same _ _ s1); [done|]. eapply open_ok_keeps; [|exact Hok1]. rewrite Ei.
      eapply keeps_mono; [|exact Hk]. intros q <- id Hid E%segment_path_inj; lia.
    + eapply later_trans; [exact Hla|]. by apply later_same.
  - done.
Qed.

Lemma triple_roll now : s_open s = Some a ->
  triple (fun fs => fs = fs0) (roll s now) (crash_ok fs0 a c0 []) rolled_result.
Proof.
  intros Hs. unfold roll. rewrite Hs. eapply triple_bind; [apply triple_sync_in_lock|].
  intros [[s1 a1] r] w Hr. destruct r as [[]|e]; [by apply (triple_next s1 a1 (files w))|].
  destruct Hr as (Hok1 & Hla & Hcr & Hrest & Ei & Eb & _). split; [done|]. exists a1. cbn.
  split_and!; [done|by apply (open_ok_same _ _ s1)| |done|done|done|done].
  eapply later_trans; [exact Hla|]. by apply later_same.
Qed.
End roll.
