(* ===== verification/WriterSteps.v ===== *)
(** * WriterSteps: appenders and the committer, interleaved

    The critical sections of [Writer] as the steps of one system, and the invariant of
    its reachable states. *)

From Stdlib Require Import ZArith Lia.
From Stdlib Require Import Strings.Byte.
From S2P Require Import Prelude Text Record Codec CodecProofs Disk Wal Lock Config Local Writer WriterProofs.
Open Scope Z_scope.

(** A computation and a function of its result. *)
Lemma triple_then {A B : Type} (P C : Files -> Prop) (Q : A -> Files -> Prop) (R : B -> Files -> Prop)
    (m : io A) (k : A -> io B) :
  triple P m C Q -> (forall a, exists b, k a = mret b /\ forall fs, Q a fs -> R b fs) ->
  triple P (m ≫= k) C R.
Proof.
  intros Hm Hk w Hw. destruct (Hm w Hw) as [HC HQ]. unfold mbind, io_bind. cbn [exec].
  destruct (m w) as [w' [a| |]]; [|done|done]. cbn in *. destruct (Hk a) as (b & -> & Hb). cbn. auto.
Qed.

(** ** Appending *)

Section append.
Context (first : Z) (hist : list (Z * bytes)) (s : WState) (a : Active) (fs0 : Files) (c0 : bytes).
Context (Hok : open_ok first hist s a fs0) (Hc0 : fs0 !! segment_path (a_id a) = Some c0).

Definition acked_active (a1 : Active) (c : bytes) : Active :=
  mkActive (a_id a1) (a_buf a1) (a_bytes a1 + zlen c) (a_synced a1).

Lemma open_ok_append a1 c x fs1 s1 : s_needs_roll s = false -> s_durable s1 = s_durable s ->
  grown fs0 (segment_path (a_id a)) c0 x fs1 -> same_file a a1 -> x ++ a_buf a1 = a_buf a ++ c ->
  open_ok first (hist ++ [(a_id a, c)]) s1 (acked_active a1 c) fs1.
Proof.
  intros Hroll Ed Hg (Ei & Eb & Es) Hx. destruct Hok as [Hf Hh Hd Hs (c1 & tail & [H1 H2 H3 H4 (n & H5 & H5' & H5'') H6])].
  rewrite Hc0 in H1. injection H1 as <-.
  assert (tail = []) as ->. { destruct tail; [done|]. rewrite H3 in Hroll; done. }
  pose proof (zlen_nonneg c). split; cbn; rewrite ?Ei; [done| |by rewrite Ed| |].
  - apply Forall_app. split; [done|]. apply Forall_singleton. cbn. lia.
  - intros id Hid. destruct (Hs id Hid) as (t & Ht & Hn). exists t. unfold whole.
    rewrite acked_snoc_ne by lia. rewrite Ed. split; [|done]. rewrite Hg, lookup_insert_ne; [done|].
    intros E%segment_path_inj; lia.
  - exists (c0 ++ x), []. split; cbn; rewrite ?Ei, ?Eb, ?Es.
    + rewrite Hg. apply lookup_insert_eq.
    + rewrite <-app_assoc, Hx, app_assoc, H2. unfold whole. rewrite acked_snoc_eq, !app_nil_r. by rewrite <-app_assoc.
    + done.
    + rewrite acked_snoc_eq, zlen_app. lia.
    + exists n. rewrite Ed. split_and!; [done|done|]. rewrite length_app. lia.
    + lia.
Qed.

(** A failed append leaves at most a torn tail. *)
Lemma open_ok_torn a1 t x fs1 s1 : s_needs_roll s = false -> s_needs_roll s1 = true -> s_durable s1 = s_durable s ->
  grown fs0 (segment_path (a_id a)) c0 x fs1 -> same_file a a1 -> x ++ a_buf a1 = a_buf a ++ t ->
  open_ok first hist s1 a1 fs1.
Proof.
  intros Hroll Hroll1 Ed Hg (Ei & Eb & Es) Hx.
  destruct Hok as [Hf Hh Hd Hs (c1 & tail & [H1 H2 H3 H4 (n & H5 & H5' & H5'') H6])].
  rewrite Hc0 in H1. injection H1 as <-.
  assert (tail = []) as ->. { destruct tail; [done|]. rewrite H3 in Hroll; done. }
  split; rewrite ?Ei; [done|done|by rewrite Ed| |].
  - intros id Hid. destruct (Hs id Hid) as (t' & Ht & Hn). exists t'. rewrite Ed. split; [|done].
    rewrite Hg, lookup_insert_ne; [done|]. intros E%segment_path_inj; lia.
  - exists (c0 ++ x), t. split; rewrite ?Ei, ?Eb, ?Es; [|..|done| |done]; [| |done|].
    + rewrite Hg. apply lookup_insert_eq.
    + rewrite <-app_assoc, Hx, app_assoc, H2. unfold whole. by rewrite app_nil_r, <-app_assoc.
    + exists n. rewrite Ed. split_and!; [done|done|]. rewrite length_app. lia.
Qed.

Lemma crash_ok_after a1 x t c fs1 fs : a_id a1 = a_id a -> grown fs0 (segment_path (a_id a)) c0 x fs1 ->
  x ++ a_buf a1 = a_buf a ++ t -> t `prefix_of` c -> crash_ok fs1 a1 (c0 ++ x) [] fs -> crash_ok fs0 a c0 c fs.
Proof.
  intros Ei Hg Hx Ht [(y & Hy & Hl) Hk]. rewrite Ei in Hl, Hk. split.
  - exists (x ++ y). rewrite app_assoc. split; [|done]. rewrite app_nil_r in Hy. destruct Hy as [z Hz], Ht as [u ->].
    exists (z ++ u). rewrite app_assoc, <-Hx, Hz. by rewrite !app_assoc.
  - eapply keeps_trans; [|exact Hk]. rewrite Hg. apply keeps_insert. by left.
Qed.

Definition append_result (c : bytes) (r : WState * result Error bool) (fs : Files) : Prop :=
  exists a', s_open r.1 = Some a' /\ later first (a_id a) s fs0 r.1 fs /\
    a_id a <= a_id a' /\
    open_ok first (match r.2 with Ok _ => hist ++ [(a_id a, c)] | Err _ => hist end) r.1 a' fs.

Lemma triple_append cfg c now : s_open s = Some a ->
  triple (fun fs => fs = fs0) (append_bytes cfg s c now) (crash_ok fs0 a c0 c) (append_result c).
Proof.
  intros Hs. destruct (active_nonneg _ _ _ _ _ Hok) as [Hf Ha]. unfold append_bytes. rewrite Hs.
  destruct (s_needs_roll s) eqn:Hroll.
  { apply triple_ret; intros fs ->; [by eapply grown_crash; [apply prefix_nil|apply grown_nil]|].
    exists a. cbn. split_and!; [done|by apply later_same|lia|done]. }
  eapply triple_bind.
  { eapply triple_crash; [by apply (triple_write_all fs0 a c0 c)|]. intros fs (x & Hg & Hx). by eapply grown_crash. }
  intros [a1 r] w (Hsf & x & t & Hg & Hx & Ht & Hr). cbn [fst snd] in *. pose proof Hsf as (Ei & _).
  assert (files w !! segment_path (a_id a1) = Some (c0 ++ x)) as Hc1 by (rewrite Ei, Hg; apply lookup_insert_eq).
  destruct r as [[]|e].
  - subst t. split; cbn; [eapply grown_crash; [|done]; rewrite <-Hx; by apply prefix_app_r|].
    exists (acked_active a1 c). cbn. split_and!; [done|by eapply later_grown|lia|by eapply open_ok_append].
  - set (s1 := set_needs_roll (set_open s (Some a1)) true).
    assert (open_ok first hist s1 a1 (files w)) as Hok1 by (by eapply open_ok_torn).
    revert w Hg Hc1 Hok1. intros w Hg Hc1 Hok1.
    apply (triple_bind (fun fs => fs = files w) _ (rolled_result first hist s1 a1 (files w) (c0 ++ x))); [| |done].
    + eapply triple_crash; [by apply triple_roll|]. intros fs Hcr. by eapply crash_ok_after.
    + intros [s2 r] w2 (a2 & Ho & Hok2 & Hla & Hcr & Hrest & Hres). cbn [fst snd] in *.
      assert (later first (a_id a) s fs0 s2 (files w2)) as Hla2.
      { eapply later_trans; [by eapply (later_grown _ _ s s1)|]. by rewrite Ei in Hla. }
      split; [by eapply crash_ok_after|]. cbn. exists a2. destruct r as [id|e']; cbn.
      * destruct Hres as (_ & -> & Hb). split_and!; [done| |cbn; lia|apply Hb].
        eapply later_trans; [exact Hla2|]. by apply later_same.
      * split_and!; [done|done|lia|done].
Qed.
End append.

(** ** The system *)

(** What callers and the committer thread do. [Stop] and [Close] are the two halves of
    [WalWriter::close], before and after the committer is joined. *)
Inductive Event :=
| AppendE (c : bytes)
| SealE
| CommitE (elapsed beat : bool)
| StopE
| CloseE.

Section system.
Context (cfg : WalConfig) (lock : option path) (pid : Z).

(** One step: the new state and what it acknowledged. *)
Definition wstep (e : Event) (now : Z) (y : Sys) : io (Sys * list (Z * bytes)) :=
  let s := y_state y in
  match e with
  | AppendE c =>
      r ← append_bytes cfg s c now;
      let '(s', r) := r in
      mret (mkSys s' (y_pc y) (y_retry y), match r with Ok _ => [(active_segment s, c)] | Err _ => [] end)
  | SealE =>
      r ← seal s now;
      mret (mkSys r.1 (y_pc y) (y_retry y), [])
  | CommitE elapsed beat =>
      y' ← committer cfg lock pid elapsed beat now y;
      mret (y', [])
  | StopE => mret (mkSys (set_stop s) (y_pc y) (y_retry y), [])
  | CloseE =>
      match y_pc y with
      | Gone => r ← close_active s now; mret (mkSys r.1 Gone (y_retry y), [])
      | _ => mret (y, [])
      end
  end.

(** The states a writer opened at [first] reaches, with the appends acknowledged. *)
Inductive reachable (first : Z) : Sys -> list (Z * bytes) -> World -> Prop :=
| reach_open w w' s : 0 <= first -> writer_open first w = (w', Ret s) ->
    reachable first (mkSys s Waiting false) [] w'
| reach_step y hist w e now y' new w' : reachable first y hist w ->
    wstep e now y w = (w', Ret (y', new)) -> reachable first y' (hist ++ new) w'.

(** What the committer remembers between critical sections. *)
Definition pc_ok (hist : list (Z * bytes)) (s : WState) (first last_ : Z) (pc : Pc) (fs : Files) : Prop :=
  match pc with
  | Flushed id upto => first <= id <= last_ /\ upto <= SEGMENT_HEADER_BYTES + zlen (acked hist id) /\
      exists c, fs !! segment_path id = Some c /\ upto <= zlen c
  | Synced id upto => first <= id <= last_ /\ upto <= SEGMENT_HEADER_BYTES + zlen (acked hist id) /\
      exists n, s_durable s !! id = Some n /\ upto <= Z.of_nat n
  | _ => True
  end.

(** The log once the writer is closed. *)
Definition closed_ok (first : Z) (hist : list (Z * bytes)) (s : WState) (fs : Files) : Prop :=
  exists last_ c tail n, 0 <= first <= last_ /\ sealed_ok hist s first last_ fs /\
    fs !! segment_path last_ = Some c /\ c `prefix_of` whole hist last_ tail /\
    s_durable s !! last_ = Some n /\ (n <= length c)%nat.

Definition winv (first : Z) (hist : list (Z * bytes)) (y : Sys) (fs : Files) : Prop :=
  let s := y_state y in
  match s_open s with
  | Some a => open_ok first hist s a fs /\ pc_ok hist s first (a_id a) (y_pc y) fs
  | None => y_pc y = Gone /\ closed_ok first hist s fs
  end.

Lemma acked_mono hist c id id' : zlen (acked hist id') <= zlen (acked (hist ++ [(id, c)]) id').
Proof.
  destruct (decide (id = id')) as [->|Hne].
  - rewrite acked_snoc_eq, zlen_app. pose proof (zlen_nonneg c). lia.
  - by rewrite acked_snoc_ne.
Qed.

Lemma pc_ok_later hist hist' s s' first last_ last' pc fs fs' :
  pc_ok hist s first last_ pc fs -> last_ <= last' -> later first last_ s fs s' fs' ->
  (forall id, zlen (acked hist id) <= zlen (acked hist' id)) -> pc_ok hist' s' first last' pc fs'.
Proof.
  intros Hpc Hl [Hf Hd] Hh. destruct pc as [|id upto|id upto| | |]; cbn in *; try done;
    destruct Hpc as (Hid & Hu & Hx); pose proof (Hh id); (split_and!; [lia|lia|lia|]).
  - destruct Hx as (c & Hc & Hle). destruct (Hf id c Hid Hc) as [x Hx]. exists (c ++ x). split; [done|].
    rewrite zlen_app. pose proof (zlen_nonneg x). lia.
  - destruct Hx as (n & Hn & Hle). destruct (Hd id n Hn) as (n' & Hn' & Hle'). exists n'. split; [done|lia].
Qed.

(** A stop during a step. *)
Definition halted_ok (first : Z) (y : Sys) (incoming : bytes) (fs0 fs : Files) : Prop :=
  forall a c0, s_open (y_state y) = Some a -> fs0 !! segment_path (a_id a) = Some c0 ->
    (exists x, x `prefix_of` a_buf a ++ incoming /\ fs !! segment_path (a_id a) = Some (c0 ++ x)) /\
    (forall id, first <= id < a_id a -> fs !! segment_path id = fs0 !! segment_path id).

Lemma crash_halted first y a incoming fs0 c0 fs : s_open (y_state y) = Some a -> 0 <= first ->
  fs0 !! segment_path (a_id a) = Some c0 -> crash_ok fs0 a c0 incoming fs -> halted_ok first y incoming fs0 fs.
Proof.
  intros Hs Hf Hc [Hx Hk] a' c' Ha Hc'. rewrite Hs in Ha. injection Ha as <-. rewrite Hc in Hc'. injection Hc' as <-.
  split; [done|]. intros id Hid. apply Hk. intros [E|E]; apply segment_path_inj in E; lia.
Qed.

Lemma halted_same first y incoming fs0 fs :
  (forall id, fs !! segment_path id = fs0 !! segment_path id) -> halted_ok first y incoming fs0 fs.
Proof.
  intros Hsame a c0 _ Hc. split; [|by intros]. exists []. split; [apply prefix_nil|].
  by rewrite app_nil_r, Hsame.
Qed.

Section step.
Context (first : Z) (hist : list (Z * bytes)) (y : Sys) (fs0 : Files) (now : Z).
Let s := y_state y.

Definition step_ok (m : io (Sys * list (Z * bytes))) (incoming : bytes) : Prop :=
  triple (fun fs => fs = fs0) m (halted_ok first y incoming fs0)
    (fun r fs => winv first (hist ++ r.2) r.1 fs).

Section opened.
Context (a : Active) (c0 : bytes) (Hs : s_open s = Some a) (Hok : open_ok first hist s a fs0)
  (Hc0 : fs0 !! segment_path (a_id a) = Some c0) (Hpc : pc_ok hist s first (a_id a) (y_pc y) fs0).

Lemma first_nonneg : 0 <= first.
Proof. by destruct (active_nonneg _ _ _ _ _ Hok). Qed.

(** A result whose log is later than the start. *)
Lemma winv_later s' a' pc retry fs : s_open s' = Some a' -> open_ok first hist s' a' fs ->
  later first (a_id a) s fs0 s' fs -> a_id a <= a_id a' ->
  (pc = y_pc y \/ pc_ok hist s' first (a_id a') pc fs) ->
  winv first (hist ++ []) (mkSys s' pc retry) fs.
Proof.
  intros Ho Hok' Hla Hle Hp. unfold winv. cbn [y_state y_pc]. rewrite Ho, app_nil_r. split; [done|].
  destruct Hp as [->|Hp]; [|done]. by eapply pc_ok_later.
Qed.

Lemma to_halted incoming fs : crash_ok fs0 a c0 incoming fs -> halted_ok first y incoming fs0 fs.
Proof. intros Hcr. by eapply crash_halted; [| |exact Hc0|]; [|apply first_nonneg|]. Qed.

Lemma step_append c : step_ok (wstep (AppendE c) now y) c.
Proof.
  eapply triple_then.
  { eapply triple_crash; [by apply (triple_append first hist s a fs0 c0)|]. apply to_halted. }
  intros [s' r]. eexists. split; [done|]. intros fs (a' & Ho & Hla & Hle & Hok'). cbn [fst snd] in *.
  unfold active_segment. fold s. rewrite Hs. unfold winv. cbn [y_state y_pc]. rewrite Ho.
  destruct r as [b|e]; rewrite ?app_nil_r; (split; [done|]); eapply pc_ok_later; try done.
  intros id. apply acked_mono.
Qed.

Lemma rolled_later r fs : rolled_result first hist s a fs0 c0 r fs ->
  exists a', s_open r.1 = Some a' /\ open_ok first hist r.1 a' fs /\ later first (a_id a) s fs0 r.1 fs /\ a_id a <= a_id a'.
Proof.
  intros (a' & Ho & Hok' & Hla & _ & _ & Hr). exists a'. split_and!; [done|done|done|].
  destruct r.2; [destruct Hr as (_ & -> & _); cbn; lia|lia].
Qed.

Lemma triple_roll_now : triple (fun fs => fs = fs0) (roll_now s now) (crash_ok fs0 a c0 [])
  (fun r fs => exists a', s_open r.1 = Some a' /\ open_ok first hist r.1 a' fs /\
    later first (a_id a) s fs0 r.1 fs /\ a_id a <= a_id a').
Proof.
  eapply triple_then; [by apply triple_roll|]. intros [s' [id|e]]; (eexists; split; [done|]); intros fs Hr.
  - destruct Hr as (a' & Ho & Hok' & Hla & _ & _ & _ & -> & Hb). cbn in *. eexists. split_and!; [exact Ho|apply Hb| |cbn; lia].
    eapply later_trans; [exact Hla|]. by apply later_same.
  - by apply rolled_later in Hr.
Qed.

Lemma winv_same retry : winv first (hist ++ []) (mkSys s (y_pc y) retry) fs0.
Proof. eapply winv_later; [exact Hs|done|by apply later_same|lia|by left]. Qed.

Lemma step_seal : step_ok (wstep SealE now y) [].
Proof.
  apply (triple_then _ _ (fun r fs => winv first (hist ++ []) (mkSys r.1 (y_pc y) (y_retry y)) fs)).
  2: { intros r. eexists. split; [done|]. done. }
  unfold seal. fold s. rewrite Hs. destruct (_ =? _).
  { apply triple_ret; intros fs ->; [apply halted_same; done|]. apply winv_same. }
  eapply triple_then; [eapply triple_crash; [apply triple_roll_now|apply to_halted]|].
  intros [s' r]. eexists. split; [done|]. intros fs (a' & Ho & Hok' & Hla & Hle).
  by eapply winv_later; [..|left].
Qed.

Lemma step_begin elapsed : triple (fun fs => fs = fs0) (commit_begin cfg elapsed y) (halted_ok first y [] fs0)
  (fun y' fs => winv first (hist ++ []) y' fs).
Proof.
  assert (forall pc retry, pc_ok hist s first (a_id a) pc fs0 ->
    triple (fun fs => fs = fs0) (mret (mkSys s pc retry)) (halted_ok first y [] fs0)
      (fun y' fs => winv first (hist ++ []) y' fs)) as Hstay.
  { intros pc retry Hp. apply triple_ret; intros fs ->; [by apply halted_same|].
    eapply winv_later; [exact Hs|done|by apply later_same|lia|by right]. }
  unfold commit_begin. fold s. cbv zeta. destruct (s_stop s); [by apply Hstay|]. rewrite Hs.
  destruct (negb _); [by apply Hstay|]. eapply triple_then.
  { eapply triple_crash; [by apply (triple_buf_flush fs0 a c0)|]. intros fs (x & Hg & Hx). apply to_halted.
    eapply grown_crash; [|done]. by rewrite app_nil_r. }
  intros [a1 r]. destruct r as [[]|e]; (eexists; split; [done|]); intros fs ((Ei & Eb & Es) & x & Hg & Hx & Hr); cbn [fst snd] in *.
  all: assert (open_ok first hist s a1 fs) as Hok1 by (by eapply open_ok_flush).
  all: pose proof first_nonneg; destruct (oo_first _ _ _ _ _ Hok) as [_ ?].
  all: eapply winv_later; [done|by apply (open_ok_same _ _ s)|eapply (later_grown _ _ _ _ _ (a_id a)); [done|lia|exact Hc0|exact Hg|done]|lia|].
  - right. cbn. rewrite Ei. destruct (oo_active _ _ _ _ _ Hok1) as (c & tail & [H1 H2 H3 H4 _ _]).
    rewrite Ei in *. split_and!; [lia|lia|lia|]. exists c. split; [done|]. rewrite Hr, app_nil_r in H2.
    unfold zlen at 1. rewrite H2, length_whole, H4. pose proof (zlen_nonneg tail). lia.
  - by right.
Qed.

Lemma open_ok_durable id c s1 : first <= id <= a_id a -> fs0 !! segment_path id = Some c ->
  s_durable s1 = <[id := length c]> (s_durable s) -> s_needs_roll s1 = s_needs_roll s -> 
  open_ok first hist s1 a fs0 /\ later first (a_id a) s fs0 s1 fs0.
Proof.
  intros Hid Hc Ed Er. destruct Hok as [Hf Hh Hd Hse (c1 & tail & [H1 H2 H3 H4 (n & H5 & H5' & H5'') H6])].
  assert (forall i m, s_durable s !! i = Some m -> first <= i <= a_id a ->
    exists m', s_durable s1 !! i = Some m' /\ (m <= m')%nat /\ (i <> id -> m' = m)) as Hup.
  { intros i m Hm Hi. rewrite Ed. destruct (decide (i = id)) as [->|Hne]; [|exists m; by rewrite lookup_insert_ne].
    exists (length c). rewrite lookup_insert_eq. split_and!; [done| |done]. destruct (decide (id = a_id a)) as [->|Hne].
    - congruence.
    - destruct (Hse id) as (t & Ht & Hn); [lia|]. rewrite Hc in Ht. injection Ht as ->. rewrite Hm in Hn. by injection Hn as ->. }
  split; [split; [done|done| | |]|split; [intros i ci _ Hci; exists []; by rewrite app_nil_r|]].
  - rewrite Ed. intros i m [[<- _]|[_ Hm]]%lookup_insert_Some; [done|by eapply Hd].
  - intros i Hi. destruct (Hse i Hi) as (t & Ht & Hn). exists t. split; [done|]. rewrite Ed.
    destruct (decide (i = id)) as [->|Hne]; [|by rewrite lookup_insert_ne]. rewrite lookup_insert_eq.
    rewrite Hc in Ht. by injection Ht as ->.
  - exists c1, tail. split; [done|done|by rewrite Er|done| |done].
    destruct (Hup _ _ H5) as (m & Hm & Hle & Hne); [lia|]. exists m. split_and!; [done|lia|].
    destruct (decide (a_id a = id)) as [E|E]; [|rewrite Hne by done; lia].
    rewrite Ed, <-E, lookup_insert_eq in Hm. injection Hm as <-. rewrite <-E in Hc. rewrite H1 in Hc. by injection Hc as ->.
  - intros i m Hm. pose proof (Hd i m Hm) as Hi. destruct (Hup i m Hm Hi) as (m' & ? & ? & _). eauto.
Qed.

Lemma step_sync id upto : y_pc y = Flushed id upto ->
  triple (fun fs => fs = fs0) (commit_sync id upto now y) (halted_ok first y [] fs0)
    (fun y' fs => winv first (hist ++ []) y' fs).
Proof.
  intros Ey. pose proof Hpc as Hp. rewrite Ey in Hp. destruct Hp as (Hid & Hu & c & Hc & Hle). unfold commit_sync. fold s.
  eapply triple_then; [apply (triple_sync_len (fun fs => fs = fs0)); intros fs ->; by apply halted_same|].
  intros [n|e]; (eexists; split; [done|]); intros fs [-> Hn].
  - rewrite Hc in Hn. cbn in Hn. subst n.
    destruct (open_ok_durable id c (note_fsync (set_durable s id (length c)) now)) as [Ho Hl]; [done..|].
    eapply winv_later; [exact Hs|done|done|lia|]. right. cbn. split_and!; [lia|lia|lia|].
    exists (length c). rewrite lookup_insert_eq. split; [done|]. exact Hle.
  - eapply winv_later; [exact Hs|by apply (open_ok_same _ _ s)|by apply later_same|lia|by right].
Qed.

Lemma step_end id upto : y_pc y = Synced id upto -> winv first (hist ++ []) (commit_end id upto y) fs0.
Proof.
  intros Ey. pose proof Hpc as Hp. rewrite Ey in Hp. destruct Hp as (Hid & Hu & n & Hn & Hle). unfold commit_end. fold s. rewrite Hs.
  destruct (a_id a =? id) eqn:E.
  - apply Z.eqb_eq in E. subst id.
    pose proof Hok as [Hf Hh Hd Hse (c1 & tail & [H1 H2 H3 H4 (n1 & H5 & H5' & H5'') H6])].
    rewrite Hn in H5. injection H5 as ->.
    eapply winv_later; [done| |by apply later_same|done|by right]. split; [done|done|done|done|].
    exists c1, tail. split; cbn; [done|done|done|done| |lia]. exists n1. split_and!; [done|lia|done].
  - eapply winv_later; [exact Hs|done|by apply later_same|lia|by right].
Qed.

Lemma step_roll : triple (fun fs => fs = fs0) (commit_roll cfg now y) (halted_ok first y [] fs0)
  (fun y' fs => winv first (hist ++ []) y' fs).
Proof.
  unfold commit_roll. fold s. cbv zeta. destruct (_ || _).
  - eapply triple_then; [eapply triple_crash; [apply triple_roll_now|apply to_halted]|].
    intros [s' r]. eexists. split; [done|]. intros fs (a' & Ho & Hok' & Hla & Hle).
    by eapply winv_later; [..|right].
  - apply triple_ret; intros fs ->; [by apply halted_same|].
    eapply winv_later; [exact Hs|done|by apply later_same|lia|by right].
Qed.

Lemma step_close : y_pc y = Gone ->
  triple (fun fs => fs = fs0) (r ← close_active s now; mret (mkSys r.1 Gone (y_retry y), []))
    (halted_ok first y [] fs0) (fun r fs => winv first (hist ++ r.2) r.1 fs).
Proof.
  intros Ey. apply (triple_then _ _ (fun r fs => s_open r.1 = None /\ closed_ok first hist r.1 fs)).
  2: { intros r. eexists. split; [done|]. intros fs [Ho Hcl]. unfold winv. cbn. rewrite Ho, app_nil_r. done. }
  unfold close_active. rewrite Hs. eapply triple_bind.
  { eapply triple_crash; [by apply (triple_sync_in_lock first hist s a fs0 c0)|]. apply to_halted. }
  intros [[s1 a1] r] w (Hok1 & Hla & Hcr & _ & Ei & _ & (x & Hg & Hx) & _).
  assert (files w !! segment_path (a_id a1) = Some (c0 ++ x)) as Hc1 by (rewrite Ei, Hg; apply lookup_insert_eq).
  apply (triple_then (fun fs => fs = files w) (halted_ok first y [] fs0)
    (fun r fs => exists z, grown (files w) (segment_path (a_id a1)) (c0 ++ x) z fs /\ z ++ a_buf r.1 = a_buf a1)
    (fun r fs => s_open r.1 = None /\ closed_ok first hist r.1 fs)); [| |done].
  - eapply triple_conseq; [eapply triple_crash; [by apply (triple_buf_flush (files w) a1 (c0 ++ x))|]|done|].
    + intros fs (z & Hz & Hpre). apply to_halted. rewrite Ei in Hz. eapply grown_crash; [|by eapply grown_twice].
      rewrite app_nil_r, <-Hx. by apply prefix_app.
    + intros [a2 r2] fs (_ & z & Hz & Hx2 & _). by exists z.
  - intros [a2 r2]. eexists. split; [done|]. intros fs (z & Hz & Hx2). split; [done|]. cbn [fst] in *.
    destruct (open_ok_flush first hist s1 a1 (mkActive (a_id a1) (a_buf a2) (a_bytes a1) (a_synced a1)) _ _ _ _ Hc1 Hz)
      as [Hf Hh Hd Hse (c2 & tail & [H1 H2 H3 H4 (n & H5 & H5' & H5'') H6])]; [done|done|done|].
    cbn [a_id a_buf a_bytes a_synced] in *. exists (a_id a1), c2, tail, n. split_and!; [lia|lia|done|done| |done|done].
    rewrite <-H2. by apply prefix_app_r.
Qed.

Lemma step_heartbeat beat : (forall p id, lock = Some p -> p <> segment_path id) ->
  triple (fun fs => fs = fs0) (heartbeat lock pid beat y) (halted_ok first y [] fs0)
    (fun y' fs => winv first (hist ++ []) y' fs).
Proof.
  intros Hlock. set (D := fun q : path => forall id, q <> segment_path id).
  assert (local D (heartbeat lock pid beat y)) as Hl.
  { unfold heartbeat. apply local_bind; [|intros; apply local_ret].
    destruct lock as [p|] eqn:El; [|apply local_ret]. destruct beat; [|apply local_ret].
    assert (D p) by (intros id; by apply Hlock). unfold touch_lock, open_truncate, write_pid.
    apply local_bind; [|intros; apply local_ret]. apply local_bind; [|intros; local_solve].
    apply local_whole; [apply _|by intros ? ->|]. intros fs. cbn. destruct (fs !! p); [by apply keeps_insert|apply keeps_refl]. }
  intros w Hw. assert (forall id, files (heartbeat lock pid beat y w).1 !! segment_path id = fs0 !! segment_path id) as Hsame.
  { intros id. rewrite (local_keeps _ _ w Hl), Hw; [done|]. intros Hd. by apply (Hd id). }
  split; [by apply halted_same|]. revert Hsame.
  destruct (heartbeat lock pid beat y w) as [w' [y'|e|]] eqn:E; [|done|done]. cbn. intros Hsame.
  assert (y' = mkSys s Waiting (y_retry y)) as ->.
  { revert E. unfold heartbeat, mbind, io_bind. cbn [exec].
    match goal with |- context [match ?m w with _ => _ end] => destruct (m w) as [w1 [u|e|]] end; [|done|done].
    by intros [= _ <-]. }
  eapply winv_later; [exact Hs| |by apply later_same|lia|by right].
  eapply open_ok_keeps; [|exact Hok]. pose proof (local_keeps _ _ w Hl) as Hk. rewrite E, Hw in Hk.
  eapply keeps_mono; [|exact Hk]. intros q Hq id _. apply Hq.
Qed.
End opened.

Definition incoming_of (e : Event) : bytes := match e with AppendE c => c | _ => [] end.

Lemma step_closed e : s_open s = None -> y_pc y = Gone -> closed_ok first hist s fs0 ->
  step_ok (wstep e now y) (incoming_of e).
Proof.
  intros Hs Hp Hcl.
  assert (forall s' retry, s_open s' = None -> s_durable s' = s_durable s ->
    winv first (hist ++ []) (mkSys s' Gone retry) fs0) as Hsame.
  { intros s' retry Ho Ed. unfold winv. cbn. rewrite Ho, app_nil_r. split; [done|].
    destruct Hcl as (l & c & t & n & ? & Hse & ? & ? & Hd & ?). exists l, c, t, n. unfold sealed_ok. by rewrite Ed. }
  unfold step_ok, wstep. fold s. rewrite Hp. destruct e as [c| |el be| |].
  - unfold append_bytes. rewrite Hs. destruct (s_needs_roll s); apply triple_ret; intros fs ->;
      try (by apply halted_same); cbn; by apply Hsame.
  - unfold seal. rewrite Hs. apply triple_ret; intros fs ->; [by apply halted_same|]. cbn. by apply Hsame.
  - unfold committer. rewrite Hp. apply triple_ret; intros fs ->; [by apply halted_same|]. cbn.
    unfold winv. fold s. rewrite Hs, app_nil_r. done.
  - apply triple_ret; intros fs ->; [by apply halted_same|]. cbn. by apply Hsame.
  - unfold close_active. rewrite Hs. apply triple_ret; intros fs ->; [by apply halted_same|]. cbn. by apply Hsame.
Qed.

(** Every step keeps the invariant, and a stop in the middle of one leaves the log as
    [halted_ok] says. *)
Lemma step_invariant e : (forall p id, lock = Some p -> p <> segment_path id) ->
  winv first hist y fs0 -> step_ok (wstep e now y) (incoming_of e).
Proof.
  intros Hlock Hinv. unfold winv in Hinv. fold s in Hinv. destruct (s_open s) as [a|] eqn:Hs.
  2: { destruct Hinv. by apply step_closed. }
  destruct Hinv as [Hok Hpc]. pose proof (oo_active _ _ _ _ _ Hok) as (c0 & tail & [Hc0 _ _ _ _ _]).
  destruct e as [c| |el be| |].
  - by eapply step_append.
  - by eapply step_seal.
  - apply (triple_then _ _ (fun y' fs => winv first (hist ++ []) y' fs)).
    2: { intros y'. eexists. split; [done|]. done. }
    unfold committer. destruct (y_pc y) as [|id upto|id upto| | |] eqn:Ey.
    + eapply step_begin; first [eassumption|done|by rewrite Ey].
    + eapply step_sync; first [eassumption|done|by rewrite Ey].
    + apply triple_ret; intros fs ->; [by apply halted_same|].
      eapply step_end; first [eassumption|done|by rewrite Ey].
    + eapply step_roll; first [eassumption|done|by rewrite Ey].
    + eapply step_heartbeat; first [eassumption|done|by rewrite Ey].
    + apply triple_ret; intros fs ->; [by apply halted_same|]. unfold winv. fold s. rewrite Hs, Ey, app_nil_r. done.
  - apply triple_ret; intros fs ->; [by apply halted_same|].
    eapply winv_later; [exact Hpc|done|by apply (open_ok_same _ _ s)|by apply later_same|lia|by left].
  - unfold step_ok, wstep. fold s. destruct (y_pc y) eqn:Ey;
      try (apply triple_ret; intros fs ->; [by apply halted_same|]; unfold winv; cbn; fold s; rewrite Hs, Ey, app_nil_r; done).
    eapply step_close; first [eassumption|done|by rewrite Ey].
Qed.
End step.

Lemma open_invariant first w w' s : 0 <= first -> writer_open first w = (w', Ret s) ->
  winv first [] (mkSys s Waiting false) (files w').
Proof.
  intros Hf E. unfold writer_open in E.
  assert (exists w1 w2 r, files w1 = files w2 /\ create_segment first w1 = (w', Ret r) /\
    s = mkWState (Some r.1) false 0 false 0 0 0 {[first := r.2]}) as (w1 & _ & r & _ & Ec & ->).
  { revert E. rewrite exec_bind. destruct (try (create_dir_all wal_dir) w) as [wa [[]|e|]]; [|done|done].
    rewrite exec_bind. destruct (try (fsync_dir []) wa) as [wb [[]|e|]]; [|done|done].
    rewrite exec_bind. destruct (create_segment first wb) as [wc [r|e|]] eqn:Ec; [|done|done]. intros [= <- <-]. by exists wb, wb, r. }
  destruct (create_segment_result first (files w1) w1 eq_refl) as [_ Hq]. rewrite Ec in Hq. cbn [fst snd] in Hq.
  destruct Hq as (_ & Hh & ->). unfold winv. cbn [y_state y_pc s_open fst snd]. split; [|done].
  split; cbn [a_id s_durable]; [lia|constructor| | |].
  - intros id n [<- _]%lookup_singleton_Some. lia.
  - intros id Hid. lia.
  - exists (encode_segment_header [] first), []. split; cbn [a_id a_buf a_bytes a_synced s_durable s_needs_roll]; [done| |done|done| |lia].
    + unfold whole. cbn [acked filter list_filter fmap list_fmap concat]. by rewrite !app_nil_r.
    + exists 14%nat. rewrite lookup_singleton_eq, length_header. done.
Qed.

Lemma reachable_winv first y hist w : (forall p id, lock = Some p -> p <> segment_path id) ->
  reachable first y hist w -> winv first hist y (files w).
Proof.
  intros Hlock. induction 1 as [w w' s Hf E|y hist w e now y' new w' Hr IH E]; [by eapply open_invariant|].
  destruct (step_invariant first hist y (files w) now e Hlock IH w eq_refl) as [_ Hq]. by rewrite E in Hq.
Qed.
End system.
