(* ===== verification/WriterTheorems.v ===== *)
(** * WriterTheorems: what the write-ahead log guarantees *)

From Stdlib Require Import ZArith Lia.
From Stdlib Require Import Strings.Byte.
From S2P Require Import Prelude Text Record Codec CodecProofs Disk Wal Lock Config Local Writer WriterProofs WriterSteps.
Open Scope Z_scope.

Section theorems.
Context (cfg : WalConfig) (lock : option path) (pid : Z).
Context (Hlock : forall p id, lock = Some p -> p <> segment_path id).

(** C3: The log is exact. In every state the writer reaches, with callers and the
    committer interleaved in any way and any I/O errors: the active file followed by
    the buffer is the segment header, then every acknowledged append of that segment
    in order, then nothing, or a torn tail while appends are refused; the byte count
    is that of the acknowledged bytes, and never less than what is synced; each sealed
    segment holds its header and its acknowledged appends, with at most a torn tail.
    A stop in the middle of any step only adds buffered or incoming bytes to the
    active file. *)
Theorem wal_log_exact first y hist w :
  reachable cfg lock pid first y hist w ->
  (forall a, s_open (y_state y) = Some a ->
    0 <= dirty a /\ a_bytes a = SEGMENT_HEADER_BYTES + zlen (acked hist (a_id a)) /\
    (exists c tail, files w !! segment_path (a_id a) = Some c /\
      c ++ a_buf a = encode_segment_header [] (a_id a) ++ acked hist (a_id a) ++ tail /\
      (s_needs_roll (y_state y) = false -> tail = [])) /\
    (forall id, first <= id < a_id a -> exists tail,
      files w !! segment_path id = Some (encode_segment_header [] id ++ acked hist id ++ tail)) /\
    Forall (fun x => first <= x.1 <= a_id a) hist) /\
  (forall e now w', wstep cfg lock pid e now y w = (w', Halted) ->
    halted_ok first y (incoming_of e) (files w) (files w')).
Proof.
  intros Hr. pose proof (reachable_winv cfg lock pid first y hist w Hlock Hr) as Hinv. split.
  - intros a Ha. unfold winv in Hinv. rewrite Ha in Hinv. destruct Hinv as [[Hf Hh _ Hs (c & tail & [H1 H2 H3 H4 _ H6])] _].
    split_and!; [unfold dirty; lia|done| | |done].
    + exists c, tail. split_and!; [done|done|]. intros E. destruct tail; [done|]. by rewrite H3 in E.
    + intros id Hid. destruct (Hs id Hid) as (t & Ht & _). by exists t.
  - intros e now w' E. destruct (step_invariant cfg lock pid first hist y (files w) now e Hlock Hinv w eq_refl) as [Hc _].
    by rewrite E in Hc.
Qed.

(** A power cut keeps a prefix of every segment file, at least what was synced. *)
Definition power_cut (durable : gmap Z nat) (fs fs' : Files) : Prop :=
  forall id c, fs !! segment_path id = Some c ->
    exists n, (default 0%nat (durable !! id) <= n)%nat /\ fs' !! segment_path id = Some (take n c).

(** Sealed segments are durable to their end. *)
Lemma sealed_survives hist s first upto fs fs' id : sealed_ok hist s first upto fs ->
  power_cut (s_durable s) fs fs' -> first <= id < upto -> exists tail, fs' !! segment_path id = Some (whole hist id tail).
Proof.
  intros Hs Hcut Hid. destruct (Hs id Hid) as (t & Ht & Hd). exists t. destruct (Hcut _ _ Ht) as (n & Hn & ->).
  rewrite Hd in Hn. cbn in Hn. by rewrite take_ge by done.
Qed.

(** So is the active one to the last acknowledged byte, where nothing is dirty. *)
Lemma active_survives first hist s a fs fs' : open_ok first hist s a fs -> dirty a = 0 ->
  power_cut (s_durable s) fs fs' -> exists tail, fs' !! segment_path (a_id a) = Some (whole hist (a_id a) tail).
Proof.
  intros [_ _ _ _ (c & tail & [H1 H2 _ H4 (n & H5 & H5' & H5'') _])] Hd Hcut.
  destruct (Hcut _ _ H1) as (k & Hk & ->). rewrite H5 in Hk. cbn in Hk.
  set (kept := encode_segment_header [] (a_id a) ++ acked hist (a_id a)).
  assert (length kept <= n)%nat as Hkept.
  { unfold kept, dirty, zlen in *. rewrite length_app, length_header. unfold SEGMENT_HEADER_BYTES in *. lia. }
  exists (take (k - length kept) (drop (length kept) c)). f_equal. unfold whole in *. rewrite app_assoc in H2 |- *. fold kept in H2 |- *.
  assert (take (length kept) c = kept) as Ek.
  { rewrite <-(take_app_le c (a_buf a)) by lia. rewrite H2. by apply take_app_length. }
  trans (take (length kept) (take k c) ++ drop (length kept) (take k c)); [by rewrite take_drop|].
  f_equal; [by rewrite take_take, Nat.min_l by lia|apply skipn_firstn_comm].
Qed.

(** C12: Durability. After a power cut at any moment, in the middle of a step included,
    every sealed segment is whole, and the active one is a prefix of the log that
    contains everything the writer counts as synced. *)
Theorem wal_power_cut first y hist w a w1 fs' :
  reachable cfg lock pid first y hist w -> s_open (y_state y) = Some a ->
  w1 = w \/ (exists e now, wstep cfg lock pid e now y w = (w1, Halted)) ->
  power_cut (s_durable (y_state y)) (files w1) fs' ->
  (forall id, first <= id < a_id a -> exists tail, fs' !! segment_path id = Some (whole hist id tail)) /\
  exists c tail, fs' !! segment_path (a_id a) = Some c /\
    c `prefix_of` whole hist (a_id a) tail /\ a_synced a <= zlen c.
Proof.
  intros Hr Ha Hw1 Hcut. pose proof (reachable_winv cfg lock pid first y hist w Hlock Hr) as Hinv.
  assert (exists incoming, halted_ok first y incoming (files w) (files w1)) as [inc Hh].
  { destruct Hw1 as [->|(e & now & E)]; [exists []; by apply halted_same|]. exists (incoming_of e).
    destruct (step_invariant cfg lock pid first hist y (files w) now e Hlock Hinv w eq_refl) as [Hc _]. by rewrite E in Hc. }
  unfold winv in Hinv. rewrite Ha in Hinv.
  destruct Hinv as [[Hf _ _ Hs (c & tail & [H1 H2 H3 H4 (n & H5 & H5' & H5'') H6])] _].
  destruct (Hh a c Ha H1) as [(x & Hx & Hl) Hsame]. split.
  - intros id Hid. eapply (sealed_survives _ _ _ _ (files w1)); [|exact Hcut|exact Hid].
    intros id' Hid'. rewrite Hsame by done. by apply Hs.
  - destruct (Hcut _ _ Hl) as (m & Hm & ->). rewrite H5 in Hm. cbn in Hm. exists (take m (c ++ x)), (tail ++ inc).
    split_and!; [done| |].
    + etrans; [apply prefix_take|]. destruct Hx as [z Hz]. exists z.
      transitivity (whole hist (a_id a) tail ++ inc); [unfold whole; by rewrite <-!app_assoc|].
      by rewrite <-H2, <-!app_assoc, Hz.
    + unfold zlen. rewrite length_take, length_app. lia.
Qed.

(** ** Progress *)

(** No wake-up is lost: an acknowledged append asks for one exactly when the committer's
    condition for waiting no longer holds. *)
Lemma append_wakes s c now w w' s' wake : s_stop s = false ->
  append_bytes cfg s c now w = (w', Ret (s', Ok wake)) -> wake = negb (parked cfg s').
Proof.
  intros Hs. unfold append_bytes. destruct (s_needs_roll s); [done|]. destruct (s_open s) as [a|]; [|done].
  unfold mbind, io_bind. cbn [exec]. destruct (buf_write_all a c w) as [w1 [[a1 [[]|e]]| |]]; try done.
  - intros [= <- <- <-]. unfold parked, add_appended, set_open. cbn. rewrite Hs. cbn.
    rewrite negb_andb, !Z.leb_antisym. done.
  - unfold mbind, io_bind. cbn [exec]. destruct (roll _ _ _) as [w2 [[s2 r]| |]]; done.
Qed.

(** One turn of the committer's loop. *)
Fixpoint turn (fuel : nat) (elapsed beat : bool) (now : Z) (y : Sys) : io Sys :=
  match fuel with
  | O => mret y
  | S fuel' =>
      y' ← committer cfg lock pid elapsed beat now y;
      match y_pc y' with
      | Waiting | Gone => mret y'
      | _ => turn fuel' elapsed beat now y'
      end
  end.

Lemma runs_write_count p c fs : exists fs', runs (write_count p c) fs fs' (Ret (length c, Ok tt)).
Proof. by eexists. Qed.

Lemma runs_buf_flush a fs : exists fs',
  runs (buf_flush a) fs fs' (Ret (mkActive (a_id a) [] (a_bytes a) (a_synced a), Ok tt)).
Proof.
  unfold buf_flush. destruct (decide (a_buf a = [])) as [E|E].
  - exists fs. destruct a as [i b n m]. cbn in *. by subst b.
  - destruct (runs_write_count (segment_path (a_id a)) (a_buf a) fs) as [fs' Hr]. exists fs'.
    eapply runs_bind; [exact Hr|]. cbv beta iota. rewrite drop_all. apply runs_ret.
Qed.

Lemma runs_sync_len p fs : runs (sync_len p) fs fs (Ret (Ok (length (default [] (fs !! p))))).
Proof. done. Qed.

Lemma runs_sync_in_lock s a now fs : exists s' fs',
  runs (sync_in_lock s a now) fs fs' (Ret (s', mkActive (a_id a) [] (a_bytes a) (a_bytes a), Ok tt)).
Proof.
  destruct (runs_buf_flush a fs) as [fs' Hf]. eexists _, fs'. unfold sync_in_lock.
  eapply runs_bind; [exact Hf|]. cbv beta iota. eapply runs_bind; [apply runs_sync_len|]. done.
Qed.

Lemma runs_create_segment id fs : exists fs' r, runs (attempt (create_segment id)) fs fs' (Ret r) /\
  match r with Ok (a, _) => dirty a = 0 | Err _ => True end.
Proof.
  destruct (fs !! segment_path id) as [c|] eqn:E.
  - exists fs, (Err (Io AlreadyExists)). split; [|done].
    apply runs_attempt_throw, runs_bind_throw, runs_try_err, runs_call_eq. cbn [effect]. by rewrite E.
  - destruct (runs_write_count (segment_path id) (encode_segment_header [] id) (<[segment_path id := []]> fs)) as [fs2 H2].
    assert (exists n, runs (create_segment id) fs fs2 (Ret (mkActive id [] SEGMENT_HEADER_BYTES SEGMENT_HEADER_BYTES, n))) as [n Hr].
    { eexists. eapply runs_bind; [apply runs_try, runs_call_eq; cbn [effect]; by rewrite E|]. eapply runs_bind; [exact H2|].
      eapply runs_bind; [apply runs_try, runs_ret|]. eapply runs_bind; [apply runs_try, runs_sync_len|].
      eapply runs_bind; [apply runs_try, runs_idle, _|]. eapply runs_bind; [apply runs_try, runs_idle, _|]. apply runs_ret. }
    exists fs2. eexists. split; [by apply runs_attempt|]. done.
Qed.

Lemma runs_roll s a now fs : s_open s = Some a -> exists s' r fs' a',
  runs (roll s now) fs fs' (Ret (s', r)) /\ s_open s' = Some a' /\ dirty a' = 0.
Proof.
  intros Hs. unfold roll. rewrite Hs. destruct (runs_sync_in_lock s a now fs) as (s1 & fs1 & H1).
  destruct (runs_create_segment (a_id a + 1) fs1) as (fs2 & r & H2 & Hr).
  destruct r as [[next n]|e]; eexists _, _, fs2, _; (split; [eapply runs_bind; [exact H1|]; cbv beta iota zeta;
    eapply runs_bind; [exact H2|]; apply runs_ret|]); (split; [done|]); [done|unfold dirty; cbn; lia].
Qed.

(** A thread in the last two stages comes back to its wait with nothing more to sync. *)
Lemma runs_turn_end fuel elapsed beat now y a fs : y_pc y = Committed -> s_open (y_state y) = Some a ->
  dirty a = 0 -> exists y' fs' a', runs (turn (S (S fuel)) elapsed beat now y) fs fs' (Ret y') /\
    y_pc y' = Waiting /\ s_open (y_state y') = Some a' /\ dirty a' = 0.
Proof.
  intros Hp Hs Hd.
  assert (exists y1 fs1 a1, runs (committer cfg lock pid elapsed beat now y) fs fs1 (Ret y1) /\
    y_pc y1 = Rolled /\ s_open (y_state y1) = Some a1 /\ dirty a1 = 0) as (y1 & fs1 & a1 & H1 & P1 & S1 & D1).
  { unfold committer. rewrite Hp. unfold commit_roll. cbv zeta. destruct (_ || _).
    - destruct (runs_roll (y_state y) a now fs Hs) as (s' & r & fs' & a' & Hr & Ho & Hda).
      destruct r as [id|e]; eexists _, fs', a'; (split; [eapply runs_bind; [unfold roll_now; eapply runs_bind; [exact Hr|]; apply runs_ret|];
        apply runs_ret|]); done.
    - eexists _, fs, a. split; [apply runs_ret|]. done. }
  assert (exists fs2, runs (committer cfg lock pid elapsed beat now y1) fs1 fs2 (Ret (mkSys (y_state y1) Waiting (y_retry y1)))) as [fs2 H2].
  { unfold committer. rewrite P1. unfold heartbeat, touch_lock.
    assert (forall p, exists fs2 r, runs (open_truncate p) fs1 fs2 (Ret r)) as Ht.
    { intros p. unfold open_truncate. destruct (fs1 !! p) eqn:E; eexists _, _; apply runs_call_eq; cbn [effect]; by rewrite E. }
    destruct lock as [p|]; [|eexists; eapply runs_bind; [apply runs_ret|]; done].
    destruct beat; [|eexists; eapply runs_bind; [apply runs_ret|]; done].
    destruct (Ht p) as (fs2 & r & Hr). destruct r as [[]|e]; eexists; (eapply runs_bind; [eapply runs_bind; [eapply runs_bind; [exact Hr|]; done|]; done|]; done). }
  exists (mkSys (y_state y1) Waiting (y_retry y1)), fs2, a1. split; [|done].
  cbn [turn]. eapply runs_bind; [exact H1|]. rewrite P1. eapply runs_bind; [exact H2|]. done.
Qed.

(** The turn ends with nothing dirty, whether or not the segment was rolled. *)
Lemma runs_turn y a beat now fs : y_pc y = Waiting -> s_stop (y_state y) = false -> s_open (y_state y) = Some a ->
  0 <= dirty a -> exists y' fs' a', runs (turn 5 true beat now y) fs fs' (Ret y') /\
    y_pc y' = Waiting /\ s_open (y_state y') = Some a' /\ dirty a' = 0.
Proof.
  intros Hp Hstop Hs Hd.
  destruct (y_retry y || ((0 <? dirty a) && (true || (fsync_bytes cfg <=? dirty a)))) eqn:Edue.
  2: { assert (dirty a = 0) as Hd0.
       { apply orb_false_iff in Edue as [_ E]. rewrite andb_true_r in E. apply Z.ltb_ge in E. lia. }
       destruct (runs_turn_end 2 true beat now (mkSys (y_state y) Committed (y_retry y)) a fs) as (y' & fs' & a' & Ht & Hy); [done|done|done|].
       exists y', fs', a'. split; [|exact Hy]. cbn [turn]. eapply runs_bind.
       { unfold committer. rewrite Hp. unfold commit_begin. rewrite Hstop, Hs, Edue. apply runs_ret. }
       exact Ht. }
  destruct (runs_buf_flush a fs) as [fs1 H1].
  set (a1 := mkActive (a_id a) [] (a_bytes a) (a_synced a)).
  set (s1 := set_open (y_state y) (Some a1)).
  set (s2 := note_fsync (set_durable s1 (a_id a) (length (default [] (fs1 !! segment_path (a_id a))))) now).
  set (y3 := commit_end (a_id a) (a_bytes a) (mkSys s2 (Synced (a_id a) (a_bytes a)) false)).
  assert (exists a3, s_open (y_state y3) = Some a3 /\ dirty a3 = 0) as (a3 & S3 & D3).
  { unfold y3, commit_end. cbn. rewrite Z.eqb_refl. eexists. split; [done|]. unfold dirty in *. cbn in *. lia. }
  destruct (runs_turn_end 0 true beat now y3 a3 fs1) as (y' & fs' & a' & Ht & Hy); [done|done|done|].
  exists y', fs', a'. split; [|exact Hy]. cbn [turn]. eapply runs_bind.
  { unfold committer. rewrite Hp. unfold commit_begin. rewrite Hstop, Hs, Edue. cbn [negb].
    eapply runs_bind; [exact H1|]. apply runs_ret. }
  cbv beta iota. cbn [y_pc]. eapply runs_bind.
  { unfold committer. cbn [y_pc]. unfold commit_sync. eapply runs_bind; [apply runs_sync_len|]. apply runs_ret. }
  cbn [y_pc]. eapply runs_bind; [unfold committer; cbn [y_pc]; apply runs_ret|]. exact Ht.
Qed.

(** Each step of a turn keeps the invariant. *)
Lemma runs_committer_winv first hist y elapsed beat now fs fs' y' : winv first hist y fs ->
  runs (committer cfg lock pid elapsed beat now y) fs fs' (Ret y') -> winv first hist y' fs'.
Proof.
  intros Hinv Hr. pose proof (step_invariant cfg lock pid first hist y fs now (CommitE elapsed beat) Hlock Hinv (mkWorld fs []) eq_refl) as [_ Hq].
  assert (wstep cfg lock pid (CommitE elapsed beat) now y (mkWorld fs []) = (mkWorld fs' [], Ret (y', []))) as E
    by (unfold wstep; eapply runs_bind; [exact Hr|]; done).
  rewrite E in Hq. cbn in Hq. by rewrite app_nil_r in Hq.
Qed.

Lemma runs_turn_winv fuel first hist y elapsed beat now fs fs' y' : winv first hist y fs ->
  runs (turn fuel elapsed beat now y) fs fs' (Ret y') -> winv first hist y' fs'.
Proof.
  revert y fs. induction fuel as [|fuel IH]; intros y fs Hinv; cbn [turn]; unfold runs; [by intros [= <- <-]|].
  rewrite exec_bind. destruct (committer _ _ _ _ _ _ _ (mkWorld fs [])) as [[fs1 sc] [y1|e|]] eqn:E; [|done|done].
  assert (sc = []) as -> by (pose proof (exec_steady (committer cfg lock pid elapsed beat now y) (mkWorld fs []) eq_refl) as [Hn _]; by rewrite E in Hn).
  pose proof (runs_committer_winv _ _ _ _ _ _ _ _ _ Hinv E) as H1.
  destruct (y_pc y1); try (by intros [= <- <-]); by apply IH.
Qed.

(** C24: Group commit makes progress. From any state the writer reaches with the
    committer waiting and the writer not stopped, one turn of the committer after the
    interval, without I/O errors, comes back to the wait with everything acknowledged so
    far on the disk and durable, whether or not the segment was rolled: after any power
    cut from then on, every segment up to the active one still has its header and all its
    acknowledged appends, in order, before what may be a torn tail. The statistics agree:
    nothing is dirty. *)
Theorem commit_turn_syncs first y hist w a beat now :
  reachable cfg lock pid first y hist w -> y_pc y = Waiting ->
  s_stop (y_state y) = false -> s_open (y_state y) = Some a ->
  exists y' fs' a', runs (turn 5 true beat now y) (files w) fs' (Ret y') /\
    y_pc y' = Waiting /\ s_open (y_state y') = Some a' /\
    wst_dirty_bytes (writer_stats (y_state y')) = 0 /\
    Forall (fun x => first <= x.1 <= a_id a') hist /\
    forall fs'', power_cut (s_durable (y_state y')) fs' fs'' ->
      forall id, first <= id <= a_id a' -> exists tail, fs'' !! segment_path id = Some (whole hist id tail).
Proof.
  intros Hr Hp Hstop Hs. pose proof (reachable_winv cfg lock pid first y hist w Hlock Hr) as Hinv.
  assert (0 <= dirty a) as Hd.
  { unfold winv in Hinv. rewrite Hs in Hinv. destruct Hinv as [[_ _ _ _ (c & tail & [_ _ _ _ _ H6])] _]. unfold dirty. lia. }
  destruct (runs_turn y a beat now (files w) Hp Hstop Hs Hd) as (y' & fs' & a' & Ht & Hp' & Hs' & Hd').
  pose proof (runs_turn_winv _ _ _ _ _ _ _ _ _ _ Hinv Ht) as Hinv'. unfold winv in Hinv'. rewrite Hs' in Hinv'.
  destruct Hinv' as [Hok _]. exists y', fs', a'. split_and!; [done..| |apply Hok|].
  - unfold writer_stats. by rewrite Hs'.
  - intros fs'' Hcut id Hid. destruct (decide (id = a_id a')) as [->|Hne]; [by eapply active_survives|].
    eapply sealed_survives; [apply Hok|exact Hcut|lia].
Qed.
End theorems.

(** ** Instances *)

Definition sample_wal_config : WalConfig := mkWal 10 4096 65536.

(** A writer opened at segment 7 that accepted one record. *)
Definition opened : World * outcome WState := writer_open 7 (mkWorld ∅ []).

Definition opened_sys : Sys :=
  mkSys (match opened.2 with Ret s => s | _ => mkWState None true 0 false 0 0 0 ∅ end) Waiting false.

Definition appended : World * outcome (Sys * list (Z * bytes)) :=
  wstep sample_wal_config None 1 (AppendE (lit "record")) 0 opened_sys opened.1.

Definition appended_sys : Sys := match appended.2 with Ret r => r.1 | _ => opened_sys end.

Definition appended_active : Active := mkActive 7 (lit "record") 20 14.

Lemma appended_reachable :
  reachable sample_wal_config None 1 7 appended_sys [(7, lit "record")] appended.1.
Proof.
  apply (reach_step sample_wal_config None 1 7 opened_sys [] opened.1 (AppendE (lit "record")) 0 appended_sys
    [(7, lit "record")] appended.1).
  - apply (reach_open sample_wal_config None 1 7 (mkWorld ∅ []) opened.1 (y_state opened_sys)); [done|].
    vm_compute. reflexivity.
  - vm_compute. reflexivity.
Qed.

Lemma no_lock p id : None = Some p -> p <> segment_path id.
Proof. done. Qed.

Lemma wal_log_witness :
  reachable sample_wal_config None 1 7 appended_sys [(7, lit "record")] appended.1 /\
  a_bytes appended_active = SEGMENT_HEADER_BYTES + zlen (acked [(7, lit "record")] 7) /\
  exists c tail, files appended.1 !! segment_path 7 = Some c /\
    c ++ lit "record" = encode_segment_header [] 7 ++ acked [(7, lit "record")] 7 ++ tail.
Proof.
  split; [exact appended_reachable|].
  destruct (wal_log_exact sample_wal_config None 1 no_lock 7 appended_sys [(7, lit "record")] appended.1
    appended_reachable) as [H _].
  destruct (H appended_active) as (_ & Hb & (c & tail & H1 & H2 & _) & _); [vm_compute; reflexivity|].
  split; [exact Hb|]. exists c, tail. exact (conj H1 H2).
Defined.

(** The power goes with the record still in the buffer. *)
Lemma power_cut_witness :
  exists c tail, files appended.1 !! segment_path 7 = Some c /\
    c `prefix_of` whole [(7, lit "record")] 7 tail /\ 14 <= zlen c.
Proof.
  destruct (wal_power_cut sample_wal_config None 1 no_lock 7 appended_sys [(7, lit "record")] appended.1
    appended_active appended.1 (files appended.1) appended_reachable) as [_ H].
  - vm_compute. reflexivity.
  - left. reflexivity.
  - intros id c Hc. exists (Nat.max (default 0%nat (s_durable (y_state appended_sys) !! id)) (length c)).
    split; [lia|]. rewrite take_ge by lia. exact Hc.
  - exact H.
Defined.

(** The record still in the buffer is in the file after a turn and a power cut that loses
    whatever was not synced. *)
Lemma commit_turn_witness :
  exists y' fs', runs (turn sample_wal_config None 1 5 true false 9 appended_sys) (files appended.1) fs' (Ret y') /\
    forall fs'', power_cut (s_durable (y_state y')) fs' fs'' ->
      exists tail, fs'' !! segment_path 7 = Some (encode_segment_header [] 7 ++ lit "record" ++ tail).
Proof.
  destruct (commit_turn_syncs sample_wal_config None 1 no_lock 7 appended_sys [(7, lit "record")] appended.1
    appended_active false 9 appended_reachable) as (y' & fs' & a' & Ht & _ & _ & _ & Hh & Hcut);
    [vm_compute; reflexivity|vm_compute; reflexivity|vm_compute; reflexivity|].
  apply Forall_cons in Hh as [Hid _]. exists y', fs'. split; [exact Ht|]. intros fs'' Hc.
  exact (Hcut fs'' Hc 7 Hid).
Defined.
