(* ===== verification/WriterWedge.v ===== *)
(** * WriterWedge: a roll that failed half way

    [create_segment] opens the successor with [create_new]. When a later call of it
    fails (the header, a sync), the file stays, and every further attempt to roll
    finds it there: the writer cannot leave the segment until the process restarts. *)

From Stdlib Require Import ZArith Lia.
From Stdlib Require Import Strings.Byte.
From S2P Require Import Prelude Text Record Codec Disk Wal Lock Config Writer WriterSteps.
Open Scope Z_scope.

(** [m] removes no file, reports its errors as values, and its results satisfy [Q]. *)
Definition adds_only {A : Type} (Q : A -> Prop) (m : io A) : Prop := forall w,
  (forall p, is_Some (files w !! p) -> is_Some (files (m w).1 !! p)) /\
  match (m w).2 with Ret a => Q a | Throw _ => False | Halted => True end.

Lemma adds_only_ret {A} (Q : A -> Prop) a : Q a -> adds_only Q (mret a).
Proof. by intros Hq w. Qed.

Lemma adds_only_bind {A B} (Q : A -> Prop) (R : B -> Prop) (m : io A) (k : A -> io B) :
  adds_only Q m -> (forall a, Q a -> adds_only R (k a)) -> adds_only R (m ≫= k).
Proof.
  intros Hm Hk w. rewrite exec_bind. destruct (Hm w) as [Hf Hq].
  destruct (m w) as [w' [a|e|]]; [|done|done]. destruct (Hk a Hq w') as [Hf' Hq']. cbn in Hf. split; [auto|done].
Qed.

Lemma is_some_insert (fs : Files) p q c : is_Some (fs !! p) -> is_Some (<[q := c]> fs !! p).
Proof. intros Hp. destruct (decide (p = q)) as [->|]; [by rewrite lookup_insert_eq|by rewrite lookup_insert_ne]. Qed.

Lemma adds_only_call {R} (c : call R) :
  (forall fs p, is_Some (fs !! p) -> is_Some ((effect c fs).1 !! p)) ->
  (forall n fs p, is_Some (fs !! p) -> is_Some (part c n fs !! p)) -> adds_only (fun _ => True) (Call c).
Proof.
  intros Hf Hp w. cbn. unfold perform. specialize (Hf (files w)).
  destruct (script w) as [|[|e|n e| |n] s]; cbn; try done; try (split; [apply Hp|done]);
    by destruct (effect c (files w)).
Qed.

Lemma adds_only_write_count p c : adds_only (fun _ => True) (write_count p c).
Proof. apply adds_only_call; intros; by apply is_some_insert. Qed.

Lemma adds_only_sync_len p : adds_only (fun _ => True) (sync_len p).
Proof. by apply adds_only_call. Qed.

Lemma adds_only_buf_flush a : adds_only (fun r => a_id r.1 = a_id a) (buf_flush a).
Proof.
  unfold buf_flush. destruct (decide _); [by apply adds_only_ret|]. eapply adds_only_bind; [apply adds_only_write_count|].
  intros [k r] _. by apply adds_only_ret.
Qed.

Lemma adds_only_write_all a c : adds_only (fun r => a_id r.1 = a_id a) (buf_write_all a c).
Proof.
  unfold buf_write_all. cbv zeta. destruct (_ <? _); [by apply adds_only_ret|].
  apply (adds_only_bind (fun r => a_id r.1 = a_id a)).
  - destruct (_ <? _); [apply adds_only_buf_flush|by apply adds_only_ret].
  - intros [a1 [[]|e]] E; cbn in E; [|by apply adds_only_ret]. destruct (_ <=? _); [|by apply adds_only_ret].
    eapply adds_only_bind; [apply adds_only_write_count|]. intros r _. by apply adds_only_ret.
Qed.

Lemma adds_only_sync_in_lock s a now :
  adds_only (fun r => a_id r.1.2 = a_id a /\ s_needs_roll r.1.1 = s_needs_roll s) (sync_in_lock s a now).
Proof.
  eapply adds_only_bind; [apply adds_only_buf_flush|]. intros [a1 [[]|e]] E; cbn in E; [|by apply adds_only_ret].
  eapply adds_only_bind; [apply adds_only_sync_len|]. intros [n|e] _; by apply adds_only_ret.
Qed.

(** ** The wedge *)

(** The writer is on [id], and a file has the name of its successor. *)
Definition wedged (id : Z) (s : WState) (fs : Files) : Prop :=
  (exists a, s_open s = Some a /\ a_id a = id) /\ is_Some (fs !! segment_path (id + 1)).

(** Still so after [r], and appends are refused if they were. *)
Definition stuck {A : Type} (id : Z) (s : WState) (r : World * outcome (WState * A)) (Q : A -> Prop) : Prop :=
  match r.2 with
  | Ret (s', a) => wedged id s' (files r.1) /\ (s_needs_roll s = true -> s_needs_roll s' = true) /\ Q a
  | Throw _ => False
  | Halted => True
  end.

Lemma create_taken id w : is_Some (files w !! segment_path id) ->
  files (create_segment id w).1 = files w /\ match (create_segment id w).2 with Ret _ => False | _ => True end.
Proof.
  intros [c Hc]. unfold create_segment. cbv zeta.
  assert (exists w1 r, try (create_new (segment_path id) []) w = (w1, r) /\ files w1 = files w /\
    match r with Ret _ => False | _ => True end) as (w1 & r & E & Hf & Hr).
  { unfold try, create_new, mbind, io_bind. cbn [exec]. unfold perform. cbn [effect].
    destruct (script w) as [|[|e|n e| |n] s]; cbn; rewrite ?Hc; cbn; eexists _, _; done. }
  rewrite exec_bind. rewrite E. by destruct r.
Qed.

Lemma roll_wedged id s now w : wedged id s (files w) -> stuck id s (roll s now w) (fun r => exists e, r = Err e).
Proof.
  intros [(a & Ha & <-) Hn]. unfold roll. rewrite Ha. destruct (adds_only_sync_in_lock s a now w) as [Hadd Hq].
  specialize (Hadd _ Hn). rewrite exec_bind.
  destruct (sync_in_lock s a now w) as [w1 [[[s1 a1] r]|e|]]; [|done|done]. cbn in Hadd, Hq. destruct Hq as [Ei Er].
  destruct r as [[]|e]; cbv beta iota zeta.
  - rewrite Ei, exec_bind, exec_attempt. destruct (create_taken (a_id a + 1) w1 Hadd) as [Hf Hr].
    destruct (create_segment (a_id a + 1) w1) as [w2 [x|e|]]; cbn in Hf, Hr |- *; [done| |done].
    split_and!; [split; [by exists a1|by rewrite Hf]|cbn; congruence|by eexists].
  - split_and!; [split; [by exists a1|done]|cbn; congruence|by eexists].
Qed.

Lemma roll_now_wedged id s now w : wedged id s (files w) -> stuck id s (roll_now s now w) (fun r => exists e, r = Err e).
Proof.
  intros Hw. pose proof (roll_wedged id s now w Hw) as Hr. unfold roll_now, mbind, io_bind, stuck in *. cbn [exec] in *.
  destruct (roll s now w) as [w1 [[s1 r]|e|]]; [|done|done]. cbn in *. destruct Hr as (H1 & H2 & e & ->). cbn. eauto.
Qed.

Section steps.
Context (cfg : WalConfig) (lock : option path) (pid : Z).

Lemma append_wedged id s c now w : wedged id s (files w) ->
  stuck id s (append_bytes cfg s c now w) (fun r => s_needs_roll s = true -> r = Err torn_error).
Proof.
  intros Hw. pose proof Hw as [(a & Ha & Ei) Hn]. unfold append_bytes. rewrite Ha.
  destruct (s_needs_roll s) eqn:Hnr; [by unfold stuck; cbv [mret io_ret]; cbn [fst snd]; split_and!|].
  destruct (adds_only_write_all a c w) as [Hadd Hq]. specialize (Hadd _ Hn). rewrite exec_bind.
  destruct (buf_write_all a c w) as [w1 [[a1 r]|e|]]; [|done|done]. cbn in Hadd, Hq. destruct r as [[]|e].
  - unfold stuck. cbn. split_and!; [|by intros; congruence|by intros; congruence]. split; [|done]. eexists. split; [done|]. cbn. congruence.
  - set (s1 := set_needs_roll (set_open s (Some a1)) true).
    assert (wedged id s1 (files w1)) as Hw1 by (split; [exists a1; split; [done|congruence]|done]).
    pose proof (roll_wedged id s1 now w1 Hw1) as Hr. unfold stuck in *. cbv beta iota zeta. fold s1. rewrite !exec_bind.
    destruct (roll s1 now w1) as [w2 [[s2 r2]|e2|]]; [|done|done]. cbn in *. destruct Hr as (H1 & H2 & e2 & ->). cbn.
    split_and!; [done|by auto|by intros; congruence].
Qed.

Lemma seal_wedged id s now w : wedged id s (files w) ->
  stuck id s (seal s now w) (fun r => forall sealed, r <> Ok (Some sealed)).
Proof.
  intros Hw. pose proof Hw as [(a & Ha & Ei) Hn]. unfold seal. rewrite Ha. destruct (_ =? _).
  { unfold stuck. cbn. split_and!; [done|done|done]. }
  pose proof (roll_now_wedged id s now w Hw) as Hr. unfold stuck, mbind, io_bind in *. cbn [exec] in *.
  destruct (roll_now s now w) as [w1 [[s1 r]|e|]]; [|done|done]. cbn in *. destruct Hr as (H1 & H2 & e & ->).
  by split_and!.
Qed.

Lemma adds_only_touch p : adds_only (fun _ => True) (touch_lock p pid).
Proof.
  unfold touch_lock, open_truncate, write_pid. eapply adds_only_bind.
  - apply adds_only_call; [|done]. intros fs q Hq. cbn. destruct (fs !! p); [by apply is_some_insert|done].
  - intros [[]|e] _; [|by apply adds_only_ret]. apply adds_only_call; intros; by apply is_some_insert.
Qed.

(** A step that keeps the active segment and removes nothing. *)
Lemma adds_only_stuck id s w (m : io Sys) : wedged id s (files w) ->
  adds_only (fun y' => (exists a, s_open (y_state y') = Some a /\ a_id a = id) /\
                    s_needs_roll (y_state y') = s_needs_roll s) m ->
  match (m w).2 with
  | Ret y' => wedged id (y_state y') (files (m w).1) /\ (s_needs_roll s = true -> s_needs_roll (y_state y') = true)
  | Throw _ => False
  | Halted => True
  end.
Proof.
  intros [_ Hn] Hm. destruct (Hm w) as [Hadd Hq]. specialize (Hadd _ Hn).
  destruct (m w) as [w' [y'|e|]]; [|done|done]. destruct Hq as [Hs Hr]. cbn in *. split; [done|congruence].
Qed.

Lemma committer_wedged id y el beat now w : wedged id (y_state y) (files w) ->
  match (committer cfg lock pid el beat now y w).2 with
  | Ret y' => wedged id (y_state y') (files (committer cfg lock pid el beat now y w).1) /\
      (s_needs_roll (y_state y) = true -> s_needs_roll (y_state y') = true)
  | Throw _ => False
  | Halted => True
  end.
Proof.
  intros Hw. pose proof Hw as [(a & Ha & Ei) Hn]. unfold committer. destruct (y_pc y) as [|i u|i u| | |].
  - apply adds_only_stuck; [done|]. unfold commit_begin. cbv zeta. rewrite Ha.
    destruct (s_stop _); [apply adds_only_ret; eauto|]. destruct (negb _); [apply adds_only_ret; eauto|].
    eapply adds_only_bind; [apply adds_only_buf_flush|]. intros [a1 [[]|e]] E; cbn in E; apply adds_only_ret; cbn;
      (split; [|done]); exists a1; (split; [done|congruence]).
  - apply adds_only_stuck; [done|]. eapply adds_only_bind; [apply adds_only_sync_len|]. intros [n|e] _; apply adds_only_ret; eauto.
  - apply adds_only_stuck; [done|]. apply adds_only_ret. unfold commit_end. cbv zeta. rewrite Ha. destruct (_ =? _); cbn; eauto.
  - unfold commit_roll. cbv zeta. rewrite Ha. destruct (_ || _); [|by split].
    pose proof (roll_now_wedged id (y_state y) now w Hw) as Hr. unfold stuck, mbind, io_bind in *. cbn [exec] in *.
    destruct (roll_now (y_state y) now w) as [w1 [[s1 r]|e|]]; [|done|done]. by destruct Hr as (H1 & H2 & _).
  - apply adds_only_stuck; [done|]. apply (adds_only_bind (fun _ => True)).
    + destruct lock as [p|]; [|by apply adds_only_ret]. destruct beat; [|by apply adds_only_ret].
      eapply adds_only_bind; [apply adds_only_touch|]. intros r _. by apply adds_only_ret.
    + intros [] _. apply adds_only_ret. eauto.
  - by split.
Qed.

(** C36: A failed roll is permanent. Once a file has the name of the successor of the
    active segment, which a roll leaves behind when it fails after creating it, no step
    of any caller or of the committer, under any script, ever leaves the segment: it
    stays active, [seal] seals nothing, and if a torn frame made the writer refuse
    appends, it refuses them for good. Only closing the writer ends this. *)
Theorem failed_roll_is_permanent id y e now w : wedged id (y_state y) (files w) -> e <> CloseE ->
  (match wstep cfg lock pid e now y w with
   | (w', Ret (y', _)) => wedged id (y_state y') (files w') /\
       (s_needs_roll (y_state y) = true -> s_needs_roll (y_state y') = true)
   | (_, Throw _) => False
   | (_, Halted) => True
   end) /\
  (match (seal (y_state y) now w).2 with Ret (_, Ok (Some _)) => False | _ => True end) /\
  (s_needs_roll (y_state y) = true -> forall c,
     append_bytes cfg (y_state y) c now w = (w, Ret (y_state y, Err torn_error))).
Proof.
  intros Hw He. split; [|split].
  - unfold wstep. destruct e as [c| |el be| |]; [| | | |done].
    + pose proof (append_wedged id (y_state y) c now w Hw) as Hr. unfold stuck, mbind, io_bind in *. cbn [exec] in *.
      destruct (append_bytes _ _ _ _ w) as [w1 [[s1 r]|er|]]; [|done|done]. by destruct Hr as (H1 & H2 & _).
    + pose proof (seal_wedged id (y_state y) now w Hw) as Hr. unfold stuck, mbind, io_bind in *. cbn [exec] in *.
      destruct (seal _ _ w) as [w1 [[s1 r]|er|]]; [|done|done]. by destruct Hr as (H1 & H2 & _).
    + pose proof (committer_wedged id y el be now w Hw) as Hr. rewrite exec_bind.
      by destruct (committer _ _ _ _ _ _ _ w) as [w1 [y1|er|]].
    + by split.
  - pose proof (seal_wedged id (y_state y) now w Hw) as Hr. unfold stuck in Hr.
    destruct (seal _ _ w) as [w1 [[s1 [[sealed|]|er]]|er|]]; try done. destruct Hr as (_ & _ & Hr). by apply (Hr sealed).
  - intros Hnr c. unfold append_bytes. by rewrite Hnr.
Qed.
End steps.

(** ** Instances *)

Definition sample_wal : WalConfig := mkWal 10 4096 65536.

(** Open, append a record, and seal while the header of the new segment cannot be
    written: the next [seal], without faults, fails as well. *)
Definition wedge_run : io (WState * result Error (option Z) * result Error (option Z)) :=
  s ← writer_open 7;
  r ← append_bytes sample_wal s (lit "record") 0;
  r1 ← seal r.1 0;
  r2 ← seal r1.1 0;
  mret (r2.1, r1.2, r2.2).

Definition wedge_script : list fault := repeat Fine 10 ++ [Fails "ENOSPC"].

Example wedge_happens :
  match wedge_run (mkWorld ∅ wedge_script) with
  | (w, Ret (s, r1, r2)) =>
      r1 = Err (Io (OtherIo "ENOSPC")) /\ r2 = Err (Io AlreadyExists) /\ script w = [] /\
      active_segment s = 7 /\ is_Some (files w !! segment_path 8)
  | _ => False
  end.
Proof. vm_compute. repeat split; eauto. Qed.

Definition wedged_state : WState :=
  match (wedge_run (mkWorld ∅ wedge_script)).2 with
  | Ret (s, _, _) => s
  | _ => mkWState None true 0 false 0 0 0 ∅
  end.

Definition wedged_world : World := (wedge_run (mkWorld ∅ wedge_script)).1.

Lemma failed_roll_witness :
  wedged 7 wedged_state (files wedged_world) /\
  match (seal wedged_state 0 wedged_world).2 with Ret (_, Ok (Some _)) => False | _ => True end.
Proof.
  assert (wedged 7 wedged_state (files wedged_world)) as Hw.
  { split; [eexists; split; vm_compute; reflexivity|]. vm_compute. eexists. reflexivity. }
  split; [exact Hw|].
  apply (failed_roll_is_permanent sample_wal None 1 7 (mkSys wedged_state Waiting false) SealE 0 wedged_world Hw).
  discriminate.
Defined.
