(* ===== verification/Engine.v ===== *)
(** * Engine: appends, ingest, the flush and the start ([engine.rs])

    The engine's state is [struct Inner]; an operation that changes it returns the new
    state with its result, and a caller's error is a value. The clock readings of an
    operation are its inputs: [now] is [now_us()] and [wnow] the writer's clock. The
    scratch buffer of a thread is cleared before each use, so it carries no state.
    Counters and byte counts are unbounded integers. *)

From Stdlib Require Import ZArith Lia.
From Stdlib Require Import Strings.Byte.
From S2P Require Import Prelude Text Record Codec Disk Wal Recovery Lock Merge Time Config Manifest Columns Planner Writer.
Open Scope Z_scope.

(** ** State *)

(** [struct Counters]. *)
Record Counters := mkCounters {
  c_appended : Z;
  c_rejected_ts : Z;
  c_rejected_size : Z;
  c_rejected_series : Z;
  c_rejected_frames : Z;
  c_flush_failures : Z;
  c_rows_flushed : Z;
  c_rows_deduplicated : Z
}.

Definition counters_default : Counters := mkCounters 0 0 0 0 0 0 0 0.

(** [struct Inner]; [i_wal] is the state the writer's lock protects. *)
Record Inner := mkInner {
  i_config : Config;
  i_manifest : Manifest;
  i_handles : gmap bytes SeriesHandle;
  i_wal : WState;
  i_lock : DirLock;
  i_counters : Counters;
  i_ts_min : Z;
  i_ts_max_skew_us : Z
}.

Definition set_wal (e : Inner) (s : WState) : Inner :=
  mkInner (i_config e) (i_manifest e) (i_handles e) s (i_lock e) (i_counters e) (i_ts_min e) (i_ts_max_skew_us e).
Definition set_manifest (e : Inner) (m : Manifest) : Inner :=
  mkInner (i_config e) m (i_handles e) (i_wal e) (i_lock e) (i_counters e) (i_ts_min e) (i_ts_max_skew_us e).
Definition count (e : Inner) (f : Counters -> Counters) : Inner :=
  mkInner (i_config e) (i_manifest e) (i_handles e) (i_wal e) (i_lock e) (f (i_counters e)) (i_ts_min e)
    (i_ts_max_skew_us e).

Definition add_appended_rows (n : Z) (c : Counters) : Counters :=
  mkCounters (c_appended c + n) (c_rejected_ts c) (c_rejected_size c) (c_rejected_series c)
    (c_rejected_frames c) (c_flush_failures c) (c_rows_flushed c) (c_rows_deduplicated c).
Definition add_rejected_ts (c : Counters) : Counters :=
  mkCounters (c_appended c) (c_rejected_ts c + 1) (c_rejected_size c) (c_rejected_series c)
    (c_rejected_frames c) (c_flush_failures c) (c_rows_flushed c) (c_rows_deduplicated c).
Definition add_rejected_size (c : Counters) : Counters :=
  mkCounters (c_appended c) (c_rejected_ts c) (c_rejected_size c + 1) (c_rejected_series c)
    (c_rejected_frames c) (c_flush_failures c) (c_rows_flushed c) (c_rows_deduplicated c).
Definition add_rejected_series (c : Counters) : Counters :=
  mkCounters (c_appended c) (c_rejected_ts c) (c_rejected_size c) (c_rejected_series c + 1)
    (c_rejected_frames c) (c_flush_failures c) (c_rows_flushed c) (c_rows_deduplicated c).
Definition add_rejected_frames (n : Z) (c : Counters) : Counters :=
  mkCounters (c_appended c) (c_rejected_ts c) (c_rejected_size c) (c_rejected_series c)
    (c_rejected_frames c + n) (c_flush_failures c) (c_rows_flushed c) (c_rows_deduplicated c).
Definition flush_failed (c : Counters) : Counters :=
  mkCounters (c_appended c) (c_rejected_ts c) (c_rejected_size c) (c_rejected_series c)
    (c_rejected_frames c) (c_flush_failures c + 1) (c_rows_flushed c) (c_rows_deduplicated c).
Definition flush_done (o : FlushOutcome) (c : Counters) : Counters :=
  mkCounters (c_appended c) (c_rejected_ts c) (c_rejected_size c) (c_rejected_series c)
    (c_rejected_frames c) 0 (c_rows_flushed c + rows_written o) (c_rows_deduplicated c + rows_deduplicated o).

(** ** The checks of an append *)

(** [oversize]: a lower bound of the encoded size, when it exceeds the limit. *)
Definition oversize (row : Row) (limit : Z) : option Z :=
  let n := foldl (fun n v => match v with VStr s => sat_add n (zlen s) | _ => n end)
             (sat_add (zlen (row_id row)) (zlen (row_data row))) (row_keys row) in
  if limit <? n then Some n else None.

Definition ts_upper_bound (e : Inner) (now : Z) : option Z :=
  if now <? i_ts_min e then None else Some (sat_add now (i_ts_max_skew_us e)).

Definition check_ts (e : Inner) (now ts : Z) : Inner * result Error unit :=
  let max := ts_upper_bound e now in
  if (ts <? i_ts_min e) || match max with Some m => m <? ts | None => false end then
    (count e add_rejected_ts, Err (TsOutOfRange ts (i_ts_min e) (default u64_max max)))
  else (e, Ok tt).

(** The loop over the key values. *)
Fixpoint check_values (series : bytes) (l : list (KeyDef * Value)) : result Error unit :=
  match l with
  | [] => Ok tt
  | (def, value) :: l' =>
      match value_key_type value with
      | None =>
          if key_nullable def then check_values series l'
          else Err (TypeMismatch series (key_name def) (key_ty def) None)
      | Some got =>
          if decide (got = key_ty def) then check_values series l'
          else Err (TypeMismatch series (key_name def) (key_ty def) (Some got))
      end
  end.

Definition check_row (e : Inner) (h : SeriesHandle) (now : Z) (row : Row) : Inner * result Error unit :=
  match check_ts e now (row_ts row) with
  | (e, Err err) => (e, Err err)
  | (e, Ok _) =>
      if negb (zlen (row_keys row) =? arity h) then
        (e, Err (KeyArity (sh_name h) (arity h) (zlen (row_keys row))))
      else (e, check_values (sh_name h) (zip (sh_keys h) (row_keys row)))
  end.

Definition record_limit (e : Inner) : Z := max_record_bytes (cfg_limits (i_config e)).

(** The checks both append paths make before encoding. *)
Definition precheck (e : Inner) (h : SeriesHandle) (now : Z) (row : Row) : Inner * result Error unit :=
  match check_row e h now row with
  | (e, Err err) => (e, Err err)
  | (e, Ok _) =>
      match oversize row (record_limit e) with
      | Some size => (count e add_rejected_size, Err (RecordTooLarge size (record_limit e)))
      | None => (e, Ok tt)
      end
  end.

Section engine.
Context `{Crc32} `{Parquet} `{ManifestJson} `{Lowercase}.

(** Encode a row after the frames in [buf] and check its exact size. *)
Definition encode_checked (e : Inner) (h : SeriesHandle) (buf : bytes) (row : Row)
    : Inner * result Error bytes :=
  match encode buf (sh_name h) (sh_epoch h) row with
  | (_, Err err) => (e, Err err)
  | (buf', Ok _) =>
      let size := zlen buf' - zlen buf in
      if record_limit e <? size then
        (count e add_rejected_size, Err (RecordTooLarge size (record_limit e)))
      else (e, Ok buf')
  end.

(** [self.inner.wal.append] or [append_batch], and the count of what was appended. *)
Definition wal_append (e : Inner) (c : bytes) (n wnow : Z) : io (Inner * result Error unit) :=
  r ← append_bytes (effective_config (cfg_wal (i_config e))) (i_wal e) c wnow;
  let '(s, r) := r in
  mret (match r with
        | Ok _ => (count (set_wal e s) (add_appended_rows n), Ok tt)
        | Err err => (set_wal e s, Err err)
        end).

(** [Engine::append]. *)
Definition append (e : Inner) (h : SeriesHandle) (now wnow : Z) (row : Row) : io (Inner * result Error unit) :=
  match precheck e h now row with
  | (e, Err err) => mret (e, Err err)
  | (e, Ok _) =>
      match encode_checked e h [] row with
      | (e, Err err) => mret (e, Err err)
      | (e, Ok frame) => wal_append e frame 1 wnow
      end
  end.

(** The two loops of [Engine::append_batch]; each row's check reads the clock. *)
Fixpoint precheck_rows (e : Inner) (h : SeriesHandle) (rows : list (Z * Row)) : Inner * result Error unit :=
  match rows with
  | [] => (e, Ok tt)
  | (now, row) :: rows' =>
      match precheck e h now row with
      | (e, Err err) => (e, Err err)
      | (e, Ok _) => precheck_rows e h rows'
      end
  end.

Fixpoint encode_rows (e : Inner) (h : SeriesHandle) (buf : bytes) (rows : list Row)
    : Inner * result Error bytes :=
  match rows with
  | [] => (e, Ok buf)
  | row :: rows' =>
      match encode_checked e h buf row with
      | (e, Err err) => (e, Err err)
      | (e, Ok buf') => encode_rows e h buf' rows'
      end
  end.

Definition append_batch (e : Inner) (h : SeriesHandle) (wnow : Z) (rows : list (Z * Row))
    : io (Inner * result Error unit) :=
  match precheck_rows e h rows with
  | (e, Err err) => mret (e, Err err)
  | (e, Ok _) =>
      match encode_rows e h [] rows.*2 with
      | (e, Err err) => mret (e, Err err)
      | (e, Ok buf) => wal_append e buf (zlen rows) wnow
      end
  end.

(** ** Ingest of encoded frames *)

(** [struct RawIngest]. *)
Record RawIngest := mkRaw { accepted : Z; rejected : Z; discarded_bytes : Z }.

Definition raw_accept (r : RawIngest) : RawIngest := mkRaw (accepted r + 1) (rejected r) (discarded_bytes r).
Definition raw_reject (r : RawIngest) (n : Z) : RawIngest := mkRaw (accepted r) (rejected r + 1) (discarded_bytes r + n).

(** Whether the engine knows the series at that epoch. *)
Definition known_series (e : Inner) (series : bytes) (epoch : Z) : bool :=
  match i_handles e !! series with Some h => epoch <=? sh_epoch h | None => false end.

(** The loop of [append_raw]; every frame has at least one byte, and [nows] are the
    readings of the clock, one per frame. *)
Fixpoint ingest (fuel : nat) (e : Inner) (nows : nat -> Z) (bytes_ good : bytes) (out : RawIngest)
    : Inner * bytes * RawIngest :=
  match fuel with
  | O => (e, good, out)
  | S fuel' =>
      if decide (bytes_ = []) then (e, good, out)
      else
        match validate_prefix bytes_ (record_limit e) with
        | Err _ => (e, good, raw_reject out (zlen bytes_))
        | Ok prefix =>
            let n := Z.to_nat (pre_frame_len prefix) in
            let frame := take n bytes_ in
            let rest := drop n bytes_ in
            match check_ts e (nows 0%nat) (pre_ts prefix) with
            | (e, Err _) => ingest fuel' e (nows ∘ S) rest good (raw_reject out 0)
            | (e, Ok _) =>
                if known_series e (pre_series prefix) (pre_epoch prefix) then
                  ingest fuel' e (nows ∘ S) rest (good ++ frame) (raw_accept out)
                else ingest fuel' (count e add_rejected_series) (nows ∘ S) rest good (raw_reject out 0)
            end
        end
  end.

Definition append_raw (e : Inner) (nows : nat -> Z) (wnow : Z) (bytes_ : bytes)
    : io (Inner * result Error RawIngest) :=
  let '(e, good, out) := ingest (length bytes_) e nows bytes_ [] (mkRaw 0 0 0) in
  r ← (if decide (good = []) then mret (e, Ok tt) else wal_append e good (accepted out) wnow);
  let '(e, r) := r in
  mret (match r with
        | Err err => (e, Err err)
        | Ok _ =>
            (if 0 <? rejected out then count e (add_rejected_frames (rejected out)) else e, Ok out)
        end).

(** ** The flush *)

Definition flush_overdue (e : Inner) (now : Z) : bool :=
  let interval := sat_mul (interval_ms (cfg_flush (i_config e))) 1000 in
  match last_flush_at (i_manifest e) with
  | None => true
  | Some last_ => interval <=? sat_sub now last_
  end.

Definition consumable (pending : list Z) (active floor : Z) : list Z :=
  filter (fun id => id < active /\ floor < id) pending.

(** What a flush does between the seal and [planner::run]: the segments to consume. *)
Definition flush_select (e : Inner) : io (list Z) :=
  pending ← list_segments;
  let floor := last_flushed_segment (i_manifest e) in
  (if 0 <? c_flush_failures (i_counters e) then sweep_uncommitted floor else mret tt) ;;
  mret (consumable pending (active_segment (i_wal e)) floor).

(** [Inner::flush]. *)
Definition flush (e : Inner) (now wnow : Z) : io (Inner * result Error FlushOutcome) :=
  r ← seal (i_wal e) wnow;
  let '(s, r) := r in
  let e := set_wal e s in
  match r with
  | Err err => mret (e, Err err)
  | Ok _ =>
      r ← attempt (flush_select e);
      match r with
      | Err err => mret (e, Err err)
      | Ok ids =>
          r ← run (i_config e) (i_manifest e) ids now;
          let '(m, r) := r in
          let e := set_manifest e m in
          mret (match r with
                | Ok o => (count e (flush_done o), Ok o)
                | Err err => (count e flush_failed, Err err)
                end)
      end
  end.

(** One wake-up of the timer thread: [None] when it ends. A failed flush is logged. *)
Definition flusher (e : Inner) (stop timed_out : bool) (now wnow : Z) : io (option Inner) :=
  if stop then mret None
  else if negb timed_out then mret (Some e)
  else r ← flush e now wnow; mret (Some r.1).

(** ** Start and end *)

(** [Drop] of a value that owns [cleanup], when the rest of its scope fails. *)
Definition on_error {A : Type} (m : io A) (cleanup : io unit) : io A :=
  r ← attempt m;
  match r with
  | Ok a => mret a
  | Err e => _ ← attempt cleanup; throw e
  end.

Fixpoint make_handles (m : Manifest) (series : list SeriesConfig) (handles : gmap bytes SeriesHandle)
    : result Error (gmap bytes SeriesHandle) :=
  match series with
  | [] => Ok handles
  | s :: series' =>
      h ← handle_new s (default 0 (current_epoch m (sc_name s)));
      make_handles m series' (<[sc_name s := h]> handles)
  end.

(** Load the manifest, fold the configuration in and commit a change. *)
Definition open_manifest (c : Config) : io Manifest :=
  found ← manifest_exists;
  (if found : bool then mret tt else require_manifest_for_output) ;;
  m ← manifest_load;
  let '(m, r) := reconcile m c in
  changed ← lift r;
  (if changed : bool then commit m else mret tt) ;;
  mret m.

(** [Engine::open_with] after the lock, up to the startup flush: the engine and whether
    the log has pending segments. *)
Definition open_inner (c : Config) (lock : DirLock) (wnow : Z) : io (Inner * bool) :=
  m ← open_manifest c;
  sweep_uncommitted (last_flushed_segment m) ;;
  rec ← recover (last_flushed_segment m);
  s ← writer_open (rc_next rec);
  on_error (
    handles ← lift (make_handles m (cfg_series c) ∅);
    ts_min ← lift (ts_min_us (cfg_limits c));
    mret (mkInner c m handles s lock counters_default ts_min (sat_mul (ts_max_skew_ms (cfg_limits c)) 1000),
          match rc_pending rec with [] => false | _ => true end)
  ) (ignore (close_active (set_stop s) wnow)).

Definition open_with (c : Config) (pid : Z) (age : option Z) (force_unlock : bool) (now wnow : Z) : io Inner :=
  lift (validate c) ;;
  lock ← acquire (data_dir c) pid age force_unlock;
  r ← on_error (open_inner c lock wnow) (drop_lock lock);
  let '(e, pending) := r in
  if on_startup (cfg_flush c) && (pending && flush_overdue e now) then
    r ← flush e now wnow; mret r.1
  else mret e.

(** [Engine::close] once the timer has been joined, and [Drop] of the engine. *)
Definition engine_close (e : Inner) (wnow : Z) : io (Inner * result Error unit) :=
  r ← close_active (set_stop (i_wal e)) wnow;
  mret (set_wal e r.1, r.2).

Definition engine_drop (e : Inner) (wnow : Z) : io unit :=
  r ← engine_close e wnow;
  drop_lock (i_lock r.1).
End engine.

(** ** Queries *)

Definition series (e : Inner) (name : bytes) : result Error SeriesHandle :=
  match i_handles e !! name with Some h => Ok h | None => Err (UnknownSeries name) end.

(** [struct Stats]. *)
Record Stats := mkStats {
  st_appended : Z;
  st_rejected_ts : Z;
  st_rejected_size : Z;
  st_rejected_series : Z;
  st_rejected_frames : Z;
  st_flush_failures : Z;
  st_rows_flushed : Z;
  st_rows_deduplicated : Z;
  st_wal_bytes : Z;
  st_wal_total_bytes : Z;
  st_segment : Z
}.

Definition engine_stats (e : Inner) : io Stats :=
  let w := writer_stats (i_wal e) in
  let c := i_counters e in
  r ← attempt total_bytes;
  let total := match r with Ok n => n | Err _ => wst_segment_bytes w end in
  mret (mkStats (c_appended c) (c_rejected_ts c) (c_rejected_size c) (c_rejected_series c)
    (c_rejected_frames c) (c_flush_failures c) (c_rows_flushed c) (c_rows_deduplicated c)
    (wst_segment_bytes w) total (wst_segment w)).

Definition accept_window (e : Inner) (now : Z) : bytes * option bytes :=
  (format_rfc3339_utc (i_ts_min e), format_rfc3339_utc <$> ts_upper_bound e now).
