(* ===== verification/EngineProofs.v ===== *)
(** * EngineProofs: what the engine admits to the log *)

From Stdlib Require Import ZArith Lia.
From Stdlib Require Import Strings.Byte.
From S2P Require Import Prelude Text Record Codec CodecProofs CodecTheorems Disk Wal Reader Config Manifest Writer Engine.
Open Scope Z_scope.

(** ** Which rows are admitted *)

(** The value of a key column, as [append] checks it. *)
Definition accepts (k : KeyDef) (v : Value) : Prop :=
  match value_key_type v with
  | None => key_nullable k = true
  | Some ty => ty = key_ty k
  end.

Definition in_window (e : Inner) (now ts : Z) : Prop :=
  i_ts_min e <= ts /\ match ts_upper_bound e now with Some m => ts <= m | None => True end.

(** The bytes that two equal engines may still differ in: their counters. *)
Definition but_counters (e e' : Inner) : Prop := exists f, e' = count e f.

Lemma but_counters_refl e : but_counters e e.
Proof. exists (fun c => c). by destruct e. Qed.

Lemma but_counters_count e e' f : but_counters e e' -> but_counters e (count e' f).
Proof. intros [g ->]. by exists (f ∘ g). Qed.

Lemma check_ts_spec e now ts :
  (in_window e now ts /\ check_ts e now ts = (e, Ok tt)) \/
  (~ in_window e now ts /\ exists max,
    check_ts e now ts = (count e add_rejected_ts, Err (TsOutOfRange ts (i_ts_min e) max))).
Proof.
  unfold check_ts, in_window. destruct (Z.ltb_spec ts (i_ts_min e)); cbn [orb].
  { right. split; [lia|]. by eexists. }
  destruct (ts_upper_bound e now) as [m|]; [|left; split; [lia|done]].
  destruct (Z.ltb_spec m ts); [right; split; [lia|by eexists]|left; split; [lia|done]].
Qed.

Lemma check_values_spec series keys values : length keys = length values ->
  (Forall2 accepts keys values /\ check_values series (zip keys values) = Ok tt) \/
  (~ Forall2 accepts keys values /\ exists k ty got,
    check_values series (zip keys values) = Err (TypeMismatch series k ty got)).
Proof.
  revert values. induction keys as [|k keys IH]; intros [|v values] Hl; try done; [by left|].
  cbn [zip zip_with check_values]. injection Hl as Hl. specialize (IH values Hl).
  rewrite Forall2_cons. unfold accepts at 1 3. destruct (value_key_type v) as [ty|].
  - destruct (decide (ty = key_ty k)) as [E|E].
    + destruct IH as [[? ?]|[? ?]]; [left|right]; by naive_solver.
    + right. split; [by intros [? _]|by do 3 eexists].
  - destruct (key_nullable k) eqn:E.
    + destruct IH as [[? ?]|[? ?]]; [left|right]; by naive_solver.
    + right. split; [by intros [? _]|by do 3 eexists].
Qed.

(** ** Sizes *)

Lemma oversize_keys n keys : 0 <= n ->
  foldl (fun n v => match v with VStr s => sat_add n (zlen s) | _ => n end) n keys
  <= n + zlen (concat (value_bytes <$> keys)).
Proof.
  revert n. induction keys as [|v keys IH]; intros n Hn; cbn [foldl fmap list_fmap concat].
  - rewrite zlen_nil. lia.
  - etrans.
    + apply IH. destruct v; try lia. pose proof (zlen_nonneg s). unfold sat_add, u64_max, u64_lim. lia.
    + rewrite zlen_app. pose proof (zlen_nonneg (value_bytes v)).
      destruct v as [| | | |s]; try lia. unfold value_bytes, str32, sat_add. zlen_lia.
Qed.

Lemma oversize_bound row limit n series epoch :
  oversize row limit = Some n -> limit < n <= zlen (payload_of series epoch row).
Proof.
  unfold oversize. set (m := foldl _ _ _). destruct (Z.ltb_spec limit m); [|done]. intros [= <-].
  split; [done|]. subst m. pose proof (zlen_nonneg (row_id row)). pose proof (zlen_nonneg (row_data row)).
  etrans; [apply oversize_keys; unfold sat_add, u64_max, u64_lim; lia|].
  unfold payload_of, prefix_bytes, str16, str32, sat_add. zlen_lia.
Qed.

Section judging.
Context `{Crc32}.

(** The frame of a row appended through a handle. *)
Definition row_frame (h : SeriesHandle) (row : Row) : bytes :=
  written_frame (mkWritten (sh_name h) (sh_epoch h) row).

Record admissible (e : Inner) (h : SeriesHandle) (now : Z) (row : Row) : Prop := {
  ad_window : in_window e now (row_ts row);
  ad_keys : Forall2 accepts (sh_keys h) (row_keys row);
  ad_fits : fits (sh_name h) (sh_epoch h) row = true;
  ad_size : zlen (row_frame h row) <= record_limit e
}.

(** Why a row is refused, and what the refusal counts. *)
Inductive refusal (e : Inner) (h : SeriesHandle) (now : Z) (row : Row) : Inner -> Error -> Prop :=
| refused_ts max : ~ in_window e now (row_ts row) ->
    refusal e h now row (count e add_rejected_ts) (TsOutOfRange (row_ts row) (i_ts_min e) max)
| refused_arity : in_window e now (row_ts row) -> zlen (row_keys row) <> arity h ->
    refusal e h now row e (KeyArity (sh_name h) (arity h) (zlen (row_keys row)))
| refused_type k ty got : in_window e now (row_ts row) -> zlen (row_keys row) = arity h ->
    ~ Forall2 accepts (sh_keys h) (row_keys row) ->
    refusal e h now row e (TypeMismatch (sh_name h) k ty got)
| refused_size size : in_window e now (row_ts row) -> Forall2 accepts (sh_keys h) (row_keys row) ->
    record_limit e < size -> size <= zlen (row_frame h row) ->
    refusal e h now row (count e add_rejected_size) (RecordTooLarge size (record_limit e))
| refused_encode size limit : in_window e now (row_ts row) -> Forall2 accepts (sh_keys h) (row_keys row) ->
    fits (sh_name h) (sh_epoch h) row = false ->
    refusal e h now row e (RecordTooLarge size limit).

Lemma refusal_not_admissible e h now row e' err : refusal e h now row e' err -> ~ admissible e h now row.
Proof.
  intros Hr [H1 H2 H3 H4]. destruct Hr; try done; [|lia|congruence].
  apply Forall2_length in H2. unfold arity, zlen in *. lia.
Qed.

Lemma refusal_counters e h now row e' err : refusal e h now row e' err ->
  but_counters e e' /\ c_appended (i_counters e') = c_appended (i_counters e).
Proof. destruct 1; (split; [first [apply but_counters_refl|by eexists]|done]). Qed.

(** The two stages of the checks. *)
Lemma precheck_spec e h now row :
  (in_window e now (row_ts row) /\ Forall2 accepts (sh_keys h) (row_keys row) /\
   precheck e h now row = (e, Ok tt)) \/
  (exists e' err, precheck e h now row = (e', Err err) /\ refusal e h now row e' err).
Proof.
  unfold precheck, check_row. destruct (check_ts_spec e now (row_ts row)) as [[Hw ->]|(Hw & max & ->)].
  2:{ right. do 2 eexists. split; [done|]. by constructor. }
  destruct (Z.eqb_spec (zlen (row_keys row)) (arity h)) as [El|El]; cbn [negb].
  2:{ right. do 2 eexists. split; [done|]. by constructor. }
  assert (length (sh_keys h) = length (row_keys row)) as Hlen by (unfold arity, zlen in El; lia).
  destruct (check_values_spec (sh_name h) _ _ Hlen) as [[Hk ->]|(Hk & k & ty & got & ->)].
  2:{ right. do 2 eexists. split; [done|]. by constructor. }
  destruct (oversize row (record_limit e)) as [n|] eqn:Eo; [|by left].
  right. do 2 eexists. split; [done|]. apply (oversize_bound _ _ _ (sh_name h) (sh_epoch h)) in Eo.
  apply refused_size; [done|done|lia|]. unfold row_frame, written_frame. cbn [wr_series wr_epoch wr_row].
  rewrite zlen_frame_of. unfold FRAME_HEADER_BYTES. lia.
Qed.

Lemma encode_checked_spec e h now buf row :
  in_window e now (row_ts row) -> Forall2 accepts (sh_keys h) (row_keys row) ->
  (admissible e h now row /\ encode_checked e h buf row = (e, Ok (buf ++ row_frame h row))) \/
  (exists e' err, encode_checked e h buf row = (e', Err err) /\ refusal e h now row e' err).
Proof.
  intros Hw Hk. unfold encode_checked. pose proof (encode_result buf (sh_name h) (sh_epoch h) row) as Hr.
  destruct (fits _ _ row) eqn:Ef.
  - rewrite Hr. fold (written_frame (mkWritten (sh_name h) (sh_epoch h) row)) in *.
    change (frame_of (payload_of (sh_name h) (sh_epoch h) row)) with (row_frame h row).
    replace (zlen (buf ++ row_frame h row) - zlen buf) with (zlen (row_frame h row)) by (rewrite zlen_app; lia).
    destruct (Z.ltb_spec (record_limit e) (zlen (row_frame h row))).
    + right. do 2 eexists. split; [done|]. by apply refused_size.
    + left. by split.
  - destruct Hr as (size & limit & ->). right. do 2 eexists. split; [done|]. by apply refused_encode.
Qed.

(** A batch of rows with their clock readings. *)
Definition rows_frames (h : SeriesHandle) (rows : list (Z * Row)) : bytes := concat (row_frame h <$> rows.*2).

Definition batch_admissible (e : Inner) (h : SeriesHandle) (rows : list (Z * Row)) : Prop :=
  Forall (fun r => admissible e h r.1 r.2) rows.

Lemma precheck_rows_spec e h rows :
  (Forall (fun r => in_window e r.1 (row_ts r.2) /\ Forall2 accepts (sh_keys h) (row_keys r.2)) rows /\
   precheck_rows e h rows = (e, Ok tt)) \/
  (exists e' err r, r ∈ rows /\ precheck_rows e h rows = (e', Err err) /\ refusal e h r.1 r.2 e' err).
Proof.
  induction rows as [|[now row] rows IH]; cbn [precheck_rows]; [by left|].
  destruct (precheck_spec e h now row) as [(Hw & Hk & ->)|(e' & err & -> & Hr)].
  2:{ right. exists e', err, (now, row). split_and!; [left|done|done]. }
  destruct IH as [[Hf ->]|(e' & err & r & Hin & -> & Hr)].
  - left. split; [|done]. by constructor.
  - right. exists e', err, r. split_and!; [by right|done|done].
Qed.

Lemma encode_rows_spec e h buf rows :
  Forall (fun r => in_window e r.1 (row_ts r.2) /\ Forall2 accepts (sh_keys h) (row_keys r.2)) rows ->
  (batch_admissible e h rows /\ encode_rows e h buf rows.*2 = (e, Ok (buf ++ rows_frames h rows))) \/
  (exists e' err r, r ∈ rows /\ encode_rows e h buf rows.*2 = (e', Err err) /\ refusal e h r.1 r.2 e' err).
Proof.
  revert buf. induction rows as [|[now row] rows IH]; intros buf Hf; rewrite ?fmap_cons; cbn [encode_rows snd].
  { left. split; [constructor|]. unfold rows_frames. cbn. by rewrite app_nil_r. }
  apply Forall_cons in Hf as [[Hw Hk] Hf].
  destruct (encode_checked_spec e h now buf row Hw Hk) as [[Ha ->]|(e' & err & -> & Hr)].
  2:{ right. exists e', err, (now, row). split_and!; [left|done|done]. }
  destruct (IH (buf ++ row_frame h row) Hf) as [[Hb E]|(e' & err & r & Hin & E & Hr)]; rewrite E.
  - left. split; [by constructor|]. unfold rows_frames. cbn. by rewrite <-app_assoc.
  - right. exists e', err, r. split_and!; [by right|done|done].
Qed.
End judging.

(** ** Which encoded frames are taken *)

#[export] Instance in_window_dec e now ts : Decision (in_window e now ts).
Proof. unfold in_window. destruct (ts_upper_bound e now); apply _. Defined.

Section ingest.
Context `{Crc32}.

(** The verdict on a frame: taken, outside the accept window, or of an unknown series
    or a later epoch. *)
Inductive verdict := Taken | Late | Foreign.

#[export] Instance verdict_eq_dec : EqDecision verdict.
Proof. solve_decision. Defined.

Definition judge (e : Inner) (now : Z) (f : bytes) : verdict :=
  match validate_prefix f (record_limit e) with
  | Ok p =>
      if decide (in_window e now (pre_ts p)) then
        if known_series e (pre_series p) (pre_epoch p) then Taken else Foreign
      else Late
  | Err _ => Foreign
  end.

(** The frames with their verdicts, each at its reading of the clock. *)
Definition judged (e : Inner) (nows : nat -> Z) (fs : list bytes) : list (bytes * verdict) :=
  imap (fun i f => (f, judge e (nows i) f)) fs.

Definition with_verdict (v : verdict) (l : list (bytes * verdict)) : list bytes :=
  (filter (fun p => p.2 = v) l).*1.

Definition add_rejections (late foreign : Z) (c : Counters) : Counters :=
  mkCounters (c_appended c) (c_rejected_ts c + late) (c_rejected_size c) (c_rejected_series c + foreign)
    (c_rejected_frames c) (c_flush_failures c) (c_rows_flushed c) (c_rows_deduplicated c).

Lemma count_nothing e : count e (add_rejections 0 0) = e.
Proof. destruct e as [? ? ? ? ? [] ? ?]. unfold count, add_rejections. cbn. by rewrite !Z.add_0_r. Qed.

(** The verdicts do not read the counters. *)
Lemma judged_count e g nows fs : judged (count e g) nows fs = judged e nows fs.
Proof. done. Qed.

Lemma judged_cons e nows f fs : judged e nows (f :: fs) = (f, judge e (nows 0%nat) f) :: judged e (nows ∘ S) fs.
Proof. done. Qed.

Lemma with_verdict_cons v f v' l :
  with_verdict v ((f, v') :: l) = (if decide (v' = v) then [f] else []) ++ with_verdict v l.
Proof. unfold with_verdict. rewrite filter_cons. cbn. by destruct (decide (v' = v)). Qed.

(** What the loop adds. *)
Definition raw_total (out : RawIngest) (l : list (bytes * verdict)) (rest : bytes) : RawIngest :=
  mkRaw (accepted out + zlen (with_verdict Taken l))
    (rejected out + zlen (with_verdict Late l) + zlen (with_verdict Foreign l) + match rest with [] => 0 | _ => 1 end)
    (discarded_bytes out + zlen rest).

(** The engine after the counts of the rejected frames. *)
Definition counted (e : Inner) (l : list (bytes * verdict)) : Inner :=
  count e (add_rejections (zlen (with_verdict Late l)) (zlen (with_verdict Foreign l))).

(** One frame. *)
Definition raw_step (v : verdict) (out : RawIngest) : RawIngest :=
  match v with Taken => raw_accept out | _ => raw_reject out 0 end.
Definition count_step (v : verdict) (e : Inner) : Inner :=
  match v with Taken => e | Late => count e add_rejected_ts | Foreign => count e add_rejected_series end.

Lemma raw_eq a r d a' r' d' : a = a' -> r = r' -> d = d' -> mkRaw a r d = mkRaw a' r' d'.
Proof. by intros -> -> ->. Qed.

Lemma counters_eq e f late foreign late' foreign' :
  (forall c, add_rejections late foreign c = add_rejections late' foreign' (f c)) ->
  count e (add_rejections late foreign) = count (count e f) (add_rejections late' foreign').
Proof. intros E. unfold count. cbn. by rewrite E. Qed.

Lemma rejections_eq c late foreign c' late' foreign' :
  c_appended c = c_appended c' -> c_rejected_ts c + late = c_rejected_ts c' + late' ->
  c_rejected_size c = c_rejected_size c' -> c_rejected_series c + foreign = c_rejected_series c' + foreign' ->
  c_rejected_frames c = c_rejected_frames c' -> c_flush_failures c = c_flush_failures c' ->
  c_rows_flushed c = c_rows_flushed c' -> c_rows_deduplicated c = c_rows_deduplicated c' ->
  add_rejections late foreign c = add_rejections late' foreign' c'.
Proof. unfold add_rejections. congruence. Qed.

Lemma raw_total_cons out f v l rest : raw_total out ((f, v) :: l) rest = raw_total (raw_step v out) l rest.
Proof.
  destruct out as [a r d]. unfold raw_total. rewrite !with_verdict_cons.
  destruct v; repeat case_decide; try done; apply raw_eq; cbn; unfold zlen; cbn [length]; lia.
Qed.

Lemma counted_cons e f v l : counted e ((f, v) :: l) = counted (count_step v e) l.
Proof.
  unfold counted. rewrite !with_verdict_cons.
  destruct v; repeat case_decide; try done; apply counters_eq; intros c; apply rejections_eq; cbn; unfold zlen; cbn [length]; lia.
Qed.

Lemma ingest_spec fuel e nows fs rest good out :
  Forall (valid_frame (record_limit e)) fs -> stuck (record_limit e) rest ->
  (length (concat fs ++ rest) <= fuel)%nat ->
  let l := judged e nows fs in
  ingest fuel e nows (concat fs ++ rest) good out
  = (counted e l, good ++ concat (with_verdict Taken l), raw_total out l rest).
Proof.
  revert fuel e nows good out. induction fs as [|f fs IH]; intros fuel e nows good out Hf Hst Hl.
  - cbn [concat app] in *. unfold counted. cbn. change (zlen []) with 0. rewrite count_nothing, app_nil_r.
    destruct out as [a r d]. unfold raw_total. cbn. change (zlen []) with 0. rewrite !Z.add_0_r.
    destruct rest as [|b rest].
    + change (zlen []) with 0. rewrite !Z.add_0_r. by destruct fuel.
    + destruct fuel as [|fuel]; [cbn in Hl; lia|]. cbn [ingest].
      destruct (decide _) as [|_]; [done|]. destruct Hst as [|[err E]]; [done|]. by rewrite E.
  - apply Forall_cons in Hf as [Hf Hfs]. pose proof (valid_frame_len _ _ Hf) as Hlen.
    cbn [concat] in *. rewrite <-app_assoc in *. rewrite length_app in Hl.
    destruct fuel as [|fuel]; [unfold zlen in Hlen; lia|]. cbn [ingest].
    destruct (decide _) as [E|_]; [apply app_eq_nil in E as [-> _]; unfold zlen in Hlen; cbn in Hlen; lia|].
    pose proof Hf as (p & E & Hp). rewrite (validate_prefix_app _ _ _ _ E).
    destruct (take_drop_frame f (concat fs ++ rest) (pre_frame_len p) (eq_sym Hp)) as [-> ->].
    assert (length (concat fs ++ rest) <= fuel)%nat as Hl' by (unfold zlen in Hlen; lia).
    assert (judge e (nows 0%nat) f = if decide (in_window e (nows 0%nat) (pre_ts p)) then
      if known_series e (pre_series p) (pre_epoch p) then Taken else Foreign else Late) as Ej by (unfold judge; by rewrite E).
    cbv zeta. rewrite judged_cons, with_verdict_cons, raw_total_cons, counted_cons.
    destruct (check_ts_spec e (nows 0%nat) (pre_ts p)) as [[Hw ->]|(Hw & max & ->)].
    + rewrite decide_True in Ej by done. destruct (known_series _ _ _); rewrite Ej; cbn [count_step raw_step].
      * rewrite (IH fuel e) by done. cbn. by rewrite <-app_assoc.
      * by rewrite (IH fuel (count e add_rejected_series)) by done.
    + rewrite decide_False in Ej by done. rewrite Ej. by rewrite (IH fuel (count e add_rejected_ts)) by done.
Qed.

Lemma raw_total_nonneg l rest : 0 <= rejected (raw_total (mkRaw 0 0 0) l rest).
Proof. unfold raw_total. cbn. destruct rest; unfold zlen; lia. Qed.

(** The guard around the count of rejected frames makes no difference. *)
Lemma count_rejected e n : 0 <= n ->
  (if 0 <? n then count e (add_rejected_frames n) else e) = count e (add_rejected_frames n).
Proof.
  intros Hn. destruct (Z.ltb_spec 0 n); [done|]. replace n with 0 by lia.
  destruct e as [? ? ? ? ? [] ? ?]. unfold count, add_rejected_frames. cbn. by rewrite Z.add_0_r.
Qed.

(** Good frames are not empty. *)
Lemma taken_nil e nows fs : Forall (valid_frame (record_limit e)) fs ->
  concat (with_verdict Taken (judged e nows fs)) = [] <-> with_verdict Taken (judged e nows fs) = [].
Proof.
  intros Hf. destruct (with_verdict Taken _) as [|f t] eqn:E; [done|]. split; [|done]. intros Hnil.
  assert (f ∈ with_verdict Taken (judged e nows fs)) as Hin by (rewrite E; left).
  apply list_elem_of_fmap in Hin as ([f' v] & -> & Hp). apply list_elem_of_filter in Hp as [_ Hp].
  unfold judged in Hp. apply elem_of_lookup_imap in Hp as (i & x & [= -> ->] & Hx).
  rewrite Forall_forall in Hf. apply list_elem_of_lookup_2, Hf, valid_frame_len in Hx.
  apply app_eq_nil in Hnil as [Hn _]. cbn in Hn. rewrite Hn in Hx. by unfold zlen in Hx.
Qed.
End ingest.
