(* ===== verification/EngineTheorems.v ===== *)
(** * EngineTheorems: what an append and an ingest promise *)

From Stdlib Require Import ZArith Lia.
From Stdlib Require Import Strings.Byte.
From S2P Require Import Prelude Text Record Codec CodecProofs CodecTheorems Disk Wal Reader Recovery Lock Merge MergeProofs Sources BatchProofs Config Manifest Columns Planner Writer Decode Engine EngineProofs.
Open Scope Z_scope.

Section append.
Context `{Crc32}.

(** A refused batch and an admitted one. *)
Lemma append_batch_spec e h wnow rows w :
  (batch_admissible e h rows /\
   append_batch e h wnow rows w = wal_append e (rows_frames h rows) (zlen rows) wnow w) \/
  (exists e' err r, r ∈ rows /\ refusal e h r.1 r.2 e' err /\
   append_batch e h wnow rows w = (w, Ret (e', Err err))).
Proof.
  unfold append_batch. destruct (precheck_rows_spec e h rows) as [[Hf ->]|(e' & err & r & Hin & -> & Hr)].
  2:{ right. by exists e', err, r. }
  destruct (encode_rows_spec e h [] rows Hf) as [[Hb ->]|(e' & err & r & Hin & -> & Hr)]; [by left|].
  right. by exists e', err, r.
Qed.

(** C14: Admission to the log is exact, and a batch is admitted whole or not at all. A
    batch is handed to the log iff every row is in the accept window, has a value of the
    declared type (or a permitted null) in each key column, can be encoded and is within
    the record limit; the bytes handed over are the rows' frames in order. Otherwise
    the files and the log are untouched, and the error is that of a row of the batch,
    for its actual reason, with the counter of that reason alone incremented. When the
    log accepts the bytes, the count of appended rows grows by the size of the batch.
    A single [append] is a batch of one row. *)
Theorem append_all_or_nothing e h wnow rows w :
  (batch_admissible e h rows ->
   append_batch e h wnow rows w = wal_append e (rows_frames h rows) (zlen rows) wnow w) /\
  (~ batch_admissible e h rows -> exists e' err r, r ∈ rows /\ refusal e h r.1 r.2 e' err /\
   append_batch e h wnow rows w = (w, Ret (e', Err err)) /\ but_counters e e' /\
   c_appended (i_counters e') = c_appended (i_counters e)) /\
  (forall w' e', append_batch e h wnow rows w = (w', Ret (e', Ok tt)) ->
   batch_admissible e h rows /\
   c_appended (i_counters e') = c_appended (i_counters e) + zlen rows /\
   exists wake, append_bytes (effective_config (cfg_wal (i_config e))) (i_wal e) (rows_frames h rows) wnow w
     = (w', Ret (i_wal e', Ok wake))) /\
  (forall now row, append e h now wnow row w = append_batch e h wnow [(now, row)] w).
Proof.
  destruct (append_batch_spec e h wnow rows w) as [[Hb E]|(e' & err & r & Hin & Hr & E)].
  - split_and!; [done|by intros| |].
    + intros w' e' E'. rewrite E in E'. split; [done|]. unfold wal_append, mbind, io_bind in E'. cbn [exec] in E'.
      destruct (append_bytes _ _ _ _ w) as [w1 [[s [wake|err]]| |]]; try done.
      injection E' as <- <-. cbn. split; [done|]. by eexists.
    + intros now row. unfold append, append_batch. cbn [precheck_rows fmap list_fmap snd encode_rows].
      destruct (precheck e h now row) as [e1 [[]|]]; [|done].
      by destruct (encode_checked e1 h [] row) as [e2 [|]].
  - pose proof (refusal_not_admissible _ _ _ _ _ _ Hr) as Hna.
    assert (~ batch_admissible e h rows) as Hnb.
    { intros Hb. unfold batch_admissible in Hb. rewrite Forall_forall in Hb. by apply Hna, Hb. }
    split_and!; [done| | |].
    + intros _. exists e', err, r. destruct (refusal_counters _ _ _ _ _ _ Hr). done.
    + intros w' e1 E'. congruence.
    + intros now row. unfold append, append_batch. cbn [precheck_rows fmap list_fmap snd encode_rows].
      destruct (precheck e h now row) as [e1 [[]|]]; [|done].
      by destruct (encode_checked e1 h [] row) as [e2 [|]].
Qed.

(** [append_raw] on bytes that split into good frames and a rest. *)
Lemma append_raw_spec e nows wnow w fs rest :
  Forall (valid_frame (record_limit e)) fs -> stuck (record_limit e) rest ->
  let l := judged e nows fs in
  let good := concat (with_verdict Taken l) in
  let out := raw_total (mkRaw 0 0 0) l rest in
  let finish e' := count e' (add_rejected_frames (rejected out)) in
  (with_verdict Taken l = [] -> append_raw e nows wnow (concat fs ++ rest) w = (w, Ret (finish (counted e l), Ok out))) /\
  (with_verdict Taken l <> [] -> forall w' s r,
     append_bytes (effective_config (cfg_wal (i_config e))) (i_wal e) good wnow w = (w', Ret (s, r)) ->
     append_raw e nows wnow (concat fs ++ rest) w
     = (w', Ret match r with
                | Ok _ => (finish (count (set_wal (counted e l) s) (add_appended_rows (accepted out))), Ok out)
                | Err err => (set_wal (counted e l) s, Err err)
                end)).
Proof.
  intros Hf Hst l good out finish. pose proof (raw_total_nonneg l rest) as Hrej. fold out in Hrej.
  unfold append_raw. rewrite (ingest_spec _ e nows fs rest [] (mkRaw 0 0 0) Hf Hst (le_n _)). fold l good out.
  cbn [app]. pose proof (taken_nil _ _ _ Hf : good = [] <-> _) as Hgood. split.
  - intros E. rewrite decide_True by (by apply Hgood). unfold mbind, io_bind, mret, io_ret. cbn [exec].
    by rewrite count_rejected.
  - intros E w' s r Er. rewrite decide_False by (by rewrite Hgood). unfold wal_append. rewrite !exec_bind.
    change (append_bytes _ (i_wal (counted e l)) good wnow w)
      with (append_bytes (effective_config (cfg_wal (i_config e))) (i_wal e) good wnow w).
    rewrite Er. destruct r as [wake|err]; [|done]. rewrite exec_ret. cbv beta iota. by rewrite count_rejected.
Qed.

(** C15: Ingest of client-encoded bytes is exact. The bytes split uniquely into good
    frames and a rest where no frame starts; the frames taken are exactly those inside
    the accept window, of a known series and not of a later epoch, and their bytes go
    to the log unchanged, in order and in one piece; every other frame is counted once,
    under its reason, and the whole rest is reported as discarded. When the log refuses
    the bytes its error is returned, and without a good frame nothing is written. *)
Theorem append_raw_exact e nows wnow bytes_ w fs rest :
  frames_of (record_limit e) bytes_ = (fs, rest) ->
  let l := judged e nows fs in
  let good := concat (with_verdict Taken l) in
  let out := raw_total (mkRaw 0 0 0) l rest in
  bytes_ = concat fs ++ rest /\
  (with_verdict Taken l = [] -> exists e', append_raw e nows wnow bytes_ w = (w, Ret (e', Ok out)) /\
     but_counters e e' /\
     i_counters e' = add_rejected_frames (rejected out) (i_counters (counted e l))) /\
  (with_verdict Taken l <> [] -> forall w' s r,
     append_bytes (effective_config (cfg_wal (i_config e))) (i_wal e) good wnow w = (w', Ret (s, r)) ->
     exists e', append_raw e nows wnow bytes_ w
       = (w', Ret (e', match r with Ok _ => Ok out | Err err => Err err end)) /\ but_counters (set_wal e s) e' /\
     i_counters e' = match r with
                     | Ok _ => add_rejected_frames (rejected out)
                                 (add_appended_rows (accepted out) (i_counters (counted e l)))
                     | Err _ => i_counters (counted e l)
                     end).
Proof.
  intros Es l good out. apply frames_of_spec in Es as (-> & Hf & Hst). split; [done|].
  destruct (append_raw_spec e nows wnow w fs rest Hf Hst) as [Hnone Hsome]. fold l good out in Hnone, Hsome. split.
  - intros E. rewrite (Hnone E). eexists. split; [done|]. split; [|done].
    apply but_counters_count, but_counters_count, but_counters_refl.
  - intros E w' s r Er. rewrite (Hsome E w' s r Er). destruct r as [wake|err]; (eexists; split; [done|]; split; [|done]).
    + apply but_counters_count, but_counters_count. by exists (i_counters ∘ fun _ => counted e l).
    + by exists (i_counters ∘ fun _ => counted e l).
Qed.
End append.

(** ** From the append to the flush *)

Section reach.
Context `{Crc32} (m : Manifest).

(** The handle's schema is the one the manifest records for its epoch. *)
Record stamped (h : SeriesHandle) : Prop := {
  sp_schema : schema m (sh_name h) (sh_epoch h) = Some (sh_keys h);
  sp_name : str_wf (sh_name h);
  sp_epoch : 0 <= sh_epoch h < u32_lim
}.

Lemma accepts_matches keys values : Forall2 accepts keys values -> matches_schema keys values = true.
Proof.
  intros Hf. unfold matches_schema. apply andb_true_iff. split.
  - apply Z.eqb_eq. apply Forall2_length in Hf. unfold zlen. lia.
  - induction Hf as [|k v keys values Ha Hf IH]; [done|]. cbn [zip zip_with forallb]. apply andb_true_iff. split; [|done].
    unfold accepts in Ha. destruct (value_key_type v); [|done]. by apply bool_decide_eq_true.
Qed.

(** The records a segment of accepted rows gives a flush. *)
Fixpoint row_heads (id at_ : Z) (l : list (SeriesHandle * Row)) : list (GroupKey * Head) :=
  match l with
  | [] => []
  | (h, row) :: l' =>
      ((sh_name h, sh_epoch h), mkHead (row_ts row) (row_id row) (id, at_) (row_frame h row))
      :: row_heads id (at_ + zlen (row_frame h row)) l'
  end.

Lemma zlen_row_heads id at_ l : zlen (row_heads id at_ l) = zlen l.
Proof. revert at_. induction l as [|[h row] l IH]; intros at_; [done|]. cbn [row_heads]. by rewrite !zlen_cons, IH. Qed.

Lemma row_heads_elem id at_ l x : x ∈ l -> exists h, ((sh_name x.1, sh_epoch x.1), h) ∈ row_heads id at_ l.
Proof.
  revert at_. induction l as [|[h row] l IH]; intros at_; [set_solver|]. intros [->|Hx]%elem_of_cons; cbn [row_heads].
  - eexists. left.
  - destruct (IH (at_ + zlen (row_frame h row)) Hx) as [h' Hh]. exists h'. by right.
Qed.

Definition accepted_row (e : Inner) (x : SeriesHandle * Row) : Prop :=
  stamped x.1 /\ row_wf x.2 /\ exists now, admissible e x.1 now x.2.

Lemma accepted_frame e max x id at_ : accepted_row e x -> zlen (row_frame x.1 x.2) <= FRAME_HEADER_BYTES + max ->
  valid_frame max (row_frame x.1 x.2) /\
  frame_head m id max at_ (row_frame x.1 x.2)
  = Some ((sh_name x.1, sh_epoch x.1), mkHead (row_ts x.2) (row_id x.2) (id, at_) (row_frame x.1 x.2)).
Proof.
  destruct x as [h row]. cbn [fst snd]. intros ([Hs Hn He] & Hwf & now & [_ Hk Hfit _]) Hmax. cbn [fst snd] in *.
  assert (key_count m (sh_name h) (sh_epoch h) = Some (length (row_keys row))) as Hkc.
  { unfold key_count. rewrite Hs. cbn. f_equal. by apply Forall2_length in Hk. }
  assert (readable (key_count m) max (mkWritten (sh_name h) (sh_epoch h) row)) as Hr.
  { unfold readable; cbn [wr_series wr_epoch wr_row]. split_and!; first [done|lia|exact Hmax]. }
  destruct (readable_frame (key_count m) max _ at_ Hr) as [Hv Hi]. split; [done|].
  unfold frame_head, row_frame. rewrite Hi. cbn [wr_series wr_epoch wr_row decoded_of dec_record dec_keys frame_record rec_series rec_epoch rec_ts rec_id].
  rewrite Hs. change (default [] (Some (sh_keys h))) with (sh_keys h). by rewrite accepts_matches.
Qed.

Lemma accepted_heads e max l id at_ : Forall (accepted_row e) l ->
  Forall (fun x => zlen (row_frame x.1 x.2) <= FRAME_HEADER_BYTES + max) l ->
  Forall (valid_frame max) ((fun x => row_frame x.1 x.2) <$> l) /\
  frame_heads m id max at_ ((fun x => row_frame x.1 x.2) <$> l) = row_heads id at_ l.
Proof.
  intros Ha Hl. revert at_. induction l as [|x l IH]; intros at_; [split; [constructor|done]|].
  apply Forall_cons in Ha as [Hx Ha]. apply Forall_cons in Hl as [Hlx Hl]. specialize (IH Ha Hl).
  destruct (accepted_frame e max x id at_ Hx Hlx) as [Hv Hh]. rewrite fmap_cons. split.
  - constructor; [done|]. by apply (IH 0).
  - cbn [frame_heads]. rewrite Hh. destruct (IH (at_ + zlen (row_frame x.1 x.2))) as [_ ->]. by destruct x.
Qed.

(** A segment of accepted rows. *)
Lemma accepted_segment e id l tail :
  0 <= id < u64_lim -> record_limit e < u32_lim -> Forall (accepted_row e) l ->
  let buf := encode_segment_header [] id ++ concat ((fun x => row_frame x.1 x.2) <$> l) ++ tail in
  stuck (zlen buf) tail ->
  parse_segment_header buf = Ok id /\ records buf = (fun x => row_frame x.1 x.2) <$> l /\ torn buf = tail /\
  small_frames (records buf) /\ segment_heads m id buf = row_heads id SEGMENT_HEADER_BYTES l.
Proof.
  intros Hid Hlim Ha buf Hst.
  assert (parse_segment_header buf = Ok id) as Hh.
  { apply (parse_header_iff buf SEGMENT_HEADER_BYTES 8 id eq_refl). split; [done|]. by eexists. }
  assert (body buf = concat ((fun x => row_frame x.1 x.2) <$> l) ++ tail) as Hbody
    by (by apply (take_drop_frame (encode_segment_header [] id))).
  assert (Forall (fun x => zlen (row_frame x.1 x.2) <= FRAME_HEADER_BYTES + zlen buf /\ zlen (row_frame x.1 x.2) < u32_lim) l) as Hl.
  { rewrite Forall_forall in Ha |- *. intros x Hx. destruct (Ha x Hx) as (_ & _ & now & [_ _ _ Hs]).
    split; [|lia]. apply (list_elem_of_fmap_2 (fun x => row_frame x.1 x.2)) in Hx.
    pose proof (zlen_concat_elem _ _ Hx). unfold buf. rewrite !zlen_app. unfold FRAME_HEADER_BYTES.
    pose proof (zlen_nonneg (encode_segment_header [] id)). pose proof (zlen_nonneg tail). lia. }
  destruct (accepted_heads e (zlen buf) l id SEGMENT_HEADER_BYTES Ha) as [Hv Hheads]; [by eapply Forall_impl; [exact Hl|]; cbn; intros ? [? ?]|].
  assert (frames_of (zlen buf) (body buf) = ((fun x => row_frame x.1 x.2) <$> l, tail)) as Ef by (rewrite Hbody; by apply frames_of_app).
  assert (records buf = (fun x => row_frame x.1 x.2) <$> l /\ torn buf = tail) as [Er Et] by (unfold records, torn; by rewrite Ef).
  split_and!; [done|done|done| |unfold segment_heads; by rewrite Er].
  unfold small_frames. rewrite Er, Forall_fmap. eapply Forall_impl; [exact Hl|]. cbn. lia.
Qed.

(** No accepted row is lost at the flush. Take a segment whose log is made of rows
    that [append] admitted through handles whose epochs the manifest records, followed
    by at most a torn tail. Decoding it for a flush never fails: it rejects nothing but
    the tail, and adds to the batch every row, in order, under its series and epoch with
    its timestamp, id and unchanged frame. *)
Theorem accepted_rows_reach_flush e id l tail rejects batch :
  0 <= id < u64_lim -> short_names m -> batch_wf batch -> record_limit e < u32_lim ->
  Forall (accepted_row e) l ->
  let buf := encode_segment_header [] id ++ concat ((fun x => row_frame x.1 x.2) <$> l) ++ tail in
  stuck (zlen buf) tail ->
  returns (decode_segment id buf m rejects batch) (fun '(d, _, batch') =>
    content batch' = content batch ++ row_heads id SEGMENT_HEADER_BYTES l /\
    d_rows d = zlen l /\ d_rejected d = stuck_count tail /\ d_skipped d = zlen tail /\
    d_unreadable d = false /\
    Forall (fun x => d_schemas d !! (sh_name x.1, sh_epoch x.1) = Some (sh_keys x.1)) l).
Proof.
  intros Hid Hshort Hb Hlim Ha buf Hst.
  destruct (accepted_segment e id l tail Hid Hlim Ha Hst) as (Hh & Er & Et & Hsm & Eh). fold buf in Hh, Er, Et, Hsm, Eh.
  assert (good_header buf) as Hg by (by exists id).
  eapply returns_mono; [by apply (decode_segment_spec m id buf rejects batch Hshort Hg)|].
  intros [[d rj] batch'] [_ Hc Hr Hj Hs [Hca _] Hsch _ [Hu _]].
  assert (zlen (row_heads id SEGMENT_HEADER_BYTES l) = zlen l) as Elen by apply zlen_row_heads.
  rewrite Eh in *. rewrite Er, Et in *. cbn [decoded_default d_rows d_rejected d_skipped d_unreadable] in Hr, Hj, Hs, Hu.
  assert (zlen ((fun x : SeriesHandle * Row => row_frame x.1 x.2) <$> l) = zlen l) as Ez by (unfold zlen; by rewrite length_fmap).
  split_and!; [done|lia|lia|lia|done|].
  apply Forall_forall. intros x Hx. destruct (row_heads_elem id SEGMENT_HEADER_BYTES l x Hx) as (h & Hin).
  rewrite Forall_forall in Hsch. destruct (Hsch _ Hin) as [ks Hks]. cbn in Hks. rewrite Hks.
  pose proof (Hca _ _ Hks) as E. cbn in E. rewrite Forall_forall in Ha. destruct (Ha x Hx) as ([E' _ _] & _). congruence.
Qed.
End reach.

(** ** Instances *)

#[local] Existing Instance Crc32_ieee.

Definition sample_keys : list KeyDef :=
  [mkKey (lit "qty") KI64 false; mkKey (lit "region") KStr true; mkKey (lit "ok") KBool true].

Definition orders_handle : SeriesHandle := mkHandle (lit "orders") sample_keys 3.

Definition orders_manifest : Manifest := mkManifest {[lit "orders" := [mkEpoch 3 sample_keys]]} 4 None.

Definition sample_engine : Inner :=
  mkInner sample_config orders_manifest {[lit "orders" := orders_handle]}
    (mkWState (Some (mkActive 5 [] 14 14)) false 0 false 0 0 0 ∅) (mkDirLock 7) counters_default 0 1000.

Lemma orders_admissible : admissible sample_engine orders_handle 1700000000000 sample_row.
Proof.
  split; [vm_compute; split; congruence| |vm_compute; reflexivity|vm_compute; congruence].
  repeat constructor.
Qed.

(** A frame of a known series, one of an unknown series and two stray bytes. *)
Definition raw_batch : bytes :=
  row_frame orders_handle sample_row ++ row_frame (mkHandle (lit "other") [] 0) (mkRow 5 (lit "x") [] [] []) ++ [xff; xff].

Lemma append_raw_witness :
  exists fs rest, frames_of (record_limit sample_engine) raw_batch = (fs, rest) /\
    raw_total (mkRaw 0 0 0) (judged sample_engine (fun _ => 1700000000000) fs) rest = mkRaw 1 2 2 /\
    raw_batch = concat fs ++ rest /\
    forall w' s r, append_bytes (effective_config wal_default) (i_wal sample_engine)
      (concat (with_verdict Taken (judged sample_engine (fun _ => 1700000000000) fs))) 0 (mkWorld ∅ []) = (w', Ret (s, r)) ->
      exists e', append_raw sample_engine (fun _ => 1700000000000) 0 raw_batch (mkWorld ∅ [])
        = (w', Ret (e', match r with Ok _ => Ok (mkRaw 1 2 2) | Err err => Err err end)).
Proof.
  set (fs := [row_frame orders_handle sample_row; row_frame (mkHandle (lit "other") [] 0) (mkRow 5 (lit "x") [] [] [])]).
  assert (frames_of (record_limit sample_engine) raw_batch = (fs, [xff; xff])) as Hfs by (vm_compute; reflexivity).
  exists fs, [xff; xff]. split; [exact Hfs|]. split; [vm_compute; reflexivity|].
  destruct (append_raw_exact sample_engine (fun _ => 1700000000000) 0 raw_batch (mkWorld ∅ []) fs [xff; xff] Hfs)
    as (H1 & _ & H3). split; [exact H1|]. intros w' s r Er.
  destruct (H3 ltac:(vm_compute; discriminate) w' s r Er) as (e' & He & _). exists e'. exact He.
Defined.

Lemma accepted_rows_witness :
  returns (decode_segment 5 (encode_segment_header [] 5 ++ row_frame orders_handle sample_row ++ [xff])
      orders_manifest (mkRejects 0 None) batch_default)
    (fun '(d, _, batch') => content batch' = row_heads 5 SEGMENT_HEADER_BYTES [(orders_handle, sample_row)] /\
      d_rows d = 1 /\ d_rejected d = 1 /\ d_skipped d = 1).
Proof.
  pose proof (accepted_rows_reach_flush orders_manifest sample_engine 5 [(orders_handle, sample_row)] [xff]
    (mkRejects 0 None) batch_default) as H.
  cbn [fmap list_fmap concat fst snd] in H. rewrite app_nil_r in H.
  eapply returns_mono; [apply H|].
  - split; [discriminate|reflexivity].
  - intros name [h Hh]. cbn in Hh. apply lookup_singleton_Some in Hh as [<- _]. vm_compute. reflexivity.
  - split; constructor.
  - vm_compute. reflexivity.
  - constructor; [|constructor]. split; [|split; [exact sample_row_wf|exists 1700000000000; exact orders_admissible]].
    split; [vm_compute; reflexivity|vm_compute; reflexivity|split; [discriminate|reflexivity]].
  - right. eexists. vm_compute. reflexivity.
  - intros [[d rj] batch'] (H1 & H2 & H3 & H4 & _). exact (conj H1 (conj H2 (conj H3 H4))).
Defined.
