(* ===== verification/EngineOpen.v ===== *)
(** * EngineOpen: starting the engine

    [open_with] composes the lock, the manifest, the sweep, the recovery of the log and
    the writer. Its result is ready to append, and no step of it, failing or stopped,
    loses a record. *)

From Stdlib Require Import ZArith Lia.
From Stdlib Require Import Strings.Byte.
From S2P Require Import Prelude Text Record Codec CodecProofs CodecTheorems Disk Wal Reader Recovery Lock Merge Time Config Manifest Columns Planner Local FlushLocal Sweep SweepCrash Writer WriterProofs WriterSteps WriterWedge ColumnsTheorems FlushTheorems Engine EngineProofs EngineTheorems.
Open Scope Z_scope.

(** ** Typed manifests *)

Definition config_typed (c : Config) : Prop :=
  Forall (fun s => str_wf (sc_name s) /\ Forall key_typed (sc_keys s)) (cfg_series c).

Lemma set_history_typed m name h : manifest_typed m -> str_wf name -> Forall epoch_typed h ->
  manifest_typed (set_history m name h).
Proof.
  intros [Hs Hl Ha] Hn Hh. split; [|done|done]. intros name' h'. cbn. destruct (decide (name = name')) as [->|Hne].
  - rewrite lookup_insert_eq. by intros [= <-].
  - rewrite lookup_insert_ne by done. apply Hs.
Qed.

Lemma history_of_typed m name : manifest_typed m -> Forall epoch_typed (history_of m name).
Proof.
  intros [Hs _ _]. unfold history_of. destruct (m_series m !! name) as [h|] eqn:E; [|constructor].
  by destruct (Hs name h E).
Qed.

Lemma reconcile_history_typed h keys h' c : Forall epoch_typed h -> Forall key_typed keys ->
  reconcile_history h keys = Ok (h', c) -> Forall epoch_typed h'.
Proof.
  intros Hh Hk. unfold reconcile_history. destruct (last h) as [e|] eqn:El.
  - assert (epoch_typed e) as [He _] by (rewrite Forall_forall in Hh; apply Hh; by apply last_Some_elem_of).
    destruct (same_layout _ _).
    + destruct (decide _); intros [= <- <-]; [done|]. apply Forall_app. split; [|by apply Forall_singleton].
      apply last_split in El. rewrite El in Hh. by apply Forall_app in Hh as [? _].
    + destruct (Z.ltb_spec (es_epoch e + 1) u32_lim); [|done]. intros [= <- <-]. apply Forall_app. split; [done|].
      apply Forall_singleton. split; cbn; [lia|done].
  - intros [= <- <-]. apply Forall_app. split; [done|]. apply Forall_singleton. by split.
Qed.

Lemma reconcile_all_typed m changed series m' b :
  Forall (fun s => str_wf (sc_name s) /\ Forall key_typed (sc_keys s)) series -> manifest_typed m ->
  reconcile_all m changed series = (m', Ok b) -> manifest_typed m'.
Proof.
  revert m changed. induction series as [|s series IH]; intros m changed Hs Hm; cbn [reconcile_all].
  { by intros [= <- <-]. }
  apply Forall_cons in Hs as [[Hn Hk] Hs].
  assert (manifest_typed (set_history m (sc_name s) (history_of m (sc_name s)))) as Hm1.
  { apply set_history_typed; [done|done|]. by apply history_of_typed. }
  destruct (reconcile_history _ _) as [[h c]|] eqn:E; [|done]. apply IH; [done|].
  apply set_history_typed; [done|done|]. eapply reconcile_history_typed; [|done|exact E]. by apply history_of_typed.
Qed.

Lemma reconcile_typed m c m' b : config_typed c -> manifest_typed m -> reconcile m c = (m', Ok b) -> manifest_typed m'.
Proof. unfold reconcile. intros Hc Hm. destruct (check_all _ _); [|done]. by apply reconcile_all_typed. Qed.

Definition config_ok (c : Config) : Prop :=
  config_typed c /\ NoDup (sc_name <$> cfg_series c) /\ Forall (fun s => NoDup (key_name <$> sc_keys s)) (cfg_series c).

Lemma reconcile_spec m c m' b : manifest_wf m -> config_ok c -> reconcile m c = (m', Ok b) ->
  reconciled m (cfg_series c) m' b.
Proof.
  intros Hm (_ & Hnd & Hk). unfold reconcile. pose proof (check_all_spec m (cfg_series c)) as Hall.
  destruct (check_all m (cfg_series c)) as [[]|]; [|done]. intros E.
  pose proof (reconcile_all_spec m false (cfg_series c) Hnd) as Hs. rewrite E in Hs. apply Hs.
  intros s Hin. rewrite Forall_forall in Hk. split_and!; [by apply history_wf_of|by apply Hk|by apply Hall].
Qed.

Section open.
Context `{Crc32} `{Parquet} `{ManifestJson} `{Lowercase}.

(** ** The manifest *)

Lemma loads_inj fs m m' : loads fs m -> loads fs m' -> m = m'.
Proof. unfold loads. destruct (fs !! manifest_path); [intros [_ E1] [_ E2]; congruence|congruence]. Qed.

Lemma triple_load fs0 : triple (fun fs => fs = fs0) manifest_load (keeps (eq manifest_tmp) fs0)
  (fun m fs => loads fs0 m /\ keeps (eq manifest_tmp) fs0 fs).
Proof.
  unfold manifest_load. eapply (triple_bind _ _ (fun _ => keeps (eq manifest_tmp) fs0)).
  { eapply triple_conseq; [apply (triple_local (eq manifest_tmp) (keeps (eq manifest_tmp) fs0))| |].
    - by apply local_remove.
    - done.
    - intros fs fs' Hk Hf. by eapply keeps_trans.
    - intros fs ->. apply keeps_refl.
    - done. }
  intros r. eapply (triple_bind _ _ (fun _ => keeps (eq manifest_tmp) fs0)).
  { destruct r as [[]|[| | |]]; by (apply triple_ret || apply triple_throw). }
  intros []. eapply (triple_bind _ _ (fun t fs => keeps (eq manifest_tmp) fs0 fs /\
    match t with Ok c => fs0 !! manifest_path = Some c | Err NotFound => fs0 !! manifest_path = None | _ => True end)).
  { apply triple_whole; [apply _|done| |done]. cbn [effect]. intros fs Hk. assert (fs !! manifest_path = fs0 !! manifest_path) as E by (by apply Hk).
    rewrite E. destruct (fs0 !! manifest_path); done. }
  intros [text|[| | |]]; cbn; try (apply triple_throw; by intros fs [? _]).
  - destruct (utf8_valid text) eqn:Eu; [|apply triple_throw; by intros fs [? _]].
    destruct (from_str text) as [m|] eqn:Ef; [|apply triple_throw; by intros fs [? _]].
    apply triple_ret; [by intros fs [? _]|]. intros fs [Hk Ht]. split; [|done]. unfold loads. by rewrite Ht.
  - apply triple_ret; [by intros fs [? _]|]. intros fs [Hk Ht]. split; [|done]. unfold loads. by rewrite Ht.
Qed.

Lemma local_staged_files D : local D staged_files.
Proof. eapply local_to_local, local_to_staged_files. Qed.
Lemma local_output_files D : local D output_files.
Proof. eapply local_to_local, local_to_output_files. Qed.

Lemma local_require D : local D require_manifest_for_output.
Proof.
  unfold require_manifest_for_output. apply local_bind; [apply local_output_files|]. intros outputs.
  apply local_bind; [apply local_staged_files|]. intros staged. cbv zeta.
  destruct (_ ++ _); [apply local_ret|apply local_throw].
Qed.

(** The files outside the manifest are as they were, and it reads as [m0] or [m1]. *)
Definition started (m0 m1 : Manifest) (fs0 fs : Files) : Prop :=
  same_but_manifest fs0 fs /\ (loads fs m0 \/ loads fs m1).

Lemma keeps_tmp_started m0 m1 fs0 fs : loads fs0 m0 -> keeps (eq manifest_tmp) fs0 fs -> started m0 m1 fs0 fs.
Proof.
  intros Hl Hk. split; [intros p _ Hp; apply Hk; congruence|]. left. eapply loads_same; [by apply Hk|done].
Qed.

Lemma triple_open_manifest c m0 fs0 : config_ok c -> manifest_wf m0 -> manifest_typed m0 -> loads fs0 m0 ->
  triple (fun fs => fs = fs0) (open_manifest c) (started m0 (reconcile m0 c).1 fs0)
    (fun m fs => m = (reconcile m0 c).1 /\ (exists b, (reconcile m0 c).2 = Ok b) /\
      same_but_manifest fs0 fs /\ loads fs m).
Proof.
  intros Hc Hwf Hm Hl. unfold open_manifest.
  assert (started m0 (reconcile m0 c).1 fs0 fs0) as Hst0 by (apply keeps_tmp_started; [done|apply keeps_refl]).
  assert (forall (A : Type) (m : io A), local (fun _ => False) m ->
    triple (fun fs => fs = fs0) m (started m0 (reconcile m0 c).1 fs0) (fun _ fs => fs = fs0)) as Hread.
  { intros A m Hm'. eapply triple_local; [exact Hm'|by intros fs ->|]. intros fs fs' Hk ->. by apply keeps_none. }
  eapply triple_bind; [apply Hread; unfold manifest_exists; apply local_bind; [apply local_file_len|intros; apply local_ret]|].
  intros found. eapply (triple_bind _ _ (fun _ fs => fs = fs0)); [apply Hread; destruct found; [apply local_ret|apply local_require]|].
  intros []. eapply triple_bind.
  { eapply triple_crash; [apply triple_load|]. intros fs Hk. by apply keeps_tmp_started. }
  intros m. cbv beta. intros w [Hlm Hk]. assert (m = m0) as -> by (by eapply loads_inj).
  destruct (reconcile m0 c) as [m1 [b|err]] eqn:Er.
  2:{ cbn. split; [by apply keeps_tmp_started|done]. }
  cbn [fst snd]. unfold lift. assert (manifest_typed m1) as Hm1 by (eapply reconcile_typed; [apply Hc|done|done]).
  assert (same_but_manifest fs0 (files w)) as Hs0 by (intros p _ Hp; apply Hk; congruence).
  assert (loads (files w) m0) as Hl0 by (eapply loads_same; [by apply Hk|done]).
  rewrite exec_bind, exec_ret. destruct b.
  - destruct (triple_commit m1 m0 (files w) Hm1 w (conj eq_refl Hl0)) as [[Hs Hcr] Hq].
    assert (forall fs, same_but_manifest (files w) fs -> same_but_manifest fs0 fs) as Htr.
    { intros fs Hfs p Hp Hp'. rewrite Hfs, Hs0 by done. done. }
    rewrite exec_bind. destruct (commit m1 w) as [w' [[]| |]]; cbn in *;
      (split; [split; [by apply Htr|done]|]); try done. destruct Hq as [Hs' Hl1]. split_and!; [done|by eexists|by apply Htr|done].
  - cbn. assert (m1 = m0) as -> by (by eapply re_same; [eapply reconcile_spec|]).
    split; [by apply keeps_tmp_started|]. split_and!; [done|by eexists|done|done].
Qed.

(** ** The log *)

Lemma swept_outside lf fs0 fs p : same_sweep lf fs0 fs ->
  (exists id, p = segment_path id) \/ p = manifest_path -> fs !! p = fs0 !! p.
Proof. intros Hs Hp. specialize (Hs p). by destruct Hp as [[id ->] | ->]. Qed.

(** The log above the floor, and the manifest. *)
Definition log_kept (lf : Z) (m : Manifest) (fs0 fs : Files) : Prop := kept lf fs0 fs /\ loads fs m.
Definition log_same (lf : Z) (m : Manifest) (fs0 fs : Files) : Prop := untouched lf fs0 fs /\ loads fs m.

Lemma sweep_log lf m fs0 w : log_same lf m fs0 (files w) ->
  log_same lf m fs0 (files (sweep_uncommitted lf w).1).
Proof.
  intros [Hu Hl]. destruct (triple_sweep lf (files w) w ltac:(by intros p)) as [Hs _]. split.
  - intros id Hid Hid0. rewrite (swept_outside _ _ _ _ Hs) by (left; by eexists). by apply Hu.
  - eapply loads_same; [|exact Hl]. apply (swept_outside _ _ _ _ Hs). by right.
Qed.

Lemma local_quarantine_segment id : local (in_top WAL_DIR) (quarantine_segment id).
Proof.
  unfold quarantine_segment. cbv zeta. apply local_bind; [by apply local_rename|]. intros [|]; [|apply local_ret].
  apply local_bind; [apply local_idle, _|]. intros [|]; apply local_ret.
Qed.

Lemma local_scan_tail id : local (in_top WAL_DIR) (scan_tail (segment_path id)).
Proof.
  unfold scan_tail. apply local_bind; [apply local_try, local_read_file|]. intros c. cbv zeta.
  destruct (parse_segment_header c) as [i|[n g|why]]; [|apply local_ret..].
  destruct (scan_frames _ _ _ _ _) as [[at_ n] stopped]. cbv zeta.
  apply local_bind; [|intros; apply local_ret]. destruct (_ <? _); [|apply local_ret].
  apply local_bind; [|intros; apply local_try, local_idle, _]. apply local_try, local_whole; [apply _|by intros ? ->|]. intros fs. cbn.
  destruct (fs !! segment_path id); [by apply keeps_insert|apply keeps_refl].
Qed.

Lemma local_list_segments D : local D list_segments.
Proof.
  unfold list_segments. apply local_bind; [apply local_read_dir|].
  intros [|[| | |]]; (apply local_ret || apply local_throw).
Qed.

Lemma local_recover lf : local (in_top WAL_DIR) (recover lf).
Proof.
  unfold recover. do 2 (apply local_bind; [apply local_try, local_idle, _|intros []]).
  apply local_bind.
  { apply local_list_segments. }
  intros ids. cbv zeta. apply local_bind.
  { apply local_each. intros id _. unfold delete_flushed. apply local_bind; [by apply local_remove|].
    intros [|[| | |]]; (apply local_ret || apply local_throw). }
  intros []. apply local_bind; [destruct (decide _); [apply local_ret|apply local_try, local_idle, _]|]. intros [].
  unfold amend_tail. destruct (last _) as [tail|]; [|apply local_ret].
  apply local_bind; [apply local_scan_tail|]. intros [n d| |why]; [apply local_ret| |].
  - apply local_bind; [apply local_file_len|]. intros r. apply local_bind; [by apply local_try, local_remove|]. intros [].
    apply local_bind; [apply local_try, local_idle, _|]. intros []. apply local_ret.
  - destruct (negb _); [|apply local_throw]. apply local_bind; [|intros; apply local_ret].
    apply local_try, local_quarantine_segment.
Qed.

Lemma recover_log lf m fs0 w : 0 <= lf -> log_same lf m fs0 (files w) ->
  log_kept lf m fs0 (files (recover lf w).1).
Proof.
  intros Hlf [Hu Hl]. destruct (triple_recover lf (files w) Hlf w eq_refl) as [Hk _]. split.
  - intros id c Hid Hid0 Hc Hg. apply Hk; [done|done| |done]. by rewrite Hu.
  - eapply loads_same; [|exact Hl]. by apply (local_keeps _ _ _ (local_recover _)).
Qed.

Lemma writer_log lf m fs0 first w : log_kept lf m fs0 (files w) ->
  log_kept lf m fs0 (files (writer_open first w).1).
Proof.
  intros [Hk Hl]. assert (forall p, p = manifest_path \/ is_Some (files w !! p) ->
    files (writer_open first w).1 !! p = files w !! p) as Hsame.
  { unfold writer_open. rewrite exec_bind. pose proof (files_try_idle (CreateDirAll wal_dir) w) as Ha.
    destruct (try (create_dir_all wal_dir) w) as [w1 [[]| |]] eqn:E1; unfold create_dir_all in E1; rewrite E1 in Ha; cbn [fst] in Ha;
      [|by intros p _; cbn; rewrite Ha..].
    rewrite exec_bind. pose proof (files_try_idle (FsyncDir []) w1) as Hb.
    destruct (try (fsync_dir []) w1) as [w2 [[]| |]] eqn:E2; unfold fsync_dir in E2; rewrite E2 in Hb; cbn [fst] in Hb;
      [|by intros p _; cbn; rewrite Hb, Ha..].
    assert (files w2 = files w) as E by congruence. rewrite exec_bind. intros p Hp.
    assert (files (create_segment first w2).1 !! p = files w !! p) as Hc.
    { rewrite <-E. destruct (decide (p = segment_path first)) as [->|Hne].
      - destruct Hp as [|Hp]; [done|]. rewrite <-E in Hp. by destruct (create_taken first w2 Hp) as [-> _].
      - apply (local_keeps _ _ _ (local_create_segment first)). congruence. }
    by destruct (create_segment first w2) as [w3 [r| |]]. }
  split.
  - intros id c Hid Hid0 Hc Hg. destruct (Hk id c Hid Hid0 Hc Hg) as [E|E]; [left|right]; rewrite Hsame by (right; by eexists); done.
  - eapply loads_same; [|exact Hl]. apply Hsame. by left.
Qed.

Lemma recover_next lf : local_to (fun _ => True) (fun rec => 0 <= rc_next rec) (recover lf).
Proof.
  assert (forall (A : Type) (m : io A), local_to (fun _ => True) (fun _ => True) m) as Hany by (intros A m; apply local_to_any; [done|]; intros w; split; [intros p Hp; by destruct Hp|intros u p Hp; by right]).
  unfold recover. do 2 (apply (local_to_bind _ (fun _ => True)); [apply Hany|intros [] _]).
  apply (local_to_bind _ (fun _ => True)); [apply Hany|]. intros ids _. cbv zeta.
  do 2 (apply (local_to_bind _ (fun _ => True)); [apply Hany|intros [] _]).
  set (out := mkRecovery _ _ _ _ _ _ _). assert (0 <= rc_next out) as Hn by (apply Z.mod_pos_bound; done). clearbody out.
  unfold amend_tail. destruct (last _) as [tail|]; [|apply local_to_ret; exact Hn].
  apply (local_to_bind _ (fun _ => True)); [apply Hany|]. intros [n d| |why] _; [apply local_to_ret; exact Hn| |].
  - apply (local_to_bind _ (fun _ => True)); [apply Hany|]. intros r _.
    do 2 (apply (local_to_bind _ (fun _ => True)); [apply Hany|intros [] _]). apply local_to_ret; exact Hn.
  - destruct (negb _); [|apply local_to_throw].
    apply (local_to_bind _ (fun _ => True)); [apply Hany|]. intros p _. apply local_to_ret; exact Hn.
Qed.

(** ** The handles *)

Lemma make_handles_spec m series handles :
  NoDup (sc_name <$> series) -> Forall (fun s => name_ok (sc_name s)) series ->
  exists hs, make_handles m series handles = Ok hs /\
    (forall s, s ∈ series ->
       hs !! sc_name s = Some (mkHandle (sc_name s) (sc_keys s) (default 0 (current_epoch m (sc_name s))))) /\
    (forall name, name ∉ sc_name <$> series -> hs !! name = handles !! name).
Proof.
  revert handles. induction series as [|s series IH]; intros handles Hnd Hn; cbn [make_handles].
  { exists handles. split_and!; [done|set_solver|done]. }
  cbn in Hnd. apply NoDup_cons in Hnd as [Hx Hnd]. apply Forall_cons in Hn as [Hn Hns].
  unfold handle_new. rewrite (proj2 (check_series_name_Ok (sc_name s)) Hn). cbn [mbind result_bind].
  set (h := mkHandle _ _ _). destruct (IH (<[sc_name s := h]> handles) Hnd Hns) as (hs & E & Hin & Hout).
  exists hs. split_and!; [exact E| |].
  - intros s' [->|Hs']%elem_of_cons; [|by apply Hin]. rewrite Hout by done. apply lookup_insert_eq.
  - intros name Hname. cbn in Hname. apply not_elem_of_cons in Hname as [H1' H2']. rewrite Hout by done.
    by rewrite lookup_insert_ne.
Qed.

Lemma current_epoch_typed m name epoch : manifest_typed m -> current_epoch m name = Some epoch -> 0 <= epoch < u32_lim.
Proof.
  intros [Hs _ _]. unfold current_epoch. destruct (m_series m !! name) as [h|] eqn:E; [|done]. cbn.
  destruct (last h) as [e|] eqn:El; [|done]. cbn. intros [= <-].
  destruct (Hs name h E) as [_ Hh]. rewrite Forall_forall in Hh. apply last_Some_elem_of in El. by destruct (Hh e El).
Qed.

(** What an opened engine is ready for. *)
Record ready (c : Config) (pid : Z) (m0 : Manifest) (e : Inner) (w : World) : Prop := {
  rd_config : i_config e = c;
  rd_manifest : i_manifest e = (reconcile m0 c).1 /\ loads (files w) (i_manifest e);
  rd_handles : forall s, s ∈ cfg_series c -> exists h, i_handles e !! sc_name s = Some h /\
    sh_name h = sc_name s /\ sh_keys h = sc_keys s /\ stamped (i_manifest e) h;
  rd_only : forall name, is_Some (i_handles e !! name) -> name ∈ sc_name <$> cfg_series c;
  rd_window : ts_min_us (cfg_limits c) = Ok (i_ts_min e);
  rd_log : reachable (effective_config (cfg_wal c)) (Some lock_path) pid (active_segment (i_wal e))
    (mkSys (i_wal e) Waiting false) [] w
}.

Lemma open_engine c lock wnow m0 m rec s w w1 w' :
  config_ok c -> Forall (fun s => name_ok (sc_name s)) (cfg_series c) -> manifest_wf m0 -> manifest_typed m0 ->
  is_ok (ts_min_us (cfg_limits c)) = true -> 0 <= rc_next rec ->
  m = (reconcile m0 c).1 -> (exists b, (reconcile m0 c).2 = Ok b) -> loads (files w') m ->
  writer_open (rc_next rec) w1 = (w', Ret s) -> w = w' ->
  exists e pending, on_error (handles ← lift (make_handles m (cfg_series c) ∅);
    ts_min ← lift (ts_min_us (cfg_limits c));
    mret (mkInner c m handles s lock counters_default ts_min (sat_mul (ts_max_skew_ms (cfg_limits c)) 1000),
          match rc_pending rec with [] => false | _ => true end)) (ignore (close_active (set_stop s) wnow)) w
    = (w, Ret (e, pending)) /\ ready c (lock_pid lock) m0 e w'.
Proof.
  intros Hc Hn Hwf Hty Hts Hnext Em [b Eb] Hl Ew ->.
  destruct (reconcile m0 c) as [m1 r] eqn:Er. cbn in Em, Eb. subst m1 r.
  pose proof (reconcile_spec _ _ _ _ Hwf Hc Er) as Hrec.
  assert (manifest_typed m) as Hm by (eapply reconcile_typed; [apply Hc|done|done]).
  destruct (make_handles_spec m (cfg_series c) ∅ (proj1 (proj2 Hc)) Hn) as (hs & Eh & Hin & Hout).
  rewrite Eh. destruct (ts_min_us (cfg_limits c)) as [ts|] eqn:Ets; [|done].
  eexists _, _. split; [done|]. split; cbn; [done|by rewrite Er| | |done|].
  - intros sc Hs. eexists. split; [by apply Hin|]. split; [done|]. split; [done|].
    destruct (reconciled_current _ _ _ _ _ Hwf Hrec Hs) as (epoch & Ee & Esch). rewrite Ee.
    split; cbn; [done| |by eapply current_epoch_typed]. destruct Hc as [Hct _].
    unfold config_typed in Hct. rewrite Forall_forall in Hct. by apply Hct.
  - intros name Hsome. destruct (decide (name ∈ sc_name <$> cfg_series c)) as [|Hni]; [done|].
    rewrite (Hout name Hni), lookup_empty in Hsome. by apply is_Some_None in Hsome.
  - pose proof (open_invariant (rc_next rec) w1 w' s Hnext Ew) as Hinv.
    assert (active_segment s = rc_next rec) as ->.
    { unfold writer_open in Ew. rewrite exec_bind in Ew. destruct (try (create_dir_all wal_dir) w1) as [? [[]| |]]; try done.
      rewrite exec_bind in Ew. destruct (try _ _) as [wb [[]| |]]; try done.
      destruct (create_segment_result (rc_next rec) (files wb) wb eq_refl) as [_ Hq].
      rewrite exec_bind in Ew. destruct (create_segment (rc_next rec) wb) as [? [x| |]]; try done. cbn in Hq. destruct Hq as (_ & _ & ->).
      injection Ew as _ <-. done. }
    by eapply reach_open.
Qed.

(** C9: Starting the engine ([open_with] behind the lock) is safe and its result is
    ready. For every sequence of I/O errors and every stop: each log segment above the
    flushed watermark that has a good header stays, whole or cut after its last good
    frame, and the manifest on disk is the old one or the reconciled one. When the
    engine is returned, the reconciled manifest is the one on disk; there is a handle
    for exactly each configured series, with the configured keys and an epoch under
    which that manifest records those keys; the accept window starts at the configured
    time; and the writer is in its initial state on a segment file that did not exist. *)
Theorem open_safe_and_ready c lock wnow m0 w :
  validate c = Ok tt -> config_typed c -> manifest_wf m0 -> manifest_typed m0 -> loads (files w) m0 ->
  let '(w', r) := open_inner c lock wnow w in
  kept (last_flushed_segment m0) (files w) (files w') /\
  (loads (files w') m0 \/ loads (files w') (reconcile m0 c).1) /\
  match r with
  | Ret (e, _) => ready c (lock_pid lock) m0 e w'
  | _ => True
  end.
Proof.
  intros Hv Hct Hwf Hty Hl. apply validate_parts in Hv as (Hts & _ & [Hnames Hnd _ Hkeys]).
  assert (config_ok c) as Hc.
  { split_and!; [done|done|]. eapply Forall_impl; [exact Hkeys|]. by intros s [? _]. }
  set (lf := last_flushed_segment m0). pose proof (mt_last _ Hty) as Hlf. fold lf in Hlf.
  assert (forall fs, same_but_manifest (files w) fs -> untouched lf (files w) fs) as Hun.
  { intros fs Hs id _ _. by apply Hs. }
  unfold open_inner. destruct (triple_open_manifest c m0 (files w) Hc Hwf Hty Hl w eq_refl) as [[Hs1 Hl1] Hq1].
  rewrite exec_bind. destruct (open_manifest c w) as [w1 [m| |]]; cbn [fst snd] in *;
    [|split_and!; [by apply untouched_kept, Hun|done|done]..].
  destruct Hq1 as (-> & Hok & _ & Hl1'). set (m := (reconcile m0 c).1) in *.
  assert (last_flushed_segment m = lf) as El.
  { unfold m. destruct Hok as [b Hb]. destruct (reconcile m0 c) as [m1 r] eqn:Er. cbn in Hb. subst r.
    by destruct (reconcile_spec _ _ _ _ Hwf Hc Er) as [_ _ [? _] _]. }
  rewrite El. assert (log_same lf m (files w) (files w1)) as Hlog1 by (split; [by apply Hun|done]).
  pose proof (sweep_log lf m (files w) w1 Hlog1) as Hlog2. rewrite exec_bind.
  destruct (sweep_uncommitted lf w1) as [w2 [[]| |]]; cbn [fst] in Hlog2;
    [|destruct Hlog2; split_and!; [by apply untouched_kept|by right|done]..].
  pose proof (recover_log lf m (files w) w2 ltac:(lia) Hlog2) as Hlog3. rewrite exec_bind.
  pose proof (proj2 (recover_next lf) w2) as Hnext.
  destruct (recover lf w2) as [w3 [rec| |]]; cbn [fst snd] in *;
    [|destruct Hlog3; split_and!; [done|by right|done]..].
  pose proof (writer_log lf m (files w) (rc_next rec) w3 Hlog3) as Hlog4. rewrite exec_bind.
  destruct (writer_open (rc_next rec) w3) as [w4 [s| |]] eqn:Ew; cbn [fst] in *;
    [|destruct Hlog4; split_and!; [done|by right|done]..].
  destruct Hlog4 as [Hk4 Hl4].
  destruct (open_engine c lock wnow m0 m rec s w4 w3 w4 Hc Hnames Hwf Hty Hts Hnext eq_refl Hok Hl4 Ew eq_refl)
    as (e & pending & E & Hr).
  rewrite E. split_and!; [done|by right|done].
Qed.
End open.

(** ** Instances *)

#[local] Existing Instance Crc32_ieee.
#[local] Existing Instance count_parquet.
#[local] Existing Instance NumberJson.
#[local] Existing Instance ascii_lower.

(** A start on a log with one pending segment, stopped by nothing. *)
Lemma open_witness :
  let '(w', r) := open_inner sample_config (mkDirLock 9) 0 (mkWorld flush_files []) in
  kept 4 flush_files (files w') /\
  match r with
  | Ret (e, _) => ready sample_config 9 flush_manifest e w'
  | _ => True
  end.
Proof.
  pose proof (open_safe_and_ready sample_config (mkDirLock 9) 0 flush_manifest (mkWorld flush_files [])) as H.
  destruct (open_inner sample_config (mkDirLock 9) 0 (mkWorld flush_files [])) as [w' r].
  destruct H as (H1 & _ & H3).
  - vm_compute. reflexivity.
  - repeat constructor.
  - intros name h Hl. cbn in Hl. apply lookup_singleton_Some in Hl as [_ <-]. split; [repeat constructor|].
    intros e e' k k' He%list_elem_of_singleton He'%list_elem_of_singleton. subst e e'.
    change (es_keys (mkEpoch 3 sample_defs)) with sample_defs. unfold sample_defs. intros Hk Hk' E.
    rewrite !elem_of_cons in Hk. rewrite !elem_of_cons in Hk'.
    destruct Hk as [->|[->|[->|Hk]]]; [..|by apply not_elem_of_nil in Hk];
      (destruct Hk' as [->|[->|[->|Hk']]]; [..|by apply not_elem_of_nil in Hk']); done.
  - exact flush_manifest_typed.
  - exact flush_files_load.
  - exact (conj H1 H3).
Defined.
