(* ===== verification/EngineFlush.v ===== *)
(** * EngineFlush: which segments a flush consumes *)

From Stdlib Require Import ZArith Lia.
From Stdlib Require Import Strings.Byte.
From S2P Require Import Prelude Text Record Codec CodecProofs Disk Wal Lock Config Manifest Columns Planner Local SweepCrash Sweep Writer WriterProofs WriterSteps WriterTheorems ColumnsTheorems Engine EngineProofs EngineOpen.
Open Scope Z_scope.

Section flush.
Context `{Crc32} `{Parquet} `{ManifestJson}.
Context (cfg : WalConfig) (lock : option path) (pid : Z).
Context (Hlock : forall p id, lock = Some p -> p <> segment_path id).

(** After a seal that succeeded the active segment has no records. *)
Lemma seal_empties first hist y w wnow w1 s r : winv first hist y (files w) ->
  seal (y_state y) wnow w = (w1, Ret (s, Ok r)) ->
  exists a, s_open s = Some a /\ open_ok first hist s a (files w1) /\ acked hist (a_id a) = [].
Proof.
  intros Hinv E.
  destruct (step_invariant cfg lock pid first hist y (files w) wnow SealE Hlock Hinv w eq_refl) as [_ Hq].
  cbn [wstep] in Hq. unfold mbind, io_bind in Hq. cbn [exec] in Hq. rewrite E in Hq. cbn in Hq. rewrite app_nil_r in Hq.
  assert (exists a, s_open s = Some a /\ a_bytes a = SEGMENT_HEADER_BYTES) as (a & Ha & Hb).
  { unfold seal in E. destruct (s_open (y_state y)) as [a|] eqn:Ea; [|done].
    destruct (Z.eqb_spec (a_bytes a) SEGMENT_HEADER_BYTES) as [Eb|_]; [injection E as _ <- <-; by exists a|].
    unfold roll_now, roll in E. rewrite Ea, !exec_bind in E.
    destruct (sync_in_lock _ _ _ _) as [w2 [[[s2 a2] [[]|]]| |]]; try done. rewrite exec_bind, exec_attempt in E.
    destruct (create_segment_result (a_id a2 + 1) (files w2) w2 eq_refl) as [_ Hc].
    destruct (create_segment (a_id a2 + 1) w2) as [w3 [x| |]]; try done. cbn in Hc. destruct Hc as (_ & _ & ->).
    injection E as _ <- _. cbn. by eexists. }
  exists a. split; [done|]. unfold winv in Hq. cbn in Hq. rewrite Ha in Hq. destruct Hq as [Hok _]. split; [done|].
  destruct Hok as [_ _ _ _ (c & tail & [_ _ _ Hbytes _ _])]. apply zlen_zero. lia.
Qed.

Lemma acked_nil hist id c : acked hist id = [] -> (id, c) ∈ hist -> c = [].
Proof.
  intros Hn Hin. unfold acked in Hn.
  assert (c ∈ snd <$> filter (fun x : Z * bytes => x.1 = id) hist) as Hc.
  { apply list_elem_of_fmap. exists (id, c). split; [done|]. by apply list_elem_of_filter. }
  revert Hn Hc. generalize (snd <$> filter (fun x : Z * bytes => x.1 = id) hist). intros l.
  induction l as [|x l IH]; cbn; [set_solver|]. intros [-> Hl]%app_eq_nil [->|Hc]%elem_of_cons; auto.
Qed.

(** The listing that a flush works from. *)
Lemma flush_select_ids e w w' ids : flush_select e w = (w', Ret ids) ->
  ids = consumable (segments_of (files w)) (active_segment (i_wal e)) (last_flushed_segment (i_manifest e)).
Proof.
  unfold flush_select. pose proof (triple_list_segments (fun fs => fs = files w) (fun _ => True) (fun _ _ => I) w eq_refl) as [_ Hq].
  unfold mbind, io_bind. cbn [exec]. destruct (list_segments w) as [w1 [pending| |]]; [|done|done]. cbn in Hq. destruct Hq as [Hf ->].
  rewrite Hf. destruct (0 <? _); [|by intros [= _ <-]].
  destruct (sweep_uncommitted _ w1) as [w2 [[]| |]]; [|done|done]. by intros [= _ <-].
Qed.

(** C30: A flush takes everything. From any state of the log whose segments above the
    flushed watermark are intact, with the committer anywhere in its loop: when the seal
    succeeds and the segments are listed, the segments handed to the flush job are
    exactly those on disk above the watermark and below the new active segment, and
    they include the segment of every non-empty append acknowledged so far. *)
Theorem flush_takes_everything e y hist first w wnow w1 s r w2 ids :
  y_state y = i_wal e -> winv first hist y (files w) -> last_flushed_segment (i_manifest e) < first ->
  seal (i_wal e) wnow w = (w1, Ret (s, Ok r)) -> active_segment s <= u64_lim ->
  flush_select (set_wal e s) w1 = (w2, Ret ids) ->
  (forall id, id ∈ ids <-> id ∈ segments_of (files w1) /\
     last_flushed_segment (i_manifest e) < id < active_segment s) /\
  (forall id c, (id, c) ∈ hist -> c <> [] -> id ∈ ids).
Proof.
  intros Ey Hinv Hfloor Es Hlim Eids. rewrite <-Ey in Es.
  destruct (seal_empties first hist y w wnow w1 s r Hinv Es) as (a & Ha & Hok & Hnil).
  apply flush_select_ids in Eids. cbn in Eids.
  assert (forall id, id ∈ ids <-> id ∈ segments_of (files w1) /\
    last_flushed_segment (i_manifest e) < id < active_segment s) as Hiff.
  { intros id. rewrite Eids. unfold consumable. rewrite list_elem_of_filter. tauto. }
  split; [done|]. intros id c Hin Hc. apply Hiff. unfold active_segment in *. rewrite Ha in *.
  destruct Hok as [Hf Hh _ Hs _]. rewrite Forall_forall in Hh. pose proof (Hh _ Hin) as Hid. cbn in Hid.
  assert (id <> a_id a) as Hne. { intros ->. apply Hc. by eapply acked_nil. }
  destruct (Hs id ltac:(lia)) as (tail & Ht & _). split; [|lia].
  apply elem_of_segments. split; [lia|by eexists].
Qed.
End flush.

(** ** Instances *)

#[local] Existing Instance Crc32_ieee.
#[local] Existing Instance count_parquet.
#[local] Existing Instance NumberJson.

Definition flushable : Inner :=
  mkInner sample_config (mkManifest ∅ 4 None) ∅ (y_state appended_sys) (mkDirLock 7) counters_default 0 0.

(** The seal succeeds and one segment is selected. *)
Definition flush_takes_check : bool :=
  match seal (i_wal flushable) 0 appended.1 with
  | (w1, Ret (s, Ok _)) =>
      match flush_select (set_wal flushable s) w1 with
      | (_, Ret ids) => bool_decide (ids = [7]) && (active_segment s <=? u64_lim)
      | _ => false
      end
  | _ => false
  end.

Lemma flush_takes_witness :
  match seal (i_wal flushable) 0 appended.1 with
  | (w1, Ret (s, Ok _)) =>
      match flush_select (set_wal flushable s) w1 with
      | (_, Ret ids) => ids = [7] /\ 7 ∈ ids
      | _ => False
      end
  | _ => False
  end.
Proof.
  assert (flush_takes_check = true) as Hc by (vm_compute; reflexivity). unfold flush_takes_check in Hc.
  destruct (seal (i_wal flushable) 0 appended.1) as [w1 [[s [r|err]]|err|]] eqn:Es; [|discriminate Hc..].
  destruct (flush_select (set_wal flushable s) w1) as [w2 [ids|err|]] eqn:Ei; [|discriminate Hc..].
  apply andb_true_iff in Hc as [Hids Hact].
  destruct (flush_takes_everything sample_wal_config None 1 no_lock flushable appended_sys [(7, lit "record")] 7
    appended.1 0 w1 s r w2 ids) as [_ Hall].
  - reflexivity.
  - exact (reachable_winv sample_wal_config None 1 7 appended_sys [(7, lit "record")] appended.1 no_lock appended_reachable).
  - reflexivity.
  - exact Es.
  - apply Z.leb_le. exact Hact.
  - exact Ei.
  - split; [exact (bool_decide_eq_true_1 _ Hids)|apply (Hall 7 (lit "record")); [left|discriminate]].
Defined.
