(* ===== verification/EngineRows.v ===== *)
(** * EngineRows: from an accepted append to the table

    The rows the engine accepted, as the log holds them, against the rows of the tables
    a flush leaves: every accepted row is in the table of its series, epoch and hour,
    unless an earlier one had its timestamp and id, and nothing else is. *)

From Stdlib Require Import ZArith Lia.
From Stdlib Require Import Strings.Byte.
From S2P Require Import Prelude Text Record Codec CodecProofs CodecTheorems Disk Wal Reader Recovery Lock Merge MergeProofs Sources Bounded BatchProofs Spill Time Config Manifest Columns ColumnsProofs ColumnsTheorems Planner Writer Decode FlushRows FlushTable FlushStage Total FlushTotal FlushCrash FlushTheorems Sweep SweepTheorems FlushCompletes Engine EngineProofs EngineTheorems.
Open Scope Z_scope.

(** ** Rows and heads *)

Definition ts_id (r : Row) : Z * bytes := (row_ts r, row_id r).

(** The rows of a group among the accepted ones, in log order. *)
Definition rows_of (g : GroupKey) (l : list (SeriesHandle * Row)) : list Row :=
  snd <$> filter (fun x => (sh_name x.1, sh_epoch x.1) = g) l.

(** The first row of [l] with its timestamp and id. *)
Definition first_row (l : list Row) (r : Row) : Prop :=
  exists pre post, l = pre ++ r :: post /\ Forall (fun r' => ts_id r' <> ts_id r) pre.

(** The head of a frame stands for the row. *)
Definition stands_for `{Crc32} (n : nat) (h : Head) (r : Row) : Prop :=
  row_key h = ts_id r /\ head_row n h = stored r.

Section rows.
Context `{Crc32}.

(** Arrivals in log order. *)
Definition arriving (l : list Head) : Prop := StronglySorted (fun x y => clt (h_arrival x) (h_arrival y)) l.

(** In log order, the merge keeps the first of each row. *)
Lemma merged_first l h : arriving l -> arrivals_unique l ->
  h ∈ merged l <-> exists pre post, l = pre ++ h :: post /\ Forall (fun x => row_key x <> row_key h) pre.
Proof.
  intros Hs Hu. unfold merged. rewrite (elem_of_dedup_sort row_key h_arrival) by done. split.
  - intros [Hin Hmin]. apply list_elem_of_split in Hin as (pre & post & ->). exists pre, post. split; [done|].
    apply Forall_forall. intros x Hx E. pose proof (Hmin x ltac:(set_solver) E) as Hle.
    pose proof (StronglySorted_app_1_elem_of _ _ _ x h Hs Hx ltac:(by left)) as Hlt.
    unfold full in Hle. rewrite E, cle_same_fst, cle_not_clt in Hle. done.
  - intros (pre & post & -> & Hpre). split; [set_solver|]. intros y Hy E. unfold full. rewrite E, cle_same_fst.
    apply elem_of_app in Hy as [Hy|[->|Hy]%elem_of_cons]; [|apply cle_lt_eq; by right|].
    + rewrite Forall_forall in Hpre. by destruct (Hpre y Hy).
    + apply StronglySorted_app_1_r, StronglySorted_cons in Hs as [Hlt _]. rewrite Forall_forall in Hlt. by apply clt_cle, Hlt.
Qed.

(** The same, on the rows the heads stand for. *)
Lemma merged_first_rows n l rows r : Forall2 (stands_for n) l rows -> arriving l -> arrivals_unique l ->
  r ∈ head_row n <$> merged l <-> exists r0, r = stored r0 /\ first_row rows r0.
Proof.
  intros Hf Hs Hu. rewrite list_elem_of_fmap. setoid_rewrite (merged_first l) ; [|done..]. split.
  - intros (h & -> & pre & post & -> & Hpre). apply Forall2_app_inv_l in Hf as (rpre & rest & Hp & Hf & ->).
    apply Forall2_cons_inv_l in Hf as (r0 & rpost & [Ek Er] & _ & ->). exists r0. split; [done|].
    exists rpre, rpost. split; [done|]. rewrite <-Ek. clear -Hp Hpre.
    induction Hp as [|x y pre rpre [E _] _ IH]; [constructor|]. apply Forall_cons in Hpre as [Hx Hpre].
    constructor; [by rewrite <-E|by apply IH].
  - intros (r0 & -> & rpre & rpost & -> & Hpre). apply Forall2_app_inv_r in Hf as (pre & rest & Hp & Hf & ->).
    apply Forall2_cons_inv_r in Hf as (h & post & [Ek Er] & _ & ->). exists h. split; [done|].
    exists pre, post. split; [done|]. rewrite Ek. clear -Hp Hpre.
    induction Hp as [|x y pre rpre [E _] _ IH]; [constructor|]. apply Forall_cons in Hpre as [Hx Hpre].
    constructor; [by rewrite E|by apply IH].
Qed.

(** What the rows of a merged list are sorted by. *)
Lemma merged_rows_sorted n l rows : Forall2 (stands_for n) l rows -> arrivals_unique l ->
  StronglySorted (fun r r' => clt (ts_id r) (ts_id r')) (head_row n <$> merged l).
Proof.
  intros Hf Hu. assert (forall h, h ∈ merged l -> ts_id (head_row n h) = row_key h) as Hk.
  { intros h Hh%merged_incl; [|done]. apply list_elem_of_lookup in Hh as [i Hi].
    destruct (Forall2_lookup_l _ _ _ _ _ Hf Hi) as (r & _ & Ek & ->). by rewrite Ek. }
  assert (StronglySorted (fun x y => clt (row_key x) (row_key y)) (merged l)) as Hs by (by apply dedup_sort_strict).
  induction Hs as [|h l' Hs IH Hh]; [constructor|]. cbn [fmap list_fmap]. apply StronglySorted_cons. split.
  - apply Forall_fmap. rewrite Forall_forall in Hh |- *. intros x Hx. cbn. rewrite !Hk by set_solver. by apply Hh.
  - apply IH. intros x Hx. apply Hk. by right.
Qed.

(** *** Hours *)

Lemma parts_filter (parts : list (Z * list Head)) part h :
  Forall (fun q => q.2 <> [] /\ Forall (fun x => hour_of x = q.1) q.2) parts -> StronglySorted Z.lt parts.*1 ->
  part ∈ parts.*2 -> h ∈ part -> filter (fun x => hour_of x = hour_of h) (concat parts.*2) = part.
Proof.
  intros Hp Hs Hin Hh. induction parts as [|[k part'] parts IH]; [by apply elem_of_nil in Hin|].
  cbn [fmap list_fmap fst snd concat] in *. apply Forall_cons in Hp as [[_ Hk] Hp]. apply StronglySorted_cons in Hs as [Hlt Hs].
  assert (forall x, x ∈ concat parts.*2 -> k < hour_of x) as Hrest.
  { intros x Hx. apply list_elem_of_In, in_concat in Hx as (q & Hq & Hx). apply list_elem_of_In, list_elem_of_fmap in Hq as (y & -> & Hy).
    rewrite Forall_forall in Hp. destruct (Hp y Hy) as [_ Hy2]. rewrite Forall_forall in Hy2; rewrite Forall_forall in Hlt. rewrite (Hy2 x) by (by apply list_elem_of_In).
    apply Hlt. by apply list_elem_of_fmap_2. }
  cbn in Hk. rewrite Forall_forall in Hk. rewrite filter_app. apply elem_of_cons in Hin as [->|Hin].
  - rewrite filter_all, filter_none, app_nil_r; [done|..]; intros x Hx; rewrite (Hk h Hh).
    + apply Hrest in Hx. lia.
    + by apply Hk.
  - rewrite IH by done. rewrite filter_none; [done|]. intros x Hx. rewrite (Hk x Hx).
    assert (h ∈ concat parts.*2) as Hc%Hrest; [|lia]. apply list_elem_of_In, in_concat. exists part.
    by rewrite <-!list_elem_of_In.
Qed.

(** Each hour of a cut list is all of it that falls in the hour. *)
Lemma by_hour_filter l part h : good_heads l -> part ∈ (by_hour l).*2 -> h ∈ part ->
  filter (fun x => hour_of x = hour_of h) l = part.
Proof. intros Hg. destruct (by_hour_ok l Hg) as [Hc Hp Hs]. rewrite <-Hc at 2. by apply parts_filter. Qed.

(** Every record is in the part of its hour. *)
Lemma by_hour_elem l h : good_heads l -> h ∈ l -> exists part, part ∈ (by_hour l).*2 /\ h ∈ part.
Proof.
  intros Hg. destruct (by_hour_ok l Hg) as [Hc _ _]. rewrite <-Hc at 1. intros Hh. apply list_elem_of_In, in_concat in Hh as (q & Hq & Hh).
  exists q. by rewrite !list_elem_of_In.
Qed.
End rows.

(** ** The log *)

Section log.
Context `{Crc32} (m : Manifest) (e : Inner) (Hlim : record_limit e < u32_lim).

(** A segment of the log: its id and the rows accepted into it. *)
Abbreviation LogSegment := (Z * list (SeriesHandle * Row))%type.

(** The file of the segment holds those rows and at most a torn tail. *)
Record logged (fs : Files) (p : LogSegment) : Prop := {
  lg_id : 0 <= p.1 < u64_lim;
  lg_rows : Forall (accepted_row m e) p.2;
  lg_file : exists tail, let buf := encode_segment_header [] p.1 ++ concat ((fun x => row_frame x.1 x.2) <$> p.2) ++ tail in
    fs !! segment_path p.1 = Some buf /\ stuck (zlen buf) tail /\ zlen buf < u64_lim
}.

Lemma logged_segment fs p : logged fs p ->
  flushable fs p.1 /\ good_segment fs p.1 = true /\
  segment_heads m p.1 (default [] (fs !! segment_path p.1)) = row_heads p.1 SEGMENT_HEADER_BYTES p.2.
Proof.
  intros [Hid Hr (tail & Hf & Hst & Hl)]. destruct (accepted_segment m e p.1 p.2 tail Hid Hlim Hr Hst) as (Hh & _ & _ & Hsm & Eh).
  split_and!.
  - split; [done|]. intros buf Hb. rewrite Hf in Hb. by injection Hb as <-.
  - unfold good_segment. by rewrite Hf, Hh.
  - rewrite Hf. exact Eh.
Qed.

Lemma logged_heads fs (log : list LogSegment) : Forall (logged fs) log ->
  flush_heads m fs log.*1 = concat ((fun p => row_heads p.1 SEGMENT_HEADER_BYTES p.2) <$> log).
Proof.
  unfold flush_heads. induction 1 as [|p log Hp _ IH]; [done|]. cbn [fmap list_fmap concat]. rewrite <-IH. f_equal.
  by apply logged_segment.
Qed.

(** The head of an accepted row stands for it. *)
Lemma accepted_stands x id at_ : accepted_row m e x ->
  stands_for (length (keys_in m (sh_name x.1, sh_epoch x.1)))
    (mkHead (row_ts x.2) (row_id x.2) (id, at_) (row_frame x.1 x.2)) x.2.
Proof.
  destruct x as [h row]. cbn [fst snd]. intros ([Hs Hn He] & Hwf & now & [_ Hk Hfit _]). cbn [fst snd] in *. split; [done|].
  unfold keys_in. cbn [fst snd]. rewrite Hs. change (default [] (Some (sh_keys h))) with (sh_keys h).
  apply Forall2_length in Hk. unfold head_row. cbn [h_frame]. rewrite Hk.
  set (payload := payload_of (sh_name h) (sh_epoch h) row).
  pose proof (decode_payload_of (sh_name h) (sh_epoch h) row (zlen (frame_of payload)) Hwf Hn He Hfit) as Hd.
  pose proof (verified_frame_of payload [] (length (row_keys row)) (fits_min _ _ _) (fits_payload _ _ _ Hfit)) as [Hv _].
  rewrite app_nil_r in Hv. fold payload in Hd. rewrite Hd in Hv. unfold row_frame, written_frame. cbn [wr_series wr_epoch wr_row].
  fold payload. rewrite Hv. done.
Qed.

Lemma group_stands g id at_ l : Forall (accepted_row m e) l ->
  Forall2 (stands_for (length (keys_in m g))) (of_group g (row_heads id at_ l)) (rows_of g l).
Proof.
  intros Ha. revert at_. induction Ha as [|x l Hx _ IH]; intros at_; [constructor|].
  pose proof (accepted_stands x id at_ Hx) as Hst. destruct x as [h row]. cbn [row_heads fst snd] in *.
  unfold of_group, rows_of in *. destruct (decide ((sh_name h, sh_epoch h) = g)) as [E|Hne].
  - rewrite !filter_cons_True by done. cbn [fmap list_fmap snd]. constructor; [by rewrite <-E|apply IH].
  - rewrite !filter_cons_False by done. apply IH.
Qed.

Lemma log_stands fs g (log : list LogSegment) : Forall (logged fs) log ->
  Forall2 (stands_for (length (keys_in m g))) (of_group g (flush_heads m fs log.*1)) (rows_of g (concat log.*2)).
Proof.
  intros Hl. rewrite (logged_heads fs) by done. induction Hl as [|p log Hp _ IH]; [constructor|].
  cbn [fmap list_fmap concat]. rewrite of_group_app. unfold rows_of. rewrite filter_app, fmap_app.
  apply Forall2_app; [|exact IH]. apply group_stands, (lg_rows _ _ Hp).
Qed.

(** *** Order of arrival *)

Lemma clt_snd (a : Z) (x y : Z) : x < y -> clt (a, x) (a, y).
Proof. intros Hxy. unfold clt, cmp, cmp_prod. cbn. unfold cmp, cmp_Z. rewrite Z.compare_refl. by apply Z.compare_lt_iff. Qed.

Lemma row_heads_arriving id at_ l : Forall (accepted_row m e) l ->
  Forall (fun p => (h_arrival p.2).1 = id /\ at_ <= (h_arrival p.2).2) (row_heads id at_ l) /\
  arriving (row_heads id at_ l).*2.
Proof.
  intros Ha. revert at_. induction Ha as [|x l Hx _ IH]; intros at_; [split; constructor|].
  assert (0 < zlen (row_frame x.1 x.2)) as Hl.
  { unfold row_frame, written_frame. rewrite zlen_frame_of. unfold FRAME_HEADER_BYTES. set (payload := payload_of _ _ _).
    pose proof (zlen_nonneg payload). lia. }
  destruct x as [h row]. cbn [row_heads fst snd] in *. destruct (IH (at_ + zlen (row_frame h row))) as [Hr Hs]. split.
  - constructor; [by split|]. eapply Forall_impl; [exact Hr|]. cbv beta. intros p [? ?]. split; [done|lia].
  - constructor; [done|]. apply Forall_fmap. eapply Forall_impl; [exact Hr|]. cbv beta. intros p [E1 E2].
    change (clt (id, at_) (h_arrival p.2)). replace (h_arrival p.2) with (id, (h_arrival p.2).2) by (rewrite <-E1; by destruct (h_arrival p.2)).
    apply clt_snd. lia.
Qed.

Lemma log_arriving fs g (log : list LogSegment) : Forall (logged fs) log -> StronglySorted Z.lt log.*1 ->
  arriving (of_group g (flush_heads m fs log.*1)).
Proof.
  intros Hl Hs. rewrite (logged_heads fs) by done.
  assert (arriving (concat ((fun p => row_heads p.1 SEGMENT_HEADER_BYTES p.2) <$> log)).*2) as Ha.
  { induction Hl as [|p log Hp Hl IH]; [constructor|]. cbn [fmap list_fmap concat] in *. apply StronglySorted_cons in Hs as [Hlt Hs].
    rewrite fmap_app. destruct (row_heads_arriving p.1 SEGMENT_HEADER_BYTES p.2 (lg_rows _ _ Hp)) as [Hr Hsp].
    apply StronglySorted_app. split_and!; [|exact Hsp|by apply IH].
    intros x y Hx Hy. apply list_elem_of_fmap in Hx as (px & -> & Hx), Hy as (py & -> & Hy).
    rewrite Forall_forall in Hr. destruct (Hr px Hx) as [Ex _].
    apply list_elem_of_In, in_concat in Hy as (l' & Hl' & Hy). apply list_elem_of_In, list_elem_of_fmap in Hl' as (q & -> & Hq).
    rewrite Forall_forall in Hl. destruct (row_heads_arriving q.1 SEGMENT_HEADER_BYTES q.2 (lg_rows _ _ (Hl q Hq))) as [Hry _].
    rewrite Forall_forall in Hry. destruct (Hry py) as [Ey _]; [by apply list_elem_of_In|].
    apply clt_fst. rewrite Ex, Ey. rewrite Forall_forall in Hlt. specialize (Hlt q.1 ltac:(by apply list_elem_of_fmap_2)).
    unfold clt, cmp, cmp_Z. by apply Z.compare_lt_iff. }
  unfold arriving, of_group in *. revert Ha. generalize (concat ((fun p => row_heads p.1 SEGMENT_HEADER_BYTES p.2) <$> log)). clear.
  induction l as [|p l IH]; [constructor|]. cbn [fmap list_fmap]. intros [Hx Hs]%StronglySorted_cons.
  destruct (decide (p.1 = g)); [rewrite filter_cons_True by done|rewrite filter_cons_False by done; by apply IH].
  constructor; [by apply IH|]. rewrite Forall_forall in *. intros y (q & -> & [_ Hq]%list_elem_of_filter)%list_elem_of_fmap.
  apply Hx. by apply list_elem_of_fmap_2.
Qed.
End log.

(** ** The tables *)

Section tables.
Context `{Crc32} `{Parquet} `{ManifestJson}.

(** What the tables of a group hold: the rows of the group, sorted by time and id, the
    first of each; one table for each hour that occurs. *)
Record group_tables (flush : FlushConfig) (m : Manifest) (ids : list Z) (g : GroupKey) (accepted : list Row)
    (table : list Row) (fs : Files) : Prop := {
  gt_sorted : StronglySorted (fun r r' => clt (ts_id r) (ts_id r')) table;
  gt_rows : forall r, r ∈ table <-> exists r0, r = stored r0 /\ first_row accepted r0;
  gt_files : forall r, r ∈ table -> exists props, writer_properties g.1 g.2 (compression flush) = Ok props /\
    fs !! [SERIES_DIR; g.1; hour_partition (row_ts r); output_file_name (hd 0 ids) (List.last ids 0) g.2] =
      Some (table_file (keys_in m g) props (Nat.max (Z.to_nat (row_group_rows flush)) 1)
              (filter (fun r' => row_ts r' / US_PER_HOUR = row_ts r / US_PER_HOUR) table))
}.

Lemma filter_fmap_on {A B : Type} (f : A -> B) (P : B -> Prop) (Q : A -> Prop)
    `{!forall x, Decision (P x)} `{!forall x, Decision (Q x)} (l : list A) :
  (forall x, x ∈ l -> P (f x) <-> Q x) -> filter P (f <$> l) = f <$> filter Q l.
Proof.
  induction l as [|x l IH]; intros Hx; [done|]. cbn [fmap list_fmap].
  assert (filter P (f <$> l) = f <$> filter Q l) as E by (apply IH; intros y Hy; apply Hx; by right).
  assert (P (f x) <-> Q x) as Hfx by (apply Hx; by left). destruct (decide (Q x)) as [Hq|Hq].
  - rewrite (filter_cons_True P), (filter_cons_True Q) by (done || by apply Hfx). cbn [fmap list_fmap]. by rewrite <-E.
  - rewrite (filter_cons_False P), (filter_cons_False Q) by (done || by rewrite Hfx). done.
Qed.

(** From the tables of a flush, one group. *)
Lemma group_tables_of flush m fs0 fs ids g accepted :
  let all := flush_heads m fs0 ids in
  series_tables flush m fs0 ids fs -> arrivals_distinct all -> Forall (fun p => head_ok p.2) all ->
  Forall2 (stands_for (length (keys_in m g))) (of_group g all) accepted -> arriving (of_group g all) ->
  exists table, group_tables flush m ids g accepted table fs.
Proof.
  intros all Hser Hd Hok Hst Harr. set (n := length (keys_in m g)) in *. pose proof (arrivals_distinct_group _ g Hd) as Hu.
  exists (head_row n <$> merged (of_group g all)). split.
  - by eapply merged_rows_sorted.
  - intros r. by apply merged_first_rows.
  - intros r (h & -> & Hh)%list_elem_of_fmap.
    assert (Forall head_ok (of_group g all)) as Hokg.
    { apply Forall_forall. intros x Hx%elem_of_group. rewrite Forall_forall in Hok. apply (Hok _ Hx). }
    pose proof (merged_good _ Hu Hokg) as Hgood.
    assert (forall x, x ∈ merged (of_group g all) -> row_ts (head_row n x) = h_ts x) as Hts.
    { intros x Hx%merged_incl; [|done]. apply list_elem_of_lookup in Hx as [i Hi].
      destruct (Forall2_lookup_l _ _ _ _ _ Hst Hi) as (r & _ & Ek & ->). injection Ek as Ek _. by rewrite Ek. }
    destruct (by_hour_elem _ h Hgood Hh) as (part & Hpart & Hin).
    destruct (Hser g part) as (props & Hp & Hl); [|exact Hpart|].
    { apply elem_of_groups. fold all. intros E. rewrite E in Hh. by apply elem_of_nil in Hh. }
    exists props. split; [done|]. rewrite Hts by done.
    assert (hour_partition (h_ts h) = hour_partition (h_ts (hd no_head part))) as ->.
    { pose proof (ho_part _ _ (by_hour_ok _ Hgood)) as Hparts. apply list_elem_of_fmap in Hpart as ([k q] & -> & Hq).
      rewrite Forall_forall in Hparts. destruct (Hparts _ Hq) as [Hne Hk]. cbn [fst snd] in *. rewrite Forall_forall in Hk.
      assert (forall x, x ∈ q -> head_ok x) as Hqok.
      { intros x Hx. destruct Hgood as [Hgo _]. rewrite Forall_forall in Hgo. apply Hgo. rewrite <-(ho_concat _ _ (by_hour_ok _ (merged_good _ Hu Hokg))).
        apply list_elem_of_In, in_concat. exists q. rewrite <-!list_elem_of_In. split; [|done]. by apply (list_elem_of_fmap_2 snd) in Hq. }
      destruct q as [|x q]; [done|]. cbn [hd]. apply hour_partition_inj; [by apply head_ok_ts, Hqok|by apply head_ok_ts, Hqok; left|].
      fold (hour_of h) (hour_of x). by rewrite !Hk by set_solver. }
    rewrite Hl. do 2 f_equal. unfold part_rows. fold n.
    rewrite <-(by_hour_filter _ part h Hgood Hpart Hin). symmetry. apply filter_fmap_on. intros x Hx. by rewrite Hts.
Qed.

(** A flush of the log. *)
Lemma log_tables c m e now fs segments (log : list (Z * list (SeriesHandle * Row))) :
  manifest_typed m -> 0 <= now < u64_lim -> loads fs m -> short_names m ->
  compression (cfg_flush c) ∈ SUPPORTED_COMPRESSION -> record_limit e < u32_lim ->
  Forall (fun id => 0 <= id < u64_lim) segments -> run_ids segments = log.*1 ->
  Forall (logged m e fs) log -> Forall (fun x => row_ts x.2 < i64_lim) (concat log.*2) ->
  exists fs' m' o, runs (run c m segments now) fs fs' (Ret (m', Ok o)) /\ loads fs' m' /\
    forall g, exists table, group_tables (cfg_flush c) m log.*1 g (rows_of g (concat log.*2)) table fs'.
Proof.
  intros Hm Hnow Hload Hshort Hcomp Hlim Hseg Hids Hlog Hts.
  assert (Forall (flushable fs) log.*1) as Hfl.
  { apply Forall_fmap. eapply Forall_impl; [exact Hlog|]. intros p Hp. by apply (logged_segment m e Hlim fs p Hp). }
  assert (Forall (fun id => good_segment fs id = true) log.*1) as Hgood.
  { apply Forall_fmap. eapply Forall_impl; [exact Hlog|]. intros p Hp. by apply (logged_segment m e Hlim fs p Hp). }
  pose proof (run_ids_sorted segments) as Hsort. pose proof (run_ids_nodup segments) as Hnd. rewrite Hids in Hsort, Hnd.
  assert (forall g, Forall2 (stands_for (length (keys_in m g))) (of_group g (flush_heads m fs log.*1)) (rows_of g (concat log.*2)))
    as Hst by (intros g; by apply (log_stands m e Hlim)).
  assert (clean m fs (run_ids segments)) as Hcl.
  { rewrite Hids. split; [by split|done|]. apply Forall_forall. intros [g h] Hh%elem_of_group.
    apply list_elem_of_lookup in Hh as [i Hi]. destruct (Forall2_lookup_l _ _ _ _ _ (Hst g) Hi) as (r & Hr & Ek & _).
    injection Ek as Ek _. cbn. rewrite Ek. apply list_elem_of_lookup_2 in Hr. unfold rows_of in Hr.
    apply list_elem_of_fmap in Hr as (x & -> & [_ Hx]%list_elem_of_filter). rewrite Forall_forall in Hts. by apply Hts. }
  destruct (run_completed c m segments now fs Hm Hnow Hload Hcomp Hseg Hcl) as (fs' & m' & o & Hr & [Hl Hc]).
  rewrite Hids in Hc. exists fs', m', o. split; [done|]. split; [done|]. intros g. destruct Hc as [(E & _)|(_ & _ & _ & _ & _ & Hser)].
  - exists []. pose proof (Hst g) as Hg. rewrite E in Hg. apply Forall2_nil_inv_l in Hg as ->.
    split; [constructor| |by intros r ?%elem_of_nil]. intros r. split; [by intros ?%elem_of_nil|].
    by intros (r0 & _ & [] & post & E2 & _).
  - destruct (taken_ok m fs log.*1 Hfl Hnd) as [Hd [Hok _]%Forall_and]. rewrite goods_all in Hd, Hok by done.
    eapply group_tables_of; [exact Hser|done|done|apply Hst|by apply (log_arriving m e)].
Qed.

(** C2: Every accepted row ends up in its table, and nothing else does. Take a log whose
    segments hold rows that [append] admitted (under handles the manifest records, with
    timestamps that fit the signed column), each followed by at most a torn tail, and
    flush it without faults. The flush returns and its manifest is on disk; and for
    every series and epoch the rows of its tables are exactly the accepted rows, with
    [extra] in canonical form and for each timestamp and id the first one accepted,
    sorted by timestamp and id, in one file for each hour that occurs. *)
Theorem accepted_rows_in_tables c m e now fs segments (log : list (Z * list (SeriesHandle * Row))) :
  manifest_typed m -> 0 <= now < u64_lim -> loads fs m -> short_names m ->
  compression (cfg_flush c) ∈ SUPPORTED_COMPRESSION -> record_limit e < u32_lim ->
  Forall (fun id => 0 <= id < u64_lim) segments -> run_ids segments = log.*1 ->
  Forall (logged m e fs) log -> Forall (fun x => row_ts x.2 < i64_lim) (concat log.*2) ->
  exists fs' m' o, runs (run c m segments now) fs fs' (Ret (m', Ok o)) /\ loads fs' m' /\
    forall g, exists table, group_tables (cfg_flush c) m log.*1 g (rows_of g (concat log.*2)) table fs'.
Proof. apply log_tables. Qed.
End tables.

(** ** Instances *)

#[local] Existing Instance Crc32_ieee.
#[local] Existing Instance count_parquet.
#[local] Existing Instance NumberJson.

(** One segment with the same row accepted twice and a torn byte. *)
Definition twice : list (SeriesHandle * Row) := [(orders_handle, sample_row); (orders_handle, sample_row)].

Definition twice_segment : bytes :=
  encode_segment_header [] 5 ++ concat ((fun x => row_frame x.1 x.2) <$> twice) ++ [xff].

Definition twice_files : Files :=
  <[manifest_path := binary (countable.encode orders_manifest) ++ [x0a]]> {[segment_path 5 := twice_segment]}.

Lemma twice_logged : logged orders_manifest sample_engine twice_files (5, twice).
Proof.
  assert (accepted_row orders_manifest sample_engine (orders_handle, sample_row)) as Ha.
  { split; [|split; [exact sample_row_wf|exists 1700000000000; exact orders_admissible]].
    split; [vm_compute; reflexivity|vm_compute; reflexivity|split; [discriminate|reflexivity]]. }
  split; [split; [discriminate|reflexivity]|constructor; [exact Ha|constructor; [exact Ha|constructor]]|]. exists [xff]. split_and!.
  - vm_compute. reflexivity.
  - right. eexists. vm_compute. reflexivity.
  - vm_compute. reflexivity.
Qed.

Lemma orders_typed : manifest_typed orders_manifest.
Proof.
  split; [|vm_compute; split; congruence|done]. intros name h Hl. cbn in Hl. apply lookup_singleton_Some in Hl as [<- <-].
  split; [by vm_compute|]. repeat constructor; vm_compute; congruence.
Qed.

Lemma twice_loads : loads twice_files orders_manifest.
Proof. split; [apply binary_ascii|]. vm_compute. reflexivity. Qed.

Lemma orders_short : short_names orders_manifest.
Proof. intros name [h Hl]. cbn in Hl. apply lookup_singleton_Some in Hl as [<- _]. vm_compute. reflexivity. Qed.

Lemma accepted_rows_in_tables_witness :
  exists fs' m' o table, runs (run sample_config orders_manifest [5] 7) twice_files fs' (Ret (m', Ok o)) /\
    group_tables (cfg_flush sample_config) orders_manifest [5] (lit "orders", 3) [sample_row; sample_row] table fs' /\
    stored sample_row ∈ table.
Proof.
  destruct (accepted_rows_in_tables sample_config orders_manifest sample_engine 7 twice_files [5] [(5, twice)])
    as (fs' & m' & o & Hr & _ & Hg).
  - exact orders_typed.
  - split; [discriminate|reflexivity].
  - exact twice_loads.
  - exact orders_short.
  - apply (bool_decide_unpack _). vm_compute. exact I.
  - vm_compute. reflexivity.
  - repeat constructor; discriminate.
  - reflexivity.
  - constructor; [exact twice_logged|constructor].
  - repeat constructor.
  - destruct (Hg (lit "orders", 3)) as [table Ht]. change (rows_of _ _) with [sample_row; sample_row] in Ht.
    exists fs', m', o, table. split; [exact Hr|]. split; [exact Ht|]. apply (gt_rows _ _ _ _ _ _ _ Ht).
    exists sample_row. split; [reflexivity|]. exists [], [sample_row]. split; [reflexivity|constructor].
Defined.
