(* ===== verification/EngineReadBack.v ===== *)
(** * EngineReadBack: from an accepted append to what a reader gets

    The end of the chain: rows the engine accepted are in the log, a flush turns the log
    into tables (file EngineRows), and the crate's reader (file ReadBack) opens the table
    of a series, epoch and hour. *)

From Stdlib Require Import ZArith Lia.
From Stdlib Require Import Strings.Byte.
From S2P Require Import Prelude Text Record Codec CodecProofs CodecTheorems Disk Wal Reader Recovery Lock Merge MergeProofs Time Config Manifest Columns ColumnsProofs ColumnsTheorems ReadBack Planner Writer Decode FlushRows FlushTable FlushStage FlushTotal FlushCrash FlushTheorems Sweep SweepTheorems FlushCompletes Engine EngineProofs EngineTheorems EngineRows.
Open Scope Z_scope.

Section readback.
Context `{Crc32} `{ParquetReaderLaws} `{ManifestJson}.

(** Values the engine accepts fit the columns. *)
Lemma accepts_fit defs vals : Forall2 accepts defs vals -> keys_fit defs vals = true.
Proof.
  induction 1 as [|k v defs vals Hkv _ IH]; [done|]. cbn [keys_fit]. rewrite IH, andb_true_r.
  unfold accepts in Hkv. unfold fits_type. destruct (value_key_type v); [|done]. by apply bool_decide_eq_true.
Qed.

Lemma accepted_fits m e x : accepted_row m e x -> row_ts x.2 < i64_lim ->
  representable (keys_in m (sh_name x.1, sh_epoch x.1)) (stored x.2).
Proof.
  intros ([Hs _ _] & Hwf & now & [_ Hk _ _]) Hts. apply stored_representable; [|done].
  unfold row_fits, keys_in. cbn [fst snd]. rewrite Hs. cbn [default]. apply andb_true_iff.
  split; [by apply accepts_fit|by apply Z.ltb_lt].
Qed.

(** Every row has a first one with its timestamp and id. *)
Lemma first_row_of l r : r ∈ l -> exists r0, first_row l r0 /\ ts_id r0 = ts_id r.
Proof.
  induction l as [|x l IH]; [by intros ?%elem_of_nil|]. intros Hr.
  destruct (decide (ts_id x = ts_id r)) as [E|Hne].
  { exists x. split; [by exists [], l|done]. }
  apply elem_of_cons in Hr as [->|Hr]; [done|]. destruct (IH Hr) as (r0 & (pre & post & -> & Hp) & E).
  exists r0. split; [|done]. exists (x :: pre), post. split; [done|]. constructor; [by rewrite E|done].
Qed.

Lemma first_row_in l r : first_row l r -> r ∈ l.
Proof. intros (pre & post & -> & _). set_solver. Qed.

Lemma elem_of_rows g (l : list (SeriesHandle * Row)) r :
  r ∈ rows_of g l <-> exists h, (sh_name h, sh_epoch h) = g /\ (h, r) ∈ l.
Proof.
  unfold rows_of. rewrite list_elem_of_fmap. split.
  - intros ([h r'] & -> & [Hg Hx]%list_elem_of_filter). by exists h.
  - intros (h & Hg & Hx). exists (h, r). split; [done|]. by apply list_elem_of_filter.
Qed.

Lemma stored_stored r : stored (stored r) = stored r.
Proof. destruct r. unfold stored. cbn. by rewrite canonical_extra_idem. Qed.

(** What a reader gets for the hour of [ts]: the first accepted row of each timestamp
    and id in that hour, in order. *)
Record hour_rows (accepted : list Row) (ts : Z) (rows : list Row) : Prop := {
  hr_sorted : StronglySorted (fun r r' => clt (ts_id r) (ts_id r')) rows;
  hr_rows : forall r, r ∈ rows <->
    exists r0, r = stored r0 /\ first_row accepted r0 /\ row_ts r0 / US_PER_HOUR = ts / US_PER_HOUR
}.

(** The table of an hour, read. *)
Lemma group_reads flush m ids g accepted table fs r0 :
  group_tables flush m ids g accepted table fs -> names_free (keys_in m g) ->
  (forall r, r ∈ accepted -> representable (keys_in m g) (stored r)) -> r0 ∈ accepted ->
  exists rows, hour_rows accepted (row_ts r0) rows /\
    runs (read_table [SERIES_DIR; g.1; hour_partition (row_ts r0); output_file_name (hd 0 ids) (List.last ids 0) g.2])
      fs fs (Ret (read_row <$> rows)).
Proof.
  intros [Hs Hr Hf] Hn Hrep Hr0. set (hour := fun r' => row_ts r' / US_PER_HOUR = row_ts r0 / US_PER_HOUR).
  destruct (first_row_of _ _ Hr0) as (r1 & Hr1 & E1). injection E1 as Ets _.
  assert (stored r1 ∈ table) as Hin by (apply Hr; by exists r1). destruct (Hf _ Hin) as (props & _ & Hfile).
  cbn [stored row_ts] in Hfile. rewrite Ets in Hfile. exists (filter hour table). split; [split|].
  - by apply filter_sorted.
  - intros r. rewrite list_elem_of_filter, Hr. split.
    + intros [Hh (r2 & -> & Hr2)]. by exists r2.
    + intros (r2 & -> & Hr2 & Hh). split; [done|by exists r2].
  - assert (stored <$> filter hour table = filter hour table) as Est.
    { rewrite <-(list_fmap_id (filter hour table)) at 2. apply list_fmap_ext. intros i r Hi%list_elem_of_lookup_2. apply list_elem_of_filter in Hi as [_ Hrt]. apply Hr in Hrt as (r2 & -> & _). apply stored_stored. }
    rewrite <-Est. eapply runs_read_table; [|done| |exact Hfile]; [lia|].
    rewrite Est. apply Forall_forall. intros r [_ Hrt]%list_elem_of_filter. apply Hr in Hrt as (r2 & -> & Hr2).
    by apply Hrep, first_row_in.
Qed.

(** C8: A reader gets the accepted rows, each once. Take a log of rows that [append]
    admitted, flush it without faults, and open the table of an accepted row's series,
    epoch and hour with [read_file]: it returns the texts of exactly the accepted rows of
    that series, epoch and hour, for each timestamp and id the first one accepted, sorted
    by timestamp and id. *)
Theorem accepted_rows_read_back c m e now fs segments (log : list (Z * list (SeriesHandle * Row))) :
  manifest_typed m -> 0 <= now < u64_lim -> loads fs m -> short_names m ->
  compression (cfg_flush c) ∈ SUPPORTED_COMPRESSION -> record_limit e < u32_lim ->
  Forall (fun id => 0 <= id < u64_lim) segments -> run_ids segments = log.*1 ->
  Forall (logged m e fs) log -> Forall (fun x => row_ts x.2 < i64_lim) (concat log.*2) ->
  (forall g, names_free (keys_in m g)) ->
  exists fs' m' o, runs (run c m segments now) fs fs' (Ret (m', Ok o)) /\
    forall h r, (h, r) ∈ concat log.*2 ->
      let g := (sh_name h, sh_epoch h) in
      let file := output_file_name (hd 0 log.*1) (List.last log.*1 0) g.2 in
      exists rows, hour_rows (rows_of g (concat log.*2)) (row_ts r) rows /\
        runs (read_table [SERIES_DIR; g.1; hour_partition (row_ts r); file]) fs' fs' (Ret (read_row <$> rows)).
Proof.
  intros Hm Hnow Hload Hshort Hcomp Hlim Hseg Hids Hlog Hts Hfree.
  destruct (log_tables c m e now fs segments log) as (fs' & m' & o & Hr & _ & Hg); [done..|].
  exists fs', m', o. split; [done|]. intros h r Hin g file. destruct (Hg g) as (table & Ht).
  eapply group_reads; [exact Ht|apply Hfree| |apply elem_of_rows; by exists h].
  intros r' (h' & Eg & Hr')%elem_of_rows. fold g. rewrite <-Eg. apply (accepted_fits m e (h', r')).
  - apply list_elem_of_In, in_concat in Hr' as (l & Hl & Hr'). apply list_elem_of_In, list_elem_of_fmap in Hl as (p & -> & Hp).
    rewrite Forall_forall in Hlog. destruct (Hlog p Hp) as [_ Ha _]. rewrite Forall_forall in Ha. apply Ha. by apply list_elem_of_In.
  - rewrite Forall_forall in Hts. by apply (Hts (h', r')).
Qed.
End readback.

(** ** Instances *)

#[local] Existing Instance Crc32_ieee.
#[local] Existing Instance NumberJson.

Lemma orders_free g : names_free (keys_in orders_manifest g).
Proof.
  unfold keys_in, schema, orders_manifest. cbn [m_series]. destruct (decide (lit "orders" = g.1)) as [<-|Hne].
  - rewrite lookup_singleton_eq. cbn [mbind option_bind List.find es_epoch]. destruct (3 =? g.2); [|constructor].
    apply (bool_decide_unpack _). vm_compute. exact I.
  - rewrite lookup_singleton_ne by done. constructor.
Qed.

Lemma accepted_rows_read_back_witness :
  exists fs' m' o rows,
    runs (run (H0 := plain_parquet) sample_config orders_manifest [5] 7) twice_files fs' (Ret (m', Ok o)) /\
    runs (read_table (H := plain_reader) [SERIES_DIR; lit "orders"; hour_partition (row_ts sample_row); output_file_name 5 5 3])
      fs' fs' (Ret (read_row <$> rows)) /\
    stored sample_row ∈ rows.
Proof.
  destruct (accepted_rows_read_back (H2 := plain_laws) sample_config orders_manifest sample_engine 7 twice_files [5] [(5, twice)])
    as (fs' & m' & o & Hr & Hg).
  - exact orders_typed.
  - split; [discriminate|reflexivity].
  - exact twice_loads.
  - exact orders_short.
  - apply (bool_decide_unpack _). vm_compute. exact I.
  - vm_compute. reflexivity.
  - repeat constructor; discriminate.
  - reflexivity.
  - constructor; [exact twice_logged|constructor].
  - repeat constructor.
  - exact orders_free.
  - destruct (Hg orders_handle sample_row) as (rows & [_ Hrows] & Hread); [by left|].
    exists fs', m', o, rows. split; [exact Hr|]. split; [exact Hread|]. apply Hrows.
    exists sample_row. split; [reflexivity|]. split; [|reflexivity]. exists [], [sample_row]. split; [reflexivity|constructor].
Defined.
