(* ===== verification/Client.v ===== *)
(** * Client: the control protocol and the ingest client ([protocol.rs], [client.rs])

    Sockets are not part of the crate: what [zmq_send] answers is the next entry of a
    script, and the messages the socket took are recorded in order. *)

From Stdlib Require Import ZArith Lia.
From Stdlib Require Import Strings.Byte.
From S2P Require Import Prelude Text Record Codec CodecProofs CodecTheorems Reader Config Engine.
Open Scope Z_scope.

(** ** The protocol *)

(** [struct SeriesSchema], and [struct RemoteSeries] with the same fields. *)
Record SeriesSchema := mkSchema {
  ss_name : bytes;
  ss_epoch : Z;
  ss_keys : list KeyDef
}.

(** [struct StatsPayload] and [struct FlushPayload]. *)
Record StatsPayload := mkStatsPayload { sp_engine : Stats; sp_batches_received : Z }.
Record FlushPayload := mkFlushPayload {
  fp_segments_consumed : list Z;
  fp_rows_written : Z;
  fp_rows_deduplicated : Z;
  fp_frames_rejected : Z
}.

(** [enum ControlRequest]. *)
Inductive ControlRequest := Ping | StatsReq | FlushReq | SchemaReq | ReloadConfig | Shutdown.

(** [enum ControlResponse]. *)
Inductive ControlResponse :=
| Pong (version : bytes)
| StatsResp (payload : StatsPayload)
| Flushed (payload : FlushPayload)
| SchemaResp (series : list SeriesSchema) (max_batch_bytes : option Z)
| ShuttingDown
| ErrorResp (message : string).

(** ** The client *)

(** [enum OnFull]. *)
Inductive OnFull := Block | DropFull.

(** What a send on the PUSH socket answers. *)
Inductive PushResult := Accepted | Eagain | Broken.

Definition zmq_error : Error := ConfigErr "zeromq".

(** [struct ClientStats]. *)
Record ClientStats := mkClientStats {
  records_sent : Z;
  records_dropped : Z;
  batches_sent : Z;
  bytes_sent : Z
}.

(** [struct Client] without its sockets, and the PUSH socket: the messages it took and
    its coming answers. *)
Record Client := mkClient {
  cl_schema : gmap bytes SeriesSchema;
  cl_buf : bytes;
  cl_pending : Z;
  cl_batch : Z;
  cl_on_full : OnFull;
  cl_stats : ClientStats;
  cl_max : Z;
  cl_configured_max : Z;
  cl_out : list bytes;
  cl_answers : list PushResult
}.

Definition set_buf (c : Client) (buf : bytes) (pending : Z) : Client :=
  mkClient (cl_schema c) buf pending (cl_batch c) (cl_on_full c) (cl_stats c) (cl_max c)
    (cl_configured_max c) (cl_out c) (cl_answers c).

(** [Socket::send]; without further answers it takes every message. *)
Definition push_send (c : Client) (msg : bytes) : Client * PushResult :=
  let answer := match cl_answers c with a :: _ => a | [] => Accepted end in
  let out := match answer with Accepted => cl_out c ++ [msg] | _ => cl_out c end in
  (mkClient (cl_schema c) (cl_buf c) (cl_pending c) (cl_batch c) (cl_on_full c) (cl_stats c) (cl_max c)
     (cl_configured_max c) out (drop 1 (cl_answers c)), answer).

Definition note_sent (c : Client) (size : Z) : Client :=
  let s := cl_stats c in
  mkClient (cl_schema c) (cl_buf c) (cl_pending c) (cl_batch c) (cl_on_full c)
    (mkClientStats (records_sent s + cl_pending c) (records_dropped s) (batches_sent s + 1) (bytes_sent s + size))
    (cl_max c) (cl_configured_max c) (cl_out c) (cl_answers c).

Definition note_dropped (c : Client) : Client :=
  let s := cl_stats c in
  mkClient (cl_schema c) (cl_buf c) (cl_pending c) (cl_batch c) (cl_on_full c)
    (mkClientStats (records_sent s) (records_dropped s + cl_pending c) (batches_sent s) (bytes_sent s))
    (cl_max c) (cl_configured_max c) (cl_out c) (cl_answers c).

(** The message of the buffered records; the count is cast to [u32]. *)
Definition batch_message (c : Client) : bytes :=
  encode_batch_header [] (cl_pending c mod u32_lim) ++ cl_buf c.

(** [Client::flush]. *)
Definition client_flush (c : Client) : Client * result Error unit :=
  if cl_pending c =? 0 then (c, Ok tt)
  else
    let size := BATCH_HEADER_BYTES + zlen (cl_buf c) in
    if cl_max c <? size then (c, Err (BatchTooLarge size (cl_max c)))
    else
      let msg := batch_message c in
      match push_send c msg with
      | (c, Accepted) => (set_buf (note_sent c (zlen msg)) [] 0, Ok tt)
      | (c, Eagain) => (set_buf (note_dropped c) [] 0, Ok tt)
      | (c, Broken) => (c, Err zmq_error)
      end.

Section client.
Context `{Crc32}.

(** The end of [Client::send]: count the record and flush a full batch. *)
Definition send_counted (c : Client) : Client * result Error unit :=
  let c := set_buf c (cl_buf c) (cl_pending c + 1) in
  if cl_batch c <=? cl_pending c then client_flush c else (c, Ok tt).

(** [Client::send]. *)
Definition send (c : Client) (s : SeriesSchema) (row : Row) : Client * result Error unit :=
  let before := zlen (cl_buf c) in
  match encode (cl_buf c) (ss_name s) (ss_epoch s) row with
  | (buf, Err e) => (set_buf c buf (cl_pending c), Err e)
  | (buf, Ok _) =>
      let frame := zlen buf - before in
      if cl_max c <? BATCH_HEADER_BYTES + frame then
        (set_buf c (take (Z.to_nat before) buf) (cl_pending c),
         Err (BatchTooLarge (BATCH_HEADER_BYTES + frame) (cl_max c)))
      else if (0 <? before) && (cl_max c <? BATCH_HEADER_BYTES + zlen buf) then
        let frame := drop (Z.to_nat before) buf in
        match client_flush (set_buf c (take (Z.to_nat before) buf) (cl_pending c)) with
        | (c, Err e) => (c, Err e)
        | (c, Ok _) => send_counted (set_buf c (cl_buf c ++ frame) (cl_pending c))
        end
      else send_counted (set_buf c buf (cl_pending c))
  end.
End client.

(** [Drop for Client]: an error is only logged. *)
Definition client_drop (c : Client) : Client :=
  if 0 <? cl_pending c then (client_flush c).1 else c.

(** [Client::series]. *)
Definition client_series (c : Client) (name : bytes) : result Error SeriesSchema :=
  match cl_schema c !! name with Some s => Ok s | None => Err (UnknownSeries name) end.

(** [Client::refresh_schema] on the reply of the server; [Err] is a control call that
    failed. A later entry of a repeated name replaces an earlier one. *)
Definition refresh_schema (c : Client) (reply : result Error ControlResponse) : Client * result Error unit :=
  match reply with
  | Err e => (c, Err e)
  | Ok (SchemaResp series max) =>
      let schema := foldl (fun m s => <[ss_name s := s]> m) (∅ : gmap bytes SeriesSchema) series in
      let limit := match max with
                   | Some server => Z.min (cl_configured_max c) server
                   | None => cl_configured_max c
                   end in
      (mkClient schema (cl_buf c) (cl_pending c) (cl_batch c) (cl_on_full c) (cl_stats c) limit
         (cl_configured_max c) (cl_out c) (cl_answers c), Ok tt)
  | Ok (ErrorResp message) => (c, Err (ConfigErr message))
  | Ok _ => (c, Err (ConfigErr "unexpected reply to a schema request"))
  end.

(** ** The control socket *)

(** What libzmq answers to a call: done, [EAGAIN] at a timeout, or another error. *)
Inductive ZmqAnswer := ZDone | ZAgain | ZFail.

(** [serde_json] at the protocol types, on the client's side. *)
Class ClientJson := {
  request_to_bytes : ControlRequest -> option bytes;
  response_from_bytes : bytes -> option ControlResponse
}.

Definition FLUSH_TIMEOUT_MS : Z := 600000.

(** The REQ socket: the receive timeout in force, the one the client was built with, and
    the requests it took. *)
Record ReqSocket := mkReq {
  rq_timeout : Z;
  rq_control_timeout : Z;
  rq_sent : list bytes
}.

(** The answers of one exchange: to setting the timeout, to the send, to the receive,
    and to restoring the timeout. *)
Record Exchange := mkExchange {
  ex_set : ZmqAnswer;
  ex_send : ZmqAnswer;
  ex_recv : bytes + ZmqAnswer;
  ex_restore : ZmqAnswer
}.

(** [Socket::set_rcvtimeo]. *)
Definition set_rcvtimeo (q : ReqSocket) (ms : Z) (a : ZmqAnswer) : ReqSocket * result Error unit :=
  match a with
  | ZDone => (mkReq ms (rq_control_timeout q) (rq_sent q), Ok tt)
  | _ => (q, Err zmq_error)
  end.

(** [Client::control_err]; its message names the time waited. *)
Definition control_err (a : ZmqAnswer) : Error :=
  match a with
  | ZAgain => ConfigErr "is an orc server running there?"
  | _ => zmq_error
  end.

Definition is_slow (req : ControlRequest) : bool := match req with FlushReq => true | _ => false end.

Section control.
Context `{ClientJson}.

(** [Client::control_inner]. *)
Definition control_inner (q : ReqSocket) (req : ControlRequest) (x : Exchange)
    : ReqSocket * result Error ControlResponse :=
  match request_to_bytes req with
  | None => (q, Err (Json "encoding a request"))
  | Some msg =>
      match ex_send x with
      | ZDone =>
          let q := mkReq (rq_timeout q) (rq_control_timeout q) (rq_sent q ++ [msg]) in
          match ex_recv x with
          | inl reply =>
              (q, match response_from_bytes reply with Some r => Ok r | None => Err (Json "decoding a reply") end)
          | inr a => (q, Err (control_err a))
          end
      | a => (q, Err (control_err a))
      end
  end.

(** [Client::control]: a failed restore is only logged. *)
Definition control (q : ReqSocket) (req : ControlRequest) (x : Exchange)
    : ReqSocket * result Error ControlResponse :=
  if is_slow req then
    match set_rcvtimeo q FLUSH_TIMEOUT_MS (ex_set x) with
    | (q, Err e) => (q, Err e)
    | (q, Ok _) =>
        let '(q, r) := control_inner q req x in
        ((set_rcvtimeo q (rq_control_timeout q) (ex_restore x)).1, r)
    end
  else control_inner q req x.

(** ** The builder *)

(** [struct ClientBuilder]. *)
Record ClientBuilder := mkBuilder {
  cb_ingest : bytes;
  cb_control : option bytes;
  cb_batch : Z;
  cb_sndhwm : Z;
  cb_linger_ms : Z;
  cb_on_full : OnFull;
  cb_control_timeout_ms : Z;
  cb_max_batch_bytes : Z
}.

Definition builder_default : ClientBuilder :=
  mkBuilder (lit "tcp://127.0.0.1:5555") None 1024 100000 2000 Block 5000 DEFAULT_MAX_BATCH_BYTES.

(** The setters of the builder. *)
Definition builder_ingest (b : ClientBuilder) (endpoint : bytes) : ClientBuilder :=
  mkBuilder endpoint (cb_control b) (cb_batch b) (cb_sndhwm b) (cb_linger_ms b) (cb_on_full b)
    (cb_control_timeout_ms b) (cb_max_batch_bytes b).
Definition builder_control (b : ClientBuilder) (endpoint : bytes) : ClientBuilder :=
  mkBuilder (cb_ingest b) (Some endpoint) (cb_batch b) (cb_sndhwm b) (cb_linger_ms b) (cb_on_full b)
    (cb_control_timeout_ms b) (cb_max_batch_bytes b).
Definition builder_batch (b : ClientBuilder) (records : Z) : ClientBuilder :=
  mkBuilder (cb_ingest b) (cb_control b) (Z.max records 1) (cb_sndhwm b) (cb_linger_ms b) (cb_on_full b)
    (cb_control_timeout_ms b) (cb_max_batch_bytes b).
Definition builder_sndhwm (b : ClientBuilder) (hwm : Z) : ClientBuilder :=
  mkBuilder (cb_ingest b) (cb_control b) (cb_batch b) hwm (cb_linger_ms b) (cb_on_full b)
    (cb_control_timeout_ms b) (cb_max_batch_bytes b).
Definition builder_linger_ms (b : ClientBuilder) (ms : Z) : ClientBuilder :=
  mkBuilder (cb_ingest b) (cb_control b) (cb_batch b) (cb_sndhwm b) ms (cb_on_full b)
    (cb_control_timeout_ms b) (cb_max_batch_bytes b).
Definition builder_on_full (b : ClientBuilder) (on_full : OnFull) : ClientBuilder :=
  mkBuilder (cb_ingest b) (cb_control b) (cb_batch b) (cb_sndhwm b) (cb_linger_ms b) on_full
    (cb_control_timeout_ms b) (cb_max_batch_bytes b).
Definition builder_control_timeout_ms (b : ClientBuilder) (ms : Z) : ClientBuilder :=
  mkBuilder (cb_ingest b) (cb_control b) (cb_batch b) (cb_sndhwm b) (cb_linger_ms b) (cb_on_full b)
    ms (cb_max_batch_bytes b).
Definition builder_max_batch_bytes (b : ClientBuilder) (n : Z) : ClientBuilder :=
  mkBuilder (cb_ingest b) (cb_control b) (cb_batch b) (cb_sndhwm b) (cb_linger_ms b) (cb_on_full b)
    (cb_control_timeout_ms b) (Z.max n (BATCH_HEADER_BYTES + 1)).

Definition no_control_endpoint : Error := ConfigErr "cannot derive a control endpoint".

Definition default_control_endpoint (ingest : bytes) : result Error bytes :=
  match rsplit_once (lit ":") ingest with
  | None => Err no_control_endpoint
  | Some (head_, port) =>
      match parse_uint u16_lim port with
      | None => Err no_control_endpoint
      | Some port =>
          if port + 1 <? u16_lim then Ok (head_ ++ lit ":" ++ show (port + 1)) else Err no_control_endpoint
      end
  end.

(** The client [connect] makes before the handshake. *)
Definition client_new (b : ClientBuilder) (answers : list PushResult) : Client :=
  mkClient ∅ [] 0 (cb_batch b) (cb_on_full b) (mkClientStats 0 0 0 0) (cb_max_batch_bytes b)
    (cb_max_batch_bytes b) [] answers.

(** Calls that set a socket up, each with the error it fails with; the first failure ends
    them. *)
Fixpoint setup (calls : list Error) (answers : list ZmqAnswer) : result Error (list ZmqAnswer) :=
  match calls with
  | [] => Ok answers
  | e :: calls' =>
      match answers with
      | [] => setup calls' []
      | ZDone :: answers' => setup calls' answers'
      | _ :: _ => Err e
      end
  end.

(** [Context::socket], two options, [connect]. *)
Definition push_calls : list Error := [zmq_error; zmq_error; zmq_error; ConfigErr "connecting to"].
(** [Context::socket], five options, [connect]. *)
Definition req_calls : list Error :=
  [zmq_error; zmq_error; zmq_error; zmq_error; zmq_error; zmq_error; ConfigErr "connecting to"].

(** [ClientBuilder::connect]: both sockets, then the handshake. *)
Definition connect (b : ClientBuilder) (calls : list ZmqAnswer) (x : Exchange) (answers : list PushResult)
    : result Error (Client * ReqSocket) :=
  calls ← setup push_calls calls;
  endpoint ← match cb_control b with Some c => Ok c | None => default_control_endpoint (cb_ingest b) end;
  _ ← setup req_calls calls;
  let '(q, reply) := control (mkReq (cb_control_timeout_ms b) (cb_control_timeout_ms b) []) SchemaReq x in
  match refresh_schema (client_new b answers) reply with
  | (c, Ok _) => Ok (c, q)
  | (_, Err e) => Err e
  end.
End control.
