(* ===== verification/Server.v ===== *)
(** * Server: the ingest server ([server.rs])

    What the sockets answer is the input of each operation: a poll, the messages queued
    on the PULL socket, the request on the REP socket. The JSON of the control protocol
    is a parameter. *)

From Stdlib Require Import ZArith Lia.
From Stdlib Require Import Strings.Byte.
From S2P Require Import Prelude Text Record Codec CodecProofs CodecTheorems Disk Wal Reader Errors Config Manifest Columns Planner Writer Engine Client.
Open Scope Z_scope.

Definition MAX_BATCHES_PER_POLL : nat := 1024.

Definition VERSION : bytes := lit "0.1.0".

(** [struct Server] without its sockets. *)
Record Server := mkSrv {
  sv_engine : Inner;
  sv_stop : bool;
  sv_batches : Z;
  sv_max_batch_bytes : Z
}.

(** [Server::bind], once the sockets are bound. *)
Definition bind (e : Inner) (c : Config) : Server :=
  mkSrv e false 0 (Z.max (max_batch_bytes (cfg_server c)) 0).

(** [Server::bind]: a PULL socket with two options, a REP socket, each bound. *)
Definition bind_calls : list Error :=
  [zmq_error; zmq_error; zmq_error; ConfigErr "binding"; zmq_error; ConfigErr "binding"].

Definition bind_sockets (calls : list ZmqAnswer) (e : Inner) (c : Config) : result Error Server :=
  _ ← setup bind_calls calls; Ok (bind e c).

Definition set_engine (sv : Server) (e : Inner) : Server :=
  mkSrv e (sv_stop sv) (sv_batches sv) (sv_max_batch_bytes sv).
Definition count_batch (sv : Server) : Server :=
  mkSrv (sv_engine sv) (sv_stop sv) (sv_batches sv + 1) (sv_max_batch_bytes sv).
Definition request_stop (sv : Server) : Server :=
  mkSrv (sv_engine sv) true (sv_batches sv) (sv_max_batch_bytes sv).

(** The answer of [recv_bytes]; with a message, the clock readings of its ingest and
    whether the deadline of a shutdown has passed afterwards. *)
Inductive Recv :=
| Got (msg : bytes) (nows : nat -> Z) (wnow : Z) (late : bool)
| RecvAgain
| RecvIntr
| RecvErr.

(** [serde_json] at the two protocol types; [json_error] is the text of the error of a
    response that cannot be printed. *)
Class ControlJson := {
  request_from_bytes : bytes -> option ControlRequest;
  response_to_bytes : ControlResponse -> option bytes;
  json_error : ControlResponse -> bytes
}.

(** [format!] of the reply that stands in for it. *)
Definition quoted (s : bytes) : bytes := x22 :: s ++ [x22].
Definition plain_error (e : bytes) : bytes :=
  lit "{" ++ quoted (lit "status") ++ lit ":" ++ quoted (lit "error") ++ lit "," ++ quoted (lit "message")
  ++ lit ":" ++ quoted e ++ lit "}".

Section server.
Context `{Crc32} `{Parquet} `{ManifestJson} `{ControlJson} `{StdText}.

(** [Server::ingest_batch]; the counts it compares only go to the log. *)
Definition ingest_batch (sv : Server) (msg : bytes) (nows : nat -> Z) (wnow : Z) : io Server :=
  match parse_batch_header msg with
  | Err _ => mret sv
  | Ok _ =>
      r ← append_raw (sv_engine sv) nows wnow (drop (Z.to_nat BATCH_HEADER_BYTES) msg);
      mret (set_engine sv r.1)
  end.

(** [Server::drain_ingest]: at most [fuel] answers of the queue. *)
Fixpoint drain_ingest (fuel : nat) (sv : Server) (queue : list Recv)
    : io (Server * list Recv * result Error unit) :=
  match fuel with
  | O => mret (sv, queue, Ok tt)
  | S fuel' =>
      match queue with
      | Got msg nows wnow _ :: queue' =>
          sv ← ingest_batch (count_batch sv) msg nows wnow;
          drain_ingest fuel' sv queue'
      | RecvIntr :: queue' => drain_ingest fuel' sv queue'
      | RecvErr :: queue' => mret (sv, queue', Err zmq_error)
      | RecvAgain :: queue' => mret (sv, queue', Ok tt)
      | [] => mret (sv, [], Ok tt)
      end
  end.

(** [Server::drain_for_shutdown]. *)
Fixpoint drain_for_shutdown (sv : Server) (queue : list Recv) : io (Server * result Error unit) :=
  match queue with
  | Got msg nows wnow late :: queue' =>
      sv ← ingest_batch (count_batch sv) msg nows wnow;
      if late : bool then mret (sv, Ok tt) else drain_for_shutdown sv queue'
  | RecvIntr :: queue' => drain_for_shutdown sv queue'
  | RecvErr :: _ => mret (sv, Err zmq_error)
  | RecvAgain :: _ => mret (sv, Ok tt)
  | [] => mret (sv, Ok tt)
  end.

(** [Server::schema]. *)
Definition server_schema (sv : Server) : list SeriesSchema :=
  sort_by_key ss_name ((fun h => mkSchema (sh_name h) (sh_epoch h) (sh_keys h)) <$> (map_to_list (i_handles (sv_engine sv))).*2).

(** [Server::handle]. *)
Definition handle (sv : Server) (req : ControlRequest) (now wnow : Z) : io (Server * ControlResponse) :=
  match req with
  | Ping => mret (sv, Pong VERSION)
  | StatsReq =>
      st ← engine_stats (sv_engine sv);
      mret (sv, StatsResp (mkStatsPayload st (sv_batches sv)))
  | FlushReq =>
      r ← flush (sv_engine sv) now wnow;
      let sv := set_engine sv r.1 in
      mret (sv, match r.2 with
                | Ok o => Client.Flushed (mkFlushPayload (segments_consumed o) (rows_written o) (rows_deduplicated o)
                                    (frames_rejected o))
                | Err e => ErrorResp (error_text e)
                end)
  | SchemaReq => mret (sv, SchemaResp (server_schema sv) (Some (sv_max_batch_bytes sv)))
  | ReloadConfig =>
      mret (sv, ErrorResp "reload-config is not implemented yet; restart the server to adopt a new config")
  | Shutdown => mret (request_stop sv, ShuttingDown)
  end.

(** The answer of the REP socket, and whether the reply could be sent. *)
Inductive Control := Asked (msg : bytes) (now wnow : Z) (sent : bool) | ControlIntr | ControlErr.

(** [Server::serve_control]: the state, the reply sent and the result. *)
Definition serve_control (sv : Server) (c : Control) : io (Server * option bytes * result Error unit) :=
  match c with
  | ControlIntr => mret (sv, None, Ok tt)
  | ControlErr => mret (sv, None, Err zmq_error)
  | Asked msg now wnow sent =>
      r ← match request_from_bytes msg with
          | Some req => handle sv req now wnow
          | None => mret (sv, ErrorResp "unparseable request")
          end;
      let '(sv, reply) := r in
      let text := default (plain_error (json_error reply)) (response_to_bytes reply) in
      mret (if sent : bool then (sv, Some text, Ok tt) else (sv, None, Err zmq_error))
  end.

(** What a poll reports: an error, an interruption, or the readable sockets. *)
Inductive Poll :=
| PollErr
| PollIntr
| Readable (ingest : option (list Recv)) (control : option Control).

(** [Server::serve] over the coming polls; after the last one the stop handle is set. *)
Fixpoint serve (sv : Server) (polls : list Poll) : io (Server * result Error unit) :=
  if sv_stop sv then mret (sv, Ok tt)
  else
    match polls with
    | [] => mret (request_stop sv, Ok tt)
    | PollErr :: _ => mret (sv, Err zmq_error)
    | PollIntr :: polls' => serve sv polls'
    | Readable ingest control :: polls' =>
        r ← match ingest with
            | Some queue => r ← drain_ingest MAX_BATCHES_PER_POLL sv queue; mret (r.1.1, r.2)
            | None => mret (sv, Ok tt)
            end;
        let '(sv, r) := r in
        match r with
        | Err e => mret (sv, Err e)
        | Ok _ =>
            r ← match control with
                | Some c => r ← serve_control sv c; mret (r.1.1, r.2)
                | None => mret (sv, Ok tt)
                end;
            let '(sv, r) := r in
            match r with
            | Err e => mret (sv, Err e)
            | Ok _ => serve sv polls'
            end
        end
    end.

(** [Server::shutdown]: nothing is closed when the drain fails. *)
Definition shutdown (sv : Server) (queue : list Recv) (wnow : Z) : io (Server * result Error unit) :=
  r ← drain_for_shutdown sv queue;
  let '(sv, r) := r in
  match r with
  | Err e => mret (sv, Err e)
  | Ok _ =>
      r ← engine_close (sv_engine sv) wnow;
      mret (set_engine sv r.1, r.2)
  end.

(** [Server::run]. *)
Definition server_run (sv : Server) (polls : list Poll) (queue : list Recv) (wnow : Z)
    : io (Server * result Error unit) :=
  r ← serve sv polls;
  let '(sv, outcome) := r in
  r ← shutdown sv queue wnow;
  let '(sv, closed) := r in
  mret (sv, match outcome with Err e => Err e | Ok _ => closed end).
End server.
