(* ===== verification/Wire.v ===== *)
(** * Wire: a control call from the client to the server and back

    The client's [control] and the server's [serve_control] meet in the bytes of the REQ
    and REP sockets. [ControlLaws] is what serde promises of the two protocol types; a
    concrete encoding satisfies it. *)

From Stdlib Require Import ZArith Lia.
From Stdlib Require Import Strings.Byte.
From stdpp Require Import countable.
From S2P Require Import Prelude Text Record Codec Reader Errors Disk Config Manifest Columns ColumnsTheorems Planner Engine EngineTheorems Client Server.
Open Scope Z_scope.

(** Both sides use one JSON. *)
Class ControlLaws `{ClientJson, ControlJson} := {
  request_roundtrip r : exists b, request_to_bytes r = Some b /\ request_from_bytes b = Some r;
  response_roundtrip r : exists b, response_to_bytes r = Some b /\ response_from_bytes b = Some r
}.

(** The timeout a call leaves in force: the one of the client, unless a flush could not
    restore it. *)
Definition timeout_after (q : ReqSocket) (req : ControlRequest) (restore : ZmqAnswer) : Z :=
  if is_slow req then match restore with ZDone => rq_control_timeout q | _ => FLUSH_TIMEOUT_MS end
  else rq_timeout q.

Section wire.
Context `{Crc32} `{Parquet} `{ManifestJson} `{ControlLaws} `{StdText}.

(** The exchange of a request the socket takes and answers. *)
Definition answered (reply : bytes) (restore : ZmqAnswer) : Exchange := mkExchange ZDone ZDone (inl reply) restore.

Lemma control_answered q req b restore r : request_to_bytes req = Some b ->
  forall reply, response_from_bytes reply = Some r ->
  exists q', control q req (answered reply restore) = (q', Ok r) /\
    rq_sent q' = rq_sent q ++ [b] /\ rq_control_timeout q' = rq_control_timeout q /\
    rq_timeout q' = timeout_after q req restore.
Proof.
  intros Hb reply Hr. unfold control, timeout_after. destruct (is_slow req).
  - unfold control_inner. cbn [set_rcvtimeo answered ex_set ex_send ex_recv ex_restore]. rewrite Hb, Hr.
    eexists. split; [done|]. by destruct restore.
  - unfold control_inner. cbn [answered ex_send ex_recv]. rewrite Hb, Hr. by eexists.
Qed.

(** C28: A control call is the server's handler. When the sockets work, [Client::control]
    of a request sends one message; [serve_control] on that message runs [handle] on the
    same request and replies once; and the client returns exactly the handler's response,
    with its own receive timeout in force again unless restoring it failed after a
    flush. *)
Theorem control_is_handle q req restore sv now wnow w sv' resp w' :
  handle sv req now wnow w = (w', Ret (sv', resp)) ->
  exists msg reply q',
    serve_control sv (Asked msg now wnow true) w = (w', Ret (sv', Some reply, Ok tt)) /\
    control q req (answered reply restore) = (q', Ok resp) /\
    rq_sent q' = rq_sent q ++ [msg] /\ rq_control_timeout q' = rq_control_timeout q /\
    rq_timeout q' = timeout_after q req restore.
Proof.
  intros Hh. destruct (request_roundtrip req) as (msg & Hm & Hm'), (response_roundtrip resp) as (reply & Hr & Hr').
  destruct (control_answered q req msg restore resp Hm reply Hr') as (q' & Hc & Hq). exists msg, reply, q'.
  split; [|done]. unfold serve_control. rewrite Hm'. unfold mbind, io_bind. cbn [exec]. rewrite Hh. by rewrite Hr.
Qed.

(** A call that fails says so, and changes at most the timeout. *)
Lemma control_fails q req x : (forall reply, ex_recv x <> inl reply) ->
  exists e, (control q req x).2 = Err e.
Proof.
  intros Hx. assert (forall q, exists e, (control_inner q req x).2 = Err e) as Hi.
  { intros q0. unfold control_inner. destruct (request_to_bytes req); [|by eexists].
    destruct (ex_send x); [|by eexists..]. destruct (ex_recv x) as [reply|]; [by destruct (Hx reply)|by eexists]. }
  unfold control. destruct (is_slow req); [|apply Hi]. destruct (set_rcvtimeo q _ _) as [q1 [|e]]; [|by exists e].
  destruct (Hi q1) as [e He]. exists e. by destruct (control_inner q1 req x).
Qed.

(** Connecting to a running server: the new client knows the server's series. *)
Lemma connect_to_server b sv now wnow w answers : cb_control b <> None ->
  exists msg reply q,
    serve_control sv (Asked msg now wnow true) w = (w, Ret (sv, Some reply, Ok tt)) /\
    connect b [] (answered reply ZDone) answers
    = Ok ((refresh_schema (client_new b answers) (Ok (SchemaResp (server_schema sv) (Some (sv_max_batch_bytes sv))))).1, q).
Proof.
  intros Hb. set (q0 := mkReq (cb_control_timeout_ms b) (cb_control_timeout_ms b) []).
  destruct (request_roundtrip SchemaReq) as (msg & Hm & Hm').
  destruct (response_roundtrip (SchemaResp (server_schema sv) (Some (sv_max_batch_bytes sv)))) as (reply & Hr & Hr').
  destruct (control_answered q0 SchemaReq msg ZDone _ Hm reply Hr') as (q & Hc & _). exists msg, reply, q. split.
  - unfold serve_control. rewrite Hm'. rewrite exec_bind. cbn [handle]. rewrite exec_ret. by rewrite Hr.
  - unfold connect. cbn [setup push_calls mbind result_bind]. destruct (cb_control b); [|done].
    cbn [setup req_calls mbind result_bind]. fold q0. by rewrite Hc.
Qed.
End wire.

(** ** Instances *)

(** Requests and responses as numbers, in binary. *)
#[export] Instance request_eq_dec : EqDecision ControlRequest.
Proof. solve_decision. Defined.

#[export] Instance request_countable : Countable ControlRequest.
Proof.
  refine (inj_countable'
    (fun r => match r with Ping => 0 | StatsReq => 1 | FlushReq => 2 | SchemaReq => 3 | ReloadConfig => 4 | Shutdown => 5 end%nat)
    (fun n => match n with 0 => Ping | 1 => StatsReq | 2 => FlushReq | 3 => SchemaReq | 4 => ReloadConfig | _ => Shutdown end%nat) _).
  by intros [].
Defined.

#[export] Instance schema_eq_dec : EqDecision SeriesSchema.
Proof. solve_decision. Defined.

#[export] Instance schema_countable : Countable SeriesSchema.
Proof.
  refine (inj_countable' (fun s => (ss_name s, ss_epoch s, ss_keys s)) (fun '(n, e, k) => mkSchema n e k) _). by intros [].
Defined.

#[export] Instance stats_eq_dec : EqDecision Stats.
Proof. solve_decision. Defined.

#[export] Instance stats_payload_eq_dec : EqDecision StatsPayload.
Proof. solve_decision. Defined.

#[export] Instance stats_payload_countable : Countable StatsPayload.
Proof.
  refine (inj_countable' (fun s => let e := sp_engine s in
      ((st_appended e, st_rejected_ts e, st_rejected_size e, st_rejected_series e, st_rejected_frames e, st_flush_failures e),
       (st_rows_flushed e, st_rows_deduplicated e, st_wal_bytes e, st_wal_total_bytes e, st_segment e), sp_batches_received s))
    (fun '((a, b, c, d, e, f), (g, h, i, j, k), n) => mkStatsPayload (mkStats a b c d e f g h i j k) n) _).
  by intros [[] ].
Defined.

#[export] Instance flush_payload_eq_dec : EqDecision FlushPayload.
Proof. solve_decision. Defined.

#[export] Instance flush_payload_countable : Countable FlushPayload.
Proof.
  refine (inj_countable' (fun f => (fp_segments_consumed f, fp_rows_written f, fp_rows_deduplicated f, fp_frames_rejected f))
    (fun '(a, b, c, d) => mkFlushPayload a b c d) _). by intros [].
Defined.

#[export] Instance response_eq_dec : EqDecision ControlResponse.
Proof. solve_decision. Defined.

#[export] Instance response_countable : Countable ControlResponse.
Proof.
  refine (inj_countable'
    (fun r => match r with
      | Pong v => inl (inl v) | StatsResp p => inl (inr p)
      | Flushed p => inr (inl (inl p)) | SchemaResp s m => inr (inl (inr (s, m)))
      | ShuttingDown => inr (inr None) | ErrorResp e => inr (inr (Some e)) end)
    (fun c => match c with
      | inl (inl v) => Pong v | inl (inr p) => StatsResp p
      | inr (inl (inl p)) => Flushed p | inr (inl (inr (s, m))) => SchemaResp s m
      | inr (inr None) => ShuttingDown | inr (inr (Some e)) => ErrorResp e end) _).
  by intros [].
Defined.

Definition number_bytes `{Countable A} (a : A) : bytes := binary (countable.encode a) ++ [x0a].
Definition number_value `{Countable A} (b : bytes) : option A := n ← of_binary b; countable.decode n.

Lemma number_value_bytes `{Countable A} (a : A) : number_value (number_bytes a) = Some a.
Proof. unfold number_value, number_bytes. rewrite of_binary_binary. cbn. apply countable.decode_encode. Qed.

Definition client_numbers : ClientJson := {|
  request_to_bytes r := Some (number_bytes r);
  response_from_bytes := number_value
|}.

Definition control_numbers : ControlJson := {|
  request_from_bytes := number_value;
  response_to_bytes r := Some (number_bytes r);
  json_error _ := []
|}.

Definition number_laws : @ControlLaws client_numbers control_numbers.
Proof. split; intros r; exists (number_bytes r); (split; [done|apply number_value_bytes]). Qed.

#[local] Existing Instance Crc32_ieee.
#[local] Existing Instance count_parquet.
#[local] Existing Instance NumberJson.
#[local] Existing Instance client_numbers.
#[local] Existing Instance control_numbers.

#[local] Existing Instance number_laws.
#[local] Existing Instance linux_text.

(** A server that runs, and a client that asks it to stop. *)
Definition running : Server := bind sample_engine sample_config.

Lemma control_is_handle_witness : exists msg reply q',
  serve_control running (Asked msg 0 0 true) (mkWorld ∅ [])
    = (mkWorld ∅ [], Ret (request_stop running, Some reply, Ok tt)) /\
  control (mkReq 5000 5000 []) Shutdown (answered reply ZDone) = (q', Ok ShuttingDown) /\ rq_timeout q' = 5000.
Proof.
  destruct (control_is_handle (mkReq 5000 5000 []) Shutdown ZDone running 0 0
    (mkWorld ∅ []) (request_stop running) ShuttingDown (mkWorld ∅ [])) as (msg & reply & q' & H1 & H2 & _ & _ & H3).
  - reflexivity.
  - exists msg, reply, q'. exact (conj H1 (conj H2 H3)).
Defined.
