(* ===== verification/ClientTheorems.v ===== *)
(** * ClientTheorems: what the ingest client puts on the wire *)

From Stdlib Require Import ZArith Lia.
From Stdlib Require Import Strings.Byte.
From S2P Require Import Prelude Text Record Codec CodecProofs CodecTheorems Reader Config Engine Client Server Wire.
Open Scope Z_scope.

Section client.
Context `{Crc32}.

(** The frame of a row sent for a series. *)
Definition sent_frame (s : SeriesSchema) (row : Row) : bytes := written_frame (mkWritten (ss_name s) (ss_epoch s) row).

(** The message of a batch of frames. *)
Definition message (fs : list bytes) : bytes := encode_batch_header [] (zlen fs mod u32_lim) ++ concat fs.

(** The buffer holds these frames. *)
Record held (c : Client) (fs : list bytes) : Prop := {
  hd_buf : cl_buf c = concat fs;
  hd_pending : cl_pending c = zlen fs;
  hd_frames : Forall (fun f => f <> []) fs
}.

(** A record that can be sent at all. *)
Definition sendable (c : Client) (s : SeriesSchema) (row : Row) : Prop :=
  fits (ss_name s) (ss_epoch s) row = true /\ BATCH_HEADER_BYTES + zlen (sent_frame s row) <= cl_max c.

#[export] Instance sendable_dec c s row : Decision (sendable c s row).
Proof. unfold sendable. apply _. Defined.

(** What happened to a batch. *)
Inductive fate := Delivered | Discarded.

Definition delivered (h : list (fate * list bytes)) : list (list bytes) :=
  omap (fun x => match x.1 with Delivered => Some x.2 | Discarded => None end) h.

(** The whole story of a client: the batches that left the buffer, what it holds, and
    the frames it took, in order. *)
Record story (c : Client) (h : list (fate * list bytes)) (fs accepted_ : list bytes) : Prop := {
  sy_held : held c fs;
  sy_order : concat h.*2 ++ fs = accepted_;
  sy_out : cl_out c = message <$> delivered h;
  sy_size : Forall (fun x => BATCH_HEADER_BYTES + zlen (concat x.2) <= cl_max c) h;
  sy_fits : BATCH_HEADER_BYTES + zlen (cl_buf c) <= cl_max c;
  sy_count : records_sent (cl_stats c) + records_dropped (cl_stats c) + cl_pending c = zlen accepted_;
  sy_batch : 1 <= cl_batch c
}.

(** The socket fails in no other way than being full. *)
Definition working (c : Client) : Prop := Broken ∉ cl_answers c.

Lemma held_nil c fs : held c fs -> (cl_pending c =? 0) = bool_decide (fs = []).
Proof. intros [_ -> _]. destruct fs; [done|]. rewrite bool_decide_false by done. apply Z.eqb_neq. rewrite zlen_cons. zlen_lia. Qed.

Lemma concat_nonempty (fs : list bytes) : Forall (fun f => f <> []) fs -> concat fs = [] -> fs = [].
Proof. intros Hf E. destruct Hf as [|f fs Hf _]; [done|]. cbn in E. by apply app_eq_nil in E as [? _]. Qed.

Lemma omap_snoc {A B} (f : A -> option B) l x : omap f (l ++ [x]) = omap f l ++ option_list (f x).
Proof. rewrite omap_app. cbn. by destruct (f x). Qed.

(** A flush empties the buffer and changes nothing else of the story. *)
Lemma flush_story c h fs acc : story c h fs acc -> working c ->
  exists c' h', client_flush c = (c', Ok tt) /\ story c' h' [] acc /\ working c' /\ cl_max c' = cl_max c /\
    cl_batch c' = cl_batch c.
Proof.
  intros [Hh Ho Hout Hs Hf Hc Hb] Hw. unfold client_flush. rewrite (held_nil c fs Hh).
  destruct (bool_decide_reflect (fs = [])) as [->|Hne].
  { exists c, h. split_and!; [done|by split|done|done|done]. }
  destruct (Z.ltb_spec (cl_max c) (BATCH_HEADER_BYTES + zlen (cl_buf c))); [lia|].
  assert (batch_message c = message fs) as Em by (unfold batch_message, message; by destruct Hh as [-> -> _]).
  unfold push_send. rewrite Em. destruct Hh as [Eb Ep Hfr].
  assert (forall a rest, cl_answers c = a :: rest -> Broken ∉ rest /\ a <> Broken) as Hans.
  { intros a rest E. unfold working in Hw. rewrite E, not_elem_of_cons in Hw. split; [apply Hw|]. destruct Hw. congruence. }
  assert (Broken ∉ drop 1 (cl_answers c)) as Hrest by (destruct (cl_answers c) as [|a rest] eqn:E; [set_solver|by apply (Hans a rest)]).
  assert (Forall (fun x : fate * list bytes => BATCH_HEADER_BYTES + zlen (concat x.2) <= cl_max c) (h ++ [(Delivered, fs)]) /\
          Forall (fun x : fate * list bytes => BATCH_HEADER_BYTES + zlen (concat x.2) <= cl_max c) (h ++ [(Discarded, fs)])) as [Hs1 Hs2].
  { split; apply Forall_app; split; [done| |done|]; apply Forall_singleton; cbn; rewrite <-Eb; lia. }
  assert (forall f, concat (h ++ [(f, fs)]).*2 ++ [] = acc) as Hord.
  { intros f. rewrite fmap_app, concat_app. cbn. rewrite !app_nil_r. done. }
  assert (BATCH_HEADER_BYTES + zlen (@nil byte) <= cl_max c) as Hz by (rewrite zlen_nil; pose proof (zlen_nonneg (cl_buf c)); lia).
  destruct (match cl_answers c with [] => Accepted | a :: _ => a end) eqn:Ea.
  - eexists _, (h ++ [(Delivered, fs)]). split_and!; [done| |done|done|done].
    split; cbn; [by split|apply Hord| |exact Hs1|exact Hz|lia|done].
    rewrite Hout. unfold delivered. rewrite omap_snoc, fmap_app. done.
  - eexists _, (h ++ [(Discarded, fs)]). split_and!; [done| |done|done|done].
    split; cbn; [by split|apply Hord| |exact Hs2|exact Hz|lia|done].
    rewrite Hout. unfold delivered. rewrite omap_snoc, fmap_app. cbn. by rewrite app_nil_r.
  - exfalso. destruct (cl_answers c) as [|a rest] eqn:E; [done|]. subst a. by destruct (Hans Broken rest eq_refl).
Qed.

(** Counting a record that is already in the buffer. *)
Lemma counted_story c h fs f acc : f <> [] -> story c h fs acc -> working c ->
  BATCH_HEADER_BYTES + zlen (cl_buf c ++ f) <= cl_max c ->
  exists c' h' fs', send_counted (set_buf c (cl_buf c ++ f) (cl_pending c)) = (c', Ok tt) /\
    story c' h' fs' (acc ++ [f]) /\ working c' /\ cl_max c' = cl_max c.
Proof.
  intros Hf [Hh Ho Hout Hs Hfit Hc Hb] Hw Hsz. unfold send_counted. cbn.
  set (c1 := set_buf _ _ _).
  assert (story c1 h (fs ++ [f]) (acc ++ [f])) as Hst.
  { destruct Hh as [Eb Ep Hfr]. split; cbn; [|by rewrite app_assoc, Ho|done|done|done| |done].
    - split; cbn; [by rewrite concat_app, Eb; cbn; rewrite app_nil_r|rewrite zlen_app; unfold zlen at 2; cbn; lia|].
      apply Forall_app. split; [done|]. by apply Forall_singleton.
    - rewrite zlen_app. unfold zlen at 2. cbn. lia. }
  destruct (_ <=? _).
  - destruct (flush_story c1 h _ _ Hst Hw) as (c' & h' & E & Hs' & Hw' & Em & _). exists c', h', [].
    split_and!; [exact E|done|done|by rewrite Em].
  - exists c1, h, (fs ++ [f]). split_and!; done.
Qed.

Lemma set_buf_same c : set_buf c (cl_buf c) (cl_pending c) = c.
Proof. by destruct c. Qed.

(** The buffer and the new frame, as [send] splits them. *)
Lemma split_frame (buf f : bytes) :
  take (Z.to_nat (zlen buf)) (buf ++ f) = buf /\ drop (Z.to_nat (zlen buf)) (buf ++ f) = f.
Proof. unfold zlen. rewrite Nat2Z.id. by rewrite take_app_length, drop_app_length. Qed.

Lemma sent_frame_nonempty s row : sent_frame s row <> [].
Proof.
  intros E. assert (zlen (sent_frame s row) = 0) as E0 by (by rewrite E).
  unfold sent_frame, written_frame in E0. rewrite zlen_frame_of in E0. unfold FRAME_HEADER_BYTES in E0. zlen_lia.
Qed.

(** A record that cannot be sent leaves the client as it was. *)
Lemma send_refused c s row : ~ sendable c s row -> exists e, send c s row = (c, Err e).
Proof.
  intros Hn. unfold send. pose proof (encode_result (cl_buf c) (ss_name s) (ss_epoch s) row) as Hr.
  destruct (fits (ss_name s) (ss_epoch s) row) eqn:Ef.
  - rewrite Hr. change (frame_of (payload_of (ss_name s) (ss_epoch s) row)) with (sent_frame s row).
    rewrite (proj1 (split_frame _ _)), set_buf_same.
    replace (zlen (cl_buf c ++ sent_frame s row) - zlen (cl_buf c)) with (zlen (sent_frame s row)) by (rewrite zlen_app; lia).
    destruct (Z.ltb_spec (cl_max c) (BATCH_HEADER_BYTES + zlen (sent_frame s row))); [by eexists|].
    exfalso. apply Hn. by split.
  - destruct Hr as (size & limit & ->). rewrite set_buf_same. by eexists.
Qed.

Lemma send_story c h fs acc s row : story c h fs acc -> working c -> sendable c s row ->
  exists c' h' fs', send c s row = (c', Ok tt) /\ story c' h' fs' (acc ++ [sent_frame s row]) /\
    working c' /\ cl_max c' = cl_max c.
Proof.
  intros Hst Hw [Hfit Hsz]. unfold send. pose proof (encode_result (cl_buf c) (ss_name s) (ss_epoch s) row) as Hr.
  rewrite Hfit in Hr. rewrite Hr. change (frame_of (payload_of (ss_name s) (ss_epoch s) row)) with (sent_frame s row).
  destruct (split_frame (cl_buf c) (sent_frame s row)) as [-> ->].
  replace (zlen (cl_buf c ++ sent_frame s row) - zlen (cl_buf c)) with (zlen (sent_frame s row)) by (rewrite zlen_app; lia).
  pose proof (sent_frame_nonempty s row) as Hne. set (f := sent_frame s row) in *.
  destruct (Z.ltb_spec (cl_max c) (BATCH_HEADER_BYTES + zlen f)); [lia|].
  destruct (_ && _) eqn:Ebig.
  - rewrite set_buf_same. destruct (flush_story c h fs acc Hst Hw) as (c1 & h1 & -> & Hst1 & Hw1 & Em & _).
    destruct (counted_story c1 h1 [] f acc Hne Hst1 Hw1) as (c' & h' & fs' & E & Hs' & Hw' & Em').
    { destruct Hst1 as [[Eb _ _] _ _ _ _ _ _]. rewrite Eb, Em. cbn [concat app]. lia. }
    exists c', h', fs'. split_and!; [done|done|done|congruence].
  - apply (counted_story c h fs f acc Hne Hst Hw). destruct (Z.ltb_spec 0 (zlen (cl_buf c))); cbn [andb] in Ebig.
    + apply Z.ltb_ge in Ebig. lia.
    + assert (cl_buf c = []) as -> by (apply zlen_zero; zlen_lia). cbn [app]. lia.
Qed.

(** ** A run of the client *)

Inductive cevent := SendE (s : SeriesSchema) (row : Row) | FlushE.

(** The client after the events, and the results of its calls. *)
Fixpoint crun (c : Client) (evs : list cevent) : Client * list (result Error unit) :=
  match evs with
  | [] => (c, [])
  | ev :: evs' =>
      let '(c, r) := match ev with SendE s row => send c s row | FlushE => client_flush c end in
      let '(c, rs) := crun c evs' in
      (c, r :: rs)
  end.

(** The frames of the records that can be sent. *)
Fixpoint frames_accepted (c : Client) (evs : list cevent) : list bytes :=
  match evs with
  | [] => []
  | SendE s row :: evs' => (if decide (sendable c s row) then [sent_frame s row] else []) ++ frames_accepted c evs'
  | FlushE :: evs' => frames_accepted c evs'
  end.

Definition call_ok (c : Client) (ev : cevent) (r : result Error unit) : Prop :=
  match ev with SendE s row => r = Ok tt <-> sendable c s row | FlushE => r = Ok tt end.

Lemma frames_accepted_max c c' evs : cl_max c' = cl_max c -> frames_accepted c' evs = frames_accepted c evs.
Proof.
  intros E. induction evs as [|[s row|] evs IH]; cbn [frames_accepted]; [done| |done].
  rewrite IH. assert (sendable c' s row <-> sendable c s row) as Hiff by (unfold sendable; by rewrite E).
  destruct (decide (sendable c' s row)), (decide (sendable c s row)); tauto || done.
Qed.

Lemma call_ok_max c c' evs rs : cl_max c' = cl_max c -> Forall2 (call_ok c') evs rs -> Forall2 (call_ok c) evs rs.
Proof.
  intros E Hf. eapply Forall2_impl; [exact Hf|]. intros [s row|] r; [|done]. cbn. unfold sendable. by rewrite E.
Qed.

Lemma crun_story c h fs acc evs : story c h fs acc -> working c ->
  exists h' fs', story (crun c evs).1 h' fs' (acc ++ frames_accepted c evs) /\
    cl_max (crun c evs).1 = cl_max c /\ Forall2 (call_ok c) evs (crun c evs).2.
Proof.
  revert c h fs acc. induction evs as [|ev evs IH]; intros c h fs acc Hst Hw; cbn [crun].
  { exists h, fs. cbn. rewrite app_nil_r. split_and!; [done|done|constructor]. }
  assert (forall c1 h1 fs1 acc1 r, story c1 h1 fs1 acc1 -> working c1 -> cl_max c1 = cl_max c -> call_ok c ev r ->
    acc1 ++ frames_accepted c evs = acc ++ frames_accepted c (ev :: evs) ->
    exists h' fs', story (let '(c, rs) := crun c1 evs in (c, r :: rs)).1 h' fs' (acc ++ frames_accepted c (ev :: evs)) /\
      cl_max (let '(c, rs) := crun c1 evs in (c, r :: rs)).1 = cl_max c /\
      Forall2 (call_ok c) (ev :: evs) (let '(c, rs) := crun c1 evs in (c, r :: rs)).2) as Hnext.
  { intros c1 h1 fs1 acc1 r Hst1 Hw1 Em Hr Hacc. destruct (IH c1 h1 fs1 acc1 Hst1 Hw1) as (h' & fs' & Hs & Em' & Hf).
    destruct (crun c1 evs) as [c2 rs]. cbn in *. exists h', fs'.
    rewrite (frames_accepted_max c c1 evs Em), Hacc in Hs. split_and!; [done|congruence|]. constructor; [done|]. by eapply call_ok_max. }
  destruct ev as [s row|].
  - destruct (decide (sendable c s row)) as [Hs|Hn].
    + destruct (send_story c h fs acc s row Hst Hw Hs) as (c1 & h1 & fs1 & -> & Hst1 & Hw1 & Em).
      apply (Hnext c1 h1 fs1 (acc ++ [sent_frame s row])); [done|done|done|done|].
      cbn [frames_accepted]. rewrite decide_True by done. by rewrite <-app_assoc.
    + destruct (send_refused c s row Hn) as [e ->]. apply (Hnext c h fs acc); [done|done|done| |].
      * cbn. split; [done|tauto].
      * cbn [frames_accepted]. by rewrite decide_False by done.
  - destruct (flush_story c h fs acc Hst Hw) as (c1 & h1 & -> & Hst1 & Hw1 & Em & _).
    by apply (Hnext c1 h1 [] acc).
Qed.

(** A connected client is new but for the schema and the limit. *)
Lemma connect_new `{ClientJson} b calls x answers c q : connect b calls x answers = Ok (c, q) ->
  exists series max, c = (refresh_schema (client_new b answers) (Ok (SchemaResp series max))).1.
Proof.
  unfold connect. destruct (setup push_calls calls) as [rest|]; [|done]. cbn [mbind result_bind].
  destruct (match cb_control b with Some c => _ | None => _ end); [|done]. cbn [mbind result_bind].
  destruct (setup req_calls rest); [|done]. cbn [mbind result_bind].
  destruct (control _ _ _) as [q' reply]. destruct reply as [[]|]; try done. intros [= <- _]. by eexists _, _.
Qed.

(** C26: The client's stream is exact. For a connected client whose socket is at worst
    full, and any sequence of sends and flushes: a send succeeds iff the record can be
    encoded and fits the agreed message limit on its own, and a refused one leaves the
    client as it is; every flush succeeds. The frames of the accepted records, in order and each
    once, are the batches that left the buffer followed by the buffered ones; the
    messages on the wire are exactly the delivered batches, none longer than the limit,
    with a header whose count is the number of frames; and sent, dropped and pending
    records add up to the accepted ones. *)
Theorem client_stream_exact `{ClientJson} b calls x answers c q evs :
  connect b calls x answers = Ok (c, q) -> 1 <= cb_batch b -> BATCH_HEADER_BYTES <= cl_max c -> Broken ∉ answers ->
  let '(c', rs) := crun c evs in
  Forall2 (call_ok c) evs rs /\
  (forall s row, ~ sendable c s row -> exists e, send c' s row = (c', Err e)) /\
  exists h fs, story c' h fs (frames_accepted c evs) /\
    Forall (fun msg => zlen msg <= cl_max c) (cl_out c') /\
    Forall (fun b => parse_batch_header (message b) = Ok (zlen b mod u32_lim)) (delivered h).
Proof.
  intros Hc Hb Hm Hans. assert (story c [] [] [] /\ working c) as [Hst Hw].
  { destruct (connect_new b calls x answers c q Hc) as (series & max & ->). split; [|exact Hans]. by split. }
  destruct (crun_story c [] [] [] evs Hst Hw) as (h & fs & Hs & Em & Hf). destruct (crun c evs) as [c' rs].
  cbn in *. split; [done|]. split; [intros s row Hn; apply send_refused; unfold sendable in *; by rewrite Em|].
  exists h, fs. split; [done|]. destruct Hs as [_ _ Hout Hsz _ _ _]. split.
  - rewrite Hout. apply Forall_fmap, Forall_forall. intros b' Hb'. unfold delivered in Hb'.
    apply list_elem_of_omap in Hb' as ([f l] & Hin & E). rewrite Forall_forall in Hsz. specialize (Hsz _ Hin). cbn [fst snd] in *.
    destruct f; [injection E as <-|done]. unfold compose, message. rewrite zlen_app. change (zlen (encode_batch_header [] _)) with BATCH_HEADER_BYTES. lia.
  - apply Forall_forall. intros l _. apply (parse_header_iff (message l) BATCH_HEADER_BYTES 4 _ eq_refl).
    split; [apply Z.mod_pos_bound; done|]. by eexists.
Qed.

(** C37: A lower limit wedges the client. When a repeated handshake lowers the agreed
    message limit below what is already buffered, the buffer can never leave: every
    later flush and every later send fails and changes nothing, and dropping the client
    discards the records. *)
Theorem lower_limit_wedges c h fs acc series n :
  story c h fs acc -> fs <> [] -> n < BATCH_HEADER_BYTES + zlen (cl_buf c) ->
  let c' := (refresh_schema c (Ok (SchemaResp series (Some n)))).1 in
  (exists e, client_flush c' = (c', Err e)) /\
  (forall s row, exists e, send c' s row = (c', Err e)) /\
  client_drop c' = c' /\ cl_out c' = cl_out c /\ 0 < cl_pending c'.
Proof.
  intros [Hh _ _ _ _ _ _] Hne Hn. cbn. set (c' := mkClient _ _ _ _ _ _ _ _ _ _).
  assert (cl_max c' < BATCH_HEADER_BYTES + zlen (cl_buf c')) as Hbig by (cbn; lia).
  assert (held c' fs) as Hh' by (by destruct Hh).
  assert (0 < cl_pending c') as Hpos. { destruct Hh' as [_ -> _]. destruct fs; [done|]. rewrite zlen_cons. zlen_lia. }
  assert (exists e, client_flush c' = (c', Err e)) as Hflush.
  { unfold client_flush. destruct (Z.eqb_spec (cl_pending c') 0); [lia|].
    destruct (Z.ltb_spec (cl_max c') (BATCH_HEADER_BYTES + zlen (cl_buf c'))); [by eexists|lia]. }
  split_and!; [done| | |done|done].
  - intros s row. destruct (decide (sendable c' s row)) as [[Hfit Hsz]|Hns]; [|by apply send_refused].
    unfold send. pose proof (encode_result (cl_buf c') (ss_name s) (ss_epoch s) row) as Hr.
    rewrite Hfit in Hr. rewrite Hr. change (frame_of (payload_of (ss_name s) (ss_epoch s) row)) with (sent_frame s row).
    destruct (split_frame (cl_buf c') (sent_frame s row)) as [-> ->]. rewrite set_buf_same.
    replace (zlen (cl_buf c' ++ sent_frame s row) - zlen (cl_buf c')) with (zlen (sent_frame s row)) by (rewrite zlen_app; lia).
    destruct (Z.ltb_spec (cl_max c') (BATCH_HEADER_BYTES + zlen (sent_frame s row))); [lia|].
    destruct (Z.ltb_spec 0 (zlen (cl_buf c'))) as [_|Hz].
    2:{ exfalso. destruct Hh' as [Eb _ Hfr]. apply Hne, concat_nonempty; [done|]. rewrite <-Eb. apply zlen_zero. zlen_lia. }
    destruct (Z.ltb_spec (cl_max c') (BATCH_HEADER_BYTES + zlen (cl_buf c' ++ sent_frame s row))) as [_|Hz].
    2:{ exfalso. rewrite zlen_app in Hz. pose proof (zlen_nonneg (sent_frame s row)). lia. }
    cbn [andb]. destruct Hflush as [e ->]. by eexists.
  - unfold client_drop. destruct Hflush as [e ->]. by destruct (0 <? cl_pending c').
Qed.
End client.

(** ** Instances *)

#[local] Existing Instance Crc32_ieee.
#[local] Existing Instance client_numbers.

Definition orders_schema : SeriesSchema :=
  mkSchema (lit "orders") 3 [mkKey (lit "qty") KI64 false; mkKey (lit "region") KStr true; mkKey (lit "ok") KBool true].

(** The reply of a server that takes 200 bytes at most. *)
Definition sample_exchange : Exchange :=
  answered (number_bytes (SchemaResp [orders_schema] (Some 200))) ZDone.

(** Batches of at most two records and 200 bytes, on a socket that is full once. *)
Definition sample_connect : result Error (Client * ReqSocket) :=
  connect (builder_batch builder_default 2) [] sample_exchange [Accepted; Eagain].

Definition sample_client : Client :=
  match sample_connect with Ok (c, _) => c | Err _ => client_new builder_default [] end.

Definition sample_req : ReqSocket :=
  match sample_connect with Ok (_, q) => q | Err _ => mkReq 0 0 [] end.

Lemma sample_connected : sample_connect = Ok (sample_client, sample_req).
Proof. vm_compute. reflexivity. Qed.

Definition sample_events : list cevent :=
  [SendE orders_schema sample_row; SendE orders_schema sample_row; SendE orders_schema sample_row; FlushE].

Lemma client_stream_witness :
  let '(c', rs) := crun sample_client sample_events in
  Forall2 (call_ok sample_client) sample_events rs /\
  exists h fs, story c' h fs (frames_accepted sample_client sample_events).
Proof.
  pose proof (client_stream_exact (builder_batch builder_default 2) [] sample_exchange [Accepted; Eagain] sample_client
    sample_req sample_events) as H.
  destruct (crun sample_client sample_events) as [c' rs]. destruct H as (H1 & _ & h & fs & H2 & _).
  - exact sample_connected.
  - vm_compute. discriminate.
  - vm_compute. discriminate.
  - intros Hin. apply elem_of_cons in Hin as [Hin|Hin]; [discriminate|].
    apply list_elem_of_singleton in Hin. discriminate.
  - split; [exact H1|]. exists h, fs. exact H2.
Defined.

(** One record buffered, then a server that takes 20 bytes at most. *)
Definition loaded_client : Client := (send sample_client orders_schema sample_row).1.

Lemma loaded_story : exists h fs, story loaded_client h fs [sent_frame orders_schema sample_row] /\ fs <> [].
Proof.
  exists [], [sent_frame orders_schema sample_row]. split; [|done].
  split; [split| | | | | |]; try (vm_compute; reflexivity); try (vm_compute; discriminate); repeat constructor; vm_compute; discriminate.
Qed.

Lemma lower_limit_witness :
  let c' := (refresh_schema loaded_client (Ok (SchemaResp [orders_schema] (Some 20)))).1 in
  (exists e, client_flush c' = (c', Err e)) /\ (forall s row, exists e, send c' s row = (c', Err e)).
Proof.
  destruct loaded_story as (h & fs & Hst & Hne).
  destruct (lower_limit_wedges loaded_client h fs _ [orders_schema] 20 Hst Hne) as (H1 & H2 & _).
  - vm_compute. reflexivity.
  - exact (conj H1 H2).
Defined.
