(* ===== verification/ServerTheorems.v ===== *)
(** * ServerTheorems: from a remote producer to the log *)

From Stdlib Require Import ZArith Lia.
From Stdlib Require Import Strings.Byte.
From S2P Require Import Prelude Text Record Codec CodecProofs CodecTheorems Disk Wal Reader Errors Config Manifest Columns Planner Writer Engine EngineProofs EngineTheorems Client ClientTheorems Server.
Open Scope Z_scope.

Section server.
Context `{Crc32} `{Parquet} `{ManifestJson} `{ControlJson} `{StdText}.

(** ** The handshake *)

(** The handles of an engine are filed under their names. *)
Definition handles_ok (e : Inner) : Prop :=
  map_Forall (fun name h => sh_name h = name /\ str_wf name /\ 0 <= sh_epoch h < u32_lim) (i_handles e).

Definition schema_of (h : SeriesHandle) : SeriesSchema := mkSchema (sh_name h) (sh_epoch h) (sh_keys h).

Lemma fold_schema_lookup (l : list SeriesSchema) (m0 : gmap bytes SeriesSchema) name :
  NoDup (ss_name <$> l) ->
  foldl (fun m s => <[ss_name s := s]> m) m0 l !! name
  = match List.find (fun s => bool_decide (ss_name s = name)) l with Some s => Some s | None => m0 !! name end.
Proof.
  revert m0. induction l as [|s l IH]; intros m0 Hnd; [done|]. cbn in Hnd. apply NoDup_cons in Hnd as [Hx Hnd].
  cbn [foldl List.find]. rewrite IH by done. destruct (bool_decide_reflect (ss_name s = name)) as [<-|Hne].
  - destruct (List.find _ l) as [s'|] eqn:Ef; [|apply lookup_insert_eq]. exfalso. apply Hx.
    apply find_some in Ef as [Hin E]. apply bool_decide_eq_true in E. rewrite <-E.
    apply list_elem_of_In in Hin. by apply list_elem_of_fmap_2.
  - destruct (List.find _ l); [done|]. by rewrite lookup_insert_ne.
Qed.

Lemma server_schema_names sv : handles_ok (sv_engine sv) -> NoDup (ss_name <$> server_schema sv) /\
  forall s, s ∈ server_schema sv <-> exists h, i_handles (sv_engine sv) !! ss_name s = Some h /\ s = schema_of h.
Proof.
  intros Hok. set (hs := i_handles (sv_engine sv)) in *.
  assert (forall name h, (name, h) ∈ map_to_list hs -> sh_name h = name) as Hname.
  { intros name h Hin. apply elem_of_map_to_list in Hin. by apply (Hok name h). }
  split.
  - unfold server_schema. fold hs. eapply (NoDup_Permutation_proper _ (ss_name <$> (schema_of <$> (map_to_list hs).*2))).
    { apply fmap_Permutation, sort_perm. }
    rewrite <-list_fmap_compose, <-list_fmap_compose.
    replace ((ss_name ∘ schema_of ∘ snd) <$> map_to_list hs) with (map_to_list hs).*1; [apply NoDup_fst_map_to_list|].
    apply list_fmap_ext. intros i [name h] Hi. cbn. symmetry. apply Hname. by eapply list_elem_of_lookup_2.
  - intros s. unfold server_schema. fold hs. rewrite elem_of_sort, list_elem_of_fmap. split.
    + intros (h & -> & Hin). apply list_elem_of_fmap in Hin as ([name h'] & E & Hin). cbn in E. subst h'.
      exists h. split; [|done]. cbn. rewrite (Hname _ _ Hin). by apply elem_of_map_to_list.
    + intros (h & Hl & ->). exists h. split; [done|]. apply list_elem_of_fmap. exists (sh_name h, h).
      split; [done|]. by apply elem_of_map_to_list.
Qed.

(** The client after a handshake with the server. *)
Definition handshaken (c0 : Client) (sv : Server) : Client :=
  (refresh_schema c0 (Ok (SchemaResp (server_schema sv) (Some (sv_max_batch_bytes sv))))).1.

Lemma handshake_series c0 sv name s : handles_ok (sv_engine sv) ->
  client_series (handshaken c0 sv) name = Ok s <->
  exists h, i_handles (sv_engine sv) !! name = Some h /\ s = schema_of h.
Proof.
  intros Hok. destruct (server_schema_names sv Hok) as [Hnd Hin]. unfold client_series, handshaken. cbn.
  rewrite fold_schema_lookup by done. rewrite lookup_empty. split.
  - destruct (List.find _ _) as [s'|] eqn:Ef; [|done]. intros [= <-]. apply find_some in Ef as [Hs E].
    apply bool_decide_eq_true in E. apply list_elem_of_In in Hs. apply Hin in Hs as (h & Hl & ->). rewrite E in Hl. by exists h.
  - intros (h & Hl & ->). assert (ss_name (schema_of h) = name) as En by (by apply (Hok name h)).
    destruct (List.find _ _) as [s'|] eqn:Ef.
    + apply find_some in Ef as [Hs E]. apply bool_decide_eq_true in E. apply list_elem_of_In in Hs.
      apply Hin in Hs as (h' & Hl' & ->). rewrite E, Hl in Hl'. by injection Hl' as <-.
    + exfalso. eapply find_none in Ef; [|apply list_elem_of_In, Hin; exists h; by rewrite En].
      by apply bool_decide_eq_false in Ef.
Qed.

(** ** Ingest *)

(** A record a client sends after the handshake, within the server's record limit. *)
Definition remote_row (c : Client) (limit : Z) (x : SeriesSchema * Row) : Prop :=
  client_series c (ss_name x.1) = Ok x.1 /\ row_wf x.2 /\ fits (ss_name x.1) (ss_epoch x.1) x.2 = true /\
  zlen (sent_frame x.1 x.2) <= FRAME_HEADER_BYTES + limit.

Lemma remote_frame c0 sv x now : handles_ok (sv_engine sv) ->
  let e := sv_engine sv in
  remote_row (handshaken c0 sv) (record_limit e) x -> in_window e now (row_ts x.2) ->
  valid_frame (record_limit e) (sent_frame x.1 x.2) /\ judge e now (sent_frame x.1 x.2) = Taken.
Proof.
  intros Hok e (Hs & Hwf & Hfit & Hsz) Hw. destruct x as [s row]. cbn [fst snd] in *.
  apply (handshake_series c0 sv _ _ Hok) in Hs as (h & Hl & Es). destruct (Hok _ _ Hl) as (_ & Hstr & Hep).
  assert (ss_epoch s = sh_epoch h) as Ee by (by rewrite Es).
  assert (readable (fun _ _ => Some (length (row_keys row))) (record_limit e) (mkWritten (ss_name s) (ss_epoch s) row)) as Hr.
  { unfold readable. cbn [wr_series wr_epoch wr_row].
    split_and!; first [done|rewrite Ee; lia|exact Hsz]. }
  destruct (readable_frame _ (record_limit e) _ 0 Hr) as [Hv _]. split; [exact Hv|].
  unfold sent_frame in *. destruct Hv as (p & Ep & Hp). unfold judge. rewrite Ep.
  assert (pre_ts p = row_ts row /\ pre_series p = ss_name s /\ pre_epoch p = ss_epoch s) as (-> & -> & ->).
  { unfold written_frame in Ep. cbn [wr_series wr_epoch wr_row] in Ep.
    pose proof (fits_min (ss_name s) (ss_epoch s) row) as Hmin. pose proof (fits_payload _ _ _ Hfit) as Hu.
    destruct Hr as (_ & Ws & He & _ & Hl' & _). cbn [wr_series wr_epoch wr_row] in *.
    unfold written_frame in Hl'. cbn [wr_series wr_epoch wr_row] in Hl'. rewrite zlen_frame_of in Hl'.
    pose proof (decode_payload_of (ss_name s) (ss_epoch s) row (zlen (frame_of (payload_of (ss_name s) (ss_epoch s) row))) Hwf Ws He Hfit) as Hd.
    destruct (decode_readers _ _ _ Hu Hd) as [Hpre _]. cbn in Hpre.
    rewrite <-(app_nil_r (frame_of _)) in Ep. erewrite validate_prefix_frame_of in Ep; [|lia|done|exact Hpre].
    by injection Ep as <-. }
  rewrite decide_True by done. unfold known_series, e. by rewrite Hl, Ee, Z.leb_refl.
Qed.

Lemma counters_taken n c :
  add_rejected_frames (0 + 0 + 0 + 0) (add_appended_rows (0 + n) (add_rejections 0 0 c)) = add_appended_rows n c.
Proof. destruct c. unfold add_rejected_frames, add_appended_rows, add_rejections. cbn. by rewrite !Z.add_0_r. Qed.

Lemma counters_none c : add_rejections 0 0 c = c.
Proof. destruct c. unfold add_rejections. cbn. by rewrite !Z.add_0_r. Qed.

(** C27: From a remote producer to the log. After a handshake a client knows exactly the
    engine's series, each with the epoch and the key order of its handle. A message of
    records sent for those series, inside the server's record limit and accept window,
    is ingested whole: its header parses, its frames go to the log unchanged, in order
    and in one append, every one is counted as appended and none as rejected. *)
Theorem remote_rows_reach_log c0 sv l nows wnow w w' s r :
  let e := sv_engine sv in
  handles_ok e -> l <> [] -> Forall (remote_row (handshaken c0 sv) (record_limit e)) l ->
  (forall i x, l !! i = Some x -> in_window e (nows i) (row_ts x.2)) ->
  let frames := (fun x => sent_frame x.1 x.2) <$> l in
  append_bytes (effective_config (cfg_wal (i_config e))) (i_wal e) (concat frames) wnow w = (w', Ret (s, r)) ->
  (forall name sc, client_series (handshaken c0 sv) name = Ok sc <->
     exists h, i_handles e !! name = Some h /\ sc = schema_of h) /\
  exists e', ingest_batch sv (message frames) nows wnow w = (w', Ret (set_engine sv e')) /\
    i_wal e' = s /\ i_counters e' = match r with
                                    | Ok _ => add_appended_rows (zlen l) (i_counters e)
                                    | Err _ => i_counters e
                                    end.
Proof.
  intros e Hok Hne Hrows Hwin frames Er. split; [intros name sc; by apply handshake_series|].
  assert (Forall (valid_frame (record_limit e)) frames) as Hv.
  { apply Forall_fmap, Forall_forall. intros x Hx. apply list_elem_of_lookup in Hx as [i Hi]. rewrite Forall_forall in Hrows.
    by apply (remote_frame c0 sv x (nows i) Hok (Hrows x (list_elem_of_lookup_2 _ _ _ Hi)) (Hwin i x Hi)). }
  assert (judged e nows frames = (fun f => (f, Taken)) <$> frames) as Ej.
  { unfold judged. apply list_eq. intros i. rewrite list_lookup_imap, list_lookup_fmap. unfold frames. rewrite list_lookup_fmap.
    destruct (l !! i) as [x|] eqn:Hi; [|done]. cbn. do 2 f_equal. rewrite Forall_forall in Hrows.
    by apply (remote_frame c0 sv x (nows i) Hok (Hrows x (list_elem_of_lookup_2 _ _ _ Hi)) (Hwin i x Hi)). }
  assert (forall v (fs : list bytes), with_verdict v ((fun f => (f, Taken)) <$> fs) = if decide (Taken = v) then fs else []) as Hall.
  { intros v fs. induction fs as [|f fs IH]; [by destruct (decide _)|]. rewrite fmap_cons, with_verdict_cons, IH. by destruct (decide _). }
  assert (parse_batch_header (message frames) = Ok (zlen frames mod u32_lim)) as Hh.
  { apply (parse_header_iff (message frames) BATCH_HEADER_BYTES 4 _ eq_refl). split; [apply Z.mod_pos_bound; done|]. by eexists. }
  unfold ingest_batch. rewrite Hh.
  replace (drop (Z.to_nat BATCH_HEADER_BYTES) (message frames)) with (concat frames ++ [])
    by (rewrite app_nil_r; symmetry; by apply (take_drop_frame (encode_batch_header [] (zlen frames mod u32_lim)))).
  destruct (append_raw_spec e nows wnow w frames [] Hv (or_introl eq_refl)) as [_ Hsome].
  rewrite Ej, (Hall Taken), decide_True in Hsome by done.
  assert (frames <> []) as Hnf by (unfold frames; destruct l; done).
  unfold mbind, io_bind. cbn [exec]. fold e. rewrite (Hsome Hnf w' s r Er).
  assert (zlen frames = zlen l) as El by (unfold frames, zlen; by rewrite length_fmap).
  assert (with_verdict Late ((fun f => (f, Taken)) <$> frames) = []) as HL by apply (Hall Late).
  assert (with_verdict Foreign ((fun f => (f, Taken)) <$> frames) = []) as HF by apply (Hall Foreign).
  assert (with_verdict Taken ((fun f => (f, Taken)) <$> frames) = frames) as HT by apply (Hall Taken).
  eexists. split; [done|]. unfold counted, raw_total. rewrite HL, HF, HT, El. change (zlen []) with 0.
  destruct r as [wake|err]; (split; [done|]); [apply counters_taken|apply counters_none].
Qed.
End server.

(** ** Instances *)

#[local] Existing Instance Crc32_ieee.

Definition sample_server : Server := bind sample_engine sample_config.

Lemma sample_handles_ok : handles_ok (sv_engine sample_server).
Proof.
  intros name h Hl. cbn in Hl. apply lookup_singleton_Some in Hl as [<- <-].
  split; [done|]. split; [vm_compute; reflexivity|]. split; [discriminate|reflexivity].
Qed.

Lemma remote_rows_witness :
  match append_bytes (effective_config wal_default) (i_wal sample_engine) (sent_frame orders_schema sample_row) 0 (mkWorld ∅ []) with
  | (w', Ret (s, r)) =>
      exists e', ingest_batch sample_server (message [sent_frame orders_schema sample_row]) (fun _ => 1700000000000) 0 (mkWorld ∅ [])
        = (w', Ret (set_engine sample_server e')) /\ i_wal e' = s
  | _ => False
  end.
Proof.
  destruct (append_bytes _ _ _ _ _) as [w' [[s r]|err|]] eqn:E; [|vm_compute in E; congruence..].
  destruct (remote_rows_reach_log (client_new builder_default []) sample_server [(orders_schema, sample_row)]
    (fun _ => 1700000000000) 0 (mkWorld ∅ []) w' s r sample_handles_ok) as (_ & e' & H1 & H2 & _).
  - discriminate.
  - constructor; [|constructor]. split; [vm_compute; reflexivity|]. split; [exact sample_row_wf|].
    split; [vm_compute; reflexivity|vm_compute; discriminate].
  - intros [|i] x Hx; [|discriminate]. injection Hx as <-. vm_compute. split; discriminate.
  - cbn [fmap list_fmap concat fst snd]. rewrite app_nil_r. exact E.
  - exists e'. exact (conj H1 H2).
Defined.
