(* ===== verification/Cli.v ===== *)
(** * Cli: the command line client and the server binary ([bin/orc-cli.rs],
    [bin/orc-server.rs])

    [orc-cli send] turns lines of JSON on standard input into records; the other commands
    are one control call. [orc-server] resolves its configuration, opens the engine and
    runs the server. Arguments arrive parsed. *)

From Stdlib Require Import ZArith Lia.
From Stdlib Require Import Strings.Byte.
From S2P Require Import Prelude Text Record Codec Reader Errors CodecProofs CodecTheorems Disk Lock Config Manifest Columns Planner Engine Client Server Wire ClientTheorems.
Open Scope Z_scope.

(** ** Lines of JSON *)

(** [serde_json::Value]; a number is what [as_i64] and [as_f64] say of it. *)
Inductive JsonValue : Type :=
| JNull
| JBool (b : bool)
| JNumber (as_i64 as_f64 : option Z)
| JString (s : bytes)
| JArray
| JObject.

(** [struct JsonRecord]; [extra] is a [BTreeMap], in key order. *)
Record JsonRecord := mkJson {
  jr_ts : Z;
  jr_id : bytes;
  jr_keys : list JsonValue;
  jr_extra : list (bytes * bytes);
  jr_data : bytes
}.

(** [serde_json::from_str] at [JsonRecord]. *)
Class LineJson := record_from_str : bytes -> option JsonRecord.

Definition json_to_value (v : JsonValue) : result string Value :=
  match v with
  | JNull => Ok VNull
  | JBool b => Ok (VBool b)
  | JNumber (Some i) _ => Ok (VI64 i)
  | JNumber None f => Ok (VF64 (default 0 f))
  | JString s => Ok (VStr s)
  | JArray => Err "a key value may not be an array"%string
  | JObject => Err "a key value may not be an object"%string
  end.

(** [parsed.keys.iter().map(json_to_value).collect()]. *)
Fixpoint json_keys (vs : list JsonValue) : result string (list Value) :=
  match vs with
  | [] => Ok []
  | v :: vs' =>
      match json_to_value v with
      | Err why => Err why
      | Ok x => match json_keys vs' with Err why => Err why | Ok xs => Ok (x :: xs) end
      end
  end.

Section cli.
Context `{Crc32} `{LineJson}.

(** What the loop does with a line: pass over it, report it, or send its row. *)
Inductive line_kind := Blank | Malformed | Record_ (row : Row).

Definition line_of (line : bytes) : line_kind :=
  if bool_decide (trim line = []) then Blank
  else
    match record_from_str line with
    | None => Malformed
    | Some parsed =>
        match json_keys (jr_keys parsed) with
        | Err _ => Malformed
        | Ok keys => Record_ (mkRow (jr_ts parsed) (jr_id parsed) keys (jr_extra parsed) (jr_data parsed))
        end
    end.

(** The loop of [send] in orc-cli.rs: the client, the numbers of the reported lines and
    the result. A line that cannot be read ends the loop, and so does a failed send. *)
Fixpoint send_lines (c : Client) (s : SeriesSchema) (lines : list (result IoError bytes)) (line_no : Z)
    : Client * list Z * result Error unit :=
  match lines with
  | [] => (c, [], Ok tt)
  | Err e :: _ => (c, [], Err (Io e))
  | Ok line :: lines' =>
      let line_no := line_no + 1 in
      match line_of line with
      | Blank => send_lines c s lines' line_no
      | Malformed =>
          let '(c, bad, r) := send_lines c s lines' line_no in (c, line_no :: bad, r)
      | Record_ row =>
          match send c s row with
          | (c, Err e) => (c, [], Err e)
          | (c, Ok _) => send_lines c s lines' line_no
          end
      end
  end.

(** [send] of orc-cli.rs; the statistics are printed. *)
Definition cli_send (c : Client) (series_name : bytes) (lines : list (result IoError bytes))
    : Client * list Z * result Error ClientStats :=
  match client_series c series_name with
  | Err e => (c, [], Err e)
  | Ok s =>
      match send_lines c s lines 0 with
      | (c, bad, Err e) => (c, bad, Err e)
      | (c, bad, Ok _) =>
          match client_flush c with
          | (c, Err e) => (c, bad, Err e)
          | (c, Ok _) => (c, bad, Ok (cl_stats c))
          end
      end
  end.
End cli.

(** ** The commands *)

(** [enum Cmd]. *)
Inductive Cmd := CmdPing | CmdStats | CmdFlush | CmdSchema | CmdShutdown | CmdSend (series : bytes) (batch : Z).

(** [struct Args] of orc-cli.rs. *)
Record CliArgs := mkArgs { ca_ingest : bytes; ca_control : option bytes; ca_cmd : Cmd }.

(** The builder [run] makes of the arguments. *)
Definition cli_builder (a : CliArgs) : ClientBuilder :=
  let batch := match ca_cmd a with CmdSend _ batch => batch | _ => 1 end in
  let b := builder_on_full (builder_batch (builder_ingest builder_default (ca_ingest a)) batch) Block in
  match ca_control a with Some control => builder_control b control | None => b end.

Definition cli_request (cmd : Cmd) : option ControlRequest :=
  match cmd with
  | CmdPing => Some Ping
  | CmdStats => Some StatsReq
  | CmdFlush => Some FlushReq
  | CmdSchema => Some SchemaReq
  | CmdShutdown => Some Shutdown
  | CmdSend _ _ => None
  end.

Section run.
Context `{Crc32} `{LineJson} `{ClientJson}.

(** [run] of orc-cli.rs: the messages the ingest socket took, with the client's drop at
    the end, and the reply that is printed. *)
Definition cli_run (a : CliArgs) (calls : list ZmqAnswer) (x1 x2 : Exchange) (answers : list PushResult)
    (lines : list (result IoError bytes)) : list bytes * result Error (option ControlResponse) :=
  match connect (cli_builder a) calls x1 answers with
  | Err e => ([], Err e)
  | Ok (c, q) =>
      let '(c, r) :=
        match ca_cmd a with
        | CmdSend series _ =>
            let '(c, _, r) := cli_send c series lines in (c, match r with Ok _ => Ok None | Err e => Err e end)
        | cmd =>
            (c, match cli_request cmd with
                | None => Ok None
                | Some req => match (control q req x2).2 with Ok reply => Ok (Some reply) | Err e => Err e end
                end)
        end in
      (cl_out (client_drop c), r)
  end.
End run.

(** ** The server binary *)

(** [struct Args] of orc-server.rs. *)
Record ServerArgs := mkServerArgs { sa_data : option bytes; sa_config : option bytes; sa_force_unlock : bool }.

Definition DEFAULT_DATA_DIR : bytes := lit "./data".

(** [Path::join] with a relative name. *)
Definition path_join (dir name : bytes) : bytes :=
  if bool_decide (dir = [] \/ last dir = Some x2f) then dir ++ name else dir ++ x2f :: name.

Definition config_path (a : ServerArgs) : bytes :=
  match sa_config a with
  | Some p => p
  | None => path_join (default DEFAULT_DATA_DIR (sa_data a)) (lit "config.json")
  end.

(** [--data] overrides the file's [data_dir]. *)
Definition with_data (a : ServerArgs) (c : Config) : Config :=
  match sa_data a with
  | Some data => mkConfig data (cfg_server c) (cfg_limits c) (cfg_wal c) (cfg_flush c) (cfg_series c)
  | None => c
  end.

Section server.
Context `{Crc32} `{Parquet} `{ManifestJson} `{ControlJson} `{StdText} `{Lowercase}.

(** [run] of orc-server.rs. [at_] is where the operating system finds a path; when it
    returns, the last reference to the engine is dropped. *)
Definition orc_server (from_str : bytes -> option Config) (at_ : bytes -> path) (a : ServerArgs)
    (pid : Z) (age : option Z) (calls : list ZmqAnswer) (polls : list Poll) (queue : list Recv) (now wnow : Z) : io unit :=
  config ← config_load from_str (at_ (config_path a));
  let config := with_data a config in
  e ← open_with config pid age (sa_force_unlock a) now wnow;
  match bind_sockets calls e config with
  | Err err => engine_drop e wnow ;; throw err
  | Ok sv =>
      r ← server_run sv polls queue wnow;
      engine_drop (sv_engine r.1) wnow ;;
      lift r.2
  end.
End server.

(** ** What [send] puts on the wire *)

Section theorems.
Context `{Crc32} `{LineJson}.

(** The rows of the lines up to the first that cannot be read or sent, and whether there
    is no such line. *)
Fixpoint rows_sent (c : Client) (s : SeriesSchema) (lines : list (result IoError bytes)) : list Row * bool :=
  match lines with
  | [] => ([], true)
  | Err _ :: _ => ([], false)
  | Ok line :: lines' =>
      match line_of line with
      | Record_ row =>
          if decide (sendable c s row) then let '(rows, all) := rows_sent c s lines' in (row :: rows, all)
          else ([], false)
      | _ => rows_sent c s lines'
      end
  end.

(** The numbers of the malformed lines among them. *)
Fixpoint lines_reported (c : Client) (s : SeriesSchema) (lines : list (result IoError bytes)) (n : Z) : list Z :=
  match lines with
  | Ok line :: lines' =>
      match line_of line with
      | Record_ row => if decide (sendable c s row) then lines_reported c s lines' (n + 1) else []
      | Malformed => (n + 1) :: lines_reported c s lines' (n + 1)
      | Blank => lines_reported c s lines' (n + 1)
      end
  | _ => []
  end.

Lemma rows_sent_max c c' s lines : cl_max c' = cl_max c -> rows_sent c' s lines = rows_sent c s lines.
Proof.
  intros E. induction lines as [|[line|e] lines IH]; [done| |done]. cbn [rows_sent].
  destruct (line_of line) as [| |row]; [done|done|].
  assert (sendable c' s row <-> sendable c s row) as Hiff by (unfold sendable; by rewrite E).
  destruct (decide (sendable c' s row)), (decide (sendable c s row)); tauto || (try done). by rewrite IH.
Qed.

Lemma lines_reported_max c c' s lines n : cl_max c' = cl_max c -> lines_reported c' s lines n = lines_reported c s lines n.
Proof.
  intros E. revert n. induction lines as [|[line|e] lines IH]; intros n; [done| |done]. cbn [lines_reported].
  destruct (line_of line) as [| |row]; [done|by rewrite IH|].
  assert (sendable c' s row <-> sendable c s row) as Hiff by (unfold sendable; by rewrite E).
  destruct (decide (sendable c' s row)), (decide (sendable c s row)); tauto || done.
Qed.

Lemma send_lines_story c h fs acc s lines n : story c h fs acc -> working c ->
  exists c' h' fs' r, send_lines c s lines n = (c', lines_reported c s lines n, r) /\
    story c' h' fs' (acc ++ (sent_frame s <$> (rows_sent c s lines).1)) /\ working c' /\
    if (rows_sent c s lines).2 then r = Ok tt else exists e, r = Err e.
Proof.
  revert c h fs acc n. induction lines as [|[line|e] lines IH]; intros c h fs acc n Hst Hw.
  - exists c, h, fs, (Ok tt). cbn. by rewrite app_nil_r.
  - cbn [send_lines rows_sent lines_reported]. destruct (line_of line) as [| |row].
    + by apply (IH c h fs acc).
    + destruct (IH c h fs acc (n + 1) Hst Hw) as (c' & h' & fs' & r & -> & Hr). by exists c', h', fs', r.
    + destruct (decide (sendable c s row)) as [Hs|Hn].
      * destruct (send_story c h fs acc s row Hst Hw Hs) as (c1 & h1 & fs1 & -> & Hst1 & Hw1 & Em).
        destruct (IH c1 h1 fs1 _ (n + 1) Hst1 Hw1) as (c' & h' & fs' & r & -> & Hr).
        rewrite (lines_reported_max c c1), (rows_sent_max c c1) in * by done.
        exists c', h', fs', r. split; [done|]. destruct (rows_sent c s lines) as [rows all]. cbn [fst snd fmap list_fmap] in *.
        by rewrite <-app_assoc in Hr.
      * destruct (send_refused c s row Hn) as [e ->]. exists c, h, fs, (Err e). cbn. rewrite app_nil_r. by eauto.
  - exists c, h, fs, (Err (Io e)). cbn. rewrite app_nil_r. by eauto.
Qed.

(** C29: [orc-cli send] sends exactly the rows of its input. On a connected client whose
    socket is at worst full, the records on the wire and in the buffer are, in order and
    each once, the rows of the lines up to the first line that cannot be read or whose
    row cannot be sent; blank lines are passed over and exactly the malformed ones are
    reported by number. If there is no such line the command succeeds, nothing is left in
    the buffer, and the printed counts of sent and dropped records add up to the rows. *)
Theorem cli_send_exact `{ClientJson} b calls x answers c q name s lines :
  connect b calls x answers = Ok (c, q) -> 1 <= cb_batch b -> BATCH_HEADER_BYTES <= cl_max c -> Broken ∉ answers ->
  client_series c name = Ok s ->
  let '(c', bad, r) := cli_send c name lines in
  let '(rows, all) := rows_sent c s lines in
  bad = lines_reported c s lines 0 /\
  exists h fs, story c' h fs (sent_frame s <$> rows) /\
    if all : bool
    then r = Ok (cl_stats c') /\ fs = [] /\ records_sent (cl_stats c') + records_dropped (cl_stats c') = zlen rows
    else exists e, r = Err e.
Proof.
  intros Hc Hb Hm Hans Hs. destruct (connect_new b calls x answers c q Hc) as (series & max & Ec).
  assert (story c [] [] [] /\ working c) as [Hst Hw] by (rewrite Ec in *; by split).
  unfold cli_send. rewrite Hs. destruct (send_lines_story c [] [] [] s lines 0 Hst Hw) as (c1 & h & fs & r & -> & Hst1 & Hw1 & Hr).
  destruct (rows_sent c s lines) as [rows all]. cbn [fst snd app] in *. destruct all.
  - subst r. destruct (flush_story c1 h fs _ Hst1 Hw1) as (c' & h' & -> & Hst' & _). split; [done|]. exists h', []. split; [done|].
    split; [done|]. split; [done|]. destruct Hst' as [[_ Ep _] _ _ _ _ Hcount _]. rewrite Ep, zlen_nil in Hcount.
    unfold zlen in *. rewrite length_fmap in Hcount. lia.
  - destruct Hr as [e ->]. split; [done|]. exists h, fs. split; [done|]. by eexists.
Qed.
End theorems.

(** ** Instances *)

#[local] Existing Instance Crc32_ieee.
#[local] Existing Instance client_numbers.

(** A line [r] is a record; anything else that is not blank is malformed. *)
Definition letter_json : LineJson := fun line =>
  if decide (line = lit "r") then Some (mkJson 1700000000000000 (lit "a") [JNumber (Some 3) (Some 0); JString (lit "eu"); JNull] [] (lit "{}"))
  else None.

Definition sample_lines : list (result IoError bytes) := [Ok (lit "r"); Ok (lit " "); Ok (lit "?"); Ok (lit "r"); Ok (lit "r")].

Lemma cli_send_witness :
  let '(c', bad, r) := cli_send (H0 := letter_json) sample_client (lit "orders") sample_lines in
  bad = [3] /\ r = Ok (cl_stats c') /\ records_sent (cl_stats c') + records_dropped (cl_stats c') = 3.
Proof.
  pose proof (cli_send_exact (H0 := letter_json) (builder_batch builder_default 2) [] sample_exchange [Accepted; Eagain]
    sample_client sample_req (lit "orders") orders_schema sample_lines sample_connected) as H.
  destruct (cli_send (H0 := letter_json) sample_client (lit "orders") sample_lines) as [[c' bad] r].
  assert (rows_sent (H0 := letter_json) sample_client orders_schema sample_lines
    = (concat (replicate 3 [mkRow 1700000000000000 (lit "a") [VI64 3; VStr (lit "eu"); VNull] [] (lit "{}")]), true)) as E
    by (vm_compute; reflexivity).
  rewrite E in H. destruct H as (Hbad & h & fs & _ & Hr & _ & Hsum).
  - vm_compute. discriminate.
  - vm_compute. discriminate.
  - intros Hin. apply elem_of_cons in Hin as [Hin|Hin]; [discriminate|].
    apply list_elem_of_singleton in Hin. discriminate.
  - vm_compute. reflexivity.
  - split; [rewrite Hbad; vm_compute; reflexivity|]. exact (conj Hr Hsum).
Defined.
